(* ===== verification/_CoqProject ===== *)
-Q . S2P
Prelude.v
F64.v
Abi.v
Keys.v
Toy.v
Delegation.v
Wire.v
Events.v
EventQueue.v
Limits.v
Multiaddr.v
AddressBook.v
Libp2p.v
NodeState.v
Build.v
Calls.v
Inbound.v
Relay.v
Topics.v
Node.v
Ffi.v
ToyNode.v
CallsInv.v
NodeInv.v
Emissions.v
Authentic.v
CallsSpec.v
Bounds.v
Liveness.v
RelayInv.v
Trace.v
Thread.v
FfiSpec.v
PollSpec.v
Startup.v
Session.v
Client.v
ClientSpec.v
Statistics.v
Sampling.v
InteropPeer.v
InteropSpec.v
Holepunch.v
Tests.v
