(* ===== verification/Prelude.v ===== *)
(** * libp2p-ffi: a verification library

    libp2p-ffi puts a rust-libp2p node behind a C interface. A C caller hands
    over options and gets a handle; every call on the handle turns into a
    command on a channel; one runtime thread per node applies the commands,
    drives the libp2p swarm, and pushes what happens as records into a bounded
    queue that the caller polls. A group is an ed25519 key; a node belongs to it
    through a delegation the group signed, and every frame on the network carries
    one. This library models that program and proves what makes it correct.

    ** Parts of the program and where they are modelled

    Foundations:
    - [Prelude]: records, machine integers ([wrap], [as_i32]), Rust's [Result],
      bytes and fixed arrays, and the lemmas and tactics all files share.
    - [F64]: IEEE 754 doubles, as far as the rate limiter computes with them.
    - [Abi] (src/abi.rs): the constants and structs of the C interface.
    - [Keys] (src/keys.rs): node keys and peer ids; libp2p-identity is the class
      [Identity] with its documented laws, [Toy] a concrete instance.

    Data on the wire and in memory:
    - [Delegation] (src/delegation.rs), [Wire] (src/wire.rs), [Events]
      (src/events.rs, EventBuilder; the parser of tests/network.rs).
    - [EventQueue] (src/events.rs, EventQueue): [push], [close], and [poll] as
      the steps between two waits on the condition variable, so that the threads
      of the caller and of the node interleave at the lock.
    - [Limits] (src/limits.rs), [AddressBook] (src/address_book.rs).
    - [Multiaddr]: the helpers on addresses of src/node.rs.

    The node (src/node.rs):
    - [Libp2p]: what the node calls. The swarm is an abstract state, a call that
      changes it an [Action] with the type of its answer; the class [Libp2pLaws]
      has the documented behaviour the theorems rely on (identifiers are not
      reused, topics hash to their names, the clock does not go back, an
      iteration is an order of the elements), with a concrete instance.
    - [NodeState]: [Config], [Command], [Call], [State], [Shared] field for
      field, and the monad [M] the handlers run in. A handler is a function of
      the [World]: the state, the swarm, the address book inside it, the shared
      part, how often the clocks were read, and, as ghost state, every record
      emitted and every reply sent.
    - [Build]: build_swarm and below, the values handed to libp2p's builders.
    - [Calls]: enqueue, advance, Command::Rpc, response, the outbound half of
      rpc_event, the expiry of tick. [Inbound]: inbound_request, respond, reject.
      [Relay]: reserve, relay_lost, nat_status, identified, listen addresses.
      [Topics]: announce, topic_*, gossipsub_event.
    - [Node]: command, kad_event, rpc_event, swarm_event, tick, run,
      await_listeners, run_thread, and the checks of Node::start.

    The C functions (src/ffi.rs):
    - [Ffi]: every exported function, as a computation over the caller's memory
      and the live handles; [None] is a use the header forbids.

    The callers (examples/):
    - [Client]: text, hex, memory that is allocated for as long as a call needs
      it, and how both programs start. [ClientSpec]: what a caller that keeps to
      the header gets.
    - [InteropPeer] (examples/interop_peer.rs): the line-driven peer: its start,
      the thread that reads commands, the loop over events.
    - [Holepunch] (examples/holepunch.rs): the start, the polling and the loops
      of the four roles; a loop is a function of what it meets turn by turn.

    ** What is proved

    - Calls. [NodeInv.call_reported_once], [NodeInv.call_always_waits]: in every
      reachable state ([NodeInv.reachable]: any inputs, any interleaving with the
      network) each submitted call is in progress or was reported exactly once,
      and one in progress waits for something that was really issued. [CallsInv]
      has the invariant, [CallsSpec] the behaviour of advance, enqueue, response,
      outbound failures and the expiry on every branch; [Liveness.calls_end]: the
      first tick past its deadline finds every call over, for good.
    - Authenticity. [Authentic]: a response, a request, a message or an
      announcement reaches the caller only when its frame is exactly the encoding
      of its payload under an unexpired delegation of the right group for the
      peer that sent it, whatever event arrives; and what the node does with each
      on every branch. [Emissions] says which handler emits what.
    - Bounds. [Bounds.node_bounded]: the tables other nodes can fill are bounded,
      and the topic tables are inverse to each other.
    - Histories. [Trace] runs the node on a platform that notes what it hands to
      other nodes and to gossipsub, and compares the notes with the state and with
      the inputs: each inbound channel is answered, closed or still in the table,
      once ([channels_accounted]); every request carries the frame of a call its
      caller submitted and, when the caller named a node, goes to that node
      ([requests_asked]); gossipsub follows the topics of the state and that of
      the announcements, which it follows from the start ([topics_followed]); and
      every message is judged exactly once ([messages_judged_once]).
    - Reachability. [RelayInv]: who holds relay reservations, and that the caller
      was last told the reachability the node has.
    - The queue. [EventQueue]: a bounded channel, first in first out, whose losses
      are all reported, and that drains after it is closed. [Thread]: the node
      only pushes what it emits, so the channel's contract holds between the
      handlers and the caller ([events_reach_caller]), and the life of the thread
      from its start to the closing of the queue. [PollSpec]: the same in the
      caller's memory.
    - The caller. [FfiSpec]: what a C call may do to memory and handles.
      [Session]: no sequence of C calls hands the thread a command that makes it
      panic, and ids are not reused, which is what [reachable] assumes of
      submitted calls. [Startup]: options of older headers, what lp2p_start
      accepts, and that the frames a configuration allows fit libp2p's limits.
    - Statistics and samples. [Statistics.statistics_true]: the bytes that
      lp2p_stats_get writes are those of counts taken of the whole execution -- of
      what the caller was handed, of what the log of [Trace] says went out, of
      what the limits refused and of what the queue dropped -- and of the swarm's
      peers at the last tick, on a configuration whose announcements are made on
      no topic of a key.
      [Sampling.routing_sampled]: what lp2p_routing_sample puts into the caller's
      buffer of the node's table, and that the samples go round it.
    - Programs. [InteropSpec]: a correct caller's options, strings and delegation
      make a node, or it says what the node's thread answered ([peer_started]); a line of the peer's grammar becomes exactly
      its command ([line_understood]), and any other line leaves memory and the
      handle's contract intact ([commands_contract]); what the queue hands out is
      told, event by event, and every request among it answered ([turn_told]).
      [Holepunch.dial_result]: the dialer ends, and its exit code and RESULT line
      are those of a reference that reads them off what its polls reported.
    - Tests. [Tests] runs the unit tests of src/ on the models, so that the models
      are checked against what the program is known to compute.
    - Data. Round trips of delegations, frames and records, the exact behaviour
      of the limiter ([Limits]), and the address book as a bounded FIFO memory.

    ** Conventions, bounds and fuel

    Integers are [Z]; an unsigned integer that the code lets wrap is written with
    [wrap], a counter with [incr64]. A [Duration] and an [Instant] are
    nanoseconds; the [n]-th reading of a clock is a parameter. usize has 64 bits
    and the target is little endian, as on every target the project ships.
    The loops over lists are structural. [load_cstr] takes the size of the memory
    plus one as its fuel, which no readable string exceeds; the walks over a
    polled buffer have one step per byte, and a record is longer than that;
    [Node.run], [Thread.converse] and the loops of the programs go over the
    inputs as they come, and the theorems about the loops say when they end.

    ** What is not modelled, and why

    - libp2p, tokio, the operating system: parameters. Which input [select!] picks
      next is the sequence of inputs; the theorems hold for all of them.
    - guard (catch_unwind) of src/ffi.rs: the bodies of the C functions have no
      panic of their own; memory exhaustion is outside the model. A panic of the
      node's thread is [Unwind].
    - The three hooks of AddressBook that forward to libp2p's dummy handler, the
      Drop of the runtime, src/lib.rs (module declarations).
    - The environment, the standard streams and sleeping of the programs under
      examples/: inputs and outputs of their models.
    - include/, interop/, scripts/, tests/: the C header, harnesses and packaging;
      they use the library and are not part of it. Of the unit tests inside src/
      the one of the provider key is left out: it needs SHA-256 itself.
    - Which peers are dialed for a topic ([Topics.dial_members]) is modelled, but
      nothing is proved of it beyond what every handler keeps. *)

From Stdlib Require Import ZArith Lia Strings.Byte Eqdep_dec.
From Stdlib Require Export Init.Byte.
From stdpp Require Export prelude countable gmap list fin_maps.

#[export] Set Default Goal Selector "!".

Declare Scope ffi_scope.
Delimit Scope ffi_scope with ffi.
Open Scope Z_scope.
Open Scope ffi_scope.

(** ** Record update

    [r <| f := v |>] rebuilds the record [r] with the field [f] replaced, for
    every record that has an [Eta] instance. *)

Class Eta (R : Type) := { eta : R → R }.
Class Setter {R T : Type} (proj : R → T) := { upd : (T → T) → R → R }.
#[global] Arguments upd {R T} proj {Setter} f r /.

Ltac derive_setter :=
  match goal with
  | |- @Setter ?R ?T ?p =>
      let e := constr:(@eta R _) in
      let e := eval hnf in e in
      let e := eval pattern p in e in
      lazymatch e with
      | (fun _ => ?h) _ => fail "no such field"
      | ?h _ => exact {| upd := fun (f : T → T) (r : R) => h (fun x : R => f (p x)) r |}
      end
  end.

#[export] Hint Extern 1 (Setter _) => derive_setter : typeclass_instances.

Notation "r <| p ::= f |>" := (upd p f r)
  (at level 1, p at next level, left associativity,
   format "r  <| p  ::=  f |>") : ffi_scope.
Notation "r <| p := v |>" := (upd p (fun _ => v) r)
  (at level 1, p at next level, left associativity,
   format "r  <| p  :=  v |>") : ffi_scope.

(** ** Machine integers

    An unsigned [w]-bit integer is a [Z]; arithmetic that the code lets wrap
    is written with [wrap]. [as_i32] is Rust's [as i32] cast of an unsigned
    value. [usize] has 64 bits on every target the project ships. *)

Definition wrap (w z : Z) : Z := z mod 2 ^ w.

Definition as_u8 (z : Z) : Z := wrap 8 z.
Definition as_u16 (z : Z) : Z := wrap 16 z.
Definition as_u32 (z : Z) : Z := wrap 32 z.

Definition as_i32 (z : Z) : Z :=
  let u := wrap 32 z in if u <? 2 ^ 31 then u else u - 2 ^ 32.

(** [AtomicU64::fetch_add(1)] and [u64 += 1] of a release build. *)
Definition incr64 (z : Z) : Z := wrap 64 (z + 1).

(** ** Results

    Rust's [Result]; [?] is [res_bind]. *)

Inductive result (A E : Type) : Type :=
| Ok (a : A)
| Err (e : E).
Arguments Ok {A E} a.
Arguments Err {A E} e.

Definition res_bind {A B E} (r : result A E) (k : A → result B E) : result B E :=
  match r with Ok a => k a | Err e => Err e end.

Definition ok {A E} (r : result A E) : option A :=
  match r with Ok a => Some a | Err _ => None end.

Definition is_err {A E} (r : result A E) : bool :=
  match r with Ok _ => false | Err _ => true end.

Definition map_err {A E F} (f : E → F) (r : result A E) : result A F :=
  match r with Ok a => Ok a | Err e => Err (f e) end.

Definition ok_or {A E} (o : option A) (e : E) : result A E :=
  match o with Some a => Ok a | None => Err e end.

Notation "x <-? r ; k" := (res_bind r (fun x => k))
  (at level 100, r at next level, right associativity) : ffi_scope.

#[export] Instance result_eq_dec {A E} `{EqDecision A, EqDecision E} :
  EqDecision (result A E).
Proof. solve_decision. Defined.

(** ** Bytes *)

Abbreviation bytes := (list byte).

#[export] Instance byte_eq_decision : EqDecision byte := Byte.byte_eq_dec.
#[export] Program Instance byte_countable : Countable byte :=
  inj_countable Byte.to_N Byte.of_N _.
Next Obligation. apply Byte.of_to_N. Qed.

Definition byte_val (b : byte) : Z := Z.of_N (Byte.to_N b).

(** The low eight bits of [z]; Rust's [z as u8]. *)
Definition byte_of (z : Z) : byte :=
  default x00 (Byte.of_N (Z.to_N (z mod 256))).

(** The length of a slice, as a [usize]. *)
Definition blen {A} (l : list A) : Z := Z.of_nat (length l).

(** [to_be_bytes] / [from_be_bytes] and their little-endian counterparts, for
    an integer of [n] bytes. Every shipped target is little endian, so
    [to_ne_bytes] is [le_bytes]. *)
Fixpoint le_bytes (n : nat) (z : Z) : bytes :=
  match n with
  | O => []
  | S n => byte_of z :: le_bytes n (z / 256)
  end.

Fixpoint le_value (l : bytes) : Z :=
  match l with
  | [] => 0
  | b :: l => byte_val b + 256 * le_value l
  end.

Definition be_bytes (n : nat) (z : Z) : bytes := rev (le_bytes n z).
Definition be_value (l : bytes) : Z := le_value (rev l).

(** ** Fixed-size arrays

    [array n] is Rust's [[u8; n]]: a list of bytes with its length proved. The
    proof is about a boolean, so two arrays with the same bytes are equal. *)

Record array (n : nat) := mk_array {
  arr :> bytes;
  arr_len : (length arr =? n)%nat = true;
}.
Arguments mk_array {n} arr arr_len.
Arguments arr {n} a : rename.
Arguments arr_len {n} a : rename.

(** The array of [n] bytes whose content is [l], when [l] has that length. *)
Definition to_array (n : nat) (l : bytes) : option (array n) :=
  match bool_dec (length l =? n)%nat true with
  | left H => Some (mk_array l H)
  | right _ => None
  end.

(** [[b; n]]. *)
Lemma repeat_len (n : nat) (b : byte) : (length (repeat b n) =? n)%nat = true.
Proof. apply Nat.eqb_eq, repeat_length. Qed.

Definition array_fill (n : nat) (b : byte) : array n :=
  mk_array (repeat b n) (repeat_len n b).

(** [dst.copy_from_slice(src)]: panics ([None]) unless the lengths agree. *)
Definition copy_from_slice {n} (dst : array n) (src : bytes) : option (array n) :=
  to_array n src.

(** A slice [l[from..to]]; the callers check the bounds. *)
Definition slice (l : bytes) (from to : nat) : bytes := take (to - from) (drop from l).

(** [split_first] and [split_at] of a slice. *)
Definition split_first (l : bytes) : option (byte * bytes) :=
  match l with [] => None | b :: l => Some (b, l) end.

Definition split_at (l : bytes) (n : nat) : bytes * bytes := (take n l, drop n l).

(** ** Lists

    [Iterator::position] and [VecDeque::insert]. *)

Fixpoint position {A} (p : A → bool) (l : list A) : option nat :=
  match l with
  | [] => None
  | x :: l => if p x then Some O else S <$> position p l
  end.

Definition insert_at {A} (i : nat) (x : A) (l : list A) : list A :=
  take i l ++ x :: drop i l.

(** The first [Some] a function answers along a list, [Iterator::find_map]. *)
Fixpoint find_map {A B} (f : A → option B) (l : list A) : option B :=
  match l with
  | [] => None
  | x :: l => match f x with Some y => Some y | None => find_map f l end
  end.

(** ** Lemmas: integers *)

Lemma wrap_small w z : 0 ≤ z < 2 ^ w → wrap w z = z.
Proof. apply Z.mod_small. Qed.

Lemma wrap_add_l w a b : wrap w (wrap w a + b) = wrap w (a + b).
Proof. unfold wrap. apply Zplus_mod_idemp_l. Qed.

Lemma wrap_range w z : 0 ≤ w → 0 ≤ wrap w z < 2 ^ w.
Proof. intros. apply Z.mod_pos_bound. lia. Qed.

Lemma as_i32_small z : 0 ≤ z < 2 ^ 31 → as_i32 z = z.
Proof.
  intros H. unfold as_i32, wrap. rewrite Z.mod_small by lia.
  destruct (Z.ltb_spec z (2 ^ 31)); lia.
Qed.

Lemma as_i32_range z : - 2 ^ 31 ≤ as_i32 z < 2 ^ 31.
Proof.
  unfold as_i32. pose proof (wrap_range 32 z).
  destruct (Z.ltb_spec (wrap 32 z) (2 ^ 31)); lia.
Qed.

(** ** Lemmas: bytes *)

Lemma byte_val_range b : 0 ≤ byte_val b < 256.
Proof. unfold byte_val. pose proof (Byte.to_N_bounded b). lia. Qed.

Lemma byte_val_of z : byte_val (byte_of z) = z mod 256.
Proof.
  unfold byte_val, byte_of. pose proof (Z.mod_pos_bound z 256 eq_refl) as Hm.
  destruct (Byte.of_N (Z.to_N (z mod 256))) as [b|] eqn:E; simpl.
  - apply Byte.to_of_N in E. lia.
  - apply Byte.of_N_None_iff in E. lia.
Qed.

Lemma byte_of_val b : byte_of (byte_val b) = b.
Proof.
  unfold byte_of. rewrite Z.mod_small by apply byte_val_range.
  unfold byte_val. rewrite N2Z.id, Byte.of_to_N. done.
Qed.

Lemma byte_val_inj a b : byte_val a = byte_val b → a = b.
Proof. intros H. rewrite <- (byte_of_val a), <- (byte_of_val b). by f_equal. Qed.

Lemma length_le_bytes n z : length (le_bytes n z) = n.
Proof. revert z; induction n; intros; simpl; auto. Qed.

Lemma length_be_bytes n z : length (be_bytes n z) = n.
Proof. unfold be_bytes. by rewrite length_rev, length_le_bytes. Qed.

Lemma le_value_bytes n z : le_value (le_bytes n z) = wrap (8 * Z.of_nat n) z.
Proof.
  unfold wrap. revert z; induction n as [|n IH]; intros z.
  { simpl. by rewrite Z.mod_1_r. }
  cbn [le_bytes le_value]. rewrite IH, byte_val_of.
  replace (2 ^ (8 * Z.of_nat (S n))) with (256 * 2 ^ (8 * Z.of_nat n)).
  2:{ change 256 with (2 ^ 8). rewrite <- Z.pow_add_r by lia. f_equal; lia. }
  rewrite Z.rem_mul_r by lia. done.
Qed.

Lemma le_bytes_value l : le_bytes (length l) (le_value l) = l.
Proof.
  induction l as [|b l IH]; [done|]. cbn [length le_value le_bytes].
  pose proof (byte_val_range b).
  assert (byte_val b + 256 * le_value l = le_value l * 256 + byte_val b) as -> by lia.
  f_equal.
  - apply byte_val_inj. rewrite byte_val_of, Z.add_comm, Z.mod_add by lia.
    by rewrite Z.mod_small.
  - rewrite Z.div_add_l by lia. rewrite Z.div_small by lia.
    by rewrite Z.add_0_r, IH.
Qed.

Lemma le_bytes_wrap k z : le_bytes k (wrap (8 * Z.of_nat k) z) = le_bytes k z.
Proof. rewrite <- le_value_bytes. rewrite <- (length_le_bytes k z) at 1. apply le_bytes_value. Qed.

Lemma le_value_range l : 0 ≤ le_value l < 2 ^ (8 * blen l).
Proof.
  unfold blen. induction l as [|b l IH]; [simpl; lia|].
  cbn [length le_value]. pose proof (byte_val_range b).
  replace (2 ^ (8 * Z.of_nat (S (length l)))) with (256 * 2 ^ (8 * Z.of_nat (length l))).
  2:{ change 256 with (2 ^ 8). rewrite <- Z.pow_add_r by lia. f_equal; lia. }
  lia.
Qed.

Lemma be_value_bytes n z : be_value (be_bytes n z) = wrap (8 * Z.of_nat n) z.
Proof. unfold be_value, be_bytes. by rewrite rev_involutive, le_value_bytes. Qed.

Lemma be_bytes_value l : be_bytes (length l) (be_value l) = l.
Proof.
  unfold be_value, be_bytes. rewrite <- length_rev, le_bytes_value.
  apply rev_involutive.
Qed.

Lemma blen_app {A} (l k : list A) : blen (l ++ k) = blen l + blen k.
Proof. unfold blen. rewrite length_app. lia. Qed.

Lemma blen_nonneg {A} (l : list A) : 0 ≤ blen l.
Proof. unfold blen. lia. Qed.

(** ** Lemmas: arrays *)

Lemma array_length {n} (a : array n) : length (arr a) = n.
Proof. apply Nat.eqb_eq, arr_len. Qed.

Lemma array_eq {n} (a b : array n) : arr a = arr b → a = b.
Proof.
  destruct a as [l H], b as [k H']; simpl. intros ->. f_equal.
  apply UIP_dec. apply bool_dec.
Qed.

Lemma to_array_arr {n} (a : array n) : to_array n (arr a) = Some a.
Proof.
  unfold to_array. destruct (bool_dec _ _) as [H|H].
  - f_equal. by apply array_eq.
  - destruct H. apply arr_len.
Qed.

Lemma to_array_Some n l a : to_array n l = Some a ↔ arr a = l.
Proof.
  split.
  - unfold to_array. destruct (bool_dec _ _); naive_solver.
  - intros <-. apply to_array_arr.
Qed.

Lemma to_array_is_Some n l : length l = n → is_Some (to_array n l).
Proof.
  intros H. unfold to_array. destruct (bool_dec _ _) as [?|H']; [eauto|].
  destruct H'. by apply Nat.eqb_eq.
Qed.

#[export] Instance array_eq_dec {n} : EqDecision (array n).
Proof.
  intros a b. destruct (decide (arr a = arr b)) as [H|H].
  - left. by apply array_eq.
  - right. naive_solver.
Defined.

#[export] Program Instance array_countable {n} : Countable (array n) :=
  inj_countable (@arr n) (to_array n) _.
Next Obligation. intros n a. apply to_array_arr. Qed.

(** ** Lemmas: lists *)

Lemma take_app_exact {A} (l k : list A) n : length l = n → take n (l ++ k) = l.
Proof. intros <-. apply take_app_length. Qed.

Lemma drop_app_exact {A} (l k : list A) n : length l = n → drop n (l ++ k) = k.
Proof. intros <-. apply drop_app_length. Qed.

Lemma position_Some {A} (p : A → bool) l i :
  position p l = Some i →
  ∃ x, l !! i = Some x ∧ p x = true ∧ ∀ j y, (j < i)%nat → l !! j = Some y → p y = false.
Proof.
  revert i; induction l as [|x l IH]; intros i H; simpl in *; [done|].
  destruct (p x) eqn:E.
  - injection H as <-. exists x. repeat split; auto. lia.
  - destruct (position p l) as [j|] eqn:Ej; [|done]. injection H as <-.
    destruct (IH j eq_refl) as (y & Hy & Hp & Hb). exists y. repeat split; auto.
    intros [|k] z Hk; simpl; [naive_solver|]. apply Hb. lia.
Qed.

Lemma position_None {A} (p : A → bool) l x :
  position p l = None → x ∈ l → p x = false.
Proof.
  induction l as [|y l IH]; simpl; [set_solver|].
  destruct (p y) eqn:E; [done|]. destruct (position p l); [done|].
  intros _ [->|H]%elem_of_cons; auto.
Qed.

Lemma position_lt {A} (p : A → bool) l i : position p l = Some i → (i < length l)%nat.
Proof. intros (x & H & _)%position_Some. by apply lookup_lt_Some in H. Qed.

Lemma insert_at_Permutation {A} i (x : A) l : insert_at i x l ≡ₚ x :: l.
Proof.
  unfold insert_at. rewrite <- Permutation_middle. by rewrite take_drop.
Qed.

Lemma elem_of_insert_at {A} i (x y : A) l : y ∈ insert_at i x l ↔ y = x ∨ y ∈ l.
Proof. by rewrite insert_at_Permutation, elem_of_cons. Qed.

Lemma Forall_filter {A} (P Q : A → Prop) `{∀ x, Decision (Q x)} l : Forall P l → Forall P (filter Q l).
Proof. rewrite !Forall_forall. intros HP x [_ Hx]%list_elem_of_filter. auto. Qed.

Lemma find_map_Some {A B} (f : A → option B) l y :
  find_map f l = Some y → ∃ x, x ∈ l ∧ f x = Some y.
Proof.
  induction l as [|x l IH]; [done|]. cbn. destruct (f x) as [z|] eqn:E.
  - intros [= ->]. exists x. split; [apply list_elem_of_here | done].
  - intros H. destruct (IH H) as (x' & ? & ?). exists x'. split; [by apply list_elem_of_further | done].
Qed.

Lemma find_map_None {A B} (f : A → option B) l :
  find_map f l = None ↔ ∀ x, x ∈ l → f x = None.
Proof.
  split.
  - induction l as [|y l IH]; cbn; [intros _ x H; by apply elem_of_nil in H|].
    destruct (f y) eqn:E; [done|]. intros H x [->|Hx]%elem_of_cons; auto.
  - induction l as [|y l IH]; intros H; [done|]. cbn.
    rewrite H by apply list_elem_of_here. apply IH. intros x Hx. by apply H, list_elem_of_further.
Qed.

(** ** Automation *)

#[global] Arguments be_bytes : simpl never.
#[global] Arguments be_value : simpl never.
#[global] Arguments le_bytes : simpl never.
#[global] Arguments le_value : simpl never.
#[global] Arguments wrap : simpl never.
#[global] Arguments as_i32 : simpl never.
#[global] Arguments to_array : simpl never.
#[global] Arguments array_fill : simpl never.

Create HintDb ffi discriminated.
#[export] Hint Resolve byte_val_range blen_nonneg array_length : ffi.
Create Rewrite HintDb ffi.
#[export] Hint Rewrite @length_le_bytes @length_be_bytes @array_length
  @blen_app @length_app @length_take @length_drop : ffi.

(** Splits the conditionals and matches of the goal or of a hypothesis. *)
Ltac case_all :=
  repeat match goal with
  | |- context [match ?x with _ => _ end] => destruct x eqn:?; simplify_eq/=
  | H : context [match ?x with _ => _ end] |- _ => destruct x eqn:?; simplify_eq/=
  end.

(** Boolean comparisons in the context become arithmetic. *)
Ltac bool_lia :=
  repeat match goal with
  | H : (_ <? _)%Z = true |- _ => apply Z.ltb_lt in H
  | H : (_ <? _)%Z = false |- _ => apply Z.ltb_ge in H
  | H : (_ <=? _)%Z = true |- _ => apply Z.leb_le in H
  | H : (_ <=? _)%Z = false |- _ => apply Z.leb_gt in H
  | H : (_ =? _)%Z = true |- _ => apply Z.eqb_eq in H
  | H : (_ =? _)%Z = false |- _ => apply Z.eqb_neq in H
  end; try lia.

(** Proves a decidable proposition of a concrete input by evaluating it. *)
Ltac evaluate :=
  lazymatch goal with
  | |- ?P => let d := constr:(_ : Decision P) in
             refine (@bool_decide_unpack P d _); vm_compute; exact Logic.I
  end.
