(* ===== verification/F64.v ===== *)
(** * F64: Rust's [f64] as the token buckets use it

    IEEE-754 binary64 in the Standard Library's executable specification
    [SpecFloat] (53 bits of precision, exponents up to 1024, round to nearest
    even). Only the operations the limits need: conversion from an integer,
    [+], [-], [*], [/], [<], [f64::min] and [Duration::as_secs_f64]. The lemmas
    say which of them are exact: whole numbers below 2^53. *)

From Stdlib Require Import ZArith Lia SpecFloat.
From S2P Require Import Prelude.

Abbreviation f64 := spec_float.

Definition f64_prec : Z := 53.
Definition f64_emax : Z := 1024.

(** [n as f64] for a non-negative integer. *)
Definition f64_of (z : Z) : f64 := binary_normalize f64_prec f64_emax z 0 false.

Definition fadd : f64 → f64 → f64 := SFadd f64_prec f64_emax.
Definition fsub : f64 → f64 → f64 := SFsub f64_prec f64_emax.
Definition fmul : f64 → f64 → f64 := SFmul f64_prec f64_emax.
Definition fdiv : f64 → f64 → f64 := SFdiv f64_prec f64_emax.

(** [a < b]; false as soon as one of them is NaN. *)
Definition flt (a b : f64) : bool := SFltb a b.

Definition is_nan (a : f64) : bool :=
  match a with S754_nan => true | _ => false end.

(** [a.min(b)]: a NaN argument gives the other one. *)
Definition fmin (a b : f64) : f64 :=
  if is_nan a then b else if is_nan b then a else if flt b a then b else a.

(** A [Duration] is a number of nanoseconds; [as_secs_f64] is
    [secs as f64 + nanos as f64 / 1e9]. *)
Definition nanos_per_sec : Z := 1000000000.

Definition as_secs_f64 (d : Z) : f64 :=
  fadd (f64_of (d / nanos_per_sec))
       (fdiv (f64_of (d mod nanos_per_sec)) (f64_of nanos_per_sec)).

(** ** Comparison *)

Lemma flt_irrefl a : flt a a = false.
Proof.
  unfold flt, SFltb. destruct a as [s|s| |s m e]; simpl; try done; destruct s; try done.
  - rewrite Z.compare_refl. change (Pos.compare_cont Eq m m) with (m ?= m)%positive.
    by rewrite Pos.compare_refl.
  - rewrite Z.compare_refl. change (Pos.compare_cont Eq m m) with (m ?= m)%positive.
    by rewrite Pos.compare_refl.
Qed.

Lemma fmin_le a b : flt b (fmin a b) = false.
Proof.
  unfold fmin. destruct (is_nan a) eqn:Ha; [apply flt_irrefl|].
  destruct (is_nan b) eqn:Hb; [by destruct b|].
  destruct (flt b a) eqn:Hlt; [apply flt_irrefl | done].
Qed.

Lemma fmin_same a : fmin a a = a.
Proof. unfold fmin. rewrite flt_irrefl. by destruct (is_nan a). Qed.

(** ** Zero *)

Lemma as_secs_f64_zero : as_secs_f64 0 = S754_zero false.
Proof. reflexivity. Qed.

(** Zero times anything that is not infinite or NaN is a zero. *)
Lemma fmul_zero_l (x : f64) :
  fmul (S754_zero false) x = S754_nan ∨ ∃ s, fmul (S754_zero false) x = S754_zero s.
Proof. destruct x as [s|s| |s m e]; simpl; eauto. Qed.

(** Adding a zero changes at most the sign of a zero. *)
Lemma fadd_zero_finite s m e s' :
  fadd (S754_finite s m e) (S754_zero s') = S754_finite s m e.
Proof. reflexivity. Qed.

(** ** Whole numbers below 2^53 are exact *)

Section Exact.

Local Lemma digits_bounds p :
  2 ^ (Z.pos (digits2_pos p) - 1) ≤ Z.pos p < 2 ^ Z.pos (digits2_pos p).
Proof.
  induction p as [p IH|p IH|]; cbn [digits2_pos].
  - rewrite Pos2Z.inj_succ.
    replace (Z.succ (Z.pos (digits2_pos p)) - 1) with (Z.succ (Z.pos (digits2_pos p) - 1)) by lia.
    rewrite !Z.pow_succ_r by lia. lia.
  - rewrite Pos2Z.inj_succ.
    replace (Z.succ (Z.pos (digits2_pos p)) - 1) with (Z.succ (Z.pos (digits2_pos p) - 1)) by lia.
    rewrite !Z.pow_succ_r by lia. lia.
  - simpl. lia.
Qed.

Local Lemma digits_unique p d :
  0 < d → 2 ^ (d - 1) ≤ Z.pos p < 2 ^ d → Z.pos (digits2_pos p) = d.
Proof.
  intros Hd H. pose proof (digits_bounds p) as Hp.
  set (e := Z.pos (digits2_pos p)) in *. assert (0 < e) by (unfold e; lia).
  assert (e - 1 < d) by (apply (Z.pow_lt_mono_r_iff 2); lia).
  assert (d - 1 < e) by (apply (Z.pow_lt_mono_r_iff 2); lia).
  lia.
Qed.

Local Lemma digits_shift p q k :
  0 ≤ k → Z.pos q = Z.pos p * 2 ^ k →
  Z.pos (digits2_pos q) = Z.pos (digits2_pos p) + k.
Proof.
  intros Hk Hq. apply digits_unique; [lia|]. rewrite Hq.
  pose proof (digits_bounds p) as [H1 H2].
  replace (Z.pos (digits2_pos p) + k - 1) with (Z.pos (digits2_pos p) - 1 + k) by lia.
  rewrite !Z.pow_add_r by lia. pose proof (Z.pow_pos_nonneg 2 k). nia.
Qed.

Local Lemma shl_iter p d : Z.pos (Pos.iter xO p d) = Z.pos p * 2 ^ Z.pos d.
Proof.
  revert p. induction d as [|d IH] using Pos.peano_ind; intros p.
  { simpl Pos.iter. lia. }
  rewrite Pos.iter_succ, Pos2Z.inj_succ, Z.pow_succ_r by lia.
  change (Z.pos (Pos.iter xO p d)~0) with (2 * Z.pos (Pos.iter xO p d)).
  rewrite IH. lia.
Qed.

(** Shifting right over low bits that are zero is exact. *)
Local Lemma shr_1_exact m :
  0 ≤ m → shr_1 {| shr_m := 2 * m; shr_r := false; shr_s := false |}
          = {| shr_m := m; shr_r := false; shr_s := false |}.
Proof. destruct m; simpl; done || lia. Qed.

Local Lemma iter_pos_comm {A} (f : A → A) n x :
  SpecFloat.iter_pos f n (f x) = f (SpecFloat.iter_pos f n x).
Proof.
  revert x; induction n as [n IH|n IH|]; intros x; cbn -[Pos.succ]; [..|done].
  - by rewrite !IH.
  - by rewrite !IH.
Qed.

Local Lemma iter_pos_succ {A} (f : A → A) n x :
  SpecFloat.iter_pos f (Pos.succ n) x = SpecFloat.iter_pos f n (f x).
Proof.
  revert x; induction n as [n IH|n IH|]; intros x; [|done..].
  change (SpecFloat.iter_pos f (Pos.succ n~1) x)
    with (SpecFloat.iter_pos f (Pos.succ n) (SpecFloat.iter_pos f (Pos.succ n) x)).
  rewrite !IH. cbn. f_equal. f_equal. symmetry. apply iter_pos_comm.
Qed.

Local Lemma shr_exact m n :
  0 ≤ m →
  SpecFloat.iter_pos shr_1 n {| shr_m := m * 2 ^ Z.pos n; shr_r := false; shr_s := false |}
  = {| shr_m := m; shr_r := false; shr_s := false |}.
Proof.
  intros Hm. revert m Hm; induction n as [|n IH] using Pos.peano_ind; intros m Hm.
  { simpl SpecFloat.iter_pos. replace (m * 2 ^ 1) with (2 * m) by lia. by apply shr_1_exact. }
  rewrite iter_pos_succ, Pos2Z.inj_succ, Z.pow_succ_r by lia.
  replace (m * (2 * 2 ^ Z.pos n)) with (2 * (m * 2 ^ Z.pos n)) by lia.
  rewrite shr_1_exact by lia. by apply IH.
Qed.

(** Rounding a mantissa that already has 53 digits changes nothing. *)
Local Lemma round_aux_normal m e :
  Z.pos (digits2_pos m) = 53 → -1074 ≤ e ≤ 971 →
  binary_round_aux f64_prec f64_emax false (Z.pos m) e loc_Exact = S754_finite false m e.
Proof.
  intros Hd He. unfold binary_round_aux, shr_fexp. cbn [Zdigits2 shr_record_of_loc].
  rewrite Hd. unfold fexp, emin, f64_prec, f64_emax.
  replace (Z.max (53 + e - 53) (3 - 1024 - 53) - e) with 0 by lia.
  cbn [shr shr_m loc_of_shr_record round_nearest_even Zdigits2 shr_record_of_loc].
  rewrite Hd.
  replace (Z.max (53 + e - 53) (3 - 1024 - 53) - e) with 0 by lia.
  cbn [shr shr_m]. destruct (Z.leb_spec e (1024 - 53)); [done | lia].
Qed.

(** The normal form of a whole number [z] with [d] binary digits. *)
Local Definition norm_m (z : positive) : positive :=
  Z.to_pos (Z.pos z * 2 ^ (53 - Z.pos (digits2_pos z))).
Local Definition norm_e (z : positive) : Z := Z.pos (digits2_pos z) - 53.

Local Lemma norm_m_val z :
  Z.pos z < 2 ^ 53 → Z.pos (norm_m z) = Z.pos z * 2 ^ (53 - Z.pos (digits2_pos z)).
Proof.
  intros Hz. unfold norm_m. rewrite Z2Pos.id; [done|].
  pose proof (Z.pow_nonneg 2 (53 - Z.pos (digits2_pos z))).
  assert (Z.pos (digits2_pos z) ≤ 53).
  { pose proof (digits_bounds z). enough (Z.pos (digits2_pos z) - 1 < 53) by lia.
    apply (Z.pow_lt_mono_r_iff 2); lia. }
  pose proof (Z.pow_pos_nonneg 2 (53 - Z.pos (digits2_pos z))). nia.
Qed.

Local Lemma norm_e_le z : Z.pos z < 2 ^ 53 → -52 ≤ norm_e z ≤ 0.
Proof.
  intros Hz. unfold norm_e. pose proof (digits_bounds z).
  enough (Z.pos (digits2_pos z) - 1 < 53) by lia.
  apply (Z.pow_lt_mono_r_iff 2); lia.
Qed.

Local Lemma norm_digits z : Z.pos z < 2 ^ 53 → Z.pos (digits2_pos (norm_m z)) = 53.
Proof.
  intros Hz. pose proof (norm_e_le z Hz). unfold norm_e in *.
  rewrite (digits_shift z (norm_m z) (53 - Z.pos (digits2_pos z)));
    [lia | lia | by apply norm_m_val].
Qed.

(** [z * 2^k] scaled back by [2^-k] rounds to the normal form of [z]. *)
Local Lemma round_scaled z m k :
  Z.pos z < 2 ^ 53 → 0 ≤ k → Z.pos m = Z.pos z * 2 ^ k →
  binary_round f64_prec f64_emax false m (- k) = S754_finite false (norm_m z) (norm_e z).
Proof.
  intros Hz Hk Hm. unfold binary_round.
  pose proof (norm_e_le z Hz) as He. pose proof (norm_m_val z Hz) as Hv.
  rewrite (digits_shift z m k Hk Hm).
  assert (fexp f64_prec f64_emax (Z.pos (digits2_pos z) + k + - k) = norm_e z) as ->.
  { unfold fexp, emin, f64_prec, f64_emax. unfold norm_e in *. lia. }
  unfold shl_align. destruct (norm_e z - - k) as [|n|n] eqn:En.
  - assert (m = norm_m z) as ->.
    { apply Pos2Z.inj. rewrite Hm, Hv. unfold norm_e in En. do 2 f_equal. lia. }
    replace (- k) with (norm_e z) by lia.
    apply round_aux_normal; [by apply norm_digits | lia].
  - (* the low bits are zero and are shifted out again *)
    unfold binary_round_aux, shr_fexp. cbn [Zdigits2 shr_record_of_loc].
    rewrite (digits_shift z m k Hk Hm).
    assert (fexp f64_prec f64_emax (Z.pos (digits2_pos z) + k + - k) - - k = Z.pos n) as ->.
    { unfold fexp, emin, f64_prec, f64_emax. unfold norm_e in *. lia. }
    cbn [shr].
    assert (Z.pos m = Z.pos (norm_m z) * 2 ^ Z.pos n) as ->.
    { rewrite Hm, Hv, <- Z.mul_assoc, <- Z.pow_add_r; unfold norm_e in *; [|lia..].
      do 2 f_equal. lia. }
    rewrite shr_exact by lia. cbn [shr_m loc_of_shr_record round_nearest_even].
    replace (- k + Z.pos n) with (norm_e z) by lia.
    cbn [Zdigits2 shr_record_of_loc]. rewrite norm_digits by done.
    unfold fexp, emin, f64_prec, f64_emax.
    replace (Z.max (53 + norm_e z - 53) (3 - 1024 - 53) - norm_e z) with 0 by lia.
    cbn [shr shr_m]. destruct (Z.leb_spec (norm_e z) (1024 - 53)); [done | lia].
  - assert (Pos.iter xO m n = norm_m z) as ->.
    { apply Pos2Z.inj. rewrite shl_iter, Hm, Hv, <- Z.mul_assoc, <- Z.pow_add_r by lia.
      do 2 f_equal. unfold norm_e in *. lia. }
    apply round_aux_normal; [by apply norm_digits | lia].
Qed.

Local Lemma f64_of_pos z :
  Z.pos z < 2 ^ 53 → f64_of (Z.pos z) = S754_finite false (norm_m z) (norm_e z).
Proof.
  intros Hz. unfold f64_of, binary_normalize.
  apply (round_scaled z z 0); [done | lia | lia].
Qed.

Local Lemma shl_align_norm z e :
  Z.pos z < 2 ^ 53 → e ≤ norm_e z →
  Z.pos (fst (shl_align (norm_m z) (norm_e z) e)) = Z.pos z * 2 ^ (- e).
Proof.
  intros Hz He. unfold shl_align. pose proof (norm_e_le z Hz).
  destruct (e - norm_e z) as [|n|n] eqn:En; [|lia|]; cbn [fst].
  - rewrite norm_m_val by done. unfold norm_e in *. do 2 f_equal. lia.
  - rewrite shl_iter, norm_m_val, <- Z.mul_assoc, <- Z.pow_add_r by (done || unfold norm_e in *; lia).
    do 2 f_equal. unfold norm_e in *. lia.
Qed.

(** Subtraction of whole numbers is exact while it stays non-negative. *)
Lemma fsub_exact a b : 0 ≤ b ≤ a → a < 2 ^ 53 → fsub (f64_of a) (f64_of b) = f64_of (a - b).
Proof.
  intros Hb Ha. destruct b as [|b|b]; [|destruct a as [|a|a]; [lia| |lia]|lia].
  { rewrite Z.sub_0_r. destruct a as [|a|a]; [done| |lia]. by rewrite f64_of_pos. }
  rewrite !f64_of_pos by lia. unfold fsub, SFsub. cbn [cond_Zopp].
  set (ez := Z.min (norm_e a) (norm_e b)).
  pose proof (norm_e_le a ltac:(lia)). pose proof (norm_e_le b ltac:(lia)).
  rewrite !shl_align_norm by lia. rewrite <- Z.mul_sub_distr_r.
  destruct (decide (a = b)) as [->|Hne].
  { replace (Z.pos b - Z.pos b) with 0 by lia. done. }
  destruct (Z.pos a - Z.pos b) as [|c|c] eqn:Hc; [lia| |lia].
  pose proof (Z.pow_pos_nonneg 2 (- ez) ltac:(lia) ltac:(lia)).
  destruct (Z.pos c * 2 ^ (- ez)) as [|m|m] eqn:Hm; [lia| |lia].
  unfold binary_normalize. rewrite f64_of_pos by lia.
  replace ez with (- - ez) by lia. apply round_scaled; lia.
Qed.

(** Whole numbers compare as floats the way they compare as integers. *)
Lemma flt_exact a b :
  0 ≤ a < 2 ^ 53 → 0 ≤ b < 2 ^ 53 → flt (f64_of a) (f64_of b) = (a <? b).
Proof.
  intros Ha Hb. destruct a as [|a|a], b as [|b|b]; try lia; try done.
  - by rewrite f64_of_pos by lia.
  - by rewrite f64_of_pos by lia.
  - rewrite !f64_of_pos by lia. unfold flt, SFltb, SFcompare.
    pose proof (digits_bounds a) as Da. pose proof (digits_bounds b) as Db.
    destruct (Z.compare_spec (norm_e a) (norm_e b)) as [He|He|He]; unfold norm_e in He.
    + change (Pos.compare_cont Eq (norm_m a) (norm_m b)) with (norm_m a ?= norm_m b)%positive.
      rewrite Pos2Z.inj_compare, !norm_m_val by lia.
      replace (Z.pos (digits2_pos b)) with (Z.pos (digits2_pos a)) by lia.
      pose proof (norm_e_le a ltac:(lia)) as Hea. unfold norm_e in Hea.
      pose proof (Z.pow_pos_nonneg 2 (53 - Z.pos (digits2_pos a)) ltac:(lia) ltac:(lia)).
      unfold Z.ltb. destruct (Z.compare_spec (Z.pos a) (Z.pos b)) as [Hab|Hab|Hab].
      * by rewrite Hab, Z.compare_refl.
      * by rewrite (proj2 (Z.compare_lt_iff _ _)) by nia.
      * by rewrite (proj2 (Z.compare_gt_iff _ _)) by nia.
    + assert (2 ^ Z.pos (digits2_pos a) ≤ 2 ^ (Z.pos (digits2_pos b) - 1))
        by (apply Z.pow_le_mono_r; lia).
      destruct (Z.ltb_spec (Z.pos a) (Z.pos b)); [done | lia].
    + assert (2 ^ Z.pos (digits2_pos b) ≤ 2 ^ (Z.pos (digits2_pos a) - 1))
        by (apply Z.pow_le_mono_r; lia).
      destruct (Z.ltb_spec (Z.pos a) (Z.pos b)); [lia | done].
Qed.

Lemma f64_of_not_nan a : 0 ≤ a < 2 ^ 53 → is_nan (f64_of a) = false.
Proof.
  intros Ha. destruct a as [|a|a]; [done| |lia]. by rewrite f64_of_pos by lia.
Qed.

(** Adding a zero to a whole number leaves it. *)
Lemma fadd_exact_zero a s : 0 ≤ a < 2 ^ 53 →
  fadd (f64_of a) (S754_zero s) = f64_of a.
Proof.
  intros Ha. destruct a as [|a|a]; [by destruct s| |lia]. by rewrite f64_of_pos by lia.
Qed.

Lemma fmin_exact a b :
  0 ≤ a < 2 ^ 53 → 0 ≤ b < 2 ^ 53 → fmin (f64_of a) (f64_of b) = f64_of (Z.min a b).
Proof.
  intros Ha Hb. unfold fmin. rewrite !f64_of_not_nan, flt_exact by done.
  destruct (Z.ltb_spec b a); f_equal; lia.
Qed.

(** ** Finite quotients

    The results of multiplying and dividing whole numbers of moderate size are
    neither infinite nor NaN. *)

Local Lemma Zdigits2_lt m d : 0 ≤ m → 0 ≤ d → m < 2 ^ d → Zdigits2 m ≤ d.
Proof.
  intros Hm Hd H. destruct m as [|p|p]; cbn [Zdigits2]; [lia| |lia].
  pose proof (digits_bounds p). enough (Z.pos (digits2_pos p) - 1 < d) by lia.
  apply (Z.pow_lt_mono_r_iff 2); lia.
Qed.

Local Lemma Zdigits2_bound m : 0 ≤ m → 0 ≤ Zdigits2 m ∧ m < 2 ^ Zdigits2 m.
Proof.
  intros Hm. destruct m as [|p|p]; cbn [Zdigits2]; [lia| |lia].
  pose proof (digits_bounds p). lia.
Qed.

Local Lemma shr_1_shrinks r : 0 ≤ shr_m r → 0 ≤ shr_m (shr_1 r) ≤ shr_m r.
Proof. destruct r as [[|[p|p|]|p] b s]; cbn; lia. Qed.

Local Lemma iter_shr_shrinks n r :
  0 ≤ shr_m r → 0 ≤ shr_m (SpecFloat.iter_pos shr_1 n r) ≤ shr_m r.
Proof.
  revert r; induction n as [|n IH] using Pos.peano_ind; intros r Hr; [by apply shr_1_shrinks|].
  rewrite iter_pos_succ. pose proof (shr_1_shrinks r Hr) as H1.
  destruct (IH (shr_1 r)) as [? ?]; lia.
Qed.

Local Lemma shr_m_of_loc m l : shr_m (shr_record_of_loc m l) = m.
Proof. by destruct l as [|[]]. Qed.

Local Lemma shr_fexp_bounds m e l :
  0 ≤ m → -1000 ≤ e →
  0 ≤ shr_m (fst (shr_fexp f64_prec f64_emax m e l)) ≤ m ∧
  e ≤ snd (shr_fexp f64_prec f64_emax m e l) ≤ e + Zdigits2 m.
Proof.
  intros Hm He. pose proof (Zdigits2_bound m Hm) as [Hd _]. unfold shr_fexp.
  unfold fexp, emin, f64_prec, f64_emax.
  destruct (Z.max (Zdigits2 m + e - 53) (3 - 1024 - 53) - e) as [|n|n] eqn:En; cbn [shr fst snd];
    rewrite ?shr_m_of_loc; [lia| |lia].
  pose proof (iter_shr_shrinks n (shr_record_of_loc m l)) as H. rewrite shr_m_of_loc in H.
  split; [by apply H | lia].
Qed.

Local Lemma round_aux_tame s m e l D :
  0 ≤ m → 0 ≤ D → m < 2 ^ D → -1000 ≤ e → e + 2 * D ≤ 900 → e ≤ 900 →
  binary_round_aux f64_prec f64_emax s m e l = S754_zero s ∨
  ∃ m' e', binary_round_aux f64_prec f64_emax s m e l = S754_finite s m' e' ∧
    Z.pos m' ≤ 2 ^ D ∧ e ≤ e' ≤ e + 2 * D + 1.
Proof.
  intros Hm HD Hlt He HeD He'. unfold binary_round_aux.
  pose proof (shr_fexp_bounds m e l Hm He) as [Hm1 He1].
  pose proof (Zdigits2_lt m D Hm HD Hlt) as Hd.
  destruct (shr_fexp f64_prec f64_emax m e l) as [r1 e1]. cbn [fst snd] in Hm1, He1.
  set (m1 := round_nearest_even (shr_m r1) (loc_of_shr_record r1)).
  assert (0 ≤ m1 ≤ shr_m r1 + 1) as Hm1'.
  { subst m1. unfold round_nearest_even. destruct (loc_of_shr_record r1) as [|[]]; try lia.
    destruct (Z.even (shr_m r1)); lia. }
  pose proof (shr_fexp_bounds m1 e1 loc_Exact ltac:(lia) ltac:(lia)) as [Hm2 He2].
  assert (Zdigits2 m1 ≤ D + 1) as Hd1.
  { apply Zdigits2_lt; [lia..|]. rewrite Z.pow_add_r by lia. pose proof (Z.pow_pos_nonneg 2 D). lia. }
  destruct (shr_fexp f64_prec f64_emax m1 e1 loc_Exact) as [r2 e2]. cbn [fst snd] in Hm2, He2.
  destruct (shr_m r2) as [|m2|m2]; [by left| |lia]. right. exists m2, e2.
  unfold f64_emax, f64_prec. destruct (Z.leb_spec e2 (1024 - 53)); [|lia].
  split_and!; [done|lia..].
Qed.

Local Lemma norm_m_lt z : Z.pos z < 2 ^ 53 → Z.pos (norm_m z) < 2 ^ 53.
Proof.
  intros Hz. pose proof (digits_bounds (norm_m z)) as [_ H]. by rewrite norm_digits in H.
Qed.

Local Lemma div_core_bounds m1 e1 i :
  Z.pos m1 ≤ 2 ^ 110 → -110 ≤ e1 ≤ 230 → Z.pos i < 2 ^ 53 →
  ∃ q e l, SFdiv_core_binary f64_prec f64_emax (Z.pos m1) e1 (Z.pos (norm_m i)) (norm_e i) = (q, e, l) ∧
    0 ≤ q < 2 ^ 300 ∧ -1000 ≤ e ≤ 282.
Proof.
  intros Hm He Hi. pose proof (norm_e_le i Hi) as Hei. unfold SFdiv_core_binary.
  cbn [Zdigits2]. rewrite norm_digits by done.
  assert (1 ≤ Z.pos (digits2_pos m1) ≤ 111) as Hd.
  { split; [lia|]. apply (Zdigits2_lt (Z.pos m1)); lia. }
  set (d := Z.pos (digits2_pos m1)) in *. set (ei := norm_e i) in *.
  unfold fexp, emin, f64_prec, f64_emax.
  set (e' := Z.min (Z.max (d + e1 - (53 + ei) - 53) (3 - 1024 - 53)) (e1 - ei)).
  assert (0 ≤ e1 - ei - e' ≤ 105) as Hs by lia.
  set (s := e1 - ei - e') in *. set (m' := match s with Z0 => _ | Zpos _ => _ | Zneg _ => _ end).
  assert (0 ≤ m' < 2 ^ 220) as Hm'.
  { subst m'. destruct s as [|s'|s']; [lia| |lia]. rewrite Z.shiftl_mul_pow2 by lia.
    pose proof (Z.pow_pos_nonneg 2 (Z.pos s')).
    assert (2 ^ Z.pos s' ≤ 2 ^ 105) by (apply Z.pow_le_mono_r; lia). split; [lia|].
    replace (2 ^ 220) with (2 ^ 115 * 2 ^ 105) by done. nia. }
  pose proof (Z.div_eucl_eq m' (Z.pos (norm_m i)) ltac:(lia)) as Hq.
  pose proof (Z_div_pos m' (Z.pos (norm_m i)) ltac:(lia) ltac:(lia)) as Hpos.
  pose proof (Z.div_le_upper_bound m' (Z.pos (norm_m i)) m' ltac:(lia) ltac:(nia)) as Hle.
  unfold Z.div in Hpos, Hle. destruct (Z.div_eucl m' (Z.pos (norm_m i))) as [q r].
  exists q, e', (new_location (Z.pos (norm_m i)) r). split; [done|].
  assert (2 ^ 220 < 2 ^ 300) by done. split; lia.
Qed.

(** A product of two whole numbers, divided by a third: zero or positive and
    finite. *)
Lemma fmul_fdiv_tame a b i :
  0 ≤ a < 2 ^ 53 → 0 ≤ b < 2 ^ 53 → 0 < i < 2 ^ 53 →
  fdiv (fmul (f64_of a) (f64_of b)) (f64_of i) = S754_zero false ∨
  ∃ m e, fdiv (fmul (f64_of a) (f64_of b)) (f64_of i) = S754_finite false m e.
Proof.
  intros Ha Hb Hi. destruct i as [|i|i]; [lia| |lia]. rewrite (f64_of_pos i) by lia.
  assert (fmul (f64_of a) (f64_of b) = S754_zero false ∨
    ∃ m e, fmul (f64_of a) (f64_of b) = S754_finite false m e ∧ Z.pos m ≤ 2 ^ 110 ∧ -110 ≤ e ≤ 230)
    as [->|(m & e & -> & Hm & He)]; [| by left |].
  { destruct a as [|a|a]; [left; by destruct b as [|b|b]; [|rewrite f64_of_pos by lia|lia]| |lia].
    destruct b as [|b|b]; [left; by rewrite f64_of_pos by lia| |lia].
    rewrite !f64_of_pos by lia. cbn [fmul SFmul xorb].
    pose proof (norm_e_le a ltac:(lia)). pose proof (norm_e_le b ltac:(lia)).
    pose proof (norm_m_lt a ltac:(lia)). pose proof (norm_m_lt b ltac:(lia)).
    destruct (round_aux_tame false (Z.pos (norm_m a * norm_m b)) (norm_e a + norm_e b) loc_Exact 106)
      as [?|(m' & e' & Heq & Hm' & He')]; try lia; [|by left|].
    { rewrite Pos2Z.inj_mul. replace (2 ^ 106) with (2 ^ 53 * 2 ^ 53) by done. nia. }
    right. exists m', e'. split; [done|]. assert (2 ^ 106 < 2 ^ 110) by done. lia. }
  cbn [fdiv SFdiv xorb]. destruct (div_core_bounds m e i) as (q & e' & l & -> & Hq & He'); try lia.
  destruct (round_aux_tame false q e' l 300) as [?|(m' & e2 & Heq & _)]; try lia; [by left|].
  right. eauto.
Qed.

(** ** Zeros and signs

    [f64_wf] is the lower bound every result has on its exponent; with it no
    sum is the negative zero unless both of its arguments are. *)

Definition neg_zero : f64 := S754_zero true.

Definition f64_wf (a : f64) : Prop :=
  match a with S754_finite _ _ e => -1074 ≤ e | _ => True end.

Definition fpos (a : f64) : Prop :=
  match a with
  | S754_zero s | S754_infinity s | S754_finite s _ _ => s = false
  | S754_nan => True
  end.

Lemma fpos_not_neg_zero a : fpos a → a ≠ neg_zero.
Proof. intros H ->. done. Qed.

Local Lemma round_aux_fpos m e l : fpos (binary_round_aux f64_prec f64_emax false m e l).
Proof.
  unfold binary_round_aux. destruct (shr_fexp _ _ m e l) as [r1 e1].
  destruct (shr_fexp _ _ _ e1 loc_Exact) as [r2 e2]. by destruct (shr_m r2); [|destruct (e2 <=? _)|].
Qed.

Local Lemma normalize_fpos z e : 0 ≤ z → fpos (binary_normalize f64_prec f64_emax z e false).
Proof.
  intros Hz. destruct z as [|p|p]; [done| |lia]. cbn [binary_normalize]. unfold binary_round.
  destruct (shl_align _ _ _). apply round_aux_fpos.
Qed.

Lemma f64_of_fpos z : 0 ≤ z → fpos (f64_of z).
Proof. apply normalize_fpos. Qed.

Lemma fadd_fpos a b : fpos a → fpos b → fpos (fadd a b).
Proof.
  destruct a as [[]|[]| |[] m e], b as [[]|[]| |[] m' e']; cbn -[binary_normalize]; intros; try done.
  apply normalize_fpos. cbn. lia.
Qed.

Lemma fmul_fpos a b : fpos a → fpos b → fpos (fmul a b).
Proof.
  destruct a as [[]|[]| |[] m e], b as [[]|[]| |[] m' e']; cbn -[binary_round_aux]; intros; try done.
  apply round_aux_fpos.
Qed.

Lemma fdiv_fpos a b : fpos a → fpos b → fpos (fdiv a b).
Proof.
  destruct a as [[]|[]| |[] m e], b as [[]|[]| |[] m' e'];
    cbn -[binary_round_aux SFdiv_core_binary]; intros; try done.
  destruct (SFdiv_core_binary _ _ _ _ _ _) as [[q ?] ?]. apply round_aux_fpos.
Qed.

Lemma as_secs_f64_fpos d : 0 ≤ d → fpos (as_secs_f64 d).
Proof.
  intros Hd. apply fadd_fpos; [|apply fdiv_fpos]; apply f64_of_fpos; unfold nanos_per_sec.
  - apply Z.div_pos; lia.
  - apply Z.mod_pos_bound. lia.
  - lia.
Qed.

Local Lemma shr_fexp_wf m e l : -1074 ≤ snd (shr_fexp f64_prec f64_emax m e l).
Proof.
  unfold shr_fexp, fexp, emin, f64_prec, f64_emax.
  destruct (Z.max (Zdigits2 m + e - 53) (3 - 1024 - 53) - e) eqn:E; cbn [shr snd]; lia.
Qed.

Local Lemma round_aux_wf s m e l : f64_wf (binary_round_aux f64_prec f64_emax s m e l).
Proof.
  unfold binary_round_aux. destruct (shr_fexp _ _ m e l) as [r1 e1].
  match goal with |- context [shr_fexp ?a ?b ?m ?e ?l] => pose proof (shr_fexp_wf m e l) as H end.
  destruct (shr_fexp _ _ _ e1 loc_Exact) as [r2 e2]. by destruct (shr_m r2); [|destruct (e2 <=? _)|].
Qed.

Local Lemma normalize_wf z e : f64_wf (binary_normalize f64_prec f64_emax z e false).
Proof.
  destruct z as [|p|p]; [done|..]; cbn [binary_normalize]; unfold binary_round;
    destruct (shl_align _ _ _); apply round_aux_wf.
Qed.

Lemma f64_of_wf z : f64_wf (f64_of z).
Proof. apply normalize_wf. Qed.

Lemma fadd_wf a b : f64_wf a → f64_wf b → f64_wf (fadd a b).
Proof.
  destruct a as [[]|[]| |s m e], b as [[]|[]| |s' m' e']; cbn -[binary_normalize]; intros; try done.
  apply normalize_wf.
Qed.

Lemma fsub_wf a b : f64_wf a → f64_wf b → f64_wf (fsub a b).
Proof.
  destruct a as [[]|[]| |s m e], b as [[]|[]| |s' m' e']; cbn -[binary_normalize]; intros; try done.
  apply normalize_wf.
Qed.

Lemma fmul_wf a b : f64_wf (fmul a b).
Proof.
  destruct a as [[]|[]| |s m e], b as [[]|[]| |s' m' e']; cbn -[binary_round_aux]; try done.
  apply round_aux_wf.
Qed.

Lemma fdiv_wf a b : f64_wf (fdiv a b).
Proof.
  destruct a as [[]|[]| |s m e], b as [[]|[]| |s' m' e'];
    cbn -[binary_round_aux SFdiv_core_binary]; try done.
  destruct (SFdiv_core_binary _ _ _ _ _ _) as [[q ?] ?]. apply round_aux_wf.
Qed.

Lemma fmin_wf a b : f64_wf a → f64_wf b → f64_wf (fmin a b).
Proof. intros. unfold fmin. by destruct (is_nan a), (is_nan b), (flt b a). Qed.

Local Lemma iter_shr_div n r :
  0 ≤ shr_m r → shr_m (SpecFloat.iter_pos shr_1 n r) = shr_m r / 2 ^ Z.pos n.
Proof.
  assert (∀ r, 0 ≤ shr_m r → shr_m (shr_1 r) = shr_m r / 2) as H1.
  { intros [[|[p|p|]|p] b s] Hr; cbn in *; try lia; first [apply (Z.div_unique_pos _ _ _ 0); lia | apply (Z.div_unique_pos _ _ _ 1); lia]. }
  revert r; induction n as [|n IH] using Pos.peano_ind; intros r Hr; [by apply H1|].
  rewrite iter_pos_succ, IH by (pose proof (shr_1_shrinks r Hr); lia).
  rewrite H1, Z.div_div by lia. f_equal. rewrite Pos2Z.inj_succ, Z.pow_succ_r by lia. lia.
Qed.

Local Lemma shr_fexp_pos m e l :
  1 ≤ m → -1074 ≤ e → 1 ≤ shr_m (fst (shr_fexp f64_prec f64_emax m e l)).
Proof.
  intros Hm He. unfold shr_fexp, fexp, emin, f64_prec, f64_emax.
  destruct (Z.max (Zdigits2 m + e - 53) (3 - 1024 - 53) - e) as [|n|n] eqn:E; cbn [shr fst];
    [by rewrite shr_m_of_loc | | by rewrite shr_m_of_loc].
  rewrite iter_shr_div; rewrite shr_m_of_loc; [|lia].
  destruct m as [|p|p]; [lia| |lia]. cbn [Zdigits2] in E. pose proof (digits_bounds p).
  apply Z.div_le_lower_bound; [by apply Z.pow_pos_nonneg|].
  assert (2 ^ Z.pos n ≤ 2 ^ (Z.pos (digits2_pos p) - 1)) by (apply Z.pow_le_mono_r; lia). lia.
Qed.

Local Lemma round_aux_nonzero s m e l :
  1 ≤ m → -1074 ≤ e → binary_round_aux f64_prec f64_emax s m e l ≠ neg_zero.
Proof.
  intros Hm He. unfold binary_round_aux.
  pose proof (shr_fexp_pos m e l Hm He) as H1. pose proof (shr_fexp_wf m e l) as He1.
  destruct (shr_fexp _ _ m e l) as [r1 e1]. cbn [fst snd] in *.
  assert (1 ≤ round_nearest_even (shr_m r1) (loc_of_shr_record r1)) as Hr.
  { unfold round_nearest_even. destruct (loc_of_shr_record r1) as [|[]]; try lia.
    destruct (Z.even (shr_m r1)); lia. }
  pose proof (shr_fexp_pos _ e1 loc_Exact Hr He1) as H2.
  destruct (shr_fexp _ _ _ e1 loc_Exact) as [r2 e2]. cbn [fst] in H2.
  destruct (shr_m r2); [lia| |lia]. by destruct (e2 <=? _).
Qed.

Local Lemma normalize_not_neg_zero z e :
  -1074 ≤ e → binary_normalize f64_prec f64_emax z e false ≠ neg_zero.
Proof.
  intros He. destruct z as [|p|p]; [done|..]; cbn [binary_normalize]; unfold binary_round, shl_align;
    (match goal with |- context [match ?x with Z0 => _ | Zpos _ => _ | Zneg _ => _ end] => destruct x end);
    apply round_aux_nonzero; try lia; unfold fexp, emin, f64_prec, f64_emax; lia.
Qed.

Lemma fadd_not_neg_zero a b : f64_wf a → f64_wf b → b ≠ neg_zero → fadd a b ≠ neg_zero.
Proof.
  destruct a as [[]|[]| |s m e], b as [[]|[]| |s' m' e']; cbn -[binary_normalize]; intros; try done.
  apply normalize_not_neg_zero. lia.
Qed.

Lemma fsub_not_neg_zero a b : f64_wf a → f64_wf b → a ≠ neg_zero → fsub a b ≠ neg_zero.
Proof.
  destruct a as [[]|[]| |s m e], b as [[]|[]| |s' m' e']; cbn -[binary_normalize]; intros; try done.
  apply normalize_not_neg_zero. lia.
Qed.

Lemma fmin_not_neg_zero a b : a ≠ neg_zero → b ≠ neg_zero → fmin a b ≠ neg_zero.
Proof. intros. unfold fmin. by destruct (is_nan a), (is_nan b), (flt b a). Qed.

Lemma fadd_zero_r a : a ≠ neg_zero → fadd a (S754_zero false) = a.
Proof. by destruct a as [[]|[]| |[] m e]. Qed.

Lemma fmin_idem a b : is_nan b = false → fmin (fmin a b) b = fmin a b.
Proof.
  intros Hb. unfold fmin. destruct (is_nan a) eqn:Ha; rewrite ?Hb.
  { by rewrite flt_irrefl. }
  destruct (flt b a) eqn:Hlt; rewrite ?Hb, ?Ha, ?flt_irrefl, ?Hlt; done.
Qed.

(** A number that was cut off at a whole bound and is not below it is the
    bound. *)
Lemma fmin_full a b :
  0 < b < 2 ^ 53 → flt (fmin a (f64_of b)) (f64_of b) = false → fmin a (f64_of b) = f64_of b.
Proof.
  intros Hb. unfold fmin. rewrite (f64_of_not_nan b) by lia.
  destruct (is_nan a) eqn:Ha; [done|]. destruct (flt (f64_of b) a) eqn:Hlt; [done|].
  destruct b as [|b|b]; [lia| |lia]. rewrite f64_of_pos in * by lia.
  unfold flt, SFltb in *. destruct a as [s|s| |s m e]; cbn in *; try (destruct s; done); [done|].
  destruct s; [done|]. rewrite (Z.compare_antisym e) in Hlt.
  destruct (Z.compare_spec e (norm_e b)) as [->| |]; cbn in *; try done.
  change (Pos.compare_cont Eq (norm_m b) m) with (norm_m b ?= m)%positive in Hlt.
  change (Pos.compare_cont Eq m (norm_m b)) with (m ?= norm_m b)%positive.
  rewrite Pos.compare_antisym in Hlt.
  destruct (Pos.compare_spec m (norm_m b)) as [->| |]; cbn in *; done.
Qed.

End Exact.
