(* ===== verification/Abi.v ===== *)
(** * Abi: the C types and constants of [src/abi.rs]

    Field for field, with every integer as a [Z] of the width its field name
    documents and every pointer as the address the caller passed (0 is null).
    [default_options] are the values [lp2p_options_default] hands out. *)

From S2P Require Import Prelude.

Definition LP2P_ABI_VERSION : Z := 1.

(** ** Status codes *)

Definition LP2P_OK : Z := 0.
Definition LP2P_ERR_INVALID_ARGUMENT : Z := -1.
Definition LP2P_ERR_BUFFER_TOO_SMALL : Z := -2.
Definition LP2P_ERR_NO_MEMORY : Z := -3.
Definition LP2P_ERR_NETWORK : Z := -4.
Definition LP2P_ERR_LIMITED : Z := -5.
Definition LP2P_ERR_UNAVAILABLE : Z := -6.
Definition LP2P_ERR_SHUT_DOWN : Z := -7.
Definition LP2P_ERR_PANIC : Z := -99.

Definition LP2P_DELEGATION_BYTES : Z := 136.

(** An ed25519 public key: a group, a node or a topic key. *)
Abbreviation lp2p_key := (array 32).

(** The key of 32 zero bytes, [Default] of the event header's keys. *)
Definition zero_key : lp2p_key := array_fill 32 x00.

(** ** Structs *)

(** Three [u32]s. *)
Record lp2p_rate := mk_rate { amount : Z; interval_ms : Z; burst : Z }.

#[export] Instance lp2p_rate_eq_dec : EqDecision lp2p_rate.
Proof. solve_decision. Defined.

Record lp2p_relay_options := mk_relay_options {
  ro_server : Z;
  ro_client : Z;
  ro_max_reservations : Z;
  ro_max_reservations_per_peer : Z;
  ro_reservation_duration_s : Z;
  ro_max_circuits : Z;
  ro_max_circuits_per_peer : Z;
  ro_max_circuit_duration_s : Z;
  ro_max_circuit_bytes : Z;
  ro_circuits_per_peer : lp2p_rate;
  ro_circuits_per_ip : lp2p_rate;
}.

Record lp2p_announce_options := mk_announce_options {
  ao_enabled : Z;
  ao_topic : Z;
  ao_max_payload_bytes : Z;
}.

Record lp2p_options := mk_options {
  o_struct_size : Z;
  o_node_seed : array 32;
  o_delegation : Z;
  o_delegation_len : Z;
  o_group : lp2p_key;
  o_listen_addrs : Z;
  o_listen_addr_count : Z;
  o_dht_protocol : Z;
  o_rpc_protocols : Z;
  o_rpc_protocol_count : Z;
  o_rpc_max_request_bytes : Z;
  o_rpc_max_response_bytes : Z;
  o_rpc_timeout_ms : Z;
  o_quic : Z;
  o_dcutr : Z;
  o_autonat : Z;
  o_max_connections : Z;
  o_max_connections_per_peer : Z;
  o_max_pending_incoming : Z;
  o_relay : lp2p_relay_options;
  o_announce : lp2p_announce_options;
  o_event_queue_bytes : Z;
  o_reachability : Z;
  o_topic_max_message_bytes : Z;
  o_topic_max_subscriptions : Z;
}.

(** ** Events *)

Definition LP2P_EV_LISTENING : Z := 1.
Definition LP2P_EV_REACHABILITY : Z := 2.
Definition LP2P_EV_PEER_CONNECTED : Z := 3.
Definition LP2P_EV_PEER_DISCONNECTED : Z := 4.
Definition LP2P_EV_RPC_REQUEST : Z := 5.
Definition LP2P_EV_RPC_RESPONSE : Z := 6.
Definition LP2P_EV_RPC_FAILED : Z := 7.
Definition LP2P_EV_ANNOUNCEMENT : Z := 8.
Definition LP2P_EV_PEER_DISCOVERED : Z := 9.
Definition LP2P_EV_DHT_RESULT : Z := 10.
Definition LP2P_EV_LIMITED : Z := 11.
Definition LP2P_EV_OVERFLOW : Z := 12.
Definition LP2P_EV_HOLE_PUNCH : Z := 13.
Definition LP2P_EV_TOPIC_MESSAGE : Z := 14.

Definition LP2P_EVF_LAST : Z := 1.

Definition LP2P_REACH_UNKNOWN : Z := 0.
Definition LP2P_REACH_PUBLIC : Z := 1.
Definition LP2P_REACH_PRIVATE : Z := 2.

Definition LP2P_FAIL_TIMEOUT : Z := 1.
Definition LP2P_FAIL_UNREACHABLE : Z := 2.
Definition LP2P_FAIL_REFUSED : Z := 3.
Definition LP2P_FAIL_LIMITED : Z := 4.

Record lp2p_event := mk_event {
  ev_type : Z;
  ev_flags : Z;
  ev_size : Z;
  ev_id : Z;
  ev_group : lp2p_key;
  ev_node : lp2p_key;
  ev_protocol : Z;
  ev_reason : Z;
  ev_data_len : Z;
}.

#[export] Instance lp2p_event_eq_dec : EqDecision lp2p_event.
Proof. solve_decision. Defined.

#[export] Instance eta_lp2p_event : Eta lp2p_event := {| eta e :=
  mk_event (ev_type e) (ev_flags e) (ev_size e) (ev_id e) (ev_group e) (ev_node e)
           (ev_protocol e) (ev_reason e) (ev_data_len e) |}.

(** [Default] of the header. *)
Definition default_event : lp2p_event := mk_event 0 0 0 0 zero_key zero_key 0 0 0.

(** The size of the header, [size_of::<lp2p_event>()], asserted to be 88. *)
Definition LP2P_EVENT_HEADER_BYTES : Z := 2 + 2 + 4 + 8 + 32 + 32 + 2 + 2 + 4.

Definition LP2P_CLASS_UNKNOWN : Z := 0.
Definition LP2P_CLASS_BLOCKED : Z := 255.
Definition LP2P_PROTOCOL_ANY : Z := 65535.
Definition LP2P_PROTOCOL_TOPICS : Z := 65534.
Definition LP2P_LIMITED_BLOCKED : Z := 255.

Definition LP2P_SCOPE_PEER : Z := 0.
Definition LP2P_SCOPE_IP_PREFIX : Z := 1.
Definition LP2P_SCOPE_GLOBAL : Z := 2.

Record lp2p_stats := mk_stats {
  st_size : Z;
  st_connections : Z;
  st_routing_table_peers : Z;
  st_topics_subscribed : Z;
  st_rpc_in : Z;
  st_rpc_out : Z;
  st_rpc_limited : Z;
  st_events_dropped : Z;
  st_topic_in : Z;
  st_topic_out : Z;
  st_topic_bytes_in : Z;
  st_topic_bytes_out : Z;
  st_topic_limited : Z;
}.

(** ** Defaults *)

(** [size_of::<lp2p_options>()] on a 64-bit target. *)
Definition sizeof_lp2p_options : Z := 272.

Definition default_options : lp2p_options := {|
  o_struct_size := sizeof_lp2p_options;
  o_node_seed := array_fill 32 x00;
  o_delegation := 0;
  o_delegation_len := 0;
  o_group := array_fill 32 x00;
  o_listen_addrs := 0;
  o_listen_addr_count := 0;
  o_dht_protocol := 0;
  o_rpc_protocols := 0;
  o_rpc_protocol_count := 0;
  o_rpc_max_request_bytes := Z.shiftl 1 20;
  o_rpc_max_response_bytes := Z.shiftl 10 20;
  o_rpc_timeout_ms := 10000;
  o_quic := 1;
  o_dcutr := 1;
  o_autonat := 1;
  o_max_connections := 0;
  o_max_connections_per_peer := 0;
  o_max_pending_incoming := 0;
  o_relay := {|
    ro_server := 1;
    ro_client := 1;
    ro_max_reservations := 128;
    ro_max_reservations_per_peer := 4;
    ro_reservation_duration_s := 60 * 60;
    ro_max_circuits := 16;
    ro_max_circuits_per_peer := 4;
    ro_max_circuit_duration_s := 2 * 60;
    ro_max_circuit_bytes := Z.shiftl 1 17;
    ro_circuits_per_peer := mk_rate 1 (2 * 60 * 1000) 30;
    ro_circuits_per_ip := mk_rate 1 (60 * 1000) 60;
  |};
  o_announce := mk_announce_options 1 0 1024;
  o_event_queue_bytes := Z.shiftl 1 20;
  o_reachability := LP2P_REACH_UNKNOWN;
  o_topic_max_message_bytes := Z.shiftl 64 10;
  o_topic_max_subscriptions := 256;
|}.
