(* ===== verification/Keys.v ===== *)
(** * Keys: ed25519 keys and peer ids, [src/keys.rs]

    A node's key is its peer id. The cryptography and the peer-id encoding are
    libp2p's: they are the operations of the class [Identity], and what the
    code relies on of them is the class [IdentityLaws]. *)

From S2P Require Import Prelude Abi.

(** ** What libp2p-identity provides *)

Class Identity := {
  (** [libp2p::PeerId], compared and hashed by its bytes. *)
  PeerId : Type;
  PeerId_eq_dec :: EqDecision PeerId;
  PeerId_countable :: Countable PeerId;
  (** [identity::Keypair] and [identity::PublicKey], of any key type. *)
  Keypair : Type;
  PublicKey : Type;
  (** [Keypair::ed25519_from_bytes], [Keypair::public]. *)
  ed25519_from_bytes : array 32 → option Keypair;
  keypair_public : Keypair → PublicKey;
  (** [PublicKey::try_into_ed25519] followed by [to_bytes]. *)
  try_into_ed25519 : PublicKey → option (array 32);
  (** [ed25519::PublicKey::try_from_bytes] followed by [PublicKey::from]. *)
  ed25519_public_from_bytes : array 32 → option PublicKey;
  (** [PublicKey::to_peer_id], [PublicKey::try_decode_protobuf]. *)
  to_peer_id : PublicKey → PeerId;
  try_decode_protobuf : bytes → option PublicKey;
  (** The multihash of a peer id: [code] and [digest]. *)
  multihash_code : PeerId → Z;
  multihash_digest : PeerId → bytes;
  (** [ed25519::Keypair::sign] and [ed25519::PublicKey::verify]. *)
  ed25519_sign : Keypair → bytes → bytes;
  ed25519_verify : array 32 → bytes → array 64 → bool;
}.

(** Documented behaviour of that code. *)
Class IdentityLaws (I : Identity) : Prop := {
  (** An ed25519 peer id is the identity multihash (code 0) of the
      protobuf-encoded public key. *)
  peer_id_code k pk :
    ed25519_public_from_bytes k = Some pk → multihash_code (to_peer_id pk) = 0;
  peer_id_digest k pk :
    ed25519_public_from_bytes k = Some pk →
    try_decode_protobuf (multihash_digest (to_peer_id pk)) = Some pk;
  (** The bytes of an ed25519 public key are the ones it was made from. *)
  ed25519_bytes k pk :
    ed25519_public_from_bytes k = Some pk → try_into_ed25519 pk = Some k;
  ed25519_from_to pk k :
    try_into_ed25519 pk = Some k → ed25519_public_from_bytes k = Some pk;
  (** A keypair made from a seed is an ed25519 one, signs with 64 bytes, and
      its signatures verify under its public key. *)
  seed_is_ed25519 s kp :
    ed25519_from_bytes s = Some kp → is_Some (try_into_ed25519 (keypair_public kp));
  sign_length kp m : length (ed25519_sign kp m) = 64%nat;
  sign_verifies s kp k m sig :
    ed25519_from_bytes s = Some kp →
    try_into_ed25519 (keypair_public kp) = Some k →
    arr sig = ed25519_sign kp m → ed25519_verify k m sig = true;
}.

(** ** [src/keys.rs] *)

Section Keys.
Context {I : Identity}.

Definition keypair_from_seed (seed : array 32) : option Keypair :=
  ed25519_from_bytes seed.

Definition public_key (keypair : Keypair) : option lp2p_key :=
  try_into_ed25519 (keypair_public keypair).

Definition peer_id (key : lp2p_key) : option PeerId :=
  pk ← ed25519_public_from_bytes key;
  Some (to_peer_id pk).

(** The ed25519 key inside a peer id, or [None] for any other kind of peer. *)
Definition key_of (peer : PeerId) : option lp2p_key :=
  if bool_decide (multihash_code peer ≠ 0) then None
  else
    pk ← try_decode_protobuf (multihash_digest peer);
    try_into_ed25519 pk.

(** ** Lemmas *)

Context {L : IdentityLaws I}.

Lemma key_of_peer_id key p : peer_id key = Some p → key_of p = Some key.
Proof.
  unfold peer_id. intros (pk & Hpk & [= <-])%bind_Some. unfold key_of.
  rewrite (peer_id_code key pk Hpk), bool_decide_false by auto.
  rewrite (peer_id_digest key pk Hpk). simpl. by apply ed25519_bytes.
Qed.

(** Two ed25519 keys with the same peer id are one key. *)
Lemma peer_id_inj k1 k2 p : peer_id k1 = Some p → peer_id k2 = Some p → k1 = k2.
Proof. intros H1%key_of_peer_id H2%key_of_peer_id. congruence. Qed.

Lemma public_key_of_seed seed kp :
  keypair_from_seed seed = Some kp → is_Some (public_key kp).
Proof. apply seed_is_ed25519. Qed.

End Keys.
