(* ===== verification/Toy.v ===== *)
(** * Toy: a concrete identity layer

    A small executable instance of [Identity] with its laws, so that the
    theorems about code that calls libp2p-identity can be applied to concrete
    inputs. A peer id is an optional ed25519 key ([None] is a peer with another
    kind of key); a seed is its own public key, and a signature is a 64-byte
    digest of the key and the message. *)

From S2P Require Import Prelude Abi Keys.

Definition toy_digest (m : bytes) : Z := foldr (fun b acc => byte_val b + 1 + 257 * acc) 0 m.

Definition toy_sign (k : array 32) (m : bytes) : bytes := le_bytes 64 (toy_digest (arr k ++ m)).

Definition toy_protobuf (k : array 32) : bytes := [x08; x01; x12; x20] ++ arr k.

Definition toy_decode_protobuf (l : bytes) : option (array 32) :=
  if bool_decide (take 4 l = [x08; x01; x12; x20]) then to_array 32 (drop 4 l) else None.

#[export] Instance ToyIdentity : Identity := {|
  PeerId := option (array 32);
  Keypair := array 32;
  PublicKey := array 32;
  ed25519_from_bytes s := Some s;
  keypair_public kp := kp;
  try_into_ed25519 pk := Some pk;
  ed25519_public_from_bytes k := Some k;
  to_peer_id pk := Some pk;
  try_decode_protobuf := toy_decode_protobuf;
  multihash_code p := match p with Some _ => 0 | None => 18 end;
  multihash_digest p := match p with Some k => toy_protobuf k | None => [] end;
  ed25519_sign := toy_sign;
  ed25519_verify k m s := bool_decide (arr s = toy_sign k m);
|}.

Lemma toy_decode_encode k : toy_decode_protobuf (toy_protobuf k) = Some k.
Proof. apply (to_array_arr k). Qed.

#[export] Instance ToyIdentityLaws : IdentityLaws ToyIdentity.
Proof.
  split; simpl; intros; simplify_eq; try done; eauto using toy_decode_encode, length_le_bytes.
  by apply bool_decide_true.
Qed.

(** The array of [n] equal bytes, for concrete inputs. *)
Definition key_byte (b : byte) : lp2p_key := array_fill 32 b.
