(* ===== verification/Delegation.v ===== *)
(** * Delegation: "node X belongs to group Y until T", [src/delegation.rs]

    The 136-byte delegation that travels in every frame: its layout, its
    signature and its checks. [parse] and [to_bytes] are mutually inverse,
    [verify] is characterised on every branch, and a delegation made by [sign]
    passes [verify_for] for exactly the node it names, until it expires. *)

From S2P Require Import Prelude Abi Keys Toy.

(** [CONTEXT], the 24 bytes of "libp2p-ffi delegation v1". *)
Definition CONTEXT : bytes :=
  [x6c; x69; x62; x70; x32; x70; x2d; x66; x66; x69; x20;
   x64; x65; x6c; x65; x67; x61; x74; x69; x6f; x6e; x20; x76; x31].

Record Delegation := mk_delegation {
  node : lp2p_key;
  group : lp2p_key;
  expires_ms : Z;
  signature : array 64;
}.

Inductive Invalid := Length | GroupKey | Signature | Expired | WrongNode.

#[export] Instance Delegation_eq_dec : EqDecision Delegation.
Proof. solve_decision. Defined.
#[export] Instance Invalid_eq_dec : EqDecision Invalid.
Proof. solve_decision. Defined.
#[export] Instance eta_Delegation : Eta Delegation := {| eta d :=
  mk_delegation (node d) (group d) (expires_ms d) (signature d) |}.

(** The signed message. *)
Definition message (node group : lp2p_key) (expires_ms : Z) : bytes :=
  CONTEXT ++ arr node ++ arr group ++ be_bytes 8 expires_ms.

(** [dst.copy_from_slice(&bytes[from..to])]. The slice has the length of the
    array at every call ([parse_slices]), so the copy never panics. *)
Definition read_array {n} (dst : array n) (l : bytes) (from to : nat) : array n :=
  default dst (copy_from_slice dst (slice l from to)).

Definition parse (l : bytes) : result Delegation Invalid :=
  if negb (blen l =? LP2P_DELEGATION_BYTES) then Err Length
  else
    let d := mk_delegation (array_fill 32 x00) (array_fill 32 x00) 0 (array_fill 64 x00) in
    let d := d <| node := read_array (node d) l 0 32 |> in
    let d := d <| group := read_array (group d) l 32 64 |> in
    let expires := read_array (array_fill 8 x00) l 64 72 in
    let d := d <| expires_ms := be_value (arr expires) |> in
    let d := d <| signature := read_array (signature d) l 72 136 |> in
    Ok d.

Definition to_bytes (d : Delegation) : bytes :=
  arr (node d) ++ arr (group d) ++ be_bytes 8 (expires_ms d) ++ arr (signature d).

(** [now_ms] from the system clock, in nanoseconds since the Unix epoch; a
    clock before the epoch gives 0, and the milliseconds are cast to [u64]. *)
Definition now_ms (clock : Z) : Z :=
  if clock <? 0 then 0 else wrap 64 (clock / 1000000).

Section Checks.
Context {I : Identity}.

Definition sign (group_seed : array 32) (n : lp2p_key) (expires : Z) : option Delegation :=
  keypair ← ed25519_from_bytes group_seed;
  g ← try_into_ed25519 (keypair_public keypair);
  s ← to_array 64 (ed25519_sign keypair (message n g expires));
  Some (mk_delegation n g expires s).

(** Checks the signature and the expiry against [now]. *)
Definition verify (d : Delegation) (now : Z) : result unit Invalid :=
  match ed25519_public_from_bytes (group d) with
  | None => Err GroupKey
  | Some _ =>
      if negb (ed25519_verify (group d) (message (node d) (group d) (expires_ms d)) (signature d))
      then Err Signature
      else if negb (expires_ms d =? 0) && (expires_ms d <=? now) then Err Expired
      else Ok tt
  end.

(** Checks everything [verify] does, and that the delegation names [n]. *)
Definition verify_for (d : Delegation) (n : lp2p_key) (now : Z) : result unit Invalid :=
  _ <-? verify d now;
  if bool_decide (node d ≠ n) then Err WrongNode else Ok tt.

End Checks.

(** A delegation the code can hold: the expiry is a [u64]. *)
Definition delegation_wf (d : Delegation) : Prop := 0 ≤ expires_ms d < 2 ^ 64.

(** ** Lemmas *)

Lemma length_slice l a b : (a ≤ b ≤ length l)%nat → length (slice l a b) = (b - a)%nat.
Proof. intros H. unfold slice. rewrite length_take, length_drop. lia. Qed.

(** Every slice [parse] copies has the length of the array it is copied to. *)
Lemma parse_slices l : blen l = LP2P_DELEGATION_BYTES →
  length (slice l 0 32) = 32%nat ∧ length (slice l 32 64) = 32%nat ∧
  length (slice l 64 72) = 8%nat ∧ length (slice l 72 136) = 64%nat.
Proof.
  unfold blen, LP2P_DELEGATION_BYTES. intros H.
  rewrite !length_slice by lia. lia.
Qed.

Lemma read_array_exact {n} (dst : array n) l a b :
  length (slice l a b) = n → arr (read_array dst l a b) = slice l a b.
Proof.
  intros H. unfold read_array, copy_from_slice.
  destruct (to_array_is_Some n _ H) as [x Hx]. rewrite Hx. simpl.
  by apply to_array_Some in Hx.
Qed.

Lemma read_array_app {n} (dst a : array n) l r i j :
  length l = i → j = (i + n)%nat → read_array dst (l ++ arr a ++ r) i j = a.
Proof.
  intros Hl ->. apply array_eq.
  assert (Hs : slice (l ++ arr a ++ r) i (i + n) = arr a).
  { unfold slice. rewrite drop_app_exact by done.
    apply take_app_exact. rewrite array_length. lia. }
  rewrite read_array_exact; rewrite Hs; [done | apply array_length].
Qed.

Lemma length_to_bytes d : blen (to_bytes d) = LP2P_DELEGATION_BYTES.
Proof.
  unfold to_bytes, blen, LP2P_DELEGATION_BYTES.
  rewrite !length_app, !array_length, length_be_bytes. done.
Qed.

Lemma parse_fields l d : parse l = Ok d →
  blen l = LP2P_DELEGATION_BYTES ∧
  arr (node d) = slice l 0 32 ∧ arr (group d) = slice l 32 64 ∧
  expires_ms d = be_value (slice l 64 72) ∧ arr (signature d) = slice l 72 136.
Proof.
  unfold parse. destruct (blen l =? LP2P_DELEGATION_BYTES) eqn:E; simpl; [|done].
  apply Z.eqb_eq in E. intros [= <-]. cbn.
  destruct (parse_slices l E) as (H1 & H2 & H3 & H4).
  rewrite !read_array_exact by done. done.
Qed.

Lemma parse_wf l d : parse l = Ok d → delegation_wf d.
Proof.
  intros (Hl & _ & _ & He & _)%parse_fields. unfold delegation_wf. rewrite He.
  pose proof (parse_slices l Hl) as (_ & _ & H8 & _).
  pose proof (le_value_range (rev (slice l 64 72))) as H. unfold blen in H.
  rewrite length_rev, H8 in H. done.
Qed.

Lemma slices_join l a b c : (a ≤ b ≤ c)%nat → slice l a b ++ slice l b c = slice l a c.
Proof.
  intros H. unfold slice.
  replace (drop b l) with (drop (b - a) (drop a l)) by (rewrite drop_drop; f_equal; lia).
  rewrite take_take_drop. f_equal. lia.
Qed.

(** The message determines the delegation it is about. *)
Lemma message_inj n g e n' g' e' :
  0 ≤ e < 2 ^ 64 → 0 ≤ e' < 2 ^ 64 →
  message n g e = message n' g' e' → n = n' ∧ g = g' ∧ e = e'.
Proof.
  unfold message. intros He He' [_ H]%app_inj_1; [|done].
  apply app_inj_1 in H as [Hn H]; [|by rewrite !array_length].
  apply app_inj_1 in H as [Hg H]; [|by rewrite !array_length].
  apply (f_equal be_value) in H. rewrite !be_value_bytes, !wrap_small in H by done.
  split_and!; [by apply array_eq..|done].
Qed.

(** ** Properties *)

Lemma parse_to_bytes d : delegation_wf d → parse (to_bytes d) = Ok d.
Proof.
  intros Hd. unfold parse. rewrite length_to_bytes. cbn -[read_array].
  destruct d as [n g e s]. unfold delegation_wf in Hd. cbn -[read_array] in *.
  unfold to_bytes. cbn -[read_array]. f_equal.
  destruct (to_array_is_Some 8 (be_bytes 8 e)) as [x Hx]; [apply length_be_bytes|].
  apply to_array_Some in Hx. rewrite <- Hx. cbn -[read_array]. f_equal.
  + by apply (read_array_app _ n []).
  + apply (read_array_app _ g (arr n)); [apply array_length | done].
  + rewrite app_assoc.
    rewrite (read_array_app _ x (arr n ++ arr g));
      [|by rewrite length_app, !array_length|done].
    by rewrite Hx, be_value_bytes, wrap_small.
  + rewrite (app_assoc (arr n)), (app_assoc (arr n ++ arr g)).
    rewrite <- (app_nil_r (arr s)).
    apply (read_array_app _ s ((arr n ++ arr g) ++ arr x));
      [by rewrite !length_app, !array_length | done].
Qed.

Lemma to_bytes_parse l d : parse l = Ok d → to_bytes d = l.
Proof.
  intros (Hl & Hn & Hg & He & Hs)%parse_fields. unfold to_bytes.
  pose proof (parse_slices l Hl) as (_ & _ & H8 & _).
  pose proof (be_bytes_value (slice l 64 72)) as Hb. rewrite H8 in Hb.
  rewrite Hn, Hg, He, Hs, Hb.
  rewrite !slices_join by lia. unfold slice. rewrite drop_0.
  apply take_ge. unfold blen, LP2P_DELEGATION_BYTES in Hl. lia.
Qed.

Lemma parse_length l : parse l = Err Length ↔ blen l ≠ LP2P_DELEGATION_BYTES.
Proof. unfold parse. destruct (Z.eqb_spec (blen l) LP2P_DELEGATION_BYTES); naive_solver. Qed.

(** C32: [parse] and [to_bytes] are inverse to each other: every delegation whose
    expiry is a u64 survives the round trip, and a byte string that parses is
    the one its delegation prints, so no two byte strings mean the same. Every
    string of 136 bytes parses and no other does. *)
Theorem delegation_roundtrip :
  (∀ d, delegation_wf d → parse (to_bytes d) = Ok d) ∧
  (∀ l d, parse l = Ok d → to_bytes d = l ∧ delegation_wf d) ∧
  (∀ l, parse l = Err Length ↔ blen l ≠ LP2P_DELEGATION_BYTES) ∧
  (∀ l e, parse l = Err e → e = Length).
Proof.
  split_and!; [apply parse_to_bytes| |apply parse_length|].
  - intros l d Hp. split; [by apply to_bytes_parse|by eapply parse_wf].
  - intros l e. unfold parse. destruct (negb _); naive_solver.
Qed.

(** A delegation is in force at [now] when it does not expire or expires later. *)
Definition in_force (expires now : Z) : Prop := expires = 0 ∨ now < expires.

Section Verification.
Context {I : Identity}.

Lemma expired_false e now :
  negb (e =? 0) && (e <=? now) = false ↔ in_force e now.
Proof.
  unfold in_force. destruct (Z.eqb_spec e 0), (Z.leb_spec e now); simpl; split; try done; lia.
Qed.

Lemma verify_Ok d now :
  verify d now = Ok tt ↔
  is_Some (ed25519_public_from_bytes (group d)) ∧
  ed25519_verify (group d) (message (node d) (group d) (expires_ms d)) (signature d) = true ∧
  in_force (expires_ms d) now.
Proof.
  unfold verify. rewrite <- expired_false.
  destruct (ed25519_public_from_bytes _) as [pk|]; [|split; [done | by intros [[] _]]].
  destruct (ed25519_verify _ _ _); simpl; [|naive_solver].
  destruct (_ && _); naive_solver.
Qed.

Lemma verify_for_Ok d n now :
  verify_for d n now = Ok tt ↔
     is_Some (ed25519_public_from_bytes (group d)) ∧
     ed25519_verify (group d) (message (node d) (group d) (expires_ms d)) (signature d) = true ∧
     in_force (expires_ms d) now ∧ node d = n.
Proof.
  unfold verify_for. pose proof (verify_Ok d now) as Hv. destruct (verify d now) as [[]|e]; simpl.
  - case_bool_decide; naive_solver.
  - naive_solver.
Qed.

(** C31: what [verify_for] accepts, exactly: the group key is an ed25519 key,
    the signature is its signature over this node, this group and this expiry,
    the delegation has not expired, and it names the node that was asked about.
    Each failure has its own error, and they are reported in that order. *)
Theorem verify_for_spec d n now :
  (verify_for d n now = Ok tt ↔
     is_Some (ed25519_public_from_bytes (group d)) ∧
     ed25519_verify (group d) (message (node d) (group d) (expires_ms d)) (signature d) = true ∧
     in_force (expires_ms d) now ∧ node d = n) ∧
  (verify_for d n now = Err GroupKey ↔ ed25519_public_from_bytes (group d) = None) ∧
  (verify_for d n now = Err Signature ↔
     is_Some (ed25519_public_from_bytes (group d)) ∧
     ed25519_verify (group d) (message (node d) (group d) (expires_ms d)) (signature d) = false) ∧
  (verify_for d n now = Err Expired ↔
     is_Some (ed25519_public_from_bytes (group d)) ∧
     ed25519_verify (group d) (message (node d) (group d) (expires_ms d)) (signature d) = true ∧
     ¬ in_force (expires_ms d) now) ∧
  (verify_for d n now = Err WrongNode ↔ verify d now = Ok tt ∧ node d ≠ n) ∧
  verify_for d n now ≠ Err Length.
Proof.
  split; [apply verify_for_Ok|]. unfold verify_for, verify.
  destruct (ed25519_public_from_bytes (group d)) as [pk|]; [|cbn; unfold is_Some; naive_solver].
  destruct (ed25519_verify _ _ _); cbn [negb]; [|cbn; naive_solver].
  pose proof (expired_false (expires_ms d) now) as He.
  destruct (negb (expires_ms d =? 0) && (expires_ms d <=? now)); [cbn; naive_solver|].
  cbn. case_bool_decide; naive_solver.
Qed.

Context {L : IdentityLaws I}.

Lemma sign_wf seed n e d : 0 ≤ e < 2 ^ 64 → sign seed n e = Some d → delegation_wf d ∧ node d = n ∧ expires_ms d = e.
Proof.
  intros He Hs. unfold sign in Hs.
  apply bind_Some in Hs as (kp & Hkp & Hs). apply bind_Some in Hs as (g & Hg & Hs).
  by apply bind_Some in Hs as (s & Hsig%to_array_Some & [= <-]).
Qed.

Lemma sign_verify_for seed n e d m now :
  sign seed n e = Some d → verify_for d m now = Ok tt ↔ m = n ∧ in_force e now.
Proof.
  intros Hs. unfold sign in Hs.
  apply bind_Some in Hs as (kp & Hkp & Hs). apply bind_Some in Hs as (g & Hg & Hs).
  apply bind_Some in Hs as (s & Hsig%to_array_Some & [= <-]).
  rewrite verify_for_Ok. simpl.
  rewrite (sign_verifies seed kp g (message n g e) s Hkp Hg Hsig).
  rewrite (ed25519_from_to _ _ Hg). split; [naive_solver|].
  intros [-> Hf]. split_and!; eauto.
Qed.

(** A delegation made by [sign] passes [verify_for] for the node it was
    made for and no other, up to its expiry, also after a trip over the wire. *)
Theorem signed_delegation_verifies seed n e d :
  0 ≤ e < 2 ^ 64 → sign seed n e = Some d →
  parse (to_bytes d) = Ok d ∧ node d = n ∧ expires_ms d = e ∧
  ∀ m now, verify_for d m now = Ok tt ↔ m = n ∧ in_force e now.
Proof.
  intros He Hs. destruct (sign_wf seed n e d He Hs) as (Hwf & Hn & Hexp).
  split_and!; [by apply parse_to_bytes|done|done|]. intros m now. by apply (sign_verify_for seed).
Qed.

End Verification.

(** ** Witnesses *)

Definition sample_delegation : Delegation :=
  default (mk_delegation zero_key zero_key 0 (array_fill 64 x00))
          (sign (key_byte x01) (key_byte x02) 1000).

Lemma delegation_roundtrip_witness :
  parse (to_bytes sample_delegation) = Ok sample_delegation ∧
  to_bytes sample_delegation = to_bytes sample_delegation ∧ parse [] = Err Length.
Proof.
  assert (H : delegation_wf sample_delegation) by (vm_compute; intuition discriminate).
  pose proof (proj1 delegation_roundtrip _ H) as Hp.
  split; [exact Hp | split].
  - exact (proj1 (proj1 (proj2 delegation_roundtrip) _ _ Hp)).
  - apply (proj1 (proj2 (proj2 delegation_roundtrip))). vm_compute. discriminate.
Defined.

Lemma signed_delegation_verifies_witness :
  verify_for sample_delegation (key_byte x02) 999 = Ok tt ∧
  verify_for sample_delegation (key_byte x03) 999 ≠ Ok tt ∧
  verify_for sample_delegation (key_byte x02) 1000 ≠ Ok tt.
Proof.
  assert (H := signed_delegation_verifies (key_byte x01) (key_byte x02) 1000 sample_delegation
    ltac:(lia) eq_refl).
  destruct H as (_ & _ & _ & H).
  split; [|split].
  - apply H. split; [done | right; lia].
  - intros [E _]%H. by apply (f_equal arr) in E.
  - intros [_ [E|E]]%H; lia.
Defined.
