(* ===== verification/Wire.v ===== *)
(** * Wire: what travels on a stream, [src/wire.rs]

    The request, response and announcement frames, the provider key, the topic
    name, and the bounded reader of the codec. Decoding accepts exactly the
    frames encoding produces. The SHA-256 of the [sha2] crate is a parameter. *)

From S2P Require Import Prelude Abi.

(** ** UTF-8, as [std::str::from_utf8] checks it *)

Definition in_range (lo hi : Z) (b : byte) : bool := (lo <=? byte_val b) && (byte_val b <=? hi).
Definition continuation : byte → bool := in_range 0x80 0xBF.

Fixpoint utf8_valid (l : bytes) : bool :=
  match l with
  | [] => true
  | b0 :: l1 =>
    if in_range 0x00 0x7F b0 then utf8_valid l1
    else match l1 with
    | [] => false
    | b1 :: l2 =>
      if in_range 0xC2 0xDF b0 then continuation b1 && utf8_valid l2
      else match l2 with
      | [] => false
      | b2 :: l3 =>
        if in_range 0xE0 0xEF b0 then
          (if in_range 0xE0 0xE0 b0 then in_range 0xA0 0xBF b1
           else if in_range 0xED 0xED b0 then in_range 0x80 0x9F b1
           else continuation b1) && continuation b2 && utf8_valid l3
        else match l3 with
        | [] => false
        | b3 :: l4 =>
          in_range 0xF0 0xF4 b0 &&
          (if in_range 0xF0 0xF0 b0 then in_range 0x90 0xBF b1
           else if in_range 0xF4 0xF4 b0 then in_range 0x80 0x8F b1
           else continuation b1) && continuation b2 && continuation b3 && utf8_valid l4
        end
      end
    end
  end.

(** ** Names *)

(** [0x12 0x20 || sha256(group)], the multihash every node provides under. *)
Definition provider_key (sha256 : bytes → array 32) (group : lp2p_key) : bytes :=
  [x12; x20] ++ arr (sha256 (arr group)).

Definition VERSION : byte := x01.

(** The lowercase hexadecimal digit of a value below 16. *)
Definition hex_digit (z : Z) : byte :=
  if z <? 10 then byte_of (48 + z) else byte_of (87 + z).

(** [format!("{byte:02x}")]. *)
Definition hex_byte (b : byte) : bytes :=
  [hex_digit (byte_val b / 16); hex_digit (byte_val b mod 16)].

(** "/lp2p/topic/1/". *)
Definition topic_prefix : bytes :=
  [x2f; x6c; x70; x32; x70; x2f; x74; x6f; x70; x69; x63; x2f; x31; x2f].

Definition topic_name (key : lp2p_key) : bytes :=
  topic_prefix ++ concat (hex_byte <$> arr key).

(** ** Frames *)

Record Request := mk_request {
  req_delegation : bytes;
  req_protocol : bytes;
  req_payload : bytes;
}.

Record Response := mk_response {
  res_delegation : bytes;
  res_payload : bytes;
}.

Definition encode_request (delegation protocol payload : bytes) : bytes :=
  [VERSION] ++ delegation ++ [byte_of (as_u8 (blen protocol))] ++ protocol ++ payload.

Definition decode_request (frame : bytes) : option Request :=
  '(version, rest) ← split_first frame;
  if bool_decide (version ≠ VERSION) || (blen rest <? LP2P_DELEGATION_BYTES + 1) then None
  else
    let '(delegation, rest) := split_at rest (Z.to_nat LP2P_DELEGATION_BYTES) in
    '(name_len, rest) ← split_first rest;
    let name_len := byte_val name_len in
    if (name_len =? 0) || (blen rest <? name_len) then None
    else
      let '(name, payload) := split_at rest (Z.to_nat name_len) in
      if utf8_valid name then Some (mk_request delegation name payload) else None.

Definition encode_response (delegation payload : bytes) : bytes :=
  [VERSION] ++ delegation ++ payload.

Definition decode_response (frame : bytes) : option Response :=
  '(version, rest) ← split_first frame;
  if bool_decide (version ≠ VERSION) || (blen rest <? LP2P_DELEGATION_BYTES) then None
  else
    let '(delegation, payload) := split_at rest (Z.to_nat LP2P_DELEGATION_BYTES) in
    Some (mk_response delegation payload).

(** An announcement has the shape of a response. *)
Definition encode_announcement (delegation payload : bytes) : bytes :=
  encode_response delegation payload.

Definition decode_announcement (frame : bytes) : option Response := decode_response frame.

(** ** The codec

    A stream is the sequence of answers its reads give: some bytes, or an
    error. A read of no bytes, or no answer left, is the end of the stream. *)

Inductive read_answer := Chunk (l : bytes) | Broken.
Inductive io_error := InvalidData | Io.

Record RawCodec := mk_codec { max_request : Z; max_response : Z }.

(** [io.take(limit).read_to_end(&mut buf)]. *)
Fixpoint take_read_to_end (limit : Z) (io : list read_answer) : result bytes io_error :=
  match io with
  | [] => Ok []
  | a :: io =>
      if limit <=? 0 then Ok []
      else match a with
      | Broken => Err Io
      | Chunk [] => Ok []
      | Chunk l =>
          let got := take (Z.to_nat limit) l in
          rest <-? take_read_to_end (limit - blen got) io;
          Ok (got ++ rest)
      end
  end.

(** One byte past the limit tells a frame that is exactly at the limit from one
    that is over. *)
Definition read_bounded (io : list read_answer) (max : Z) : result bytes io_error :=
  buf <-? take_read_to_end (wrap 64 (max + 1)) io;
  if max <? blen buf then Err InvalidData else Ok buf.

Definition read_request (c : RawCodec) (io : list read_answer) : result bytes io_error :=
  read_bounded io (max_request c).

Definition read_response (c : RawCodec) (io : list read_answer) : result bytes io_error :=
  read_bounded io (max_response c).

(** [write_all]: the bytes handed to the stream. *)
Definition write_request (c : RawCodec) (req : bytes) : bytes := req.
Definition write_response (c : RawCodec) (res : bytes) : bytes := res.

(** A stream that delivers [l] in non-empty pieces and then ends. *)
Definition delivers (io : list read_answer) (l : bytes) : Prop :=
  ∃ chunks, Forall (.≠ []) chunks ∧ io = Chunk <$> chunks ∧ l = concat chunks.

(** ** Well-formed frames *)

Definition request_wf (r : Request) : Prop :=
  blen (req_delegation r) = LP2P_DELEGATION_BYTES ∧
  1 ≤ blen (req_protocol r) ≤ 255 ∧ utf8_valid (req_protocol r) = true.

Definition response_wf (r : Response) : Prop := blen (res_delegation r) = LP2P_DELEGATION_BYTES.

(** ** Lemmas *)

Lemma length_hex_byte b : length (hex_byte b) = 2%nat.
Proof. done. Qed.

Lemma hex_digit_inj a b :
  0 ≤ a < 16 → 0 ≤ b < 16 → hex_digit a = hex_digit b → a = b.
Proof.
  intros Ha Hb H. apply (f_equal byte_val) in H. revert H. unfold hex_digit.
  destruct (Z.ltb_spec a 10), (Z.ltb_spec b 10); rewrite !byte_val_of, !Z.mod_small by lia; lia.
Qed.

Lemma hex_byte_inj a b : hex_byte a = hex_byte b → a = b.
Proof.
  unfold hex_byte. intros [= H1 H2].
  pose proof (byte_val_range a). pose proof (byte_val_range b).
  apply byte_val_inj.
  apply hex_digit_inj in H1; [|split; [apply Z.div_pos; lia | apply Z.div_lt_upper_bound; lia]..].
  apply hex_digit_inj in H2; [|apply Z.mod_pos_bound; lia..].
  rewrite (Z.div_mod (byte_val a) 16), (Z.div_mod (byte_val b) 16) by lia. lia.
Qed.

Lemma concat_hex_inj l k : concat (hex_byte <$> l) = concat (hex_byte <$> k) → l = k.
Proof.
  revert k; induction l as [|a l IH]; intros [|b k]; try done.
  rewrite !fmap_cons. cbn [concat]. intros [H1 H2]%app_inj_1; [|done].
  f_equal; [by apply hex_byte_inj | by apply IH].
Qed.

Lemma length_concat_hex l : length (concat (hex_byte <$> l)) = (2 * length l)%nat.
Proof. induction l as [|a l IH]; [done|]. rewrite fmap_cons. cbn [concat]. rewrite length_app, IH, length_hex_byte. simpl. lia. Qed.

Lemma split_at_app l k n : length l = n → split_at (l ++ k) n = (l, k).
Proof. intros H. unfold split_at. by rewrite take_app_exact, drop_app_exact. Qed.

Lemma take_read_to_end_chunks limit chunks :
  Forall (.≠ []) chunks →
  take_read_to_end limit (Chunk <$> chunks) = Ok (take (Z.to_nat limit) (concat chunks)).
Proof.
  intros Hc. revert limit. induction Hc as [|c chunks Hne Hc IH]; intros limit.
  { simpl. by rewrite take_nil. }
  rewrite fmap_cons. cbn [take_read_to_end concat].
  destruct (Z.leb_spec limit 0). { by replace (Z.to_nat limit) with O by lia. }
  destruct c as [|b c]; [done|]. rewrite IH. cbn [res_bind]. f_equal.
  rewrite take_app. f_equal. f_equal. unfold blen. rewrite length_take. lia.
Qed.

Lemma take_read_to_end_bound limit io l :
  take_read_to_end limit io = Ok l → blen l ≤ Z.max 0 limit.
Proof.
  revert limit l; induction io as [|a io IH]; intros limit l H; cbn [take_read_to_end] in H.
  { injection H as <-. unfold blen. simpl. lia. }
  destruct (Z.leb_spec limit 0). { injection H as <-. unfold blen. simpl. lia. }
  destruct a as [[|b c]|]; [injection H as <-; unfold blen; simpl; lia | | done].
  destruct (take_read_to_end _ io) as [rest|] eqn:E; [|done]. cbn [res_bind] in H.
  injection H as <-. apply IH in E. rewrite blen_app.
  assert (blen (take (Z.to_nat limit) (b :: c)) ≤ limit).
  { unfold blen. rewrite length_take. lia. }
  pose proof (blen_nonneg (take (Z.to_nat limit) (b :: c))). lia.
Qed.

Lemma decode_response_encode d p :
  blen d = LP2P_DELEGATION_BYTES → decode_response (encode_response d p) = Some (mk_response d p).
Proof.
  intros Hd. unfold decode_response, encode_response. cbn [app split_first mbind option_bind].
  rewrite blen_app. pose proof (blen_nonneg p).
  destruct (Z.ltb_spec (blen d + blen p) LP2P_DELEGATION_BYTES); [lia|].
  rewrite bool_decide_false by auto. cbn [orb].
  rewrite split_at_app; [done|]. unfold blen, LP2P_DELEGATION_BYTES in *. lia.
Qed.

Lemma encode_response_decode f r :
  decode_response f = Some r →
  response_wf r ∧ encode_response (res_delegation r) (res_payload r) = f.
Proof.
  unfold decode_response. destruct f as [|v rest]; cbn [split_first mbind option_bind]; [done|].
  case_bool_decide as Hv; simpl; [done|].
  destruct (Z.ltb_spec (blen rest) LP2P_DELEGATION_BYTES); [done|].
  intros [= <-]. unfold response_wf, encode_response. simpl. split.
  - unfold blen, LP2P_DELEGATION_BYTES in *. rewrite length_take. lia.
  - destruct (decide (v = VERSION)) as [->|]; [|done].
    change (take _ rest ++ drop _ rest) with (take 136 rest ++ drop 136 rest).
    by rewrite take_drop.
Qed.

Lemma name_len_byte (n : bytes) :
  1 ≤ blen n ≤ 255 → byte_val (byte_of (as_u8 (blen n))) = blen n.
Proof.
  intros H. rewrite byte_val_of. unfold as_u8. rewrite wrap_small by lia.
  apply Z.mod_small. lia.
Qed.

Lemma decode_request_encode r :
  request_wf r →
  decode_request (encode_request (req_delegation r) (req_protocol r) (req_payload r)) = Some r.
Proof.
  destruct r as [d n p]. unfold request_wf. simpl. intros (Hd & Hn & Hu).
  unfold decode_request, encode_request. cbn [app split_first mbind option_bind].
  rewrite bool_decide_false by auto. rewrite !blen_app.
  change (blen [?b]) with 1. pose proof (blen_nonneg p).
  destruct (Z.ltb_spec (blen d + (blen (byte_of (as_u8 (blen n)) :: n ++ p))) (LP2P_DELEGATION_BYTES + 1)) as [Hlt|_].
  { unfold blen in Hlt, Hd, Hn. simpl in Hlt. lia. }
  cbn [orb]. rewrite split_at_app by (unfold blen, LP2P_DELEGATION_BYTES in *; lia).
  cbn [app split_first mbind option_bind]. rewrite name_len_byte by done.
  rewrite blen_app. destruct (Z.eqb_spec (blen n) 0); [lia|].
  destruct (Z.ltb_spec (blen n + blen p) (blen n)); [lia|]. cbn [orb].
  rewrite split_at_app by (unfold blen; lia). by rewrite Hu.
Qed.

Lemma encode_request_decode f r :
  decode_request f = Some r →
  request_wf r ∧ encode_request (req_delegation r) (req_protocol r) (req_payload r) = f.
Proof.
  unfold decode_request. destruct f as [|v rest]; cbn [split_first mbind option_bind]; [done|].
  case_bool_decide as Hv; cbn [orb]; [done|].
  destruct (Z.ltb_spec (blen rest) (LP2P_DELEGATION_BYTES + 1)) as [|Hrest]; [done|].
  destruct (split_at rest _) as [d rest2] eqn:Es.
  assert (d = take 136 rest ∧ rest2 = drop 136 rest) as [Hd H2].
  { unfold split_at in Es. by injection Es. }
  destruct rest2 as [|nl rest3]; cbn [split_first mbind option_bind]; [done|].
  destruct (Z.eqb_spec (byte_val nl) 0) as [|Hnl]; cbn [orb]; [done|].
  destruct (Z.ltb_spec (blen rest3) (byte_val nl)) as [|H3]; [done|].
  destruct (split_at rest3 _) as [name payload] eqn:Es3.
  unfold split_at in Es3. injection Es3 as Hname Hpay.
  destruct (utf8_valid name) eqn:Hu; [|done]. intros [= <-]. cbn.
  pose proof (byte_val_range nl).
  assert (blen name = byte_val nl) as Hlen.
  { subst name. unfold blen in *. rewrite length_take. lia. }
  unfold request_wf; cbn. split_and!; [|lia|lia|done|].
  - subst d. unfold blen, LP2P_DELEGATION_BYTES in *. rewrite length_take. lia.
  - unfold encode_request. destruct (decide (v = VERSION)) as [->|]; [|done].
    rewrite Hlen. unfold as_u8. rewrite wrap_small by lia. rewrite byte_of_val.
    cbn [app]. f_equal. rewrite <- (take_drop 136 rest), <- H2, <- Hd. f_equal. f_equal.
    by rewrite <- Hname, <- Hpay, take_drop.
Qed.

Lemma topic_name_inj k1 k2 : topic_name k1 = topic_name k2 → k1 = k2.
Proof.
  unfold topic_name. intros [_ H]%app_inj_1; [|done].
  by apply array_eq, concat_hex_inj.
Qed.

Lemma read_bounded_delivers io frame max :
  0 ≤ max < 2 ^ 64 - 1 → delivers io frame →
  read_bounded io max = if blen frame <=? max then Ok frame else Err InvalidData.
Proof.
  intros Hm (chunks & Hne & -> & ->). unfold read_bounded. rewrite wrap_small by lia.
  rewrite take_read_to_end_chunks by done. cbn [res_bind].
  set (l := concat chunks). unfold blen. rewrite length_take.
  destruct (Z.leb_spec (Z.of_nat (length l)) max).
  - rewrite take_ge by lia. destruct (Z.ltb_spec max (Z.of_nat (Z.to_nat (max + 1) `min` length l))); [lia | done].
  - destruct (Z.ltb_spec max (Z.of_nat (Z.to_nat (max + 1) `min` length l))); [done | lia].
Qed.

Lemma blen_encode_request d name payload :
  blen (encode_request d name payload) = 2 + blen d + blen name + blen payload.
Proof. unfold encode_request. rewrite !blen_app. unfold blen. cbn [length]. lia. Qed.

Lemma blen_encode_response d payload : blen (encode_response d payload) = 1 + blen d + blen payload.
Proof. unfold encode_response. rewrite !blen_app. unfold blen. cbn [length]. lia. Qed.

(** ** Properties *)

(** C38: the decoders accept exactly the frames the encoders write for a
    well-formed message -- a 136-byte delegation and, in a request, a UTF-8
    protocol name of 1 to 255 bytes -- and read back what was written; so a frame
    has one meaning and a truncated or padded header none. Responses,
    announcements and topic messages share a format. *)
Theorem frames_codec f :
  (∀ r, decode_request f = Some r ↔
    request_wf r ∧ encode_request (req_delegation r) (req_protocol r) (req_payload r) = f) ∧
  (∀ r, decode_response f = Some r ↔
    response_wf r ∧ encode_response (res_delegation r) (res_payload r) = f).
Proof.
  split; intros r; (split; [apply encode_request_decode || apply encode_response_decode|]); intros [H <-].
  - by apply decode_request_encode.
  - destruct r. by apply decode_response_encode.
Qed.

(** The bounded reader answers the whole frame when it is at most [max]
    bytes long and an error when it is longer, however the bytes arrive, and it
    never holds more than [max + 1] bytes of a stream. *)
Theorem read_bounded_spec io frame max :
  0 ≤ max < 2 ^ 64 - 1 → delivers io frame →
  read_bounded io max = (if blen frame <=? max then Ok frame else Err InvalidData) ∧
  ∀ io' l, take_read_to_end (wrap 64 (max + 1)) io' = Ok l → blen l ≤ max + 1.
Proof.
  intros Hm Hd. split; [by apply read_bounded_delivers|]. rewrite wrap_small by lia.
  intros io' l H%take_read_to_end_bound. lia.
Qed.

(** A topic name is 78 characters long and names one topic key only. *)
Theorem topic_name_injective k1 k2 :
  length (topic_name k1) = 78%nat ∧ (topic_name k1 = topic_name k2 → k1 = k2).
Proof.
  split.
  - unfold topic_name. rewrite length_app, length_concat_hex, array_length. done.
  - apply topic_name_inj.
Qed.

(** ** Witnesses *)

Definition sample_request : Request :=
  mk_request (repeat x09 136) [x2f; x70] [x68; x69].

Lemma read_bounded_spec_witness :
  read_bounded [Chunk [x01; x02]; Chunk [x03]] 3 = Ok [x01; x02; x03] ∧
  read_bounded [Chunk [x01; x02]; Chunk [x03]] 2 = Err InvalidData.
Proof.
  assert (Hd : delivers [Chunk [x01; x02]; Chunk [x03]] [x01; x02; x03]).
  { exists [[x01; x02]; [x03]]. split; [repeat constructor; done | done]. }
  split.
  - exact (proj1 (read_bounded_spec _ _ 3 ltac:(lia) Hd)).
  - exact (proj1 (read_bounded_spec _ _ 2 ltac:(lia) Hd)).
Defined.

Lemma topic_name_injective_witness :
  length (topic_name (array_fill 32 xab)) = 78%nat ∧ array_fill 32 xab = array_fill 32 xab.
Proof.
  split; [exact (proj1 (topic_name_injective _ (array_fill 32 xab))) |].
  apply (proj2 (topic_name_injective _ _)). reflexivity.
Defined.

(** The examples of the source's own tests. *)
Example frames_round_trip : decode_request
    (encode_request (req_delegation sample_request) (req_protocol sample_request)
       (req_payload sample_request)) = Some sample_request.
Proof. vm_compute. reflexivity. Qed.

Example truncated_frames_are_refused :
  let frame := encode_request (repeat x09 136) [x2f; x70] [x78] in
  decode_request (take 10 frame) = None ∧ decode_request [x02] = None ∧
  decode_response (take 100 frame) = None.
Proof. vm_compute. auto. Qed.

Example a_topic_key_names_one_string :
  topic_name (array_fill 32 xab) = topic_prefix ++ concat (repeat [x61; x62] 32).
Proof. reflexivity. Qed.
