(* ===== verification/Events.v ===== *)
(** * Events: the record format of [src/events.rs]

    A record is an [lp2p_event] header of 88 bytes followed by its data, padded
    with zeros to a multiple of 8. [EventBuilder] writes records; [parse] is
    the reader a C caller runs over a polled buffer (the one of
    [tests/network.rs], the same loop as in [examples/holepunch.rs]). A buffer
    of whole records parses back into exactly the events that were built. *)

From S2P Require Import Prelude Abi.

(** [Record(Vec<u8>)]. *)
Abbreviation EventRecord := bytes.

Record EventBuilder := mk_builder { header : lp2p_event }.

#[export] Instance eta_EventBuilder : Eta EventBuilder := {| eta b := mk_builder (header b) |}.

Definition new_event (kind : Z) : EventBuilder := mk_builder (default_event <| ev_type := kind |>).

Definition with_id (id : Z) (b : EventBuilder) : EventBuilder :=
  b <| header ::= fun h => h <| ev_id := id |> |>.
Definition with_flags (flags : Z) (b : EventBuilder) : EventBuilder :=
  b <| header ::= fun h => h <| ev_flags := flags |> |>.
Definition with_group (group : lp2p_key) (b : EventBuilder) : EventBuilder :=
  b <| header ::= fun h => h <| ev_group := group |> |>.
Definition with_node (node : lp2p_key) (b : EventBuilder) : EventBuilder :=
  b <| header ::= fun h => h <| ev_node := node |> |>.
Definition with_protocol (protocol : Z) (b : EventBuilder) : EventBuilder :=
  b <| header ::= fun h => h <| ev_protocol := protocol |> |>.
Definition with_reason (reason : Z) (b : EventBuilder) : EventBuilder :=
  b <| header ::= fun h => h <| ev_reason := reason |> |>.

(** The size of a record with [n] bytes of data: [unpadded.div_ceil(8) * 8]. *)
Definition record_size (n : Z) : Z := (LP2P_EVENT_HEADER_BYTES + n + 7) / 8 * 8.

(** The header as bytes, in the order of the fields, each in native byte order. *)
Definition header_bytes (h : lp2p_event) : bytes :=
  le_bytes 2 (ev_type h) ++ le_bytes 2 (ev_flags h) ++ le_bytes 4 (ev_size h) ++
  le_bytes 8 (ev_id h) ++ arr (ev_group h) ++ arr (ev_node h) ++
  le_bytes 2 (ev_protocol h) ++ le_bytes 2 (ev_reason h) ++ le_bytes 4 (ev_data_len h).

(** [out.resize(size, 0)] of a vector that is not longer than [size]. *)
Definition resize_zero (l : bytes) (size : Z) : bytes :=
  take (Z.to_nat size) l ++ repeat x00 (Z.to_nat size - length l).

(** The header [data] completes before it is written: sizes are cast to [u32]. *)
Definition complete_header (h : lp2p_event) (len : Z) : lp2p_event :=
  h <| ev_size := as_u32 (record_size len) |> <| ev_data_len := as_u32 len |>.

Definition data (b : EventBuilder) (d : bytes) : EventRecord :=
  resize_zero (header_bytes (complete_header (header b) (blen d)) ++ d) (record_size (blen d)).

Definition build (b : EventBuilder) : EventRecord := data b [].

(** ** The reader *)

(** [read_unaligned] of an [lp2p_event] at the start of [buf]. *)
Definition read_header (buf : bytes) : option lp2p_event :=
  g ← to_array 32 (take 32 (drop 16 buf));
  n ← to_array 32 (take 32 (drop 48 buf));
  Some {|
    ev_type := le_value (take 2 buf);
    ev_flags := le_value (take 2 (drop 2 buf));
    ev_size := le_value (take 4 (drop 4 buf));
    ev_id := le_value (take 8 (drop 8 buf));
    ev_group := g;
    ev_node := n;
    ev_protocol := le_value (take 2 (drop 80 buf));
    ev_reason := le_value (take 2 (drop 82 buf));
    ev_data_len := le_value (take 4 (drop 84 buf));
  |}.

Record Event := mk_parsed { event_header : lp2p_event; event_data : bytes }.

#[export] Instance Event_eq_dec : EqDecision Event.
Proof. solve_decision. Defined.

(** The loop of the reader over what is left of the buffer; [None] is a panic
    of a slice index, or the fuel running out ([parse] gives one step per byte,
    which is enough for every buffer whose records are not of size 0). *)
Fixpoint parse_from (fuel : nat) (buf : bytes) : option (list Event) :=
  if blen buf <? LP2P_EVENT_HEADER_BYTES then Some []
  else
    match fuel with
    | O => None
    | S fuel =>
        h ← read_header buf;
        if blen buf <? LP2P_EVENT_HEADER_BYTES + ev_data_len h then None
        else
          let d := slice buf 88 (Z.to_nat (88 + ev_data_len h)) in
          rest ← parse_from fuel (drop (Z.to_nat (ev_size h)) buf);
          Some (mk_parsed h d :: rest)
    end.

Definition parse (buf : bytes) : option (list Event) := parse_from (length buf) buf.

(** ** Well-formed events *)

(** Every field within its C type. *)
Definition header_wf (h : lp2p_event) : Prop :=
  0 ≤ ev_type h < 2 ^ 16 ∧ 0 ≤ ev_flags h < 2 ^ 16 ∧ 0 ≤ ev_size h < 2 ^ 32 ∧
  0 ≤ ev_id h < 2 ^ 64 ∧ 0 ≤ ev_protocol h < 2 ^ 16 ∧ 0 ≤ ev_reason h < 2 ^ 16 ∧
  0 ≤ ev_data_len h < 2 ^ 32.

(** A builder and the data it is given: the record's size fits its [u32]. *)
Definition event_wf (b : EventBuilder) (d : bytes) : Prop :=
  header_wf (header b) ∧ record_size (blen d) < 2 ^ 32.

(** What the reader gives back for it. *)
Definition expected (b : EventBuilder) (d : bytes) : Event :=
  mk_parsed (complete_header (header b) (blen d)) d.

(** ** Lemmas *)

Lemma record_size_bounds n : 0 ≤ n →
  LP2P_EVENT_HEADER_BYTES + n ≤ record_size n < LP2P_EVENT_HEADER_BYTES + n + 8 ∧
  record_size n mod 8 = 0.
Proof.
  intros Hn. unfold record_size.
  pose proof (Z.div_mod (LP2P_EVENT_HEADER_BYTES + n + 7) 8 ltac:(lia)).
  pose proof (Z.mod_pos_bound (LP2P_EVENT_HEADER_BYTES + n + 7) 8 ltac:(lia)).
  split; [lia|]. apply Z.mod_mul. lia.
Qed.

Lemma length_header_bytes h : length (header_bytes h) = 88%nat.
Proof.
  unfold header_bytes. rewrite !length_app, !length_le_bytes, !array_length. done.
Qed.

(** A built record has the size its header announces. *)
Lemma length_data b d : blen (data b d) = record_size (blen d).
Proof.
  pose proof (record_size_bounds (blen d) (blen_nonneg d)) as [H _].
  unfold data, resize_zero. unfold blen in *.
  rewrite length_app, repeat_length, length_take, length_app, length_header_bytes.
  unfold LP2P_EVENT_HEADER_BYTES in H. lia.
Qed.

(** A record is its header, its data and zeros. *)
Lemma data_split b d : ∃ pad,
  data b d = header_bytes (complete_header (header b) (blen d)) ++ d ++ pad ∧
  blen pad = record_size (blen d) - LP2P_EVENT_HEADER_BYTES - blen d.
Proof.
  pose proof (record_size_bounds (blen d) (blen_nonneg d)) as [H _].
  unfold data, resize_zero. eexists. split.
  - rewrite take_ge; [by rewrite <- app_assoc|].
    rewrite length_app, length_header_bytes. unfold blen, LP2P_EVENT_HEADER_BYTES in *. lia.
  - unfold blen in *. rewrite repeat_length, length_app, length_header_bytes.
    unfold LP2P_EVENT_HEADER_BYTES in *. lia.
Qed.

(** A field of a concatenation, by its offset and its length. *)
Lemma take_drop_field (whole pre f post : bytes) i n :
  whole = pre ++ f ++ post → length pre = i → length f = n → take n (drop i whole) = f.
Proof. intros -> Hl Hf. rewrite drop_app_exact by done. by apply take_app_exact. Qed.

Ltac field i n pre f post :=
  erewrite (take_drop_field _ pre f post i n);
  [| rewrite <- ?app_assoc; reflexivity | rewrite ?length_app; lia | lia].

(** Reading a header back. *)
Lemma read_header_bytes h rest : header_wf h → read_header (header_bytes h ++ rest) = Some h.
Proof.
  intros (H1 & H2 & H3 & H4 & H5 & H6 & H7). unfold read_header, header_bytes.
  set (t := le_bytes 2 (ev_type h)). set (f := le_bytes 2 (ev_flags h)).
  set (s := le_bytes 4 (ev_size h)). set (i := le_bytes 8 (ev_id h)).
  set (p := le_bytes 2 (ev_protocol h)). set (r := le_bytes 2 (ev_reason h)).
  set (d := le_bytes 4 (ev_data_len h)).
  assert (length t = 2 ∧ length f = 2 ∧ length s = 4 ∧ length i = 8 ∧ length p = 2 ∧
    length r = 2 ∧ length d = 4)%nat as (Lt & Lf & Ls & Li & Lp & Lr & Ld)
    by (unfold t, f, s, i, p, r, d; rewrite !length_le_bytes; done).
  pose proof (array_length (ev_group h)) as Lg. pose proof (array_length (ev_node h)) as Ln.
  set (g := arr (ev_group h)) in *. set (n := arr (ev_node h)) in *.
  rewrite <- !app_assoc.
  field 16%nat 32%nat (t ++ f ++ s ++ i) g (n ++ p ++ r ++ d ++ rest).
  field 48%nat 32%nat (t ++ f ++ s ++ i ++ g) n (p ++ r ++ d ++ rest).
  field 2%nat 2%nat t f (s ++ i ++ g ++ n ++ p ++ r ++ d ++ rest).
  field 4%nat 4%nat (t ++ f) s (i ++ g ++ n ++ p ++ r ++ d ++ rest).
  field 8%nat 8%nat (t ++ f ++ s) i (g ++ n ++ p ++ r ++ d ++ rest).
  field 80%nat 2%nat (t ++ f ++ s ++ i ++ g ++ n) p (r ++ d ++ rest).
  field 82%nat 2%nat (t ++ f ++ s ++ i ++ g ++ n ++ p) r (d ++ rest).
  field 84%nat 4%nat (t ++ f ++ s ++ i ++ g ++ n ++ p ++ r) d rest.
  rewrite (take_app_exact t) by done.
  unfold g, n. rewrite !to_array_arr. cbn [mbind option_bind]. f_equal.
  unfold t, f, s, i, p, r, d. rewrite !le_value_bytes, !wrap_small by done.
  by destruct h.
Qed.

Lemma complete_header_wf b d : event_wf b d → header_wf (complete_header (header b) (blen d)).
Proof.
  intros [(H1 & H2 & H3 & H4 & H5 & H6 & H7) _]. unfold complete_header, header_wf. cbn.
  unfold as_u32. pose proof (wrap_range 32 (record_size (blen d))).
  pose proof (wrap_range 32 (blen d)). split_and!; lia.
Qed.

(** Sizes that fit are not truncated by their casts. *)
Lemma complete_header_sizes h n : 0 ≤ n → record_size n < 2 ^ 32 →
  ev_size (complete_header h n) = record_size n ∧ ev_data_len (complete_header h n) = n.
Proof.
  intros Hn Hs. pose proof (record_size_bounds n Hn) as [H _]. unfold complete_header. cbn.
  unfold as_u32, LP2P_EVENT_HEADER_BYTES in *. rewrite !wrap_small by lia. done.
Qed.

(** The reader takes a record off the front of a buffer. *)
Lemma parse_from_data fuel b d rest :
  event_wf b d →
  parse_from (S fuel) (data b d ++ rest) =
    (l ← parse_from fuel rest; Some (expected b d :: l)).
Proof.
  intros Hwf. pose proof (complete_header_wf b d Hwf) as Hh. destruct Hwf as [_ Hs].
  pose proof (complete_header_sizes (header b) (blen d) (blen_nonneg d) Hs) as [Es El].
  pose proof (record_size_bounds (blen d) (blen_nonneg d)) as [Hb _].
  pose proof (length_data b d) as Hlen. destruct (data_split b d) as (pad & Ed & Hpad).
  cbn [parse_from]. rewrite blen_app, Hlen. pose proof (blen_nonneg rest). pose proof (blen_nonneg d).
  unfold LP2P_EVENT_HEADER_BYTES in *.
  destruct (Z.ltb_spec (record_size (blen d) + blen rest) (2 + 2 + 4 + 8 + 32 + 32 + 2 + 2 + 4)); [lia|].
  rewrite Ed at 1. rewrite <- !app_assoc, read_header_bytes by done. cbn [mbind option_bind].
  rewrite Es, El. rewrite (drop_app_exact (data b d)) by (unfold blen in *; lia).
  destruct (Z.ltb_spec (record_size (blen d) + blen rest) (2 + 2 + 4 + 8 + 32 + 32 + 2 + 2 + 4 + blen d)); [lia|].
  destruct (parse_from fuel rest) as [l|]; cbn [mbind option_bind]; [|done].
  do 2 f_equal. unfold expected. f_equal. rewrite Ed, <- !app_assoc. unfold slice.
  apply (take_drop_field _ (header_bytes (complete_header (header b) (blen d))) d (pad ++ rest));
    [done | apply length_header_bytes | unfold blen; lia].
Qed.

Lemma parse_from_nil fuel : parse_from fuel [] = Some [].
Proof. by destruct fuel. Qed.

(** ** The kind and the id of a record

    Read at their offsets, whatever the rest of the record is. *)

Definition kind_of (r : EventRecord) : Z := le_value (take 2 r).
Definition id_of (r : EventRecord) : Z := le_value (take 8 (drop 8 r)).

Lemma kind_of_data b d : kind_of (data b d) = as_u16 (ev_type (header b)).
Proof.
  destruct (data_split b d) as (pad & -> & _). unfold kind_of, header_bytes.
  rewrite <- app_assoc, take_app_exact by apply length_le_bytes. by rewrite le_value_bytes.
Qed.

Lemma id_of_data b d : id_of (data b d) = wrap 64 (ev_id (header b)).
Proof.
  destruct (data_split b d) as (pad & -> & _). unfold id_of, header_bytes.
  set (h := complete_header (header b) (blen d)). rewrite <- !app_assoc.
  set (x := le_bytes 2 (ev_type h)). set (y := le_bytes 2 (ev_flags h)). set (z := le_bytes 4 (ev_size h)).
  erewrite (take_drop_field _ (x ++ y ++ z) (le_bytes 8 (ev_id h)) _ 8 8);
    [by rewrite le_value_bytes | by rewrite <- !app_assoc | | apply length_le_bytes].
  unfold x, y, z. by rewrite !length_app, !length_le_bytes.
Qed.

(** ** Properties *)

(** The records of a list of events, one after the other. *)
Definition records_of (l : list (EventBuilder * bytes)) : bytes :=
  concat ((fun e => data e.1 e.2) <$> l).

(** C39: a buffer of whole records parses back into exactly the events they were
    built from, headers and data, in order; each record is a multiple of 8
    bytes long and as long as its header says. *)
Theorem records_roundtrip l :
  Forall (fun e => event_wf e.1 e.2) l →
  parse (records_of l) = Some ((fun e => expected e.1 e.2) <$> l) ∧
  Forall (fun e => blen (data e.1 e.2) mod 8 = 0 ∧
                   ev_size (event_header (expected e.1 e.2)) = blen (data e.1 e.2)) l.
Proof.
  intros H. split.
  - unfold parse.
    assert (Hf : ∀ fuel, (length l ≤ fuel)%nat →
      parse_from fuel (records_of l) = Some ((fun e => expected e.1 e.2) <$> l)).
    { induction H as [|e l He H IH]; intros fuel Hfuel; [apply parse_from_nil|].
      destruct fuel as [|fuel]; [simpl in Hfuel; lia|]. simpl in Hfuel.
      unfold records_of in *. rewrite fmap_cons. cbn [concat].
      rewrite parse_from_data by done. rewrite IH by lia. done. }
    apply Hf. clear Hf. induction H as [|e l He H IH]; [simpl; lia|].
    unfold records_of in *. rewrite fmap_cons. cbn [concat length]. rewrite length_app.
    pose proof (length_data e.1 e.2). pose proof (record_size_bounds (blen e.2) (blen_nonneg _)) as [? _].
    unfold blen, LP2P_EVENT_HEADER_BYTES in *. lia.
  - eapply Forall_impl; [exact H|]. intros e [He Hs]. rewrite length_data.
    pose proof (record_size_bounds (blen e.2) (blen_nonneg _)) as [_ Hm]. split; [done|].
    unfold expected. cbn [event_header].
    by destruct (complete_header_sizes (header e.1) (blen e.2) (blen_nonneg _) Hs).
Qed.

(** ** Witness *)

Definition sample_events : list (EventBuilder * bytes) :=
  [(with_id 7 (new_event LP2P_EV_RPC_REQUEST), [x61; x62; x63]);
   (with_reason 2 (new_event LP2P_EV_RPC_FAILED), [])].

Lemma records_roundtrip_witness :
  parse (records_of sample_events) = Some ((fun e => expected e.1 e.2) <$> sample_events).
Proof.
  apply records_roundtrip.
  repeat constructor; vm_compute; intuition discriminate.
Defined.
