(* ===== verification/EventQueue.v ===== *)
(** * EventQueue: the bounded queue of [src/events.rs]

    The monitor between the node's threads and the threads that call
    [lp2p_poll]. Every operation holds the mutex, so an execution is a sequence
    of pushes, closes and passes through the loop of [poll], interleaved in any
    order ([qrun]). The contract is the abstract specification in the middle of
    the file: what the pollers receive is a first-in-first-out log in which
    every loss is accounted for. *)

From S2P Require Import Prelude Abi Events.

(** ** The queue *)

Record Inner := mk_inner {
  records : list EventRecord;
  bytes_held : Z;
  dropped : Z;
  closed : option Z;
}.

#[export] Instance eta_Inner : Eta Inner := {| eta i :=
  mk_inner (records i) (bytes_held i) (dropped i) (closed i) |}.

(** [EventQueue::new]; the bound is an argument of the operations. *)
Definition new_queue : Inner := mk_inner [] 0 0 None.

Definition push (max_bytes : Z) (record : EventRecord) (inner : Inner) : Inner :=
  if max_bytes <? bytes_held inner + blen record
  then inner <| dropped ::= incr64 |>
  else inner <| bytes_held ::= fun b => b + blen record |>
             <| records ::= fun l => l ++ [record] |>.

(** [inner.closed.get_or_insert(status)]. *)
Definition close (status : Z) (inner : Inner) : Inner :=
  inner <| closed ::= fun c => Some (default status c) |>.

(** ** [poll]

    One pass with the lock held. The wait condition of the loop: *)
Definition must_wait (inner : Inner) : bool :=
  bool_decide (records inner = []) && (dropped inner =? 0) && bool_decide (closed inner = None).

Definition overflow_record (n : Z) : EventRecord := build (with_id n (new_event LP2P_EV_OVERFLOW)).

(** The loop that moves whole records into the buffer: [written] bytes are
    there already and [out] is what they are. [None] is the early return of
    LP2P_ERR_BUFFER_TOO_SMALL, which leaves the queue as it is. *)
Fixpoint drain (cap written held : Z) (out : bytes) (l : list EventRecord) :
    option (Z * bytes * Z * list EventRecord) :=
  match l with
  | [] => Some (written, out, held, [])
  | front :: rest =>
      let len := blen front in
      if cap <? written + len then
        if written =? 0 then None else Some (written, out, held, front :: rest)
      else drain cap (written + len) (held - len) (out ++ front) rest
  end.

(** The rest of [poll] once the overflow record, if any, is in the buffer. *)
Definition poll_records (cap written : Z) (out : bytes) (inner : Inner) : Z * bytes * Inner :=
  match drain cap written (bytes_held inner) out (records inner) with
  | None => (LP2P_ERR_BUFFER_TOO_SMALL, out, inner)
  | Some (written, out, held, rest) =>
      let inner := inner <| bytes_held := held |> <| records := rest |> in
      match closed inner with
      | Some status => if written =? 0 then (status, out, inner) else (as_i32 written, out, inner)
      | None => (as_i32 written, out, inner)
      end
  end.

(** Everything after the wait: the status or byte count [poll] answers, the
    bytes it wrote to the start of the buffer, and the queue it leaves. *)
Definition poll_drain (cap : Z) (inner : Inner) : Z * bytes * Inner :=
  if 0 <? dropped inner then
    let overflow := overflow_record (dropped inner) in
    if cap <? blen overflow then (LP2P_ERR_BUFFER_TOO_SMALL, [], inner)
    else poll_records cap (blen overflow) overflow (inner <| dropped := 0 |>)
  else poll_records cap 0 [] inner.

(** One pass through the loop of [poll] at time [now], for a call whose
    deadline is [deadline]: [None] when the thread goes back to waiting for the
    condition variable. *)
Definition poll_pass (now deadline cap : Z) (inner : Inner) : option (Z * bytes * Inner) :=
  if must_wait inner then
    if deadline <=? now then Some (0, [], inner) else None
  else Some (poll_drain cap inner).

(** ** Executions *)

Inductive qop :=
| Push (record : EventRecord)
| Close (status : Z)
| Poll (now deadline cap : Z).

(** An operation's effect: the new queue, and what a [poll] that returned
    answered and wrote. *)
Definition qexec (max_bytes : Z) (op : qop) (inner : Inner) : Inner * option (Z * bytes) :=
  match op with
  | Push r => (push max_bytes r inner, None)
  | Close s => (close s inner, None)
  | Poll now deadline cap =>
      match poll_pass now deadline cap inner with
      | None => (inner, None)
      | Some (ret, out, inner') => (inner', Some (ret, out))
      end
  end.

Fixpoint qrun (max_bytes : Z) (ops : list qop) (inner : Inner) : Inner * list (Z * bytes) :=
  match ops with
  | [] => (inner, [])
  | op :: ops =>
      let '(inner, r) := qexec max_bytes op inner in
      let '(inner, rs) := qrun max_bytes ops inner in
      (inner, match r with Some x => x :: rs | None => rs end)
  end.

(** ** The abstract specification

    A channel: the records accepted and not yet handed out, and how many were
    refused since the last report. What is handed out is a log of records and
    reports of losses. *)

Inductive delivery := Delivered (r : EventRecord) | Lost (n : Z).

Record Channel := mk_channel { waiting : list EventRecord; lost : Z }.

Definition delivery_bytes (d : delivery) : bytes :=
  match d with Delivered r => r | Lost n => overflow_record n end.

Definition delivered_records (log : list delivery) : list EventRecord :=
  omap (fun d => match d with Delivered r => Some r | Lost _ => None end) log.

Definition losses (log : list delivery) : Z :=
  foldr (fun d acc => match d with Delivered _ => acc | Lost n => n + acc end) 0 log.

(** Handing out: a report of the losses first, if there are any, then records
    from the front. *)
Inductive hands_out : Channel → list delivery → Channel → Prop :=
| hand_records given w :
    hands_out (mk_channel (given ++ w) 0) (Delivered <$> given) (mk_channel w 0)
| hand_report given w n :
    0 < n → hands_out (mk_channel (given ++ w) n) (Lost n :: (Delivered <$> given)) (mk_channel w 0).

(** A step of the channel: it is offered at most one record, which it accepts or
    refuses, or it hands out a log, or nothing happens. *)
Inductive channel_step : Channel → list EventRecord → list delivery → Channel → Prop :=
| accept w n r : channel_step (mk_channel w n) [r] [] (mk_channel (w ++ [r]) n)
| refuse w n r : channel_step (mk_channel w n) [r] [] (mk_channel w (n + 1))
| hand_out c log c' : hands_out c log c' → channel_step c [] log c'
| idle c : channel_step c [] [] c.

Inductive channel_run : Channel → list EventRecord → list delivery → Channel → Prop :=
| channel_done c : channel_run c [] [] c
| channel_more c o log c' o' log' c'' :
    channel_step c o log c' → channel_run c' o' log' c'' →
    channel_run c (o ++ o') (log ++ log') c''.

(** The channel a queue implements. *)
Definition channel_of (inner : Inner) : Channel := mk_channel (records inner) (dropped inner).

(** What is pushed is built by an [EventBuilder], and a topic message begins with
    the key of its topic. *)
Definition carries_topic (b : EventBuilder) (d : bytes) : Prop := as_u16 (ev_type (header b)) = LP2P_EV_TOPIC_MESSAGE → 32 ≤ blen d.
Definition built (r : EventRecord) : Prop := ∃ b d, r = data b d ∧ carries_topic b d.

Definition op_wf (op : qop) : Prop :=
  match op with Push r => built r | Close _ => True | Poll _ _ cap => 0 ≤ cap end.

Definition pushed (ops : list qop) : list EventRecord :=
  omap (fun op => match op with Push r => Some r | _ => None end) ops.

(** ** Invariant *)

Definition total (l : list EventRecord) : Z := foldr (fun r acc => blen r + acc) 0 l.

(** [bytes_held] is what the records hold, it never exceeds the bound, and no
    record is empty, as all of them were built. *)
Record queue_inv (max_bytes : Z) (inner : Inner) : Prop := {
  inv_bytes : bytes_held inner = total (records inner);
  inv_bound : bytes_held inner ≤ max_bytes;
  inv_records : Forall (fun r => 0 < blen r) (records inner);
  inv_built : Forall built (records inner);
  inv_dropped : 0 ≤ dropped inner;
}.

(** ** Lemmas *)

Lemma total_nil : total [] = 0.
Proof. done. Qed.

Lemma total_cons r l : total (r :: l) = blen r + total l.
Proof. done. Qed.

Lemma total_app l k : total (l ++ k) = total l + total k.
Proof. unfold total. induction l as [|r l IH]; simpl; [done|]. rewrite IH. lia. Qed.

Lemma total_nonneg l : 0 ≤ total l.
Proof. unfold total. induction l as [|r l IH]; simpl; [done|]. pose proof (blen_nonneg r). lia. Qed.

Lemma blen_concat l : blen (concat l) = total l.
Proof. induction l as [|r l IH]; [done|]. cbn [concat]. by rewrite blen_app, IH. Qed.

Lemma overflow_record_size n : blen (overflow_record n) = LP2P_EVENT_HEADER_BYTES.
Proof. unfold overflow_record, build. rewrite length_data. done. Qed.

Lemma built_nonempty r : built r → 0 < blen r.
Proof.
  intros (b & d & -> & _). rewrite length_data.
  pose proof (record_size_bounds (blen d) (blen_nonneg d)) as [H _].
  pose proof (blen_nonneg d). unfold LP2P_EVENT_HEADER_BYTES in H. lia.
Qed.

(** [drain] hands out the longest prefix of the records that fits, whole. *)
Lemma drain_spec cap written held out l :
  0 ≤ written ≤ cap → Forall (fun r => 0 < blen r) l →
  match drain cap written held out l with
  | None => written = 0 ∧ ∃ r rest, l = r :: rest ∧ cap < blen r
  | Some (w, o, h, rest) => ∃ given,
      l = given ++ rest ∧ w = written + total given ∧ o = out ++ concat given ∧
      h = held - total given ∧ w ≤ cap ∧
      (∀ r rest', rest = r :: rest' → cap < w + blen r ∧ w ≠ 0)
  end.
Proof.
  intros Hw Hl. revert written held out Hw.
  induction Hl as [|r l Hr Hl IH]; intros written held out Hw; cbn [drain].
  { exists []. cbn [concat app]. rewrite total_nil, app_nil_r. split_and!; try done; lia. }
  destruct (Z.ltb_spec cap (written + blen r)) as [Hlt|Hge].
  - destruct (Z.eqb_spec written 0) as [->|Hn].
    + split; [done|]. exists r, l. split; [done|]. lia.
    + exists []. cbn [concat app]. rewrite total_nil, app_nil_r.
      split_and!; try done; try lia. intros ? ? [= <- <-]. lia.
  - specialize (IH (written + blen r) (held - blen r) (out ++ r) ltac:(lia)).
    destruct (drain cap _ _ _ l) as [[[[w o] h] rest]|]; [|lia].
    destruct IH as (given & -> & -> & -> & -> & Hc & Hmax).
    exists (r :: given). rewrite total_cons. cbn [concat app]. rewrite <- app_assoc.
    split_and!; try done; lia.
Qed.

Definition log_bytes (log : list delivery) : bytes := concat (delivery_bytes <$> log).

#[local] Arguments log_bytes : simpl never.
#[local] Arguments delivered_records : simpl never.
#[local] Arguments total : simpl never.

Lemma log_bytes_delivered l : log_bytes (Delivered <$> l) = concat l.
Proof. unfold log_bytes. rewrite <- list_fmap_compose. f_equal. apply list_fmap_id. Qed.

Lemma delivered_records_delivered l : delivered_records (Delivered <$> l) = l.
Proof. unfold delivered_records. induction l as [|r l IH]; cbn; [done|]. f_equal. exact IH. Qed.

(** The part of [poll] that hands out records: a prefix of them, whole, as long
    as the buffer allows. *)
Lemma poll_records_spec cap out inner :
  blen out ≤ cap → Forall (fun r => 0 < blen r) (records inner) →
  let '(ret, out', inner') := poll_records cap (blen out) out inner in
  (ret = LP2P_ERR_BUFFER_TOO_SMALL ∧ out' = [] ∧ out = [] ∧ inner' = inner ∧
     ∃ r rest, records inner = r :: rest ∧ cap < blen r) ∨
  (∃ given rest,
     records inner = given ++ rest ∧ out' = out ++ concat given ∧ blen out' ≤ cap ∧
     inner' = mk_inner rest (bytes_held inner - total given) (dropped inner) (closed inner) ∧
     ret = (if bool_decide (out' = []) then default 0 (closed inner) else as_i32 (blen out')) ∧
     (∀ r rest', rest = r :: rest' → cap < blen out' + blen r ∧ out' ≠ [])).
Proof.
  intros Hcap Hrec. unfold poll_records.
  pose proof (drain_spec cap (blen out) (bytes_held inner) out (records inner)
    (conj (blen_nonneg out) Hcap) Hrec) as H.
  destruct (drain _ _ _ _ _) as [[[[w o] h] rest]|].
  - destruct H as (given & Hsplit & -> & -> & -> & Hw & Hmax).
    assert (Hlen : blen (out ++ concat given) = blen out + total given)
      by by rewrite blen_app, blen_concat.
    assert (Hz : blen out + total given = 0 ↔ out ++ concat given = []).
    { rewrite <- Hlen. unfold blen. split; [|by intros ->].
      intros E. apply length_zero_iff_nil. lia. }
    destruct inner as [l b d c]. cbn in *. rewrite <- Hlen in *.
    assert (Hfin : ∀ r rest', rest = r :: rest' →
      cap < blen (out ++ concat given) + blen r ∧ out ++ concat given ≠ []).
    { intros r rest' Hr. destruct (Hmax r rest' Hr) as [H1 H2]. by rewrite Hz in H2. }
    destruct c as [status|].
    + destruct (Z.eqb_spec (blen (out ++ concat given)) 0) as [E|E]; right;
        exists given, rest; split_and!; try done; case_bool_decide; naive_solver.
    + right. exists given, rest. split_and!; try done.
      case_bool_decide as Ho; [by rewrite Ho | done].
  - destruct H as [H0 Hbig]. left.
    assert (out = []) as -> by (apply length_zero_iff_nil; unfold blen in H0; lia). done.
Qed.

(** What a poll that does not wait does, on every branch: nothing, because the
    next item does not fit; or a step of the channel that hands out a log, as
    long as the buffer allows, and answers its size -- or the closing status
    when there was nothing to hand out. *)
Lemma poll_drain_spec max_bytes cap inner :
  queue_inv max_bytes inner → 0 ≤ cap →
  let '(ret, out, inner') := poll_drain cap inner in
  (ret = LP2P_ERR_BUFFER_TOO_SMALL ∧ out = [] ∧ inner' = inner ∧
     (0 < dropped inner ∧ cap < LP2P_EVENT_HEADER_BYTES ∨
      dropped inner = 0 ∧ ∃ r rest, records inner = r :: rest ∧ cap < blen r)) ∨
  (∃ log,
     hands_out (channel_of inner) log (channel_of inner') ∧ out = log_bytes log ∧
     blen out ≤ cap ∧ closed inner' = closed inner ∧
     bytes_held inner' = bytes_held inner - total (delivered_records log) ∧
     ret = (if bool_decide (out = []) then default 0 (closed inner) else as_i32 (blen out)) ∧
     (∀ r rest, records inner' = r :: rest → cap < blen out + blen r ∧ out ≠ [])).
Proof.
  intros [Hb Hbound Hrec Hd] Hcap. unfold poll_drain.
  rewrite overflow_record_size.
  destruct (Z.ltb_spec 0 (dropped inner)) as [Hpos|Hzero].
  - destruct (Z.ltb_spec cap LP2P_EVENT_HEADER_BYTES) as [Hsmall|Hfit]; [left; auto 10|].
    rewrite <- (overflow_record_size (dropped inner)) in Hfit |- *.
    pose proof (poll_records_spec cap (overflow_record (dropped inner)) (inner <| dropped := 0 |>)
      Hfit Hrec) as H.
    destruct (poll_records _ _ _ _) as [[ret out] inner'].
    destruct H as [(-> & -> & Ho & _)|(given & rest & Hs & -> & Hl & -> & Hret & Hmax)].
    + apply (f_equal blen) in Ho. by rewrite overflow_record_size in Ho.
    + right. exists (Lost (dropped inner) :: (Delivered <$> given)). unfold channel_of. cbn in *.
      rewrite Hs. change (log_bytes (Lost (dropped inner) :: (Delivered <$> given)))
        with (overflow_record (dropped inner) ++ log_bytes (Delivered <$> given)).
      change (delivered_records (Lost (dropped inner) :: (Delivered <$> given)))
        with (delivered_records (Delivered <$> given)).
      rewrite log_bytes_delivered, delivered_records_delivered.
      split_and!; try done. by apply hand_report.
  - assert (dropped inner = 0) as H0 by lia.
    pose proof (poll_records_spec cap [] inner Hcap Hrec) as H.
    change (blen []) with 0 in H. destruct (poll_records _ _ _ _) as [[ret out] inner'].
    destruct H as [(-> & -> & _ & -> & Hbig)|(given & rest & Hs & -> & Hl & -> & Hret & Hmax)].
    + left. auto 10.
    + right. exists (Delivered <$> given). unfold channel_of. cbn in *.
      rewrite Hs, H0, log_bytes_delivered, delivered_records_delivered.
      split_and!; try done. apply hand_records.
Qed.

(** ** The invariant is preserved *)

Lemma new_queue_inv max_bytes : 0 ≤ max_bytes → queue_inv max_bytes new_queue.
Proof. intros H. split; cbn; try done. Qed.

Lemma push_inv max_bytes r inner :
  built r → queue_inv max_bytes inner → queue_inv max_bytes (push max_bytes r inner).
Proof.
  intros Hr [Hb Hbound Hrec Hbuilt Hd]. unfold push.
  destruct (Z.ltb_spec max_bytes (bytes_held inner + blen r)); split; cbn; try done.
  - unfold incr64. apply wrap_range. lia.
  - rewrite total_app, total_cons, total_nil. lia.
  - apply Forall_app. split; [done|]. constructor; [|done]. by apply built_nonempty.
  - apply Forall_app. split; [done|]. by constructor.
Qed.

Lemma close_inv max_bytes s inner : queue_inv max_bytes inner → queue_inv max_bytes (close s inner).
Proof. intros [Hb Hbound Hrec Hbuilt Hd]. split; cbn; done. Qed.

Lemma delivered_records_lost n l :
  delivered_records (Lost n :: (Delivered <$> l)) = l.
Proof. apply delivered_records_delivered. Qed.

Lemma losses_delivered l : losses (Delivered <$> l) = 0.
Proof. induction l; done. Qed.

(** Handing out takes a prefix, keeps the order, and reports every loss. *)
Lemma hands_out_spec c log c' :
  hands_out c log c' →
  waiting c = delivered_records log ++ waiting c' ∧ lost c = losses log ∧ lost c' = 0.
Proof.
  destruct 1; cbn; rewrite ?delivered_records_lost, ?delivered_records_delivered; split_and!; try done.
  - by rewrite losses_delivered.
  - unfold losses. cbn. fold (losses (Delivered <$> given)). rewrite losses_delivered. lia.
Qed.

Lemma poll_drain_inv max_bytes cap inner :
  queue_inv max_bytes inner → 0 ≤ cap → queue_inv max_bytes (poll_drain cap inner).2.
Proof.
  intros Hinv Hcap. pose proof (poll_drain_spec max_bytes cap inner Hinv Hcap) as H.
  destruct (poll_drain cap inner) as [[ret out] inner']. cbn.
  destruct H as [(_ & _ & -> & _)|(log & Hstep & _ & _ & Hc & Hheld & _)]; [done|].
  destruct Hinv as [Hb Hbound Hrec Hbuilt Hd].
  apply hands_out_spec in Hstep as (Hw & _ & Hl). cbn in Hw, Hl.
  rewrite Hw in Hb, Hrec, Hbuilt. rewrite total_app in Hb. apply Forall_app in Hrec as [_ Hrec]. apply Forall_app in Hbuilt as [_ Hbuilt].
  pose proof (total_nonneg (delivered_records log)). pose proof (total_nonneg (records inner')).
  split; [lia | lia | done | done | lia].
Qed.

Lemma qexec_inv max_bytes op inner :
  op_wf op → queue_inv max_bytes inner → queue_inv max_bytes (qexec max_bytes op inner).1.
Proof.
  intros Hop Hinv. destruct op as [r|s|now deadline cap]; cbn.
  - by apply push_inv.
  - by apply close_inv.
  - unfold poll_pass. destruct (must_wait inner); [by destruct (deadline <=? now)|].
    pose proof (poll_drain_inv max_bytes cap inner Hinv Hop) as H.
    by destruct (poll_drain cap inner) as [[ret out] inner'].
Qed.

Lemma qrun_inv max_bytes ops inner :
  Forall op_wf ops → queue_inv max_bytes inner → queue_inv max_bytes (qrun max_bytes ops inner).1.
Proof.
  intros Hops. revert inner. induction Hops as [|op ops Hop Hops IH]; intros inner Hinv; [done|].
  cbn. pose proof (qexec_inv max_bytes op inner Hop Hinv) as H1.
  destruct (qexec max_bytes op inner) as [inner1 r]. cbn in H1. specialize (IH inner1 H1).
  by destruct (qrun max_bytes ops inner1) as [inner2 rs].
Qed.

(** ** The refinement *)

(** What a [poll] that returned wrote, and what an operation offers. *)
Definition written_bytes (r : option (Z * bytes)) : bytes :=
  match r with Some (_, out) => out | None => [] end.

Lemma log_bytes_app l k : log_bytes (l ++ k) = log_bytes l ++ log_bytes k.
Proof. unfold log_bytes. by rewrite fmap_app, concat_app. Qed.

Lemma delivered_records_app l k :
  delivered_records (l ++ k) = delivered_records l ++ delivered_records k.
Proof. apply omap_app. Qed.

Lemma losses_app l k : losses (l ++ k) = losses l + losses k.
Proof. unfold losses. induction l as [|[r|n] l IH]; cbn; [done | done |]. rewrite IH. lia. Qed.

(** A log of non-empty records that takes no bytes is empty. *)
Lemma log_bytes_nil log :
  log_bytes log = [] → Forall (fun r => 0 < blen r) (delivered_records log) → log = [].
Proof.
  destruct log as [|[r|n] log]; [done|..]; intros H Hne; exfalso;
    change (log_bytes (?d :: log)) with (delivery_bytes d ++ log_bytes log) in H;
    apply app_eq_nil in H as [H _]; cbn in H.
  - apply Forall_cons in Hne as [Hne _]. by subst r.
  - apply (f_equal blen) in H. by rewrite overflow_record_size in H.
Qed.

(** Every operation is a step of the channel. *)
Lemma qexec_refines max_bytes op inner :
  op_wf op → queue_inv max_bytes inner → dropped inner < 2 ^ 64 - 1 →
  let '(inner', r) := qexec max_bytes op inner in
  ∃ log, channel_step (channel_of inner) (pushed [op]) log (channel_of inner') ∧
         written_bytes r = log_bytes log ∧ dropped inner' ≤ dropped inner + 1.
Proof.
  intros Hop Hinv Hd. pose proof (inv_dropped _ _ Hinv) as Hd0.
  destruct op as [r|s|now deadline cap]; cbn [qexec].
  - exists []. unfold push, channel_of.
    destruct (max_bytes <? bytes_held inner + blen r); cbn; split_and!; try done; try lia.
    + unfold incr64. rewrite wrap_small by lia. apply refuse.
    + unfold incr64. rewrite wrap_small by lia. done.
    + apply accept.
  - exists []. split_and!; [apply idle | done | cbn; lia].
  - unfold poll_pass. destruct (must_wait inner).
    { destruct (deadline <=? now); exists []; split_and!; try done; try apply idle; lia. }
    pose proof (poll_drain_spec max_bytes cap inner Hinv Hop) as H.
    destruct (poll_drain cap inner) as [[ret out] inner']. cbn [written_bytes].
    destruct H as [(_ & -> & -> & _)|(log & Hstep & Ho & _)].
    + exists []. split_and!; [apply idle | done | lia].
    + exists log. split_and!; [by apply hand_out | done |].
      apply hands_out_spec in Hstep as (_ & _ & Hl). cbn in Hl. lia.
Qed.

(** An execution is a run of the channel that is offered what was pushed. *)
Lemma qrun_refines max_bytes ops inner :
  Forall op_wf ops → queue_inv max_bytes inner → dropped inner + blen ops < 2 ^ 64 →
  let '(inner', rets) := qrun max_bytes ops inner in
  ∃ log, channel_run (channel_of inner) (pushed ops) log (channel_of inner') ∧
         concat (snd <$> rets) = log_bytes log.
Proof.
  intros Hops. revert inner. induction Hops as [|op ops Hop Hops IH]; intros inner Hinv Hd.
  { exists []. split; [apply channel_done | done]. }
  change (blen (op :: ops)) with (Z.of_nat (S (length ops))) in Hd. unfold blen in IH.
  cbn [qrun]. pose proof (qexec_refines max_bytes op inner Hop Hinv ltac:(lia)) as H.
  pose proof (qexec_inv max_bytes op inner Hop Hinv) as Hinv1.
  destruct (qexec max_bytes op inner) as [inner1 r]. cbn in Hinv1.
  destruct H as (log & Hstep & Hw & Hd1). specialize (IH inner1 Hinv1 ltac:(lia)).
  destruct (qrun max_bytes ops inner1) as [inner2 rs]. destruct IH as (log' & Hrun & Hc).
  exists (log ++ log'). split.
  - replace (pushed (op :: ops)) with (pushed [op] ++ pushed ops) by (by destruct op).
    by eapply channel_more.
  - rewrite log_bytes_app, <- Hw, <- Hc. by destruct r as [[ret out]|].
Qed.

(** The channel accounts for every record it was offered. *)
Lemma channel_run_accounts c offered log c' :
  channel_run c offered log c' →
  ∃ taken, taken `sublist_of` offered ∧
    delivered_records log ++ waiting c' = waiting c ++ taken ∧
    losses log + lost c' = lost c + (blen offered - blen taken).
Proof.
  induction 1 as [c|c o log c' o' log' c'' Hstep Hrun (taken & Hsub & Hrec & Hlost)].
  { exists []. cbn. rewrite app_nil_r. split_and!; [done | done |]. change (blen []) with 0. lia. }
  rewrite delivered_records_app, losses_app, blen_app, <- app_assoc, Hrec.
  destruct Hstep as [w n r|w n r|c log c' Hh|c]; cbn in *.
  - exists (r :: taken). split_and!; [by constructor | by rewrite <- app_assoc |].
    unfold blen in *. cbn. lia.
  - exists taken. split_and!; [by constructor | done |]. unfold blen in *. cbn. lia.
  - apply hands_out_spec in Hh as (Hw & Hl & Hl'). exists taken.
    rewrite Hw, <- app_assoc. split_and!; [done | done |]. unfold blen in *. cbn. lia.
  - exists taken. split_and!; [done | done |]. unfold blen in *. cbn. lia.
Qed.

(** ** Properties *)

(** C25: whatever threads push, close and poll in whatever order, the queue
    delivers first in, first out and loses nothing silently: what the pollers'
    buffers received, put together, is a log of whole records and loss reports;
    the records delivered, followed by those still queued, are a subsequence of
    the records pushed, in order; and the losses reported so far plus the ones
    still to report are exactly the pushed records that are missing from it. *)
Theorem queue_fifo_accounting max_bytes ops :
  0 ≤ max_bytes → Forall op_wf ops → blen ops < 2 ^ 64 →
  let '(inner, rets) := qrun max_bytes ops new_queue in
  ∃ log taken,
    concat (snd <$> rets) = log_bytes log ∧
    taken `sublist_of` pushed ops ∧
    delivered_records log ++ records inner = taken ∧
    losses log + dropped inner = blen (pushed ops) - blen taken.
Proof.
  intros Hm Hops Hlen.
  pose proof (qrun_refines max_bytes ops new_queue Hops (new_queue_inv _ Hm) Hlen) as H.
  destruct (qrun max_bytes ops new_queue) as [inner rets]. destruct H as (log & Hrun & Hc).
  apply channel_run_accounts in Hrun as (taken & Hsub & Hrec & Hlost).
  by exists log, taken.
Qed.

(** In every reachable queue the byte counter is what the queued records
    hold and never exceeds the bound, and a push is refused only when the
    record would not fit. *)
Theorem queue_bounded max_bytes ops r :
  0 ≤ max_bytes → Forall op_wf ops →
  let inner := (qrun max_bytes ops new_queue).1 in
  bytes_held inner = total (records inner) ∧ total (records inner) ≤ max_bytes ∧
  (records (push max_bytes r inner) = records inner ↔ max_bytes < total (records inner) + blen r).
Proof.
  intros Hm Hops inner.
  destruct (qrun_inv max_bytes ops new_queue Hops (new_queue_inv _ Hm)) as [Hb Hbound _ _].
  fold inner in Hb, Hbound. split_and!; [done | lia |]. rewrite <- Hb. unfold push.
  destruct (Z.ltb_spec max_bytes (bytes_held inner + blen r)) as [H|H]; cbn; [done|].
  split; [|lia]. intros E%(f_equal length). rewrite length_app in E. cbn in E. lia.
Qed.

(** What one [poll] answers, on every branch. It waits only while there is
    nothing to report and its deadline has not come, and answers 0 when it
    comes. Otherwise, with a buffer below 2 GiB: either the next item does not
    fit, the answer is LP2P_ERR_BUFFER_TOO_SMALL and the queue is unchanged; or
    it writes whole items from the front, the report of losses first, as many
    as fit, and answers their size; or there is nothing left and it answers the
    closing status. *)
Theorem poll_pass_spec max_bytes now deadline cap inner :
  queue_inv max_bytes inner → 0 ≤ cap < 2 ^ 31 →
  (poll_pass now deadline cap inner = None ↔ must_wait inner = true ∧ now < deadline) ∧
  (must_wait inner = true → deadline ≤ now → poll_pass now deadline cap inner = Some (0, [], inner)) ∧
  (must_wait inner = false → ∃ ret out inner',
     poll_pass now deadline cap inner = Some (ret, out, inner') ∧
     (ret = LP2P_ERR_BUFFER_TOO_SMALL ∧ out = [] ∧ inner' = inner ∧
        (0 < dropped inner ∧ cap < LP2P_EVENT_HEADER_BYTES ∨
         dropped inner = 0 ∧ ∃ r rest, records inner = r :: rest ∧ cap < blen r) ∨
      ∃ log, hands_out (channel_of inner) log (channel_of inner') ∧ out = log_bytes log ∧
        blen out ≤ cap ∧ closed inner' = closed inner ∧
        (out ≠ [] ∧ ret = blen out ∨ out = [] ∧ closed inner = Some ret) ∧
        (∀ r rest, records inner' = r :: rest → cap < blen out + blen r))).
Proof.
  intros Hinv Hcap. unfold poll_pass. split_and!.
  - destruct (must_wait inner); [|naive_solver].
    destruct (Z.leb_spec deadline now); split; naive_solver lia.
  - intros -> H. by destruct (Z.leb_spec deadline now); [|lia].
  - intros Hw. rewrite Hw. pose proof (poll_drain_spec max_bytes cap inner Hinv ltac:(lia)) as H.
    destruct (poll_drain cap inner) as [[ret out] inner']. exists ret, out, inner'.
    split; [done|]. destruct H as [H|(log & Hh & Ho & Hl & Hc & _ & Hret & Hmax)]; [by left|].
    right. exists log. split_and!; try done; [|by intros r rest H; apply (Hmax r rest H)].
    case_bool_decide as Hnil.
    + right. split; [done|]. destruct (closed inner) as [st|] eqn:Ec; [by rewrite Hret|].
      exfalso. destruct (records inner') as [|r rest] eqn:Er; [|by destruct (Hmax r rest eq_refl)].
      apply hands_out_spec in Hh as (Hrec & Hlost & _). cbn in Hrec, Hlost.
      rewrite Er, app_nil_r in Hrec. pose proof (inv_records _ _ Hinv) as Hne.
      rewrite Hrec in Hne. rewrite Ho in Hnil. apply log_bytes_nil in Hnil; [|done]. subst log.
      unfold must_wait in Hw. by rewrite Ec, Hrec, Hlost in Hw.
    + left. split; [done|]. rewrite Hret. apply as_i32_small.
      pose proof (blen_nonneg out). lia.
Qed.

(** One poll with room for the loss report and for the first record hands
    something out, or answers the closing status of a drained queue. *)
Lemma poll_progress max_bytes cap inner s :
  queue_inv max_bytes inner → closed inner = Some s →
  LP2P_EVENT_HEADER_BYTES ≤ cap → Forall (fun r => blen r ≤ cap) (records inner) →
  let '(ret, out, inner') := poll_drain cap inner in
  closed inner' = Some s ∧ Forall (fun r => blen r ≤ cap) (records inner') ∧
  (∃ given, records inner = given ++ records inner' ∧
     out = (if 0 <? dropped inner then overflow_record (dropped inner) else []) ++ concat given ∧
     dropped inner' = 0 ∧
     ((length (records inner') < length (records inner))%nat ∨
      records inner' = records inner ∧ 0 < dropped inner ∨
      records inner = [] ∧ dropped inner = 0 ∧ ret = s)).
Proof.
  intros Hinv Hc Hcap Hall. pose proof (inv_dropped _ _ Hinv) as Hd.
  assert (0 ≤ cap) by (unfold LP2P_EVENT_HEADER_BYTES in Hcap; lia).
  pose proof (poll_drain_spec max_bytes cap inner Hinv ltac:(lia)) as H'.
  destruct (poll_drain cap inner) as [[ret out] inner'].
  destruct H' as [(_ & _ & _ & [[_ Hsmall]|(_ & r & rest & Hr & Hbig)])|(log & Hh & Ho & _ & Hc' & _ & Hret & Hmax)].
  { lia. }
  { rewrite Hr in Hall. apply Forall_cons in Hall as [Hall _]. lia. }
  rewrite Hc' . split; [done|].
  assert (∃ given, log = (if 0 <? dropped inner then [Lost (dropped inner)] else []) ++ (Delivered <$> given) ∧
    records inner = given ++ records inner' ∧ dropped inner' = 0) as (given & -> & Hs & Hd').
  { unfold channel_of in Hh. inversion Hh; subst.
    - exists given. by replace (0 <? dropped inner) with false by (symmetry; apply Z.ltb_ge; lia).
    - exists given. by replace (0 <? dropped inner) with true by (symmetry; apply Z.ltb_lt; lia). }
  rewrite Hs in Hall. apply Forall_app in Hall as [_ Hall]. split; [done|].
  exists given. rewrite log_bytes_app, log_bytes_delivered in Ho. split_and!; [done| |done|].
  { rewrite Ho. destruct (0 <? dropped inner); [|done]. unfold log_bytes. cbn. by rewrite app_nil_r. }
  destruct given as [|g given].
  - destruct (Z.ltb_spec 0 (dropped inner)); [by right; left|].
    cbn in Hs, Ho. subst out. rewrite bool_decide_true in Hret by done. right; right.
    rewrite Hc in Hret. split_and!; [|lia|done]. rewrite Hs.
    destruct (records inner') as [|r rest] eqn:E; [done|]. by destruct (Hmax r rest eq_refl).
  - left. rewrite Hs, length_app. cbn. lia.
Qed.

(** How much a drained queue still has to hand out. *)
Definition pending (inner : Inner) : nat :=
  (length (records inner) + if (0 <? dropped inner)%Z then 1 else 0)%nat.

Definition owed (inner : Inner) : bytes :=
  (if 0 <? dropped inner then overflow_record (dropped inner) else []) ++ concat (records inner).

(** C26: a reader that keeps polling a closed queue gets everything that was
    queued, and is then told the status the queue was closed with: when the
    buffer holds the report of losses and each queued record, one poll more
    than there are items left empties the queue, the buffers together hold the
    report and the records in order, and the last poll answers the status. *)
Theorem closed_queue_drains max_bytes now deadline cap n inner s :
  queue_inv max_bytes inner → closed inner = Some s →
  LP2P_EVENT_HEADER_BYTES ≤ cap → Forall (fun r => blen r ≤ cap) (records inner) →
  (pending inner < n)%nat →
  let '(inner', rets) := qrun max_bytes (replicate n (Poll now deadline cap)) inner in
  records inner' = [] ∧ dropped inner' = 0 ∧
  concat (snd <$> rets) = owed inner ∧ last rets = Some (s, []).
Proof.
  intros Hinv Hc Hcap Hall Hn. revert inner Hinv Hc Hall Hn.
  induction n as [|n IH]; intros inner Hinv Hc Hall Hn; [lia|].
  pose proof (poll_progress max_bytes cap inner s Hinv Hc Hcap Hall) as H.
  pose proof (qexec_inv max_bytes (Poll now deadline cap) inner) as Hinv'.
  cbn [replicate qrun]. cbn [qexec] in *. unfold poll_pass in *.
  assert (must_wait inner = false) as Hw by (unfold must_wait; rewrite Hc; by destruct (bool_decide _), (_ =? _)).
  rewrite Hw in *. destruct (poll_drain cap inner) as [[ret out] inner']. cbn in Hinv'.
  destruct H as (Hc' & Hall' & given & Hs & Ho & Hd' & Hcase).
  assert (queue_inv max_bytes inner') as Hi by (apply Hinv'; [unfold LP2P_EVENT_HEADER_BYTES in Hcap; cbn; lia|done]).
  assert (Hp : pending inner' = length (records inner')) by (unfold pending; rewrite Hd'; cbn; lia).
  assert (out ++ owed inner' = owed inner) as <-.
  { unfold owed. rewrite Ho, Hd', Hs. cbn. by rewrite concat_app, app_assoc. }
  destruct n as [|n].
  - cbn. unfold pending in Hn. destruct (Z.ltb_spec 0 (dropped inner)); [lia|].
    assert (records inner = []) as E by (apply length_zero_iff_nil; lia).
    rewrite E in Hs. symmetry in Hs. apply app_eq_nil in Hs as [-> Hs].
    destruct Hcase as [Hcase|[[_ ?]|(_ & _ & ->)]]; [rewrite E in Hcase; cbn in Hcase; lia|lia|].
    unfold owed. rewrite Hd', Hs, Ho. by cbn.
  - assert (pending inner' < S n)%nat as Hn'.
    { rewrite Hp. unfold pending in Hn. destruct (Z.ltb_spec 0 (dropped inner)), Hcase as [?|[[E ?]|(E & ? & ?)]];
        try lia; try (rewrite E; lia). rewrite E in Hs. symmetry in Hs. apply app_eq_nil in Hs as [_ ->]. cbn. lia. }
    specialize (IH inner' Hi Hc' Hall' Hn').
    destruct (qrun _ _ inner') as [inner'' rets]. destruct IH as (? & ? & Hcat & Hlast).
    split_and!; [done|done| |].
    + cbn. by rewrite Hcat.
    + destruct rets; [done|]. by cbn.
Qed.

(** ** Witnesses *)

Definition example_event (status : Z) : EventRecord := build (with_id status (new_event LP2P_EV_OVERFLOW)).

Definition example_ops : list qop :=
  [Push (example_event 1); Push (example_event 2); Push (example_event 3); Poll 0 0 100; Close 7;
   Poll 0 0 200; Poll 0 0 200].

Lemma example_ops_wf : Forall op_wf example_ops.
Proof.
  assert (∀ s, built (example_event s)) by (intros s; by eexists _, _).
  unfold example_ops. repeat (apply Forall_cons_2 || apply Forall_nil_2); cbn; try lia; done.
Qed.

Lemma queue_fifo_accounting_witness :
  (fst <$> (qrun 180 example_ops new_queue).2) = [88; 176; 7] ∧
  let '(inner, rets) := qrun 180 example_ops new_queue in
  ∃ log taken,
    concat (snd <$> rets) = log_bytes log ∧
    taken `sublist_of` pushed example_ops ∧
    delivered_records log ++ records inner = taken ∧
    losses log + dropped inner = blen (pushed example_ops) - blen taken.
Proof.
  split; [vm_compute; reflexivity|].
  apply (queue_fifo_accounting 180 example_ops); [lia | apply example_ops_wf | done].
Defined.

Lemma queue_bounded_witness :
  records (push 180 (example_event 4) (qrun 180 (take 2 example_ops) new_queue).1) =
  records (qrun 180 (take 2 example_ops) new_queue).1.
Proof.
  apply (queue_bounded 180 (take 2 example_ops) (example_event 4)); [lia | | vm_compute; reflexivity].
  apply Forall_take, example_ops_wf.
Defined.

Lemma example_inv : queue_inv 180 (qrun 180 (take 5 example_ops) new_queue).1.
Proof.
  apply qrun_inv; [apply Forall_take, example_ops_wf | apply new_queue_inv; lia].
Qed.

Lemma poll_pass_spec_witness :
  poll_pass 0 0 100 (qrun 180 (take 2 example_ops) new_queue).1 ≠ None ∧
  poll_pass 5 9 100 new_queue = None.
Proof.
  split.
  - intros H. pose proof (qrun_inv 180 (take 2 example_ops) new_queue) as Hi.
    assert (queue_inv 180 (qrun 180 (take 2 example_ops) new_queue).1) as Hi'
      by (apply Hi; [apply Forall_take, example_ops_wf | apply new_queue_inv; lia]).
    apply (poll_pass_spec 180 0 0 100 _ Hi' ltac:(lia)) in H as [H _]. vm_compute in H. discriminate.
  - apply (poll_pass_spec 180 5 9 100 new_queue (new_queue_inv 180 ltac:(lia)) ltac:(lia)).
    split; [vm_compute; reflexivity | lia].
Defined.

Lemma closed_queue_drains_witness :
  let '(inner', rets) := qrun 180 (replicate 3 (Poll 0 0 90)) (qrun 180 (take 5 example_ops) new_queue).1 in
  records inner' = [] ∧ dropped inner' = 0 ∧
  concat (snd <$> rets) = owed (qrun 180 (take 5 example_ops) new_queue).1 ∧ last rets = Some (7, []).
Proof.
  apply (closed_queue_drains 180 0 0 90 3 _ 7 example_inv).
  - vm_compute. reflexivity.
  - unfold LP2P_EVENT_HEADER_BYTES. lia.
  - repeat constructor; vm_compute; discriminate.
  - vm_compute. lia.
Defined.
