(* ===== verification/Limits.v ===== *)
(** * Limits: peer classes and rate limits, [src/limits.rs]

    Token buckets per class, scope, protocol and unit, with the arithmetic of
    the code: the levels are binary64 numbers ([F64]) and an [Instant] is a
    number of nanoseconds. A [HashMap] is a [gmap]; nothing in this file
    depends on its iteration order. *)

From Stdlib Require Import SpecFloat.
From S2P Require Import Prelude F64 Abi Keys.

(** More buckets than this are swept. *)
Definition MAX_BUCKETS : Z := 2 ^ 16.
Definition EVENTS_PER_SECOND : Z := 10.

Abbreviation Instant := Z.

(** [saturating_duration_since]; the monotonic clock's [duration_since]
    saturates as well. *)
Definition saturating_duration_since (now earlier : Instant) : Z := Z.max 0 (now - earlier).

(** [std::net::IpAddr], by its octets. *)
Inductive IpAddr := V4 (octets : array 4) | V6 (octets : array 16).

#[export] Instance IpAddr_eq_dec : EqDecision IpAddr.
Proof. solve_decision. Defined.

Inductive Unit := Messages | Bytes.

#[export] Instance Unit_eq_dec : EqDecision Unit.
Proof. solve_decision. Defined.
#[export] Program Instance Unit_countable : Countable Unit :=
  inj_countable' (fun u => match u with Messages => true | Bytes => false end)
    (fun b => if b : bool then Messages else Bytes) _.
Next Obligation. by intros []. Qed.

Record RuleId := mk_rule_id { ri_class : Z; ri_scope : Z; ri_protocol : Z; ri_unit : Unit }.

#[export] Instance RuleId_eq_dec : EqDecision RuleId.
Proof. solve_decision. Defined.
#[export] Program Instance RuleId_countable : Countable RuleId :=
  inj_countable' (fun r => (ri_class r, ri_scope r, ri_protocol r, ri_unit r))
    (fun '(c, s, p, u) => mk_rule_id c s p u) _.
Next Obligation. by intros []. Qed.

Record Rule := mk_rule { id : RuleId; rate : lp2p_rate }.

#[export] Instance Rule_eq_dec : EqDecision Rule.
Proof. solve_decision. Defined.

Record Bucket := mk_bucket { tokens : f64; updated : Instant }.

#[export] Instance eta_Bucket : Eta Bucket := {| eta b := mk_bucket (tokens b) (updated b) |}.

(** The IPv4 /24 or IPv6 /56 of an address, tagged with the version. *)
Definition prefix (ip : IpAddr) : array 8 :=
  let l := match ip with
           | V4 v4 => x04 :: take 3 (arr v4) ++ repeat x00 4
           | V6 v6 => x06 :: take 7 (arr v6)
           end in
  default (array_fill 8 x00) (to_array 8 l).

Definition per_second (r : lp2p_rate) : f64 :=
  fdiv (fmul (f64_of (amount r)) (f64_of 1000)) (f64_of (interval_ms r)).

Definition refill (bucket : Bucket) (r : lp2p_rate) (now : Instant) : Bucket :=
  let elapsed := as_secs_f64 (saturating_duration_since now (updated bucket)) in
  mk_bucket (fmin (fadd (tokens bucket) (fmul elapsed (per_second r))) (f64_of (burst r))) now.

Section limits.
Context {I : Identity}.

Inductive Key := Peer (p : PeerId) | Prefix (p : array 8) | Global.

#[export] Instance Key_eq_dec : EqDecision Key.
Proof. solve_decision. Defined.
#[export] Program Instance Key_countable : Countable Key :=
  inj_countable'
    (fun k => match k with Peer p => inl p | Prefix p => inr (inl p) | Global => inr (inr ()) end)
    (fun s => match s with inl p => Peer p | inr (inl p) => Prefix p | inr (inr _) => Global end) _.
Next Obligation. by intros []. Qed.

Record Request := mk_request {
  rq_group : lp2p_key;
  rq_peer : PeerId;
  rq_ip : option IpAddr;
  rq_protocol : Z;
}.

Record Limits := mk_limits {
  classes : gmap lp2p_key Z;
  rules : list Rule;
  buckets : gmap (RuleId * Key) Bucket;
  events_window : option Instant;
  events_in_window : Z;
}.

#[export] Instance eta_Limits : Eta Limits := {| eta l :=
  mk_limits (classes l) (rules l) (buckets l) (events_window l) (events_in_window l) |}.

(** [Limits::default()]. *)
Definition default_limits : Limits := mk_limits ∅ [] ∅ None 0.

(** ** Classes and rules *)

Definition set_class (group : lp2p_key) (class : Z) (self : Limits) : Limits :=
  if class =? LP2P_CLASS_UNKNOWN then self <| classes ::= delete group |>
  else self <| classes ::= insert group class |>.

Definition class_of (self : Limits) (group : lp2p_key) : Z :=
  default LP2P_CLASS_UNKNOWN (classes self !! group).

Definition rate_is_set (r : lp2p_rate) : bool :=
  negb (amount r =? 0) && negb (interval_ms r =? 0) && negb (burst r =? 0).

Definition set_limit (class scope protocol : Z) (unit : Unit) (r : lp2p_rate) (self : Limits) : Limits :=
  let i := mk_rule_id class scope protocol unit in
  let self := self <| rules ::= filter (fun rule => id rule ≠ i) |> in
  if rate_is_set r then self <| rules ::= fun l => l ++ [mk_rule i r] |>
  else self <| buckets ::= filter (fun e : (RuleId * Key) * Bucket => e.1.1 ≠ i) |>.

(** ** [check] *)

Definition rule_applies (class : Z) (request : Request) (r : Rule) : bool :=
  (ri_class (id r) =? class) &&
  ((ri_protocol (id r) =? LP2P_PROTOCOL_ANY) || (ri_protocol (id r) =? rq_protocol request)).

(** The key of the bucket of a rule; [None] skips the rule. *)
Definition rule_key (request : Request) (r : Rule) : option Key :=
  if ri_scope (id r) =? LP2P_SCOPE_PEER then Some (Peer (rq_peer request))
  else if ri_scope (id r) =? LP2P_SCOPE_IP_PREFIX then
    ip ← rq_ip request; Some (Prefix (prefix ip))
  else Some Global.

Definition matching (self : Limits) (class : Z) (request : Request) : list (Rule * Key) :=
  omap (fun r => key ← rule_key request r; Some (r, key))
       (filter (fun r => rule_applies class request r = true) (rules self)).

Definition cost (bytes : Z) (r : Rule) : f64 :=
  match ri_unit (id r) with Messages => f64_of 1 | Bytes => f64_of bytes end.

(** The first loop: creates and refills the buckets up to the first one that
    has too few tokens. *)
Fixpoint probe (bytes : Z) (now : Instant) (m : list (Rule * Key))
    (bs : gmap (RuleId * Key) Bucket) : result () Z * gmap (RuleId * Key) Bucket :=
  match m with
  | [] => (Ok (), bs)
  | (r, key) :: m =>
      let bucket := default (mk_bucket (f64_of (burst (rate r))) now) (bs !! (id r, key)) in
      let bucket := refill bucket (rate r) now in
      let bs := <[(id r, key) := bucket]> bs in
      if flt (tokens bucket) (cost bytes r) then (Err (as_u16 (ri_scope (id r))), bs)
      else probe bytes now m bs
  end.

(** The second loop: takes the tokens. *)
Definition take_tokens (bytes : Z) (m : list (Rule * Key)) (bs : gmap (RuleId * Key) Bucket) :
    gmap (RuleId * Key) Bucket :=
  foldl (fun bs '(r, key) =>
    alter (fun b => b <| tokens ::= fun t => fsub t (cost bytes r) |>) (id r, key) bs) bs m.

(** [retain] with a closure that refills what it looks at. *)
Definition sweep (now : Instant) (self : Limits) : Limits :=
  self <| buckets ::= fun bs =>
    map_imap (fun '(i, _) bucket =>
      match find_map (fun r => if decide (id r = i) then Some r else None) (rules self) with
      | None => None
      | Some r =>
          let bucket := refill bucket (rate r) now in
          if flt (tokens bucket) (f64_of (burst (rate r))) then Some bucket else None
      end) bs |>.

Definition check (request : Request) (bytes : Z) (now : Instant) (self : Limits) :
    result () Z * Limits :=
  let class := class_of self (rq_group request) in
  if class =? LP2P_CLASS_BLOCKED then (Err LP2P_LIMITED_BLOCKED, self)
  else
    let m := matching self class request in
    match probe bytes now m (buckets self) with
    | (Err scope, bs) => (Err scope, self <| buckets := bs |>)
    | (Ok _, bs) =>
        let self := self <| buckets := take_tokens bytes m bs |> in
        (Ok (), if MAX_BUCKETS <? Z.of_nat (size (buckets self)) then sweep now self else self)
    end.

(** ** Reporting *)

Definition may_report (now : Instant) (self : Limits) : bool * Limits :=
  let fresh := (true, self <| events_window := Some now |> <| events_in_window := 1 |>) in
  match events_window self with
  | Some start =>
      if saturating_duration_since now start <? nanos_per_sec then
        let self := self <| events_in_window ::= fun n => as_u32 (n + 1) |> in
        (events_in_window self <=? EVENTS_PER_SECOND, self)
      else fresh
  | None => fresh
  end.

(** ** [SourceRate] *)

Record SourceRate := mk_source_rate {
  sr_per_second : f64;
  sr_burst : f64;
  sr_buckets : gmap PeerId Bucket;
}.

#[export] Instance eta_SourceRate : Eta SourceRate := {| eta s :=
  mk_source_rate (sr_per_second s) (sr_burst s) (sr_buckets s) |}.

(** [SourceRate::new], of an interval in nanoseconds. *)
Definition new_source_rate (interval burst : Z) : SourceRate :=
  mk_source_rate (fdiv (f64_of 1) (as_secs_f64 interval)) (f64_of burst) ∅.

Definition source_level (self : SourceRate) (b : Bucket) (now : Instant) : f64 :=
  fadd (tokens b) (fmul (as_secs_f64 (saturating_duration_since now (updated b))) (sr_per_second self)).

Definition allow (peer : PeerId) (now : Instant) (self : SourceRate) : bool * SourceRate :=
  let self :=
    if MAX_BUCKETS <? Z.of_nat (size (sr_buckets self)) then
      self <| sr_buckets ::= filter (fun e : PeerId * Bucket =>
        flt (source_level self e.2 now) (sr_burst self) = true) |>
    else self in
  let bucket := default (mk_bucket (sr_burst self) now) (sr_buckets self !! peer) in
  let level := fmin (source_level self bucket now) (sr_burst self) in
  if flt level (f64_of 1) then (false, self <| sr_buckets ::= insert peer (mk_bucket level now) |>)
  else (true, self <| sr_buckets ::= insert peer (mk_bucket (fsub level (f64_of 1)) now) |>).

(** ** What a limit holds

    The bucket of a rule for a key as [check] sees it at [now]: a missing
    bucket is a full one. *)

Definition bucket_in (bs : gmap (RuleId * Key) Bucket) (r : Rule) (key : Key) (now : Instant) : Bucket :=
  refill (default (mk_bucket (f64_of (burst (rate r))) now) (bs !! (id r, key))) (rate r) now.

Definition bucket_at (self : Limits) : Rule → Key → Instant → Bucket := bucket_in (buckets self).

(** Whether a bucket has too few tokens, and the reason that is answered. *)
Definition refusal (bs : gmap (RuleId * Key) Bucket) (bytes : Z) (now : Instant) (m : Rule * Key) : option Z :=
  if flt (tokens (bucket_in bs m.1 m.2 now)) (cost bytes m.1)
  then Some (as_u16 (ri_scope (id m.1))) else None.

(** A bucket that was charged, as it stands at the same instant. *)
Definition charged (bytes : Z) (r : Rule) (b : Bucket) : Bucket :=
  mk_bucket (fmin (fsub (tokens b) (cost bytes r)) (f64_of (burst (rate r)))) (updated b).

(** *** Well-formed limits *)

Definition rate_wf (r : lp2p_rate) : Prop :=
  0 < amount r < 2 ^ 32 ∧ 0 < interval_ms r < 2 ^ 32 ∧ 0 < burst r < 2 ^ 32.

Definition bucket_wf (b : Bucket) : Prop := f64_wf (tokens b) ∧ tokens b ≠ neg_zero.

(** A rule per identifier, only rates that are set, no class stored for an
    unknown group, and buckets only of rules that exist. *)
Record limits_wf (self : Limits) : Prop := mk_limits_wf {
  lw_classes : map_Forall (fun _ c => c ≠ LP2P_CLASS_UNKNOWN) (classes self);
  lw_ids : NoDup (id <$> rules self);
  lw_rates : Forall (fun r => rate_wf (rate r)) (rules self);
  lw_buckets : map_Forall (fun i b => i.1 ∈ id <$> rules self ∧ bucket_wf b) (buckets self);
}.

(** *** Buckets *)

Lemma per_second_tame r : rate_wf r → fmul (S754_zero false) (per_second r) = S754_zero false.
Proof.
  intros (Ha & Hi & _). unfold per_second.
  destruct (fmul_fdiv_tame (amount r) 1000 (interval_ms r)) as [->|(m & e & ->)]; try lia; done.
Qed.

Lemma per_second_fpos r : rate_wf r → fpos (per_second r).
Proof.
  intros (Ha & Hi & _). unfold per_second.
  destruct (fmul_fdiv_tame (amount r) 1000 (interval_ms r)) as [->|(m & e & ->)]; try lia; done.
Qed.

Lemma burst_not_nan r : rate_wf r → is_nan (f64_of (burst r)) = false.
Proof. intros (_ & _ & Hb). apply f64_of_not_nan. lia. Qed.

Lemma burst_wf (r : lp2p_rate) now : rate_wf r → bucket_wf (mk_bucket (f64_of (burst r)) now).
Proof.
  intros (_ & _ & Hb). split; cbn; [apply f64_of_wf|]. apply fpos_not_neg_zero, f64_of_fpos. lia.
Qed.

Lemma refill_wf r b now : rate_wf r → bucket_wf b → bucket_wf (refill b r now).
Proof.
  intros Hr [Hwf Hz]. pose proof (burst_wf r now Hr) as [Hb Hbz]. split; cbn.
  - apply fmin_wf; [|done]. apply fadd_wf; [done | apply fmul_wf].
  - apply fmin_not_neg_zero; [|done]. apply fadd_not_neg_zero; [done | apply fmul_wf |].
    apply fpos_not_neg_zero, fmul_fpos; [|by apply per_second_fpos].
    apply as_secs_f64_fpos. unfold saturating_duration_since. lia.
Qed.

(** Refilling at the instant of the last refill only cuts off at the burst. *)
Lemma refill_same r b now :
  rate_wf r → tokens b ≠ neg_zero → updated b = now →
  refill b r now = mk_bucket (fmin (tokens b) (f64_of (burst r))) now.
Proof.
  intros Hr Hz Hu. unfold refill, saturating_duration_since. rewrite Hu, Z.sub_diag. change (Z.max 0 0) with 0.
  by rewrite as_secs_f64_zero, per_second_tame, fadd_zero_r.
Qed.

Lemma refill_fresh r now :
  rate_wf r → refill (mk_bucket (f64_of (burst r)) now) r now = mk_bucket (f64_of (burst r)) now.
Proof.
  intros Hr. rewrite refill_same by (done || apply (burst_wf r now Hr)). cbn. by rewrite fmin_same.
Qed.

Lemma refill_refill r b now :
  rate_wf r → bucket_wf b → refill (refill b r now) r now = refill b r now.
Proof.
  intros Hr Hb. rewrite refill_same by (done || by apply refill_wf). cbn.
  by rewrite fmin_idem by (by apply burst_not_nan).
Qed.

Lemma refill_full r b now :
  rate_wf r → flt (tokens (refill b r now)) (f64_of (burst r)) = false →
  refill b r now = mk_bucket (f64_of (burst r)) now.
Proof.
  intros (_ & _ & Hr) H. unfold refill in *. cbn in H. by rewrite (fmin_full _ (burst r) ltac:(lia) H).
Qed.

Lemma bucket_in_wf bs r key now :
  rate_wf (rate r) → map_Forall (fun _ b => bucket_wf b) bs → bucket_wf (bucket_in bs r key now).
Proof.
  intros Hr Hbs. apply refill_wf; [done|]. destruct (bs !! (id r, key)) as [b|] eqn:E; cbn.
  - apply (Hbs _ _ E).
  - by apply burst_wf.
Qed.

Lemma bucket_in_insert bs r key r' key' b now :
  bucket_in (<[(id r, key) := b]> bs) r' key' now =
  if decide ((id r, key) = (id r', key')) then refill b (rate r') now else bucket_in bs r' key' now.
Proof.
  unfold bucket_in. case_decide as H.
  - by rewrite <- H, lookup_insert_eq.
  - by rewrite lookup_insert_ne.
Qed.

(** *** The loops of [check] *)

Definition unique_ids (l : list Rule) : Prop :=
  ∀ r r', r ∈ l → r' ∈ l → id r = id r' → r = r'.

Lemma NoDup_unique_ids l : NoDup (id <$> l) → unique_ids l.
Proof.
  intros H r r' Hr Hr' E. apply list_elem_of_lookup in Hr as [i Hi], Hr' as [j Hj].
  assert (i = j) as <-.
  { eapply NoDup_lookup; [done|..]; rewrite list_lookup_fmap; [by rewrite Hi|rewrite Hj; cbn; by rewrite E]. }
  congruence.
Qed.

Section loops.
Context (l : list Rule) (Huniq : unique_ids l) (Hrates : Forall (fun r => rate_wf (rate r)) l).

Definition within (m : list (Rule * Key)) : Prop := ∀ r k, (r, k) ∈ m → r ∈ l.

Lemma within_cons r k m : within ((r, k) :: m) → r ∈ l ∧ within m.
Proof. intros H. split; [by apply (H r k), list_elem_of_here|]. intros r' k' ?. by apply (H r' k'), list_elem_of_further. Qed.

Lemma in_rate_wf r : r ∈ l → rate_wf (rate r).
Proof. rewrite Forall_forall in Hrates. apply Hrates. Qed.

(** The first loop leaves every bucket as it stands at this instant, and the
    first bucket that is short decides. *)
Lemma probe_spec bytes now m bs :
  within m → map_Forall (fun _ b => bucket_wf b) bs →
  let '(answer, bs') := probe bytes now m bs in
  answer = match find_map (refusal bs bytes now) m with Some s => Err s | None => Ok () end ∧
  map_Forall (fun _ b => bucket_wf b) bs' ∧
  (∀ r k, r ∈ l → bucket_in bs' r k now = bucket_in bs r k now) ∧
  (∀ i b, bs' !! i = Some b → is_Some (bs !! i) ∨ ∃ r k, (r, k) ∈ m ∧ i = (id r, k)) ∧
  (∀ r k, r ∈ l → bs !! (id r, k) = Some (bucket_in bs r k now) →
     bs' !! (id r, k) = Some (bucket_in bs r k now)) ∧
  (answer = Ok () → ∀ r k, (r, k) ∈ m → bs' !! (id r, k) = Some (bucket_in bs r k now)).
Proof.
  revert bs. induction m as [|[r k] m IH]; intros bs Hin Hwf; cbn [probe find_map].
  { split_and!; try done; try (by left; eauto). by intros _ ? ? ?%elem_of_nil. }
  apply within_cons in Hin as [Hr Hin]. pose proof (in_rate_wf r Hr) as Hrate.
  fold (bucket_in bs r k now). unfold refusal at 1. cbn [fst snd].
  set (b := bucket_in bs r k now). set (bs1 := <[(id r, k) := b]> bs).
  assert (bucket_wf b) as Hb by (by apply bucket_in_wf).
  assert (map_Forall (fun _ b => bucket_wf b) bs1) as Hwf1 by (by apply map_Forall_insert_2).
  assert (∀ r' k', r' ∈ l → bucket_in bs1 r' k' now = bucket_in bs r' k' now) as Hsame.
  { intros r' k' Hr'. subst bs1. rewrite bucket_in_insert. case_decide as E; [|done].
    injection E as E <-. assert (r' = r) as -> by (by apply Huniq). apply refill_refill; [done|].
    unfold default. destruct (bs !! (id r, k)) as [b0|] eqn:Eb; [apply (Hwf _ _ Eb)|by apply burst_wf]. }
  assert (∀ i b', bs1 !! i = Some b' → is_Some (bs !! i) ∨ i = (id r, k)) as Hdom.
  { intros i b' Hi. destruct (decide (i = (id r, k))) as [->|Hne]; [by right|left].
    subst bs1. rewrite lookup_insert_ne in Hi by congruence. by eexists. }
  assert (∀ r' k', r' ∈ l → bs !! (id r', k') = Some (bucket_in bs r' k' now) →
    bs1 !! (id r', k') = Some (bucket_in bs r' k' now)) as Hkeep.
  { intros r' k' Hr' Hi. subst bs1. destruct (decide ((id r, k) = (id r', k'))) as [E|].
    - injection E as E <-. assert (r' = r) as -> by (by apply Huniq). by rewrite lookup_insert_eq.
    - by rewrite lookup_insert_ne. }
  destruct (flt (tokens b) (cost bytes r)).
  { split_and!; try done. intros i b' Hi. destruct (Hdom i b' Hi) as [?| ->]; [by left|right].
    exists r, k. split; [apply list_elem_of_here|done]. }
  specialize (IH bs1 Hin Hwf1). destruct (probe bytes now m bs1) as [answer bs'].
  destruct IH as (-> & Hwf' & Hs & Hd & Hk & Hok). split_and!; try done.
  - assert (∀ x, x ∈ m → refusal bs1 bytes now x = refusal bs bytes now x) as Hf.
    { intros [r' k'] Hx. unfold refusal. cbn [fst snd]. by rewrite Hsame by (by eapply Hin). }
    clear -Hf. induction m as [|x m IH]; [done|]. cbn.
    rewrite Hf by apply list_elem_of_here. destruct (refusal bs bytes now x); [done|].
    apply IH. intros y Hy. by apply Hf, list_elem_of_further.
  - intros r' k' Hr'. by rewrite Hs, Hsame.
  - intros i b' Hi. destruct (Hd i b' Hi) as [[b'' Hi']|(r' & k' & Hm & ->)].
    + destruct (Hdom i b'' Hi') as [?| ->]; [by left|right]. exists r, k.
      split; [apply list_elem_of_here|done].
    + right. exists r', k'. split; [by apply list_elem_of_further|done].
  - intros r' k' Hr' Hi. rewrite <- (Hsame r' k' Hr'). apply Hk; [done|].
    rewrite (Hsame r' k' Hr'). by apply Hkeep.
  - intros Ha r' k' Hm. rewrite <- (Hsame r' k') by (apply elem_of_cons in Hm as [[= -> ->]|Hm]; [done|by eapply Hin]).
    apply elem_of_cons in Hm as [[= -> ->]|Hm]; [|by apply Hok].
    apply Hk; [done|]. rewrite Hsame by done. subst bs1. by rewrite lookup_insert_eq.
Qed.

(** The second loop charges each bucket of [m] once. *)
Lemma take_tokens_lookup bytes m bs i :
  NoDup (m.*1) → within m →
  take_tokens bytes m bs !! i =
  match find_map (fun '(r, k) => if decide ((id r, k) = i) then Some r else None) m with
  | Some r => (fun b => mk_bucket (fsub (tokens b) (cost bytes r)) (updated b)) <$> bs !! i
  | None => bs !! i
  end.
Proof.
  revert bs. induction m as [|[r k] m IH]; intros bs Hnd Hin; [done|].
  apply within_cons in Hin as [Hr Hin]. cbn in Hnd. apply NoDup_cons in Hnd as [Hnot Hnd].
  cbn [take_tokens foldl]. unfold take_tokens in IH. rewrite IH by done. cbn [find_map].
  destruct (decide ((id r, k) = i)) as [<-|Hne].
  - rewrite lookup_alter_eq.
    destruct (find_map _ m) as [r'|] eqn:E; [|done]. exfalso. clear IH. apply Hnot.
    assert (∃ k', (r', k') ∈ m ∧ id r' = id r) as (k' & Hm & Hid).
    { clear -E. induction m as [|[r1 k1] m IH]; [done|]. cbn in E. case_decide as Ed.
      - injection E as ->. injection Ed as Ed ->. exists k. split; [apply list_elem_of_here|done].
      - destruct (IH E) as (k' & ? & ?). exists k'. split; [by apply list_elem_of_further|done]. }
    assert (r' = r) as -> by (by apply Huniq; [eapply Hin| |]).
    apply list_elem_of_fmap. by exists (r, k').
  - by rewrite lookup_alter_ne.
Qed.

(** Forgetting full buckets, and refilling the others, leaves every bucket as
    it stands at this instant. *)
Lemma sweep_lookup now bs r k :
  r ∈ l → map_Forall (fun _ b => bucket_wf b) bs →
  bucket_in (map_imap (fun '(i, _) bucket =>
      match find_map (fun r => if decide (id r = i) then Some r else None) l with
      | None => None
      | Some r =>
          let bucket := refill bucket (rate r) now in
          if flt (tokens bucket) (f64_of (burst (rate r))) then Some bucket else None
      end) bs) r k now = bucket_in bs r k now.
Proof.
  intros Hr Hwf. pose proof (in_rate_wf r Hr) as Hrate. unfold bucket_in.
  rewrite map_lookup_imap. cbn.
  assert (find_map (fun r0 => if decide (id r0 = id r) then Some r0 else None) l = Some r) as ->.
  { clear -Huniq Hr. assert (∀ m, (∀ x, x ∈ m → x ∈ l) → r ∈ m →
      find_map (fun r0 => if decide (id r0 = id r) then Some r0 else None) m = Some r) as H.
    { induction m as [|x m IH]; intros Hsub Hm; [by apply elem_of_nil in Hm|]. cbn.
      case_decide as E.
      - f_equal. apply Huniq; [by apply Hsub, list_elem_of_here|done|done].
      - apply IH; [intros y Hy; by apply Hsub, list_elem_of_further|].
        apply elem_of_cons in Hm as [<-|?]; done. }
    by apply H. }
  destruct (bs !! (id r, k)) as [b|] eqn:E; cbn; [|done].
  pose proof (Hwf _ _ E) as Hb. destruct (flt _ _) eqn:Hf; cbn.
  - by apply refill_refill.
  - rewrite refill_fresh by done. symmetry. by apply refill_full.
Qed.

End loops.

(** *** [check] *)

Lemma matching_within self class request : within (rules self) (matching self class request).
Proof.
  intros r k (r' & Hr & H)%list_elem_of_omap. apply bind_Some in H as (k' & _ & [= -> ->]).
  by apply list_elem_of_filter in Hr as [_ Hr].
Qed.

Lemma matching_NoDup self class request :
  NoDup (rules self) → NoDup ((matching self class request).*1).
Proof.
  intros H. unfold matching. apply (NoDup_filter (fun r => rule_applies class request r = true)) in H.
  induction H as [|r l Hr Hnd IH]; [constructor|]. cbn.
  destruct (rule_key request r) as [k|]; cbn; [|done]. constructor; [|done].
  intros ((r' & k') & -> & Hin)%list_elem_of_fmap. cbn in Hr. apply list_elem_of_omap in Hin as (r & Hin & E).
  apply bind_Some in E as (? & _ & [= -> ->]). done.
Qed.

Lemma NoDup_ids_rules self : limits_wf self → NoDup (rules self).
Proof. intros H. by eapply NoDup_fmap_1, lw_ids. Qed.

Lemma wf_unique self : limits_wf self → unique_ids (rules self).
Proof. intros H. by apply NoDup_unique_ids, lw_ids. Qed.

Lemma wf_buckets self : limits_wf self → map_Forall (fun _ b => bucket_wf b) (buckets self).
Proof. intros H i b Hb. by apply (lw_buckets _ H) in Hb as [_ ?]. Qed.

Lemma find_map_in l (m : list (Rule * Key)) r k :
  unique_ids l → within l m → r ∈ l →
  find_map (fun '(r0, k0) => if decide ((id r0, k0) = (id r, k)) then Some r0 else None) m =
  (if decide ((r, k) ∈ m) then Some r else None).
Proof.
  intros Hu Hin Hr. induction m as [|[r0 k0] m IH]; [done|]. cbn [find_map].
  apply within_cons in Hin as [Hr0 Hin]. rewrite (IH Hin). destruct (decide ((id r0, k0) = (id r, k))) as [E|E].
  - injection E as E ->. assert (r0 = r) as -> by (by apply Hu). rewrite decide_True by apply list_elem_of_here. done.
  - destruct (decide ((r, k) ∈ m)) as [Hm|Hm].
    + by rewrite decide_True by (by apply list_elem_of_further).
    + rewrite decide_False; [done|]. intros [[= <- <-]|?]%elem_of_cons; done.
Qed.

(** A charged bucket is read back as [charged]. *)
Lemma bucket_in_take bytes l m bs bs0 r k now :
  unique_ids l → Forall (fun r => rate_wf (rate r)) l → within l m → NoDup (m.*1) → r ∈ l →
  (∀ r k, r ∈ l → bucket_in bs r k now = bucket_in bs0 r k now) →
  (∀ r k, (r, k) ∈ m → bs !! (id r, k) = Some (bucket_in bs0 r k now)) →
  map_Forall (fun _ b => bucket_wf b) bs → map_Forall (fun _ b => bucket_wf b) bs0 →
  bucket_in (take_tokens bytes m bs) r k now =
  (if decide ((r, k) ∈ m) then charged bytes r (bucket_in bs0 r k now) else bucket_in bs0 r k now).
Proof.
  intros Hu Hrates Hin Hnd Hr Hsame Hset Hwf Hwf0. unfold bucket_in at 1.
  rewrite (take_tokens_lookup l Hu bytes m bs) by done. rewrite (find_map_in l) by done.
  destruct (decide ((r, k) ∈ m)) as [Hm|Hm].
  - rewrite (Hset r k Hm). cbn [fmap option_fmap option_map default].
    assert (rate_wf (rate r)) as Hrate by (by eapply in_rate_wf).
    pose proof (bucket_in_wf bs0 r k now Hrate Hwf0) as [Hb Hz].
    rewrite refill_same; [done|done| |done]. cbn [tokens].
    apply fsub_not_neg_zero; [done| |done]. unfold cost. destruct (ri_unit _); apply f64_of_wf.
  - rewrite <- (Hsame r k Hr). done.
Qed.

Lemma take_tokens_wf bytes m bs :
  map_Forall (fun _ b => bucket_wf b) bs → map_Forall (fun _ b => bucket_wf b) (take_tokens bytes m bs).
Proof.
  unfold take_tokens. revert bs. induction m as [|[r k] m IH]; intros bs Hbs; [done|]. cbn. apply IH.
  intros i b Hi. apply lookup_alter_Some in Hi as [(<- & b0 & Hb & ->)|[_ Hi]]; [|by apply (Hbs i)].
  destruct (Hbs _ _ Hb) as [Hwf Hz].
  assert (f64_wf (cost bytes r)) by (unfold cost; destruct (ri_unit _); apply f64_of_wf).
  split; cbn; [by apply fsub_wf | by apply fsub_not_neg_zero].
Qed.

Lemma sweep_wf now self : limits_wf self → limits_wf (sweep now self).
Proof.
  intros [Hc Hi Hr Hb]. split; cbn; try done. intros [i k] b H. rewrite map_lookup_imap in H.
  apply bind_Some in H as (b0 & Hb0 & H). destruct (find_map _ _) as [r|] eqn:E; [|done].
  destruct (flt _ _); [|done]. injection H as <-. destruct (Hb _ _ Hb0) as [Hin Hwf]. split; [done|].
  apply refill_wf; [|done]. rewrite Forall_forall in Hr. apply Hr.
  clear -E. induction (rules self) as [|r0 l IH]; [done|]. cbn in E. case_decide.
  - injection E as ->. apply list_elem_of_here.
  - by apply list_elem_of_further, IH.
Qed.

Lemma check_outcome request bytes now self :
  limits_wf self →
  let m := matching self (class_of self (rq_group request)) request in
  let '(answer, self') := check request bytes now self in
  answer = (if class_of self (rq_group request) =? LP2P_CLASS_BLOCKED then Err LP2P_LIMITED_BLOCKED
            else match find_map (refusal (buckets self) bytes now) m with
                 | Some scope => Err scope
                 | None => Ok ()
                 end) ∧
  limits_wf self' ∧ rules self' = rules self ∧ classes self' = classes self ∧
  (∀ r k, r ∈ rules self →
     bucket_at self' r k now =
     if decide (answer = Ok () ∧ (r, k) ∈ m) then charged bytes r (bucket_at self r k now)
     else bucket_at self r k now).
Proof.
  intros Hwf m. unfold check. destruct (class_of self (rq_group request) =? LP2P_CLASS_BLOCKED).
  { by split_and!. }
  pose proof (wf_unique _ Hwf) as Hu. pose proof (lw_rates _ Hwf) as Hrates.
  pose proof (wf_buckets _ Hwf) as Hb. pose proof (NoDup_ids_rules _ Hwf) as Hnd.
  pose proof (matching_within self (class_of self (rq_group request)) request) as Hin. fold m in Hin |- *.
  pose proof (probe_spec (rules self) Hu Hrates bytes now m (buckets self) Hin Hb) as H.
  destruct (probe bytes now m (buckets self)) as [answer bs']. destruct H as (Ha & Hwf' & Hs & Hd & _ & Hok).
  assert (limits_wf (self <| buckets := bs' |>)) as Hself.
  { destruct Hwf as [Hc Hi Hr Hbk]. split; cbn; try done. intros i b Hib. split; [|by apply (Hwf' i)].
    destruct (Hd i b Hib) as [[b0 Hb0]|(r & k & Hm & ->)]; [by apply (Hbk _ _ Hb0)|].
    apply list_elem_of_fmap. exists r. split; [done|by eapply Hin]. }
  destruct answer as [[]|scope].
  2:{ by split_and!. }
  assert (limits_wf (self <| buckets := take_tokens bytes m bs' |>)) as Htaken.
  { destruct Hself as [Hc Hi Hr Hbk]. split; cbn in *; try done. intros i b Hib. split.
    - assert (is_Some (bs' !! i)) as [b0 Hb0].
      { cbn in Hib. rewrite (take_tokens_lookup (rules self) Hu) in Hib by (done || by apply matching_NoDup).
        clear -Hib. destruct (find_map _ m) as [r|]; [|by eexists]. apply fmap_Some in Hib as (b0 & Hb0 & _). by eexists. }
      apply (Hbk _ _ Hb0).
    - by apply (take_tokens_wf bytes m bs' Hwf' i). }
  assert (∀ r k, r ∈ rules self → bucket_in (take_tokens bytes m bs') r k now =
    if decide ((r, k) ∈ m) then charged bytes r (bucket_at self r k now) else bucket_at self r k now) as Hread.
  { intros r k Hr. apply (bucket_in_take bytes (rules self)); try done; [by apply matching_NoDup|by apply Hok]. }
  assert (∀ r k, (if decide (Ok () = @Ok () Z () ∧ (r, k) ∈ m) then charged bytes r (bucket_at self r k now) else bucket_at self r k now) =
    if decide ((r, k) ∈ m) then charged bytes r (bucket_at self r k now) else bucket_at self r k now) as Hdec.
  { intros r k. apply decide_ext. naive_solver. }
  destruct (MAX_BUCKETS <? _); split_and!; try done; try (by apply sweep_wf);
    intros r k Hr; rewrite Hdec, <- Hread by done; [|done].
  apply (sweep_lookup (rules self) Hu Hrates now); [done|]. apply take_tokens_wf, Hwf'.
Qed.

(** ** Properties *)

(** The operations on the state of the limits. *)
Inductive lop :=
| SetClass (group : lp2p_key) (class : Z)
| SetLimit (class scope protocol : Z) (unit : Unit) (r : lp2p_rate)
| CheckOne (request : Request) (bytes : Z) (now : Instant)
| SweepAt (now : Instant)
| MayReport (now : Instant).

Definition lexec (op : lop) (self : Limits) : Limits :=
  match op with
  | SetClass g c => set_class g c self
  | SetLimit c s p u r => set_limit c s p u r self
  | CheckOne rq b now => (check rq b now self).2
  | SweepAt now => sweep now self
  | MayReport now => (may_report now self).2
  end.

(** The fields of a rate are [u32]s. *)
Definition lop_wf (op : lop) : Prop :=
  match op with
  | SetLimit _ _ _ _ r => 0 ≤ amount r < 2 ^ 32 ∧ 0 ≤ interval_ms r < 2 ^ 32 ∧ 0 ≤ burst r < 2 ^ 32
  | _ => True
  end.

Lemma default_limits_wf : limits_wf default_limits.
Proof. split; cbn; try done; constructor. Qed.

Lemma set_limit_wf c s p u r self :
  lop_wf (SetLimit c s p u r) → limits_wf self → limits_wf (set_limit c s p u r self).
Proof.
  intros Hr [Hc Hi Hrt Hb]. unfold set_limit. set (i := mk_rule_id c s p u).
  assert (NoDup (id <$> filter (fun r0 => id r0 ≠ i) (rules self))) as Hnd.
  { clear -Hi. induction (rules self) as [|r0 l IH]; [constructor|]. cbn in Hi.
    apply NoDup_cons in Hi as [Hn Hi]. rewrite filter_cons. case_decide; [|by apply IH].
    cbn. apply NoDup_cons. split; [|by apply IH]. intros (r1 & E & H1)%list_elem_of_fmap.
    apply list_elem_of_filter in H1 as [_ H1]. apply Hn. rewrite E. by apply list_elem_of_fmap_2. }
  assert (∀ i', i' ≠ i → i' ∈ id <$> rules self → i' ∈ id <$> filter (fun r0 => id r0 ≠ i) (rules self)) as Hin.
  { intros i' Hne (r0 & -> & H0)%list_elem_of_fmap. apply list_elem_of_fmap_2, list_elem_of_filter. done. }
  destruct (rate_is_set r) eqn:E; split; cbn; try done.
  - rewrite fmap_app. apply NoDup_app. split_and!; [done| |by apply NoDup_singleton].
    intros i' (r0 & E' & H0)%list_elem_of_fmap ->%list_elem_of_singleton.
    by apply list_elem_of_filter in H0 as [H0 _].
  - apply Forall_app. split; [by apply Forall_filter|]. constructor; [|done]. cbn.
    unfold rate_is_set in E. cbn in Hr. unfold rate_wf.
    destruct (Z.eqb_spec (amount r) 0), (Z.eqb_spec (interval_ms r) 0), (Z.eqb_spec (burst r) 0); try done; lia.
  - intros j b Hj. destruct (Hb _ _ Hj) as [Hj1 Hj2]. split; [|done]. rewrite fmap_app. apply elem_of_app.
    destruct (decide (j.1 = i)) as [->|]; [right; by apply list_elem_of_singleton|left; by apply Hin].
  - by apply Forall_filter.
  - intros j b Hj. apply map_lookup_filter_Some in Hj as [Hj Hne]. cbn in Hne.
    destruct (Hb _ _ Hj). split; [by apply Hin|done].
Qed.

(** C28: every operation keeps the limits well formed: one rule per class,
    scope, protocol and unit; only rates whose three fields are set; no class
    stored for a group that is unknown; no bucket without its rule, so removing
    a limit leaves nothing behind; and no bucket whose level is a negative
    zero. *)
Theorem limits_invariant ops :
  Forall lop_wf ops → limits_wf (foldl (fun self op => lexec op self) default_limits ops).
Proof.
  intros Hops. assert (∀ self, limits_wf self → limits_wf (foldl (fun self op => lexec op self) self ops)) as H;
    [|apply H, default_limits_wf].
  induction Hops as [|op ops Hop _ IH]; intros self Hself; [done|]. cbn. apply IH.
  destruct op as [g c|c s p u r|rq b now|now|now]; cbn.
  - unfold set_class. destruct Hself as [Hc Hi Hr Hb].
    destruct (Z.eqb_spec c LP2P_CLASS_UNKNOWN); split; cbn; try done.
    + by apply map_Forall_delete.
    + by apply map_Forall_insert_2.
  - by apply set_limit_wf.
  - pose proof (check_outcome rq b now self Hself) as H. destruct (check rq b now self) as [a self']. apply H.
  - by apply sweep_wf.
  - unfold may_report. destruct Hself as [Hc Hi Hr Hb].
    destruct (events_window self); [destruct (_ <? _)|]; split; done.
Qed.

(** C27: what [check] decides and what it changes. A blocked class is refused;
    otherwise the first matching limit whose bucket is short of the cost decides
    with its scope, and the request is admitted when there is none. A refusal
    takes nothing from any bucket, an admission takes the cost from exactly the
    matching ones, and forgetting full buckets on the way is invisible: every
    rule and key holds what it held, less what was taken. *)
Theorem check_spec request bytes now self :
  limits_wf self →
  let class := class_of self (rq_group request) in
  let m := matching self class request in
  let '(answer, self') := check request bytes now self in
  (class = LP2P_CLASS_BLOCKED → answer = Err LP2P_LIMITED_BLOCKED ∧ self' = self) ∧
  (class ≠ LP2P_CLASS_BLOCKED →
     answer = match find_map (refusal (buckets self) bytes now) m with
              | Some scope => Err scope
              | None => Ok ()
              end) ∧
  rules self' = rules self ∧ classes self' = classes self ∧
  (∀ r k, r ∈ rules self →
     bucket_at self' r k now =
     if decide (answer = Ok () ∧ (r, k) ∈ m) then charged bytes r (bucket_at self r k now)
     else bucket_at self r k now).
Proof.
  intros Hwf class m. pose proof (check_outcome request bytes now self Hwf) as H.
  destruct (check request bytes now self) as [answer self'] eqn:E.
  destruct H as (Ha & _ & Hr & Hc & Hb). fold class m in Ha, Hb.
  split_and!; try done.
  - intros Hcl. unfold check in E. fold class in E. rewrite Hcl in E. by injection E as <- <-.
  - intros Hcl. rewrite Ha. by destruct (Z.eqb_spec class LP2P_CLASS_BLOCKED).
Qed.

(** *** Bursts *)

(** Successive requests at one instant. *)
Fixpoint check_all (request : Request) (now : Instant) (sizes : list Z) (self : Limits) : list (result () Z) :=
  match sizes with
  | [] => []
  | bytes :: sizes =>
      let '(answer, self) := check request bytes now self in
      answer :: check_all request now sizes self
  end.

(** The same with whole numbers: every rule has a budget. *)
Definition whole_cost (bytes : Z) (r : Rule) : Z :=
  match ri_unit (id r) with Messages => 1 | Bytes => bytes end.

Fixpoint budgets (m : list Rule) (budget : Rule → Z) (sizes : list Z) : list bool :=
  match sizes with
  | [] => []
  | bytes :: sizes =>
      if forallb (fun r => whole_cost bytes r <=? budget r) m
      then true :: budgets m (fun r => budget r - whole_cost bytes r) sizes
      else false :: budgets m budget sizes
  end.

Lemma cost_whole bytes r : cost bytes r = f64_of (whole_cost bytes r).
Proof. unfold cost, whole_cost. by destruct (ri_unit (id r)). Qed.

Lemma check_all_budgets request now sizes self budget :
  limits_wf self → class_of self (rq_group request) ≠ LP2P_CLASS_BLOCKED →
  Forall (fun b => 0 ≤ b < 2 ^ 53) sizes →
  let m := matching self (class_of self (rq_group request)) request in
  (∀ r k, (r, k) ∈ m → 0 ≤ budget r ≤ burst (rate r) ∧ tokens (bucket_at self r k now) = f64_of (budget r)) →
  (negb ∘ is_err) <$> check_all request now sizes self = budgets (m.*1) budget sizes.
Proof.
  intros Hwf Hc Hs. revert self budget Hwf Hc.
  induction Hs as [|bytes sizes Hb Hs IH]; intros self budget Hwf Hc m Hbud; [done|].
  assert (∀ r, 0 ≤ whole_cost bytes r < 2 ^ 53) as Hcost by (intros r; unfold whole_cost; destruct (ri_unit _); lia).
  cbn [check_all budgets]. pose proof (check_outcome request bytes now self Hwf) as H.
  destruct (check request bytes now self) as [answer self'].
  destruct H as (Ha & Hwf' & Hr & Hcl & Hlev). fold m in Ha, Hlev.
  assert (class_of self' = class_of self) as Ecl by (unfold class_of; by rewrite Hcl).
  assert (matching self' (class_of self' (rq_group request)) request = m) as Em.
  { rewrite Ecl. unfold matching, m. by rewrite Hr. }
  assert (∀ r k, (r, k) ∈ m → r ∈ rules self ∧ burst (rate r) < 2 ^ 32) as Hin.
  { intros r k Hm. assert (r ∈ rules self) as Hrs by (by eapply matching_within). split; [done|].
    pose proof (in_rate_wf _ (lw_rates _ Hwf) r Hrs) as (_ & _ & ?). lia. }
  assert (find_map (refusal (buckets self) bytes now) m = None ↔
          forallb (fun r => whole_cost bytes r <=? budget r) (m.*1) = true) as Hiff.
  { rewrite find_map_None, forallb_forall. split.
    - intros Hnone r Hx. apply list_elem_of_In, list_elem_of_fmap in Hx as ([r' k] & -> & Hm). cbn.
      specialize (Hnone _ Hm). unfold refusal in Hnone. cbn [fst snd] in Hnone.
      destruct (Hbud r' k Hm) as [Hbr Htok]. unfold bucket_at in Htok. rewrite Htok, cost_whole, flt_exact in Hnone;
        [|destruct (Hin r' k Hm); lia|done]. apply Z.leb_le. destruct (Z.ltb_spec (budget r') (whole_cost bytes r')); [done|lia].
    - intros Hall [r k] Hm. unfold refusal. cbn [fst snd]. destruct (Hbud r k Hm) as [Hbr Htok].
      unfold bucket_at in Htok. rewrite Htok, cost_whole, flt_exact; [|destruct (Hin r k Hm); lia|done].
      assert (whole_cost bytes r <=? budget r = true) as Hle%Z.leb_le.
      { apply Hall, list_elem_of_In, list_elem_of_fmap. by exists (r, k). }
      by destruct (Z.ltb_spec (budget r) (whole_cost bytes r)); [lia|]. }
  rewrite fmap_cons. cbn [compose]. destruct (Z.eqb_spec (class_of self (rq_group request)) LP2P_CLASS_BLOCKED); [done|].
  rewrite <- Em in Hbud.
  destruct (find_map (refusal (buckets self) bytes now) m) as [scope|]; subst answer.
  - destruct (forallb _ (m.*1)); [by destruct Hiff as [_ Hiff]; discriminate Hiff|].
    cbn [is_err negb compose]. f_equal. rewrite <- Em. apply IH; [done|by rewrite Ecl|].
    intros r k Hm. destruct (Hbud r k Hm) as [? <-]. split; [done|]. rewrite Em in Hm.
    rewrite Hlev by (by eapply Hin). by rewrite decide_False by (by intros [? _]).
  - destruct Hiff as [Hiff _]. specialize (Hiff eq_refl). rewrite Hiff. cbn [is_err negb]. f_equal. rewrite <- Em. apply IH; [done|by rewrite Ecl|].
    intros r k Hm. destruct (Hbud r k Hm) as [Hbr Htok]. rewrite Em in Hm.
    rewrite Hlev by (by eapply Hin). rewrite decide_True by done.
    assert (whole_cost bytes r ≤ budget r) as Hle.
    { rewrite forallb_forall in Hiff. apply Z.leb_le, Hiff, list_elem_of_In, list_elem_of_fmap. by exists (r, k). }
    pose proof (Hcost r). destruct (Hin r k Hm) as [_ Hlt]. split; [lia|].
    unfold charged. cbn [tokens]. rewrite Htok, cost_whole, fsub_exact, fmin_exact by lia. f_equal. lia.
Qed.

(** C29: a limit admits exactly its burst. Requests of one peer at one instant,
    of any sizes, meet the limits that match them as whole-number budgets that
    start at the burst: one is admitted exactly when every budget still covers
    its cost -- one, or its size in bytes -- and then each budget is less by that
    cost. No rounding of the floating-point buckets ever shows. *)
Theorem burst_exact request now sizes self :
  limits_wf self → class_of self (rq_group request) ≠ LP2P_CLASS_BLOCKED →
  Forall (fun b => 0 ≤ b < 2 ^ 53) sizes →
  let m := matching self (class_of self (rq_group request)) request in
  (∀ r k, (r, k) ∈ m → buckets self !! (id r, k) = None) →
  (negb ∘ is_err) <$> check_all request now sizes self =
  budgets (m.*1) (fun r => burst (rate r)) sizes.
Proof.
  intros Hwf Hc Hs m Hnew. apply check_all_budgets; try done. intros r k Hm.
  assert (rate_wf (rate r)) as Hr.
  { eapply in_rate_wf; [by apply lw_rates|]. by eapply matching_within. }
  split; [destruct Hr as (_ & _ & ?); lia|]. unfold bucket_at, bucket_in.
  rewrite (Hnew r k Hm). cbn [default]. by rewrite refill_fresh.
Qed.

(** *** Prefixes *)

Lemma prefix_bytes ip :
  arr (prefix ip) = match ip with
                    | V4 v4 => x04 :: take 3 (arr v4) ++ repeat x00 4
                    | V6 v6 => x06 :: take 7 (arr v6)
                    end.
Proof.
  unfold prefix. set (l := match ip with V4 v4 => _ | V6 v6 => _ end).
  assert (is_Some (to_array 8 l)) as [a Ha].
  { apply to_array_is_Some. subst l. destruct ip as [v|v]; cbn; rewrite ?length_app, length_take, array_length; done. }
  rewrite Ha. cbn. by apply to_array_Some in Ha.
Qed.

(** Which requests share a bucket of the prefix scope: exactly those from
    one IPv4 /24 or one IPv6 /56, never one of each; and a relayed request,
    which has no address of its own, meets no limit of that scope. *)
Theorem prefix_scope ip ip' request self class r k :
  (prefix ip = prefix ip' ↔
   match ip, ip' with
   | V4 a, V4 b => take 3 (arr a) = take 3 (arr b)
   | V6 a, V6 b => take 7 (arr a) = take 7 (arr b)
   | _, _ => False
   end) ∧
  ((r, k) ∈ matching self class request → ri_scope (id r) = LP2P_SCOPE_IP_PREFIX →
   ∃ ip, rq_ip request = Some ip ∧ k = Prefix (prefix ip)).
Proof.
  split.
  - split.
    + intros H%(f_equal arr). rewrite !prefix_bytes in H. destruct ip, ip'; try done.
      * injection H as H. by apply app_inv_tail in H.
      * by injection H as H.
    + intros H. apply array_eq. rewrite !prefix_bytes. by destruct ip, ip'; rewrite ?H.
  - intros (r' & _ & Hk)%list_elem_of_omap Hs. apply bind_Some in Hk as (k' & Hk & [= -> ->]).
    unfold rule_key in Hk. rewrite Hs in Hk. cbn in Hk. apply bind_Some in Hk as (ip0 & Hip & [= <-]). eauto.
Qed.

(** *** Reports *)

(** How many of them are true. *)
Fixpoint trues (l : list bool) : Z :=
  match l with [] => 0 | b :: l => (if b then 1 else 0) + trues l end.

Fixpoint reports (times : list Instant) (self : Limits) : list bool :=
  match times with
  | [] => []
  | now :: times => let '(b, self) := may_report now self in b :: reports times self
  end.

Lemma reports_in_window times start self n :
  events_window self = Some start → events_in_window self = n → 0 ≤ n → n + blen times < 2 ^ 32 →
  Forall (fun t => t < start + nanos_per_sec) times →
  trues (reports times self) =
  Z.min (blen times) (Z.max 0 (EVENTS_PER_SECOND - n)).
Proof.
  intros Hw Hn Hn0 Hlen Ht. revert self n Hw Hn Hn0 Hlen.
  induction Ht as [|t times Ht Hts IH]; intros self n Hw Hn Hn0 Hlen.
  { unfold blen. cbn. lia. }
  cbn [reports]. unfold may_report. rewrite Hw. unfold saturating_duration_since.
  destruct (Z.ltb_spec (Z.max 0 (t - start)) nanos_per_sec) as [_|H]; [|unfold nanos_per_sec in *; lia].
  cbn [events_in_window upd]. cbn. rewrite Hn.
  assert (blen (t :: times) = blen times + 1) as El by (unfold blen; cbn [length]; lia). rewrite El in Hlen |- *.
  pose proof (blen_nonneg times).
  assert (as_u32 (n + 1) = n + 1) as -> by (unfold as_u32; apply wrap_small; lia).
  cbn [trues]. specialize (IH (mk_limits (classes self) (rules self) (buckets self) (events_window self) (n + 1)) (n + 1)).
  cbn in IH. specialize (IH Hw eq_refl ltac:(lia) ltac:(lia)). unfold EVENTS_PER_SECOND in *.
  destruct (Z.leb_spec (n + 1) 10); lia.
Qed.

(** Of the refusals within the second after the first one of a window, at
    most ten are reported, and the first ten always are. *)
Theorem reports_bounded start times self :
  (∀ w, events_window self = Some w → w + nanos_per_sec ≤ start) →
  Forall (fun t => start ≤ t < start + nanos_per_sec) times → blen times < 2 ^ 32 - 1 →
  trues (reports (start :: times) self) =
  Z.min (blen times + 1) EVENTS_PER_SECOND.
Proof.
  intros Hw Ht Hlen. cbn [reports].
  assert (may_report start self =
    (true, mk_limits (classes self) (rules self) (buckets self) (Some start) 1)) as ->.
  { unfold may_report. destruct (events_window self) as [w|] eqn:E; [|done]. specialize (Hw w eq_refl).
    unfold saturating_duration_since. by destruct (Z.ltb_spec (Z.max 0 (start - w)) nanos_per_sec); [lia|]. }
  cbn [trues].
  rewrite (reports_in_window times start _ 1); [|done|done|lia|lia|].
  - unfold EVENTS_PER_SECOND. pose proof (blen_nonneg times). lia.
  - eapply Forall_impl; [done|]. cbn. lia.
Qed.

(** *** Announcements per source *)

(** What the bucket of a peer holds at [now]. *)
Definition source_at (self : SourceRate) (peer : PeerId) (now : Instant) : f64 :=
  fmin (source_level self (default (mk_bucket (sr_burst self) now) (sr_buckets self !! peer)) now)
       (sr_burst self).

(** A rate that is finite and a burst that is a whole number, as
    [new_source_rate] makes them, and buckets that are not negative zeros. *)
Record source_wf (self : SourceRate) (b : Z) : Prop := mk_source_wf {
  sw_rate : fmul (S754_zero false) (sr_per_second self) = S754_zero false;
  sw_fpos : fpos (sr_per_second self);
  sw_burst : sr_burst self = f64_of b ∧ 0 < b < 2 ^ 32;
  sw_buckets : map_Forall (fun _ b => bucket_wf b) (sr_buckets self);
}.

Fixpoint allow_all (peer : PeerId) (now : Instant) (n : nat) (self : SourceRate) : list bool * SourceRate :=
  match n with
  | O => ([], self)
  | S n => let '(b, self) := allow peer now self in
           let '(l, self) := allow_all peer now n self in (b :: l, self)
  end.

Lemma source_level_now self b now :
  fmul (S754_zero false) (sr_per_second self) = S754_zero false → tokens b ≠ neg_zero → updated b = now →
  source_level self b now = tokens b.
Proof.
  intros Hr Hz Hu. unfold source_level, saturating_duration_since. rewrite Hu, Z.sub_diag.
  change (Z.max 0 0) with 0. by rewrite as_secs_f64_zero, Hr, fadd_zero_r.
Qed.

Lemma source_at_wf self b peer now :
  source_wf self b → bucket_wf (mk_bucket (source_at self peer now) now).
Proof.
  intros [Hr Hp [Hb Hb2] Hbs]. assert (bucket_wf (mk_bucket (sr_burst self) now)) as [Hfw Hfz].
  { rewrite Hb. split; cbn; [apply f64_of_wf|]. apply fpos_not_neg_zero, f64_of_fpos. lia. }
  assert (bucket_wf (default (mk_bucket (sr_burst self) now) (sr_buckets self !! peer))) as [Hw Hz].
  { destruct (sr_buckets self !! peer) as [b0|] eqn:E; [by apply (Hbs _ _ E)|done]. }
  unfold source_at, source_level. split; cbn [tokens].
  - apply fmin_wf; [|done]. apply fadd_wf; [done|apply fmul_wf].
  - apply fmin_not_neg_zero; [|done]. apply fadd_not_neg_zero; [done|apply fmul_wf|].
    apply fpos_not_neg_zero, fmul_fpos; [|done]. apply as_secs_f64_fpos. unfold saturating_duration_since. lia.
Qed.

(** Forgetting full buckets is invisible here as well. *)
Definition source_swept (now : Instant) (self : SourceRate) : SourceRate :=
  if MAX_BUCKETS <? Z.of_nat (size (sr_buckets self)) then
    self <| sr_buckets ::= filter (fun e : PeerId * Bucket =>
      flt (source_level self e.2 now) (sr_burst self) = true) |>
  else self.

Lemma source_swept_spec self b now :
  source_wf self b →
  source_wf (source_swept now self) b ∧ sr_burst (source_swept now self) = sr_burst self ∧
  (∀ p, source_at (source_swept now self) p now = source_at self p now).
Proof.
  intros Hwf. unfold source_swept. destruct (MAX_BUCKETS <? _); [|done].
  pose proof Hwf as [Hr Hp [Hb Hb2] Hbs]. split_and!; [| done |].
  - split; cbn; try done. intros p b0 H. apply map_lookup_filter_Some in H as [H _]. by apply (Hbs _ _ H).
  - intros p. unfold source_at. cbn. destruct (sr_buckets self !! p) as [b0|] eqn:E.
    + destruct (flt (source_level self b0 now) (sr_burst self)) eqn:Hf.
      * erewrite map_lookup_filter_Some_2; [done|done|done].
      * rewrite map_lookup_filter_None_2 by (right; intros b1 H1; cbn; congruence). cbn [from_option Datatypes.id].
        assert (fmin (source_level self b0 now) (sr_burst self) = sr_burst self) as ->.
        { rewrite Hb in Hf |- *. apply fmin_full; [lia|]. unfold fmin.
          destruct (is_nan _); [apply flt_irrefl|]. destruct (is_nan (f64_of b)); [done|].
          destruct (flt (f64_of b) _) eqn:?; [apply flt_irrefl|done]. }
        change (source_level (mk_source_rate ?a ?b ?c) ?d ?e) with (source_level self d e).
        rewrite source_level_now; [by rewrite fmin_same|done| |done]. cbn. rewrite Hb.
        apply fpos_not_neg_zero, f64_of_fpos. lia.
    + rewrite map_lookup_filter_None_2 by (by left). done.
Qed.

Lemma allow_spec peer now self b :
  source_wf self b →
  let '(ok, self') := allow peer now self in
  ok = negb (flt (source_at self peer now) (f64_of 1)) ∧ source_wf self' b ∧
  (∀ p, source_at self' p now =
     if decide (p = peer ∧ ok = true) then fmin (fsub (source_at self peer now) (f64_of 1)) (f64_of b)
     else source_at self p now).
Proof.
  intros Hwf. unfold allow. fold (source_swept now self).
  destruct (source_swept_spec self b now Hwf) as (Hwf1 & Hb1 & Hat).
  set (self1 := source_swept now self) in *. fold (source_at self1 peer now). rewrite Hat.
  pose proof (source_at_wf self b peer now Hwf) as [Hlw Hlz]. cbn [tokens] in Hlw, Hlz.
  pose proof Hwf1 as [Hr Hp [Hb Hb2] Hbs].
  assert (∀ t p, bucket_wf (mk_bucket t now) →
    source_at (self1 <| sr_buckets ::= insert peer (mk_bucket t now) |>) p now =
    if decide (p = peer) then fmin t (f64_of b) else source_at self p now) as Hins.
  { intros t p [_ Ht]. rewrite <- Hat. unfold source_at at 1. cbn [sr_buckets sr_burst upd].
    case_decide as Hpp; cbn.
    - subst p. rewrite lookup_insert_eq. cbn [from_option Datatypes.id]. rewrite <- Hb.
      change (source_level (mk_source_rate ?a ?b ?c) ?d ?e) with (source_level self1 d e).
      by rewrite source_level_now.
    - by rewrite lookup_insert_ne by done. }
  assert (∀ t, bucket_wf (mk_bucket t now) →
    source_wf (self1 <| sr_buckets ::= insert peer (mk_bucket t now) |>) b) as Hwf'.
  { intros t Ht. split; cbn; try done. by apply map_Forall_insert_2. }
  assert (source_at self peer now = fmin (source_at self peer now) (f64_of b)) as Hcut.
  { rewrite <- Hat. unfold source_at. rewrite Hb, fmin_idem; [done|]. apply f64_of_not_nan. lia. }
  destruct (flt (source_at self peer now) (f64_of 1)) eqn:Hf.
  - split_and!; [done|by apply Hwf'|]. intros p. rewrite Hins by done.
    rewrite (decide_False (P := p = peer ∧ false = true)) by (by intros [_ ?]). case_decide; [|done]. subst. done.
  - assert (bucket_wf (mk_bucket (fsub (source_at self peer now) (f64_of 1)) now)) as Hs.
    { split; cbn; [apply fsub_wf|apply fsub_not_neg_zero]; try done; apply f64_of_wf. }
    split_and!; [done|by apply Hwf'|]. intros p. rewrite Hins by done.
    destruct (decide (p = peer)); [rewrite decide_True by done|rewrite decide_False by (by intros [? _])]; done.
Qed.

Lemma allow_all_spec peer now n self b k :
  source_wf self b → 0 ≤ k ≤ b → source_at self peer now = f64_of k →
  let '(l, self') := allow_all peer now n self in
  l = replicate (min n (Z.to_nat k)) true ++ replicate (n - Z.to_nat k) false ∧
  (∀ p, p ≠ peer → source_at self' p now = source_at self p now).
Proof.
  revert self k. induction n as [|n IH]; intros self k Hwf Hk Hat; [done|]. cbn [allow_all].
  pose proof (allow_spec peer now self b Hwf) as H. destruct (allow peer now self) as [ok self'].
  destruct H as (Hok & Hwf' & Hnew). pose proof Hwf as [_ _ [_ Hb] _].
  rewrite Hat, flt_exact in Hok by lia. set (k' := if ok then k - 1 else k).
  assert (source_at self' peer now = f64_of k' ∧ 0 ≤ k' ≤ b) as [Hat' Hk'].
  { rewrite Hnew. subst k' ok. destruct (Z.ltb_spec k 1); cbn [negb].
    - rewrite decide_False by (by intros [_ ?]). done.
    - rewrite decide_True by done. rewrite Hat, fsub_exact, fmin_exact by lia. split; [f_equal|]; lia. }
  specialize (IH self' k' Hwf' Hk' Hat'). destruct (allow_all peer now n self') as [l self''].
  destruct IH as [-> Hoth]. split.
  - subst k' ok. destruct (Z.ltb_spec k 1); cbn [negb].
    + assert (k = 0) as -> by lia. cbn. by rewrite Nat.min_0_r, Nat.sub_0_r.
    + replace (Z.to_nat k) with (S (Z.to_nat (k - 1))) by lia. done.
  - intros p Hp. rewrite Hoth by done. rewrite Hnew, decide_False; [done|]. by intros [? _].
Qed.

(** Of the announcements one source sends at one instant, exactly the first
    [burst] are let through when it was not heard before, and what it sends
    changes the allowance of no other source. *)
Theorem source_burst peer now n self b :
  source_wf self b → sr_buckets self !! peer = None →
  let '(l, self') := allow_all peer now n self in
  l = replicate (min n (Z.to_nat b)) true ++ replicate (n - Z.to_nat b) false ∧
  (∀ p, p ≠ peer → source_at self' p now = source_at self p now).
Proof.
  intros Hwf Hnew. pose proof Hwf as [Hr Hp [Hb Hb2] Hbs]. apply (allow_all_spec _ _ _ _ b); [done|lia|].
  unfold source_at. rewrite Hnew. cbn [from_option Datatypes.id]. rewrite source_level_now; [|done| |done].
  - cbn. by rewrite fmin_same.
  - cbn. rewrite Hb. apply fpos_not_neg_zero, f64_of_fpos. lia.
Qed.

(** Each second may bring a window of its own: ten reports at its end and ten
    more at the start of the next are twenty within a second. *)
Lemma twenty_reports_in_a_second :
  trues (reports (0 :: replicate 9 999999999 ++ replicate 10 1000000000) default_limits) = 20.
Proof. vm_compute. reflexivity. Qed.

End limits.

(** ** Witnesses *)

From S2P Require Import Toy.

Section witnesses.

Definition example_group : lp2p_key := key_byte x01.
Definition example_peer (b : byte) : PeerId := Some (key_byte b).
Definition example_ip (b : byte) : IpAddr := V4 (default (array_fill 4 x00) (to_array 4 [x0a; x00; b; x01])).

Definition example_request (ip : option IpAddr) : Request := mk_request example_group (example_peer x02) ip 0.

(** A node's own limit of two messages, and one of 4000 bytes per prefix. *)
Definition example_lops : list lop :=
  [SetLimit 0 LP2P_SCOPE_PEER LP2P_PROTOCOL_ANY Messages (mk_rate 1 1000 2);
   SetLimit 0 LP2P_SCOPE_IP_PREFIX 0 Bytes (mk_rate 1000 1000 4000)].

Definition example_limits : Limits := foldl (fun self op => lexec op self) default_limits example_lops.

Lemma example_lops_wf : Forall lop_wf example_lops.
Proof. repeat (apply Forall_cons_2 || apply Forall_nil_2); cbn; lia. Qed.

Lemma limits_invariant_witness : limits_wf example_limits ∧ length (rules example_limits) = 2%nat.
Proof. split; [apply (limits_invariant example_lops example_lops_wf) | vm_compute; reflexivity]. Defined.

Lemma check_spec_witness :
  (check (example_request (Some (example_ip x00))) 5000 7 example_limits).1 = Err 1.
Proof.
  pose proof (check_spec (example_request (Some (example_ip x00))) 5000 7 example_limits
    (proj1 limits_invariant_witness)) as H.
  destruct (check (example_request (Some (example_ip x00))) 5000 7 example_limits) as [a l].
  destruct H as (_ & -> & _); [vm_compute; reflexivity | vm_compute; discriminate].
Defined.

Lemma burst_exact_witness :
  (negb ∘ is_err) <$> check_all (example_request (Some (example_ip x00))) 7 [3000; 2000; 1000; 0] example_limits =
  [true; false; true; false].
Proof.
  rewrite (burst_exact (example_request (Some (example_ip x00))) 7 [3000; 2000; 1000; 0] example_limits
    (proj1 limits_invariant_witness)).
  - vm_compute. reflexivity.
  - vm_compute. discriminate.
  - repeat (apply Forall_cons_2 || apply Forall_nil_2); lia.
  - intros r k _. reflexivity.
Defined.

Lemma prefix_scope_witness :
  prefix (example_ip x00) ≠ prefix (example_ip x01) ∧ length (matching example_limits 0 (example_request None)) = 1%nat.
Proof.
  split; [|vm_compute; reflexivity]. intros H.
  pose proof (proj1 (proj1 (prefix_scope (example_ip x00) (example_ip x01) (example_request None) example_limits 0
    (mk_rule (mk_rule_id 0 0 0 Messages) (mk_rate 1 1 1)) Global)) H) as E.
  discriminate E.
Defined.

Lemma reports_bounded_witness : trues (reports (5 :: replicate 49 6) default_limits) = 10.
Proof.
  rewrite (reports_bounded 5 (replicate 49 6) default_limits).
  - reflexivity.
  - intros w H. discriminate.
  - apply Forall_replicate. unfold nanos_per_sec. lia.
  - vm_compute. reflexivity.
Defined.

(** Three announcements, one every ten seconds: what the node configures. *)
Definition example_source : SourceRate := new_source_rate (10 * nanos_per_sec) 3.

Lemma source_burst_witness :
  source_wf example_source 3 ∧ (allow_all (example_peer x02) 7 5 example_source).1 = [true; true; true; false; false].
Proof.
  assert (source_wf example_source 3) as Hwf.
  { split; [vm_compute; reflexivity | vm_compute; reflexivity | split; [reflexivity|lia] |].
    intros p b H. vm_compute in H. discriminate. }
  split; [exact Hwf|].
  pose proof (source_burst (example_peer x02) 7 5 example_source 3 Hwf eq_refl) as H.
  destruct (allow_all (example_peer x02) 7 5 example_source) as [l s]. destruct H as [-> _]. reflexivity.
Defined.

End witnesses.
