(* ===== verification/Multiaddr.v ===== *)
(** * Multiaddr: addresses, and the functions of [src/node.rs] on them

    The multiaddr library is the class [Multiaddrs]: a type of addresses seen as
    lists of protocols. [is_relayed], [without_peer], [ip_of], [is_loopback] and
    [is_unspecified] are the node's. *)

From S2P Require Import Prelude Abi Keys Limits.

Section protocols.
Context {I : Identity}.

(** [multiaddr::Protocol]: the ones the node looks at, and any other by its
    code and its encoded argument. *)
Inductive Protocol :=
| Ip4 (ip : array 4)
| Ip6 (ip : array 16)
| P2p (peer : PeerId)
| P2pCircuit
| Other (code : Z) (argument : bytes).

#[export] Instance Protocol_eq_dec : EqDecision Protocol.
Proof. solve_decision. Defined.

#[export] Program Instance Protocol_countable : Countable Protocol :=
  inj_countable'
    (fun p => match p with
      | Ip4 ip => inl (inl ip) | Ip6 ip => inl (inr ip) | P2p q => inr (inl q)
      | P2pCircuit => inr (inr (inl ())) | Other c a => inr (inr (inr (c, a))) end)
    (fun s => match s with
      | inl (inl ip) => Ip4 ip | inl (inr ip) => Ip6 ip | inr (inl q) => P2p q
      | inr (inr (inl _)) => P2pCircuit | inr (inr (inr (c, a))) => Other c a end) _.
Next Obligation. by intros []. Qed.

End protocols.

(** What the multiaddr library provides. *)
Class Multiaddrs (I : Identity) := {
  Multiaddr : Type;
  Multiaddr_eq_dec :: EqDecision Multiaddr;
  Multiaddr_countable :: Countable Multiaddr;
  (** [Multiaddr::iter], [FromIterator::from_iter] and [Multiaddr::with]. *)
  iter : Multiaddr → list Protocol;
  collect : list Protocol → Multiaddr;
  with_protocol : Multiaddr → Protocol → Multiaddr;
  (** [Display] and [FromStr]. *)
  to_string : Multiaddr → bytes;
  parse_multiaddr : bytes → option Multiaddr;
}.

Class MultiaddrLaws (I : Identity) (MA : Multiaddrs I) : Prop := {
  iter_collect l : iter (collect l) = l;
  iter_with a p : iter (with_protocol a p) = iter a ++ [p];
}.

Section functions.
Context {I : Identity} {MA : Multiaddrs I}.

Definition is_circuit (p : Protocol) : bool := match p with P2pCircuit => true | _ => false end.

Definition is_relayed (address : Multiaddr) : bool := existsb is_circuit (iter address).

Definition is_p2p (p : Protocol) : bool := match p with P2p _ => true | _ => false end.

Definition without_peer (address : Multiaddr) : Multiaddr :=
  collect (List.filter (fun p => negb (is_p2p p)) (iter address)).

Definition ip_of (address : Multiaddr) : option IpAddr :=
  find_map (fun p => match p with
                     | Ip4 ip => Some (V4 ip)
                     | Ip6 ip => Some (V6 ip)
                     | _ => None
                     end) (iter address).

(** [Ipv4Addr::is_loopback] is 127.0.0.0/8, [Ipv6Addr::is_loopback] is ::1. *)
Definition is_loopback (address : Multiaddr) : bool :=
  match iter address with
  | Ip4 ip :: _ => bool_decide (head (arr ip) = Some x7f)
  | Ip6 ip :: _ => bool_decide (arr ip = repeat x00 15 ++ [x01])
  | _ => false
  end.

Definition is_unspecified (address : Multiaddr) : bool :=
  match iter address with
  | Ip4 ip :: _ => bool_decide (arr ip = repeat x00 4)
  | Ip6 ip :: _ => bool_decide (arr ip = repeat x00 16)
  | _ => false
  end.

(** ** Lemmas *)

Context {MAL : MultiaddrLaws I MA}.

Lemma is_relayed_without_peer a : is_relayed (without_peer a) = is_relayed a.
Proof.
  unfold is_relayed, without_peer. rewrite iter_collect.
  induction (iter a) as [|p l IH]; [done|]. cbn. destruct p; cbn; by rewrite ?IH.
Qed.

Lemma is_relayed_with a p : is_relayed (with_protocol a p) = is_relayed a || is_circuit p.
Proof. unfold is_relayed. rewrite iter_with, existsb_app. cbn. by rewrite orb_false_r. Qed.

End functions.

(** A concrete multiaddr library for examples: an address is its list of
    protocols. *)
#[export] Instance ToyMultiaddrs (I : Identity) : Multiaddrs I := {|
  Multiaddr := list Protocol;
  iter a := a;
  collect l := l;
  with_protocol a p := a ++ [p];
  to_string a := concat ((fun p => match p with
    | Ip4 ip => x04 :: arr ip | Ip6 ip => x06 :: arr ip | P2p _ => [x70] | P2pCircuit => [x63]
    | Other _ d => x6f :: d end) <$> a);
  parse_multiaddr l := match l with x04 :: ip => (fun ip => [Ip4 ip]) <$> to_array 4 ip | _ => None end;
|}.

#[export] Instance ToyMultiaddrLaws (I : Identity) : MultiaddrLaws I (ToyMultiaddrs I).
Proof. by split. Qed.
