(* ===== verification/AddressBook.v ===== *)
(** * AddressBook: [src/address_book.rs]

    A bounded map from peers to addresses that forgets the oldest peer, and the
    oldest address of a peer. Its contract is the association list [entries]
    with the operation [remember]; the theorem is that the two-part
    representation of the code implements it. *)

From S2P Require Import Prelude Abi Keys Toy Limits Multiaddr.

Definition MAX_PEERS : Z := 4096.
Definition MAX_ADDRESSES_PER_PEER : Z := 8.

Section book.
Context {I : Identity} {MA : Multiaddrs I}.

Record AddressBook := mk_address_book {
  addresses_of : gmap PeerId (list Multiaddr);
  order : list PeerId;
}.

#[export] Instance eta_AddressBook : Eta AddressBook := {| eta b :=
  mk_address_book (addresses_of b) (order b) |}.

Definition default_book : AddressBook := mk_address_book ∅ [].

(** [list.remove(0)] when the list is full, then [push]. *)
Definition push_address (address : Multiaddr) (l : list Multiaddr) : list Multiaddr :=
  if bool_decide (address ∈ l) then l
  else (if blen l =? MAX_ADDRESSES_PER_PEER then drop 1 l else l) ++ [address].

Definition add (peer : PeerId) (address : Multiaddr) (self : AddressBook) : AddressBook :=
  match addresses_of self !! peer with
  | Some l => self <| addresses_of ::= insert peer (push_address address l) |>
  | None =>
      let self :=
        if Z.of_nat (size (addresses_of self)) =? MAX_PEERS then
          match order self with
          | oldest :: rest => self <| addresses_of ::= delete oldest |> <| order := rest |>
          | [] => self
          end
        else self in
      self <| addresses_of ::= insert peer [address] |> <| order ::= fun l => l ++ [peer] |>
  end.

Definition addresses (self : AddressBook) (peer : PeerId) : list Multiaddr :=
  default [] (addresses_of self !! peer).

Definition knows (self : AddressBook) (peer : PeerId) : bool :=
  bool_decide (is_Some (addresses_of self !! peer)).

(** What the behaviour offers an outbound dial. *)
Definition handle_pending_outbound_connection (maybe_peer : option PeerId) (self : AddressBook) :
    list Multiaddr :=
  default [] (peer ← maybe_peer; addresses_of self !! peer).

(** The only event of the swarm the behaviour looks at. *)
Inductive FromSwarm := NewExternalAddrOfPeer (peer : PeerId) (address : Multiaddr) | OtherFromSwarm.

Definition on_swarm_event (event : FromSwarm) (self : AddressBook) : AddressBook :=
  match event with
  | NewExternalAddrOfPeer peer address => add peer address self
  | OtherFromSwarm => self
  end.

(** ** The contract *)

Definition entries : Type := list (PeerId * list Multiaddr).

(** A peer that is known gets one more address, in place; a new one goes to the
    end, and pushes the first one out when there are 4096. *)
Definition remember (peer : PeerId) (address : Multiaddr) (l : entries) : entries :=
  if bool_decide (peer ∈ l.*1) then
    (fun e => if decide (e.1 = peer) then (e.1, push_address address e.2) else e) <$> l
  else (if blen l =? MAX_PEERS then drop 1 l else l) ++ [(peer, [address])].

(** The entries a book stands for. *)
Definition view (self : AddressBook) : entries :=
  (fun p => (p, addresses self p)) <$> order self.

Definition list_wf (l : list Multiaddr) : Prop :=
  NoDup l ∧ 1 ≤ blen l ≤ MAX_ADDRESSES_PER_PEER.

Record book_wf (self : AddressBook) : Prop := mk_book_wf {
  bw_order : NoDup (order self);
  bw_dom : ∀ p, p ∈ order self ↔ is_Some (addresses_of self !! p);
  bw_bound : blen (order self) ≤ MAX_PEERS;
  bw_lists : map_Forall (fun _ l => list_wf l) (addresses_of self);
}.

(** ** Lemmas *)

Lemma push_address_wf a l : list_wf l → list_wf (push_address a l).
Proof.
  intros [Hnd Hl]. unfold push_address. case_bool_decide as Ha; [done|].
  unfold list_wf, blen, MAX_ADDRESSES_PER_PEER in *. destruct (Z.eqb_spec (Z.of_nat (length l)) 8).
  - split.
    + apply NoDup_app. split_and!; [| |apply NoDup_singleton].
      * destruct l; [done|]. by apply NoDup_cons in Hnd as [_ ?].
      * intros x Hx ->%list_elem_of_singleton. apply Ha. destruct l; [done|]. by apply list_elem_of_further.
    + rewrite length_app, length_drop. cbn. lia.
  - split.
    + apply NoDup_app. split_and!; [done| |apply NoDup_singleton]. by intros x Hx ->%list_elem_of_singleton.
    + rewrite length_app. cbn. lia.
Qed.

Lemma size_order self : book_wf self → size (addresses_of self) = length (order self).
Proof.
  intros [Hnd Hdom _ _]. rewrite <- size_dom. rewrite <- (size_list_to_set (C := gset PeerId) _ Hnd).
  f_equal. apply set_eq. intros p. by rewrite elem_of_dom, elem_of_list_to_set, Hdom.
Qed.

Lemma view_keys self : (view self).*1 = order self.
Proof. unfold view. rewrite <- list_fmap_compose. apply list_fmap_id. Qed.

Lemma default_book_wf : book_wf default_book.
Proof.
  split; cbn; [constructor| |done|done]. intros p. rewrite elem_of_nil. split; [done|].
  intros [l H]. by rewrite lookup_empty in H.
Qed.

Lemma add_spec peer address self :
  book_wf self → book_wf (add peer address self) ∧ view (add peer address self) = remember peer address (view self).
Proof.
  intros Hwf. pose proof (size_order self Hwf) as Hsize. pose proof Hwf as [Hnd Hdom Hbound Hlists].
  unfold add, remember. rewrite view_keys. destruct (addresses_of self !! peer) as [l|] eqn:E.
  - assert (peer ∈ order self) as Hin by (by apply Hdom; eexists).
    rewrite bool_decide_true by done. split.
    + split; cbn; try done.
      * intros p. rewrite Hdom, lookup_insert_is_Some. destruct (decide (peer = p)) as [<-|]; [|naive_solver].
        rewrite E. naive_solver.
      * apply map_Forall_insert_2; [|done]. by apply push_address_wf, (Hlists peer).
    + unfold view. cbn. rewrite <- list_fmap_compose. apply list_fmap_ext. intros i p Hp. cbn.
      unfold addresses. cbn. case_decide as Hpp.
      * subst p. by rewrite lookup_insert_eq, E.
      * by rewrite lookup_insert_ne by done.
  - assert (peer ∉ order self) as Hin by (rewrite Hdom, E; by intros [? ?]).
    rewrite bool_decide_false by done.
    assert (blen (view self) = blen (order self)) as -> by (unfold blen, view; by rewrite length_fmap).
    rewrite Hsize. change (Z.of_nat (length (order self))) with (blen (order self)).
    set (self1 := if blen (order self) =? MAX_PEERS then _ else self).
    assert (book_wf self1 ∧ view self1 = (if blen (order self) =? MAX_PEERS then drop 1 (view self) else view self) ∧
      peer ∉ order self1 ∧ blen (order self1) < MAX_PEERS) as ([Hnd1 Hdom1 _ Hl1] & Hview1 & Hin1 & Hb1).
    { subst self1. destruct (Z.eqb_spec (blen (order self)) MAX_PEERS) as [Hfull|]; [|split_and!; [done..|lia]].
      destruct (order self) as [|oldest rest] eqn:Eo; [done|]. apply NoDup_cons in Hnd as [Hold Hrest].
      apply not_elem_of_cons in Hin as [Hne Hin]. split_and!.
      - split; cbn; [done| |unfold blen in *; cbn in Hbound; lia|by apply map_Forall_delete].
        intros p. rewrite lookup_delete_is_Some, <- Hdom, elem_of_cons. set_solver.
      - unfold view. cbn. rewrite Eo. cbn. rewrite drop_0. apply list_fmap_ext. intros i p Hp%list_elem_of_lookup_2.
        unfold addresses. cbn. rewrite lookup_delete_ne; [done|]. intros ->. done.
      - done.
      - unfold blen in *. cbn in Hfull |- *. lia. }
    split.
    + split; cbn.
      * apply NoDup_app. split_and!; [done| |apply NoDup_singleton]. by intros x Hx ->%list_elem_of_singleton.
      * intros p. rewrite elem_of_app, list_elem_of_singleton, Hdom1, lookup_insert_is_Some.
        destruct (decide (peer = p)); naive_solver.
      * unfold blen, MAX_PEERS in *. rewrite length_app. cbn. lia.
      * apply map_Forall_insert_2; [|done]. split; [apply NoDup_singleton|]. unfold blen, MAX_ADDRESSES_PER_PEER. cbn. lia.
    + transitivity (view self1 ++ [(peer, [address])]); [|by rewrite Hview1]. unfold view. cbn. rewrite fmap_app. cbn. f_equal.
      * apply list_fmap_ext. intros i p Hp%list_elem_of_lookup_2. unfold addresses. cbn.
        rewrite lookup_insert_ne; [done|]. by intros ->.
      * unfold addresses. cbn. by rewrite lookup_insert_eq.
Qed.

Lemma adds_spec l self :
  book_wf self →
  let self' := foldl (fun b e => add e.1 e.2 b) self l in
  book_wf self' ∧ view self' = foldl (fun v e => remember e.1 e.2 v) (view self) l.
Proof.
  revert self. induction l as [|[p a] l IH]; intros self Hwf; [done|]. cbn.
  destruct (add_spec p a self Hwf) as [Hwf' <-]. by apply IH.
Qed.

(** ** Properties *)

(** The addresses an entry list has for a peer. *)
Definition lookup_entry (peer : PeerId) (l : entries) : option (list Multiaddr) :=
  find_map (fun e => if decide (e.1 = peer) then Some e.2 else None) l.

Lemma lookup_view self peer : book_wf self → addresses_of self !! peer = lookup_entry peer (view self).
Proof.
  intros [_ Hdom _ _]. unfold lookup_entry, view. specialize (Hdom peer).
  destruct (addresses_of self !! peer) as [l|] eqn:E.
  - assert (peer ∈ order self) as Hin by (by apply Hdom; eexists). clear Hdom.
    induction (order self) as [|p o IH]; [by apply elem_of_nil in Hin|]. cbn. case_decide as Hp.
    + subst p. unfold addresses. by rewrite E.
    + apply elem_of_cons in Hin as [<-|Hin]; [done|]. by apply IH.
  - symmetry. apply find_map_None. intros [p l] (q & [= -> ->] & Hq)%list_elem_of_fmap. cbn.
    case_decide as Hp; [|done]. subst q. apply Hdom in Hq as [? ?]. done.
Qed.

(** C40: the address book implements a bounded first-in-first-out memory. After
    any sequence of additions it stands for the entries the contract computes,
    and answers every question from them: at most 4096 peers, each with between
    one and eight distinct addresses, the oldest peer and the oldest address of
    a peer forgotten first; what it offers a dial are the addresses it has. *)
Theorem address_book_refines l peer :
  let self := foldl (fun b e => add e.1 e.2 b) default_book l in
  let v := foldl (fun v e => remember e.1 e.2 v) [] l in
  view self = v ∧ blen v ≤ MAX_PEERS ∧ NoDup (v.*1) ∧ Forall (fun e => list_wf e.2) v ∧
  knows self peer = bool_decide (is_Some (lookup_entry peer v)) ∧
  addresses self peer = default [] (lookup_entry peer v) ∧
  handle_pending_outbound_connection (Some peer) self = addresses self peer ∧
  handle_pending_outbound_connection None self = [].
Proof.
  intros self v. destruct (adds_spec l default_book default_book_wf) as [Hwf Hview].
  fold self in Hwf, Hview. change (view default_book) with (@nil (PeerId * list Multiaddr)) in Hview. fold v in Hview.
  pose proof Hwf as [Hnd Hdom Hb Hl]. rewrite <- Hview. split_and!; try done.
  - unfold blen, view. by rewrite length_fmap.
  - by rewrite view_keys.
  - apply Forall_forall. intros e (p & -> & Hp)%list_elem_of_fmap. cbn. apply Hdom in Hp as [x Hx].
    unfold addresses. rewrite Hx. by apply (Hl p).
  - unfold knows. by rewrite (lookup_view self peer Hwf).
  - unfold addresses. by rewrite (lookup_view self peer Hwf).
Qed.

(** The address that was added last is offered to the next dial of its
    peer, and adding it costs no other peer anything except, when the book is
    full and the peer is new, the peer that has been in it longest. *)
Theorem address_book_add peer address self other :
  book_wf self →
  let self' := add peer address self in
  (address ∈ addresses self' peer) ∧
  (other ≠ peer →
     addresses self' other = addresses self other ∨
     addresses self' other = [] ∧ knows self peer = false ∧ head (order self) = Some other ∧
     blen (order self) = MAX_PEERS).
Proof.
  intros Hwf self'. pose proof (size_order self Hwf) as Hsize. subst self'. unfold add, knows, addresses. split.
  - destruct (addresses_of self !! peer) as [l|] eqn:E; cbn; rewrite lookup_insert_eq; cbn.
    + unfold push_address. case_bool_decide; [done|]. apply elem_of_app. right. by apply list_elem_of_singleton.
    + by apply list_elem_of_singleton.
  - intros Hne. destruct (addresses_of self !! peer) as [l|] eqn:E; cbn; rewrite lookup_insert_ne by done; [by left|].
    rewrite Hsize. destruct (Z.eqb_spec (Z.of_nat (length (order self))) MAX_PEERS); [|by left].
    destruct (order self) as [|oldest rest] eqn:Eo; [done|]. cbn.
    destruct (decide (oldest = other)) as [->|]; [|rewrite lookup_delete_ne by done; by left].
    right. by rewrite lookup_delete_eq.
Qed.

End book.

(** ** Witness *)

Definition example_book_peer : @PeerId ToyIdentity := Some zero_key.
Definition example_book_other : @PeerId ToyIdentity := None.
Definition example_book_address : @Multiaddr ToyIdentity (ToyMultiaddrs ToyIdentity) := [P2pCircuit].

Lemma address_book_add_witness :
  example_book_address ∈ addresses (add example_book_peer example_book_address default_book) example_book_peer ∧
  addresses (add example_book_peer example_book_address default_book) example_book_other = [].
Proof.
  destruct (address_book_add example_book_peer example_book_address default_book example_book_other default_book_wf) as [H1 H2].
  split; [exact H1|]. destruct (H2 ltac:(discriminate)) as [E|[E _]]; exact E.
Defined.
