(* ===== verification/Libp2p.v ===== *)
(** * Libp2p: what the node calls

    rust-libp2p, SHA-256, the clocks and the hash maps' iteration order, as the
    class [Libp2p]. The swarm is one abstract state; every call of the node that
    changes it is an [Action] with the type of its answer, and the queries the
    node makes are functions of the state. The class [Libp2pLaws] holds the
    documented behaviour the theorems rely on: identifiers are never reused,
    topics are named by their hash, and an iteration order is an order of the
    elements. *)

From Stdlib Require Import Permutation.
From S2P Require Import Prelude Abi Keys Multiaddr.

(** [gossipsub::PublishError], [gossipsub::MessageAcceptance]. *)
Inductive PublishError := Duplicate | NoPeersSubscribedToTopic | AllQueuesFull | OtherPublishError.
Inductive MessageAcceptance := Accept | Reject | Ignore.

#[export] Instance MessageAcceptance_eq_dec : EqDecision MessageAcceptance.
Proof. solve_decision. Defined.

(** The identifiers and handles of libp2p. *)
Class Handles := {
  QueryId : Type;
  QueryId_eq_dec :: EqDecision QueryId;
  QueryId_countable :: Countable QueryId;
  OutboundRequestId : Type;
  OutboundRequestId_eq_dec :: EqDecision OutboundRequestId;
  OutboundRequestId_countable :: Countable OutboundRequestId;
  InboundRequestId : Type;
  InboundRequestId_eq_dec :: EqDecision InboundRequestId;
  InboundRequestId_countable :: Countable InboundRequestId;
  ListenerId : Type;
  ListenerId_eq_dec :: EqDecision ListenerId;
  ConnectionId : Type;
  ConnectionId_eq_dec :: EqDecision ConnectionId;
  ConnectionId_countable :: Countable ConnectionId;
  ResponseChannel : Type;
  MessageId : Type;
  TopicHash : Type;
  TopicHash_eq_dec :: EqDecision TopicHash;
  TopicHash_countable :: Countable TopicHash;
}.

(** A topic is its name, [IdentTopic]. *)
Abbreviation IdentTopic := bytes.

Section actions.
Context {I : Identity} {MA : Multiaddrs I} {H : Handles}.

(** The calls that change the swarm, with what they answer: [option] and [bool]
    where the code looks only at success. *)
Inductive Action : Type → Type :=
| StartProviding (key : bytes) : Action ()
| StopProviding (key : bytes) : Action ()
| GetProviders (key : bytes) : Action QueryId
| GetClosestPeers (peer : PeerId) : Action QueryId
| GetClosestToRandom : Action QueryId
| BootstrapDht : Action (option QueryId)
| KadAddAddress (peer : PeerId) (address : Multiaddr) : Action ()
| SendRequest (peer : PeerId) (frame : bytes) : Action OutboundRequestId
| SendResponse (channel : ResponseChannel) (frame : bytes) : Action ()
| Subscribe (topic : IdentTopic) : Action bool
| Unsubscribe (topic : IdentTopic) : Action ()
| Publish (topic : IdentTopic) (frame : bytes) : Action (result () PublishError)
| ReportValidation (message : MessageId) (source : PeerId) (acceptance : MessageAcceptance) : Action ()
| ListenOn (address : Multiaddr) : Action (option ListenerId)
| RemoveListener (listener : ListenerId) : Action ()
| AddExternalAddress (address : Multiaddr) : Action ()
| RemoveExternalAddress (address : Multiaddr) : Action ()
| IdentifyPush (peers : list PeerId) : Action ()
| Dial (peer : PeerId) : Action bool.

(** The query or request an action started. *)
Definition started_query {A} (a : Action A) : A → option QueryId :=
  match a in Action A return A → option QueryId with
  | GetProviders _ => Some
  | GetClosestPeers _ => Some
  | GetClosestToRandom => Some
  | BootstrapDht => fun q => q
  | _ => fun _ => None
  end.

Definition started_request {A} (a : Action A) : A → option OutboundRequestId :=
  match a in Action A return A → option OutboundRequestId with
  | SendRequest _ _ => Some
  | _ => fun _ => None
  end.

End actions.

Class Libp2p (I : Identity) (MA : Multiaddrs I) (H : Handles) := {
  Swarm : Type;
  act : ∀ {A}, Action A → Swarm → A * Swarm;
  is_connected : Swarm → PeerId → bool;
  connected_peers : Swarm → list PeerId;
  external_addresses : Swarm → list Multiaddr;
  (** The Kademlia buckets from near to far, each with its entries. *)
  kbuckets : Swarm → list (list (PeerId * list Multiaddr));
  mesh_peers : Swarm → TopicHash → list PeerId;
  num_peers : Swarm → Z;
  topic_hash : IdentTopic → TopicHash;
  sha256 : bytes → array 32;
  (** The [n]-th reading of the monotonic clock and of the system clock, in
      nanoseconds, and the order of the [n]-th iteration over a hash map. *)
  instant_at : nat → Z;
  system_time_at : nat → Z;
  hash_order : nat → ∀ {A}, list A → list A;
}.

Class Libp2pLaws {I MA H} (L : Libp2p I MA H) := {
  (** The identifiers handed out so far. *)
  queries : Swarm → gset QueryId;
  requests : Swarm → gset OutboundRequestId;
  act_queries {A} (a : Action A) s :
    match started_query a (act a s).1 with
    | Some q => q ∉ queries s ∧ queries (act a s).2 = {[q]} ∪ queries s
    | None => queries (act a s).2 = queries s
    end;
  act_requests {A} (a : Action A) s :
    match started_request a (act a s).1 with
    | Some r => r ∉ requests s ∧ requests (act a s).2 = {[r]} ∪ requests s
    | None => requests (act a s).2 = requests s
    end;
  (** [IdentTopic] is hashed by the identity. *)
  topic_hash_inj t t' : topic_hash t = topic_hash t' → t = t';
  instant_monotone n m : (n ≤ m)%nat → instant_at n ≤ instant_at m;
  hash_order_perm n {A} (l : list A) : hash_order n l ≡ₚ l;
}.

(** ** A concrete platform

    Identifiers count up; everybody is connected whom the swarm was told to
    dial; every action is answered with success. *)

#[export] Instance ToyHandles : Handles := {|
  QueryId := nat;
  OutboundRequestId := nat;
  InboundRequestId := nat;
  ListenerId := nat;
  ConnectionId := nat;
  ResponseChannel := nat;
  MessageId := nat;
  TopicHash := bytes;
|}.

Section toy.
Context {I : Identity} {MA : Multiaddrs I}.

Record ToySwarm := mk_toy_swarm { toy_next : nat; toy_requests : nat; toy_listeners : nat; toy_connected : list PeerId }.

Definition toy_act {A} (a : Action A) (s : ToySwarm) : A * ToySwarm :=
  let s' := mk_toy_swarm (S (toy_next s)) (toy_requests s) (toy_listeners s) (toy_connected s) in
  match a in Action A return A * ToySwarm with
  | GetProviders _ => (toy_next s, s')
  | GetClosestPeers _ => (toy_next s, s')
  | GetClosestToRandom => (toy_next s, s')
  | BootstrapDht => (Some (toy_next s), s')
  | SendRequest _ _ => (toy_requests s, mk_toy_swarm (toy_next s) (S (toy_requests s)) (toy_listeners s) (toy_connected s))
  | ListenOn _ => (Some (toy_listeners s), mk_toy_swarm (toy_next s) (toy_requests s) (S (toy_listeners s)) (toy_connected s))
  | Subscribe _ => (true, s)
  | Dial p => (true, mk_toy_swarm (toy_next s) (toy_requests s) (toy_listeners s) (p :: toy_connected s))
  | Publish _ _ => (Ok (), s)
  | StartProviding _ => ((), s)
  | StopProviding _ => ((), s)
  | KadAddAddress _ _ => ((), s)
  | SendResponse _ _ => ((), s)
  | Unsubscribe _ => ((), s)
  | ReportValidation _ _ _ => ((), s)
  | RemoveListener _ => ((), s)
  | AddExternalAddress _ => ((), s)
  | RemoveExternalAddress _ => ((), s)
  | IdentifyPush _ => ((), s)
  end.

#[export] Instance ToyLibp2p : Libp2p I MA ToyHandles := {|
  Swarm := ToySwarm;
  act := @toy_act;
  is_connected s p := bool_decide (p ∈ toy_connected s);
  connected_peers := toy_connected;
  external_addresses _ := [];
  kbuckets s := [(fun p => (p, [])) <$> toy_connected s];
  mesh_peers _ _ := [];
  num_peers s := blen (toy_connected s);
  topic_hash t := t;
  sha256 l := array_fill 32 (byte_of (blen l));
  instant_at n := Z.of_nat n;
  system_time_at n := Z.of_nat n * 1000000;
  hash_order _ _ l := l;
|}.

#[export] Instance ToyLibp2pLaws : Libp2pLaws ToyLibp2p.
Proof.
  refine {|
    queries := fun s => set_seq (C := gset nat) 0 (toy_next s) : gset (@QueryId ToyHandles);
    requests := fun s => set_seq (C := gset nat) 0 (toy_requests s) : gset (@OutboundRequestId ToyHandles);
  |}.
  - intros A a s. destruct a; cbn -[set_seq]; try done.
    all: split; [rewrite elem_of_set_seq; lia | by rewrite set_seq_S_end_union_L].
  - intros A a s. destruct a; cbn -[set_seq]; try done.
    split; [rewrite elem_of_set_seq; lia | by rewrite set_seq_S_end_union_L].
  - done.
  - intros n m ?. cbn. lia.
  - done.
Defined.

End toy.
