(* ===== verification/NodeState.v ===== *)
(** * NodeState: the state of the node and the monad its handlers run in

    [Config], [Command], [Call], [State] and [Shared] are the types of
    [src/node.rs], field for field; a [Duration] or an [Instant] is a number of
    nanoseconds. A [World] is the state together with what the handlers reach
    through their arguments: the swarm, the address book inside it, and the part
    shared with the caller's threads. A handler is a function of the world,
    [M A]; the primitives below are the only ways to change it. *)

From S2P Require Import Prelude Abi Keys Multiaddr AddressBook Libp2p Events.
From S2P Require F64 Limits Wire Delegation EventQueue.

(** ** Constants, durations in nanoseconds *)

Definition millis (n : Z) : Z := n * 1000000.
Definition seconds (n : Z) : Z := n * F64.nanos_per_sec.

Definition PROVIDE_DEBOUNCE : Z := seconds 2.
Definition TICK : Z := millis 250.
Definition LISTEN_READY_TIMEOUT : Z := seconds 2.
Definition FAILURE_PENALTY : Z := seconds (5 * 60).
Definition MAX_REMEMBERED : Z := 4096.
Definition MAX_RESERVATIONS : Z := 2.
Definition RELAY_RETRY : Z := seconds 60.
Definition MAX_RELAY_CANDIDATES : Z := 64.
Definition ANNOUNCE_INTERVAL : Z := seconds 10.
Definition ANNOUNCE_BURST : Z := 3.
Definition TOPIC_LOOKUP_INTERVAL : Z := seconds 30.
Definition TOPIC_DIALS : Z := 6.
Definition GOSSIPSUB_OVERHEAD : Z := 1024.

(** ** Configuration *)

Record AnnounceConfig := mk_announce_config { an_topic : bytes; an_max_payload_bytes : Z }.

Inductive Reachability := Public | Private | Unknown.

#[export] Instance Reachability_eq_dec : EqDecision Reachability.
Proof. solve_decision. Defined.

Record TokenBucket := mk_token_bucket { tb_burst : Z; tb_interval : Z }.

Record RelayConfig := mk_relay_config {
  rc_server : bool;
  rc_client : bool;
  rc_max_reservations : Z;
  rc_max_reservations_per_peer : Z;
  rc_reservation_duration : Z;
  rc_max_circuits : Z;
  rc_max_circuits_per_peer : Z;
  rc_max_circuit_duration : Z;
  rc_max_circuit_bytes : Z;
  rc_circuits_per_peer : option TokenBucket;
  rc_circuits_per_ip : option TokenBucket;
}.

#[export] Instance eta_RelayConfig : Eta RelayConfig := {| eta r :=
  mk_relay_config (rc_server r) (rc_client r) (rc_max_reservations r) (rc_max_reservations_per_peer
    r) (rc_reservation_duration r) (rc_max_circuits r) (rc_max_circuits_per_peer r)
    (rc_max_circuit_duration r) (rc_max_circuit_bytes r) (rc_circuits_per_peer r)
    (rc_circuits_per_ip r) |}.

Section node.
Context {I : Identity} {MA : Multiaddrs I} {H : Handles} {L : Libp2p I MA H}.

Record Config := mk_config {
  cfg_node_seed : array 32;
  cfg_delegation : Delegation.Delegation;
  cfg_listen : list Multiaddr;
  cfg_dht_protocol : bytes;
  cfg_rpc_protocols : list bytes;
  cfg_rpc_max_request_bytes : Z;
  cfg_rpc_max_response_bytes : Z;
  cfg_rpc_timeout : Z;
  cfg_quic : bool;
  cfg_dcutr : bool;
  cfg_autonat : bool;
  cfg_reachability : Reachability;
  cfg_relay : RelayConfig;
  cfg_max_connections : option Z;
  cfg_max_connections_per_peer : option Z;
  cfg_max_pending_incoming : option Z;
  cfg_announce : option AnnounceConfig;
  cfg_event_queue_bytes : Z;
  cfg_topic_max_message_bytes : Z;
  cfg_topic_max_subscriptions : Z;
}.

#[export] Instance eta_Config : Eta Config := {| eta r :=
  mk_config (cfg_node_seed r) (cfg_delegation r) (cfg_listen r) (cfg_dht_protocol r)
    (cfg_rpc_protocols r) (cfg_rpc_max_request_bytes r) (cfg_rpc_max_response_bytes r)
    (cfg_rpc_timeout r) (cfg_quic r) (cfg_dcutr r) (cfg_autonat r) (cfg_reachability r) (cfg_relay
    r) (cfg_max_connections r) (cfg_max_connections_per_peer r) (cfg_max_pending_incoming r)
    (cfg_announce r) (cfg_event_queue_bytes r) (cfg_topic_max_message_bytes r)
    (cfg_topic_max_subscriptions r) |}.

(** ** Commands

    A command with a reply channel carries the number of the call that waits on
    it. *)

Inductive Command :=
| Rpc (id : Z) (group : lp2p_key) (node : option lp2p_key) (protocol : Z) (payload : bytes) (timeout : Z)
| Respond (id : Z) (payload : bytes)
| RejectRequest (id : Z)
| AddAddress (node : lp2p_key) (address : Multiaddr)
| Bootstrap (id : Z)
| RandomWalk (id : Z)
| SetClass (group : lp2p_key) (class : Z)
| AnnounceSetPayload (payload : bytes)
| SetLimit (class scope protocol : Z) (unit : Limits.Unit) (rate : lp2p_rate)
| TopicSubscribe (key : lp2p_key)
| TopicUnsubscribe (key : lp2p_key)
| TopicPublish (key : lp2p_key) (payload : bytes)
| TopicPeers (key : lp2p_key) (reply : nat)
| Provide (key : lp2p_key) (stop : bool)
| FindProviders (id : Z) (key : lp2p_key)
| RoutingSample (max : Z) (reply : nat)
| Shutdown.

Inductive Reply := PeersReply (count : Z) | SampleReply (records : list EventRecord).

(** ** State *)

Record Call := mk_call {
  call_group : lp2p_key;
  call_protocol : Z;
  call_frame : bytes;
  candidates : list PeerId;
  (** Every peer ever queued, so a provider reported twice is tried once. *)
  seen : gset PeerId;
  (** Peers whose addresses were already looked up. *)
  resolved : gset PeerId;
  in_flight : bool;
  resolving : bool;
  lookup_running : bool;
  deadline : Z;
  last_failure : Z;
}.

#[export] Instance eta_Call : Eta Call := {| eta r :=
  mk_call (call_group r) (call_protocol r) (call_frame r) (candidates r) (seen r) (resolved r)
    (in_flight r) (resolving r) (lookup_running r) (deadline r) (last_failure r) |}.

Record TopicState := mk_topic_state { ts_topic : IdentTopic; ts_last_lookup : option Z }.

#[export] Instance eta_TopicState : Eta TopicState := {| eta r :=
  mk_topic_state (ts_topic r) (ts_last_lookup r) |}.

Record State := mk_state {
  local_peer : PeerId;
  own_group : lp2p_key;
  own_delegation : bytes;
  dht_protocol : bytes;
  rpc_protocols : list bytes;
  calls : gmap Z Call;
  outbound : gmap OutboundRequestId Z;
  inbound : gmap Z ResponseChannel;
  inbound_ids : gmap InboundRequestId Z;
  provider_lookups : gmap QueryId Z;
  resolutions : gmap QueryId Z;
  bootstraps : gmap QueryId Z;
  walks : gmap QueryId Z;
  provide_due : bool;
  last_provide : option Z;
  sample_offset : Z;
  last_success : gmap lp2p_key PeerId;
  failed : gmap PeerId Z;
  configured : Reachability;
  reachability : Reachability;
  listening : gset Multiaddr;
  listens_on_wildcard : bool;
  relay_client : bool;
  relay_candidates : gmap PeerId Multiaddr;
  reservations : gmap PeerId ListenerId;
  relay_failed : gmap PeerId Z;
  dialed : gmap PeerId Multiaddr;
  connections : gmap ConnectionId Multiaddr;
  limits : Limits.Limits;
  last_sweep : Z;
  announce_topic : option IdentTopic;
  announce_payload : option bytes;
  announce_published : option bytes;
  announce_rate : Limits.SourceRate;
  topics : gmap lp2p_key TopicState;
  topic_keys : gmap TopicHash lp2p_key;
  topic_lookups : gmap QueryId lp2p_key;
  topic_max_message_bytes : Z;
  topic_max_subscriptions : Z;
  provider_queries : gmap QueryId Z;
  peer_ips : gmap PeerId Limits.IpAddr;
}.

#[export] Instance eta_State : Eta State := {| eta r :=
  mk_state (local_peer r) (own_group r) (own_delegation r) (dht_protocol r) (rpc_protocols r) (calls
    r) (outbound r) (inbound r) (inbound_ids r) (provider_lookups r) (resolutions r) (bootstraps r)
    (walks r) (provide_due r) (last_provide r) (sample_offset r) (last_success r) (failed r)
    (configured r) (reachability r) (listening r) (listens_on_wildcard r) (relay_client r)
    (relay_candidates r) (reservations r) (relay_failed r) (dialed r) (connections r) (limits r)
    (last_sweep r) (announce_topic r) (announce_payload r) (announce_published r) (announce_rate r)
    (topics r) (topic_keys r) (topic_lookups r) (topic_max_message_bytes r) (topic_max_subscriptions
    r) (provider_queries r) (peer_ips r) |}.

(** What the caller's threads and the runtime thread both touch. *)
Record Shared := mk_shared {
  events_max_bytes : Z;
  events : EventQueue.Inner;
  next_id : Z;
  sh_connections : Z;
  routing_table_peers : Z;
  rpc_in : Z;
  rpc_out : Z;
  rpc_limited : Z;
  topics_subscribed : Z;
  topic_in : Z;
  topic_out : Z;
  topic_bytes_in : Z;
  topic_bytes_out : Z;
  topic_limited : Z;
  poisoned : bool;
}.

#[export] Instance eta_Shared : Eta Shared := {| eta r :=
  mk_shared (events_max_bytes r) (events r) (next_id r) (sh_connections r) (routing_table_peers r)
    (rpc_in r) (rpc_out r) (rpc_limited r) (topics_subscribed r) (topic_in r) (topic_out r)
    (topic_bytes_in r) (topic_bytes_out r) (topic_limited r) (poisoned r) |}.

Record World := mk_world {
  w_state : State;
  w_swarm : Swarm;
  w_book : AddressBook;
  w_shared : Shared;
  (** How often the clocks were read and hash maps iterated. *)
  w_tick : nat;
  (** Every record pushed to the event queue, whether it fit or not, and every answer sent to a waiting caller. *)
  w_emitted : list EventRecord;
  w_replies : list (nat * Reply);
}.

#[export] Instance eta_World : Eta World := {| eta r :=
  mk_world (w_state r) (w_swarm r) (w_book r) (w_shared r) (w_tick r) (w_emitted r) (w_replies r) |}.

End node.

(** ** The monad *)

Definition M {I : Identity} {MA : Multiaddrs I} {H : Handles} {L : Libp2p I MA H} (A : Type) : Type := World → A * World.

Definition ret {I : Identity} {MA : Multiaddrs I} {H : Handles} {L : Libp2p I MA H} {A} (a : A) : M A := fun w => (a, w).
Definition bind {I : Identity} {MA : Multiaddrs I} {H : Handles} {L : Libp2p I MA H} {A B} (m : M A) (k : A → M B) : M B := fun w => let '(a, w) := m w in k a w.

Notation "x <- m ; k" := (bind m (fun x => k))
  (at level 100, m at next level, right associativity) : ffi_scope.
Notation "m ;; k" := (bind m (fun _ => k)) : ffi_scope.

Section handlers.
Context {I : Identity} {MA : Multiaddrs I} {H : Handles} {L : Libp2p I MA H}.

Definition skip : M () := fun w => ((), w).

(** What a handler leaves behind. *)
Definition run_world {A} (m : M A) (w : World) : World := (m w).2.

Definition read {A} (f : World → A) : M A := fun w => (f w, w).
Definition gets {A} (f : State → A) : M A := read (fun w => f (w_state w)).
Definition modify (f : State → State) : M () := fun w => ((), w <| w_state ::= f |>).
Definition modify_shared (f : Shared → Shared) : M () := fun w => ((), w <| w_shared ::= f |>).
Definition modify_book (f : AddressBook → AddressBook) : M () := fun w => ((), w <| w_book ::= f |>).
Definition get_swarm {A} (f : Swarm → A) : M A := read (fun w => f (w_swarm w)).

Definition swarm {A} (a : Action A) : M A := fun w =>
  let '(x, s) := act a (w_swarm w) in (x, w <| w_swarm := s |>).

(** [Instant::now()] and [delegation::now_ms()]. *)
Definition now : M Z := fun w => (instant_at (w_tick w), w <| w_tick ::= S |>).
Definition now_ms : M Z := fun w =>
  (Delegation.now_ms (system_time_at (w_tick w)), w <| w_tick ::= S |>).

(** Iteration over a hash map or a hash set. *)
Definition iterate {K A} `{Countable K} (m : gmap K A) : M (list (K * A)) := fun w =>
  (hash_order (w_tick w) (map_to_list m), w <| w_tick ::= S |>).
Definition iterate_set {K} `{Countable K} (s : gset K) : M (list K) := fun w =>
  (hash_order (w_tick w) (elements s), w <| w_tick ::= S |>).

Fixpoint for_each {A} (l : list A) (body : A → M ()) : M () :=
  match l with
  | [] => skip
  | x :: l => body x;; for_each l body
  end.

Definition when (b : bool) (m : M ()) : M () := if b then m else skip.

Definition reply (call : nat) (r : Reply) : M () := fun w =>
  ((), w <| w_replies ::= fun l => l ++ [(call, r)] |>).

(** ** [State::emit] and the small helpers *)

Definition emit (record : EventRecord) : M () := fun w =>
  ((), w <| w_shared ::= fun sh => sh <| events ::= EventQueue.push (events_max_bytes sh) record |> |>
         <| w_emitted ::= fun l => l ++ [record] |>).

Definition peer_key (peer : PeerId) : lp2p_key := default zero_key (key_of peer).

(** The record of a peer and its addresses, each followed by a zero byte. *)
Definition discovered (id : Z) (peer : PeerId) (addrs : list Multiaddr) : EventRecord :=
  data (with_node (peer_key peer) (with_id id (new_event LP2P_EV_PEER_DISCOVERED)))
       (concat ((fun a => to_string a ++ [x00]) <$> addrs)).

(** [kad::RecordKey] of a group or topic key. *)
Definition record_key (key : lp2p_key) : bytes := Wire.provider_key sha256 key.

Definition is_private (s : State) : bool := bool_decide (reachability s = Private).

(** [duration_since] of the monotonic clock. *)
Definition duration_since (later earlier : Z) : Z := Limits.saturating_duration_since later earlier.

(** [o.is_none_or(|t| now - t >= d)]. *)
Definition none_or_since (o : option Z) (now d : Z) : bool :=
  match o with None => true | Some t => d <=? duration_since now t end.

Definition provide : M () :=
  g <- gets own_group;
  swarm (StartProviding (record_key g));;
  modify (fun s => s <| provide_due := false |>);;
  t <- now;
  modify (fun s => s <| last_provide := Some t |>).

(** [State::new], given the clock reading it makes. *)
Definition new_state (config : Config) (local : PeerId) (now : Z) : State :=
  {| local_peer := local;
     own_group := Delegation.group (cfg_delegation config);
     own_delegation := Delegation.to_bytes (cfg_delegation config);
     dht_protocol := cfg_dht_protocol config;
     rpc_protocols := cfg_rpc_protocols config;
     calls := ∅; outbound := ∅; inbound := ∅; inbound_ids := ∅;
     provider_lookups := ∅; resolutions := ∅; bootstraps := ∅; walks := ∅;
     provide_due := false; last_provide := None; sample_offset := 0;
     last_success := ∅; failed := ∅;
     configured := cfg_reachability config;
     reachability := cfg_reachability config;
     listening := ∅;
     listens_on_wildcard := existsb is_unspecified (cfg_listen config);
     relay_client := rc_client (cfg_relay config);
     relay_candidates := ∅; reservations := ∅; relay_failed := ∅; dialed := ∅; connections := ∅;
     limits := Limits.default_limits; last_sweep := now;
     announce_topic := an_topic <$> cfg_announce config;
     announce_payload := None; announce_published := None;
     announce_rate := Limits.new_source_rate ANNOUNCE_INTERVAL ANNOUNCE_BURST;
     topics := ∅; topic_keys := ∅; topic_lookups := ∅;
     topic_max_message_bytes := cfg_topic_max_message_bytes config;
     topic_max_subscriptions := cfg_topic_max_subscriptions config;
     provider_queries := ∅; peer_ips := ∅ |}.

(** The [Shared] that [Node::start] makes. *)
Definition new_shared (config : Config) : Shared :=
  mk_shared (cfg_event_queue_bytes config) EventQueue.new_queue 1 0 0 0 0 0 0 0 0 0 0 0 false.

End handlers.

(** ** Reasoning about handlers

    [respects R m]: the worlds before and after [m] are related by [R].
    [preserves P m]: [m] keeps the invariant [P]. *)

Section reasoning.
Context {I : Identity} {MA : Multiaddrs I} {H : Handles} {L : Libp2p I MA H}.

Definition respects (R : World → World → Prop) {A} (m : M A) : Prop := ∀ w, R w (m w).2.

(** The equations of the primitives. *)
Lemma run_bind {A B} (m : M A) (k : A → M B) w : bind m k w = k (m w).1 (m w).2.
Proof. unfold bind. by destruct (m w). Qed.

Lemma run_gets {A} (f : State → A) w : gets f w = (f (w_state w), w).
Proof. done. Qed.

Lemma run_modify f w : modify f w = ((), w <| w_state ::= f |>).
Proof. done. Qed.

Lemma run_swarm {A} (a : Action A) w :
  swarm a w = ((act a (w_swarm w)).1, w <| w_swarm := (act a (w_swarm w)).2 |>).
Proof. unfold swarm. by destruct (act a (w_swarm w)). Qed.

Context (R : World → World → Prop) `{!PreOrder R}.

Lemma respects_ret {A} (a : A) : respects R (ret a).
Proof. intros w. reflexivity. Qed.

Lemma respects_skip : respects R skip.
Proof. intros w. reflexivity. Qed.

Lemma respects_read {A} (f : World → A) : respects R (read f).
Proof. intros w. reflexivity. Qed.

Lemma respects_bind {A B} (m : M A) (k : A → M B) :
  respects R m → (∀ a, respects R (k a)) → respects R (bind m k).
Proof.
  intros Hm Hk w. unfold bind. specialize (Hm w). destruct (m w) as [a w1]. cbn in Hm.
  etransitivity; [exact Hm|]. apply Hk.
Qed.

Lemma respects_after {A B} (m : M A) (k : A → M B) w :
  R w (m w).2 → (∀ a, respects R (k a)) → R w (bind m k w).2.
Proof. intros Hm Hk. rewrite run_bind. etransitivity; [exact Hm|]. apply Hk. Qed.

Lemma respects_when b m : respects R m → respects R (when b m).
Proof. intros Hm. destruct b; [done|apply respects_skip]. Qed.

Lemma respects_for_each {A} (l : list A) (body : A → M ()) :
  (∀ x, respects R (body x)) → respects R (for_each l body).
Proof.
  intros Hb. induction l as [|x l IH]; [apply respects_skip|]. cbn. apply respects_bind; [apply Hb|done].
Qed.

End reasoning.

(** Takes a handler apart down to its primitives. *)
Ltac respects_step :=
  lazymatch goal with
  | |- respects _ (bind _ _) => apply respects_bind; [exact _ | | intros ?]
  | |- respects _ (ret _) => apply respects_ret; exact _
  | |- respects _ skip => apply respects_skip; exact _
  | |- respects _ (read _) => apply respects_read; exact _
  | |- respects _ (gets _) => apply respects_read; exact _
  | |- respects _ (get_swarm _) => apply respects_read; exact _
  | |- respects _ (when _ _) => apply respects_when; [exact _ |]
  | |- respects _ (for_each _ _) => apply respects_for_each; [exact _ | intros ?]
  | |- respects _ (match ?x with _ => _ end) => destruct x
  end.
