(* ===== verification/Build.v ===== *)
(** * Build: the behaviours and the swarm of a node, [src/node.rs]

    What [build_swarm] and the functions below it hand to libp2p: every value
    they compute from the configuration, and every error they answer. The
    builders are libp2p's; the class [Builders] holds their answers. *)

From S2P Require Import Prelude Abi Keys Multiaddr AddressBook Libp2p NodeState.
From S2P Require Wire.

(** ** Configurations of libp2p, as far as the node sets them *)

(** [autonat::Config]. *)
Record AutonatConfig := mk_autonat_config {
  only_global_ips : bool;
  boot_delay : Z;
  retry_interval : Z;
  refresh_interval : Z;
  throttle_server_period : Z;
}.

(** [gossipsub::Config]; [gs_held_back] is [validate_messages]. *)
Inductive ValidationMode := Strict | Permissive | Anonymous | NoValidation.

Record GossipsubConfig := mk_gossipsub_config {
  gs_mode : ValidationMode;
  gs_held_back : bool;
  gs_max_transmit_size : Z;
}.

(** [relay::Config], the limiters with the type libp2p gives them. *)
Record RelayServerConfig (RateLimiter : Type) := mk_relay_server_config {
  rs_max_reservations : Z;
  rs_max_reservations_per_peer : Z;
  rs_reservation_duration : Z;
  rs_max_circuits : Z;
  rs_max_circuits_per_peer : Z;
  rs_max_circuit_duration : Z;
  rs_max_circuit_bytes : Z;
  reservation_rate_limiters : list RateLimiter;
  circuit_src_rate_limiters : list RateLimiter;
}.
Arguments mk_relay_server_config {RateLimiter}.
Arguments rs_max_reservations {RateLimiter}.
Arguments rs_max_reservations_per_peer {RateLimiter}.
Arguments rs_reservation_duration {RateLimiter}.
Arguments rs_max_circuits {RateLimiter}.
Arguments rs_max_circuits_per_peer {RateLimiter}.
Arguments rs_max_circuit_duration {RateLimiter}.
Arguments rs_max_circuit_bytes {RateLimiter}.
Arguments reservation_rate_limiters {RateLimiter}.
Arguments circuit_src_rate_limiters {RateLimiter}.

#[export] Instance eta_RelayServerConfig R : Eta (RelayServerConfig R) := {| eta c :=
  mk_relay_server_config (rs_max_reservations c) (rs_max_reservations_per_peer c) (rs_reservation_duration c)
    (rs_max_circuits c) (rs_max_circuits_per_peer c) (rs_max_circuit_duration c) (rs_max_circuit_bytes c)
    (reservation_rate_limiters c) (circuit_src_rate_limiters c) |}.

(** What libp2p's builders answer. *)
Class Builders := {
  RateLimiter : Type;
  (** The [Default]s the node starts from. *)
  autonat_default : AutonatConfig;
  relay_default : RelayServerConfig RateLimiter;
  (** [relay::Config::circuit_src_per_peer] and [circuit_src_per_ip]. *)
  circuit_src_per_peer : Z → Z → RelayServerConfig RateLimiter → RelayServerConfig RateLimiter;
  circuit_src_per_ip : Z → Z → RelayServerConfig RateLimiter → RelayServerConfig RateLimiter;
  (** Whether [ConfigBuilder::build], [gossipsub::Behaviour::new] and
      [subscribe] succeed. *)
  gossipsub_builds : GossipsubConfig → bool;
  gossipsub_starts : GossipsubConfig → bool;
  gossipsub_subscribes : GossipsubConfig → bytes → bool;
  (** Whether [with_tcp] and [with_relay_client] succeed. *)
  tcp_starts : bool;
  relay_client_starts : bool;
  (** The feature [test-loopback] of the build. *)
  test_loopback : bool;
}.

(** Documented behaviour of the limiters: each call adds one. *)
Class BuildersLaws (B : Builders) := {
  peer_limiter : Z → Z → RateLimiter;
  ip_limiter : Z → Z → RateLimiter;
  per_peer_adds b i c :
    circuit_src_per_peer b i c = c <| circuit_src_rate_limiters ::= fun l => l ++ [peer_limiter b i] |>;
  per_ip_adds b i c :
    circuit_src_per_ip b i c = c <| circuit_src_rate_limiters ::= fun l => l ++ [ip_limiter b i] |>;
}.

Section build.
Context {I : Identity} {MA : Multiaddrs I} {B : Builders}.

Definition autonat_config : AutonatConfig :=
  if test_loopback then
    {| only_global_ips := false; boot_delay := millis 500; retry_interval := seconds 1;
       refresh_interval := seconds 5; throttle_server_period := 0 |}
  else autonat_default.

(** A gossipsub behaviour: its configuration, the key it signs with and the
    topics it follows. *)
Record Gossipsub := mk_gossipsub {
  gs_config : GossipsubConfig;
  gs_signed_by : Keypair;
  gs_subscribed : list IdentTopic;
}.

Definition make_gossipsub (config : Config) (key : Keypair) : result Gossipsub () :=
  let largest := Z.max (match cfg_announce config with Some a => an_max_payload_bytes a | None => 0 end)
                       (cfg_topic_max_message_bytes config) in
  let gossipsub_config := {|
    gs_mode := Strict;
    gs_held_back := true;
    gs_max_transmit_size := 1 + LP2P_DELEGATION_BYTES + largest + GOSSIPSUB_OVERHEAD |} in
  _ <-? (if gossipsub_builds gossipsub_config then Ok () else Err ());
  _ <-? (if gossipsub_starts gossipsub_config then Ok () else Err ());
  match cfg_announce config with
  | Some announce =>
      if gossipsub_subscribes gossipsub_config (an_topic announce)
      then Ok (mk_gossipsub gossipsub_config key [an_topic announce]) else Err ()
  | None => Ok (mk_gossipsub gossipsub_config key [])
  end.

Definition relay_server_config (r : RelayConfig) : RelayServerConfig RateLimiter :=
  let config := {|
    rs_max_reservations := rc_max_reservations r;
    rs_max_reservations_per_peer := rc_max_reservations_per_peer r;
    rs_reservation_duration := rc_reservation_duration r;
    rs_max_circuits := rc_max_circuits r;
    rs_max_circuits_per_peer := rc_max_circuits_per_peer r;
    rs_max_circuit_duration := rc_max_circuit_duration r;
    rs_max_circuit_bytes := rc_max_circuit_bytes r;
    reservation_rate_limiters := reservation_rate_limiters relay_default;
    circuit_src_rate_limiters := circuit_src_rate_limiters relay_default |} in
  let config := config <| circuit_src_rate_limiters := [] |> in
  let config := match rc_circuits_per_peer r with
                | Some bucket => circuit_src_per_peer (tb_burst bucket) (tb_interval bucket) config
                | None => config
                end in
  match rc_circuits_per_ip r with
  | Some bucket => circuit_src_per_ip (tb_burst bucket) (tb_interval bucket) config
  | None => config
  end.

(** [Behaviour], each part with what the node configures it with; a [Toggle] is
    an option. Ping and the relay client take nothing. *)
Record Behaviour := mk_behaviour {
  bh_max_established : option Z;
  bh_max_established_per_peer : option Z;
  bh_max_pending_incoming : option Z;
  bh_address_book : AddressBook;
  bh_kad_peer : PeerId;
  bh_kad_protocol : bytes;
  bh_kad_server_mode : bool;
  bh_identify_key : PublicKey;
  bh_identify_hides_listen_addrs : bool;
  bh_codec : Wire.RawCodec;
  bh_request_timeout : Z;
  bh_relay_server : option (RelayServerConfig RateLimiter);
  bh_dcutr : option PeerId;
  bh_gossipsub : Gossipsub;
  bh_autonat : option AutonatConfig;
}.

(** What the codec's limits allow a frame to have around its payload. *)
Definition frame_overhead : Z := 2 + LP2P_DELEGATION_BYTES + 255.

Definition make_behaviour (config : Config) (key : Keypair) : result Behaviour () :=
  let peer := to_peer_id (keypair_public key) in
  gossipsub <-? make_gossipsub config key;
  Ok {| bh_max_established := cfg_max_connections config;
        bh_max_established_per_peer := cfg_max_connections_per_peer config;
        bh_max_pending_incoming := cfg_max_pending_incoming config;
        bh_address_book := default_book;
        bh_kad_peer := peer;
        bh_kad_protocol := cfg_dht_protocol config;
        bh_kad_server_mode := true;
        bh_identify_key := keypair_public key;
        bh_identify_hides_listen_addrs := true;
        bh_codec := Wire.mk_codec (cfg_rpc_max_request_bytes config + frame_overhead)
                                  (cfg_rpc_max_response_bytes config + frame_overhead);
        bh_request_timeout := cfg_rpc_timeout config;
        bh_relay_server :=
          if rc_server (cfg_relay config) && negb (bool_decide (cfg_reachability config = Private))
          then Some (relay_server_config (cfg_relay config)) else None;
        bh_dcutr := if cfg_dcutr config then Some peer else None;
        bh_gossipsub := gossipsub;
        bh_autonat := if cfg_autonat config then Some autonat_config else None |}.

(** The swarm that [build_swarm] puts together. *)
Inductive Transport := Tcp (nodelay : bool) | Quic | RelayClient.

Record SwarmPlan := mk_swarm_plan {
  sp_identity : Keypair;
  sp_transports : list Transport;
  sp_behaviour : Behaviour;
  sp_idle_timeout : Z;
}.

Definition build_swarm (config : Config) (keypair : Keypair) : result SwarmPlan Z :=
  let network {A E} (r : result A E) : result A Z := map_err (fun _ => LP2P_ERR_NETWORK) r in
  _ <-? network (if tcp_starts then Ok () else Err ());
  let transports := Tcp true :: (if cfg_quic config then [Quic] else []) in
  _ <-? network (if relay_client_starts then Ok () else Err ());
  behaviour <-? network (make_behaviour config keypair);
  Ok {| sp_identity := keypair;
        sp_transports := transports ++ [RelayClient];
        sp_behaviour := behaviour;
        sp_idle_timeout := seconds 60 |}.

End build.

(** ** Concrete builders: everything succeeds *)

#[export] Instance ToyBuilders : Builders := {|
  RateLimiter := bool * Z * Z;
  autonat_default := mk_autonat_config true (seconds 15) (seconds 90) (seconds 900) (seconds 90);
  relay_default := mk_relay_server_config 128 4 (seconds 3600) 16 4 (seconds 120) 131072 [(true, 30, 2)] [(false, 60, 1)];
  circuit_src_per_peer b i c := c <| circuit_src_rate_limiters ::= fun l => l ++ [(true, b, i)] |>;
  circuit_src_per_ip b i c := c <| circuit_src_rate_limiters ::= fun l => l ++ [(false, b, i)] |>;
  gossipsub_builds _ := true;
  gossipsub_starts _ := true;
  gossipsub_subscribes _ _ := true;
  tcp_starts := true;
  relay_client_starts := true;
  test_loopback := false;
|}.

#[export] Instance ToyBuildersLaws : BuildersLaws ToyBuilders.
Proof. refine {| peer_limiter b i := (true, b, i) : RateLimiter; ip_limiter b i := (false, b, i) : RateLimiter |}; done. Defined.
