(* ===== verification/Calls.v ===== *)
(** * Calls: outbound requests with failover, [src/node.rs]

    A call asks one node after the other until one answers with a valid
    delegation of the group. It is in [calls] while it is in progress and waits
    for an outstanding request, for the resolution of a candidate's addresses or
    for the lookup of the group's providers; [advance] moves it to the next
    candidate or fails it. *)

From S2P Require Import Prelude Abi Keys Multiaddr AddressBook Libp2p Events NodeState.
From S2P Require Wire Delegation.

Section calls.
Context {I : Identity} {MA : Multiaddrs I} {H : Handles} {L : Libp2p I MA H}.

(** ** The queue of candidates *)

Definition penalized (failed : gmap PeerId Z) (now : Z) (p : PeerId) : bool :=
  match failed !! p with
  | Some t => duration_since now t <? FAILURE_PENALTY
  | None => false
  end.

(** [enqueue] for a peer that was not seen before, at [now]. *)
Definition enqueue_at (now : Z) (last_success : gmap lp2p_key PeerId) (failed : gmap PeerId Z)
    (peer : PeerId) (call : Call) : Call :=
  if bool_decide (last_success !! call_group call = Some peer) && negb (penalized failed now peer)
  then call <| candidates ::= cons peer |>
  else if penalized failed now peer then call <| candidates ::= fun l => l ++ [peer] |>
  else
    let l := candidates call in
    let position := default (length l) (position (penalized failed now) l) in
    call <| candidates := insert_at position peer l |>.

Definition enqueue (call : Call) (peer : PeerId) : M Call :=
  if bool_decide (peer ∈ seen call) then ret call
  else
    t <- now;
    s <- gets (fun s => s);
    ret (enqueue_at t (last_success s) (failed s) peer (call <| seen ::= union {[peer]} |>)).

(** ** [advance] *)

Definition remove_call (id : Z) : M (option Call) :=
  call <- gets (fun s => calls s !! id);
  modify (fun s => s <| calls ::= delete id |>);;
  ret call.

Definition rpc_failed (id : Z) (call : Call) (reason : Z) : EventRecord :=
  build (with_reason reason (with_protocol (call_protocol call)
    (with_group (call_group call) (with_id id (new_event LP2P_EV_RPC_FAILED))))).

(** The loop over the candidates; [call] is the entry of [id], whose queue is
    [l] by now. [true] when the function returned from inside the loop. *)
Fixpoint try_candidates (id : Z) (call : Call) (l : list PeerId) : M bool :=
  match l with
  | [] => modify (fun s => s <| calls ::= insert id (call <| candidates := [] |>) |>);; ret false
  | peer :: rest =>
      dialable <- read (fun w => is_connected (w_swarm w) peer || knows (w_book w) peer);
      if negb dialable then
        if bool_decide (peer ∈ resolved call) then try_candidates id call rest
        else
          query <- swarm (GetClosestPeers peer);
          modify (fun s => s
            <| resolutions ::= insert query id |>
            <| calls ::= insert id (call <| resolved ::= union {[peer]} |>
                                         <| candidates := peer :: rest |> <| resolving := true |>) |>);;
          ret true
      else
        request <- swarm (SendRequest peer (call_frame call));
        modify (fun s => s
          <| outbound ::= insert request id |>
          <| calls ::= insert id (call <| candidates := rest |> <| in_flight := true |>) |>);;
        modify_shared (fun sh => sh <| rpc_out ::= incr64 |>);;
        ret true
  end.

Definition advance (id : Z) : M () :=
  entry <- gets (fun s => calls s !! id);
  match entry with
  | None => skip
  | Some call =>
      if in_flight call || resolving call then skip
      else
        returned <- try_candidates id call (candidates call);
        if returned then skip
        else if lookup_running call then skip
        else
          removed <- remove_call id;
          match removed with
          | Some call => emit (rpc_failed id call (last_failure call))
          | None => skip
          end
  end.

(** ** [Command::Rpc] *)

(** Who is asked first: the node the caller named, or whoever the lookup of the
    group finds. *)
Definition first_candidates (id : Z) (group : lp2p_key) (node : option lp2p_key) (call : Call) : M Call :=
  match node with
  | Some key =>
      ret (match peer_id key with
           | Some peer => call <| seen ::= union {[peer]} |> <| candidates ::= fun l => l ++ [peer] |>
           | None => call
           end)
  | None =>
      query <- swarm (GetProviders (record_key group));
      modify (fun s => s <| provider_lookups ::= insert query id |>);;
      ret (call <| lookup_running := true |>)
  end.

(** [None] is the panic of an index out of range. *)
Definition start_call (id : Z) (group : lp2p_key) (node : option lp2p_key) (protocol : Z)
    (payload : bytes) (timeout : Z) : M (option ()) :=
  name <- gets (fun s => rpc_protocols s !! Z.to_nat protocol);
  match name with
  | None => ret None
  | Some name =>
      delegation <- gets own_delegation;
      t <- now;
      let call := mk_call group protocol (Wire.encode_request delegation name payload) [] ∅ ∅
                          false false false (t + timeout) LP2P_FAIL_UNREACHABLE in
      call <- first_candidates id group node call;
      modify (fun s => s <| calls ::= insert id call |>);;
      advance id;;
      ret (Some ())
  end.

(** ** Failures *)

Definition remember_failure (peer : PeerId) : M () :=
  n <- gets (fun s => Z.of_nat (size (failed s)));
  when (MAX_REMEMBERED <=? n)
    (t <- now;
     modify (fun s => s <| failed ::= filter (fun e : PeerId * Z => duration_since t e.2 < FAILURE_PENALTY) |>);;
     n <- gets (fun s => Z.of_nat (size (failed s)));
     when (MAX_REMEMBERED <=? n) (modify (fun s => s <| failed := ∅ |>)));;
  t <- now;
  modify (fun s => s <| failed ::= insert peer t |>).

Definition update_call (id : Z) (f : Call → Call) : M () :=
  modify (fun s => s <| calls ::= alter f id |>).

(** [request_response::OutboundFailure], as far as the node looks at it. *)
Inductive OutboundFailure := FailureTimeout | FailureUnsupportedProtocols | FailureOther.

Definition outbound_failure (peer : PeerId) (request : OutboundRequestId) (error : OutboundFailure) : M () :=
  remember_failure peer;;
  owner <- gets (fun s => outbound s !! request);
  modify (fun s => s <| outbound ::= delete request |>);;
  match owner with
  | None => skip
  | Some id =>
      update_call id (fun call => call
        <| in_flight := false |>
        <| last_failure := match error with
                           | FailureTimeout => LP2P_FAIL_TIMEOUT
                           | FailureUnsupportedProtocols => LP2P_FAIL_REFUSED
                           | FailureOther => LP2P_FAIL_UNREACHABLE
                           end |>);;
      advance id
  end.

(** ** Responses *)

(** The closure [checked]: the responder's key and the payload. *)
Definition check_response (peer : PeerId) (group : lp2p_key) (now_ms : Z) (frame : bytes) :
    option (lp2p_key * bytes) :=
  response ← Wire.decode_response frame;
  node ← key_of peer;
  delegation ← ok (Delegation.parse (Wire.res_delegation response));
  _ ← ok (Delegation.verify_for delegation node now_ms);
  if bool_decide (Delegation.group delegation = group)
  then Some (node, Wire.res_payload response) else None.

Definition rpc_response (id : Z) (call : Call) (node : lp2p_key) (payload : bytes) : EventRecord :=
  data (with_protocol (call_protocol call) (with_node node
    (with_group (call_group call) (with_id id (new_event LP2P_EV_RPC_RESPONSE))))) payload.

(** The branch of a response that passed the checks: the call is over, and its
    node is remembered as the group's last good one. *)
Definition response_accepted (id : Z) (call : Call) (peer : PeerId) (node : lp2p_key) (payload : bytes) : M () :=
  modify (fun s => s <| calls ::= delete id |> <| failed ::= delete peer |>);;
  n <- gets (fun s => Z.of_nat (size (last_success s)));
  when (MAX_REMEMBERED <=? n) (modify (fun s => s <| last_success := ∅ |>));;
  modify (fun s => s <| last_success ::= insert (call_group call) peer |>);;
  emit (rpc_response id call node payload).

Definition response (peer : PeerId) (request : OutboundRequestId) (frame : bytes) : M () :=
  owner <- gets (fun s => outbound s !! request);
  modify (fun s => s <| outbound ::= delete request |>);;
  match owner with
  | None => skip
  | Some id =>
      entry <- gets (fun s => calls s !! id);
      match entry with
      | None => skip
      | Some call =>
          update_call id (fun call => call <| in_flight := false |>);;
          ms <- now_ms;
          match check_response peer (call_group call) ms frame with
          | Some (node, payload) => response_accepted id call peer node payload
          | None =>
              update_call id (fun call => call <| last_failure := LP2P_FAIL_REFUSED |>);;
              remember_failure peer;;
              advance id
          end
      end
  end.

(** ** The expiry of [tick] *)

Definition expire (now : Z) : M () :=
  m <- gets calls;
  entries <- iterate m;
  let expired := fst <$> List.filter (fun e : Z * Call => deadline e.2 <=? now) entries in
  for_each expired (fun id =>
    removed <- remove_call id;
    match removed with
    | Some call => emit (rpc_failed id call LP2P_FAIL_TIMEOUT)
    | None => skip
    end).

(** ** Results of the calls' lookups *)

(** [GetProvidersOk::FoundProviders] for a call's lookup ([None] for any other
    result); [providers] in the order of the set's iteration. *)
Fixpoint enqueue_all (local : PeerId) (call : Call) (providers : list PeerId) : M Call :=
  match providers with
  | [] => ret call
  | provider :: rest =>
      call <- (if bool_decide (provider = local) then ret call else enqueue call provider);
      enqueue_all local call rest
  end.

(** What a lookup found for a call joins its queue, itself left out; the last
    answer ends the lookup. *)
Definition queue_found (call_id : Z) (found : option (list PeerId)) (last : bool) : M () :=
  local <- gets local_peer;
  entry <- gets (fun s => calls s !! call_id);
  match entry with
  | Some call =>
      call <- enqueue_all local call (default [] found);
      let call := if last then call <| lookup_running := false |> else call in
      modify (fun s => s <| calls ::= insert call_id call |>)
  | None => skip
  end.

Definition call_providers (query : QueryId) (call_id : Z) (found : option (list PeerId)) (last : bool) : M () :=
  queue_found call_id found last;;
  when last (modify (fun s => s <| provider_lookups ::= delete query |>));;
  advance call_id.

(** The end of the resolution of a candidate's addresses. *)
Definition call_resolved (call_id : Z) : M () :=
  update_call call_id (fun call => call <| resolving := false |>);;
  advance call_id.

End calls.
