(* ===== verification/Inbound.v ===== *)
(** * Inbound: requests of other nodes, [src/node.rs]

    A request is handed to the caller only when its frame parses, its
    delegation is valid for the peer that sent it, its protocol is served here
    and every limit admits it; the channel to answer on is kept under the id of
    the event until the caller answers, rejects, or the requester is gone. *)

From S2P Require Import Prelude Abi Keys Multiaddr AddressBook Libp2p Events NodeState.
From S2P Require Wire Delegation Limits.

Section inbound.
Context {I : Identity} {MA : Multiaddrs I} {H : Handles} {L : Libp2p I MA H}.

(** What the checks before the limits accept: the sender's key, its group, the
    index of the protocol and the payload. *)
Definition check_request (peer : PeerId) (now_ms : Z) (protocols : list bytes) (frame : bytes) :
    option (lp2p_key * lp2p_key * Z * bytes) :=
  request ← Wire.decode_request frame;
  node ← key_of peer;
  delegation ← ok (Delegation.parse (Wire.req_delegation request));
  _ ← ok (Delegation.verify_for delegation node now_ms);
  index ← position (fun p => bool_decide (p = Wire.req_protocol request)) protocols;
  Some (node, Delegation.group delegation, Z.of_nat index, Wire.req_payload request).

(** The address a request came from, unless it came through a relay. *)
Definition request_ip (s : State) (connection : ConnectionId) : option Limits.IpAddr :=
  address ← connections s !! connection;
  if is_relayed address then None else ip_of address.

(** [Limits::check] and [Limits::may_report] on the node's limits. *)
Definition check_limits (request : Limits.Request) (size now : Z) : M (result () Z) := fun w =>
  let '(answer, l) := Limits.check request size now (limits (w_state w)) in
  (answer, w <| w_state ::= fun s => s <| limits := l |> |>).

Definition may_report (now : Z) : M bool := fun w =>
  let '(b, l) := Limits.may_report now (limits (w_state w)) in
  (b, w <| w_state ::= fun s => s <| limits := l |> |>).

Definition limited (group node : lp2p_key) (protocol reason : Z) : EventRecord :=
  build (with_reason reason (with_protocol protocol (with_node node
    (with_group group (new_event LP2P_EV_LIMITED))))).

(** [AtomicU64::fetch_add] of the id counter. *)
Definition fetch_id : M Z := fun w =>
  (next_id (w_shared w), w <| w_shared ::= fun sh => sh <| next_id ::= incr64 |> |>).

Definition rpc_request (id : Z) (group node : lp2p_key) (protocol : Z) (payload : bytes) : EventRecord :=
  data (with_protocol protocol (with_node node (with_group group
    (with_id id (new_event LP2P_EV_RPC_REQUEST))))) payload.

Definition inbound_request (peer : PeerId) (connection : ConnectionId) (request_id : InboundRequestId)
    (frame : bytes) (channel : ResponseChannel) : M () :=
  protocols <- gets rpc_protocols;
  ms <- (if bool_decide (is_Some (request ← Wire.decode_request frame; node ← key_of peer;
                                  ok (Delegation.parse (Wire.req_delegation request))))
         then now_ms else ret 0);
  match check_request peer ms protocols frame with
  | None => skip
  | Some (node, group, protocol, payload) =>
      ip <- gets (fun s => request_ip s connection);
      t <- now;
      admitted <- check_limits (Limits.mk_request group peer ip (as_u16 protocol)) (blen frame) t;
      match admitted with
      | Err reason =>
          modify_shared (fun sh => sh <| rpc_limited ::= incr64 |>);;
          report <- may_report t;
          when report (emit (limited group node (as_u16 protocol) reason))
      | Ok _ =>
          id <- fetch_id;
          modify_shared (fun sh => sh <| rpc_in ::= incr64 |>);;
          emit (rpc_request id group node (as_u16 protocol) payload);;
          modify (fun s => s <| inbound ::= insert id channel |>);;
          modify (fun s => s <| inbound_ids ::= insert request_id id |>)
      end
  end.

(** [Command::Respond] and [Command::Reject]. *)
Definition respond (id : Z) (payload : bytes) : M () :=
  channel <- gets (fun s => inbound s !! id);
  modify (fun s => s <| inbound ::= delete id |>);;
  match channel with
  | Some channel =>
      delegation <- gets own_delegation;
      swarm (SendResponse channel (Wire.encode_response delegation payload))
  | None => skip
  end.

Definition reject (id : Z) : M () := modify (fun s => s <| inbound ::= delete id |>).

(** [InboundFailure] and [ResponseSent]. *)
Definition inbound_done (request_id : InboundRequestId) : M () :=
  id <- gets (fun s => inbound_ids s !! request_id);
  modify (fun s => s <| inbound_ids ::= delete request_id |>);;
  match id with
  | Some id => modify (fun s => s <| inbound ::= delete id |>)
  | None => skip
  end.

End inbound.
