(* ===== verification/Relay.v ===== *)
(** * Relay: reachability and relay reservations, [src/node.rs]

    A private node keeps reservations on up to two relays among the peers that
    offered and announces only its relayed addresses; AutoNAT may move a node
    configured UNKNOWN between private and public. *)

From S2P Require Import Prelude Abi Keys Multiaddr AddressBook Libp2p Events NodeState.

Section relay.
Context {I : Identity} {MA : Multiaddrs I} {H : Handles} {L : Libp2p I MA H}.

(** ** [reserve] *)

Definition circuit_address (peer : PeerId) (address : Multiaddr) : Multiaddr :=
  Multiaddr.with_protocol (Multiaddr.with_protocol (without_peer address) (P2p peer)) P2pCircuit.

(** Relays without a reservation that did not fail within RELAY_RETRY. *)
Definition may_reserve (s : State) (now : Z) (peer : PeerId) : bool :=
  negb (bool_decide (is_Some (reservations s !! peer))) && none_or_since (relay_failed s !! peer) now RELAY_RETRY.

Fixpoint reserve_on (now : Z) (l : list (PeerId * Multiaddr)) : M () :=
  match l with
  | [] => skip
  | (peer, address) :: l =>
      n <- gets (fun s => Z.of_nat (size (reservations s)));
      if MAX_RESERVATIONS <=? n then skip
      else
        listener <- swarm (ListenOn (circuit_address peer address));
        match listener with
        | Some listener => modify (fun s => s <| reservations ::= insert peer listener |>)
        | None => modify (fun s => s <| relay_failed ::= insert peer now |>)
        end;;
        reserve_on now l
  end.

Definition reserve : M () :=
  s <- gets (fun s => s);
  if negb (is_private s) || negb (relay_client s) || (MAX_RESERVATIONS <=? Z.of_nat (size (reservations s)))
  then skip
  else
    t <- now;
    entries <- iterate (relay_candidates s);
    reserve_on t (List.filter (fun e : PeerId * Multiaddr => may_reserve s t e.1) entries).

(** ** [relay_lost] *)

Definition relay_lost (listener : ListenerId) : M () :=
  m <- gets reservations;
  entries <- iterate m;
  let lost := fst <$> List.filter (fun e : PeerId * ListenerId => bool_decide (e.2 = listener)) entries in
  for_each lost (fun peer =>
    modify (fun s => s <| reservations ::= delete peer |>);;
    t <- now;
    modify (fun s => s <| relay_failed ::= insert peer t |>)).

(** ** [nat_status] *)

Inductive NatStatus := NatPublic | NatPrivate | NatUnknown.

(** The addresses a node that listens on a wildcard makes external again. *)
Definition announceable (s : State) (address : Multiaddr) : bool :=
  negb (listens_on_wildcard s && is_loopback address).

Definition reachability_event (reason : Z) : EventRecord :=
  build (with_reason reason (new_event LP2P_EV_REACHABILITY)).

Definition become_private : M () :=
  direct <- get_swarm external_addresses;
  for_each (List.filter (fun a => negb (is_relayed a)) direct) (fun a => swarm (RemoveExternalAddress a));;
  reserve.

Definition become_public : M () :=
  s <- gets (fun s => s);
  addresses <- iterate_set (listening s);
  for_each addresses (fun a => when (announceable s a) (swarm (AddExternalAddress a)));;
  external <- get_swarm external_addresses;
  for_each (List.filter is_relayed external) (fun a => swarm (RemoveExternalAddress a));;
  held <- iterate (reservations s);
  modify (fun s => s <| reservations := ∅ |>);;
  for_each held (fun e => swarm (RemoveListener e.2)).

Definition nat_status (status : NatStatus) : M () :=
  s <- gets (fun s => s);
  if negb (bool_decide (configured s = Unknown)) then skip
  else
    match (match status with NatPublic => Some Public | NatPrivate => Some Private | NatUnknown => None end) with
    | None => skip
    | Some next =>
        if bool_decide (next = reachability s) then skip
        else
          modify (fun s => s <| reachability := next |>);;
          (if bool_decide (next = Private) then become_private
           else when (is_private s) become_public);;
          peers <- get_swarm connected_peers;
          swarm (IdentifyPush peers);;
          modify (fun s => s <| provide_due := true |>);;
          emit (reachability_event (if bool_decide (next = Private) then LP2P_REACH_PRIVATE else LP2P_REACH_PUBLIC))
    end.

(** ** [identified] *)

(** [identify::Info], as far as the node looks at it, and whether its
    protocols contain the relay's hop protocol. *)
Record Info := mk_info { info_protocols : list bytes; info_offers_relay : bool; info_listen_addrs : list Multiaddr }.

Definition relay_address (s : State) (peer : PeerId) (info : Info) : option Multiaddr :=
  match dialed s !! peer with
  | Some a => Some a
  | None => find_map (fun a => if negb (is_relayed a) && negb (is_unspecified a) then Some a else None)
                     (info_listen_addrs info)
  end.

Definition identified (peer : PeerId) (info : Info) : M () :=
  s <- gets (fun s => s);
  let speaks_dht := bool_decide (dht_protocol s ∈ info_protocols info) in
  when (info_offers_relay info && (Z.of_nat (size (relay_candidates s)) <? MAX_RELAY_CANDIDATES))
    (match relay_address s peer info with
     | Some address => modify (fun s => s <| relay_candidates ::= insert peer address |>)
     | None => skip
     end);;
  for_each (info_listen_addrs info) (fun a =>
    modify_book (AddressBook.add peer a);;
    when speaks_dht (swarm (KadAddAddress peer a)));;
  reserve.

(** ** [SwarmEvent::NewListenAddr] and [ExpiredListenAddr] *)

Definition new_listen_addr (address : Multiaddr) : M () :=
  s <- gets (fun s => s);
  (if is_relayed address then
     swarm (AddExternalAddress address);;
     peers <- get_swarm connected_peers;
     swarm (IdentifyPush peers);;
     modify (fun s => s <| provide_due := true |>)
   else when (negb (is_unspecified address))
     (modify (fun s => s <| listening ::= union {[address]} |>)));;
  when (negb (is_relayed address) && negb (is_private s) && negb (is_unspecified address) &&
        negb (listens_on_wildcard s && is_loopback address))
    (swarm (AddExternalAddress address));;
  emit (data (new_event LP2P_EV_LISTENING) (to_string address)).

Definition expired_listen_addr (address : Multiaddr) : M () :=
  modify (fun s => s <| listening ::= (.∖ {[address]}) |>).

End relay.
