(* ===== verification/Topics.v ===== *)
(** * Topics: announcements and topics over gossipsub, [src/node.rs]

    The caller's topics by key and by gossipsub topic, the publication of the
    announcement payload, and what becomes of the messages that arrive. *)

From S2P Require Import Prelude Abi Keys Multiaddr AddressBook Libp2p Events NodeState Inbound.
From S2P Require Wire Delegation Limits.

Section topics.
Context {I : Identity} {MA : Multiaddrs I} {H : Handles} {L : Libp2p I MA H}.

(** ** Announcements out *)

Definition announce : M () :=
  s <- gets (fun s => s);
  match announce_topic s, announce_payload s with
  | Some topic, Some payload =>
      if bool_decide (announce_published s = Some payload) then skip
      else
        answer <- swarm (Publish topic (Wire.encode_announcement (own_delegation s) payload));
        match answer with
        | Err NoPeersSubscribedToTopic | Err AllQueuesFull => skip
        | Ok _ | Err _ => modify (fun s => s <| announce_published := Some payload |>)
        end
  | _, _ => skip
  end.

Definition announce_set_payload (payload : bytes) : M () :=
  modify (fun s => s <| announce_payload := Some payload |>);;
  announce.

(** ** Following topics *)

Definition topic_lookup (key : lp2p_key) : M () :=
  query <- swarm (GetProviders (record_key key));
  modify (fun s => s <| topic_lookups ::= insert query key |>);;
  followed <- gets (fun s => bool_decide (is_Some (topics s !! key)));
  when followed
    (t <- now;
     modify (fun s => s <| topics ::= alter (fun ts => ts <| ts_last_lookup := Some t |>) key |>)).

(** [topics_subscribed.store(self.topics.len() as u32)]. *)
Definition store_topic_count : M () :=
  n <- gets (fun s => Z.of_nat (size (topics s)));
  modify_shared (fun sh => sh <| topics_subscribed := as_u32 n |>).

Definition topic_subscribe (key : lp2p_key) : M () :=
  s <- gets (fun s => s);
  if bool_decide (is_Some (topics s !! key)) || (topic_max_subscriptions s <=? Z.of_nat (size (topics s)))
  then skip
  else
    let topic := Wire.topic_name key in
    subscribed <- swarm (Subscribe topic);
    if negb subscribed then skip
    else
      modify (fun s => s <| topic_keys ::= insert (topic_hash topic) key |>);;
      modify (fun s => s <| topics ::= insert key (mk_topic_state topic None) |>);;
      store_topic_count;;
      swarm (StartProviding (record_key key));;
      topic_lookup key.

Definition topic_unsubscribe (key : lp2p_key) : M () :=
  entry <- gets (fun s => topics s !! key);
  modify (fun s => s <| topics ::= delete key |>);;
  match entry with
  | None => skip
  | Some state =>
      swarm (Unsubscribe (ts_topic state));;
      modify (fun s => s <| topic_keys ::= delete (topic_hash (ts_topic state)) |>);;
      swarm (StopProviding (record_key key));;
      store_topic_count
  end.

(** The loop of [dial_topic_members], with [n] peers dialed so far. *)
Fixpoint dial_members (n : Z) (providers : list PeerId) : M () :=
  match providers with
  | [] => skip
  | peer :: rest =>
      if TOPIC_DIALS <=? n then skip
      else
        local <- gets local_peer;
        connected <- get_swarm (fun sw => is_connected sw peer);
        if bool_decide (peer = local) || connected then dial_members n rest
        else
          ok <- swarm (Dial peer);
          dial_members (if ok : bool then n + 1 else n) rest
  end.

Definition dial_topic_members : list PeerId → M () := dial_members 0.

Definition topic_publish (key : lp2p_key) (payload : bytes) : M () :=
  s <- gets (fun s => s);
  match topics s !! key with
  | None => skip
  | Some state =>
      let frame := Wire.encode_announcement (own_delegation s) payload in
      answer <- swarm (Publish (ts_topic state) frame);
      when (negb (is_err answer))
        (modify_shared (fun sh => sh <| topic_out ::= incr64 |>);;
         modify_shared (fun sh => sh <| topic_bytes_out ::= fun n => wrap 64 (n + blen frame) |>))
  end.

Definition topic_peers (key : lp2p_key) : M Z :=
  s <- gets (fun s => s);
  match topics s !! key with
  | None => ret 0
  | Some state => get_swarm (fun sw => blen (mesh_peers sw (topic_hash (ts_topic state))))
  end.

(** ** Messages *)

(** [gossipsub::Message]. *)
Record Message := mk_message { m_source : option PeerId; m_data : bytes; m_topic : TopicHash }.

(** The closures [checked]: the publisher and its key, its group and the
    payload. *)
Definition check_message (message : Message) (now_ms : Z) : option (PeerId * lp2p_key * lp2p_key * bytes) :=
  source ← m_source message;
  node ← key_of source;
  frame ← Wire.decode_announcement (m_data message);
  delegation ← ok (Delegation.parse (Wire.res_delegation frame));
  _ ← ok (Delegation.verify_for delegation node now_ms);
  Some (source, node, Delegation.group delegation, Wire.res_payload frame).

(** Whether the closure gets as far as reading the clock. *)
Definition reads_clock (message : Message) : bool :=
  bool_decide (is_Some (
    source ← m_source message; node ← key_of source; frame ← Wire.decode_announcement (m_data message);
    ok (Delegation.parse (Wire.res_delegation frame)))).

Definition topic_event (key group node : lp2p_key) (payload : bytes) : EventRecord :=
  data (with_node node (with_group group (new_event LP2P_EV_TOPIC_MESSAGE))) (arr key ++ payload).

Definition topic_message (source : PeerId) (message : Message) : M MessageAcceptance :=
  s <- gets (fun s => s);
  match topic_keys s !! m_topic message with
  | None => ret Ignore
  | Some key =>
      t <- now;
      ms <- (if reads_clock message then now_ms else ret 0);
      match check_message message ms with
      | None => ret Reject
      | Some (_, node, group, payload) =>
          if topic_max_message_bytes s <? blen payload then ret Reject
          else
            admitted <- check_limits (Limits.mk_request group source (peer_ips s !! source) LP2P_PROTOCOL_TOPICS)
                                     (blen (m_data message)) t;
            match admitted with
            | Err reason =>
                modify_shared (fun sh => sh <| topic_limited ::= incr64 |>);;
                report <- may_report t;
                when report (emit (limited group node LP2P_PROTOCOL_TOPICS reason));;
                ret Ignore
            | Ok _ =>
                modify_shared (fun sh => sh <| topic_in ::= incr64 |>);;
                modify_shared (fun sh => sh <| topic_bytes_in ::= fun n => wrap 64 (n + blen (m_data message)) |>);;
                emit (topic_event key group node payload);;
                ret Accept
            end
      end
  end.

(** [SourceRate::allow] on the node's announcement rate. *)
Definition allow_announcement (source : PeerId) (now : Z) : M bool := fun w =>
  let '(b, r) := Limits.allow source now (announce_rate (w_state w)) in
  (b, w <| w_state ::= fun s => s <| announce_rate := r |> |>).

Definition announcement_message (message : Message) : M MessageAcceptance :=
  t <- now;
  ms <- (if reads_clock message then now_ms else ret 0);
  s <- gets (fun s => s);
  match check_message message ms with
  | None => ret Reject
  | Some (source, node, group, payload) =>
      if Limits.class_of (limits s) group =? LP2P_CLASS_BLOCKED then ret Reject
      else
        allowed <- allow_announcement source t;
        if allowed then
          emit (data (with_node node (with_group group (new_event LP2P_EV_ANNOUNCEMENT))) payload);;
          ret Accept
        else ret Ignore
  end.

(** [gossipsub::Event]. *)
Inductive GossipsubEvent :=
| Subscribed
| MessageReceived (propagation_source : PeerId) (message_id : MessageId) (message : Message)
| OtherGossipsubEvent.

Definition gossipsub_event (event : GossipsubEvent) : M () :=
  match event with
  | Subscribed => announce
  | MessageReceived source message_id message =>
      followed <- gets (fun s => bool_decide (is_Some (topic_keys s !! m_topic message)));
      acceptance <- (if followed : bool then topic_message source message else announcement_message message);
      swarm (ReportValidation message_id source acceptance)
  | OtherGossipsubEvent => skip
  end.

End topics.
