(* ===== verification/Node.v ===== *)
(** * Node: the event loop, [src/node.rs]

    The dispatch of commands, swarm events and ticks to the handlers of the
    components, the loop that runs them, and the thread's life from its start
    to the closing of the event queue. *)

From S2P Require Import Prelude Abi Keys Multiaddr AddressBook Libp2p Events NodeState.
From S2P Require Import Build Calls Inbound Relay Topics.
From S2P Require Wire Delegation Limits EventQueue.

Section node.
Context {I : Identity} {MA : Multiaddrs I} {H : Handles} {L : Libp2p I MA H} {B : Builders}.

(** ** Queries of the DHT *)

Definition dht_result (id reason : Z) : EventRecord :=
  build (with_reason reason (with_flags LP2P_EVF_LAST (with_id id (new_event LP2P_EV_DHT_RESULT)))).

Definition bootstrap (id : Z) : M () :=
  query <- swarm BootstrapDht;
  match query with
  | Some query => modify (fun s => s <| bootstraps ::= insert query id |>)
  | None => emit (dht_result id LP2P_FAIL_UNREACHABLE)
  end.

Definition random_walk (id : Z) : M () :=
  query <- swarm GetClosestToRandom;
  modify (fun s => s <| walks ::= insert query id |>).

Definition find_providers (id : Z) (key : lp2p_key) : M () :=
  query <- swarm (GetProviders (record_key key));
  modify (fun s => s <| provider_queries ::= insert query id |>).

Definition add_address (node : lp2p_key) (address : Multiaddr) : M () :=
  match peer_id node with
  | Some peer => modify_book (AddressBook.add peer address);; swarm (KadAddAddress peer address)
  | None => skip
  end.

Definition provide_key (key : lp2p_key) (stop : bool) : M () :=
  if stop then swarm (StopProviding (record_key key)) else swarm (StartProviding (record_key key)).

(** ** [routing_sample] *)

(** [iter().cycle().skip(offset).take(n)] of a list that is not empty, for an
    offset below its length and at most its length. *)
Definition cycle_from {A} (offset n : Z) (l : list A) : list A :=
  take (Z.to_nat n) (drop (Z.to_nat offset) l ++ take (Z.to_nat offset) l).

Definition routing_sample (max : Z) : M (list EventRecord) :=
  buckets <- get_swarm kbuckets;
  let entries := concat buckets in
  if bool_decide (entries = []) then ret []
  else
    modify (fun s => s <| sample_offset ::= fun o => wrap 64 (o + 1) mod blen entries |>);;
    offset <- gets sample_offset;
    ret ((fun e : PeerId * list Multiaddr => discovered 0 e.1 e.2) <$>
         cycle_from offset (Z.min max (blen entries)) entries).

(** ** Commands *)

Inductive flow := Continue | Break | Unwind.

(** [State::command], and the two cases the loop takes out before it. *)
Definition command (c : Command) : M flow :=
  match c with
  | Rpc id group node protocol payload timeout =>
      started <- start_call id group node protocol payload timeout;
      ret (match started with Some _ => Continue | None => Unwind end)
  | Respond id payload => respond id payload;; ret Continue
  | RejectRequest id => reject id;; ret Continue
  | AddAddress node address => add_address node address;; ret Continue
  | Bootstrap id => bootstrap id;; ret Continue
  | RandomWalk id => random_walk id;; ret Continue
  | RoutingSample max call =>
      sample <- routing_sample max;
      reply call (SampleReply sample);; ret Continue
  | SetClass group class =>
      modify (fun s => s <| limits ::= Limits.set_class group class |>);; ret Continue
  | AnnounceSetPayload payload => announce_set_payload payload;; ret Continue
  | SetLimit class scope protocol unit rate =>
      modify (fun s => s <| limits ::= Limits.set_limit class scope protocol unit rate |>);; ret Continue
  | TopicSubscribe key => topic_subscribe key;; ret Continue
  | TopicUnsubscribe key => topic_unsubscribe key;; ret Continue
  | TopicPublish key payload => topic_publish key payload;; ret Continue
  | TopicPeers key call =>
      count <- topic_peers key;
      reply call (PeersReply count);; ret Continue
  | Provide key stop => provide_key key stop;; ret Continue
  | FindProviders id key => find_providers id key;; ret Continue
  | Shutdown => ret Break
  end.

(** ** Events of Kademlia *)

(** [kad::Event], as far as the node looks at it. A result of GetProviders is
    [Some] for FoundProviders; GetClosestPeers has its peers in both cases. *)
Inductive KadEvent :=
| RoutingUpdated (peer : PeerId) (addrs : list Multiaddr) (is_new_peer : bool)
| GetProvidersProgressed (query : QueryId) (found : option (gset PeerId)) (last : bool)
| GetClosestPeersProgressed (query : QueryId) (peers : list (PeerId * list Multiaddr))
| BootstrapProgressed (query : QueryId) (succeeded last : bool)
| OtherKadEvent.

Definition routing_updated (peer : PeerId) (addrs : list Multiaddr) (is_new_peer : bool) : M () :=
  for_each addrs (fun a => modify_book (AddressBook.add peer a));;
  when is_new_peer (modify (fun s => s <| provide_due := true |>)).

(** The providers in the order of their iteration, when there are any. *)
Definition iterate_found (found : option (gset PeerId)) : M (option (list PeerId)) :=
  match found with
  | None => ret None
  | Some set => l <- iterate_set set; ret (Some l)
  end.

Definition topic_providers (query : QueryId) (found : option (gset PeerId)) (last : bool) : M () :=
  providers <- iterate_found found;
  match providers with Some l => dial_topic_members l | None => skip end;;
  when last (modify (fun s => s <| topic_lookups ::= delete query |>)).

Definition found_providers (query : QueryId) (id : Z) (found : option (gset PeerId)) (last : bool) : M () :=
  providers <- iterate_found found;
  for_each (default [] providers) (fun p =>
    addrs <- read (fun w => addresses (w_book w) p);
    emit (discovered id p addrs));;
  when last
    (modify (fun s => s <| provider_queries ::= delete query |>);;
     emit (dht_result id 0)).

Definition get_providers_progressed (query : QueryId) (found : option (gset PeerId)) (last : bool) : M () :=
  s <- gets (fun s => s);
  match topic_lookups s !! query with
  | Some _ => topic_providers query found last
  | None =>
      match provider_queries s !! query with
      | Some id => found_providers query id found last
      | None =>
          match provider_lookups s !! query with
          | None => skip
          | Some call_id =>
              (* the set is iterated only for a call that still exists *)
              providers <- (if bool_decide (is_Some (calls s !! call_id)) then iterate_found found else ret None);
              call_providers query call_id providers last
          end
      end
  end.

Definition get_closest_peers_progressed (query : QueryId) (peers : list (PeerId * list Multiaddr)) : M () :=
  for_each peers (fun info => for_each info.2 (fun a => modify_book (AddressBook.add info.1 a)));;
  resolution <- gets (fun s => resolutions s !! query);
  modify (fun s => s <| resolutions ::= delete query |>);;
  match resolution with
  | Some call_id => call_resolved call_id
  | None =>
      walk <- gets (fun s => walks s !! query);
      modify (fun s => s <| walks ::= delete query |>);;
      match walk with
      | Some walk =>
          for_each peers (fun info => emit (discovered walk info.1 info.2));;
          emit (dht_result walk 0)
      | None => skip
      end
  end.

Definition bootstrap_progressed (query : QueryId) (succeeded last : bool) : M () :=
  when last
    (id <- gets (fun s => bootstraps s !! query);
     modify (fun s => s <| bootstraps ::= delete query |>);;
     match id with
     | Some id => emit (dht_result id (if succeeded then 0 else LP2P_FAIL_TIMEOUT))
     | None => skip
     end;;
     modify (fun s => s <| provide_due := true |>)).

Definition kad_event (event : KadEvent) : M () :=
  match event with
  | RoutingUpdated peer addrs is_new_peer => routing_updated peer addrs is_new_peer
  | GetProvidersProgressed query found last => get_providers_progressed query found last
  | GetClosestPeersProgressed query peers => get_closest_peers_progressed query peers
  | BootstrapProgressed query succeeded last => bootstrap_progressed query succeeded last
  | OtherKadEvent => skip
  end.

(** ** Events of request-response *)

Inductive RpcEvent :=
| RequestReceived (peer : PeerId) (connection : ConnectionId) (request_id : InboundRequestId)
    (frame : bytes) (channel : ResponseChannel)
| ResponseReceived (peer : PeerId) (request_id : OutboundRequestId) (frame : bytes)
| OutboundFailed (peer : PeerId) (request_id : OutboundRequestId) (error : OutboundFailure)
| InboundFailed (request_id : InboundRequestId)
| ResponseSent (request_id : InboundRequestId).

Definition rpc_event (event : RpcEvent) : M () :=
  match event with
  | RequestReceived peer connection request_id frame channel =>
      inbound_request peer connection request_id frame channel
  | ResponseReceived peer request_id frame => response peer request_id frame
  | OutboundFailed peer request_id error => outbound_failure peer request_id error
  | InboundFailed request_id | ResponseSent request_id => inbound_done request_id
  end.

(** ** Events of the swarm *)

Inductive ConnectedPoint := Dialer (address : Multiaddr) | Listener (send_back_addr : Multiaddr).

Definition remote_address (e : ConnectedPoint) : Multiaddr :=
  match e with Dialer a => a | Listener a => a end.

Definition is_dialer (e : ConnectedPoint) : bool :=
  match e with Dialer _ => true | Listener _ => false end.

(** [SwarmEvent]; the error of a failed hole punch is its debug text. *)
Inductive SwarmEvent :=
| NewListenAddr (listener : ListenerId) (address : Multiaddr)
| ExpiredListenAddr (address : Multiaddr)
| ListenerClosed (listener : ListenerId)
| ListenerError (listener : ListenerId)
| ConnectionEstablished (peer : PeerId) (connection : ConnectionId) (num_established : Z) (endpoint : ConnectedPoint)
| ConnectionClosed (peer : PeerId) (connection : ConnectionId) (num_established : Z)
| KadBehaviour (event : KadEvent)
| IdentifyBehaviour (peer : PeerId) (info : Info)
| RpcBehaviour (event : RpcEvent)
| GossipsubBehaviour (event : GossipsubEvent)
| DcutrBehaviour (remote : PeerId) (outcome : result ConnectionId bytes)
| AutonatBehaviour (new : NatStatus)
| OtherSwarmEvent.

Definition connection_established (peer : PeerId) (connection : ConnectionId) (num_established : Z)
    (endpoint : ConnectedPoint) : M () :=
  let remote := remote_address endpoint in
  modify (fun s => s <| connections ::= insert connection remote |>);;
  (if is_relayed remote then skip
   else match ip_of remote with
        | Some ip => modify (fun s => s <| peer_ips ::= insert peer ip |>)
        | None => skip
        end);;
  when (is_dialer endpoint && negb (is_relayed remote))
    (modify (fun s => s <| dialed ::= insert peer remote |>));;
  when (num_established =? 1)
    (emit (data (with_node (peer_key peer) (new_event LP2P_EV_PEER_CONNECTED)) (to_string remote))).

Definition connection_closed (peer : PeerId) (connection : ConnectionId) (num_established : Z) : M () :=
  modify (fun s => s <| connections ::= delete connection |>);;
  when (num_established =? 0)
    (modify (fun s => s <| dialed ::= delete peer |>);;
     modify (fun s => s <| peer_ips ::= delete peer |>);;
     emit (build (with_node (peer_key peer) (new_event LP2P_EV_PEER_DISCONNECTED)))).

Definition hole_punch (remote : PeerId) (outcome : result ConnectionId bytes) : M () :=
  s <- gets (fun s => s);
  let event := with_node (peer_key remote) (new_event LP2P_EV_HOLE_PUNCH) in
  emit (match outcome with
        | Ok connection => data event (default [] (to_string <$> connections s !! connection))
        | Err error => data (with_reason 1 event) error
        end).

Definition swarm_event (event : SwarmEvent) : M () :=
  match event with
  | NewListenAddr _ address => new_listen_addr address
  | ExpiredListenAddr address => expired_listen_addr address
  | ListenerClosed listener | ListenerError listener => relay_lost listener
  | ConnectionEstablished peer connection num endpoint => connection_established peer connection num endpoint
  | ConnectionClosed peer connection num => connection_closed peer connection num
  | KadBehaviour event => kad_event event
  | IdentifyBehaviour peer info => identified peer info
  | RpcBehaviour event => rpc_event event
  | GossipsubBehaviour event => gossipsub_event event
  | DcutrBehaviour remote outcome => hole_punch remote outcome
  | AutonatBehaviour new => nat_status new
  | OtherSwarmEvent => skip
  end.

(** ** [tick] *)

(** The topics without a mesh peer that were not looked up recently. *)
Definition lonely (now : Z) (sw : Swarm) (entries : list (lp2p_key * TopicState)) : list lp2p_key :=
  fst <$> List.filter (fun e : lp2p_key * TopicState =>
    none_or_since (ts_last_lookup e.2) now TOPIC_LOOKUP_INTERVAL &&
    bool_decide (mesh_peers sw (topic_hash (ts_topic e.2)) = [])) entries.

Definition tick : M () :=
  t <- now;
  expire t;;
  reserve;;
  announce;;
  followed <- gets topics;
  entries <- iterate followed;
  keys <- get_swarm (fun sw => lonely t sw entries);
  for_each keys topic_lookup;;
  swept <- gets last_sweep;
  when (seconds 10 <=? duration_since t swept)
    (modify (fun s => s <| limits ::= Limits.sweep t |>);;
     modify (fun s => s <| last_sweep := t |>));;
  s <- gets (fun s => s);
  when (provide_due s && none_or_since (last_provide s) t PROVIDE_DEBOUNCE) provide;;
  routing <- get_swarm (fun sw => blen (concat (kbuckets sw)));
  modify_shared (fun sh => sh <| routing_table_peers := as_u32 routing |>);;
  peers <- get_swarm num_peers;
  modify_shared (fun sh => sh <| sh_connections := as_u32 peers |>).

(** ** The loop

    What [select!] picks: a command, the end of the command channel, an event
    or a tick. *)

Inductive Input :=
| InCommand (c : Command)
| InClosed
| InSwarm (event : SwarmEvent)
| InTick.

Definition step (input : Input) : M flow :=
  match input with
  | InCommand c => command c
  | InClosed => ret Break
  | InSwarm event => swarm_event event;; ret Continue
  | InTick => tick;; ret Continue
  end.

(** The loop over the inputs as they are picked, until it ends: [None] while it
    is still waiting for more. *)
Fixpoint run (inputs : list Input) : M (option flow) :=
  match inputs with
  | [] => ret None
  | input :: inputs =>
      f <- step input;
      match f with
      | Continue => run inputs
      | Break | Unwind => ret (Some f)
      end
  end.

(** [await_listeners]: the listeners without an address yet and whether each is
    on a wildcard. The events as they come, [None] when the deadline passes; the
    answer is what was still pending when there was nothing more to look at. *)
Definition listener_reported (event : SwarmEvent) (entry : ListenerId * bool) : bool :=
  match event with
  | NewListenAddr listener address =>
      bool_decide (entry.1 = listener) && (negb entry.2 || negb (is_loopback address))
  | ListenerClosed listener | ListenerError listener => bool_decide (entry.1 = listener)
  | _ => false
  end.

Fixpoint await_listeners (pending : list (ListenerId * bool)) (events : list (option SwarmEvent)) :
    M (list (ListenerId * bool)) :=
  match pending, events with
  | [], _ => ret []
  | _, [] => ret pending
  | _, None :: _ => ret pending
  | _, Some event :: events =>
      let pending := List.filter (fun e => negb (listener_reported event e)) pending in
      swarm_event event;;
      await_listeners pending events
  end.

(** ** The thread *)

Definition reachability_reason (r : Reachability) : Z :=
  match r with
  | Public => LP2P_REACH_PUBLIC
  | Private => LP2P_REACH_PRIVATE
  | Unknown => LP2P_REACH_UNKNOWN
  end.

Fixpoint listen_all (addrs : list Multiaddr) (listeners : list (ListenerId * bool)) :
    M (option (list (ListenerId * bool))) :=
  match addrs with
  | [] => ret (Some listeners)
  | a :: addrs =>
      listener <- swarm (ListenOn a);
      match listener with
      | Some l => listen_all addrs (listeners ++ [(l, is_unspecified a)])
      | None => ret None
      end
  end.

(** The body of [run_thread]: the statuses sent on [ready], in order, and how
    the body ended, [None] while the loop is running. [runtime] is whether the
    runtime could be built. The initial world has the swarm that was built, whose
    local peer is the one of its identity; the state is the one [State::new]
    makes, and nothing reads it before. *)
Definition thread_body (runtime : bool) (config : Config) (keypair : Keypair)
    (events : list (option SwarmEvent)) (inputs : list Input) : M (list Z * option flow) :=
  if negb runtime then ret ([LP2P_ERR_NO_MEMORY], Some Break)
  else match build_swarm config keypair with
  | Err status => ret ([status], Some Break)
  | Ok plan =>
      listeners <- listen_all (cfg_listen config) [];
      match listeners with
      | None => ret ([LP2P_ERR_NETWORK], Some Break)
      | Some listeners =>
          t <- now;
          let local := to_peer_id (keypair_public (sp_identity plan)) in
          modify (fun _ => new_state config local t);;
          await_listeners listeners events;;
          emit (reachability_event (reachability_reason (cfg_reachability config)));;
          provide;;
          f <- run inputs;
          ret ([LP2P_OK], f)
      end
  end.

(** The end of [run_thread]. *)
Definition thread_end (outcome : flow) : M (list Z) :=
  match outcome with
  | Continue | Break =>
      modify_shared (fun sh => sh <| events ::= EventQueue.close LP2P_ERR_SHUT_DOWN |>);; ret []
  | Unwind =>
      modify_shared (fun sh => sh <| poisoned := true |>);;
      modify_shared (fun sh => sh <| events ::= EventQueue.close LP2P_ERR_PANIC |>);;
      ret [LP2P_ERR_PANIC]
  end.

Definition run_thread (runtime : bool) (config : Config) (keypair : Keypair)
    (events : list (option SwarmEvent)) (inputs : list Input) : M (list Z * option flow) :=
  body <- thread_body runtime config keypair events inputs;
  match body with
  | (ready, None) => ret (ready, None)
  | (ready, Some f) => more <- thread_end f; ret (ready ++ more, Some f)
  end.

(** ** [Node::start] *)

(** The checks before the thread is spawned. *)
Definition start_checks (config : Config) (now_ms : Z) : result (Keypair * lp2p_key) Z :=
  keypair <-? ok_or (keypair_from_seed (cfg_node_seed config)) LP2P_ERR_INVALID_ARGUMENT;
  key <-? ok_or (public_key keypair) LP2P_ERR_INVALID_ARGUMENT;
  _ <-? map_err (fun _ => LP2P_ERR_INVALID_ARGUMENT) (Delegation.verify_for (cfg_delegation config) key now_ms);
  Ok (keypair, key).

(** What [start] answers for the first message on [ready]; [None] is a thread
    that went away without one. *)
Definition start_answer (ready : option Z) : result () Z :=
  match ready with
  | Some status => if status =? LP2P_OK then Ok () else Err status
  | None => Err LP2P_ERR_PANIC
  end.

End node.
