(* ===== verification/Ffi.v ===== *)
(** * Ffi: the C functions of [src/ffi.rs]

    The caller's memory is a finite map from addresses to bytes: what is in the
    map is readable and writable. A function is a computation over the memory
    and the live handles; [None] is a use the header's contract forbids -- an
    address that is not readable, a handle that is not live -- about which the
    code promises nothing. Pointers and lengths are 64 bits wide. *)

From S2P Require Import Prelude Abi Keys Multiaddr AddressBook Libp2p Events NodeState.
From S2P Require Wire Delegation Limits EventQueue Node.

(** ** The layout of [lp2p_options]

    The C layout on a 64-bit target, as [tests/abi_layout.rs] checks it. *)

Definition u_at (l : bytes) (offset width : nat) : Z := le_value (slice l offset (offset + width)).
Definition key_at (l : bytes) (offset : nat) : lp2p_key :=
  default zero_key (to_array 32 (slice l offset (offset + 32))).
Definition rate_at (l : bytes) (o : nat) : lp2p_rate :=
  mk_rate (u_at l o 4) (u_at l (o + 4) 4) (u_at l (o + 8) 4).

Definition options_of_bytes (l : bytes) : lp2p_options := {|
  o_struct_size := u_at l 0 4;
  o_node_seed := key_at l 4;
  o_delegation := u_at l 40 8;
  o_delegation_len := u_at l 48 8;
  o_group := key_at l 56;
  o_listen_addrs := u_at l 88 8;
  o_listen_addr_count := u_at l 96 8;
  o_dht_protocol := u_at l 104 8;
  o_rpc_protocols := u_at l 112 8;
  o_rpc_protocol_count := u_at l 120 8;
  o_rpc_max_request_bytes := u_at l 128 4;
  o_rpc_max_response_bytes := u_at l 132 4;
  o_rpc_timeout_ms := u_at l 136 4;
  o_quic := u_at l 140 1;
  o_dcutr := u_at l 141 1;
  o_autonat := u_at l 142 1;
  o_max_connections := u_at l 144 4;
  o_max_connections_per_peer := u_at l 148 4;
  o_max_pending_incoming := u_at l 152 4;
  o_relay := {|
    ro_server := u_at l 160 1;
    ro_client := u_at l 161 1;
    ro_max_reservations := u_at l 164 4;
    ro_max_reservations_per_peer := u_at l 168 4;
    ro_reservation_duration_s := u_at l 172 4;
    ro_max_circuits := u_at l 176 4;
    ro_max_circuits_per_peer := u_at l 180 4;
    ro_max_circuit_duration_s := u_at l 184 4;
    ro_max_circuit_bytes := u_at l 192 8;
    ro_circuits_per_peer := rate_at l 200;
    ro_circuits_per_ip := rate_at l 212;
  |};
  o_announce := mk_announce_options (u_at l 224 1) (u_at l 232 8) (u_at l 240 4);
  o_event_queue_bytes := u_at l 248 8;
  o_reachability := u_at l 256 1;
  o_topic_max_message_bytes := u_at l 260 4;
  o_topic_max_subscriptions := u_at l 264 4;
|}.

(** The bytes of a struct; the padding is zero here and never read. *)
Definition rate_bytes (r : lp2p_rate) : bytes :=
  le_bytes 4 (amount r) ++ le_bytes 4 (interval_ms r) ++ le_bytes 4 (burst r).

Definition options_bytes (o : lp2p_options) : bytes :=
  le_bytes 4 (o_struct_size o) ++ arr (o_node_seed o) ++ repeat x00 4 ++
  le_bytes 8 (o_delegation o) ++ le_bytes 8 (o_delegation_len o) ++ arr (o_group o) ++
  le_bytes 8 (o_listen_addrs o) ++ le_bytes 8 (o_listen_addr_count o) ++
  le_bytes 8 (o_dht_protocol o) ++ le_bytes 8 (o_rpc_protocols o) ++ le_bytes 8 (o_rpc_protocol_count o) ++
  le_bytes 4 (o_rpc_max_request_bytes o) ++ le_bytes 4 (o_rpc_max_response_bytes o) ++
  le_bytes 4 (o_rpc_timeout_ms o) ++
  le_bytes 1 (o_quic o) ++ le_bytes 1 (o_dcutr o) ++ le_bytes 1 (o_autonat o) ++ repeat x00 1 ++
  le_bytes 4 (o_max_connections o) ++ le_bytes 4 (o_max_connections_per_peer o) ++
  le_bytes 4 (o_max_pending_incoming o) ++ repeat x00 4 ++
  (let r := o_relay o in
   le_bytes 1 (ro_server r) ++ le_bytes 1 (ro_client r) ++ repeat x00 2 ++
   le_bytes 4 (ro_max_reservations r) ++ le_bytes 4 (ro_max_reservations_per_peer r) ++
   le_bytes 4 (ro_reservation_duration_s r) ++ le_bytes 4 (ro_max_circuits r) ++
   le_bytes 4 (ro_max_circuits_per_peer r) ++ le_bytes 4 (ro_max_circuit_duration_s r) ++ repeat x00 4 ++
   le_bytes 8 (ro_max_circuit_bytes r) ++ rate_bytes (ro_circuits_per_peer r) ++ rate_bytes (ro_circuits_per_ip r)) ++
  (let a := o_announce o in
   le_bytes 1 (ao_enabled a) ++ repeat x00 7 ++ le_bytes 8 (ao_topic a) ++
   le_bytes 4 (ao_max_payload_bytes a) ++ repeat x00 4) ++
  le_bytes 8 (o_event_queue_bytes o) ++ le_bytes 1 (o_reachability o) ++ repeat x00 3 ++
  le_bytes 4 (o_topic_max_message_bytes o) ++ le_bytes 4 (o_topic_max_subscriptions o) ++ repeat x00 4.

(** The bytes of [lp2p_stats]. *)
Definition stats_bytes (s : lp2p_stats) : bytes :=
  le_bytes 4 (st_size s) ++ le_bytes 4 (st_connections s) ++ le_bytes 4 (st_routing_table_peers s) ++
  le_bytes 4 (st_topics_subscribed s) ++ le_bytes 8 (st_rpc_in s) ++ le_bytes 8 (st_rpc_out s) ++
  le_bytes 8 (st_rpc_limited s) ++ le_bytes 8 (st_events_dropped s) ++ le_bytes 8 (st_topic_in s) ++
  le_bytes 8 (st_topic_out s) ++ le_bytes 8 (st_topic_bytes_in s) ++ le_bytes 8 (st_topic_bytes_out s) ++
  le_bytes 8 (st_topic_limited s).

Definition sizeof_lp2p_stats : Z := 88.

(** ** The process *)

Section ffi.
Context {I : Identity} {MA : Multiaddrs I} {H : Handles} {L : Libp2p I MA H}.

(** The handle C holds: [node::Node]. [node_receiving] is whether the thread
    still holds the other end of the command channel, [node_sent] what is in
    it. *)
Record Node := mk_node {
  node_sent : list Command;
  node_receiving : bool;
  node_shared : Shared;
  node_rpc_protocol_count : Z;
  node_rpc_max_request_bytes : Z;
  node_rpc_timeout : Z;
  node_announce_max_payload_bytes : option Z;
  node_topic_max_message_bytes : Z;
  node_topic_max_subscriptions : Z;
}.

#[export] Instance eta_Node : Eta Node := {| eta n :=
  mk_node (node_sent n) (node_receiving n) (node_shared n) (node_rpc_protocol_count n)
    (node_rpc_max_request_bytes n) (node_rpc_timeout n) (node_announce_max_payload_bytes n)
    (node_topic_max_message_bytes n) (node_topic_max_subscriptions n) |}.

Record Process := mk_process { memory : gmap Z byte; handles : gmap Z Node }.

#[export] Instance eta_Process : Eta Process := {| eta p := mk_process (memory p) (handles p) |}.

Definition F (A : Type) : Type := Process → option (result A Z * Process).

Definition pure {A} (r : result A Z) : F A := fun p => Some (r, p).
Definition undefined {A} : F A := fun _ => None.
Definition fbind {A B} (m : F A) (k : A → F B) : F B := fun p =>
  '(r, p) ← m p;
  match r with Ok a => k a p | Err e => Some (Err e, p) end.

Notation "x <-! m ; k" := (fbind m (fun x => k)) (at level 100, m at next level, right associativity).

(** [status]: the [i32] the C function returns. *)
Definition status (r : result Z Z) : Z := match r with Ok s => s | Err e => e end.

(** *** Reading and writing the caller's memory *)

Fixpoint load (m : gmap Z byte) (p : Z) (n : nat) : option bytes :=
  match n with
  | O => Some []
  | S n => b ← m !! p; l ← load m (p + 1) n; Some (b :: l)
  end.

Fixpoint store (m : gmap Z byte) (p : Z) (l : bytes) : option (gmap Z byte) :=
  match l with
  | [] => Some m
  | b :: l => _ ← m !! p; store (<[p := b]> m) (p + 1) l
  end.

Definition load_bytes (p : Z) (n : Z) : F bytes := fun pr =>
  l ← load (memory pr) p (Z.to_nat n); Some (Ok l, pr).

Definition store_bytes (p : Z) (l : bytes) : F () := fun pr =>
  m ← store (memory pr) p l; Some (Ok (), pr <| memory := m |>).

(** The bytes up to the first NUL; [fuel] bounds the search by the size of the
    memory, which no readable string exceeds. *)
Fixpoint load_cstr (fuel : nat) (m : gmap Z byte) (p : Z) : option bytes :=
  match fuel with
  | O => None
  | S fuel =>
      b ← m !! p;
      if bool_decide (b = x00) then Some [] else l ← load_cstr fuel m (p + 1); Some (b :: l)
  end.

Definition string (p : Z) : F bytes :=
  if p =? 0 then pure (Err LP2P_ERR_INVALID_ARGUMENT)
  else fun pr =>
    l ← load_cstr (S (size (memory pr))) (memory pr) p;
    Some (if Wire.utf8_valid l then Ok l else Err LP2P_ERR_INVALID_ARGUMENT, pr).

(** [collect] of results stops at the first error. *)
Fixpoint string_list (pointers : list Z) : F (list bytes) :=
  match pointers with
  | [] => pure (Ok [])
  | p :: pointers => s <-! string p; l <-! string_list pointers; pure (Ok (s :: l))
  end.

(** The [count] pointers at [p]. *)
Definition load_pointers (p count : Z) : F (list Z) :=
  l <-! load_bytes p (8 * count);
  pure (Ok ((fun i => u_at l (8 * i) 8) <$> seq 0 (Z.to_nat count))).

Definition strings (p count : Z) : F (list bytes) :=
  if count =? 0 then pure (Ok [])
  else if p =? 0 then pure (Err LP2P_ERR_INVALID_ARGUMENT)
  else l <-! load_pointers p count; string_list l.

Definition byte_slice (p len : Z) : F bytes :=
  if len =? 0 then pure (Ok [])
  else if p =? 0 then pure (Err LP2P_ERR_INVALID_ARGUMENT)
  else load_bytes p len.

Definition key (p : Z) : F lp2p_key :=
  if p =? 0 then pure (Err LP2P_ERR_INVALID_ARGUMENT)
  else l <-! load_bytes p 32; pure (Ok (default zero_key (to_array 32 l))).

Definition handle (node : Z) : F Node :=
  if node =? 0 then pure (Err LP2P_ERR_INVALID_ARGUMENT)
  else fun pr => n ← handles pr !! node; Some (Ok n, pr).

(** *** [Node::next_id] and [Node::send], on the node of a handle *)

Definition update_node (node : Z) (f : Node → Node) : F () := fun pr =>
  Some (Ok (), pr <| handles ::= alter f node |>).

Definition next_id_of (node : Z) (n : Node) : F Z :=
  _ <-! update_node node (fun n => n <| node_shared ::= fun sh => sh <| next_id ::= incr64 |> |>);
  pure (Ok (next_id (node_shared n))).

Definition send (node : Z) (n : Node) (c : Command) : F Z :=
  if poisoned (node_shared n) then pure (Ok LP2P_ERR_PANIC)
  else if node_receiving n then
    _ <-! update_node node (fun n => n <| node_sent ::= fun l => l ++ [c] |>);
    pure (Ok LP2P_OK)
  else pure (Ok LP2P_ERR_SHUT_DOWN).

(** [require(ok)]: an error unless [ok]. *)
Definition require (ok : bool) (e : Z) : F () := pure (if ok then Ok () else Err e).

(** ** Options *)

Definition lp2p_abi_version : Z := LP2P_ABI_VERSION.

Definition lp2p_options_default (opt : Z) : F () :=
  if opt =? 0 then pure (Ok ()) else store_bytes opt (options_bytes default_options).

Definition limit (value : Z) : option Z := if value =? 0 then None else Some value.

(** [rate.interval_ms / rate.amount] milliseconds, at least one. *)
Definition token_bucket (r : lp2p_rate) : option TokenBucket :=
  if burst r =? 0 then None
  else if (amount r =? 0) || (interval_ms r =? 0) then None
  else Some (mk_token_bucket (burst r) (millis (Z.max (interval_ms r / amount r) 1))).

Definition relay_config (o : lp2p_relay_options) : RelayConfig :=
  mk_relay_config (negb (ro_server o =? 0)) (negb (ro_client o =? 0))
    (ro_max_reservations o) (ro_max_reservations_per_peer o) (seconds (ro_reservation_duration_s o))
    (ro_max_circuits o) (ro_max_circuits_per_peer o) (seconds (ro_max_circuit_duration_s o))
    (ro_max_circuit_bytes o) (token_bucket (ro_circuits_per_peer o)) (token_bucket (ro_circuits_per_ip o)).

Definition reachability_from (r : Z) : result Reachability Z :=
  if r =? LP2P_REACH_PRIVATE then Ok Private
  else if r =? LP2P_REACH_PUBLIC then Ok Public
  else if r =? LP2P_REACH_UNKNOWN then Ok Unknown
  else Err LP2P_ERR_INVALID_ARGUMENT.

Fixpoint parse_addresses (l : list bytes) : result (list Multiaddr) Z :=
  match l with
  | [] => Ok []
  | s :: l =>
      a <-? ok_or (parse_multiaddr s) LP2P_ERR_INVALID_ARGUMENT;
      l <-? parse_addresses l;
      Ok (a :: l)
  end.

(** [StreamProtocol::try_from_owned]: the name must start with a slash. *)
Definition stream_protocol (s : bytes) : result bytes Z :=
  if bool_decide (head s = Some x2f) then Ok s else Err LP2P_ERR_INVALID_ARGUMENT.

(** "/announce". *)
Definition announce_suffix : bytes := [x2f; x61; x6e; x6e; x6f; x75; x6e; x63; x65].

Definition announce_config (o : lp2p_announce_options) (dht_protocol : bytes) : F (option AnnounceConfig) :=
  if ao_enabled o =? 0 then pure (Ok None)
  else
    topic <-! (if ao_topic o =? 0 then pure (Ok (dht_protocol ++ announce_suffix)) else string (ao_topic o));
    _ <-! require (negb (bool_decide (topic = []))) LP2P_ERR_INVALID_ARGUMENT;
    pure (Ok (Some (mk_announce_config topic (ao_max_payload_bytes o)))).

Definition protocols_ok (l : list bytes) : bool :=
  (blen l <=? 65535) && forallb (fun p => negb (bool_decide (p = [])) && (blen p <=? 255)) l.

Definition config_from (o : lp2p_options) : F Config :=
  raw <-! byte_slice (o_delegation o) (o_delegation_len o);
  delegation <-! pure (map_err (fun _ => LP2P_ERR_INVALID_ARGUMENT) (Delegation.parse raw));
  _ <-! require (bool_decide (Delegation.group delegation = o_group o)) LP2P_ERR_INVALID_ARGUMENT;
  listen <-! strings (o_listen_addrs o) (o_listen_addr_count o);
  listen <-! pure (parse_addresses listen);
  dht <-! string (o_dht_protocol o);
  dht <-! pure (stream_protocol dht);
  protocols <-! strings (o_rpc_protocols o) (o_rpc_protocol_count o);
  announce <-! announce_config (o_announce o) dht;
  _ <-! require (protocols_ok protocols) LP2P_ERR_INVALID_ARGUMENT;
  _ <-! require (negb ((o_rpc_max_request_bytes o =? 0) || (o_rpc_max_response_bytes o =? 0) ||
                       (o_rpc_timeout_ms o =? 0))) LP2P_ERR_INVALID_ARGUMENT;
  reach <-! pure (reachability_from (o_reachability o));
  pure (Ok {|
    cfg_node_seed := o_node_seed o;
    cfg_delegation := delegation;
    cfg_listen := listen;
    cfg_dht_protocol := dht;
    cfg_rpc_protocols := protocols;
    cfg_rpc_max_request_bytes := o_rpc_max_request_bytes o;
    cfg_rpc_max_response_bytes := o_rpc_max_response_bytes o;
    cfg_rpc_timeout := millis (o_rpc_timeout_ms o);
    cfg_quic := negb (o_quic o =? 0);
    cfg_dcutr := negb (o_dcutr o =? 0);
    cfg_autonat := negb (o_autonat o =? 0);
    cfg_reachability := reach;
    cfg_relay := relay_config (o_relay o);
    cfg_max_connections := limit (o_max_connections o);
    cfg_max_connections_per_peer := limit (o_max_connections_per_peer o);
    cfg_max_pending_incoming := limit (o_max_pending_incoming o);
    cfg_announce := announce;
    cfg_event_queue_bytes := Z.max (o_event_queue_bytes o) (o_rpc_max_response_bytes o + 4096);
    cfg_topic_max_message_bytes := o_topic_max_message_bytes o;
    cfg_topic_max_subscriptions := o_topic_max_subscriptions o |}).

(** ** The life of a handle *)

(** The options [lp2p_start] works with: the defaults, overwritten by as much as
    the caller's header knew. *)
Definition start_options (size : Z) (caller : bytes) : lp2p_options :=
  let known := Z.to_nat (Z.min size sizeof_lp2p_options) in
  options_of_bytes (take known caller ++ drop known (options_bytes default_options)).

Definition new_node (config : Config) : Node := {|
  node_sent := [];
  node_receiving := true;
  node_shared := new_shared config;
  node_rpc_protocol_count := blen (cfg_rpc_protocols config);
  node_rpc_max_request_bytes := cfg_rpc_max_request_bytes config;
  node_rpc_timeout := cfg_rpc_timeout config;
  node_announce_max_payload_bytes := an_max_payload_bytes <$> cfg_announce config;
  node_topic_max_message_bytes := cfg_topic_max_message_bytes config;
  node_topic_max_subscriptions := cfg_topic_max_subscriptions config;
|}.

(** [Node::start]: the clock reading it makes, whether the thread could be
    spawned, and what the thread reported first. *)
Definition node_start (config : Config) (now_ms : Z) (spawned : bool) (ready : option Z) : result Node Z :=
  _ <-? Node.start_checks config now_ms;
  if negb spawned then Err LP2P_ERR_NO_MEMORY
  else
    _ <-? Node.start_answer ready;
    Ok (new_node config).

(** [address] is where [Box::new] put the handle. *)
Definition lp2p_start (opt out : Z) (now_ms : Z) (spawned : bool) (ready : option Z) (address : Z) : F Z :=
  if (opt =? 0) || (out =? 0) then pure (Ok LP2P_ERR_INVALID_ARGUMENT)
  else
    head <-! load_bytes opt 4;
    let size := le_value head in
    if size <? 4 then pure (Ok LP2P_ERR_INVALID_ARGUMENT)
    else
      caller <-! load_bytes opt (Z.min size sizeof_lp2p_options);
      config <-! config_from (start_options size caller);
      n <-! pure (node_start config now_ms spawned ready);
      _ <-! (fun pr => Some (Ok (), pr <| handles ::= insert address n |>));
      _ <-! store_bytes out (le_bytes 8 address);
      pure (Ok LP2P_OK).

(** Dropping the node sends Shutdown and joins the thread. *)
Definition lp2p_shutdown (node : Z) : F Z :=
  if node =? 0 then pure (Ok LP2P_ERR_INVALID_ARGUMENT)
  else
    _ <-! handle node;
    _ <-! (fun pr => Some (Ok (), pr <| handles ::= delete node |>));
    pure (Ok LP2P_OK).

(** ** Events *)

(** One pass of [EventQueue::poll] at [now], for a call that began at [began];
    [None] while it goes on waiting. *)
Definition lp2p_poll (node buf cap timeout_ms began now : Z) : F (option Z) :=
  n <-! handle node;
  _ <-! require (negb (((buf =? 0) && (0 <? cap)) || (timeout_ms <? 0))) LP2P_ERR_INVALID_ARGUMENT;
  match EventQueue.poll_pass now (began + millis timeout_ms) cap (events (node_shared n)) with
  | None => pure (Ok None)
  | Some (answer, out, queue) =>
      _ <-! update_node node (fun n => n <| node_shared ::= fun sh => sh <| events := queue |> |>);
      _ <-! store_bytes buf out;
      pure (Ok (Some answer))
  end.

(** ** RPC *)

Definition lp2p_rpc_request (node group node_key protocol data len timeout_ms request_id : Z) : F Z :=
  n <-! handle node;
  group <-! key group;
  target <-! (if node_key =? 0 then pure (Ok None) else k <-! key node_key; pure (Ok (Some k)));
  payload <-! byte_slice data len;
  _ <-! require (negb ((request_id =? 0) || (node_rpc_protocol_count n <=? protocol) ||
                       (node_rpc_max_request_bytes n <? len))) LP2P_ERR_INVALID_ARGUMENT;
  _ <-! require (match target with Some k => bool_decide (is_Some (peer_id k)) | None => true end)
                LP2P_ERR_INVALID_ARGUMENT;
  id <-! next_id_of node n;
  let timeout := if timeout_ms =? 0 then node_rpc_timeout n else millis timeout_ms in
  sent <-! send node n (Rpc id group target protocol payload timeout);
  _ <-! (if sent =? LP2P_OK then store_bytes request_id (le_bytes 8 id) else pure (Ok ()));
  pure (Ok sent).

Definition lp2p_rpc_respond (node request_id data len : Z) : F Z :=
  n <-! handle node;
  payload <-! byte_slice data len;
  send node n (Respond request_id payload).

Definition lp2p_rpc_reject (node request_id : Z) : F Z :=
  n <-! handle node;
  send node n (RejectRequest request_id).

(** ** Classes and limits *)

Definition lp2p_peer_set_class (node group peer_class : Z) : F Z :=
  n <-! handle node;
  group <-! key group;
  send node n (SetClass group peer_class).

Definition set_limit (node peer_class scope protocol : Z) (unit : Limits.Unit) (r : lp2p_rate) : F Z :=
  n <-! handle node;
  let named := (protocol =? LP2P_PROTOCOL_ANY) || (protocol =? LP2P_PROTOCOL_TOPICS) ||
               (protocol <? node_rpc_protocol_count n) in
  _ <-! require (negb ((LP2P_SCOPE_GLOBAL <? scope) || (peer_class =? LP2P_CLASS_BLOCKED) || negb named))
                LP2P_ERR_INVALID_ARGUMENT;
  send node n (SetLimit peer_class scope protocol unit r).

Definition lp2p_limit_set (node peer_class scope protocol : Z) (r : lp2p_rate) : F Z :=
  set_limit node peer_class scope protocol Limits.Messages r.
Definition lp2p_limit_set_bytes (node peer_class scope protocol : Z) (r : lp2p_rate) : F Z :=
  set_limit node peer_class scope protocol Limits.Bytes r.

(** ** Announcements and topics *)

Definition lp2p_announce_set_payload (node data len : Z) : F Z :=
  n <-! handle node;
  payload <-! byte_slice data len;
  match node_announce_max_payload_bytes n with
  | None => pure (Ok LP2P_ERR_UNAVAILABLE)
  | Some max =>
      _ <-! require (blen payload <=? max) LP2P_ERR_INVALID_ARGUMENT;
      send node n (AnnounceSetPayload payload)
  end.

Definition lp2p_topic_subscribe (node topic_key : Z) : F Z :=
  n <-! handle node;
  k <-! key topic_key;
  if node_topic_max_subscriptions n <=? topics_subscribed (node_shared n)
  then pure (Ok LP2P_ERR_LIMITED)
  else send node n (TopicSubscribe k).

Definition lp2p_topic_unsubscribe (node topic_key : Z) : F Z :=
  n <-! handle node;
  k <-! key topic_key;
  send node n (TopicUnsubscribe k).

Definition lp2p_topic_publish (node topic_key data len : Z) : F Z :=
  n <-! handle node;
  k <-! key topic_key;
  payload <-! byte_slice data len;
  _ <-! require (blen payload <=? node_topic_max_message_bytes n) LP2P_ERR_INVALID_ARGUMENT;
  send node n (TopicPublish k payload).

(** [answer] is what came back within five seconds; [call] names the reply
    channel. *)
Definition lp2p_topic_peers (node topic_key : Z) (call : nat) (answer : option Z) : F Z :=
  n <-! handle node;
  k <-! key topic_key;
  sent <-! send node n (TopicPeers k call);
  if negb (sent =? LP2P_OK) then pure (Ok sent)
  else
    count <-! pure (ok_or answer LP2P_ERR_SHUT_DOWN);
    pure (Ok (Z.min count (2 ^ 31 - 1))).

(** ** The DHT *)

Definition lp2p_dht_provide (node record_key : Z) : F Z :=
  n <-! handle node;
  k <-! key record_key;
  send node n (Provide k false).

Definition lp2p_dht_stop_providing (node record_key : Z) : F Z :=
  n <-! handle node;
  k <-! key record_key;
  send node n (Provide k true).

Definition query (node query_id : Z) (make : Z → Command) : F Z :=
  n <-! handle node;
  _ <-! require (negb (query_id =? 0)) LP2P_ERR_INVALID_ARGUMENT;
  id <-! next_id_of node n;
  sent <-! send node n (make id);
  _ <-! (if sent =? LP2P_OK then store_bytes query_id (le_bytes 8 id) else pure (Ok ()));
  pure (Ok sent).

Definition lp2p_dht_find_providers (node record_key query_id : Z) : F Z :=
  k <-! key record_key;
  query node query_id (fun id => FindProviders id k).

Definition lp2p_dht_bootstrap (node query_id : Z) : F Z := query node query_id Bootstrap.
Definition lp2p_dht_random_walk (node query_id : Z) : F Z := query node query_id RandomWalk.

Definition lp2p_add_address (node node_key multiaddr : Z) : F Z :=
  n <-! handle node;
  target <-! key node_key;
  _ <-! require (bool_decide (is_Some (peer_id target))) LP2P_ERR_INVALID_ARGUMENT;
  s <-! string multiaddr;
  address <-! pure (ok_or (parse_multiaddr s) LP2P_ERR_INVALID_ARGUMENT);
  send node n (AddAddress target address).

(** The loop that copies whole records while they fit. *)
Fixpoint copy_records (cap written : Z) (out : bytes) (records : list EventRecord) : Z * bytes :=
  match records with
  | [] => (written, out)
  | r :: records =>
      if cap <? written + blen r then (written, out)
      else copy_records cap (written + blen r) (out ++ r) records
  end.

Definition lp2p_routing_sample (node buf cap max_peers : Z) (call : nat) (answer : option (list EventRecord)) : F Z :=
  n <-! handle node;
  _ <-! require (negb ((buf =? 0) && (0 <? cap))) LP2P_ERR_INVALID_ARGUMENT;
  sent <-! send node n (RoutingSample max_peers call);
  if negb (sent =? LP2P_OK) then pure (Ok sent)
  else
    records <-! pure (ok_or answer LP2P_ERR_SHUT_DOWN);
    let '(written, out) := copy_records cap 0 [] records in
    _ <-! store_bytes buf out;
    pure (Ok (as_i32 written)).

(** ** Statistics *)

Definition stats_of (size : Z) (sh : Shared) : lp2p_stats := {|
  st_size := as_u32 size;
  st_connections := sh_connections sh;
  st_routing_table_peers := routing_table_peers sh;
  st_topics_subscribed := topics_subscribed sh;
  st_rpc_in := rpc_in sh;
  st_rpc_out := rpc_out sh;
  st_rpc_limited := rpc_limited sh;
  st_events_dropped := EventQueue.dropped (events sh);
  st_topic_in := topic_in sh;
  st_topic_out := topic_out sh;
  st_topic_bytes_in := topic_bytes_in sh;
  st_topic_bytes_out := topic_bytes_out sh;
  st_topic_limited := topic_limited sh;
|}.

Definition lp2p_stats_get (node out : Z) : F Z :=
  n <-! handle node;
  _ <-! require (negb (out =? 0)) LP2P_ERR_INVALID_ARGUMENT;
  head <-! load_bytes out 4;
  let size := le_value head in
  _ <-! require (4 <=? size) LP2P_ERR_INVALID_ARGUMENT;
  _ <-! store_bytes out (take (Z.to_nat (Z.min size sizeof_lp2p_stats)) (stats_bytes (stats_of size (node_shared n))));
  pure (Ok LP2P_OK).

(** ** Keys and delegations *)

Definition lp2p_key_from_seed (seed out : Z) : F Z :=
  seed <-! key seed;
  _ <-! require (negb (out =? 0)) LP2P_ERR_INVALID_ARGUMENT;
  keypair <-! pure (ok_or (keypair_from_seed seed) LP2P_ERR_INVALID_ARGUMENT);
  public <-! pure (ok_or (public_key keypair) LP2P_ERR_INVALID_ARGUMENT);
  _ <-! store_bytes out (arr public);
  pure (Ok LP2P_OK).

Definition lp2p_delegation_sign (group_seed node_key expires_ms out : Z) : F Z :=
  seed <-! key group_seed;
  n <-! key node_key;
  _ <-! require (negb (out =? 0)) LP2P_ERR_INVALID_ARGUMENT;
  delegation <-! pure (ok_or (Delegation.sign seed n expires_ms) LP2P_ERR_INVALID_ARGUMENT);
  _ <-! store_bytes out (Delegation.to_bytes delegation);
  pure (Ok LP2P_OK).

(** [clock] is what [now_ms()] answers. *)
Definition lp2p_delegation_verify (delegation len now_ms_or_zero group_out node_out clock : Z) : F Z :=
  raw <-! byte_slice delegation len;
  parsed <-! pure (map_err (fun _ => LP2P_ERR_INVALID_ARGUMENT) (Delegation.parse raw));
  let now := if now_ms_or_zero =? 0 then clock else now_ms_or_zero in
  _ <-! pure (map_err (fun _ => LP2P_ERR_INVALID_ARGUMENT) (Delegation.verify parsed now));
  _ <-! (if group_out =? 0 then pure (Ok ()) else store_bytes group_out (arr (Delegation.group parsed)));
  _ <-! (if node_out =? 0 then pure (Ok ()) else store_bytes node_out (arr (Delegation.node parsed)));
  pure (Ok LP2P_OK).

End ffi.
