(* ===== verification/ToyNode.v ===== *)
(** * ToyNode: a concrete node for examples

    A node with one RPC protocol on the toy platform, for the witnesses of the
    theorems about the node. *)

From S2P Require Import Prelude Abi Keys Toy Multiaddr AddressBook Libp2p Events NodeState.
From S2P Require Import Calls Inbound Relay Topics Node.
From S2P Require F64 Wire Delegation Limits EventQueue.

(** The node's seed is 0x11.., its group's 0x22..; its delegation does not
    expire. *)
Definition toy_node_seed : array 32 := array_fill 32 x11.
Definition toy_group_seed : array 32 := array_fill 32 x22.

Definition toy_delegation : Delegation.Delegation :=
  default (Delegation.mk_delegation zero_key zero_key 0 (array_fill 64 x00))
    (Delegation.sign toy_group_seed (key_byte x11) 0).

Definition toy_config : Config := {|
  cfg_node_seed := toy_node_seed;
  cfg_delegation := toy_delegation;
  cfg_listen := [];
  cfg_dht_protocol := [x2f; x64];
  cfg_rpc_protocols := [[x2f; x70]];
  cfg_rpc_max_request_bytes := 100;
  cfg_rpc_max_response_bytes := 100;
  cfg_rpc_timeout := seconds 10;
  cfg_quic := true;
  cfg_dcutr := true;
  cfg_autonat := true;
  cfg_reachability := Public;
  cfg_relay := mk_relay_config true true 8 2 (seconds 60) 8 2 (seconds 60) 1000 None None;
  cfg_max_connections := None;
  cfg_max_connections_per_peer := None;
  cfg_max_pending_incoming := None;
  cfg_announce := Some (mk_announce_config [x2f; x61] 100);
  cfg_event_queue_bytes := 10000;
  cfg_topic_max_message_bytes := 100;
  cfg_topic_max_subscriptions := 4;
|}.

Definition toy_peer (b : byte) : PeerId := Some (key_byte b).

(** The state a thread starts from, on a swarm that is connected to [peers]. *)
Definition toy_world (peers : list PeerId) : World := {|
  w_state := new_state toy_config (toy_peer x11) 0;
  w_swarm := mk_toy_swarm 0 0 0 peers : Swarm;
  w_book := default_book;
  w_shared := new_shared toy_config;
  w_tick := 1;
  w_emitted := [];
  w_replies := [];
|}.

(** A delegation of the group for the node [b]. *)
Definition toy_delegation_for (b : byte) : Delegation.Delegation :=
  default (Delegation.mk_delegation zero_key zero_key 0 (array_fill 64 x00))
    (Delegation.sign toy_group_seed (key_byte b) 0).

(** A response frame of the node [b] that answers [payload]. *)
Definition toy_response (b : byte) (payload : bytes) : bytes :=
  Wire.encode_response (Delegation.to_bytes (toy_delegation_for b)) payload.

(** ** An exchange

    The caller asks node 0x33 of the group under the id 7; the node answers. *)

Definition toy_group : lp2p_key := Delegation.group toy_delegation.

Definition toy_request : @OutboundRequestId ToyHandles := 0%nat.

Definition toy_ask : Input :=
  InCommand (Rpc 7 toy_group (Some (key_byte x33)) 0 [x01] (seconds 10)).

Definition toy_answer : Input :=
  InSwarm (RpcBehaviour (ResponseReceived (toy_peer x33) toy_request (toy_response x33 [x02]))).

Definition toy_start : World := toy_world [toy_peer x33].
Definition toy_asked : World := (step toy_ask toy_start).2.
Definition toy_answered : World := (step toy_answer toy_asked).2.
