(* ===== verification/CallsInv.v ===== *)
(** * CallsInv: no call is ever stuck

    Every call in [calls] waits for something that libp2p will report: one
    outstanding request, one resolution, or the lookup of its group's providers.
    [calls_wf] says so, and the lemmas below show that each operation of [Calls]
    keeps it. [balance] counts what the caller sees of a call: it is in progress
    or it has been reported, never both and never neither. *)

From S2P Require Import Prelude Abi Keys Multiaddr AddressBook Libp2p Events NodeState Calls.
From S2P Require Wire Delegation EventQueue.

(** ** Maps from outstanding operations to calls *)

Section tracks.
Context `{Countable K}.

(** [id] is the owner of exactly one entry, or of none. *)
Definition tracks (m : gmap K Z) (id : Z) (b : bool) : Prop :=
  if b then ∃ k, m !! k = Some id ∧ ∀ k', m !! k' = Some id → k' = k
  else ∀ k, m !! k ≠ Some id.

Lemma tracks_insert_same m k id : m !! k = None → tracks m id false → tracks (<[k := id]> m) id true.
Proof.
  intros Hk Hm. exists k. rewrite lookup_insert_eq. split; [done|]. intros k' Hk'.
  destruct (decide (k' = k)) as [->|]; [done|]. rewrite lookup_insert_ne in Hk' by done. by destruct (Hm k').
Qed.

Lemma tracks_insert_other m k id id' b :
  m !! k = None → id' ≠ id → tracks m id' b → tracks (<[k := id]> m) id' b.
Proof.
  intros Hk Hne. destruct b; cbn.
  - intros (k1 & H1 & Hu). exists k1. split.
    + rewrite lookup_insert_ne; [done|]. intros ->. congruence.
    + intros k' Hk'. destruct (decide (k' = k)) as [->|]; [rewrite lookup_insert_eq in Hk'; congruence|].
      rewrite lookup_insert_ne in Hk' by done. by apply Hu.
  - intros Hm k' Hk'. destruct (decide (k' = k)) as [->|]; [rewrite lookup_insert_eq in Hk'; congruence|].
    rewrite lookup_insert_ne in Hk' by done. by apply (Hm k').
Qed.

Lemma tracks_delete_same m k id b : m !! k = Some id → tracks m id b → tracks (delete k m) id false.
Proof.
  intros Hk Hm k' Hk'. apply lookup_delete_Some in Hk' as [Hne Hk']. destruct b; [|by apply (Hm k)].
  destruct Hm as (k1 & _ & Hu). apply Hne. by rewrite (Hu k), (Hu k').
Qed.

Lemma tracks_delete_other m k id b : m !! k ≠ Some id → tracks m id b → tracks (delete k m) id b.
Proof.
  intros Hk. destruct b; cbn.
  - intros (k1 & H1 & Hu). exists k1. split.
    + rewrite lookup_delete_ne; [done|]. intros ->. done.
    + intros k' [_ Hk']%lookup_delete_Some. by apply Hu.
  - intros Hm k' [_ Hk']%lookup_delete_Some. by apply (Hm k').
Qed.

Lemma tracks_empty id : tracks ∅ id false.
Proof. intros k. by rewrite lookup_empty. Qed.

Lemma tracks_unique m k k' id b : tracks m id b → m !! k = Some id → m !! k' = Some id → k = k'.
Proof.
  intros Hm Hk Hk'. destruct b; [|by destruct (Hm k)]. destruct Hm as (k1 & _ & Hu).
  by rewrite (Hu k), (Hu k').
Qed.

Lemma tracks_owner m k id b : m !! k = Some id → tracks m id b → b = true.
Proof. intros Hk. destruct b; [done|]. intros Hm. by destruct (Hm k). Qed.

End tracks.

Section invariant.
Context {I : Identity} {MA : Multiaddrs I} {H : Handles} {L : Libp2p I MA H} {LL : Libp2pLaws L}.

(** ** The invariant *)

(** What the flags of a call say is what is outstanding for it, and its queue
    holds peers once. *)
Record call_ok (s : State) (id : Z) (call : Call) : Prop := mk_call_ok {
  co_in_flight : tracks (outbound s) id (in_flight call);
  co_resolving : tracks (resolutions s) id (resolving call);
  co_lookup : tracks (provider_lookups s) id (lookup_running call);
  co_one : in_flight call && resolving call = false;
  co_queue : NoDup (candidates call);
  co_seen : ∀ p, p ∈ candidates call → p ∈ seen call;
}.

(** The call waits for something. *)
Definition waiting (call : Call) : Prop :=
  in_flight call = true ∨ resolving call = true ∨ lookup_running call = true ∧ candidates call = [].

(** Nothing is outstanding for an id. *)
Definition unknown_id (s : State) (id : Z) : Prop :=
  calls s !! id = None ∧ tracks (outbound s) id false ∧ tracks (resolutions s) id false ∧
  tracks (provider_lookups s) id false.

(** The part of the invariant that is not about the call [but]. *)
Record calls_wf_but (but : option Z) (used : gset Z) (w : World) : Prop := mk_calls_wf {
  cw_requests : ∀ r, is_Some (outbound (w_state w) !! r) → r ∈ requests (w_swarm w);
  cw_resolutions : ∀ q, is_Some (resolutions (w_state w) !! q) → q ∈ queries (w_swarm w);
  cw_lookups : ∀ q, is_Some (provider_lookups (w_state w) !! q) → q ∈ queries (w_swarm w);
  cw_unused : ∀ id, id ∉ used → unknown_id (w_state w) id;
  cw_calls : ∀ id call, calls (w_state w) !! id = Some call → but ≠ Some id →
    call_ok (w_state w) id call ∧ waiting call;
}.

Definition calls_wf : gset Z → World → Prop := calls_wf_but None.

(** ** The candidates *)

(** How the loop over [l] can end. *)
Inductive attempt (id : Z) (call : Call) (l : list PeerId) (w : World) : bool → World → Prop :=
| attempt_none :
    attempt id call l w false
      (w <| w_state ::= fun s => s <| calls ::= insert id (call <| candidates := [] |>) |> |>)
| attempt_resolve n peer rest :
    drop n l = peer :: rest → peer ∉ resolved call →
    attempt id call l w true
      (w <| w_swarm := (act (GetClosestPeers peer) (w_swarm w)).2 |>
         <| w_state ::= fun s => s
            <| resolutions ::= insert (act (GetClosestPeers peer) (w_swarm w)).1 id |>
            <| calls ::= insert id (call <| resolved ::= union {[peer]} |>
                                         <| candidates := peer :: rest |> <| resolving := true |>) |> |>)
| attempt_send n peer rest :
    drop n l = peer :: rest → is_connected (w_swarm w) peer || knows (w_book w) peer = true →
    attempt id call l w true
      (w <| w_swarm := (act (SendRequest peer (call_frame call)) (w_swarm w)).2 |>
         <| w_state ::= fun s => s
            <| outbound ::= insert (act (SendRequest peer (call_frame call)) (w_swarm w)).1 id |>
            <| calls ::= insert id (call <| candidates := rest |> <| in_flight := true |>) |> |>
         <| w_shared ::= fun sh => sh <| rpc_out ::= incr64 |> |>).

Lemma try_candidates_attempt id call l w :
  attempt id call l w (try_candidates id call l w).1 (try_candidates id call l w).2.
Proof.
  induction l as [|peer rest IH]; [apply attempt_none|]. cbn [try_candidates].
  cbv beta iota delta [bind read swarm modify modify_shared ret].
  destruct (is_connected (w_swarm w) peer || knows (w_book w) peer) eqn:Hd; cbv beta iota delta [negb].
  - pose proof (attempt_send id call (peer :: rest) w 0 peer rest eq_refl Hd) as Ha. revert Ha.
    destruct (act (SendRequest peer (call_frame call)) (w_swarm w)). exact (fun x => x).
  - case_bool_decide as Hr.
    + inversion IH as [E1 E2|n p r Hdrop Hnot E1 E2|n p r Hdrop Hc E1 E2].
      * apply attempt_none.
      * by apply (attempt_resolve _ _ _ _ (S n)).
      * by apply (attempt_send _ _ _ _ (S n)).
    + pose proof (attempt_resolve id call (peer :: rest) w 0 peer rest eq_refl Hr) as Ha. revert Ha.
      destruct (act (GetClosestPeers peer) (w_swarm w)). exact (fun x => x).
Qed.

(** ** Changing one call *)

(** The operations outstanding for the other ids are still the same. *)
Record others_kept (id : Z) (s s' : State) : Prop := mk_others_kept {
  ok_outbound : ∀ id' b, id' ≠ id → tracks (outbound s) id' b → tracks (outbound s') id' b;
  ok_resolutions : ∀ id' b, id' ≠ id → tracks (resolutions s) id' b → tracks (resolutions s') id' b;
  ok_lookups : ∀ id' b, id' ≠ id → tracks (provider_lookups s) id' b → tracks (provider_lookups s') id' b;
  ok_calls : ∀ id', id' ≠ id → calls s' !! id' = calls s !! id';
}.

(** Everything outstanding was issued. *)
Record issued (w : World) : Prop := mk_issued {
  is_requests : ∀ r, is_Some (outbound (w_state w) !! r) → r ∈ requests (w_swarm w);
  is_resolutions : ∀ q, is_Some (resolutions (w_state w) !! q) → q ∈ queries (w_swarm w);
  is_lookups : ∀ q, is_Some (provider_lookups (w_state w) !! q) → q ∈ queries (w_swarm w);
}.

Lemma wf_issued but used w : calls_wf_but but used w → issued w.
Proof. intros [H1 H2 H3 _ _]. done. Qed.

Lemma call_ok_kept id id' call s s' : id' ≠ id → others_kept id s s' → call_ok s id' call → call_ok s' id' call.
Proof. intros Hne [H1 H2 H3 _] [A B C D E G]. split; auto. Qed.

(** A step that concerns only the call [id]. *)
Lemma wf_step but but' used id w w' :
  calls_wf_but but used w → (but = None ∨ but = Some id) → id ∈ used →
  others_kept id (w_state w) (w_state w') → issued w' →
  (but' ≠ Some id → ∀ call, calls (w_state w') !! id = Some call → call_ok (w_state w') id call ∧ waiting call) →
  calls_wf_but but' used w'.
Proof.
  intros Hwf Hbut Hid Hk [H1 H2 H3] Hcall. split; try done.
  - intros id' Hid'. assert (id' ≠ id) as Hne by (by intros ->).
    destruct (cw_unused _ _ _ Hwf id' Hid') as (Hc & Ho & Hr & Hl). destruct Hk as [A B C D].
    split_and!; [by rewrite D|by apply A|by apply B|by apply C].
  - intros id' call' Hc Hb. destruct (decide (id' = id)) as [->|Hne]; [by apply Hcall|].
    rewrite (ok_calls _ _ _ Hk id' Hne) in Hc.
    destruct (cw_calls _ _ _ Hwf id' call' Hc) as [Hok Hw]; [destruct Hbut; congruence|].
    split; [by eapply call_ok_kept|done].
Qed.

(** An answer of the swarm and what it leaves issued. *)
Lemma swarm_query {A} (a : Action A) s q :
  started_query a (act a s).1 = Some q → q ∉ queries s ∧ queries (act a s).2 = {[q]} ∪ queries s.
Proof. intros E. pose proof (act_queries a s) as Hq. by rewrite E in Hq. Qed.

Lemma swarm_queries_subset {A} (a : Action A) s : queries s ⊆ queries (act a s).2.
Proof. pose proof (act_queries a s) as Hq. destruct (started_query a _) as [q|]; [destruct Hq as [_ ->]|rewrite Hq]; set_solver. Qed.

Lemma swarm_requests_subset {A} (a : Action A) s : requests s ⊆ requests (act a s).2.
Proof. pose proof (act_requests a s) as Hq. destruct (started_request a _) as [q|]; [destruct Hq as [_ ->]|rewrite Hq]; set_solver. Qed.

Lemma not_issued_None {K} `{Countable K} {A} (m : gmap K A) (s : gset K) k :
  (∀ k, is_Some (m !! k) → k ∈ s) → k ∉ s → m !! k = None.
Proof. intros Hm Hk. destruct (m !! k) eqn:E; [|done]. destruct Hk. apply Hm. by eexists. Qed.

Lemma suffix_queue (s : State) id call l n :
  call_ok s id call → candidates call = l → NoDup (drop n l) ∧ ∀ p, p ∈ drop n l → p ∈ seen call.
Proof.
  intros Hok <-. split.
  - pose proof (co_queue _ _ _ Hok) as Hnd. rewrite <- (take_drop n (candidates call)) in Hnd. by apply NoDup_app in Hnd as (_ & _ & ?).
  - intros p Hp. apply (co_seen _ _ _ Hok). rewrite <- (take_drop n (candidates call)). apply elem_of_app. by right.
Qed.

Lemma attempt_wf used id call w b w' :
  calls_wf_but (Some id) used w → id ∈ used → call_ok (w_state w) id call →
  in_flight call = false → resolving call = false →
  attempt id call (candidates call) w b w' →
  calls_wf_but (if b then None else Some id) used w' ∧
  (b = false → calls (w_state w') !! id = Some (call <| candidates := [] |>) ∧
               call_ok (w_state w') id (call <| candidates := [] |>)).
Proof.
  intros Hwf Hid Hok Hf Hr Ha. pose proof (wf_issued _ _ _ Hwf) as Hiss. pose proof Hiss as [I1 I2 I3].
  pose proof Hok as [T1 T2 T3 T4 T5 T6]. rewrite Hf in T1. rewrite Hr in T2.
  destruct Ha as [|n peer rest Hdrop Hres|n peer rest Hdrop Hd].
  - assert (others_kept id (w_state w) ((w_state w) <| calls ::= insert id (call <| candidates := [] |>) |>)) as Hk.
    { split; cbn; try done. intros id' Hne. by rewrite lookup_insert_ne. }
    assert (call_ok ((w_state w) <| calls ::= insert id (call <| candidates := [] |>) |>) id (call <| candidates := [] |>)) as Hok'.
    { split; cbn; rewrite ?Hf, ?Hr; try done; [constructor|]. intros p Hp. by apply elem_of_nil in Hp. }
    split; [|intros _; split; [apply lookup_insert_eq|done]].
    eapply wf_step; [exact Hwf|by right|done|exact Hk|by split|done].
  - set (q := (act (GetClosestPeers peer) (w_swarm w)).1).
    destruct (swarm_query (GetClosestPeers peer) (w_swarm w) q eq_refl) as [Hq1 Hq2].
    assert (resolutions (w_state w) !! q = None) as Hnew by (by eapply not_issued_None).
    destruct (suffix_queue _ _ _ _ n Hok eq_refl) as [Hnd Hseen]. rewrite Hdrop in Hnd, Hseen.
    split; [|done]. eapply wf_step; [exact Hwf|by right|done| | |].
    + split; cbn; try done; [|intros id' Hne; by rewrite lookup_insert_ne].
      intros id' b' Hne. by apply tracks_insert_other.
    + split; cbn [w_state w_swarm outbound resolutions provider_lookups upd].
      * intros r Hr1. by apply (swarm_requests_subset (GetClosestPeers peer)), I1.
      * intros q' [->|[_ Hq']]%lookup_insert_is_Some; [rewrite Hq2; set_solver|].
        by apply (swarm_queries_subset (GetClosestPeers peer)), I2.
      * intros q' Hq'. by apply (swarm_queries_subset (GetClosestPeers peer)), I3.
    + intros _ call' Hc. cbn in Hc. rewrite lookup_insert_eq in Hc. injection Hc as <-. split.
      * split; cbn; rewrite ?Hf; try done. by apply tracks_insert_same.
      * right; left. done.
  - set (r := (act (SendRequest peer (call_frame call)) (w_swarm w)).1).
    pose proof (act_requests (SendRequest peer (call_frame call)) (w_swarm w)) as [Hr1 Hr2]. fold r in Hr1, Hr2.
    assert (outbound (w_state w) !! r = None) as Hnew by (by eapply not_issued_None).
    destruct (suffix_queue _ _ _ _ n Hok eq_refl) as [Hnd Hseen]. rewrite Hdrop in Hnd, Hseen.
    apply NoDup_cons in Hnd as [_ Hnd].
    split; [|done]. eapply wf_step; [exact Hwf|by right|done| | |].
    + split; cbn; try done; [|intros id' Hne; by rewrite lookup_insert_ne].
      intros id' b' Hne. by apply tracks_insert_other.
    + split; cbn [w_state w_swarm outbound resolutions provider_lookups upd].
      * intros r' [->|[_ Hr']]%lookup_insert_is_Some; [rewrite Hr2; set_solver|].
        by apply (swarm_requests_subset (SendRequest peer (call_frame call))), I1.
      * intros q' Hq'. by apply (swarm_queries_subset (SendRequest peer (call_frame call))), I2.
      * intros q' Hq'. by apply (swarm_queries_subset (SendRequest peer (call_frame call))), I3.
    + intros _ call' Hc. cbn in Hc. rewrite lookup_insert_eq in Hc. injection Hc as <-. split.
      * split; cbn; rewrite ?Hr; try done; [by apply tracks_insert_same|].
        intros p Hp. by apply Hseen, list_elem_of_further.
      * left. done.
Qed.

(** ** [advance] *)

Lemma wf_close used id w :
  calls_wf_but (Some id) used w →
  (∀ call, calls (w_state w) !! id = Some call → call_ok (w_state w) id call ∧ waiting call) → calls_wf used w.
Proof.
  intros Hwf Hc. split; try apply Hwf. intros id' call' Hc' _.
  destruct (decide (id' = id)) as [->|]; [by apply Hc|]. apply (cw_calls _ _ _ Hwf id'); congruence.
Qed.

Lemma wf_open used id w : calls_wf used w → calls_wf_but (Some id) used w.
Proof. intros Hwf. split; try apply Hwf. intros id' call' Hc' _. by apply (cw_calls _ _ _ Hwf). Qed.

Lemma wf_call used id w call :
  calls_wf used w → calls (w_state w) !! id = Some call → call_ok (w_state w) id call.
Proof. intros Hwf Hc. by apply (cw_calls _ _ _ Hwf id call Hc). Qed.

Lemma emit_state r w : w_state (emit r w).2 = w_state w ∧ w_swarm (emit r w).2 = w_swarm w ∧
  w_emitted (emit r w).2 = w_emitted w ++ [r].
Proof. done. Qed.

(** The end of a call: it is taken out and reported. *)
Lemma remove_wf used id w w' :
  calls_wf_but (Some id) used w → id ∈ used →
  w_state w' = ((w_state w) <| calls ::= delete id |>) → w_swarm w' = w_swarm w → calls_wf used w'.
Proof.
  intros Hwf Hid Hs Hsw. pose proof (wf_issued _ _ _ Hwf) as [I1 I2 I3].
  eapply wf_step; [exact Hwf|by right|done| | |]; [split|split|]; rewrite ?Hs, ?Hsw; cbn; try done.
  - intros id' Hne. by rewrite lookup_delete_ne.
  - intros _ call Hc. by rewrite lookup_delete_eq in Hc.
Qed.

Lemma advance_wf used id w :
  calls_wf_but (Some id) used w → id ∈ used →
  (∀ call, calls (w_state w) !! id = Some call → call_ok (w_state w) id call) →
  calls_wf used (advance id w).2.
Proof.
  intros Hwf Hid Hok. unfold advance. cbv beta iota delta [bind gets read].
  destruct (calls (w_state w) !! id) as [call|] eqn:E; [|apply (wf_close used id); [done|intros ?; cbn; by rewrite E]].
  destruct (in_flight call || resolving call) eqn:Hb.
  { apply (wf_close used id); [done|]. intros call'. cbn. rewrite E. intros [= <-]. split; [by apply Hok|].
    apply orb_true_iff in Hb as [?|?]; [by left|by right; left]. }
  apply orb_false_iff in Hb as [Hf Hr].
  pose proof (try_candidates_attempt id call (candidates call) w) as Ha.
  destruct (try_candidates id call (candidates call) w) as [b w']. cbn [fst snd] in Ha.
  destruct (attempt_wf used id call w b w' Hwf Hid (Hok _ eq_refl) Hf Hr Ha) as [Hwf' Hnone].
  destruct b; [done|]. destruct (Hnone eq_refl) as [E' Hok'].
  destruct (lookup_running call) eqn:Hl.
  - apply (wf_close used id); [done|]. intros call'. cbn. rewrite E'. intros [= <-]. split; [done|].
    right; right. done.
  - cbv beta iota delta [remove_call bind gets read modify ret]. rewrite E'.
    eapply remove_wf; [exact Hwf'|done|done|done].
Qed.

(** ** Accounting *)

(** A record that ends the call [id]. *)
Definition terminal (id : Z) (r : EventRecord) : bool :=
  ((kind_of r =? LP2P_EV_RPC_RESPONSE) || (kind_of r =? LP2P_EV_RPC_FAILED)) && (id_of r =? id).

Definition count (id : Z) (l : list EventRecord) : Z := blen (List.filter (terminal id) l).

Definition live (id : Z) (w : World) : Z :=
  match calls (w_state w) !! id with Some _ => 1 | None => 0 end.

(** How often the caller has heard or will hear of the end of [id]. *)
Definition balance (id : Z) (w : World) : Z := live id w + count id (w_emitted w).

Definition balanced (w w' : World) : Prop := ∀ id, balance id w' = balance id w.

#[export] Instance balanced_preorder : PreOrder balanced.
Proof. split; [done|]. intros w1 w2 w3 H1 H2 id. by rewrite H2, H1. Qed.

Definition id_ok (id : Z) : Prop := 0 ≤ id < 2 ^ 64.

Lemma count_app id l r : count id (l ++ [r]) = count id l + (if terminal id r then 1 else 0).
Proof.
  unfold count. rewrite List.filter_app, blen_app. cbn. by destruct (terminal id r).
Qed.

Lemma terminal_data id id' b d :
  id_ok id' → ev_id (header b) = id' →
  ev_type (header b) = LP2P_EV_RPC_RESPONSE ∨ ev_type (header b) = LP2P_EV_RPC_FAILED →
  terminal id (data b d) = bool_decide (id = id').
Proof.
  intros Hid E Hk. unfold terminal. rewrite kind_of_data, id_of_data, E, (wrap_small 64 id') by done.
  assert ((as_u16 (ev_type (header b)) =? LP2P_EV_RPC_RESPONSE) || (as_u16 (ev_type (header b)) =? LP2P_EV_RPC_FAILED) = true)
    as -> by (by destruct Hk as [-> | ->]).
  cbn. case_bool_decide as Hi; [subst; apply Z.eqb_refl|]. apply Z.eqb_neq. congruence.
Qed.

(** A record of another kind ends nothing. *)
Definition harmless (r : EventRecord) : Prop := ∀ id, terminal id r = false.

Lemma harmless_data b d :
  as_u16 (ev_type (header b)) ≠ LP2P_EV_RPC_RESPONSE → as_u16 (ev_type (header b)) ≠ LP2P_EV_RPC_FAILED →
  harmless (data b d).
Proof.
  intros H1 H2 id. unfold terminal. rewrite kind_of_data.
  by rewrite (proj2 (Z.eqb_neq _ _) H1), (proj2 (Z.eqb_neq _ _) H2).
Qed.

(** The report of a call's end balances its removal. *)
Lemma report_balanced id w w' r :
  id_ok id → is_Some (calls (w_state w) !! id) → (∀ id', terminal id' r = bool_decide (id' = id)) →
  calls (w_state w') = delete id (calls (w_state w)) → w_emitted w' = w_emitted w ++ [r] → balanced w w'.
Proof.
  intros Hid [call Hc] Hr Hcalls Hem id'. unfold balance, live. rewrite Hcalls, Hem, count_app, Hr.
  case_bool_decide as E; [subst; rewrite lookup_delete_eq, Hc; lia|]. rewrite lookup_delete_ne by done. lia.
Qed.

(** Nothing that matters to the caller changed. *)
Lemma quiet_balanced w w' :
  (∀ id, is_Some (calls (w_state w') !! id) ↔ is_Some (calls (w_state w) !! id)) → w_emitted w' = w_emitted w → balanced w w'.
Proof.
  intros Hc He id. unfold balance, live. rewrite He. specialize (Hc id).
  destruct (calls (w_state w') !! id), (calls (w_state w) !! id); try done; exfalso;
    [assert (is_Some (@None Call)) as [? ?] by (by apply Hc) | assert (is_Some (@None Call)) as [? ?] by (by apply Hc)]; done.
Qed.

Lemma insert_same_dom (m : gmap Z Call) id call call' i :
  m !! id = Some call → is_Some (<[id := call']> m !! i) ↔ is_Some (m !! i).
Proof. intros E. rewrite lookup_insert_is_Some. destruct (decide (id = i)) as [<-|]; rewrite ?E; naive_solver. Qed.

Lemma attempt_balanced id call call0 l w b w' :
  calls (w_state w) !! id = Some call0 → attempt id call l w b w' → balanced w w'.
Proof.
  intros E Ha. apply quiet_balanced; [|by destruct Ha].
  intros i. destruct Ha; cbn; by apply (insert_same_dom _ _ call0).
Qed.

Lemma terminal_failed id id' call reason : id_ok id → terminal id' (rpc_failed id call reason) = bool_decide (id' = id).
Proof. intros Hid. apply terminal_data; [done|done|by right]. Qed.

Lemma advance_balanced id w : id_ok id → balanced w (advance id w).2.
Proof.
  intros Hid. unfold advance. cbv beta iota delta [bind gets read].
  destruct (calls (w_state w) !! id) as [call|] eqn:E; [|done].
  destruct (in_flight call || resolving call); [done|].
  pose proof (try_candidates_attempt id call (candidates call) w) as Ha.
  destruct (try_candidates id call (candidates call) w) as [b w']. cbn [fst snd] in Ha.
  etransitivity; [by eapply attempt_balanced|].
  destruct b; [done|]. destruct (lookup_running call); [done|].
  cbv beta iota delta [remove_call bind gets read modify ret].
  inversion Ha; subst. cbn [w_state upd calls]. rewrite lookup_insert_eq.
  eapply (report_balanced id); [done| | |reflexivity|reflexivity].
  - cbn. rewrite lookup_insert_eq. by eexists.
  - intros id'. by apply terminal_failed.
Qed.

(** ** Handlers that leave the calls alone *)

Record quiet (w w' : World) : Prop := mk_quiet {
  q_calls : calls (w_state w') = calls (w_state w);
  q_outbound : outbound (w_state w') = outbound (w_state w);
  q_resolutions : resolutions (w_state w') = resolutions (w_state w);
  q_lookups : provider_lookups (w_state w') = provider_lookups (w_state w);
  q_queries : queries (w_swarm w) ⊆ queries (w_swarm w');
  q_requests : requests (w_swarm w) ⊆ requests (w_swarm w');
  q_emitted : ∃ l, w_emitted w' = w_emitted w ++ l ∧ Forall harmless l;
}.

#[export] Instance quiet_preorder : PreOrder quiet.
Proof.
  split.
  - intros w. split; try done. exists []. by rewrite app_nil_r.
  - intros w1 w2 w3 [A1 A2 A3 A4 A5 A6 (l & A7 & A8)] [B1 B2 B3 B4 B5 B6 (k & B7 & B8)].
    split; try congruence; try set_solver. exists (l ++ k). rewrite B7, A7, app_assoc. split; [done|]. by apply Forall_app.
Qed.

Lemma quiet_wf but used w w' : quiet w w' → calls_wf_but but used w → calls_wf_but but used w'.
Proof.
  intros [A1 A2 A3 A4 A5 A6 _] [B1 B2 B3 B4 B5]. split.
  - intros r. rewrite A2. intros ?. by apply A6, B1.
  - intros r. rewrite A3. intros ?. by apply A5, B2.
  - intros r. rewrite A4. intros ?. by apply A5, B3.
  - intros id Hid. unfold unknown_id. rewrite A1, A2, A3, A4. by apply B4.
  - intros id call. rewrite A1. intros Hc Hb. destruct (B5 id call Hc Hb) as [[C1 C2 C3 C4 C5 C6] Hw].
    split; [|done]. split; rewrite ?A2, ?A3, ?A4; done.
Qed.

Lemma quiet_call_ok w w' id call : quiet w w' → call_ok (w_state w) id call → call_ok (w_state w') id call.
Proof. intros [A1 A2 A3 A4 A5 A6 _] [C1 C2 C3 C4 C5 C6]. split; rewrite ?A2, ?A3, ?A4; done. Qed.

Lemma quiet_balanced_emit w w' : quiet w w' → balanced w w'.
Proof.
  intros [A1 _ _ _ _ _ (l & A7 & A8)] id. unfold balance, live, count. rewrite A1, A7, List.filter_app, blen_app.
  assert (List.filter (terminal id) l = []) as ->.
  { clear -A8. induction A8 as [|r l Hr _ IH]; [done|]. cbn. by rewrite (Hr id). }
  change (blen (@nil EventRecord)) with 0. lia.
Qed.

(** A change of the state that keeps the four maps. *)
Definition keeps_calls (f : State → State) : Prop :=
  ∀ s, calls (f s) = calls s ∧ outbound (f s) = outbound s ∧ resolutions (f s) = resolutions s ∧
       provider_lookups (f s) = provider_lookups s.

Lemma quiet_modify f : keeps_calls f → respects quiet (modify f).
Proof.
  intros Hf w. destruct (Hf (w_state w)) as (? & ? & ? & ?). split; cbn; try done. exists []. by rewrite app_nil_r.
Qed.

Lemma quiet_same w w' :
  w_state w' = w_state w → w_swarm w' = w_swarm w → w_emitted w' = w_emitted w → quiet w w'.
Proof. intros E E1 E2. split; rewrite ?E, ?E1; try done. exists []. by rewrite app_nil_r. Qed.

Lemma quiet_now : respects quiet now.
Proof. intros w. by apply quiet_same. Qed.
Lemma quiet_now_ms : respects quiet now_ms.
Proof. intros w. by apply quiet_same. Qed.
Lemma quiet_iterate `{Countable K} {A} (m : gmap K A) : respects quiet (iterate m).
Proof. intros w. by apply quiet_same. Qed.
Lemma quiet_iterate_set `{Countable K} (m : gset K) : respects quiet (iterate_set m).
Proof. intros w. by apply quiet_same. Qed.
Lemma quiet_modify_shared f : respects quiet (modify_shared f).
Proof. intros w. by apply quiet_same. Qed.
Lemma quiet_modify_book f : respects quiet (modify_book f).
Proof. intros w. by apply quiet_same. Qed.
Lemma quiet_reply n r : respects quiet (reply n r).
Proof. intros w. by apply quiet_same. Qed.

Lemma quiet_swarm {A} (a : Action A) : respects quiet (swarm a).
Proof.
  intros w. unfold swarm. pose proof (swarm_queries_subset a (w_swarm w)). pose proof (swarm_requests_subset a (w_swarm w)).
  destruct (act a (w_swarm w)) as [x s]. split; cbn in *; try done. exists []. by rewrite app_nil_r.
Qed.

Lemma quiet_emit r : harmless r → respects quiet (emit r).
Proof. intros Hr w. split; cbn; try done. exists [r]. split; [done|]. by constructor. Qed.

(** Takes a handler apart that leaves the calls alone. *)
Ltac quiet_step :=
  first
  [ respects_step
  | apply quiet_now | apply quiet_now_ms | apply quiet_iterate | apply quiet_iterate_set
  | apply quiet_modify_shared | apply quiet_modify_book | apply quiet_reply | apply quiet_swarm
  | apply quiet_modify; intros ?; cbn; done
  | apply quiet_emit; apply harmless_data; let E := fresh in intros E; vm_compute in E; discriminate E ].

Lemma quiet_remember_failure peer : respects quiet (remember_failure peer).
Proof.
  unfold remember_failure. repeat quiet_step.
Qed.

(** ** The operations of calls *)

(** The candidates or the lookup of a call that is about to be inserted. *)
Lemma first_candidates_wf used id group node protocol frame t f w :
  id ∈ used → calls_wf used w → unknown_id (w_state w) id →
  let call := mk_call group protocol frame [] ∅ ∅ false false false t f in
  ∃ call' w1, first_candidates id group node call w = (call', w1) ∧
    calls_wf_but (Some id) used w1 ∧ call_ok (w_state w1) id call' ∧
    calls (w_state w1) = calls (w_state w) ∧ w_emitted w1 = w_emitted w.
Proof.
  intros Hin Hwf (U1 & U2 & U3 & U4) call.
  destruct node as [key|]; unfold first_candidates.
  - eexists _, w. split; [reflexivity|]. split_and!; [by apply wf_open| |done|done].
    destruct (peer_id key) as [peer|]; split; cbn; try done; try (by constructor).
    + apply NoDup_singleton.
    + intros p ->%list_elem_of_singleton. set_solver.
    + intros p Hp. by apply elem_of_nil in Hp.
  - cbv beta iota delta [bind swarm modify ret]. set (a := GetProviders (record_key group)).
    destruct (swarm_query a (w_swarm w) (act a (w_swarm w)).1 eq_refl) as [F1 F2].
    pose proof (swarm_requests_subset a (w_swarm w)) as F3.
    destruct (act a (w_swarm w)) as [q sw]. cbn in F1, F2, F3. eexists _, _. split; [reflexivity|].
    pose proof (wf_issued _ _ _ Hwf) as [I1 I2 I3].
    assert (provider_lookups (w_state w) !! q = None) as Hnew by (by eapply not_issued_None).
    split_and!; [|split; cbn; try done|done|done].
    + eapply (wf_step _ _ _ id); [exact Hwf|by left|exact Hin| | |done].
      * split; cbn; try done. intros id' b Hne. by apply tracks_insert_other.
      * split; cbn [w_state w_swarm outbound resolutions provider_lookups upd].
        -- intros r Hr. by apply F3, I1.
        -- intros q' Hq'. rewrite F2. set_solver.
        -- intros q' [->|[_ Hq']]%lookup_insert_is_Some; rewrite F2; set_solver.
    + by apply tracks_insert_same.
    + constructor.
    + intros p Hp. by apply elem_of_nil in Hp.
Qed.

Lemma start_call_wf used id group node protocol payload timeout w :
  id ∉ used → id_ok id → calls_wf used w →
  let '(r, w') := start_call id group node protocol payload timeout w in
  calls_wf ({[id]} ∪ used) w' ∧
  ∀ i, balance i w' = balance i w + (if bool_decide (is_Some r ∧ i = id) then 1 else 0).
Proof.
  intros Hid Hok Hwf. destruct (cw_unused _ _ _ Hwf id Hid) as (U1 & U2 & U3 & U4).
  assert (id ∈ {[id]} ∪ used) as Hin by set_solver.
  assert (calls_wf ({[id]} ∪ used) w) as Hwf0.
  { split; try apply Hwf. intros id' Hid'. apply (cw_unused _ _ _ Hwf). set_solver. }
  unfold start_call. rewrite run_bind, run_gets. cbn [fst snd].
  destruct (rpc_protocols (w_state w) !! Z.to_nat protocol) as [name|].
  2:{ split; [done|]. intros i. rewrite bool_decide_false by (by intros [[? ?] _]). cbn [ret]. lia. }
  rewrite run_bind, run_gets. cbn [fst snd]. rewrite run_bind. cbv zeta.
  pose proof (quiet_now w) as Hq. destruct (now w) as [t w0]. cbn [fst snd] in Hq |- *.
  apply (quiet_wf _ _ _ _ Hq) in Hwf0. pose proof (quiet_balanced_emit _ _ Hq) as Hbal.
  pose proof Hq as [Q1 Q2 Q3 Q4 _ _ _]. rewrite <- Q1 in U1. rewrite <- Q2 in U2. rewrite <- Q3 in U3. rewrite <- Q4 in U4.
  destruct (first_candidates_wf ({[id]} ∪ used) id group node protocol (Wire.encode_request (own_delegation (w_state w)) name payload)
    (t + timeout) LP2P_FAIL_UNREACHABLE w0 Hin Hwf0) as (call' & w1 & E1 & Hwf1 & Hok1 & Hc1 & He1); [done|].
  rewrite run_bind, E1. cbn [fst snd]. rewrite run_bind, run_modify. cbn [fst snd].
  set (w2 := w1 <| w_state ::= fun s => s <| calls ::= insert id call' |> |>). rewrite run_bind.
  assert (calls_wf_but (Some id) ({[id]} ∪ used) w2) as Hwf2.
  { eapply (wf_step _ _ _ id); [exact Hwf1|by right|exact Hin| | |done].
    - split; cbn; try done. intros id' Hne. by rewrite lookup_insert_ne.
    - pose proof (wf_issued _ _ _ Hwf1) as [? ? ?]. by split. }
  pose proof (advance_wf _ id w2 Hwf2 Hin) as Hadv. pose proof (advance_balanced id w2 Hok) as Hadvb.
  destruct (advance id w2) as [[] w3]. cbn in Hadv, Hadvb |- *. split.
  - apply Hadv. intros c Hc. cbn in Hc. rewrite lookup_insert_eq in Hc. injection Hc as <-.
    destruct Hok1. by split.
  - intros i. rewrite Hadvb, <- Hbal. unfold balance, live. subst w2. cbn. rewrite He1, Hc1.
    case_bool_decide as Hi; [destruct Hi as [_ ->]; rewrite lookup_insert_eq, U1; lia|].
    rewrite lookup_insert_ne; [lia|]. intros <-. apply Hi. split; [by eexists|done].
Qed.

(** ** Updating a call and moving it on *)

Definition ids_ok (used : gset Z) : Prop := ∀ id, id ∈ used → id_ok id.

Lemma update_advance_wf used id f w :
  calls_wf_but (Some id) used w → id ∈ used →
  (∀ call, calls (w_state w) !! id = Some call → call_ok (w_state w) id (f call)) →
  calls_wf used (advance id (update_call id f w).2).2.
Proof.
  intros Hwf Hid Hok. unfold update_call. rewrite run_modify. cbn [snd].
  pose proof (wf_issued _ _ _ Hwf) as [I1 I2 I3]. apply advance_wf; [|done|].
  - eapply (wf_step _ _ _ id); [exact Hwf|by right|done| | |done]; [|by split].
    split; cbn; try done. intros id' Hne. by rewrite lookup_alter_ne.
  - intros call' Hc. cbn in Hc. rewrite lookup_alter_eq in Hc. apply fmap_Some in Hc as (call & Hc & ->).
    destruct (Hok call Hc). by split.
Qed.

Lemma update_balanced id f w : balanced w (update_call id f w).2.
Proof.
  apply quiet_balanced; [|done]. intros i. cbn. destruct (decide (i = id)) as [->|].
  - rewrite lookup_alter_eq. apply fmap_is_Some.
  - by rewrite lookup_alter_ne.
Qed.

Lemma update_advance_balanced id f w :
  id_ok id → balanced w (advance id (update_call id f w).2).2.
Proof. intros Hid. etransitivity; [apply (update_balanced id f)|by apply advance_balanced]. Qed.

(** An outstanding request or resolution that is over. *)
Lemma drop_request used request id w :
  calls_wf used w → outbound (w_state w) !! request = Some id →
  let w' := w <| w_state ::= fun s => s <| outbound ::= delete request |> |> in
  id ∈ used ∧ calls_wf_but (Some id) used w' ∧
  (∀ call, calls (w_state w') !! id = Some call → call_ok (w_state w') id (call <| in_flight := false |>)).
Proof.
  intros Hwf Ho w'. pose proof (wf_issued _ _ _ Hwf) as [I1 I2 I3].
  assert (id ∈ used) as Hid.
  { destruct (decide (id ∈ used)); [done|]. destruct (cw_unused _ _ _ Hwf id) as (_ & Hu & _); [done|]. by destruct (Hu request). }
  split_and!; [done| |].
  - eapply (wf_step _ _ _ id); [exact Hwf|by left|done| | |done].
    + split; cbn; try done. intros id' b Hne. apply tracks_delete_other. congruence.
    + split; cbn; try done. intros r Hr. apply I1. by apply lookup_delete_is_Some in Hr as [_ ?].
  - intros call Hc. cbn in Hc. destruct (wf_call _ _ _ _ Hwf Hc) as [T1 T2 T3 T4 T5 T6].
    split; cbn; try done. by eapply tracks_delete_same.
Qed.

Lemma drop_resolution used query id w :
  calls_wf used w → resolutions (w_state w) !! query = Some id →
  let w' := w <| w_state ::= fun s => s <| resolutions ::= delete query |> |> in
  id ∈ used ∧ calls_wf_but (Some id) used w' ∧
  (∀ call, calls (w_state w') !! id = Some call → call_ok (w_state w') id (call <| resolving := false |>)).
Proof.
  intros Hwf Ho w'. pose proof (wf_issued _ _ _ Hwf) as [I1 I2 I3].
  assert (id ∈ used) as Hid.
  { destruct (decide (id ∈ used)); [done|]. destruct (cw_unused _ _ _ Hwf id) as (_ & _ & Hu & _); [done|]. by destruct (Hu query). }
  split_and!; [done| |].
  - eapply (wf_step _ _ _ id); [exact Hwf|by left|done| | |done].
    + split; cbn; try done. intros id' b Hne. apply tracks_delete_other. congruence.
    + split; cbn; try done. intros r Hr. apply I2. by apply lookup_delete_is_Some in Hr as [_ ?].
  - intros call Hc. cbn in Hc. destruct (wf_call _ _ _ _ Hwf Hc) as [T1 T2 T3 T4 T5 T6].
    split; cbn; try done; [by eapply tracks_delete_same|]. by rewrite andb_false_r.
Qed.

(** Deleting what is not there changes nothing. *)
Lemma drop_nothing w f :
  f (w_state w) = w_state w → (w <| w_state ::= f |>) = w.
Proof. intros E. destruct w. cbn in *. by rewrite E. Qed.

Lemma delete_outbound_None (s : State) r :
  outbound s !! r = None → (s <| outbound ::= delete r |>) = s.
Proof. intros E. destruct s. cbn in *. by rewrite delete_id. Qed.

Lemma outbound_failure_wf used peer request error w :
  ids_ok used → calls_wf used w →
  calls_wf used (outbound_failure peer request error w).2 ∧ balanced w (outbound_failure peer request error w).2.
Proof.
  intros Hids Hwf. unfold outbound_failure. rewrite run_bind.
  pose proof (quiet_remember_failure peer w) as Hq. set (w0 := (remember_failure peer w).2) in *.
  apply (quiet_wf _ _ _ _ Hq) in Hwf. pose proof (quiet_balanced_emit _ _ Hq) as Hbal. clearbody w0. clear Hq.
  rewrite run_bind, run_gets. cbn [fst snd]. rewrite run_bind, run_modify. cbn [fst snd].
  destruct (outbound (w_state w0) !! request) as [id|] eqn:Eo.
  - destruct (drop_request used request id w0 Hwf Eo) as (Hid & Hwf' & Hok).
    set (w1 := w0 <| w_state ::= fun s => s <| outbound ::= delete request |> |>) in *.
    assert (balanced w0 w1) as Hb1 by (by apply quiet_balanced). clearbody w1.
    rewrite run_bind. split.
    + apply update_advance_wf; [done|done|]. intros call Hc. destruct (Hok call Hc). by split.
    + etransitivity; [exact Hbal|]. etransitivity; [exact Hb1|]. apply update_advance_balanced. by apply Hids.
  - rewrite drop_nothing by (by apply delete_outbound_None). by split.
Qed.

Lemma call_resolved_wf used query id w :
  ids_ok used → calls_wf used w → resolutions (w_state w) !! query = Some id →
  let w' := (call_resolved id (w <| w_state ::= fun s => s <| resolutions ::= delete query |> |>)).2 in
  calls_wf used w' ∧ balanced w w'.
Proof.
  intros Hids Hwf Ho w'. destruct (drop_resolution used query id w Hwf Ho) as (Hid & Hwf' & Hok). subst w'.
  unfold call_resolved. rewrite run_bind. split; [by apply update_advance_wf|].
  etransitivity; [|apply update_advance_balanced; by apply Hids]. by apply quiet_balanced.
Qed.

(** ** Responses *)

Lemma emit_wf but used r w : calls_wf_but but used w → calls_wf_but but used (emit r w).2.
Proof. intros [A B C D E]. by split. Qed.

(** Taking a call out of the map, whatever else the step does. *)
Lemma delete_call_wf used id w w' :
  calls_wf_but (Some id) used w → id ∈ used →
  calls (w_state w') = delete id (calls (w_state w)) → outbound (w_state w') = outbound (w_state w) →
  resolutions (w_state w') = resolutions (w_state w) → provider_lookups (w_state w') = provider_lookups (w_state w) →
  w_swarm w' = w_swarm w → calls_wf used w'.
Proof.
  intros Hwf Hid Hc Ho Hr Hl Hsw. pose proof (wf_issued _ _ _ Hwf) as [I1 I2 I3].
  eapply (wf_step _ _ _ id); [exact Hwf|by right|done| | |].
  - split; rewrite ?Ho, ?Hr, ?Hl; try done. intros id' Hne. by rewrite Hc, lookup_delete_ne.
  - split; rewrite ?Ho, ?Hr, ?Hl, ?Hsw; done.
  - intros _ call. by rewrite Hc, lookup_delete_eq.
Qed.

(** What a successful response leaves: the call gone, its node remembered, and
    one record. *)
Lemma response_accepted_spec id call peer node payload w :
  let w' := (response_accepted id call peer node payload w).2 in
  calls (w_state w') = delete id (calls (w_state w)) ∧ outbound (w_state w') = outbound (w_state w) ∧
  resolutions (w_state w') = resolutions (w_state w) ∧ provider_lookups (w_state w') = provider_lookups (w_state w) ∧
  w_swarm w' = w_swarm w ∧ w_emitted w' = w_emitted w ++ [rpc_response id call node payload] ∧
  failed (w_state w') = delete peer (failed (w_state w)) ∧
  last_success (w_state w') = <[call_group call := peer]>
    (if MAX_REMEMBERED <=? Z.of_nat (size (last_success (w_state w))) then ∅ else last_success (w_state w)).
Proof.
  unfold response_accepted. rewrite run_bind, run_modify. cbn [fst snd]. rewrite run_bind, run_gets. cbn [fst snd].
  rewrite run_bind. destruct (MAX_REMEMBERED <=? _) eqn:E; unfold when; rewrite ?run_modify; cbn [fst snd skip];
    rewrite run_bind, run_modify; cbn [fst snd]; split_and!; reflexivity.
Qed.

Lemma response_wf used peer request frame w :
  ids_ok used → calls_wf used w →
  calls_wf used (response peer request frame w).2 ∧ balanced w (response peer request frame w).2.
Proof.
  intros Hids Hwf. unfold response. rewrite run_bind, run_gets. cbn [fst snd]. rewrite run_bind, run_modify. cbn [fst snd].
  destruct (outbound (w_state w) !! request) as [id|] eqn:Eo.
  2:{ rewrite drop_nothing by (by apply delete_outbound_None). by split. }
  destruct (drop_request used request id w Hwf Eo) as (Hid & Hwf1 & Hok1).
  set (w1 := w <| w_state ::= fun s => s <| outbound ::= delete request |> |>) in *.
  assert (balanced w w1) as Hb1 by (by apply quiet_balanced). clearbody w1.
  rewrite run_bind, run_gets. cbn [fst snd].
  destruct (calls (w_state w1) !! id) as [call|] eqn:Ec.
  2:{ split; [|done]. apply (wf_close used id); [done|]. intros c. cbn. by rewrite Ec. }
  rewrite run_bind. set (w2 := (update_call id (fun call => call <| in_flight := false |>) w1).2).
  assert (balanced w1 w2) as Hb2 by apply update_balanced.
  assert (calls (w_state w2) !! id = Some (call <| in_flight := false |>)) as Ec2.
  { subst w2. cbn. by rewrite lookup_alter_eq, Ec. }
  assert (calls_wf_but (Some id) used w2 ∧ call_ok (w_state w2) id (call <| in_flight := false |>)) as [Hwf2 Hok2].
  { pose proof (wf_issued _ _ _ Hwf1) as [I1 I2 I3]. split.
    - eapply (wf_step _ _ _ id); [exact Hwf1|by right|done| | |done]; [|by split].
      split; cbn; try done. intros id' Hne. by rewrite lookup_alter_ne.
    - destruct (Hok1 call eq_refl). by split. }
  clearbody w2. rewrite run_bind. pose proof (quiet_now_ms w2) as Hq. destruct (now_ms w2) as [ms w3]. cbn [fst snd] in Hq |- *.
  apply (quiet_wf _ _ _ _ Hq) in Hwf2. apply (quiet_call_ok _ _ _ _ Hq) in Hok2. rewrite <- (q_calls _ _ Hq) in Ec2.
  pose proof (quiet_balanced_emit _ _ Hq) as Hb3. clear Hq.
  destruct (check_response peer (call_group call) ms frame) as [[node payload]|].
  - destruct (response_accepted_spec id call peer node payload w3) as (S1 & S2 & S3 & S4 & S5 & S6 & _ & _).
    split; [by eapply delete_call_wf|].
    etransitivity; [exact Hb1|]. etransitivity; [exact Hb2|]. etransitivity; [exact Hb3|].
    eapply (report_balanced id); [by apply Hids|by rewrite Ec2| |exact S1|exact S6].
    intros id'. apply terminal_data; [by apply Hids|done|by left].
  - rewrite run_bind. set (f := fun call => call <| last_failure := LP2P_FAIL_REFUSED |>).
    set (w4 := (update_call id f w3).2). rewrite run_bind.
    assert (calls_wf_but (Some id) used w4 ∧ ∀ c, calls (w_state w4) !! id = Some c → call_ok (w_state w4) id c) as [Hwf4 Hok4].
    { pose proof (wf_issued _ _ _ Hwf2) as [I1 I2 I3]. split.
      - eapply (wf_step _ _ _ id); [exact Hwf2|by right|done| | |done]; [|by split].
        split; cbn; try done. intros id' Hne. by rewrite lookup_alter_ne.
      - intros c Hc. cbn in Hc. rewrite lookup_alter_eq, Ec2 in Hc. injection Hc as <-. destruct Hok2. by split. }
    assert (balanced w3 w4) as Hb4 by apply update_balanced. clearbody w4.
    pose proof (quiet_remember_failure peer w4) as Hq. set (w5 := (remember_failure peer w4).2) in *.
    split.
    + apply advance_wf; [by eapply quiet_wf|done|]. intros c. rewrite (q_calls _ _ Hq). intros Hc.
      apply (quiet_call_ok _ _ _ _ Hq). by apply Hok4.
    + do 4 (etransitivity; [eassumption|]). etransitivity; [by apply quiet_balanced_emit|].
      apply advance_balanced. by apply Hids.
Qed.

(** ** Expiry *)

(** The body of the loop: takes a call out and reports the timeout. *)
Definition expire_one (id : Z) : M () :=
  removed <- remove_call id;
  match removed with
  | Some call => emit (rpc_failed id call LP2P_FAIL_TIMEOUT)
  | None => skip
  end.

Lemma delete_calls_None (s : State) id : calls s !! id = None → (s <| calls ::= delete id |>) = s.
Proof. intros E. destruct s. cbn in *. by rewrite delete_id. Qed.

Lemma expire_one_run id w :
  (expire_one id w).2 =
  match calls (w_state w) !! id with
  | Some call => (emit (rpc_failed id call LP2P_FAIL_TIMEOUT) (w <| w_state ::= fun s => s <| calls ::= delete id |> |>)).2
  | None => w
  end.
Proof.
  unfold expire_one, remove_call. repeat (rewrite ?run_bind, ?run_gets, ?run_modify; cbn [fst snd ret]).
  destruct (calls (w_state w) !! id) as [call|] eqn:E; [done|]. cbn [fst snd skip].
  apply drop_nothing. by apply delete_calls_None.
Qed.

Lemma expire_one_wf used id w :
  ids_ok used → calls_wf used w → calls_wf used (expire_one id w).2 ∧ balanced w (expire_one id w).2.
Proof.
  intros Hids Hwf. rewrite expire_one_run. destruct (calls (w_state w) !! id) as [call|] eqn:E; [|done].
  assert (id ∈ used) as Hid.
  { destruct (decide (id ∈ used)); [done|]. destruct (cw_unused _ _ _ Hwf id) as (Hc & _); [done|]. congruence. }
  split.
  - apply emit_wf. by apply (delete_call_wf used id w); [apply wf_open|..].
  - eapply (report_balanced id); [by apply Hids|by rewrite E| |reflexivity|reflexivity].
    intros id'. apply terminal_failed. by apply Hids.
Qed.

Lemma for_each_wf {A} used (l : list A) body w :
  (∀ x w, calls_wf used w → calls_wf used (body x w).2 ∧ balanced w (body x w).2) →
  calls_wf used w → calls_wf used (for_each l body w).2 ∧ balanced w (for_each l body w).2.
Proof.
  intros Hb. revert w. induction l as [|x l IH]; intros w Hwf; [done|]. cbn [for_each]. rewrite run_bind.
  destruct (Hb x w Hwf) as [H1 H2]. destruct (IH _ H1) as [H3 H4]. split; [done|]. by etransitivity.
Qed.

Lemma expire_wf used t w :
  ids_ok used → calls_wf used w → calls_wf used (expire t w).2 ∧ balanced w (expire t w).2.
Proof.
  intros Hids Hwf. unfold expire. rewrite run_bind, run_gets. cbn [fst snd]. rewrite run_bind.
  pose proof (quiet_iterate (calls (w_state w)) w) as Hq.
  destruct (for_each_wf used (fst <$> List.filter (fun e : Z * Call => deadline e.2 <=? t)
    (iterate (calls (w_state w)) w).1) expire_one (iterate (calls (w_state w)) w).2) as [H1 H2].
  - intros id w' Hw'. by apply expire_one_wf.
  - by apply (quiet_wf _ _ _ _ Hq).
  - split; [done|]. etransitivity; [by apply quiet_balanced_emit|done].
Qed.

(** Exactly the calls whose deadline has come are gone, each with one report. *)
Lemma expire_loop l w :
  NoDup l → (∀ id, id ∈ l → is_Some (calls (w_state w) !! id)) →
  let w' := (for_each l expire_one w).2 in
  (∀ id, calls (w_state w') !! id = if decide (id ∈ l) then None else calls (w_state w) !! id) ∧
  w_emitted w' = w_emitted w ++ omap (fun id => (fun call => rpc_failed id call LP2P_FAIL_TIMEOUT) <$> calls (w_state w) !! id) l.
Proof.
  revert w. induction l as [|id l IH]; intros w Hnd Hin; [cbn; by rewrite app_nil_r|].
  apply NoDup_cons in Hnd as [Hnot Hnd]. cbn [for_each]. rewrite run_bind, expire_one_run.
  destruct (Hin id) as [call Hc]; [apply list_elem_of_here|]. rewrite Hc.
  set (w1 := (emit _ _).2). cbv zeta.
  assert (∀ i, calls (w_state w1) !! i = if decide (i = id) then None else calls (w_state w) !! i) as Hw1.
  { intros i. cbn. case_decide as Hi; [subst; apply lookup_delete_eq|by apply lookup_delete_ne]. }
  assert (w_emitted w1 = w_emitted w ++ [rpc_failed id call LP2P_FAIL_TIMEOUT]) as He1 by done. clearbody w1.
  destruct (IH w1 Hnd) as [IH1 IH2].
  { intros i Hi. rewrite Hw1, decide_False by (by intros ->). by apply Hin, list_elem_of_further. }
  split.
  - intros i. rewrite IH1, Hw1. destruct (decide (i ∈ l)), (decide (i = id)), (decide (i ∈ id :: l)); set_solver.
  - rewrite IH2, He1, <- app_assoc. f_equal. cbn [omap list_omap]. rewrite Hc. cbn. f_equal.
    apply list_omap_ext.
    clear -Hw1 Hnot. induction l as [|i l IHl]; [constructor|]. apply not_elem_of_cons in Hnot as [Hne Hnot]. constructor; [|by apply IHl].
    by rewrite Hw1, decide_False.
Qed.

(** ** The queue of candidates *)

Lemma enqueue_at_Permutation t ls f peer call :
  candidates (enqueue_at t ls f peer call) ≡ₚ peer :: candidates call.
Proof.
  unfold enqueue_at. destruct (_ && _); [done|]. destruct (penalized f t peer); cbn.
  - by rewrite <- Permutation_cons_append.
  - apply insert_at_Permutation.
Qed.

(** Everything but the queue of [call] and what it has seen. *)
Definition same_but_queue (call call' : Call) : Prop :=
  in_flight call' = in_flight call ∧ resolving call' = resolving call ∧ lookup_running call' = lookup_running call ∧
  call_group call' = call_group call ∧ call_protocol call' = call_protocol call ∧ call_frame call' = call_frame call ∧
  deadline call' = deadline call ∧ last_failure call' = last_failure call ∧ resolved call' = resolved call.

Lemma enqueue_at_same t ls f peer call : same_but_queue call (enqueue_at t ls f peer call) ∧ seen (enqueue_at t ls f peer call) = seen call.
Proof. unfold enqueue_at. destruct (_ && _); [done|]. by destruct (penalized f t peer). Qed.

Definition queue_ok (call : Call) : Prop :=
  NoDup (candidates call) ∧ ∀ p, p ∈ candidates call → p ∈ seen call.

Lemma enqueue_spec call peer w :
  queue_ok call →
  let '(call', w') := enqueue call peer w in
  quiet w w' ∧ w_state w' = w_state w ∧ w_emitted w' = w_emitted w ∧ same_but_queue call call' ∧ queue_ok call'.
Proof.
  intros [Hnd Hseen]. unfold enqueue. case_bool_decide as Hin; [by split_and!|].
  rewrite run_bind. pose proof (quiet_now w) as Hq. assert (w_state (now w).2 = w_state w ∧ w_emitted (now w).2 = w_emitted w) as [Hs He] by done.
  destruct (now w) as [t w1]. cbn [fst snd] in *. rewrite run_bind, run_gets. cbn [fst snd ret].
  set (s := w_state w1). set (call1 := call <| seen ::= union {[peer]} |>).
  destruct (enqueue_at_same t (last_success s) (failed s) peer call1) as [Hsame Hseen'].
  split_and!; [done|done|done|exact Hsame|]. split.
  - rewrite enqueue_at_Permutation. constructor; [|done]. intros Hc. by apply Hin, Hseen.
  - intros p. rewrite enqueue_at_Permutation, Hseen'. cbn. rewrite elem_of_cons, elem_of_union, elem_of_singleton. naive_solver.
Qed.

Lemma same_but_queue_trans c1 c2 c3 : same_but_queue c1 c2 → same_but_queue c2 c3 → same_but_queue c1 c3.
Proof. unfold same_but_queue. intuition congruence. Qed.

Lemma enqueue_all_spec local l call w :
  queue_ok call →
  let '(call', w') := enqueue_all local call l w in
  quiet w w' ∧ w_state w' = w_state w ∧ w_emitted w' = w_emitted w ∧ same_but_queue call call' ∧ queue_ok call'.
Proof.
  revert call w. induction l as [|p l IH]; intros call w Hok; [by split_and!|]. cbn [enqueue_all]. unfold bind.
  case_bool_decide; [by apply IH|]. pose proof (enqueue_spec call p w Hok) as Hp.
  destruct (enqueue call p w) as [call1 w1]. destruct Hp as (Q & S & E & Hsame & Hok1).
  specialize (IH call1 w1 Hok1). destruct (enqueue_all local call1 l w1) as [call2 w2].
  destruct IH as (Q2 & S2 & E2 & Hsame2 & Hok2). split_and!; [by etransitivity|congruence|congruence| |done].
  by eapply same_but_queue_trans.
Qed.

Lemma lookup_used used query id w : calls_wf used w → provider_lookups (w_state w) !! query = Some id → id ∈ used.
Proof.
  intros Hwf Hq. destruct (decide (id ∈ used)); [done|].
  destruct (cw_unused _ _ _ Hwf id) as (_ & _ & _ & Hu); [done|]. by destruct (Hu query).
Qed.

(** The world once what a lookup found was queued: the call at hand is in
    order but for not having been advanced. *)
Lemma queue_found_wf used query id found last w :
  calls_wf used w → provider_lookups (w_state w) !! query = Some id →
  let w1 := (queue_found id found last w).2 in
  balanced w w1 ∧ calls_wf_but (Some id) used w1 ∧ provider_lookups (w_state w1) = provider_lookups (w_state w) ∧
  ∀ call', calls (w_state w1) !! id = Some call' →
    tracks (outbound (w_state w1)) id (in_flight call') ∧ tracks (resolutions (w_state w1)) id (resolving call') ∧
    in_flight call' && resolving call' = false ∧ queue_ok call' ∧ lookup_running call' = negb last ∧
    tracks (provider_lookups (w_state w1)) id true.
Proof.
  intros Hwf Hq. pose proof (lookup_used _ _ _ _ Hwf Hq) as Hid. unfold queue_found. rewrite run_bind, run_gets. cbn [fst snd]. rewrite run_bind, run_gets. cbn [fst snd].
  destruct (calls (w_state w) !! id) as [call|] eqn:Ec; cbv zeta.
  2:{ split_and!; try done; [by apply wf_open|]. intros call'. cbn. by rewrite Ec. }
  destruct (wf_call _ _ _ _ Hwf Ec) as [T1 T2 T3 T4 T5 T6].
  assert (lookup_running call = true) as Hrun by (by eapply tracks_owner).
  rewrite run_bind. pose proof (enqueue_all_spec (local_peer (w_state w)) (default [] found) call w (conj T5 T6)) as Hs.
  destruct (enqueue_all _ call _ w) as [call1 w0]. destruct Hs as (Q & S & E & (S1 & S2 & S3 & _) & Hok1).
  cbn [fst snd]. rewrite run_modify. cbn [snd].
  set (call2 := if last then call1 <| lookup_running := false |> else call1).
  assert (in_flight call2 = in_flight call ∧ resolving call2 = resolving call ∧ lookup_running call2 = negb last ∧ queue_ok call2) as (C1 & C2 & C3 & C4).
  { subst call2. destruct last; cbn; rewrite ?S1, ?S2, ?S3; split_and!; done. }
  split_and!.
  - apply quiet_balanced; [|done]. intros i. cbn. rewrite S. by eapply insert_same_dom.
  - apply (quiet_wf _ _ _ _ Q) in Hwf. pose proof (wf_issued _ _ _ Hwf) as [J1 J2 J3].
    eapply (wf_step _ _ _ id); [exact Hwf|by left|done| | |done]; [|by split].
    split; cbn; try done. intros id' Hne. by rewrite lookup_insert_ne.
  - cbn. by rewrite S.
  - intros call' Hc. cbn in Hc |- *. rewrite lookup_insert_eq in Hc. injection Hc as <-. rewrite S, C1, C2. rewrite Hrun in T3. done.
Qed.

Lemma call_providers_wf used query id found last w :
  ids_ok used → calls_wf used w → provider_lookups (w_state w) !! query = Some id →
  calls_wf used (call_providers query id found last w).2 ∧ balanced w (call_providers query id found last w).2.
Proof.
  intros Hids Hwf Hq.
  pose proof (lookup_used _ _ _ _ Hwf Hq) as Hid.
  destruct (queue_found_wf used query id found last w Hwf Hq) as (Hb1 & Hwf1 & Hl1 & Hc1). unfold call_providers.
  rewrite run_bind. set (w1 := (queue_found _ _ _ w).2) in *. clearbody w1. rewrite run_bind. destruct last; cbn [when].
  - rewrite run_modify. cbn [snd]. set (w2 := w1 <| w_state ::= _ |>).
    assert (balanced w1 w2) as Hb2 by (by apply quiet_balanced).
    split; [|etransitivity; [exact Hb1|etransitivity; [exact Hb2|apply advance_balanced; by apply Hids]]].
    apply advance_wf; [|done|].
    + pose proof (wf_issued _ _ _ Hwf1) as [J1 J2 J3]. eapply (wf_step _ _ _ id); [exact Hwf1|by right|done| | |done].
      * split; cbn; try done. intros id' b Hne. apply tracks_delete_other. rewrite Hl1, Hq. congruence.
      * split; cbn; try done. intros q [_ ?]%lookup_delete_is_Some. by apply J3.
    + intros call' Hc. cbn in Hc. destruct (Hc1 call' Hc) as (D1 & D2 & D3 & [D4 D5] & D6 & D7).
      split; cbn; try done. rewrite D6. cbn. eapply tracks_delete_same; [|exact D7]. by rewrite Hl1.
  - cbn [snd skip]. split; [|etransitivity; [exact Hb1|apply advance_balanced; by apply Hids]].
    apply advance_wf; [done|done|]. intros call' Hc. destruct (Hc1 call' Hc) as (D1 & D2 & D3 & [D4 D5] & D6 & D7).
    split; try done. by rewrite D6.
Qed.

End invariant.
