(* ===== verification/NodeInv.v ===== *)
(** * NodeInv: every reachable state of the node

    The executions of the node as a step relation: commands, events and ticks in
    any order, and between them whatever the network and the caller's threads
    do. The invariants of the components hold in every reachable world. *)

From S2P Require Import Prelude Abi Keys Multiaddr AddressBook Libp2p Events NodeState.
From S2P Require Import Calls Inbound Relay Topics Node ToyNode CallsInv Toy.
From S2P Require Wire Delegation Limits EventQueue.

Section handlers.
Context {I : Identity} {MA : Multiaddrs I} {H : Handles} {L : Libp2p I MA H} {LL : Libp2pLaws L}.

Ltac quiet_step :=
  first
  [ respects_step
  | apply quiet_now | apply quiet_now_ms | apply quiet_iterate | apply quiet_iterate_set
  | apply quiet_modify_shared | apply quiet_modify_book | apply quiet_reply | apply quiet_swarm
  | apply quiet_modify; intros ?; cbn; done
  | apply quiet_emit; apply harmless_data; let E := fresh in intros E; vm_compute in E; discriminate E ].

Ltac quiet := repeat quiet_step.

(** ** The handlers that do not touch the calls *)

Lemma quiet_provide : respects quiet provide.
Proof. unfold provide. quiet. Qed.

Lemma quiet_respond id payload : respects quiet (respond id payload).
Proof. unfold respond. quiet. Qed.

Lemma quiet_reject id : respects quiet (reject id).
Proof. unfold reject. quiet. Qed.

Lemma quiet_inbound_done r : respects quiet (inbound_done r).
Proof. unfold inbound_done. quiet. Qed.

Lemma quiet_check_limits rq n t : respects quiet (check_limits rq n t).
Proof.
  intros w. unfold check_limits. destruct (Limits.check rq n t (limits (w_state w))) as [a l].
  split; cbn; try done. exists []. by rewrite app_nil_r.
Qed.

Lemma quiet_may_report t : respects quiet (may_report t).
Proof.
  intros w. unfold may_report. destruct (Limits.may_report t (limits (w_state w))) as [a l].
  split; cbn; try done. exists []. by rewrite app_nil_r.
Qed.

Lemma quiet_fetch_id : respects quiet fetch_id.
Proof. intros w. by apply quiet_same. Qed.

Lemma quiet_inbound_request peer c r frame ch : respects quiet (inbound_request peer c r frame ch).
Proof.
  unfold inbound_request.
  repeat (quiet_step || apply quiet_check_limits || apply quiet_may_report || apply quiet_fetch_id).
Qed.

Lemma quiet_reserve_on t l : respects quiet (reserve_on t l).
Proof. induction l as [|[p a] l IH]; cbn [reserve_on]; repeat (quiet_step || apply IH). Qed.

Lemma quiet_reserve : respects quiet reserve.
Proof. unfold reserve. repeat (quiet_step || apply quiet_reserve_on). Qed.

Lemma quiet_relay_lost l : respects quiet (relay_lost l).
Proof. unfold relay_lost. quiet. Qed.

Lemma quiet_nat_status st : respects quiet (nat_status st).
Proof. unfold nat_status, become_private, become_public. repeat (quiet_step || apply quiet_reserve). Qed.

Lemma quiet_identified p info : respects quiet (identified p info).
Proof. unfold identified. repeat (quiet_step || apply quiet_reserve). Qed.

Lemma quiet_new_listen_addr a : respects quiet (new_listen_addr a).
Proof. unfold new_listen_addr. quiet. Qed.

Lemma quiet_announce : respects quiet announce.
Proof. unfold announce. quiet. Qed.

Lemma quiet_topic_lookup k : respects quiet (topic_lookup k).
Proof. unfold topic_lookup. quiet. Qed.

Lemma quiet_topic_subscribe k : respects quiet (topic_subscribe k).
Proof. unfold topic_subscribe, store_topic_count. repeat (quiet_step || apply quiet_topic_lookup). Qed.

Lemma quiet_topic_unsubscribe k : respects quiet (topic_unsubscribe k).
Proof. unfold topic_unsubscribe, store_topic_count. quiet. Qed.

Lemma quiet_dial_members n l : respects quiet (dial_members n l).
Proof. revert n. induction l as [|p l IH]; intros n; cbn [dial_members]; repeat (quiet_step || apply IH). Qed.

Lemma quiet_topic_publish k p : respects quiet (topic_publish k p).
Proof. unfold topic_publish. quiet. Qed.

Lemma quiet_topic_message src m : respects quiet (topic_message src m).
Proof.
  unfold topic_message.
  repeat (quiet_step || apply quiet_check_limits || apply quiet_may_report).
Qed.

Lemma quiet_announcement_message m : respects quiet (announcement_message m).
Proof.
  unfold announcement_message. repeat quiet_step. intros w. unfold allow_announcement.
  match goal with |- context [Limits.allow ?a ?b ?c] => destruct (Limits.allow a b c) end.
  split; cbn; try done. exists []. by rewrite app_nil_r.
Qed.

Lemma quiet_gossipsub_event e : respects quiet (gossipsub_event e).
Proof.
  unfold gossipsub_event.
  repeat (quiet_step || apply quiet_announce || apply quiet_topic_message || apply quiet_announcement_message).
Qed.

Lemma quiet_routing_sample n : respects quiet (routing_sample n).
Proof. unfold routing_sample. quiet. Qed.

Lemma quiet_topic_peers k : respects quiet (topic_peers k).
Proof. unfold topic_peers. quiet. Qed.

Lemma quiet_iterate_found f : respects quiet (iterate_found f).
Proof. unfold iterate_found. quiet. Qed.

Lemma quiet_hole_punch p o : respects quiet (hole_punch p o).
Proof. unfold hole_punch. quiet. destruct o; quiet. Qed.

Lemma quiet_connection_established p c n e : respects quiet (connection_established p c n e).
Proof. unfold connection_established. quiet. Qed.

Lemma quiet_connection_closed p c n : respects quiet (connection_closed p c n).
Proof. unfold connection_closed. quiet. Qed.

(** ** Handlers that move calls on *)

Definition keeps_wf (used : gset Z) {A} (m : M A) : Prop :=
  ∀ w, calls_wf used w → calls_wf used (m w).2 ∧ balanced w (m w).2.

Lemma keeps_quiet used {A} (m : M A) : respects quiet m → keeps_wf used m.
Proof.
  intros Hm w Hwf. specialize (Hm w). split; [by eapply quiet_wf|by apply quiet_balanced_emit].
Qed.

Lemma keeps_bind used {A B} (m : M A) (k : A → M B) :
  keeps_wf used m → (∀ a, keeps_wf used (k a)) → keeps_wf used (bind m k).
Proof.
  intros Hm Hk w Hwf. rewrite run_bind. destruct (Hm w Hwf) as [H1 H2].
  destruct (Hk (m w).1 _ H1) as [H3 H4]. split; [done|]. by etransitivity.
Qed.

Lemma quiet_routing_updated p l b : respects quiet (routing_updated p l b).
Proof. unfold routing_updated. quiet. Qed.

Lemma quiet_topic_providers q f b : respects quiet (topic_providers q f b).
Proof. unfold topic_providers, dial_topic_members. repeat (quiet_step || apply quiet_iterate_found || apply quiet_dial_members). Qed.

Lemma quiet_found_providers q id f b : respects quiet (found_providers q id f b).
Proof. unfold found_providers. repeat (quiet_step || apply quiet_iterate_found). Qed.

Lemma quiet_bootstrap_progressed q a b : respects quiet (bootstrap_progressed q a b).
Proof. unfold bootstrap_progressed. quiet. Qed.

Lemma keeps_get_providers used q f b : ids_ok used → keeps_wf used (get_providers_progressed q f b).
Proof.
  intros Hids w Hwf. unfold get_providers_progressed. rewrite run_bind, run_gets. cbn [fst snd].
  destruct (topic_lookups (w_state w) !! q); [apply keeps_quiet; [apply quiet_topic_providers|done]|].
  destruct (provider_queries (w_state w) !! q); [apply keeps_quiet; [apply quiet_found_providers|done]|].
  destruct (provider_lookups (w_state w) !! q) as [id|] eqn:E; [|done]. rewrite run_bind.
  set (m := if bool_decide _ then _ else _).
  assert (quiet w (m w).2) as Hq by (subst m; case_bool_decide; [apply quiet_iterate_found|done]).
  pose proof (quiet_wf _ _ _ _ Hq Hwf) as Hwf'. clearbody m.
  destruct (call_providers_wf used q id (m w).1 b (m w).2 Hids Hwf') as [H1 H2].
  { by rewrite (q_lookups _ _ Hq). }
  split; [done|]. etransitivity; [by apply quiet_balanced_emit|done].
Qed.

Lemma delete_resolutions_None (s : State) q :
  resolutions s !! q = None → (s <| resolutions ::= delete q |>) = s.
Proof. intros E. destruct s. cbn in *. by rewrite delete_id. Qed.

Lemma keeps_get_closest_peers used q peers : ids_ok used → keeps_wf used (get_closest_peers_progressed q peers).
Proof.
  intros Hids. unfold get_closest_peers_progressed. apply keeps_bind; [apply keeps_quiet; quiet|]. intros _ w Hwf.
  rewrite run_bind, run_gets. cbn [fst snd]. rewrite run_bind, run_modify. cbn [fst snd].
  destruct (resolutions (w_state w) !! q) as [id|] eqn:E.
  - by apply (call_resolved_wf used q id w).
  - rewrite drop_nothing by (by apply delete_resolutions_None). apply keeps_quiet; [|done]. quiet.
Qed.

Lemma keeps_kad_event used e : ids_ok used → keeps_wf used (kad_event e).
Proof.
  intros Hids. destruct e; cbn [kad_event].
  - apply keeps_quiet, quiet_routing_updated.
  - by apply keeps_get_providers.
  - by apply keeps_get_closest_peers.
  - apply keeps_quiet, quiet_bootstrap_progressed.
  - apply keeps_quiet. quiet.
Qed.

Lemma keeps_rpc_event used e : ids_ok used → keeps_wf used (rpc_event e).
Proof.
  intros Hids. destruct e; cbn [rpc_event].
  - apply keeps_quiet, quiet_inbound_request.
  - intros w Hwf. by apply response_wf.
  - intros w Hwf. by apply outbound_failure_wf.
  - apply keeps_quiet, quiet_inbound_done.
  - apply keeps_quiet, quiet_inbound_done.
Qed.

Lemma keeps_swarm_event used e : ids_ok used → keeps_wf used (swarm_event e).
Proof.
  intros Hids. destruct e; cbn [swarm_event]; try (apply keeps_quiet; first
    [ apply quiet_new_listen_addr | apply quiet_relay_lost | apply quiet_connection_established
    | apply quiet_connection_closed | apply quiet_identified | apply quiet_gossipsub_event
    | apply quiet_hole_punch | apply quiet_nat_status | unfold expired_listen_addr; solve [quiet] ]).
  - by apply keeps_kad_event.
  - by apply keeps_rpc_event.
Qed.

Lemma keeps_tick used : ids_ok used → keeps_wf used tick.
Proof.
  intros Hids. unfold tick. apply keeps_bind; [apply keeps_quiet, quiet_now|]. intros t.
  apply keeps_bind; [intros w Hwf; by apply expire_wf|]. intros _. apply keeps_quiet.
  repeat (quiet_step || apply quiet_reserve || apply quiet_announce || apply quiet_topic_lookup || apply quiet_provide).
Qed.

Lemma quiet_command c :
  match c with Rpc _ _ _ _ _ _ => True | _ => respects quiet (command c) end.
Proof.
  destruct c; [done|..]; cbn [command];
    unfold add_address, bootstrap, random_walk, find_providers, provide_key, announce_set_payload;
    repeat (quiet_step || apply quiet_respond || apply quiet_reject || apply quiet_announce ||
      apply quiet_topic_subscribe || apply quiet_topic_unsubscribe || apply quiet_topic_publish ||
      apply quiet_topic_peers || apply quiet_routing_sample).
Qed.

(** ** Executions *)

(** What happens between two inputs: the network goes on and the caller's
    threads use the shared part; the handlers' state is untouched, and
    identifiers are still not reused. *)
Record env_step (w w' : World) : Prop := mk_env_step {
  env_state : w_state w' = w_state w;
  env_emitted : w_emitted w' = w_emitted w;
  env_queries : queries (w_swarm w) ⊆ queries (w_swarm w');
  env_requests : requests (w_swarm w) ⊆ requests (w_swarm w');
}.

(** The id of the call a command starts. *)
Definition call_ids (input : Input) : gset Z :=
  match input with InCommand (Rpc id _ _ _ _ _) => {[id]} | _ => ∅ end.

(** A call is submitted under an id of its own and for a protocol that exists;
    [lp2p_rpc_request] takes care of both. *)
Definition input_ok (used : gset Z) (w : World) (input : Input) : Prop :=
  match input with
  | InCommand (Rpc id _ _ protocol _ _) =>
      id ∉ used ∧ id_ok id ∧ is_Some (rpc_protocols (w_state w) !! Z.to_nat protocol)
  | _ => True
  end.

Definition starting (config : Config) (w : World) : Prop :=
  (∃ local now, w_state w = new_state config local now) ∧ w_emitted w = [].

(** What [run_thread] does once its listeners are ready. *)
Definition get_ready (config : Config) : M () :=
  emit (reachability_event (reachability_reason (cfg_reachability config)));;
  provide.

Inductive reachable (config : Config) : gset Z → World → Prop :=
| reach_start w : starting config w → reachable config ∅ w
| reach_env used w w' : reachable config used w → env_step w w' → reachable config used w'
| reach_ready used w : reachable config used w → reachable config used (get_ready config w).2
| reach_step used w input :
    reachable config used w → input_ok used w input →
    reachable config (call_ids input ∪ used) (step input w).2.

Lemma quiet_get_ready config : respects quiet (get_ready config).
Proof. unfold get_ready. repeat (quiet_step || apply quiet_provide). Qed.

Lemma start_wf config w : starting config w → calls_wf ∅ w ∧ ∀ id, balance id w = 0.
Proof.
  intros [(local & t & Hs) He]. split.
  - split; rewrite Hs; cbn; try (intros ? [? Hx]; by rewrite lookup_empty in Hx).
    + intros id _. split_and!; [apply lookup_empty|..]; apply tracks_empty.
    + intros id call Hx. by rewrite lookup_empty in Hx.
  - intros id. unfold balance, live. rewrite Hs, He. cbn. by rewrite lookup_empty.
Qed.

Lemma env_wf but used w w' : env_step w w' → calls_wf_but but used w → calls_wf_but but used w'.
Proof.
  intros [Hs He Hq Hr] [A B C D E]. split; rewrite Hs; try done; intros x Hx; [by apply Hr, A|by apply Hq, B|by apply Hq, C].
Qed.

(** How often the caller hears of the end of an id of [used]: once. *)
Definition balances (used : gset Z) (w : World) : Prop :=
  ∀ id, balance id w = if bool_decide (id ∈ used) then 1 else 0.

Lemma step_keeps used input w :
  ids_ok used → input_ok used w input → calls_wf used w → balances used w →
  calls_wf (call_ids input ∪ used) (step input w).2 ∧ balances (call_ids input ∪ used) (step input w).2.
Proof.
  intros Hids Hin Hwf Hbal.
  assert (∀ (m : M flow), keeps_wf used m → calls_wf (∅ ∪ used) (m w).2 ∧ balances (∅ ∪ used) (m w).2) as Hkeep.
  { intros m Hm. destruct (Hm w Hwf) as [H1 H2]. rewrite (left_id_L ∅ union). split; [done|]. intros id. by rewrite H2. }
  assert (∀ (m : M ()), keeps_wf used m → keeps_wf used (bind m (fun _ => ret Continue))) as Hcont.
  { intros m Hm. apply keeps_bind; [done|]. intros _. apply keeps_quiet, respects_ret. apply _. }
  destruct input as [c| |e|]; cbn [step call_ids].
  - pose proof (quiet_command c) as Hq. destruct c; try (by apply Hkeep, keeps_quiet).
    cbn [command]. rewrite run_bind. destruct Hin as (Hnew & Hid & Hname).
    pose proof (start_call_wf used id group node protocol payload timeout w Hnew Hid Hwf) as Hs.
    assert (is_Some (start_call id group node protocol payload timeout w).1) as Hsome.
    { unfold start_call, first_candidates. rewrite run_bind, run_gets. cbn [fst snd]. destruct Hname as [name ->].
      rewrite !run_bind. cbv zeta. rewrite ?run_bind. by eexists. }
    destruct (start_call _ _ _ _ _ _ w) as [r w']. cbn [fst snd ret] in *. destruct Hs as [H1 H2]. split; [done|].
    intros i. rewrite H2, Hbal. destruct (decide (i = id)) as [->|Hne].
    + rewrite (bool_decide_true (is_Some r ∧ _)) by done.
      rewrite bool_decide_false by done. by rewrite bool_decide_true by set_solver.
    + rewrite (bool_decide_false (is_Some r ∧ i = id)) by (by intros [_ ?]).
      rewrite Z.add_0_r. erewrite bool_decide_ext; [reflexivity|]. set_solver.
  - apply Hkeep, keeps_quiet. quiet.
  - apply Hkeep, Hcont. by apply keeps_swarm_event.
  - apply Hkeep, Hcont. by apply keeps_tick.
Qed.

Lemma reachable_wf config used w :
  reachable config used w → ids_ok used ∧ calls_wf used w ∧ balances used w.
Proof.
  induction 1 as [w Hs|used w w' Hr (Hids & Hwf & Hb) He|used w Hr (Hids & Hwf & Hb)|used w input Hr (Hids & Hwf & Hb) Hin].
  - destruct (start_wf config w Hs) as [H1 H2]. split_and!; [by intros id ?%not_elem_of_empty|done|].
    intros id. rewrite H2. by rewrite bool_decide_false by (apply not_elem_of_empty).
  - split_and!; [done|by eapply env_wf|]. intros id. unfold balance, live. rewrite (env_state _ _ He), (env_emitted _ _ He). apply Hb.
  - pose proof (quiet_get_ready config w) as Hq. split_and!; [done|by eapply quiet_wf|].
    intros id. by rewrite (quiet_balanced_emit _ _ Hq).
  - destruct (step_keeps used input w Hids Hin Hwf Hb) as [H1 H2]. split_and!; [|done|done].
    intros id [Hid|Hid]%elem_of_union; [|by apply Hids]. destruct input as [[]| | |]; cbn in Hid; try (by apply elem_of_empty in Hid).
    apply elem_of_singleton in Hid as ->. apply Hin.
Qed.

End handlers.

(** ** Properties *)

Section properties.
Context {I : Identity} {MA : Multiaddrs I} {H : Handles} {L : Libp2p I MA H} {LL : Libp2pLaws L}.

(** C2: a call never gets stuck. In every reachable state of the node each call
    in progress waits for a thing that was really issued to libp2p: one
    outstanding request, one address resolution, or the lookup of its group's
    providers. It never has a request and a resolution at once, has at most one
    of each, and queues every candidate at most once; and the maps name no id
    that was never submitted. *)
Theorem call_always_waits config used w :
  reachable config used w →
  let s := w_state w in
  (∀ id call, calls s !! id = Some call →
     ((∃ r, outbound s !! r = Some id ∧ r ∈ requests (w_swarm w)) ∨
      (∃ q, resolutions s !! q = Some id ∧ q ∈ queries (w_swarm w)) ∨
      (∃ q, provider_lookups s !! q = Some id ∧ q ∈ queries (w_swarm w))) ∧
     (∀ r q, ¬ (outbound s !! r = Some id ∧ resolutions s !! q = Some id)) ∧
     (∀ r r', outbound s !! r = Some id → outbound s !! r' = Some id → r = r') ∧
     (∀ q q', resolutions s !! q = Some id → resolutions s !! q' = Some id → q = q') ∧
     (∀ q q', provider_lookups s !! q = Some id → provider_lookups s !! q' = Some id → q = q') ∧
     NoDup (candidates call)) ∧
  (∀ id, id ∉ used → calls s !! id = None ∧ (∀ r, outbound s !! r ≠ Some id) ∧
     (∀ q, resolutions s !! q ≠ Some id) ∧ (∀ q, provider_lookups s !! q ≠ Some id)).
Proof.
  intros (_ & Hwf & _)%reachable_wf s. split.
  - intros id call Hc. destruct (cw_calls _ _ _ Hwf id call Hc) as [[T1 T2 T3 T4 T5 T6] Hwait]; [done|].
    fold s in T1, T2, T3. pose proof (wf_issued _ _ _ Hwf) as [I1 I2 I3].
    split_and!; [| |intros k k'; exact (tracks_unique _ k k' _ _ T1)|intros k k'; exact (tracks_unique _ k k' _ _ T2)
      |intros k k'; exact (tracks_unique _ k k' _ _ T3)|done].
    + destruct Hwait as [E|[E|[E _]]]; [rewrite E in T1; destruct T1 as (k & Hk & _); left
        |rewrite E in T2; destruct T2 as (k & Hk & _); right; left
        |rewrite E in T3; destruct T3 as (k & Hk & _); right; right]; exists k; split; try done;
        [apply I1|apply I2|apply I3]; by eexists.
    + intros r q [Hr Hq]. rewrite (tracks_owner _ _ _ _ Hr T1), (tracks_owner _ _ _ _ Hq T2) in T4. done.
  - intros id Hid. by destruct (cw_unused _ _ _ Hwf id Hid) as (? & ? & ? & ?).
Qed.

(** C1: every call is reported exactly once. In every reachable state an id that
    was submitted is either still in progress and no record that ends it was
    handed to the event queue, or over and exactly one RPC_RESPONSE or
    RPC_FAILED record carries it; an id that was not submitted has neither. *)
Theorem call_reported_once config used w :
  reachable config used w →
  ∀ id, (if decide (is_Some (calls (w_state w) !! id)) then 1 else 0) +
        blen (List.filter (terminal id) (w_emitted w)) = if decide (id ∈ used) then 1 else 0.
Proof.
  intros (_ & _ & Hb)%reachable_wf id. specialize (Hb id). unfold balance, live, count in Hb.
  destruct (decide (id ∈ used)) as [Hin|Hin];
    [rewrite bool_decide_true in Hb by done|rewrite bool_decide_false in Hb by done];
  (destruct (calls (w_state w) !! id); [rewrite decide_True by (by eexists)|rewrite decide_False by (by intros [? ?])]); done.
Qed.

End properties.

(** ** Witnesses *)

Lemma toy_asked_reachable : reachable toy_config {[7]} toy_asked.
Proof.
  change {[7]} with (call_ids toy_ask). rewrite <- (right_id_L ∅ union (call_ids toy_ask)).
  apply reach_step; [apply reach_start|].
  - split; [|done]. by exists (toy_peer x11), 0.
  - split_and!; [set_solver|done|by eexists].
Qed.

Lemma toy_answered_reachable : reachable toy_config {[7]} toy_answered.
Proof.
  rewrite <- (left_id_L ∅ union {[7]}). change ∅ with (call_ids toy_answer).
  apply reach_step; [apply toy_asked_reachable|done].
Qed.

Lemma call_always_waits_witness :
  is_Some (calls (w_state toy_asked) !! 7) ∧
  (∀ q, resolutions (w_state toy_asked) !! q ≠ Some 7) ∧ calls (w_state toy_asked) !! 8 = None.
Proof.
  pose proof (call_always_waits _ _ _ toy_asked_reachable) as [H1 H2].
  assert (is_Some (calls (w_state toy_asked) !! 7)) as [call Hc] by (evaluate).
  split; [by eexists|]. split.
  - intros q Hq. destruct (H1 7 call Hc) as (_ & H3 & _). apply (H3 toy_request q). split; [|exact Hq].
    evaluate.
  - apply H2. set_solver.
Defined.

Lemma call_reported_once_witness :
  blen (List.filter (terminal 7) (w_emitted toy_asked)) = 0 ∧
  blen (List.filter (terminal 7) (w_emitted toy_answered)) = 1 ∧
  blen (List.filter (terminal 8) (w_emitted toy_answered)) = 0.
Proof.
  pose proof (call_reported_once _ _ _ toy_asked_reachable 7) as H1.
  pose proof (call_reported_once _ _ _ toy_answered_reachable 7) as H2.
  pose proof (call_reported_once _ _ _ toy_answered_reachable 8) as H3.
  rewrite (decide_True (P := is_Some _)), (decide_True (P := 7 ∈ _)) in H1; [|evaluate..].
  rewrite (decide_False (P := is_Some _)), (decide_True (P := 7 ∈ _)) in H2;
    [|evaluate..].
  rewrite (decide_False (P := is_Some _)), (decide_False (P := 8 ∈ _)) in H3;
    [|evaluate..].
  lia.
Defined.
