(* ===== verification/Emissions.v ===== *)
(** * Emissions: what the handlers hand to the event queue

    [emits ks]: every record a handler hands over is well formed and of a kind
    in [ks], and the records were pushed to the event queue in this order, with
    nothing else done to the queue. One lemma per handler, found by the hint
    database [emits]; with them the authenticity theorems need to look at one
    handler only, and the theorems about the queue apply to the node. *)

From S2P Require Import Prelude Abi Keys Multiaddr AddressBook Libp2p Events NodeState.
From S2P Require Import Calls Inbound Relay Topics Node CallsInv.
From S2P Require Wire Delegation Limits EventQueue.

Section emissions.
Context {I : Identity} {MA : Multiaddrs I} {H : Handles} {L : Libp2p I MA H}.

Definition kind_in (ks : list Z) (r : EventRecord) : bool := existsb (Z.eqb (kind_of r)) ks.

(** What of the shared state belongs to the queue. *)
Definition queue_of (w : World) : Z * EventQueue.Inner * bool :=
  (events_max_bytes (w_shared w), events (w_shared w), poisoned (w_shared w)).

Definition push_all (max_bytes : Z) (l : list EventRecord) (q : EventQueue.Inner) : EventQueue.Inner :=
  foldl (fun q r => EventQueue.push max_bytes r q) q l.

Definition pushes (l : list EventRecord) (w : World) : Z * EventQueue.Inner * bool :=
  (events_max_bytes (w_shared w), push_all (events_max_bytes (w_shared w)) l (events (w_shared w)), poisoned (w_shared w)).

Definition emits (ks : list Z) (w w' : World) : Prop :=
  ∃ l, w_emitted w' = w_emitted w ++ l ∧ Forall (fun r => kind_in ks r = true ∧ EventQueue.built r) l ∧
       queue_of w' = pushes l w.

Lemma pushes_app l l' w w' : queue_of w' = pushes l w → pushes l' w' = pushes (l ++ l') w.
Proof.
  unfold pushes, push_all, queue_of. rewrite foldl_app. intros [= -> -> ->]. done.
Qed.

#[export] Instance emits_preorder ks : PreOrder (emits ks).
Proof.
  split; [intros w; exists []; by rewrite app_nil_r|].
  intros w1 w2 w3 (l1 & E1 & F1 & Q1) (l2 & E2 & F2 & Q2). exists (l1 ++ l2). rewrite E2, E1, app_assoc.
  split; [done|]. split; [by apply Forall_app|]. by rewrite Q2, (pushes_app _ _ _ _ Q1).
Qed.

Definition kinds_subset (ks ks' : list Z) : bool := forallb (fun k => existsb (Z.eqb k) ks') ks.

Lemma kind_in_mono ks ks' r : kinds_subset ks ks' = true → kind_in ks r = true → kind_in ks' r = true.
Proof.
  unfold kinds_subset, kind_in. rewrite forallb_forall. intros Hs (k & Hk & E)%existsb_exists.
  apply Z.eqb_eq in E. rewrite E. by apply Hs.
Qed.

Lemma emits_mono ks ks' {A} (m : M A) :
  kinds_subset ks ks' = true → respects (emits ks) m → respects (emits ks') m.
Proof.
  intros Hs Hm w. destruct (Hm w) as (l & E & F & Q). exists l. split_and!; [done| |done].
  eapply Forall_impl; [exact F|]. intros r [Hr Hb]. split; [by apply (kind_in_mono ks)|done].
Qed.

Lemma emits_same ks w w' : w_emitted w' = w_emitted w → queue_of w' = queue_of w → emits ks w w'.
Proof. intros E Q. exists []. by rewrite app_nil_r, E, Q. Qed.

Lemma emits_data ks b d :
  existsb (Z.eqb (as_u16 (ev_type (header b)))) ks = true → EventQueue.carries_topic b d →
  respects (emits ks) (emit (data b d)).
Proof.
  intros Hk Hc w. exists [data b d]. split; [done|]. split; [|done]. constructor; [|done].
  split; [|by exists b, d]. unfold kind_in. by rewrite kind_of_data.
Qed.

Lemma emits_swarm ks {A} (a : Action A) : respects (emits ks) (swarm a).
Proof. intros w. rewrite run_swarm. by apply emits_same. Qed.

Lemma emits_check_limits ks rq n t : respects (emits ks) (check_limits rq n t).
Proof. intros w. unfold check_limits. destruct (Limits.check _ _ _ _). by apply emits_same. Qed.

Lemma emits_may_report ks t : respects (emits ks) (may_report t).
Proof. intros w. unfold may_report. destruct (Limits.may_report _ _). by apply emits_same. Qed.

Lemma emits_allow ks p t : respects (emits ks) (allow_announcement p t).
Proof. intros w. unfold allow_announcement. destruct (Limits.allow _ _ _). by apply emits_same. Qed.

End emissions.

Create HintDb emits.

(** Data that begins with a key. *)
Ltac carries_key := rewrite blen_app; unfold blen; rewrite array_length; lia.

(** One step into a handler: a primitive, or a handler whose lemma is known. *)
Ltac emits_step :=
  first
  [ respects_step
  | apply emits_swarm | apply emits_check_limits | apply emits_may_report | apply emits_allow
  | apply emits_data; [reflexivity | intros E; first [ discriminate E | carries_key ] ]
  | solve [ eapply emits_mono; [ | solve [ eauto 1 with emits nocore ] ]; reflexivity ]
  | intros ?; apply emits_same; reflexivity ].
Ltac emits := repeat emits_step.

Section handlers.
Context {I : Identity} {MA : Multiaddrs I} {H : Handles} {L : Libp2p I MA H}.

(** ** The handlers *)

Lemma emits_remember_failure p : respects (emits []) (remember_failure p).
Proof. unfold remember_failure. emits. Qed.
#[local] Hint Resolve emits_remember_failure : emits.

Lemma emits_provide : respects (emits []) provide.
Proof. unfold provide. emits. Qed.
#[local] Hint Resolve emits_provide : emits.

Lemma emits_try_candidates id call l : respects (emits []) (try_candidates id call l).
Proof. induction l; cbn [try_candidates]; emits. Qed.
#[local] Hint Resolve emits_try_candidates : emits.

Lemma emits_advance id : respects (emits [LP2P_EV_RPC_FAILED]) (advance id).
Proof. unfold advance, remove_call. emits. Qed.
#[local] Hint Resolve emits_advance : emits.

Lemma emits_start_call id g n p b t : respects (emits [LP2P_EV_RPC_FAILED]) (start_call id g n p b t).
Proof. unfold start_call, first_candidates. emits. Qed.
#[local] Hint Resolve emits_start_call : emits.

Lemma emits_outbound_failure p r e : respects (emits [LP2P_EV_RPC_FAILED]) (outbound_failure p r e).
Proof. unfold outbound_failure, update_call. emits. Qed.
#[local] Hint Resolve emits_outbound_failure : emits.

Lemma emits_expire t : respects (emits [LP2P_EV_RPC_FAILED]) (expire t).
Proof. unfold expire, remove_call. emits. Qed.
#[local] Hint Resolve emits_expire : emits.

Lemma emits_enqueue call p : respects (emits []) (enqueue call p).
Proof. unfold enqueue. emits. Qed.
#[local] Hint Resolve emits_enqueue : emits.

Lemma emits_enqueue_all local call l : respects (emits []) (enqueue_all local call l).
Proof. revert call. induction l as [|p l IH]; intros call; cbn [enqueue_all]; emits; apply IH. Qed.
#[local] Hint Resolve emits_enqueue_all : emits.

Lemma emits_call_providers q id f b : respects (emits [LP2P_EV_RPC_FAILED]) (call_providers q id f b).
Proof. unfold call_providers, queue_found. emits. Qed.
#[local] Hint Resolve emits_call_providers : emits.

Lemma emits_call_resolved id : respects (emits [LP2P_EV_RPC_FAILED]) (call_resolved id).
Proof. unfold call_resolved, update_call. emits. Qed.
#[local] Hint Resolve emits_call_resolved : emits.

Lemma emits_response p r f : respects (emits [LP2P_EV_RPC_FAILED; LP2P_EV_RPC_RESPONSE]) (response p r f).
Proof. unfold response, response_accepted, update_call. emits. Qed.
#[local] Hint Resolve emits_response : emits.

Lemma emits_respond id p : respects (emits []) (respond id p).
Proof. unfold respond. emits. Qed.
#[local] Hint Resolve emits_respond : emits.

Lemma emits_inbound_done r : respects (emits []) (inbound_done r).
Proof. unfold inbound_done. emits. Qed.
#[local] Hint Resolve emits_inbound_done : emits.

Lemma emits_inbound_request p c r f ch :
  respects (emits [LP2P_EV_LIMITED; LP2P_EV_RPC_REQUEST]) (inbound_request p c r f ch).
Proof. unfold inbound_request. emits. Qed.
#[local] Hint Resolve emits_inbound_request : emits.

Lemma emits_reserve_on t l : respects (emits []) (reserve_on t l).
Proof. induction l as [|[p a] l IH]; cbn [reserve_on]; emits; apply IH. Qed.
#[local] Hint Resolve emits_reserve_on : emits.

Lemma emits_reserve : respects (emits []) reserve.
Proof. unfold reserve. emits. Qed.
#[local] Hint Resolve emits_reserve : emits.

Lemma emits_relay_lost l : respects (emits []) (relay_lost l).
Proof. unfold relay_lost. emits. Qed.
#[local] Hint Resolve emits_relay_lost : emits.

Lemma emits_nat_status st : respects (emits [LP2P_EV_REACHABILITY]) (nat_status st).
Proof. unfold nat_status, become_private, become_public. emits. Qed.
#[local] Hint Resolve emits_nat_status : emits.

Lemma emits_identified p i : respects (emits []) (identified p i).
Proof. unfold identified. emits. Qed.
#[local] Hint Resolve emits_identified : emits.

Lemma emits_new_listen_addr a : respects (emits [LP2P_EV_LISTENING]) (new_listen_addr a).
Proof. unfold new_listen_addr. emits. Qed.
#[local] Hint Resolve emits_new_listen_addr : emits.

Lemma emits_announce : respects (emits []) announce.
Proof. unfold announce. emits. Qed.
#[local] Hint Resolve emits_announce : emits.

Lemma emits_topic_lookup k : respects (emits []) (topic_lookup k).
Proof. unfold topic_lookup. emits. Qed.
#[local] Hint Resolve emits_topic_lookup : emits.

Lemma emits_topic_subscribe k : respects (emits []) (topic_subscribe k).
Proof. unfold topic_subscribe, store_topic_count. emits. Qed.
#[local] Hint Resolve emits_topic_subscribe : emits.

Lemma emits_topic_unsubscribe k : respects (emits []) (topic_unsubscribe k).
Proof. unfold topic_unsubscribe, store_topic_count. emits. Qed.
#[local] Hint Resolve emits_topic_unsubscribe : emits.

Lemma emits_dial_members n l : respects (emits []) (dial_members n l).
Proof. revert n. induction l as [|p l IH]; intros n; cbn [dial_members]; emits; apply IH. Qed.
#[local] Hint Resolve emits_dial_members : emits.

Lemma emits_topic_publish k p : respects (emits []) (topic_publish k p).
Proof. unfold topic_publish. emits. Qed.
#[local] Hint Resolve emits_topic_publish : emits.

Lemma emits_topic_message src m :
  respects (emits [LP2P_EV_LIMITED; LP2P_EV_TOPIC_MESSAGE]) (topic_message src m).
Proof. unfold topic_message. emits. Qed.
#[local] Hint Resolve emits_topic_message : emits.

Lemma emits_announcement_message m : respects (emits [LP2P_EV_ANNOUNCEMENT]) (announcement_message m).
Proof. unfold announcement_message. emits. Qed.
#[local] Hint Resolve emits_announcement_message : emits.

Lemma emits_iterate_found f : respects (emits []) (iterate_found f).
Proof. unfold iterate_found. emits. Qed.
#[local] Hint Resolve emits_iterate_found : emits.

Lemma emits_routing_sample n : respects (emits []) (routing_sample n).
Proof. unfold routing_sample. emits. Qed.
#[local] Hint Resolve emits_routing_sample : emits.

Lemma emits_topic_peers k : respects (emits []) (topic_peers k).
Proof. unfold topic_peers. emits. Qed.
#[local] Hint Resolve emits_topic_peers : emits.

Lemma emits_kad_event e :
  respects (emits [LP2P_EV_RPC_FAILED; LP2P_EV_PEER_DISCOVERED; LP2P_EV_DHT_RESULT]) (kad_event e).
Proof.
  destruct e; cbn [kad_event]; unfold routing_updated, get_providers_progressed, topic_providers,
    dial_topic_members, found_providers, get_closest_peers_progressed, bootstrap_progressed; emits.
Qed.
#[local] Hint Resolve emits_kad_event : emits.

Lemma emits_connection_established p c n e :
  respects (emits [LP2P_EV_PEER_CONNECTED]) (connection_established p c n e).
Proof. unfold connection_established. emits. Qed.
#[local] Hint Resolve emits_connection_established : emits.

Lemma emits_connection_closed p c n :
  respects (emits [LP2P_EV_PEER_DISCONNECTED]) (connection_closed p c n).
Proof. unfold connection_closed. emits. Qed.
#[local] Hint Resolve emits_connection_closed : emits.

Lemma emits_hole_punch p o : respects (emits [LP2P_EV_HOLE_PUNCH]) (hole_punch p o).
Proof. unfold hole_punch. destruct o; emits. Qed.
#[local] Hint Resolve emits_hole_punch : emits.

Lemma emits_tick : respects (emits [LP2P_EV_RPC_FAILED]) tick.
Proof. unfold tick. emits. Qed.
#[local] Hint Resolve emits_tick : emits.

Lemma emits_command c : respects (emits [LP2P_EV_RPC_FAILED; LP2P_EV_DHT_RESULT]) (command c).
Proof.
  destruct c; cbn [command]; unfold reject, add_address, bootstrap, random_walk, find_providers,
    provide_key, announce_set_payload; emits.
Qed.

Lemma emits_get_ready config :
  respects (emits [LP2P_EV_REACHABILITY])
    (emit (reachability_event (reachability_reason (cfg_reachability config)));; provide).
Proof. emits. Qed.

End handlers.

#[export] Hint Resolve emits_announcement_message emits_topic_message emits_announce emits_kad_event
  emits_inbound_request emits_response emits_outbound_failure emits_inbound_done emits_new_listen_addr
  emits_relay_lost emits_connection_established emits_connection_closed emits_identified
  emits_hole_punch emits_nat_status emits_tick emits_command emits_reserve : emits.
