(* ===== verification/Authentic.v ===== *)
(** * Authentic: what other nodes can make the caller see

    The caller is handed a response, a request, an announcement or a topic
    message only when its frame carries a delegation that the group's key signed
    for the very peer it came from. *)

From S2P Require Import Prelude Abi Keys Toy Multiaddr AddressBook Libp2p Events NodeState.
From S2P Require Import Calls Inbound Relay Topics Node ToyNode CallsInv Emissions.
From S2P Require Wire Delegation Limits EventQueue.

Section authentic.
Context {I : Identity} {MA : Multiaddrs I} {H : Handles} {L : Libp2p I MA H}.

(** [d] is [group]'s signed word that [node] belongs to it, good at [now]. *)
Definition endorses (d : Delegation.Delegation) (group node : lp2p_key) (now : Z) : Prop :=
  Delegation.delegation_wf d ∧ Delegation.group d = group ∧ Delegation.node d = node ∧
  is_Some (ed25519_public_from_bytes group) ∧
  ed25519_verify group (Delegation.message node group (Delegation.expires_ms d)) (Delegation.signature d) = true ∧
  Delegation.in_force (Delegation.expires_ms d) now.

(** The clock reading of a handler that is the first to read it in [w], in
    milliseconds. *)
Definition clock_ms (n : nat) : Z := Delegation.now_ms (system_time_at n).

Lemma ok_Some {A E} (r : result A E) a : ok r = Some a ↔ r = Ok a.
Proof. destruct r; cbn; naive_solver. Qed.

Lemma parse_verify l n now d :
  Delegation.parse l = Ok d → Delegation.verify_for d n now = Ok tt → l = Delegation.to_bytes d ∧ endorses d (Delegation.group d) n now.
Proof.
  intros Hp (Hk & Hv & Hf & Hn)%Delegation.verify_for_Ok. split; [by rewrite (Delegation.to_bytes_parse _ _ Hp)|].
  rewrite Hn in Hv. repeat split; try done; try apply (Delegation.parse_wf _ _ Hp).
Qed.

Lemma endorses_parse d g n now :
  endorses d g n now → Delegation.parse (Delegation.to_bytes d) = Ok d ∧ Delegation.verify_for d n now = Ok tt ∧ Delegation.group d = g.
Proof.
  intros (Hwf & <- & <- & Hk & Hv & Hf). split_and!; [by apply Delegation.parse_to_bytes| |done].
  by apply Delegation.verify_for_Ok.
Qed.

(** ** Frames *)

Lemma check_response_Some peer group now frame node payload :
  check_response peer group now frame = Some (node, payload) ↔
  key_of peer = Some node ∧
  ∃ d, endorses d group node now ∧ frame = Wire.encode_response (Delegation.to_bytes d) payload.
Proof.
  unfold check_response. split.
  - intros ([d p] & Hr & Hc)%bind_Some. cbn [Wire.res_delegation Wire.res_payload] in Hc.
    apply bind_Some in Hc as (n & Hn & Hc). apply bind_Some in Hc as (dl & Hd%ok_Some & Hc).
    apply bind_Some in Hc as ([] & Hv%ok_Some & Hc). case_bool_decide as Hg; [|done]. injection Hc as <- <-.
    split; [done|]. destruct (parse_verify _ _ _ _ Hd Hv) as [-> He]. exists dl. rewrite Hg in He. split; [done|].
    apply Wire.encode_response_decode in Hr as [_ <-]. done.
  - intros (Hn & d & He & ->). destruct (endorses_parse _ _ _ _ He) as (Hp & Hv & Hg).
    rewrite Wire.decode_response_encode by apply Delegation.length_to_bytes.
    cbn [mbind option_bind Wire.res_delegation Wire.res_payload]. rewrite Hn. cbn [mbind option_bind]. rewrite Hp.
    cbn [mbind option_bind ok]. rewrite Hv. cbn [mbind option_bind ok]. by rewrite bool_decide_true.
Qed.

Lemma check_request_Some peer now protocols frame node group protocol payload :
  check_request peer now protocols frame = Some (node, group, protocol, payload) ↔
  key_of peer = Some node ∧
  ∃ d name index, endorses d group node now ∧ protocol = Z.of_nat index ∧
    position (fun p => bool_decide (p = name)) protocols = Some index ∧
    Wire.request_wf (Wire.mk_request (Delegation.to_bytes d) name payload) ∧
    frame = Wire.encode_request (Delegation.to_bytes d) name payload.
Proof.
  unfold check_request. split.
  - intros ([d nm p] & Hr & Hc)%bind_Some. cbn [Wire.req_delegation Wire.req_payload Wire.req_protocol] in Hc.
    apply bind_Some in Hc as (n & Hn & Hc). apply bind_Some in Hc as (dl & Hd%ok_Some & Hc).
    apply bind_Some in Hc as ([] & Hv%ok_Some & Hc). apply bind_Some in Hc as (i & Hi & Hc). injection Hc as <- <- <- <-.
    split; [done|]. destruct (parse_verify _ _ _ _ Hd Hv) as [-> He]. exists dl, nm, i.
    apply Wire.encode_request_decode in Hr as [Hw <-]. done.
  - intros (Hn & d & name & i & He & -> & Hi & Hw & ->). destruct (endorses_parse _ _ _ _ He) as (Hp & Hv & Hg).
    pose proof (Wire.decode_request_encode _ Hw) as Hdec. cbn [Wire.req_delegation Wire.req_payload Wire.req_protocol] in Hdec.
    rewrite Hdec.
    cbn [mbind option_bind Wire.req_delegation Wire.req_payload Wire.req_protocol]. rewrite Hn. cbn [mbind option_bind]. rewrite Hp.
    cbn [mbind option_bind ok]. rewrite Hv. cbn [mbind option_bind ok]. rewrite Hi, Hg. done.
Qed.

Lemma check_message_Some m now source node group payload :
  check_message m now = Some (source, node, group, payload) ↔
  m_source m = Some source ∧ key_of source = Some node ∧
  ∃ d, endorses d group node now ∧ m_data m = Wire.encode_announcement (Delegation.to_bytes d) payload.
Proof.
  unfold check_message. split.
  - intros (src & Hs & Hc)%bind_Some. apply bind_Some in Hc as (n & Hn & Hc). apply bind_Some in Hc as ([d p] & Hr & Hc).
    cbn [Wire.res_delegation Wire.res_payload] in Hc.
    apply bind_Some in Hc as (dl & Hd%ok_Some & Hc).
    apply bind_Some in Hc as ([] & Hv%ok_Some & Hc). injection Hc as <- <- <- <-.
    split_and!; [done|done|]. destruct (parse_verify _ _ _ _ Hd Hv) as [-> He]. exists dl. split; [done|].
    apply Wire.encode_response_decode in Hr as [_ <-]. done.
  - intros (Hs & Hn & d & He & Hm). destruct (endorses_parse _ _ _ _ He) as (Hp & Hv & Hg).
    rewrite Hs. cbn [mbind option_bind]. rewrite Hn. cbn [mbind option_bind]. rewrite Hm.
    unfold Wire.decode_announcement, Wire.encode_announcement.
    rewrite Wire.decode_response_encode by apply Delegation.length_to_bytes.
    cbn [mbind option_bind Wire.res_delegation Wire.res_payload]. rewrite Hp.
    cbn [mbind option_bind ok]. rewrite Hv. cbn [mbind option_bind ok]. by rewrite Hg.
Qed.

(** ** Responses *)

(** The world once a response has taken its request out. *)
Definition response_taken (request : OutboundRequestId) (id : Z) (w : World) : World :=
  w <| w_state ::= fun s => s <| outbound ::= delete request |> |>
    <| w_state ::= fun s => s <| calls ::= alter (fun call => call <| in_flight := false |>) id |> |>
    <| w_tick ::= S |>.

Lemma response_run peer request frame w id call :
  outbound (w_state w) !! request = Some id → calls (w_state w) !! id = Some call →
  (response peer request frame w).2 =
  match check_response peer (call_group call) (clock_ms (w_tick w)) frame with
  | Some (node, payload) => (response_accepted id call peer node payload (response_taken request id w)).2
  | None =>
      ((update_call id (fun call => call <| last_failure := LP2P_FAIL_REFUSED |>);;
        remember_failure peer;;
        advance id) (response_taken request id w)).2
  end.
Proof.
  intros Ho Hc. unfold response. rewrite run_bind, run_gets. cbn [fst snd]. rewrite Ho.
  rewrite run_bind, run_modify. cbn [fst snd]. rewrite run_bind, run_gets. cbn [fst snd].
  change (calls (w_state (w <| w_state ::= _ |>)) !! id) with (calls (w_state w) !! id). rewrite Hc.
  unfold update_call at 1. rewrite run_bind, run_modify. cbn [fst snd]. rewrite run_bind. cbn [now_ms fst snd].
  change (Delegation.now_ms _) with (clock_ms (w_tick w)).
  destruct (check_response _ _ _ _) as [[n p]|]; done.
Qed.

Lemma response_unknown peer request frame w :
  outbound (w_state w) !! request = None → (response peer request frame w).2 = w.
Proof.
  intros Ho. unfold response. rewrite run_bind, run_gets. cbn [fst snd]. rewrite Ho.
  rewrite run_bind, run_modify. cbn [fst snd skip]. apply drop_nothing. by apply delete_outbound_None.
Qed.

Lemma response_orphan peer request frame w id :
  outbound (w_state w) !! request = Some id → calls (w_state w) !! id = None →
  (response peer request frame w).2 = w <| w_state ::= fun s => s <| outbound ::= delete request |> |>.
Proof.
  intros Ho Hc. unfold response. rewrite run_bind, run_gets. cbn [fst snd]. rewrite Ho.
  rewrite run_bind, run_modify. cbn [fst snd]. rewrite run_bind, run_gets. cbn [fst snd].
  change (calls (w_state (w <| w_state ::= _ |>)) !! id) with (calls (w_state w) !! id). by rewrite Hc.
Qed.

(** New records of a step that only emits other kinds. *)
Lemma emits_new ks w w' l r :
  emits ks w w' → w_emitted w' = w_emitted w ++ l → r ∈ l → kind_in ks r = true.
Proof.
  intros (l' & E & F & _) E' Hr. rewrite E in E'. apply app_inv_head in E' as ->. rewrite Forall_forall in F. by apply F.
Qed.

Lemma emits_not ks w w' l r k :
  emits ks w w' → w_emitted w' = w_emitted w ++ l → r ∈ l → kind_of r = k → existsb (Z.eqb k) ks = false → False.
Proof.
  intros He E Hr Hk Hks. pose proof (emits_new _ _ _ _ _ He E Hr) as Hin. unfold kind_in in Hin.
  rewrite Hk in Hin. congruence.
Qed.

(** The handler an input runs, as a computation without a result. *)
Lemma step_swarm e w : (step (InSwarm e) w).2 = (swarm_event e w).2.
Proof. cbn [step]. by rewrite run_bind. Qed.

Lemma step_tick w : (step InTick w).2 = (tick w).2.
Proof. cbn [step]. by rewrite run_bind. Qed.

(** Which inputs can hand over a record of a kind that only one handler makes. *)
Lemma swarm_event_emits e :
  respects (emits (match e with
    | RpcBehaviour (RequestReceived _ _ _ _ _) => [LP2P_EV_LIMITED; LP2P_EV_RPC_REQUEST]
    | RpcBehaviour (ResponseReceived _ _ _) => [LP2P_EV_RPC_FAILED; LP2P_EV_RPC_RESPONSE]
    | RpcBehaviour _ => [LP2P_EV_RPC_FAILED]
    | GossipsubBehaviour (MessageReceived _ _ _) => [LP2P_EV_LIMITED; LP2P_EV_TOPIC_MESSAGE; LP2P_EV_ANNOUNCEMENT]
    | GossipsubBehaviour _ => []
    | KadBehaviour _ => [LP2P_EV_RPC_FAILED; LP2P_EV_PEER_DISCOVERED; LP2P_EV_DHT_RESULT]
    | NewListenAddr _ _ => [LP2P_EV_LISTENING]
    | ConnectionEstablished _ _ _ _ => [LP2P_EV_PEER_CONNECTED]
    | ConnectionClosed _ _ _ => [LP2P_EV_PEER_DISCONNECTED]
    | DcutrBehaviour _ _ => [LP2P_EV_HOLE_PUNCH]
    | AutonatBehaviour _ => [LP2P_EV_REACHABILITY]
    | _ => []
    end)) (swarm_event e).
Proof.
  destruct e as [| | | | | | | |e|e| | |]; cbn [swarm_event]; try destruct e; cbn [rpc_event gossipsub_event];
    unfold expired_listen_addr; emits.
Qed.

(** An input that is not the event [e] emits no record of its kind. *)
Lemma step_emits_not input w l r k :
  w_emitted (step input w).2 = w_emitted w ++ l → r ∈ l → kind_of r = k →
  existsb (Z.eqb k) [LP2P_EV_RPC_FAILED; LP2P_EV_DHT_RESULT] = false →
  ∃ e, input = InSwarm e.
Proof.
  intros E Hr Hk Hks. destruct input as [c| |e|]; [|exfalso| by eexists |exfalso].
  - exfalso. exact (emits_not _ _ _ _ _ _ (emits_command c w) E Hr Hk Hks).
  - refine (emits_not [] _ _ _ _ _ (emits_same _ _ _ eq_refl eq_refl) E Hr Hk eq_refl).
  - rewrite step_tick in E. refine (emits_not _ _ _ _ _ _ (emits_tick w) E Hr Hk _).
    cbn in Hks |- *. by apply orb_false_iff in Hks as [-> _].
Qed.

Lemma response_emits_only_accepted peer request frame w l r :
  w_emitted (response peer request frame w).2 = w_emitted w ++ l → r ∈ l → kind_of r = LP2P_EV_RPC_RESPONSE →
  ∃ id call node payload, outbound (w_state w) !! request = Some id ∧ calls (w_state w) !! id = Some call ∧
    check_response peer (call_group call) (clock_ms (w_tick w)) frame = Some (node, payload) ∧
    r = rpc_response id call node payload ∧ calls (w_state (response peer request frame w).2) !! id = None.
Proof.
  intros E Hr Hk. destruct (outbound (w_state w) !! request) as [id|] eqn:Ho.
  2:{ rewrite (response_unknown _ _ _ _ Ho) in E. destruct (emits_not [] w w l r _ (emits_same _ _ _ eq_refl eq_refl) E Hr Hk eq_refl). }
  destruct (calls (w_state w) !! id) as [call|] eqn:Hc.
  2:{ rewrite (response_orphan _ _ _ _ _ Ho Hc) in E. destruct (emits_not [] w _ l r _ (emits_same _ _ _ eq_refl eq_refl) E Hr Hk eq_refl). }
  exists id, call. rewrite (response_run _ _ _ _ _ _ Ho Hc) in E |- *.
  destruct (check_response _ _ _ _) as [[n p]|] eqn:Hcheck.
  - destruct (response_accepted_spec id call peer n p (response_taken request id w)) as (S1 & _ & _ & _ & _ & S6 & _).
    rewrite S1, lookup_delete_eq. rewrite S6 in E. cbn [w_emitted response_taken] in E. apply app_inv_head in E as <-.
    apply list_elem_of_singleton in Hr as ->. exists n, p. done.
  - exfalso. refine (emits_not [LP2P_EV_RPC_FAILED] w _ l r _ _ E Hr Hk eq_refl).
    assert (∀ (m : M ()) , respects (emits [LP2P_EV_RPC_FAILED]) m → emits [LP2P_EV_RPC_FAILED] w (m (response_taken request id w)).2) as Hm.
    { intros m Hm. destruct (Hm (response_taken request id w)) as (k & Ek & Fk). by exists k. }
    apply Hm. unfold update_call. repeat (emits_step || apply emits_advance || (eapply emits_mono; [|apply emits_remember_failure])); done.
Qed.

(** C4: the caller sees a response only from a node of the group it asked. When
    any step of the node hands over an RPC_RESPONSE record, then it is the
    arrival of the frame of a request that is outstanding for a call in
    progress, the frame is exactly the encoding of the payload under a
    delegation, the group the caller asked signed that delegation for the peer
    that sent it, it has not expired, and the record carries that node, that
    payload and the call's id; the call is over. *)
Theorem responses_authentic input w l r :
  w_emitted (step input w).2 = w_emitted w ++ l → r ∈ l → kind_of r = LP2P_EV_RPC_RESPONSE →
  ∃ peer request frame id call d payload,
    input = InSwarm (RpcBehaviour (ResponseReceived peer request frame)) ∧
    outbound (w_state w) !! request = Some id ∧ calls (w_state w) !! id = Some call ∧
    key_of peer = Some (Delegation.node d) ∧
    endorses d (call_group call) (Delegation.node d) (clock_ms (w_tick w)) ∧
    frame = Wire.encode_response (Delegation.to_bytes d) payload ∧
    r = rpc_response id call (Delegation.node d) payload ∧
    calls (w_state (step input w).2) !! id = None.
Proof.
  intros E Hr Hk. destruct (step_emits_not _ _ _ _ _ E Hr Hk eq_refl) as [e ->]. rewrite step_swarm in E |- *.
  pose proof (swarm_event_emits e w) as Hm.
  destruct e as [| | | | | | | |[|peer request frame| | |]|[]| | |];
    try (by destruct (emits_not _ _ _ _ _ _ Hm E Hr Hk eq_refl)).
  cbn [swarm_event rpc_event] in E |- *.
  destruct (response_emits_only_accepted _ _ _ _ _ _ E Hr Hk) as (id & call & node & payload & Ho & Hc & Hcheck & -> & Hgone).
  apply check_response_Some in Hcheck as (Hn & d & He & ->). pose proof He as (_ & _ & Hnode & _).
  exists peer, request, (Wire.encode_response (Delegation.to_bytes d) payload), id, call, d, payload.
  rewrite Hnode. done.
Qed.

(** ** Requests *)

Lemma check_request_clock peer ms protocols frame :
  is_Some (check_request peer ms protocols frame) →
  is_Some (request ← Wire.decode_request frame; node ← key_of peer;
           ok (Delegation.parse (Wire.req_delegation request))).
Proof.
  unfold check_request. intros [x Hx]. apply bind_Some in Hx as (rq & -> & Hx). cbn [mbind option_bind].
  apply bind_Some in Hx as (n & -> & Hx). cbn [mbind option_bind]. by apply bind_Some in Hx as (d & -> & _).
Qed.

(** The clocks of [inbound_request] and of the message handlers: the system
    clock first, then the monotonic one, or the other way round. *)
Definition request_of (peer : PeerId) (connection : ConnectionId) (group : lp2p_key) (protocol : Z) (s : State) :
    Limits.Request := Limits.mk_request group peer (request_ip s connection) (as_u16 protocol).

Definition request_refused (group node : lp2p_key) (protocol reason t : Z) (l : Limits.Limits) (w : World) : World :=
  let w := w <| w_state ::= fun s => s <| limits := (Limits.may_report t l).2 |> |>
             <| w_shared ::= fun sh => sh <| rpc_limited ::= incr64 |> |> in
  if (Limits.may_report t l).1 then (emit (limited group node (as_u16 protocol) reason) w).2 else w.

Definition request_admitted (request_id : InboundRequestId) (channel : ResponseChannel) (group node : lp2p_key)
    (protocol : Z) (payload : bytes) (l : Limits.Limits) (w : World) : World :=
  let id := next_id (w_shared w) in
  (emit (rpc_request id group node (as_u16 protocol) payload)
    (w <| w_state ::= fun s => s <| limits := l |> |>
       <| w_shared ::= fun sh => sh <| next_id ::= incr64 |> |>
       <| w_shared ::= fun sh => sh <| rpc_in ::= incr64 |> |>)).2
    <| w_state ::= fun s => s <| inbound ::= insert id channel |> |>
    <| w_state ::= fun s => s <| inbound_ids ::= insert request_id id |> |>.

Lemma inbound_request_run peer connection request_id frame channel w :
  (∃ n, check_request peer (clock_ms (w_tick w)) (rpc_protocols (w_state w)) frame = None ∧
    (inbound_request peer connection request_id frame channel w).2 = w <| w_tick := n |>) ∨
  (∃ node group protocol payload,
    check_request peer (clock_ms (w_tick w)) (rpc_protocols (w_state w)) frame = Some (node, group, protocol, payload) ∧
    (inbound_request peer connection request_id frame channel w).2 =
    let t := instant_at (S (w_tick w)) in
    let w1 := w <| w_tick := S (S (w_tick w)) |> in
    match Limits.check (request_of peer connection group protocol (w_state w)) (blen frame) t (limits (w_state w)) with
    | (Err reason, l) => request_refused group node protocol reason t l w1
    | (Ok _, l) => request_admitted request_id channel group node protocol payload l w1
    end).
Proof.
  unfold inbound_request. rewrite run_bind, run_gets. cbn [fst snd].
  case_bool_decide as Hclock.
  2:{ left. rewrite run_bind. cbn [ret fst snd].
      assert (∀ ms, check_request peer ms (rpc_protocols (w_state w)) frame = None) as Hnone.
      { intros ms. destruct (check_request _ _ _ _) eqn:E; [|done]. destruct Hclock. eapply check_request_clock. by rewrite E. }
      rewrite !Hnone. exists (w_tick w). split; [done|]. by destruct w. }
  rewrite run_bind. cbn [now_ms fst snd]. change (Delegation.now_ms _) with (clock_ms (w_tick w)).
  destruct (check_request _ _ _ _) as [[[[node group] protocol] payload]|] eqn:E.
  2:{ left. by exists (S (w_tick w)). }
  right. exists node, group, protocol, payload. split; [done|].
  rewrite run_bind, run_gets. cbn [fst snd]. rewrite run_bind. cbn [now fst snd]. rewrite run_bind.
  cbv zeta. unfold check_limits at 1 2.
  change (limits (w_state _)) with (limits (w_state w)). fold (request_of peer connection group protocol (w_state w)).
  change (Limits.mk_request group peer _ (as_u16 protocol)) with (request_of peer connection group protocol (w_state w)).
  change (instant_at (w_tick _)) with (instant_at (S (w_tick w))).
  destruct (Limits.check _ _ _ _) as [[[]|reason] l]; cbn [fst snd].
  - reflexivity.
  - rewrite run_bind. cbn [modify_shared fst snd]. rewrite run_bind.
    unfold may_report at 1 2. cbn [w_state upd limits fst snd].
    unfold request_refused. destruct (Limits.may_report (instant_at (S (w_tick w))) l) as [[] l'] eqn:Er; reflexivity.
Qed.

(** What becomes of a request of another node, on every branch. One whose
    frame, sender, delegation or protocol is not good leaves everything as it
    was. One a limit refuses counts as limited and is reported at most as often
    as the limits' window admits; nothing is kept of it. An admitted one gets a
    fresh id, its record goes to the event queue under that id, and the channel
    to answer on is kept under it. *)
Theorem inbound_request_spec peer connection request_id frame channel w :
  let w' := (inbound_request peer connection request_id frame channel w).2 in
  let s := w_state w in let s' := w_state w' in
  match check_request peer (clock_ms (w_tick w)) (rpc_protocols s) frame with
  | None => s' = s ∧ w_swarm w' = w_swarm w ∧ w_shared w' = w_shared w ∧ w_emitted w' = w_emitted w
  | Some (node, group, protocol, payload) =>
      let t := instant_at (S (w_tick w)) in
      match Limits.check (Limits.mk_request group peer (request_ip s connection) (as_u16 protocol))
                         (blen frame) t (limits s) with
      | (Err reason, l) =>
          let '(reported, l') := Limits.may_report t l in
          inbound s' = inbound s ∧ inbound_ids s' = inbound_ids s ∧ limits s' = l' ∧
          rpc_limited (w_shared w') = incr64 (rpc_limited (w_shared w)) ∧ rpc_in (w_shared w') = rpc_in (w_shared w) ∧
          w_emitted w' = w_emitted w ++ (if reported then [limited group node (as_u16 protocol) reason] else [])
      | (Ok _, l) =>
          let id := next_id (w_shared w) in
          inbound s' = <[id := channel]> (inbound s) ∧ inbound_ids s' = <[request_id := id]> (inbound_ids s) ∧
          limits s' = l ∧ next_id (w_shared w') = incr64 id ∧
          rpc_limited (w_shared w') = rpc_limited (w_shared w) ∧ rpc_in (w_shared w') = incr64 (rpc_in (w_shared w)) ∧
          w_emitted w' = w_emitted w ++ [rpc_request id group node (as_u16 protocol) payload]
      end
  end.
Proof.
  intros w' s s'. subst s s' w'.
  destruct (inbound_request_run peer connection request_id frame channel w)
    as [(n & E1 & E2)|(node & group & protocol & payload & E1 & E2)]; rewrite E1, E2; [done|]. cbv zeta.
  change (Limits.mk_request group peer _ (as_u16 protocol)) with (request_of peer connection group protocol (w_state w)).
  destruct (Limits.check _ _ _ _) as [[[]|reason] l]; [done|].
  unfold request_refused. destruct (Limits.may_report (instant_at (S (w_tick w))) l) as [[] l'];
    split_and!; try reflexivity. cbn. by rewrite app_nil_r.
Qed.

Lemma kind_of_limited group node protocol reason : kind_of (limited group node protocol reason) = LP2P_EV_LIMITED.
Proof. apply kind_of_data. Qed.

Lemma inbound_request_emits_only_admitted peer connection request_id frame channel w l r :
  w_emitted (inbound_request peer connection request_id frame channel w).2 = w_emitted w ++ l → r ∈ l →
  kind_of r = LP2P_EV_RPC_REQUEST →
  ∃ node group protocol payload,
    check_request peer (clock_ms (w_tick w)) (rpc_protocols (w_state w)) frame = Some (node, group, protocol, payload) ∧
    (Limits.check (request_of peer connection group protocol (w_state w)) (blen frame)
      (instant_at (S (w_tick w))) (limits (w_state w))).1 = Ok () ∧
    r = rpc_request (next_id (w_shared w)) group node (as_u16 protocol) payload ∧
    inbound (w_state (inbound_request peer connection request_id frame channel w).2) !! next_id (w_shared w) = Some channel.
Proof.
  intros E Hr Hk. destruct (inbound_request_run peer connection request_id frame channel w)
    as [(n & E1 & E2)|(node & group & protocol & payload & E1 & E2)]; rewrite E2 in E |- *; cbv zeta in *.
  { destruct (emits_not [] w _ l r _ (emits_same _ _ _ eq_refl eq_refl) E Hr Hk eq_refl). }
  exists node, group, protocol, payload. split; [done|].
  destruct (Limits.check _ _ _ _) as [[[]|reason] lim].
  - cbn [request_admitted emit w_emitted w_state w_shared upd fst snd] in E |- *. apply app_inv_head in E as <-.
    apply list_elem_of_singleton in Hr as ->. split; [done|]. split; [done|]. cbn. by rewrite lookup_insert_eq.
  - exfalso. unfold request_refused in E.
    destruct (Limits.may_report (instant_at (S (w_tick w))) lim) as [[] l']; cbn [fst snd] in E.
    + apply app_inv_head in E as <-. apply list_elem_of_singleton in Hr as ->.
      by rewrite kind_of_limited in Hk.
    + destruct (emits_not [] w _ l r _ (emits_same _ _ _ eq_refl eq_refl) E Hr Hk eq_refl).
Qed.

(** C5: the caller is handed a request only from a node that its group vouches
    for, and only what every limit admits. When any step of the node hands over
    an RPC_REQUEST record, then it is the arrival of a frame that is exactly the
    encoding of the payload for a protocol this node serves, under a delegation
    the group signed for the peer that sent it and that has not expired, the
    limits admit it, and the caller can answer it under the record's id. *)
Theorem requests_authentic input w l r :
  w_emitted (step input w).2 = w_emitted w ++ l → r ∈ l → kind_of r = LP2P_EV_RPC_REQUEST →
  ∃ peer connection request_id frame channel d name index payload,
    input = InSwarm (RpcBehaviour (RequestReceived peer connection request_id frame channel)) ∧
    key_of peer = Some (Delegation.node d) ∧
    endorses d (Delegation.group d) (Delegation.node d) (clock_ms (w_tick w)) ∧
    frame = Wire.encode_request (Delegation.to_bytes d) name payload ∧
    rpc_protocols (w_state w) !! index = Some name ∧
    (Limits.check (Limits.mk_request (Delegation.group d) peer (request_ip (w_state w) connection) (as_u16 (Z.of_nat index)))
      (blen frame) (instant_at (S (w_tick w))) (limits (w_state w))).1 = Ok () ∧
    r = rpc_request (next_id (w_shared w)) (Delegation.group d) (Delegation.node d) (as_u16 (Z.of_nat index)) payload ∧
    inbound (w_state (step input w).2) !! next_id (w_shared w) = Some channel.
Proof.
  intros E Hr Hk. destruct (step_emits_not _ _ _ _ _ E Hr Hk eq_refl) as [e ->]. rewrite step_swarm in E |- *.
  pose proof (swarm_event_emits e w) as Hm.
  destruct e as [| | | | | | | |[peer connection request_id frame channel| | | |]|[]| | |];
    try (by destruct (emits_not _ _ _ _ _ _ Hm E Hr Hk eq_refl)). clear Hm.
  cbn [swarm_event rpc_event] in E |- *.
  destruct (inbound_request_emits_only_admitted _ _ _ _ _ _ _ _ E Hr Hk)
    as (node & group & protocol & payload & Hcheck & Hlim & -> & Hch).
  apply check_request_Some in Hcheck as (Hn & d & name & index & He & -> & Hi & _ & ->).
  pose proof He as (_ & Hg & Hnode & _).
  exists peer, connection, request_id, (Wire.encode_request (Delegation.to_bytes d) name payload), channel, d, name, index, payload.
  rewrite Hnode, Hg. destruct (position_Some _ _ _ Hi) as (x & Hx & Hp & _). apply bool_decide_eq_true in Hp as ->. done.
Qed.

(** ** Messages *)

Lemma check_message_clock m ms :
  is_Some (check_message m ms) → reads_clock m = true.
Proof.
  unfold check_message, reads_clock. intros [x Hx]. apply bool_decide_eq_true.
  apply bind_Some in Hx as (src & -> & Hx). cbn [mbind option_bind].
  apply bind_Some in Hx as (n & -> & Hx). cbn [mbind option_bind].
  apply bind_Some in Hx as (f & -> & Hx). cbn [mbind option_bind].
  by apply bind_Some in Hx as (d & -> & _).
Qed.

(** The closure [checked] with the clock it reads: what it answers does not
    depend on whether it came as far as the clock. *)
Lemma checked_clock m n :
  check_message m (if reads_clock m then clock_ms n else 0) = check_message m (clock_ms n).
Proof.
  destruct (reads_clock m) eqn:E; [done|].
  destruct (check_message m 0) eqn:E0; [|destruct (check_message m (clock_ms n)) eqn:E1; [|done]];
    pose proof (check_message_clock m) as Hc.
  - rewrite (Hc 0) in E; [done|by rewrite E0].
  - rewrite (Hc (clock_ms n)) in E; [done|by rewrite E1].
Qed.

(** The worlds of the branches of [topic_message]. *)
Definition message_limited (group node : lp2p_key) (reason t : Z) (l : Limits.Limits) (w : World) : World :=
  let w := w <| w_state ::= fun s => s <| limits := (Limits.may_report t l).2 |> |>
             <| w_shared ::= fun sh => sh <| topic_limited ::= incr64 |> |> in
  if (Limits.may_report t l).1 then (emit (limited group node LP2P_PROTOCOL_TOPICS reason) w).2 else w.

Definition message_accepted (key group node : lp2p_key) (payload : bytes) (m : Message) (l : Limits.Limits) (w : World) : World :=
  (emit (topic_event key group node payload)
    (w <| w_state ::= fun s => s <| limits := l |> |>
       <| w_shared ::= fun sh => sh <| topic_in ::= incr64 |>
                                    <| topic_bytes_in ::= fun n => wrap 64 (n + blen (m_data m)) |> |>)).2.

(** The clocks were read [n] times. *)
Definition clock_at (n : nat) (w : World) : World := w <| w_tick := n |>.

Lemma topic_message_run src m w key :
  topic_keys (w_state w) !! m_topic m = Some key →
  ∃ n, topic_message src m w =
  match check_message m (clock_ms (S (w_tick w))) with
  | None => (Reject, clock_at n w)
  | Some (_, node, group, payload) =>
      if topic_max_message_bytes (w_state w) <? blen payload then (Reject, clock_at n w)
      else
        let t := instant_at (w_tick w) in
        match Limits.check (Limits.mk_request group src (peer_ips (w_state w) !! src) LP2P_PROTOCOL_TOPICS)
                           (blen (m_data m)) t (limits (w_state w)) with
        | (Err reason, l) => (Ignore, message_limited group node reason t l (clock_at n w))
        | (Ok _, l) => (Accept, message_accepted key group node payload m l (clock_at n w))
        end
  end.
Proof.
  intros Hk. unfold topic_message. rewrite run_bind, run_gets. cbn [fst snd]. rewrite Hk.
  rewrite run_bind. cbn [now fst snd]. rewrite run_bind.
  set (w1 := w <| w_tick ::= S |>).
  assert (∃ n, (if reads_clock m then now_ms else ret 0) w1 = (if reads_clock m then clock_ms (S (w_tick w)) else 0, clock_at n w))
    as (n & ->) by (destruct (reads_clock m); by eexists).
  exists n. cbn [fst snd]. rewrite checked_clock.
  destruct (check_message m _) as [[[[src' node] group] payload]|]; [|done].
  destruct (topic_max_message_bytes (w_state w) <? blen payload); [done|]. cbv zeta.
  rewrite run_bind. unfold check_limits at 1 2.
  change (limits (w_state (clock_at n w))) with (limits (w_state w)).
  destruct (Limits.check _ _ _ _) as [[[]|reason] l]; cbn [fst snd]; [done|].
  rewrite run_bind. cbn [modify_shared fst snd]. rewrite run_bind. unfold may_report at 1 2.
  cbn [w_state upd limits fst snd]. unfold message_limited.
  destruct (Limits.may_report (instant_at (w_tick w)) l) as [[] l'] eqn:Er; reflexivity.
Qed.

(** The worlds of the branches of an announcement. *)
Definition announcement_allowed (group node : lp2p_key) (payload : bytes) (r : Limits.SourceRate) (w : World) : World :=
  (emit (data (with_node node (with_group group (new_event LP2P_EV_ANNOUNCEMENT))) payload)
    (w <| w_state ::= fun s => s <| announce_rate := r |> |>)).2.

Lemma announcement_message_run m w :
  ∃ n, announcement_message m w =
  match check_message m (clock_ms (S (w_tick w))) with
  | None => (Reject, clock_at n w)
  | Some (source, node, group, payload) =>
      if Limits.class_of (limits (w_state w)) group =? LP2P_CLASS_BLOCKED then (Reject, clock_at n w)
      else
        match Limits.allow source (instant_at (w_tick w)) (announce_rate (w_state w)) with
        | (true, r) => (Accept, announcement_allowed group node payload r (clock_at n w))
        | (false, r) => (Ignore, (clock_at n w) <| w_state ::= fun s => s <| announce_rate := r |> |>)
        end
  end.
Proof.
  unfold announcement_message. rewrite run_bind. cbn [now fst snd]. rewrite run_bind.
  set (w1 := w <| w_tick ::= S |>).
  assert (∃ n, (if reads_clock m then now_ms else ret 0) w1 = (if reads_clock m then clock_ms (S (w_tick w)) else 0, clock_at n w))
    as (n & ->) by (destruct (reads_clock m); by eexists).
  exists n. cbn [fst snd]. rewrite run_bind, run_gets. cbn [fst snd]. rewrite checked_clock.
  destruct (check_message m _) as [[[[src' node] group] payload]|]; [|done].
  change (limits (w_state (clock_at n w))) with (limits (w_state w)).
  destruct (_ =? LP2P_CLASS_BLOCKED); [done|]. rewrite run_bind. unfold allow_announcement at 1 2.
  change (announce_rate (w_state (clock_at n w))) with (announce_rate (w_state w)).
  destruct (Limits.allow _ _ _) as [[] r]; done.
Qed.

(** The contract of a gossipsub message: what gossipsub is told about it and
    what the caller gets to see. *)
Definition announcement (group node : lp2p_key) (payload : bytes) : EventRecord :=
  data (with_node node (with_group group (new_event LP2P_EV_ANNOUNCEMENT))) payload.

Definition verdict (src : PeerId) (m : Message) (w : World) : MessageAcceptance * list EventRecord :=
  let s := w_state w in let t := instant_at (w_tick w) in
  match check_message m (clock_ms (S (w_tick w))) with
  | None => (Reject, [])
  | Some (publisher, node, group, payload) =>
      match topic_keys s !! m_topic m with
      | Some key =>
          if topic_max_message_bytes s <? blen payload then (Reject, [])
          else
            match Limits.check (Limits.mk_request group src (peer_ips s !! src) LP2P_PROTOCOL_TOPICS)
                               (blen (m_data m)) t (limits s) with
            | (Ok _, _) => (Accept, [topic_event key group node payload])
            | (Err reason, l) =>
                (Ignore, if (Limits.may_report t l).1 then [limited group node LP2P_PROTOCOL_TOPICS reason] else [])
            end
      | None =>
          if Limits.class_of (limits s) group =? LP2P_CLASS_BLOCKED then (Reject, [])
          else if (Limits.allow publisher t (announce_rate s)).1 then (Accept, [announcement group node payload])
          else (Ignore, [])
      end
  end.

Lemma verdict_run src id m w :
  let w' := (gossipsub_event (MessageReceived src id m) w).2 in
  w_swarm w' = (act (ReportValidation id src (verdict src m w).1) (w_swarm w)).2 ∧
  w_emitted w' = w_emitted w ++ (verdict src m w).2 ∧
  calls (w_state w') = calls (w_state w) ∧ topics (w_state w') = topics (w_state w) ∧
  topic_keys (w_state w') = topic_keys (w_state w).
Proof.
  cbv zeta. unfold gossipsub_event. rewrite run_bind, run_gets. cbn [fst snd]. rewrite run_bind, run_swarm. cbn [snd].
  assert (∀ (x : MessageAcceptance * World) (v : MessageAcceptance * list EventRecord),
    x.1 = v.1 → w_swarm x.2 = w_swarm w → w_emitted x.2 = w_emitted w ++ v.2 →
    calls (w_state x.2) = calls (w_state w) → topics (w_state x.2) = topics (w_state w) →
    topic_keys (w_state x.2) = topic_keys (w_state w) →
    let w' := x.2 <| w_swarm := (act (ReportValidation id src x.1) (w_swarm x.2)).2 |> in
    w_swarm w' = (act (ReportValidation id src v.1) (w_swarm w)).2 ∧ w_emitted w' = w_emitted w ++ v.2 ∧
    calls (w_state w') = calls (w_state w) ∧ topics (w_state w') = topics (w_state w) ∧
    topic_keys (w_state w') = topic_keys (w_state w)) as Hcase.
  { intros x v <- Hs He Hc Ht Hk. cbv zeta. cbn [w_swarm w_emitted w_state upd]. rewrite Hs. done. }
  unfold verdict. destruct (topic_keys (w_state w) !! m_topic m) as [key|] eqn:Ek.
  - rewrite bool_decide_true by (by eexists). destruct (topic_message_run src m w key Ek) as (n & ->). apply Hcase;
      (destruct (check_message m _) as [[[[publisher node] group] payload]|]; [|try reflexivity; by rewrite app_nil_r]);
      (destruct (topic_max_message_bytes (w_state w) <? blen payload); [try reflexivity; by rewrite app_nil_r|]); cbv zeta;
      (destruct (Limits.check _ _ _ _) as [[[]|reason] l]; [reflexivity|]); unfold message_limited;
      (destruct (Limits.may_report (instant_at (w_tick w)) l) as [[] l']; [reflexivity|]);
      cbn; rewrite ?app_nil_r; reflexivity.
  - rewrite bool_decide_false by (by intros [? ?]). destruct (announcement_message_run m w) as (n & ->). apply Hcase;
      (destruct (check_message m _) as [[[[publisher node] group] payload]|]; [|try reflexivity; by rewrite app_nil_r]);
      (destruct (_ =? LP2P_CLASS_BLOCKED); [try reflexivity; by rewrite app_nil_r|]);
      (destruct (Limits.allow _ _ _) as [[] r]; cbn; rewrite ?app_nil_r; reflexivity).
Qed.

(** C12: what gossipsub is told about a message and what the caller sees of it
    implement their contract. A message on a followed topic is rejected when its
    frame is not good for its publisher or its payload is longer than allowed,
    ignored -- and reported within the limits' window -- when a limit of the
    peer that passed it on refuses it, and otherwise accepted and handed over. A
    message on the announce topic is rejected when its frame is not good or its
    group is blocked, ignored above its publisher's rate, and otherwise accepted
    and handed over. Exactly the accepted messages are handed over. *)
Theorem gossip_refines_verdict src id m w :
  let w' := (gossipsub_event (MessageReceived src id m) w).2 in
  w_swarm w' = (act (ReportValidation id src (verdict src m w).1) (w_swarm w)).2 ∧
  w_emitted w' = w_emitted w ++ (verdict src m w).2 ∧
  ((verdict src m w).1 = Accept ↔
     ∃ r, (verdict src m w).2 = [r] ∧ (kind_of r = LP2P_EV_TOPIC_MESSAGE ∨ kind_of r = LP2P_EV_ANNOUNCEMENT)).
Proof.
  cbv zeta. destruct (verdict_run src id m w) as (H1 & H2 & _). split_and!; [exact H1|exact H2|].
  unfold verdict. destruct (check_message m _) as [[[[publisher node] group] payload]|]; [|by split; [|intros (r & ? & _)]].
  destruct (topic_keys _ !! _) as [key|].
  - destruct (_ <? _); [by split; [|intros (r & ? & _)]|]. destruct (Limits.check _ _ _ _) as [[[]|reason] l].
    + split; [intros _|done]. eexists. split; [reflexivity|]. left. apply kind_of_data.
    + cbn. split; [done|]. intros (r & E & Hk). destruct (Limits.may_report _ _).1; [|done]. injection E as <-.
      rewrite kind_of_limited in Hk. by destruct Hk.
  - destruct (_ =? _); [by split; [|intros (r & ? & _)]|]. destruct (Limits.allow _ _ _).1; [|by split; [|intros (r & ? & _)]].
    split; [intros _|done]. eexists. split; [reflexivity|]. right. apply kind_of_data.
Qed.

(** C6: the caller sees a topic message or an announcement only from a node its
    group vouches for. When any step of the node hands over such a record, then
    it is the arrival of a message whose data is exactly the encoding of the
    payload under an unexpired delegation that the group signed for the
    message's publisher. A topic message is on a topic the node follows, carries
    that topic's key and is at most as long as configured; an announcement is not
    on a followed topic and its group is not blocked. *)
Theorem messages_authentic input w l r :
  w_emitted (step input w).2 = w_emitted w ++ l → r ∈ l →
  kind_of r = LP2P_EV_TOPIC_MESSAGE ∨ kind_of r = LP2P_EV_ANNOUNCEMENT →
  ∃ src id m publisher d payload,
    input = InSwarm (GossipsubBehaviour (MessageReceived src id m)) ∧
    m_source m = Some publisher ∧ key_of publisher = Some (Delegation.node d) ∧
    endorses d (Delegation.group d) (Delegation.node d) (clock_ms (S (w_tick w))) ∧
    m_data m = Wire.encode_announcement (Delegation.to_bytes d) payload ∧
    ((∃ key, topic_keys (w_state w) !! m_topic m = Some key ∧ blen payload ≤ topic_max_message_bytes (w_state w) ∧
             r = topic_event key (Delegation.group d) (Delegation.node d) payload) ∨
     (topic_keys (w_state w) !! m_topic m = None ∧
      Limits.class_of (limits (w_state w)) (Delegation.group d) ≠ LP2P_CLASS_BLOCKED ∧
      r = announcement (Delegation.group d) (Delegation.node d) payload)).
Proof.
  intros E Hr Hk.
  assert (∃ e, input = InSwarm e) as [e ->] by (by destruct Hk as [Hk|Hk]; apply (step_emits_not _ _ _ _ _ E Hr Hk eq_refl)).
  rewrite step_swarm in E. pose proof (swarm_event_emits e w) as Hm.
  destruct e as [| | | | | | | |[]|[|src id m|]| | |];
    try (by destruct Hk as [Hk|Hk]; destruct (emits_not _ _ _ _ _ _ Hm E Hr Hk eq_refl)).
  cbn [swarm_event] in E. destruct (verdict_run src id m w) as (_ & H2 & _). rewrite H2 in E.
  apply app_inv_head in E as <-. unfold verdict in Hr.
  destruct (check_message m _) as [[[[publisher node] group] payload]|] eqn:Hcheck; [|by apply elem_of_nil in Hr].
  apply check_message_Some in Hcheck as (Hsrc & Hn & d & He & Hdata). pose proof He as (_ & Hg & Hnode & _).
  exists src, id, m, publisher, d, payload. rewrite Hg, Hnode. do 5 (split; [done|]).
  destruct (topic_keys _ !! _) as [key|] eqn:Ek.
  - left. exists key. destruct (Z.ltb_spec (topic_max_message_bytes (w_state w)) (blen payload)); [by apply elem_of_nil in Hr|].
    destruct (Limits.check _ _ _ _) as [[[]|reason] lim]; cbn [snd] in Hr.
    + apply list_elem_of_singleton in Hr as ->. done.
    + exfalso. destruct (Limits.may_report _ _).1; [|by apply elem_of_nil in Hr]. apply list_elem_of_singleton in Hr as ->.
      rewrite kind_of_limited in Hk. by destruct Hk.
  - right. destruct (Z.eqb_spec (Limits.class_of (limits (w_state w)) group) LP2P_CLASS_BLOCKED); [by apply elem_of_nil in Hr|].
    destruct (Limits.allow _ _ _).1; [|by apply elem_of_nil in Hr]. apply list_elem_of_singleton in Hr as ->. done.
Qed.

End authentic.

(** ** Witnesses *)

(** A request of node 0x33 for protocol 0, on a connection the node does not
    know the address of. *)
Definition toy_request_frame : bytes :=
  Wire.encode_request (Delegation.to_bytes (toy_delegation_for x33)) [x2f; x70] [x05].

Definition toy_ask_us : Input :=
  InSwarm (RpcBehaviour (RequestReceived (toy_peer x33) toy_request toy_request toy_request_frame toy_request)).

Definition toy_message : Message :=
  mk_message (Some (toy_peer x33)) (Wire.encode_announcement (Delegation.to_bytes (toy_delegation_for x33)) [x06]) [x2f; x61].

Definition toy_announced : Input :=
  InSwarm (GossipsubBehaviour (MessageReceived (toy_peer x44) toy_request toy_message)).

(** The records a step of the toy node hands over. *)
Definition toy_records (input : Input) (w : World) : list EventRecord :=
  drop (length (w_emitted w)) (w_emitted (step input w).2).

Lemma responses_authentic_witness :
  ∃ r, toy_records toy_answer toy_asked = [r] ∧ kind_of r = LP2P_EV_RPC_RESPONSE ∧
  ∃ request id call d payload, outbound (w_state toy_asked) !! request = Some id ∧
    calls (w_state toy_asked) !! id = Some call ∧ Delegation.group d = call_group call ∧
    r = rpc_response id call (Delegation.node d) payload.
Proof.
  set (r := default [] (head (toy_records toy_answer toy_asked))).
  assert (toy_records toy_answer toy_asked = [r]) as El by evaluate.
  assert (kind_of r = LP2P_EV_RPC_RESPONSE) as Hk by evaluate.
  assert (w_emitted (step toy_answer toy_asked).2 = w_emitted toy_asked ++ toy_records toy_answer toy_asked) as E by evaluate.
  exists r. split; [exact El|]. split; [exact Hk|].
  destruct (responses_authentic toy_answer toy_asked _ r E ltac:(rewrite El; apply list_elem_of_here) Hk)
    as (peer & request & frame & id & call & d & payload & _ & Ho & Hc & _ & He & _ & Hr & _).
  exists request, id, call, d, payload. split; [exact Ho|]. split; [exact Hc|]. split; [apply He|exact Hr].
Defined.

Lemma requests_authentic_witness :
  ∃ r, toy_records toy_ask_us toy_start = [r] ∧ kind_of r = LP2P_EV_RPC_REQUEST ∧
  ∃ name index, rpc_protocols (w_state toy_start) !! index = Some name ∧
    is_Some (inbound (w_state (step toy_ask_us toy_start).2) !! 1).
Proof.
  set (r := default [] (head (toy_records toy_ask_us toy_start))).
  assert (toy_records toy_ask_us toy_start = [r]) as El by evaluate.
  assert (kind_of r = LP2P_EV_RPC_REQUEST) as Hk by evaluate.
  assert (w_emitted (step toy_ask_us toy_start).2 = w_emitted toy_start ++ toy_records toy_ask_us toy_start) as E by evaluate.
  exists r. split; [exact El|]. split; [exact Hk|].
  destruct (requests_authentic toy_ask_us toy_start _ r E ltac:(rewrite El; apply list_elem_of_here) Hk)
    as (peer & connection & request_id & frame & channel & d & name & index & payload & _ & _ & _ & _ & Hi & _ & _ & Hch).
  exists name, index. split; [exact Hi|]. by exists channel.
Defined.

Lemma messages_authentic_witness :
  ∃ r, toy_records toy_announced toy_start = [r] ∧
  ∃ publisher d, m_source toy_message = Some publisher ∧ key_of publisher = Some (Delegation.node d).
Proof.
  set (r := default [] (head (toy_records toy_announced toy_start))).
  assert (toy_records toy_announced toy_start = [r]) as El by evaluate.
  assert (kind_of r = LP2P_EV_ANNOUNCEMENT) as Hk by evaluate.
  assert (w_emitted (step toy_announced toy_start).2 = w_emitted toy_start ++ toy_records toy_announced toy_start) as E by evaluate.
  exists r. split; [exact El|].
  destruct (messages_authentic toy_announced toy_start _ r E ltac:(rewrite El; apply list_elem_of_here) (or_intror Hk))
    as (src & id & m & publisher & d & payload & Hin & Hsrc & Hn & _).
  exists publisher, d. injection Hin as _ _ Hm. rewrite Hm. split; [exact Hsrc|exact Hn].
Defined.
