(* ===== verification/CallsSpec.v ===== *)
(** * CallsSpec: how a call fails over

    What [advance], [enqueue], [response] and the expiry of [tick] do, on every
    branch. *)

From S2P Require Import Prelude Abi Keys Toy Multiaddr AddressBook Libp2p Events NodeState.
From S2P Require Import Calls Inbound Relay Topics Node ToyNode CallsInv NodeInv Emissions Authentic.
From S2P Require Wire Delegation Limits EventQueue.

Section calls.
Context {I : Identity} {MA : Multiaddrs I} {H : Handles} {L : Libp2p I MA H} {LL : Libp2pLaws L}.

(** ** [advance] *)

Definition dialable (w : World) (p : PeerId) : bool := is_connected (w_swarm w) p || knows (w_book w) p.

(** A candidate the loop passes over: it cannot be dialed, and its addresses
    were already looked up for this call. *)
Definition passed_over (w : World) (call : Call) (p : PeerId) : Prop :=
  dialable w p = false ∧ p ∈ resolved call.

Definition after_send (id : Z) (call : Call) (p : PeerId) (rest : list PeerId) (w : World) : World :=
  let '(r, sw) := act (SendRequest p (call_frame call)) (w_swarm w) in
  w <| w_swarm := sw |>
    <| w_state ::= fun s => s <| outbound ::= insert r id |>
         <| calls ::= insert id (call <| candidates := rest |> <| in_flight := true |>) |> |>
    <| w_shared ::= fun sh => sh <| rpc_out ::= incr64 |> |>.

Definition after_resolve (id : Z) (call : Call) (p : PeerId) (rest : list PeerId) (w : World) : World :=
  let '(q, sw) := act (GetClosestPeers p) (w_swarm w) in
  w <| w_swarm := sw |>
    <| w_state ::= fun s => s <| resolutions ::= insert q id |>
         <| calls ::= insert id (call <| resolved ::= union {[p]} |>
              <| candidates := p :: rest |> <| resolving := true |>) |> |>.

Definition after_give_up (id : Z) (call : Call) (w : World) : World :=
  let call := call <| candidates := [] |> in
  if lookup_running call then w <| w_state ::= fun s => s <| calls ::= insert id call |> |>
  else (emit (rpc_failed id call (last_failure call))
         (w <| w_state ::= fun s => s <| calls ::= insert id call |> |>
            <| w_state ::= fun s => s <| calls ::= delete id |> |>)).2.

Lemma try_candidates_spec id call l w :
  ∃ skipped rest, l = skipped ++ rest ∧ Forall (passed_over w call) skipped ∧
  match rest with
  | [] => try_candidates id call l w = (false, w <| w_state ::= fun s => s <| calls ::= insert id (call <| candidates := [] |>) |> |>)
  | p :: rest =>
      if dialable w p then try_candidates id call l w = (true, after_send id call p rest w)
      else p ∉ resolved call ∧ try_candidates id call l w = (true, after_resolve id call p rest w)
  end.
Proof.
  induction l as [|p l (skipped & rest & -> & Hs & IH)]; [by exists [], []|].
  cbn [try_candidates]. destruct (dialable w p) eqn:Hd.
  - exists [], (p :: skipped ++ rest). split; [done|]. split; [constructor|]. rewrite Hd.
    rewrite run_bind. cbn [read fst snd]. fold (dialable w p). rewrite Hd. cbn [negb].
    unfold after_send. rewrite run_bind, run_swarm. cbn [fst snd]. destruct (act _ _) as [r sw]. done.
  - destruct (decide (p ∈ resolved call)) as [Hr|Hr].
    + exists (p :: skipped), rest. split; [done|]. split; [by constructor|].
      rewrite run_bind. cbn [read fst snd]. fold (dialable w p). rewrite Hd. cbn [negb]. by rewrite bool_decide_true.
    + exists [], (p :: skipped ++ rest). split; [done|]. split; [constructor|]. rewrite Hd. split; [done|].
      rewrite run_bind. cbn [read fst snd]. fold (dialable w p). rewrite Hd. cbn [negb]. rewrite bool_decide_false by done.
      unfold after_resolve. rewrite run_bind, run_swarm. cbn [fst snd]. destruct (act _ _) as [r sw]. done.
Qed.

(** C15: [advance] moves a call that waits for nothing to its next candidate.
    Candidates that cannot be dialed and were already looked up are dropped from
    the front of the queue; the first one left is sent the call's frame when it
    is connected or has a known address, and its addresses are looked up when it
    is not. With none left the call waits for the lookup of its group's
    providers while that runs, and otherwise it is over and its last failure is
    reported. A call that has a request or a resolution is left alone. *)
Theorem advance_spec id call w :
  calls (w_state w) !! id = Some call →
  if in_flight call || resolving call then (advance id w).2 = w
  else
    ∃ skipped rest, candidates call = skipped ++ rest ∧ Forall (passed_over w call) skipped ∧
    match rest with
    | [] => (advance id w).2 = after_give_up id call w
    | p :: rest =>
        if dialable w p then (advance id w).2 = after_send id call p rest w
        else p ∉ resolved call ∧ (advance id w).2 = after_resolve id call p rest w
    end.
Proof.
  intros Hc. unfold advance. rewrite run_bind, run_gets. cbn [fst snd]. rewrite Hc.
  destruct (in_flight call || resolving call); [done|].
  destruct (try_candidates_spec id call (candidates call) w) as (skipped & rest & E & Hs & Ht).
  exists skipped, rest. split; [done|]. split; [done|]. destruct rest as [|p rest].
  - rewrite run_bind, Ht. cbn [fst snd]. unfold after_give_up. cbn [lookup_running upd].
    destruct (lookup_running call) eqn:El; [done|].
    unfold remove_call. rewrite !run_bind, run_gets. cbn [fst snd]. cbn [w_state upd calls]. rewrite lookup_insert_eq. done.
  - destruct (dialable w p); [|destruct Ht as [Hr Ht]; split; [done|]]; by rewrite run_bind, Ht.
Qed.

(** ** The queue of candidates *)

(** The penalised peers of a queue come last. *)
Definition penalized_last (f : gmap PeerId Z) (t : Z) (good bad : list PeerId) : Prop :=
  Forall (fun p => penalized f t p = false) good ∧ Forall (fun p => penalized f t p = true) bad.

Lemma position_penalized f t good bad :
  penalized_last f t good bad →
  default (length (good ++ bad)) (position (penalized f t) (good ++ bad)) = length good.
Proof.
  intros [Hg Hb]. induction Hg as [|p good Hp Hg IH].
  - destruct bad as [|b bad]; [done|]. inversion Hb as [|? ? Hb1]; subst. cbn. by rewrite Hb1.
  - cbn. rewrite Hp. destruct (position _ _); cbn in *; congruence.
Qed.

(** In which order a call asks the providers of its group. A queue that has
    its penalised peers last keeps them last, whichever new peer is queued: a
    peer that failed within the last five minutes goes to the very end, the node
    that answered the group's last call goes to the front unless it is
    penalised, and any other peer goes behind the peers that are not penalised
    and before those that are. A peer the call has seen is not queued again. *)
Theorem enqueue_order call peer w good bad :
  candidates call = good ++ bad →
  let t := instant_at (w_tick w) in
  penalized_last (failed (w_state w)) t good bad →
  let '(call', w') := enqueue call peer w in
  w_state w' = w_state w ∧ w_emitted w' = w_emitted w ∧ w_swarm w' = w_swarm w ∧
  if bool_decide (peer ∈ seen call) then call' = call
  else
    let first := bool_decide (last_success (w_state w) !! call_group call = Some peer) in
    let late := penalized (failed (w_state w)) t peer in
    seen call' = {[peer]} ∪ seen call ∧
    candidates call' = (if late then good ++ bad ++ [peer] else if first then peer :: good ++ bad else good ++ peer :: bad) ∧
    penalized_last (failed (w_state w)) t
      (if late then good else if first then peer :: good else good ++ [peer])
      (if late then bad ++ [peer] else bad).
Proof.
  intros E t Hp. unfold enqueue. case_bool_decide as Hs; [done|].
  rewrite run_bind. cbn [now fst snd]. rewrite run_bind, run_gets. cbn [fst snd ret]. split_and!; [done..| | |].
  - unfold enqueue_at. destruct (_ && _); [done|]. by destruct (penalized _ _ _).
  - unfold enqueue_at. cbn [w_state upd call_group]. fold t. destruct (penalized (failed (w_state w)) t peer) eqn:El.
    + rewrite andb_false_r. cbn. by rewrite E, app_assoc.
    + rewrite andb_true_r. case_bool_decide; cbn [candidates upd]; rewrite E; [done|].
      rewrite position_penalized by done. unfold insert_at. by rewrite take_app_length, drop_app_length.
  - destruct Hp as [Hg Hb]. destruct (penalized (failed (w_state w)) t peer) eqn:El; split; try done.
    + apply Forall_app; split; [done|]. by repeat constructor.
    + case_bool_decide; [by constructor|]. apply Forall_app; split; [done|]. by repeat constructor.
Qed.

(** ** Expiry *)

Definition timeout_of (e : Z * Call) : EventRecord := rpc_failed e.1 e.2 LP2P_FAIL_TIMEOUT.

Lemma expire_spec t w :
  ∃ l, calls (w_state (expire t w).2) = filter (fun e : Z * Call => t < deadline e.2) (calls (w_state w)) ∧
  w_emitted (expire t w).2 = w_emitted w ++ (timeout_of <$> l) ∧
  l ≡ₚ map_to_list (filter (fun e : Z * Call => deadline e.2 ≤ t) (calls (w_state w))).
Proof.
  unfold expire. rewrite run_bind, run_gets. cbn [fst snd]. rewrite run_bind. cbn [iterate fst snd].
  set (m := calls (w_state w)). set (entries := hash_order (w_tick w) (map_to_list m)).
  set (due := List.filter (fun e : Z * Call => deadline e.2 <=? t) entries).
  assert (entries ≡ₚ map_to_list m) as Hperm by apply hash_order_perm.
  assert (∀ i c, (i, c) ∈ due ↔ m !! i = Some c ∧ deadline c ≤ t) as Hdue.
  { intros i c. unfold due. rewrite list_elem_of_In, filter_In, <- list_elem_of_In. rewrite Hperm, elem_of_map_to_list.
    cbn. by rewrite Z.leb_le. }
  assert (NoDup (due.*1)) as Hnd.
  { assert (NoDup (entries.*1)) as Hn by (rewrite Hperm; apply NoDup_fst_map_to_list).
    subst due. clear -Hn. induction entries as [|e l IH]; [constructor|]. cbn in *.
    apply NoDup_cons in Hn as [Hn1 Hn2]. destruct (_ <=? _); [|by apply IH]. cbn. constructor; [|by apply IH].
    intros Hin. apply Hn1. apply list_elem_of_fmap in Hin as (x & -> & Hx). apply list_elem_of_fmap.
    exists x. split; [done|]. apply list_elem_of_In in Hx. apply filter_In in Hx as [Hx _]. by apply list_elem_of_In. }
  set (w1 := w <| w_tick ::= S |>). change (calls (w_state w)) with (calls (w_state w1)) in m.
  destruct (expire_loop (due.*1) w1 Hnd) as [H1 H2].
  { intros i Hi. apply list_elem_of_fmap in Hi as ([i' c] & -> & Hi). apply Hdue in Hi as [Hi _]. by eexists. }
  exists due. split_and!.
  - apply map_eq. intros i. etransitivity; [apply H1|]. fold m. case_decide as Hi.
    + apply list_elem_of_fmap in Hi as ([i' c] & -> & Hi). apply Hdue in Hi as [Hi Ht]. symmetry. cbn.
      apply map_lookup_filter_None. right. intros c' Hc'. cbn. replace c' with c by congruence. lia.
    + destruct (m !! i) as [c|] eqn:Ei; symmetry; [|apply map_lookup_filter_None; by left].
      apply map_lookup_filter_Some. split; [done|]. cbn. apply Znot_ge_lt. intros Hge. apply Hi.
      apply list_elem_of_fmap. exists (i, c). split; [done|]. apply Hdue. split; [done|lia].
  - etransitivity; [apply H2|]. f_equal. fold m. clear -Hdue.
    assert (∀ e, e ∈ due → m !! e.1 = Some e.2) as Hin by (intros [i c] [? _]%Hdue; done). clear Hdue.
    induction due as [|[i c] l IH]; [done|]. cbn [fmap list_fmap omap list_omap fst].
    pose proof (Hin (i, c) (list_elem_of_here _ _)) as Hi. cbn [fst snd] in Hi. rewrite Hi. cbn. f_equal. apply IH. intros e He. by apply Hin, list_elem_of_further.
  - apply NoDup_Permutation; [by eapply NoDup_fmap_1|apply NoDup_map_to_list|]. intros [i c].
    rewrite Hdue, elem_of_map_to_list, map_lookup_filter_Some. done.
Qed.

Lemma emits_none w w' : emits [] w w' → w_emitted w' = w_emitted w.
Proof. intros (l & -> & F & _). destruct F as [|r l [Hr _] _]; [by rewrite app_nil_r|done]. Qed.

(** What follows the expiry in [tick]. *)
Definition tick_rest (t : Z) : M () :=
  reserve;;
  announce;;
  followed <- gets topics;
  entries <- iterate followed;
  keys <- get_swarm (fun sw => lonely t sw entries);
  for_each keys topic_lookup;;
  swept <- gets last_sweep;
  when (seconds 10 <=? duration_since t swept)
    (modify (fun s => s <| limits ::= Limits.sweep t |>);;
     modify (fun s => s <| last_sweep := t |>));;
  s <- gets (fun s => s);
  when (provide_due s && none_or_since (last_provide s) t PROVIDE_DEBOUNCE) provide;;
  routing <- get_swarm (fun sw => blen (concat (kbuckets sw)));
  modify_shared (fun sh => sh <| routing_table_peers := as_u32 routing |>);;
  peers <- get_swarm num_peers;
  modify_shared (fun sh => sh <| sh_connections := as_u32 peers |>).

Lemma tick_run w :
  (tick w).2 = (tick_rest (instant_at (w_tick w)) (expire (instant_at (w_tick w)) (w <| w_tick ::= S |>)).2).2.
Proof. unfold tick. rewrite run_bind. cbn [now fst snd]. by rewrite run_bind. Qed.

(** What a tick leaves of the calls and what it hands over. *)
Lemma tick_spec w :
  let t := instant_at (w_tick w) in
  let w' := (tick w).2 in
  calls (w_state w') = filter (fun e : Z * Call => t < deadline e.2) (calls (w_state w)) ∧
  ∃ l, w_emitted w' = w_emitted w ++ (timeout_of <$> l) ∧
       l ≡ₚ map_to_list (filter (fun e : Z * Call => deadline e.2 ≤ t) (calls (w_state w))).
Proof.
  cbv zeta. rewrite tick_run. set (t := instant_at (w_tick w)). set (w1 := w <| w_tick ::= S |>).
  destruct (expire_spec t w1) as (l & H1 & H2 & H3).
  assert (quiet (expire t w1).2 (tick_rest t (expire t w1).2).2) as Hq.
  { generalize (expire t w1).2. change (respects quiet (tick_rest t)). unfold tick_rest.
    repeat (respects_step || apply quiet_reserve || apply quiet_announce || apply quiet_iterate || apply quiet_topic_lookup ||
      apply quiet_provide || apply quiet_modify_shared || (apply quiet_modify; intros ?; cbn; done)). }
  assert (emits [] (expire t w1).2 (tick_rest t (expire t w1).2).2) as He%emits_none.
  { generalize (expire t w1).2. change (respects (emits []) (tick_rest t)). unfold tick_rest.
    repeat (apply emits_provide || apply emits_topic_lookup || emits_step). }
  rewrite (q_calls _ _ Hq), He. split; [exact H1|]. exists l. split; [exact H2|exact H3].
Qed.

(** A tick ends every call that is past its deadline and no other. The calls
    left are exactly those whose deadline is still to come at the tick's reading
    of the clock, unchanged, and for each of the others exactly one RPC_FAILED
    record with the timeout as its reason is handed over, in some order, and no
    other record. *)
Theorem tick_expires w :
  let t := instant_at (w_tick w) in
  let w' := (tick w).2 in
  calls (w_state w') = filter (fun e : Z * Call => t < deadline e.2) (calls (w_state w)) ∧
  ∃ l, w_emitted w' = w_emitted w ++ (timeout_of <$> l) ∧
       l ≡ₚ map_to_list (filter (fun e : Z * Call => deadline e.2 ≤ t) (calls (w_state w))).
Proof.
  apply tick_spec.
Qed.

(** ** Answers and failures *)

(** What [remember_failure] changes: the map of failures and the clock. *)
Lemma remember_failure_spec peer w :
  let w' := (remember_failure peer w).2 in
  ∃ f n, w' = w <| w_state ::= fun s => s <| failed := f |> |> <| w_tick := n |> ∧
  f !! peer = Some (instant_at (pred n)) ∧
  (∀ p t, p ≠ peer → f !! p = Some t → failed (w_state w) !! p = Some t) ∧
  Z.of_nat (size f) ≤ Z.max MAX_REMEMBERED (Z.of_nat (size (failed (w_state w)))) ∧
  (Z.of_nat (size (failed (w_state w))) < MAX_REMEMBERED →
     f = <[peer := instant_at (pred n)]> (failed (w_state w))).
Proof.
  cbv zeta. unfold remember_failure. rewrite run_bind, run_gets. cbn [fst snd]. rewrite run_bind.
  set (m := failed (w_state w)).
  assert (∀ (m0 : gmap PeerId Z) t0, Z.of_nat (size m0) < MAX_REMEMBERED → Z.of_nat (size (<[peer := t0]> m0)) ≤ MAX_REMEMBERED) as Hsize.
  { intros m0 t0 Hm. destruct (m0 !! peer) eqn:Ep; [rewrite map_size_insert_Some by (by eexists)|rewrite map_size_insert_None by done]; lia. }
  assert (∀ (m0 : gmap PeerId Z) n, m0 ⊆ m →
    (∀ p t, p ≠ peer → <[peer := instant_at n]> m0 !! p = Some t → m !! p = Some t)) as Hsub.
  { intros m0 n Hm p t Hne. rewrite lookup_insert_ne by done. intros Hp. by eapply lookup_weaken. }
  destruct (Z.leb_spec MAX_REMEMBERED (Z.of_nat (size m))) as [Hfull|Hroom]; cbn [when].
  - repeat (rewrite ?run_bind, ?run_gets, ?run_modify; cbn [now fst snd]).
    cbn [w_state upd failed]. fold m. set (m1 := filter _ m).
    destruct (Z.leb_spec MAX_REMEMBERED (Z.of_nat (size m1))) as [Hfull1|Hroom1]; cbn [when]; cbn [skip fst snd].
    + exists (<[peer := instant_at (S (w_tick w))]> ∅), (S (S (w_tick w))). split; [reflexivity|].
      split; [apply lookup_insert_eq|]. split; [apply Hsub, map_empty_subseteq|]. split; [|lia].
      rewrite map_size_insert_None, map_size_empty by apply lookup_empty. unfold MAX_REMEMBERED. lia.
    + exists (<[peer := instant_at (S (w_tick w))]> m1), (S (S (w_tick w))). split; [reflexivity|].
      split; [apply lookup_insert_eq|]. split; [apply Hsub; apply map_filter_subseteq|]. split; [|lia].
      specialize (Hsize m1 (instant_at (S (w_tick w))) Hroom1). cbn [pred]. lia.
  - rewrite run_bind. cbn [skip fst snd now]. rewrite run_modify. cbn [fst snd].
    exists (<[peer := instant_at (w_tick w)]> m), (S (w_tick w)). split; [reflexivity|].
    split; [apply lookup_insert_eq|]. split; [by apply Hsub|]. split; [|done].
    specialize (Hsize m (instant_at (w_tick w)) Hroom). cbn [pred]. lia.
Qed.

(** The call goes on after a candidate of its failed for [reason]: it is moved
    to its next candidate from a world that differs from [w] in the request that
    is over, the call's flag and last failure, and the failure of [peer], noted
    at a clock reading. *)
Definition failed_over (peer : PeerId) (request : OutboundRequestId) (id reason : Z) (w w' : World) : Prop :=
  ∃ f n, w' = (advance id (w <| w_state ::= fun s => s
      <| failed := f |> <| outbound ::= delete request |>
      <| calls ::= alter (fun call => call <| in_flight := false |> <| last_failure := reason |>) id |> |>
      <| w_tick := n |>)).2 ∧
    f !! peer = Some (instant_at (pred n)) ∧
    ∀ p t, p ≠ peer → f !! p = Some t → failed (w_state w) !! p = Some t.

(** C16: what an answer does to the call that waits for it, on every branch. A
    frame that passes the checks ends the call: it is removed, its one record
    carries the answer, its peer is no longer remembered as failing, and it is
    the one the group is asked through first from now on. A frame that does not
    is a failure of its peer: the peer is penalised from now on and the call goes
    on to its next candidate, with REFUSED as the reason it fails for when there
    is none. An answer nobody waits for changes nothing. *)
Theorem response_spec peer request frame w :
  let w' := (response peer request frame w).2 in
  match outbound (w_state w) !! request with
  | None => w' = w
  | Some id =>
      match calls (w_state w) !! id with
      | None => w' = w <| w_state ::= fun s => s <| outbound ::= delete request |> |>
      | Some call =>
          match check_response peer (call_group call) (clock_ms (w_tick w)) frame with
          | Some (node, payload) =>
              calls (w_state w') = delete id (calls (w_state w)) ∧
              outbound (w_state w') = delete request (outbound (w_state w)) ∧
              failed (w_state w') = delete peer (failed (w_state w)) ∧
              last_success (w_state w') !! call_group call = Some peer ∧
              w_emitted w' = w_emitted w ++ [rpc_response id call node payload]
          | None => failed_over peer request id LP2P_FAIL_REFUSED w w'
          end
      end
  end.
Proof.
  cbv zeta. destruct (outbound (w_state w) !! request) as [id|] eqn:Ho; [|by apply response_unknown].
  destruct (calls (w_state w) !! id) as [call|] eqn:Hc; [|by apply (response_orphan _ _ _ _ id)].
  rewrite (response_run _ _ _ _ _ _ Ho Hc). destruct (check_response _ _ _ _) as [[node payload]|].
  - destruct (response_accepted_spec id call peer node payload (response_taken request id w)) as (S1 & S2 & _ & _ & _ & S6 & S7 & S8).
    rewrite S1, S2, S6, S7, S8. cbn [response_taken w_state w_emitted upd calls outbound failed].
    rewrite lookup_insert_eq. split_and!; try done. apply map_eq. intros i. destruct (decide (i = id)) as [->|Hi];
      [by rewrite !lookup_delete_eq|by rewrite !lookup_delete_ne, lookup_alter_ne].
  - unfold update_call. rewrite run_bind, run_modify. cbn [fst snd]. rewrite run_bind.
    match goal with |- context [remember_failure peer ?w0] =>
      destruct (remember_failure_spec peer w0) as (f & n & E & Hf & Hold & _) end.
    rewrite E. exists f, n. split; [|by split]. f_equal. f_equal. unfold response_taken.
    destruct w as [s sw bk sh tk em rp]. destruct s. cbn in *. f_equal. f_equal.
    apply map_eq. intros i. destruct (decide (i = id)) as [->|Hi];
      [rewrite !lookup_alter_eq; by destruct (_ !! id)|by rewrite !lookup_alter_ne].
Qed.

(** A request that libp2p could not deliver or that got no answer penalises
    its peer and moves its call on, with the reason that corresponds to the
    error: a timeout, a refusal for a protocol the peer does not serve, and
    otherwise unreachable. When no call waits for it, only the penalty is left. *)
Theorem outbound_failure_spec peer request error w :
  let w' := (outbound_failure peer request error w).2 in
  match outbound (w_state w) !! request with
  | Some id =>
      failed_over peer request id
        (match error with
         | FailureTimeout => LP2P_FAIL_TIMEOUT
         | FailureUnsupportedProtocols => LP2P_FAIL_REFUSED
         | FailureOther => LP2P_FAIL_UNREACHABLE
         end) w w'
  | None => ∃ f n, w' = w <| w_state ::= fun s => s <| failed := f |> |> <| w_tick := n |> ∧
      f !! peer = Some (instant_at (pred n)) ∧
      ∀ p t, p ≠ peer → f !! p = Some t → failed (w_state w) !! p = Some t
  end.
Proof.
  cbv zeta. unfold outbound_failure. rewrite run_bind.
  destruct (remember_failure_spec peer w) as (f & n & E & Hf & Hold & _). rewrite E.
  rewrite run_bind, run_gets. cbn [fst snd]. rewrite run_bind, run_modify. cbn [fst snd].
  cbn [w_state upd outbound]. destruct (outbound (w_state w) !! request) as [id|] eqn:Ho.
  - unfold update_call. rewrite run_bind, run_modify. cbn [fst snd]. exists f, n. split; [reflexivity|by split].
  - exists f, n. split; [|by split]. cbn [skip snd]. destruct w as [s sw bk sh tk em rp]. destruct s. cbn in *.
    by rewrite delete_id.
Qed.

End calls.

(** ** Witnesses *)

(** The toy node's call once its only request is over without an answer. *)
Definition toy_idle : World := (update_call 7 (fun call => call <| in_flight := false |>) toy_asked).2.

Definition toy_call : Call :=
  default (mk_call zero_key 0 [] [] ∅ ∅ false false false 0 0) (calls (w_state toy_idle) !! 7).

Lemma advance_spec_witness :
  (advance 7 toy_idle).2 = after_give_up 7 toy_call toy_idle ∧ in_flight toy_call = false.
Proof.
  assert (calls (w_state toy_idle) !! 7 = Some toy_call) as Hc.
  { unfold toy_call. destruct (calls (w_state toy_idle) !! 7) eqn:E; [done|]. exfalso.
    assert (bool_decide (is_Some (calls (w_state toy_idle) !! 7)) = true) as Hb by (vm_compute; reflexivity).
    rewrite E in Hb. discriminate Hb. }
  pose proof (advance_spec 7 toy_call toy_idle Hc) as Ha.
  assert (in_flight toy_call || resolving toy_call = false) as Hi by (vm_compute; reflexivity).
  assert (candidates toy_call = []) as Hq by (vm_compute; reflexivity).
  rewrite Hi, Hq in Ha. destruct Ha as (skipped & [|p rest] & E & _ & Hrun).
  - split; [exact Hrun|]. by apply orb_false_iff in Hi as [? _].
  - symmetry in E. apply app_eq_nil in E as [_ E]. discriminate E.
Defined.

Lemma enqueue_order_witness :
  candidates (enqueue toy_call (toy_peer x44) toy_asked).1 = [toy_peer x44] ∧
  candidates (enqueue toy_call (toy_peer x33) toy_asked).1 = [].
Proof.
  assert (candidates toy_call = [] ++ []) as Hq by (vm_compute; reflexivity).
  pose proof (enqueue_order toy_call (toy_peer x44) toy_asked [] [] Hq ltac:(split; constructor)) as H1.
  pose proof (enqueue_order toy_call (toy_peer x33) toy_asked [] [] Hq ltac:(split; constructor)) as H2.
  destruct (enqueue toy_call (toy_peer x44) toy_asked) as [c1 w1]. destruct (enqueue toy_call (toy_peer x33) toy_asked) as [c2 w2].
  destruct H1 as (_ & _ & _ & H1). destruct H2 as (_ & _ & _ & H2). cbn [fst].
  rewrite bool_decide_false in H1 by evaluate. rewrite bool_decide_true in H2 by evaluate.
  assert (penalized (failed (w_state toy_asked)) (instant_at (w_tick toy_asked)) (toy_peer x44) = false) as E3 by (vm_compute; reflexivity).
  cbv zeta in H1. destruct H1 as (_ & H1 & _). rewrite E3 in H1. rewrite H2.
  split; [|exact Hq]. rewrite H1. by case_bool_decide.
Defined.
