(* ===== verification/Bounds.v ===== *)
(** * Bounds: what the node remembers stays bounded and consistent

    The maps the node keeps about peers never outgrow their limits, whatever
    other nodes do; the two maps of followed topics are inverse to each other;
    and the node's identity and protocols are the configured ones. *)

From S2P Require Import Prelude Abi Keys Toy Multiaddr AddressBook Libp2p Events NodeState.
From S2P Require Import Calls Inbound Relay Topics Node ToyNode CallsInv NodeInv Emissions Authentic CallsSpec.
From S2P Require Wire Delegation Limits EventQueue.

Section bounds.
Context {I : Identity} {MA : Multiaddrs I} {H : Handles} {L : Libp2p I MA H} {LL : Libp2pLaws L}.

(** The two maps of followed topics say the same. *)
Definition topics_agree (topics : gmap lp2p_key TopicState) (keys : gmap TopicHash lp2p_key) : Prop :=
  (∀ key ts, topics !! key = Some ts →
     ts_topic ts = Wire.topic_name key ∧ keys !! topic_hash (Wire.topic_name key) = Some key) ∧
  (∀ h key, keys !! h = Some key → is_Some (topics !! key) ∧ h = topic_hash (Wire.topic_name key)).

Definition fits {K A} `{Countable K} (m : gmap K A) (max : Z) : Prop := Z.of_nat (size m) ≤ max.

Definition bounds_of (config : Config) (failed : gmap PeerId Z) (last_success : gmap lp2p_key PeerId)
    (relay_candidates : gmap PeerId Multiaddr) (reservations : gmap PeerId ListenerId)
    (topics : gmap lp2p_key TopicState) (topic_keys : gmap TopicHash lp2p_key)
    (max : Z) (protocols : list bytes) (group : lp2p_key) (delegation : bytes) : Prop :=
  (fits failed MAX_REMEMBERED ∧ fits last_success MAX_REMEMBERED) ∧
  (fits relay_candidates MAX_RELAY_CANDIDATES ∧ fits reservations MAX_RESERVATIONS) ∧
  (topics_agree topics topic_keys ∧ fits topics (Z.max 0 max)) ∧
  max = cfg_topic_max_subscriptions config ∧ protocols = cfg_rpc_protocols config ∧
  group = Delegation.group (cfg_delegation config) ∧ delegation = Delegation.to_bytes (cfg_delegation config).

Definition bounds (config : Config) (w : World) : Prop :=
  let s := w_state w in
  bounds_of config (failed s) (last_success s) (relay_candidates s) (reservations s) (topics s) (topic_keys s)
    (topic_max_subscriptions s) (rpc_protocols s) (own_group s) (own_delegation s).

Definition keeps_bounds (config : Config) (w w' : World) : Prop := bounds config w → bounds config w'.

#[export] Instance keeps_bounds_preorder config : PreOrder (keeps_bounds config).
Proof. split; [intros w Hb; exact Hb|]. intros w1 w2 w3 H1 H2 Hb. by apply H2, H1. Qed.

Lemma fits_insert {K A} `{Countable K} (m : gmap K A) k a max : fits m (max - 1) → fits (<[k := a]> m) max.
Proof.
  unfold fits. intros Hm. destruct (m !! k) eqn:E; [rewrite map_size_insert_Some by (by eexists)|rewrite map_size_insert_None by done]; lia.
Qed.

Lemma fits_empty {K A} `{Countable K} max : 0 ≤ max → fits (∅ : gmap K A) max.
Proof. intros Hm. unfold fits. by rewrite map_size_empty. Qed.

Lemma fits_delete {K A} `{Countable K} (m : gmap K A) k max : fits m max → fits (delete k m) max.
Proof. unfold fits. intros Hm. rewrite map_size_delete. destruct (m !! k); unfold Datatypes.id; lia. Qed.

Lemma fits_mono {K A} `{Countable K} (m : gmap K A) max max' : fits m max → max ≤ max' → fits m max'.
Proof. unfold fits. lia. Qed.

Lemma bounds_same config w w' : w_state w' = w_state w → keeps_bounds config w w'.
Proof. intros E. unfold keeps_bounds, bounds. by rewrite E. Qed.

Lemma bounds_swarm config {A} (a : Action A) : respects (keeps_bounds config) (swarm a).
Proof. intros w. rewrite run_swarm. by apply bounds_same. Qed.

Lemma bounds_check_limits config rq n t : respects (keeps_bounds config) (check_limits rq n t).
Proof. intros w. unfold check_limits. destruct (Limits.check _ _ _ _). exact (fun x => x). Qed.

Lemma bounds_may_report config t : respects (keeps_bounds config) (may_report t).
Proof. intros w. unfold may_report. destruct (Limits.may_report _ _). exact (fun x => x). Qed.

Lemma bounds_allow config p t : respects (keeps_bounds config) (allow_announcement p t).
Proof. intros w. unfold allow_announcement. destruct (Limits.allow _ _ _). exact (fun x => x). Qed.

(** Handlers whose guards matter. *)

Lemma bounds_remember_failure config p : respects (keeps_bounds config) (remember_failure p).
Proof.
  intros w ((H1 & H2) & H3). destruct (remember_failure_spec p w) as (f & n & -> & _ & _ & Hf & _).
  split; [|exact H3]. split; [|exact H2]. unfold fits in *. cbn. lia.
Qed.

Lemma bounds_response_accepted config id call p n b : respects (keeps_bounds config) (response_accepted id call p n b).
Proof.
  intros w ((H1 & H2) & H3). unfold response_accepted. rewrite run_bind, run_modify. cbn [fst snd].
  rewrite run_bind, run_gets. cbn [fst snd]. rewrite run_bind. cbn [w_state upd last_success].
  destruct (Z.leb_spec MAX_REMEMBERED (Z.of_nat (size (last_success (w_state w))))); cbn [when skip]; rewrite ?run_modify; cbn [fst snd];
    rewrite run_bind, run_modify; cbn [fst snd].
  - split; [|exact H3]. split; [by apply fits_delete|]. apply fits_insert, fits_empty. unfold MAX_REMEMBERED. lia.
  - split; [|exact H3]. split; [by apply fits_delete|]. apply fits_insert. unfold fits. cbn. lia.
Qed.

Lemma bounds_reserve_on config t l : respects (keeps_bounds config) (reserve_on t l).
Proof.
  induction l as [|[p a] l IH]; cbn [reserve_on]; [apply respects_skip, _|].
  intros w Hb. rewrite run_bind, run_gets. cbn [fst snd].
  destruct (Z.leb_spec MAX_RESERVATIONS (Z.of_nat (size (reservations (w_state w))))) as [|Hroom]; [exact Hb|].
  rewrite run_bind, run_swarm. cbn [fst snd]. rewrite run_bind. apply IH. destruct (act _ _).1; [|exact Hb].
  destruct Hb as (H1 & (H2 & H3) & H4). split; [exact H1|]. split; [|exact H4]. split; [exact H2|].
  apply fits_insert. unfold fits. cbn [w_state upd]. lia.
Qed.

Lemma topic_key_hash_inj k1 k2 : topic_hash (Wire.topic_name k1) = topic_hash (Wire.topic_name k2) → k1 = k2.
Proof. intros E. by apply Wire.topic_name_inj, topic_hash_inj. Qed.

Lemma topics_agree_insert topics keys key last :
  topics_agree topics keys →
  topics_agree (<[key := mk_topic_state (Wire.topic_name key) last]> topics) (<[topic_hash (Wire.topic_name key) := key]> keys).
Proof.
  intros [H1 H2]. split.
  - intros k ts. rewrite lookup_insert_Some. intros [[<- <-]|[Hne Hts]]; [split; [done|apply lookup_insert_eq]|].
    destruct (H1 _ _ Hts) as [E1 E2]. split; [done|]. rewrite lookup_insert_ne; [done|].
    intros E. by apply topic_key_hash_inj in E.
  - intros h k. rewrite lookup_insert_Some. intros [[<- <-]|[Hne Hk]]; [by rewrite lookup_insert_eq|].
    destruct (H2 _ _ Hk) as [Hs ->]. split; [|done]. apply lookup_insert_is_Some'. by right.
Qed.

Lemma topics_agree_delete topics keys key :
  topics_agree topics keys → topics_agree (delete key topics) (delete (topic_hash (Wire.topic_name key)) keys).
Proof.
  intros [H1 H2]. split.
  - intros k ts [Hne Hts]%lookup_delete_Some. destruct (H1 _ _ Hts) as [E1 E2]. split; [done|].
    rewrite lookup_delete_ne; [done|]. intros E. by apply topic_key_hash_inj in E.
  - intros h k [Hne Hk]%lookup_delete_Some. destruct (H2 _ _ Hk) as [Hs ->]. split; [|done].
    rewrite lookup_delete_ne; [done|]. by intros ->.
Qed.

Lemma topics_agree_alter topics keys key f :
  (∀ ts, ts_topic (f ts) = ts_topic ts) → topics_agree topics keys → topics_agree (alter f key topics) keys.
Proof.
  intros Hf [H1 H2]. split.
  - intros k ts Hts. apply lookup_alter_Some in Hts as [(-> & ts' & Hts & ->)|[_ Hts]]; [rewrite Hf|]; by apply H1.
  - intros h k Hk. destruct (H2 _ _ Hk) as [Hs ->]. split; [|done]. by apply lookup_alter_is_Some.
Qed.

Lemma bounds_identified_candidates config peer info w :
  keeps_bounds config w
    (when (info_offers_relay info && (Z.of_nat (size (relay_candidates (w_state w))) <? MAX_RELAY_CANDIDATES))
      (match relay_address (w_state w) peer info with
       | Some address => modify (fun s => s <| relay_candidates ::= insert peer address |>)
       | None => skip
       end) w).2.
Proof.
  intros Hb. destruct (_ && _) eqn:E; [|exact Hb]. apply andb_true_iff in E as [_ E%Z.ltb_lt].
  cbn [when]. destruct (relay_address _ _ _); [|exact Hb]. rewrite run_modify. cbn [snd].
  destruct Hb as (H1 & (H2 & H3) & H4). split; [exact H1|]. split; [|exact H4]. split; [|exact H3].
  apply fits_insert. unfold fits. lia.
Qed.

Lemma bounds_topic_lookup config key : respects (keeps_bounds config) (topic_lookup key).
Proof.
  unfold topic_lookup. repeat (respects_step || apply bounds_swarm || (intros w Hb; exact Hb)).
  intros w (H1 & H2 & (H3 & H4) & H5). split; [exact H1|]. split; [exact H2|]. split; [|exact H5].
  cbn [modify snd w_state upd topics topic_keys topic_max_subscriptions]. split; [by apply topics_agree_alter|].
  unfold fits in *. rewrite <- size_dom, dom_alter_L, size_dom. exact H4.
Qed.

Lemma bounds_topic_subscribe config key : respects (keeps_bounds config) (topic_subscribe key).
Proof.
  intros w Hb. unfold topic_subscribe. rewrite run_bind, run_gets. cbn [fst snd].
  destruct (_ || _) eqn:E; [exact Hb|]. apply orb_false_iff in E as [Hnew%bool_decide_eq_false Hroom%Z.leb_gt].
  cbv zeta. rewrite run_bind, run_swarm. cbn [fst snd]. destruct (negb _); [exact Hb|].
  rewrite run_bind, run_modify. cbn [fst snd]. rewrite run_bind, run_modify. cbn [fst snd].
  set (w1 := _ <| w_state ::= fun s => s <| topics ::= _ |> |>).
  assert (bounds config w1) as Hb1.
  { destruct Hb as (H1 & H2 & (H3 & H4) & H5). split; [exact H1|]. split; [exact H2|]. split; [|exact H5].
    split; [by apply topics_agree_insert|]. apply fits_insert. unfold fits.
    cbn [w1 w_state upd topics topic_max_subscriptions]. lia. }
  clearbody w1. clear -Hb1. rewrite run_bind.
  assert (respects (keeps_bounds config) (swarm (StartProviding (record_key key));; topic_lookup key)) as Hrest
    by (apply respects_bind; [exact _|apply bounds_swarm|intros _; apply bounds_topic_lookup]).
  apply Hrest. exact Hb1.
Qed.

Lemma bounds_topic_unsubscribe config key : respects (keeps_bounds config) (topic_unsubscribe key).
Proof.
  intros w Hb. unfold topic_unsubscribe. rewrite run_bind, run_gets. cbn [fst snd]. rewrite run_bind, run_modify. cbn [fst snd].
  destruct (topics (w_state w) !! key) as [ts|] eqn:Et.
  - rewrite run_bind, run_swarm. cbn [fst snd]. rewrite run_bind, run_modify. cbn [fst snd].
    rewrite run_bind, run_swarm. cbn [fst snd].
    destruct Hb as (H1 & H2 & (H3 & H4) & H5). destruct (proj1 H3 _ _ Et) as [-> _].
    split; [exact H1|]. split; [exact H2|]. split; [|exact H5].
    split; [by apply topics_agree_delete|by apply fits_delete].
  - cbn [skip snd]. rewrite drop_nothing; [exact Hb|]. destruct (w_state w). cbn in *. by rewrite delete_id.
Qed.

End bounds.

Create HintDb bounds.
#[export] Hint Resolve bounds_remember_failure bounds_response_accepted bounds_reserve_on
  bounds_topic_lookup bounds_topic_subscribe bounds_topic_unsubscribe : bounds.

(** One step into a handler. *)
Ltac bounds_step :=
  first
  [ respects_step
  | apply bounds_swarm | apply bounds_check_limits | apply bounds_may_report | apply bounds_allow
  | solve [ eauto 2 with bounds nocore ]
  | intros ? ?; assumption ].
Ltac bounds := repeat bounds_step.

Section handlers.
Context {I : Identity} {MA : Multiaddrs I} {H : Handles} {L : Libp2p I MA H} {LL : Libp2pLaws L}.
Context (config : Config).

Lemma bounds_provide : respects (keeps_bounds config) provide.
Proof. unfold provide. bounds. Qed.
#[local] Hint Resolve bounds_provide : bounds.

Lemma bounds_try_candidates id call l : respects (keeps_bounds config) (try_candidates id call l).
Proof. induction l; cbn [try_candidates]; bounds. Qed.
#[local] Hint Resolve bounds_try_candidates : bounds.

Lemma bounds_advance id : respects (keeps_bounds config) (advance id).
Proof. unfold advance, remove_call. bounds. Qed.
#[local] Hint Resolve bounds_advance : bounds.

Lemma bounds_response p r f : respects (keeps_bounds config) (response p r f).
Proof. unfold response, update_call. bounds. Qed.
#[local] Hint Resolve bounds_response : bounds.

Lemma bounds_outbound_failure p r e : respects (keeps_bounds config) (outbound_failure p r e).
Proof. unfold outbound_failure, update_call. bounds. Qed.
#[local] Hint Resolve bounds_outbound_failure : bounds.

Lemma bounds_enqueue_all local call l : respects (keeps_bounds config) (enqueue_all local call l).
Proof. revert call. induction l as [|p l IH]; intros call; cbn [enqueue_all]; unfold enqueue; bounds; apply IH. Qed.
#[local] Hint Resolve bounds_enqueue_all : bounds.

Lemma bounds_inbound_request p c r f ch : respects (keeps_bounds config) (inbound_request p c r f ch).
Proof. unfold inbound_request. bounds. Qed.
#[local] Hint Resolve bounds_inbound_request : bounds.

Lemma bounds_reserve : respects (keeps_bounds config) reserve.
Proof. unfold reserve. bounds. Qed.
#[local] Hint Resolve bounds_reserve : bounds.

Lemma bounds_relay_lost l : respects (keeps_bounds config) (relay_lost l).
Proof.
  unfold relay_lost. bounds. intros w (H1 & (H2 & H3) & H4). split; [exact H1|]. split; [|exact H4].
  split; [exact H2|by apply fits_delete].
Qed.
#[local] Hint Resolve bounds_relay_lost : bounds.

Lemma bounds_nat_status st : respects (keeps_bounds config) (nat_status st).
Proof.
  unfold nat_status, become_private, become_public. bounds.
  all: intros w (H1 & (H2 & H3) & H4); (split; [exact H1|]); (split; [|exact H4]);
    (split; [exact H2|by apply fits_empty]).
Qed.
#[local] Hint Resolve bounds_nat_status : bounds.

Lemma bounds_identified p info : respects (keeps_bounds config) (identified p info).
Proof.
  intros w. unfold identified. rewrite run_bind, run_gets. cbn [fst snd]. cbv zeta.
  apply respects_after; [exact _|apply bounds_identified_candidates|]. intros _. bounds.
Qed.
#[local] Hint Resolve bounds_identified : bounds.

Lemma bounds_announce : respects (keeps_bounds config) announce.
Proof. unfold announce. bounds. Qed.
#[local] Hint Resolve bounds_announce : bounds.

Lemma bounds_dial_members n l : respects (keeps_bounds config) (dial_members n l).
Proof. revert n. induction l as [|p l IH]; intros n; cbn [dial_members]; bounds; apply IH. Qed.
#[local] Hint Resolve bounds_dial_members : bounds.

Lemma bounds_gossipsub_event e : respects (keeps_bounds config) (gossipsub_event e).
Proof. unfold gossipsub_event, topic_message, announcement_message. bounds. Qed.
#[local] Hint Resolve bounds_gossipsub_event : bounds.

Lemma bounds_kad_event e : respects (keeps_bounds config) (kad_event e).
Proof.
  destruct e; cbn [kad_event]; unfold routing_updated, get_providers_progressed, topic_providers,
    dial_topic_members, found_providers, get_closest_peers_progressed, bootstrap_progressed,
    call_providers, queue_found, call_resolved, update_call, iterate_found; bounds.
Qed.
#[local] Hint Resolve bounds_kad_event : bounds.

Lemma bounds_swarm_event e : respects (keeps_bounds config) (swarm_event e).
Proof.
  destruct e as [| | | | | | | |e| | | |]; cbn [swarm_event]; try destruct e; cbn [rpc_event];
    unfold new_listen_addr, expired_listen_addr, connection_established, connection_closed,
      hole_punch, inbound_done; bounds.
Qed.
#[local] Hint Resolve bounds_swarm_event : bounds.

Lemma bounds_tick : respects (keeps_bounds config) tick.
Proof. unfold tick, expire, remove_call. bounds. Qed.
#[local] Hint Resolve bounds_tick : bounds.

Lemma bounds_command c : respects (keeps_bounds config) (command c).
Proof.
  destruct c; cbn [command]; unfold start_call, first_candidates, respond, reject, add_address, bootstrap, random_walk, find_providers,
    provide_key, announce_set_payload, topic_publish, topic_peers, routing_sample; bounds.
Qed.
#[local] Hint Resolve bounds_command : bounds.

Lemma bounds_step_input input : respects (keeps_bounds config) (step input).
Proof. destruct input; cbn [step]; bounds. Qed.

Lemma reachable_bounds used w : reachable config used w → bounds config w.
Proof.
  induction 1 as [w ((local & t & Hs) & _)|used w w' Hr Hb He|used w Hr Hb|used w input Hr Hb Hin].
  - unfold bounds. rewrite Hs. cbn. repeat split; try (apply fits_empty; unfold MAX_REMEMBERED, MAX_RELAY_CANDIDATES, MAX_RESERVATIONS; lia);
      by intros; rewrite lookup_empty in *.
  - unfold bounds. rewrite (env_state _ _ He). exact Hb.
  - assert (respects (keeps_bounds config) (get_ready config)) as Hk by (unfold get_ready; bounds). by apply Hk.
  - by apply bounds_step_input.
Qed.

(** C20: what the node remembers is bounded and consistent in every reachable
    state, whatever other nodes send. At most 4096 failing peers, 4096 last good
    nodes, 64 relay candidates, two relay reservations and the configured number
    of topics are kept; the map from topics to their gossipsub names and the one
    back are inverse to each other; and the node's group, delegation and
    protocols are the configured ones. *)
Theorem node_bounded used w :
  reachable config used w →
  let s := w_state w in
  Z.of_nat (size (failed s)) ≤ 4096 ∧ Z.of_nat (size (last_success s)) ≤ 4096 ∧
  Z.of_nat (size (relay_candidates s)) ≤ 64 ∧ Z.of_nat (size (reservations s)) ≤ 2 ∧
  Z.of_nat (size (topics s)) ≤ Z.max 0 (cfg_topic_max_subscriptions config) ∧
  (∀ key ts, topics s !! key = Some ts →
     ts_topic ts = Wire.topic_name key ∧ topic_keys s !! topic_hash (Wire.topic_name key) = Some key) ∧
  (∀ h key, topic_keys s !! h = Some key → is_Some (topics s !! key) ∧ h = topic_hash (Wire.topic_name key)) ∧
  own_group s = Delegation.group (cfg_delegation config) ∧
  own_delegation s = Delegation.to_bytes (cfg_delegation config) ∧ rpc_protocols s = cfg_rpc_protocols config.
Proof.
  intros ((H1 & H2) & (H3 & H4) & ((H5 & H6) & H7) & H8 & H9 & H10 & H11)%reachable_bounds s.
  unfold s. rewrite <- H8. done.
Qed.

End handlers.

(** ** Witness *)

Lemma node_bounded_witness :
  Z.of_nat (size (failed (w_state toy_answered))) ≤ 4096 ∧ rpc_protocols (w_state toy_answered) = [[x2f; x70]].
Proof.
  destruct (node_bounded toy_config _ _ toy_answered_reachable) as (H1 & _ & _ & _ & _ & _ & _ & _ & _ & H2).
  split; [exact H1|exact H2].
Defined.
