(* ===== verification/Liveness.v ===== *)
(** * Liveness: every call ends

    What was asked of a call never changes while it is in progress, and a call
    that is over does not come back. So the first tick at or after its deadline
    finds every call over, and it was reported exactly once. *)

From S2P Require Import Prelude Abi Keys Toy Multiaddr AddressBook Libp2p Events NodeState.
From S2P Require Import Calls Inbound Relay Topics Node ToyNode CallsInv NodeInv Emissions Authentic CallsSpec.
From S2P Require Wire Delegation Limits EventQueue.

Section continuation.
Context {I : Identity} {MA : Multiaddrs I} {H : Handles} {L : Libp2p I MA H} {LL : Libp2pLaws L}.

(** ** What is asked stays the same *)

Definition same_ask (c c' : Call) : Prop :=
  call_group c' = call_group c ∧ call_protocol c' = call_protocol c ∧
  call_frame c' = call_frame c ∧ deadline c' = deadline c.

#[export] Instance same_ask_preorder : PreOrder same_ask.
Proof. split; [by intros c|]. intros c1 c2 c3. unfold same_ask. intuition congruence. Qed.

(** Every call of [w'], outside [new], is one of [w] that asks for the same. *)
Definition continues (new : gset Z) (w w' : World) : Prop :=
  ∀ id c', id ∉ new → calls (w_state w') !! id = Some c' → ∃ c, calls (w_state w) !! id = Some c ∧ same_ask c c'.

#[export] Instance continues_preorder new : PreOrder (continues new).
Proof.
  split; [intros w id c' _ Hc; by exists c'|].
  intros w1 w2 w3 C1 C2 id c' Hn Hc. destruct (C2 id c' Hn Hc) as (c & Hc2 & E).
  destruct (C1 id c Hn Hc2) as (c0 & Hc0 & E0). exists c0. split; [done|]. by etransitivity.
Qed.

Lemma continues_same new w w' : calls (w_state w') = calls (w_state w) → continues new w w'.
Proof. intros E id c' _ Hc. rewrite E in Hc. by exists c'. Qed.

Lemma continues_quiet new {A} (m : M A) : respects quiet m → respects (continues new) m.
Proof. intros Hm w. apply continues_same, Hm. Qed.

Lemma continues_mono new new' w w' : new ⊆ new' → continues new w w' → continues new' w w'.
Proof. intros Hsub C id c' Hn. apply C. set_solver. Qed.

Lemma continues_swarm new {A} (a : Action A) : respects (continues new) (swarm a).
Proof. intros w. rewrite run_swarm. by apply continues_same. Qed.

Lemma continues_delete new id f :
  (∀ s, calls (f s) = delete id (calls s)) → respects (continues new) (modify f).
Proof.
  intros Hf w i c' _ Hc. cbn in Hc. rewrite Hf in Hc. apply lookup_delete_Some in Hc as [_ Hc]. by exists c'.
Qed.

Lemma continues_update new id f : (∀ c, same_ask c (f c)) → respects (continues new) (update_call id f).
Proof.
  intros Hf w i c' _ Hc. cbn in Hc. apply lookup_alter_Some in Hc as [(-> & c & Hc & ->)|[_ Hc]];
    [by exists c|by exists c'].
Qed.

Lemma continues_insert new id call c0 f w w1 :
  calls (w_state w) !! id = Some c0 → same_ask c0 call →
  (∀ s, calls (f s) = <[id := call]> (calls s)) → calls (w_state w1) = calls (w_state w) →
  continues new w (modify f w1).2.
Proof.
  intros H0 Hs Hf E i c' _ Hc. cbn in Hc. rewrite Hf, E in Hc.
  apply lookup_insert_Some in Hc as [[<- <-]|[_ Hc]]; [by exists c0|by exists c'].
Qed.

Ltac continues_step :=
  first
  [ respects_step | apply continues_swarm
  | eapply continues_delete; reflexivity
  | apply continues_update; intros []; split_and!; reflexivity
  | intros ?; apply continues_same; reflexivity ].

(** ** The handlers of calls *)

Lemma continues_try_candidates new id call c0 l w :
  calls (w_state w) !! id = Some c0 → same_ask c0 call → continues new w (try_candidates id call l w).2.
Proof.
  revert call w. induction l as [|p l IH]; intros call w H0 Hs; cbn [try_candidates].
  - rewrite run_bind. eapply continues_insert; [exact H0| |reflexivity|reflexivity]. by destruct call.
  - rewrite run_bind. unfold read. cbn [fst snd].
    destruct (is_connected _ p || knows _ p); cbn [negb].
    + rewrite run_bind, run_swarm. cbn [fst snd]. rewrite run_bind.
      match goal with |- continues _ _ (?k (modify ?f ?w1).2).2 =>
        transitivity (modify f w1).2; [|by apply continues_same] end.
      eapply continues_insert; [exact H0| |reflexivity|reflexivity]. by destruct call.
    + case_bool_decide; [by apply IH|]. rewrite run_bind, run_swarm. cbn [fst snd]. rewrite run_bind.
      eapply continues_insert; [exact H0| |reflexivity|reflexivity]. by destruct call.
Qed.

Lemma continues_advance new id : respects (continues new) (advance id).
Proof.
  intros w. unfold advance. rewrite run_bind, run_gets. cbn [fst snd].
  destruct (calls (w_state w) !! id) as [call|] eqn:E; [|reflexivity].
  destruct (in_flight call || resolving call); [reflexivity|].
  apply respects_after; [exact _|by apply (continues_try_candidates _ _ _ call)|].
  intros returned. unfold remove_call. repeat continues_step.
Qed.

Lemma continues_outbound_failure new p r e : respects (continues new) (outbound_failure p r e).
Proof.
  unfold outbound_failure. apply respects_bind; [exact _|apply continues_quiet, quiet_remember_failure|]. intros _.
  repeat (continues_step || apply continues_advance).
Qed.

Lemma continues_response new p r f : respects (continues new) (response p r f).
Proof.
  unfold response, response_accepted.
  repeat (continues_step || apply continues_advance || apply continues_quiet, quiet_remember_failure).
Qed.

Lemma continues_call_resolved new id : respects (continues new) (call_resolved id).
Proof. unfold call_resolved. repeat (continues_step || apply continues_advance). Qed.

Lemma continues_expire new t : respects (continues new) (expire t).
Proof. unfold expire, remove_call. repeat continues_step. Qed.
Lemma enqueue_asks call p w :
  same_ask call (enqueue call p w).1 ∧ calls (w_state (enqueue call p w).2) = calls (w_state w).
Proof.
  unfold enqueue. case_bool_decide; [done|]. rewrite run_bind. unfold now. cbn [fst snd].
  rewrite run_bind, run_gets. cbn [fst snd ret].
  match goal with |- same_ask _ (enqueue_at ?t ?ls ?f ?p ?c) ∧ _ =>
    destruct (enqueue_at_same t ls f p c) as [(_ & _ & _ & E1 & E2 & E3 & E4 & _) _] end.
  split; [|done]. unfold same_ask. by rewrite E1, E2, E3, E4.
Qed.

Lemma enqueue_all_asks local l call w :
  same_ask call (enqueue_all local call l w).1 ∧ calls (w_state (enqueue_all local call l w).2) = calls (w_state w).
Proof.
  revert call w. induction l as [|p l IH]; intros call w; [done|]. cbn [enqueue_all]. rewrite run_bind.
  case_bool_decide; [apply IH|]. destruct (enqueue_asks call p w) as [H1 H2].
  destruct (IH (enqueue call p w).1 (enqueue call p w).2) as [H3 H4]. split; [by etransitivity|congruence].
Qed.

Lemma continues_call_providers new q id f b : respects (continues new) (call_providers q id f b).
Proof.
  unfold call_providers. apply respects_bind; [exact _| |intros _; repeat (continues_step || apply continues_advance)].
  intros w. unfold queue_found. rewrite run_bind, run_gets. cbn [fst snd]. rewrite run_bind, run_gets. cbn [fst snd].
  destruct (calls (w_state w) !! id) as [call|] eqn:E; [|reflexivity]. rewrite run_bind.
  destruct (enqueue_all_asks (local_peer (w_state w)) (default [] f) call w) as [H1 H2].
  destruct (enqueue_all _ call _ w) as [call' w1]. cbn [fst snd] in *.
  eapply continues_insert; [exact E| |reflexivity|exact H2]. etransitivity; [exact H1|]. by destruct b.
Qed.

Lemma continues_get_providers new q f b : respects (continues new) (get_providers_progressed q f b).
Proof.
  unfold get_providers_progressed. apply respects_bind; [exact _|apply respects_read, _|]. intros s.
  destruct (topic_lookups s !! q); [apply continues_quiet, quiet_topic_providers|].
  destruct (provider_queries s !! q); [apply continues_quiet, quiet_found_providers|].
  destruct (provider_lookups s !! q) as [id|]; [|apply respects_skip, _].
  apply respects_bind; [exact _| |intros; apply continues_call_providers].
  case_bool_decide; [apply continues_quiet, quiet_iterate_found|apply respects_ret, _].
Qed.

Lemma continues_get_closest_peers new q peers : respects (continues new) (get_closest_peers_progressed q peers).
Proof.
  unfold get_closest_peers_progressed.
  repeat (continues_step || apply continues_call_resolved).
Qed.

(** A new call is the one of its id. *)
Lemma continues_start_call id group node protocol payload timeout :
  respects (continues {[id]}) (start_call id group node protocol payload timeout).
Proof.
  unfold start_call. apply respects_bind; [exact _|apply respects_read, _|]. intros [name|]; [|apply respects_ret, _].
  apply respects_bind; [exact _|apply respects_read, _|]. intros delegation.
  apply respects_bind; [exact _|apply continues_quiet, quiet_now|]. intros t. cbv zeta.
  apply respects_bind; [exact _|unfold first_candidates; destruct node; repeat continues_step|]. intros call.
  apply respects_bind; [exact _| |intros _; apply respects_bind; [exact _|apply continues_advance|intros; apply respects_ret, _]].
  intros w i c' Hi Hc. cbn in Hc. rewrite lookup_insert_ne in Hc by set_solver. by exists c'.
Qed.

Lemma continues_rpc_event new e : respects (continues new) (rpc_event e).
Proof.
  destruct e; cbn [rpc_event];
    first [apply continues_response | apply continues_outbound_failure
          | apply continues_quiet; first [apply quiet_inbound_request | apply quiet_inbound_done]].
Qed.

Lemma continues_kad_event new e : respects (continues new) (kad_event e).
Proof.
  destruct e; cbn [kad_event];
    first [apply continues_get_providers | apply continues_get_closest_peers | apply respects_skip, _
          | apply continues_quiet; first [apply quiet_routing_updated | apply quiet_bootstrap_progressed]].
Qed.

Lemma continues_swarm_event new e : respects (continues new) (swarm_event e).
Proof.
  destruct e; cbn [swarm_event];
    first [ apply continues_kad_event | apply continues_rpc_event | apply respects_skip, _
          | apply continues_quiet; first
            [ apply quiet_new_listen_addr | apply quiet_relay_lost | apply quiet_connection_established
            | apply quiet_connection_closed | apply quiet_identified | apply quiet_gossipsub_event
            | apply quiet_hole_punch | apply quiet_nat_status ]
          | unfold expired_listen_addr; repeat continues_step ].
Qed.

Lemma continues_tick new : respects (continues new) tick.
Proof.
  unfold tick. apply respects_bind; [exact _|apply continues_quiet, quiet_now|]. intros t.
  apply respects_bind; [exact _|apply continues_expire|]. intros _.
  repeat (continues_step || apply continues_quiet, quiet_reserve || apply continues_quiet, quiet_announce ||
          apply continues_quiet, quiet_topic_lookup || apply continues_quiet, quiet_provide).
Qed.

Lemma continues_input input : respects (continues (call_ids input)) (step input).
Proof.
  destruct input as [c| |e|]; cbn [step].
  - pose proof (quiet_command c) as Hq. destruct c; try (by apply continues_quiet). cbn [command call_ids].
    apply respects_bind; [exact _|apply continues_start_call|]. intros []; apply respects_ret, _.
  - apply respects_ret, _.
  - apply respects_bind; [exact _|apply continues_swarm_event|intros; apply respects_ret, _].
  - apply respects_bind; [exact _|apply continues_tick|intros; apply respects_ret, _].
Qed.
(** ** What may follow *)

(** The executions from [w]: inputs, and between them the network and the
    caller's threads. *)
Inductive follows (used : gset Z) (w : World) : gset Z → World → Prop :=
| follows_now : follows used w used w
| follows_env used' w' w'' : follows used w used' w' → env_step w' w'' → follows used w used' w''
| follows_step used' w' input :
    follows used w used' w' → input_ok used' w' input →
    follows used w (call_ids input ∪ used') (step input w').2.

Lemma follows_reachable config used w used' w' :
  reachable config used w → follows used w used' w' → reachable config used' w' ∧ used ⊆ used'.
Proof.
  intros Hr. induction 1 as [|used' w' w'' Hf [IH Hsub] He|used' w' input Hf [IH Hsub] Hin].
  - done.
  - split; [by eapply reach_env|done].
  - split; [by apply reach_step|set_solver].
Qed.

(** A call that was submitted keeps what it asks, and does not come back. *)
Lemma follows_continues used w used' w' :
  follows used w used' w' → used ⊆ used' ∧
  ∀ id c', id ∈ used → calls (w_state w') !! id = Some c' → ∃ c, calls (w_state w) !! id = Some c ∧ same_ask c c'.
Proof.
  induction 1 as [|used' w' w'' Hf [Hsub IH] He|used' w' input Hf [Hsub IH] Hin].
  - split; [done|]. intros id c' _ Hc. by exists c'.
  - split; [done|]. intros id c' Hid. rewrite (env_state _ _ He). by apply IH.
  - split; [set_solver|]. intros id c' Hid Hc.
    destruct (continues_input input w' id c') as (c & Hc1 & E); [|done|].
    { destruct input as [[]| | |]; cbn; try (by apply not_elem_of_empty). intros ->%elem_of_singleton.
      destruct Hin as [Hnew _]. by apply Hnew, Hsub. }
    destruct (IH id c Hid Hc1) as (c0 & Hc0 & E0). exists c0. split; [done|]. by etransitivity.
Qed.

Lemma call_used config used w id call : reachable config used w → calls (w_state w) !! id = Some call → id ∈ used.
Proof.
  intros (_ & Hwf & _)%reachable_wf Hc. destruct (decide (id ∈ used)) as [|Hn]; [done|].
  destruct (cw_unused _ _ _ Hwf id Hn) as [Hnone _]. congruence.
Qed.

(** Over, in a reachable state, is reported once. *)
Lemma over_reported config used w id :
  reachable config used w → id ∈ used → calls (w_state w) !! id = None → count id (w_emitted w) = 1.
Proof.
  intros (_ & _ & Hb)%reachable_wf Hid Hc. specialize (Hb id). unfold balance, live in Hb.
  rewrite Hc, bool_decide_true in Hb by done. lia.
Qed.

(** C3: every call ends. Let a call be in progress in a reachable state. However
    the execution goes on, the first tick whose reading of the clock is at or
    after the call's deadline leaves it over; it is over in everything that
    follows, and exactly one record that ends it was handed to the event queue. *)
Theorem calls_end config used w id call used1 w1 used2 w2 :
  reachable config used w → calls (w_state w) !! id = Some call →
  follows used w used1 w1 → deadline call ≤ instant_at (w_tick w1) →
  follows used1 (step InTick w1).2 used2 w2 →
  calls (w_state w2) !! id = None ∧ blen (List.filter (terminal id) (w_emitted w2)) = 1.
Proof.
  intros Hr Hc Hf Hd Hf2. pose proof (call_used _ _ _ _ _ Hr Hc) as Hid.
  destruct (follows_continues _ _ _ _ Hf) as [Hsub Hcont].
  destruct (follows_reachable _ _ _ _ _ Hr Hf) as [Hr1 _].
  assert (reachable config used1 (step InTick w1).2) as Hr1'.
  { rewrite <- (left_id_L ∅ union used1). by apply (reach_step config used1 w1 InTick). }
  destruct (follows_reachable _ _ _ _ _ Hr1' Hf2) as [Hr2 Hsub2].
  assert (calls (w_state (step InTick w1).2) !! id = None) as Hover.
  { rewrite step_tick. destruct (tick_spec w1) as [-> _]. apply map_lookup_filter_None.
    destruct (calls (w_state w1) !! id) as [c1|] eqn:E1; [right|by left]. intros c' [= <-].
    destruct (Hcont id c1 Hid E1) as (c0 & Hc0 & _ & _ & _ & Hdl). cbn. rewrite Hc in Hc0. injection Hc0 as <-. lia. }
  assert (calls (w_state w2) !! id = None) as Hover2.
  { destruct (calls (w_state w2) !! id) as [c2|] eqn:E2; [|done].
    destruct (follows_continues _ _ _ _ Hf2) as [_ Hcont2].
    destruct (Hcont2 id c2) as (c & Hx & _); [by apply Hsub|done|congruence]. }
  split; [done|]. apply (over_reported config used2); [done| |done]. by apply Hsub2, Hsub.
Qed.

End continuation.

(** ** Witness

    A call with a deadline two nanoseconds away that nobody answers; the clock
    moves on and the next tick ends it. *)

Definition toy_hasty : Input := InCommand (Rpc 7 toy_group (Some (key_byte x33)) 0 [x01] 2).
Definition toy_hurried : World := (step toy_hasty toy_start).2.
Definition toy_late : World := toy_hurried <| w_tick := 5%nat |>.

Lemma toy_hurried_reachable : reachable toy_config {[7]} toy_hurried.
Proof.
  change {[7]} with (call_ids toy_hasty). rewrite <- (right_id_L ∅ union (call_ids toy_hasty)).
  apply reach_step; [apply reach_start|].
  - split; [|done]. by exists (toy_peer x11), 0.
  - split_and!; [by apply not_elem_of_empty|done|by eexists].
Qed.

Lemma some_lookup {A} (m : gmap Z A) i : bool_decide (is_Some (m !! i)) = true → ∃ x, m !! i = Some x.
Proof. by intros Hx%bool_decide_eq_true. Qed.

Lemma calls_end_witness :
  (∃ call, calls (w_state toy_hurried) !! 7 = Some call) ∧ calls (w_state (step InTick toy_late).2) !! 7 = None ∧
  blen (List.filter (terminal 7) (w_emitted (step InTick toy_late).2)) = 1.
Proof.
  destruct (some_lookup (calls (w_state toy_hurried)) 7) as [call Hc]; [vm_compute; reflexivity|].
  split; [by exists call|].
  assert (deadline <$> calls (w_state toy_hurried) !! 7 = Some 3) as Hd by (vm_compute; reflexivity).
  rewrite Hc in Hd. injection Hd as Hd.
  apply (calls_end toy_config {[7]} toy_hurried 7 call {[7]} toy_late {[7]} (step InTick toy_late).2).
  - apply toy_hurried_reachable.
  - exact Hc.
  - eapply follows_env; [apply follows_now|]. split; done.
  - rewrite Hd. vm_compute. congruence.
  - apply follows_now.
Defined.
