(* ===== verification/RelayInv.v ===== *)
(** * RelayInv: reachability and relay reservations

    A private node keeps reservations on relays; one that AutoNAT finds public
    gives them up. The tables of [Relay] keep their invariant in every reachable
    state, and the last reachability the caller was told is the node's. *)

From S2P Require Import Prelude Abi Keys Toy Multiaddr AddressBook Libp2p Events NodeState.
From S2P Require Import Calls Inbound Relay Topics Node ToyNode CallsInv NodeInv.
From S2P Require Wire Delegation Limits EventQueue.

Section untouched.
Context {I : Identity} {MA : Multiaddrs I} {H : Handles} {L : Libp2p I MA H}.

(** ** What most handlers leave alone *)

(** The part of the state that belongs to relays and reachability. *)
Definition relay_view (s : State) :=
  (configured s, reachability s, relay_client s, relay_candidates s, reservations s, relay_failed s).

Definition tells (r : EventRecord) : bool := kind_of r =? LP2P_EV_REACHABILITY.

(** The relays are as they were, and the caller was told nothing about its
    reachability. *)
Definition untouched (w w' : World) : Prop :=
  relay_view (w_state w') = relay_view (w_state w) ∧
  ∃ l, w_emitted w' = w_emitted w ++ l ∧ List.filter tells l = [].

#[export] Instance untouched_preorder : PreOrder untouched.
Proof.
  split; [intros w; split; [done|]; exists []; by rewrite app_nil_r|].
  intros w1 w2 w3 (V1 & l1 & E1 & F1) (V2 & l2 & E2 & F2). split; [by rewrite V2|].
  exists (l1 ++ l2). by rewrite E2, E1, app_assoc, List.filter_app, F1, F2.
Qed.

Lemma untouched_same w w' :
  relay_view (w_state w') = relay_view (w_state w) → w_emitted w' = w_emitted w → untouched w w'.
Proof. intros V E. split; [done|]. exists []. by rewrite app_nil_r. Qed.

Lemma untouched_swarm {A} (a : Action A) : respects untouched (swarm a).
Proof. intros w. rewrite run_swarm. by apply untouched_same. Qed.

Lemma untouched_check_limits rq n t : respects untouched (check_limits rq n t).
Proof. intros w. unfold check_limits. destruct (Limits.check _ _ _ _). by apply untouched_same. Qed.

Lemma untouched_may_report t : respects untouched (may_report t).
Proof. intros w. unfold may_report. destruct (Limits.may_report _ _). by apply untouched_same. Qed.

Lemma untouched_allow p t : respects untouched (allow_announcement p t).
Proof. intros w. unfold allow_announcement. destruct (Limits.allow _ _ _). by apply untouched_same. Qed.

Lemma untouched_emit b d :
  (as_u16 (ev_type (header b)) =? LP2P_EV_REACHABILITY) = false → respects untouched (emit (data b d)).
Proof.
  intros Hk w. split; [done|]. exists [data b d]. split; [done|]. cbn. unfold tells. by rewrite kind_of_data, Hk.
Qed.

End untouched.

Create HintDb untouched.

Ltac untouched_step :=
  first
  [ respects_step
  | apply untouched_swarm | apply untouched_check_limits | apply untouched_may_report | apply untouched_allow
  | apply untouched_emit; reflexivity
  | solve [ eauto 1 with untouched nocore ]
  | intros ?; apply untouched_same; reflexivity ].
Ltac untouched := repeat untouched_step.

Section handlers.
Context {I : Identity} {MA : Multiaddrs I} {H : Handles} {L : Libp2p I MA H}.

Lemma untouched_remember_failure p : respects untouched (remember_failure p).
Proof. unfold remember_failure. untouched. Qed.
#[local] Hint Resolve untouched_remember_failure : untouched.

Lemma untouched_provide : respects untouched provide.
Proof. unfold provide. untouched. Qed.
#[local] Hint Resolve untouched_provide : untouched.

Lemma untouched_try_candidates id call l : respects untouched (try_candidates id call l).
Proof. induction l; cbn [try_candidates]; untouched. Qed.
#[local] Hint Resolve untouched_try_candidates : untouched.

Lemma untouched_advance id : respects untouched (advance id).
Proof. unfold advance, remove_call. untouched. Qed.
#[local] Hint Resolve untouched_advance : untouched.

Lemma untouched_enqueue_all local call l : respects untouched (enqueue_all local call l).
Proof. revert call. induction l as [|p l IH]; intros call; cbn [enqueue_all]; unfold enqueue; untouched; apply IH. Qed.
#[local] Hint Resolve untouched_enqueue_all : untouched.

Lemma untouched_expire t : respects untouched (expire t).
Proof. unfold expire, remove_call. untouched. Qed.
#[local] Hint Resolve untouched_expire : untouched.

Lemma untouched_announce : respects untouched announce.
Proof. unfold announce. untouched. Qed.
#[local] Hint Resolve untouched_announce : untouched.

Lemma untouched_topic_lookup k : respects untouched (topic_lookup k).
Proof. unfold topic_lookup. untouched. Qed.
#[local] Hint Resolve untouched_topic_lookup : untouched.

Lemma untouched_dial_members n l : respects untouched (dial_members n l).
Proof. revert n. induction l as [|p l IH]; intros n; cbn [dial_members]; untouched; apply IH. Qed.
#[local] Hint Resolve untouched_dial_members : untouched.

Lemma untouched_command c : respects untouched (command c).
Proof.
  destruct c; cbn [command]; unfold start_call, first_candidates, respond, reject, add_address, bootstrap, random_walk, find_providers,
    provide_key, announce_set_payload, topic_subscribe, topic_unsubscribe, store_topic_count, topic_publish,
    topic_peers, routing_sample; untouched.
Qed.

Lemma untouched_gossipsub_event e : respects untouched (gossipsub_event e).
Proof. unfold gossipsub_event, topic_message, announcement_message. untouched. Qed.

Lemma untouched_kad_event e : respects untouched (kad_event e).
Proof.
  destruct e; cbn [kad_event]; unfold routing_updated, get_providers_progressed, topic_providers,
    dial_topic_members, found_providers, get_closest_peers_progressed, bootstrap_progressed,
    call_providers, queue_found, call_resolved, update_call, iterate_found; untouched.
Qed.

Lemma untouched_rpc_event e : respects untouched (rpc_event e).
Proof.
  destruct e; cbn [rpc_event]; unfold inbound_request, response, response_accepted, outbound_failure,
    inbound_done, update_call; untouched.
Qed.

(** The events that neither the relays nor AutoNAT have a part in. *)
Definition apart (e : SwarmEvent) : bool :=
  match e with
  | ListenerClosed _ | ListenerError _ | IdentifyBehaviour _ _ | AutonatBehaviour _ => false
  | _ => true
  end.

Lemma untouched_swarm_event e : apart e = true → respects untouched (swarm_event e).
Proof.
  destruct e; try done; intros _; cbn [swarm_event];
    first [ apply untouched_kad_event | apply untouched_rpc_event | apply untouched_gossipsub_event
          | unfold new_listen_addr, expired_listen_addr, connection_established, connection_closed, hole_punch;
            try match goal with outcome : result ConnectionId bytes |- _ => destruct outcome end; untouched ].
Qed.

End handlers.

Section invariant.
Context {I : Identity} {MA : Multiaddrs I} {H : Handles} {L : Libp2p I MA H} {LL : Libp2pLaws L}.
Context (config : Config).

(** ** The invariant *)

Record relay_inv (s : State) : Prop := mk_relay_inv {
  ri_configured : configured s = cfg_reachability config;
  ri_client : relay_client s = rc_client (cfg_relay config);
  ri_pinned : configured s ≠ Unknown → reachability s = configured s;
  ri_private : reservations s ≠ ∅ → reachability s = Private ∧ relay_client s = true;
  ri_reservations : dom (reservations s) ⊆ dom (relay_candidates s);
  ri_failed : dom (relay_failed s) ⊆ dom (relay_candidates s);
}.

Definition keeps_relay (w w' : World) : Prop := relay_inv (w_state w) → relay_inv (w_state w').

#[export] Instance keeps_relay_preorder : PreOrder keeps_relay.
Proof. split; [intros w Hw; exact Hw|]. intros w1 w2 w3 H1 H2 Hw. by apply H2, H1. Qed.

Lemma relay_inv_view s s' : relay_view s' = relay_view s → relay_inv s → relay_inv s'.
Proof. intros [= E1 E2 E3 E4 E5 E6] [A1 A2 A3 A4 A5 A6]. split; rewrite ?E1, ?E2, ?E3, ?E4, ?E5, ?E6; done. Qed.

Lemma keeps_untouched {A} (m : M A) : respects untouched m → respects keeps_relay m.
Proof. intros Hm w. destruct (Hm w) as [V _]. exact (relay_inv_view _ _ V). Qed.

(** A node that is private and may use relays. *)
Definition may_relay (s : State) : Prop := reachability s = Private ∧ relay_client s = true.

(** Reservations on candidates, while the node may have any. *)
Lemma keeps_reserve_on t l w :
  relay_inv (w_state w) → may_relay (w_state w) →
  Forall (fun e : PeerId * Multiaddr => e.1 ∈ dom (relay_candidates (w_state w))) l →
  relay_inv (w_state (reserve_on t l w).2).
Proof.
  revert w. induction l as [|[p a] l IH]; intros w Hinv Hmay Hl; [done|]. cbn [reserve_on].
  apply Forall_cons in Hl as [Hp Hl]. cbn [fst] in Hp. rewrite run_bind, run_gets. cbn [fst snd].
  destruct (Z.leb_spec MAX_RESERVATIONS (Z.of_nat (size (reservations (w_state w))))); [done|].
  rewrite run_bind, run_swarm. cbn [fst snd]. rewrite run_bind.
  destruct (act (ListenOn (circuit_address p a)) (w_swarm w)) as [[listener|] sw]; cbn [fst snd]; rewrite run_modify; cbn [fst snd].
  all: apply IH; [|exact Hmay|exact Hl]; destruct Hinv as [A1 A2 A3 A4 A5 A6]; split; try done; cbn.
  - rewrite dom_insert_L. set_solver.
  - rewrite dom_insert_L. set_solver.
Qed.

Lemma hash_order_elem n {A} (l : list A) x : x ∈ hash_order n l → x ∈ l.
Proof. by rewrite hash_order_perm. Qed.

Lemma keeps_reserve : respects keeps_relay reserve.
Proof.
  intros w Hinv. unfold reserve. rewrite run_bind, run_gets. cbn [fst snd].
  destruct (negb (is_private (w_state w)) || _ || _) eqn:Eg; [done|].
  apply orb_false_iff in Eg as [[Hp%negb_false_iff Hc%negb_false_iff]%orb_false_iff _].
  unfold is_private in Hp. apply bool_decide_eq_true in Hp.
  rewrite run_bind. unfold now at 1. cbn [fst snd]. rewrite run_bind. unfold iterate at 1. cbn [fst snd].
  apply keeps_reserve_on; [exact Hinv|by split|].
  apply Forall_forall. intros [p a] Hin. cbn [fst].
  apply list_elem_of_In, filter_In in Hin as [Hin _]. apply list_elem_of_In, hash_order_elem, elem_of_map_to_list in Hin.
  by apply elem_of_dom_2 in Hin.
Qed.

(** A failed relay is a candidate, too. *)
Lemma keeps_lost l w :
  relay_inv (w_state w) → Forall (fun p => p ∈ dom (relay_candidates (w_state w))) l →
  relay_inv (w_state (for_each l (fun peer =>
    modify (fun s => s <| reservations ::= delete peer |>);;
    t <- now;
    modify (fun s => s <| relay_failed ::= insert peer t |>)) w).2).
Proof.
  revert w. induction l as [|p l IH]; intros w Hinv Hl; [done|]. apply Forall_cons in Hl as [Hp Hl].
  cbn [for_each]. rewrite run_bind. apply IH; [|exact Hl].
  rewrite run_bind, run_modify. cbn [fst snd]. rewrite run_bind. unfold now at 1. cbn [fst snd]. rewrite run_modify.
  destruct Hinv as [A1 A2 A3 A4 A5 A6]. split; try done; cbn.
  - intros Hne. apply A4. intros E. apply Hne. by rewrite E, delete_empty.
  - rewrite dom_delete_L. set_solver.
  - rewrite dom_insert_L. set_solver.
Qed.

Lemma keeps_relay_lost listener : respects keeps_relay (relay_lost listener).
Proof.
  intros w Hinv. unfold relay_lost. rewrite run_bind, run_gets. cbn [fst snd]. rewrite run_bind.
  unfold iterate at 1. cbn [fst snd]. apply keeps_lost; [exact Hinv|].
  apply Forall_forall. intros p ([p' x] & -> & Hin)%list_elem_of_fmap. cbn [fst].
  apply list_elem_of_In, filter_In in Hin as [Hin _]. apply list_elem_of_In, hash_order_elem, elem_of_map_to_list in Hin.
  apply (ri_reservations _ Hinv). by apply elem_of_dom_2 in Hin.
Qed.
Lemma keeps_identified peer info : respects keeps_relay (identified peer info).
Proof.
  intros w. unfold identified. rewrite run_bind, run_gets. cbn [fst snd]. cbv zeta.
  apply respects_after; [exact _| |].
  - destruct (info_offers_relay info && _); [|exact (fun x => x)].
    destruct (relay_address (w_state w) peer info); [|exact (fun x => x)].
    intros [A1 A2 A3 A4 A5 A6]. split; try done; cbn; rewrite dom_insert_L; set_solver.
  - intros _. apply respects_bind; [exact _|apply keeps_untouched; untouched|]. intros _. apply keeps_reserve.
Qed.

(** What [nat_status] does when it changes the reachability. *)
Definition change_reachability (next : Reachability) (was_private : bool) : M () :=
  modify (fun s => s <| reachability := next |>);;
  (if bool_decide (next = Private) then become_private else when was_private become_public).

Lemma keeps_become_private : respects keeps_relay become_private.
Proof.
  unfold become_private. apply respects_bind; [exact _|apply keeps_untouched; untouched|]. intros a.
  apply respects_bind; [exact _|apply keeps_untouched; untouched|]. intros _. apply keeps_reserve.
Qed.

(** Becoming public gives all reservations up. *)
Lemma become_public_view w :
  let s := w_state w in let s' := w_state (become_public w).2 in
  relay_view s' = (configured s, reachability s, relay_client s, relay_candidates s, ∅, relay_failed s) ∧
  ∃ l, w_emitted (become_public w).2 = w_emitted w ++ l ∧ List.filter tells l = [].
Proof.
  unfold become_public. rewrite run_bind, run_gets. cbn [fst snd]. rewrite run_bind.
  assert (untouched w (iterate_set (listening (w_state w)) w).2) as U1 by (by apply untouched_same).
  destruct (iterate_set _ w) as [addresses w1]. cbn [fst snd] in *. rewrite run_bind.
  match goal with |- context [for_each addresses ?b w1] =>
    assert (untouched w1 (for_each addresses b w1).2) as U2 end.
  { match goal with |- untouched w1 (?m w1).2 => assert (respects untouched m) as U by untouched end. apply U. }
  destruct (for_each addresses _ w1) as [[] w2]. cbn [fst snd] in *. rewrite run_bind. unfold get_swarm, read. cbn [fst snd].
  rewrite run_bind.
  match goal with |- context [for_each ?l ?b w2] =>
    assert (untouched w2 (for_each l b w2).2) as U3 end.
  { match goal with |- untouched w2 (?m w2).2 => assert (respects untouched m) as U by untouched end. apply U. }
  destruct (for_each _ _ w2) as [[] w3]. cbn [fst snd] in *. rewrite run_bind.
  assert (untouched w3 (iterate (reservations (w_state w)) w3).2) as U4 by (by apply untouched_same).
  destruct (iterate _ w3) as [held w4]. cbn [fst snd] in *. rewrite run_bind, run_modify. cbn [fst snd].
  match goal with |- context [for_each held ?b ?w5] =>
    assert (untouched w5 (for_each held b w5).2) as (V5 & l & E & F) end.
  { match goal with |- untouched ?w5 (?m ?w5).2 => assert (respects untouched m) as U by untouched end. apply U. }
  assert (untouched w w4) as (V4 & l' & E' & F') by (do 3 (etransitivity; [eassumption|]); done).
  rewrite V5, E. cbn [w_emitted upd]. split.
  - unfold relay_view in V4 |- *. cbn. injection V4 as -> -> -> -> _ ->. done.
  - exists (l' ++ l). by rewrite E', app_assoc, List.filter_app, F, F'.
Qed.
(** The verdict that changes something. *)
Definition verdict_of (s : State) (status : NatStatus) : option Reachability :=
  if bool_decide (configured s = Unknown) then
    match status with
    | NatPublic => if bool_decide (reachability s = Public) then None else Some Public
    | NatPrivate => if bool_decide (reachability s = Private) then None else Some Private
    | NatUnknown => None
    end
  else None.

Definition report_reachability (next : Reachability) : M () :=
  peers <- get_swarm connected_peers;
  swarm (IdentifyPush peers);;
  modify (fun s => s <| provide_due := true |>);;
  emit (reachability_event (reachability_reason next)).

Lemma bind_assoc {A C D} (m : M A) (k : A → M C) (k' : C → M D) w :
  bind (bind m k) k' w = bind m (fun a => bind (k a) k') w.
Proof. unfold bind. by destruct (m w). Qed.

Lemma nat_status_run status w :
  nat_status status w =
  match verdict_of (w_state w) status with
  | None => ((), w)
  | Some next => (change_reachability next (is_private (w_state w));; report_reachability next) w
  end.
Proof.
  unfold nat_status, verdict_of, change_reachability, report_reachability. rewrite run_bind, run_gets. cbn [fst snd].
  destruct (decide (configured (w_state w) = Unknown)) as [Hc|Hc].
  2:{ by rewrite bool_decide_eq_false_2 by done. }
  rewrite bool_decide_eq_true_2 by done. cbn [negb].
  destruct status; cbn.
  - destruct (decide (reachability (w_state w) = Public)) as [Hr|Hr].
    + rewrite !bool_decide_eq_true_2 by done. done.
    + rewrite !(bool_decide_eq_false_2 _ Hr), bool_decide_eq_false_2 by congruence. by rewrite bind_assoc.
  - destruct (decide (reachability (w_state w) = Private)) as [Hr|Hr].
    + rewrite !bool_decide_eq_true_2 by done. done.
    + rewrite !(bool_decide_eq_false_2 _ Hr), bool_decide_eq_false_2 by congruence. by rewrite bind_assoc.
  - done.
Qed.

Lemma keeps_change next w :
  verdict_of (w_state w) (match next with Public => NatPublic | _ => NatPrivate end) = Some next →
  keeps_relay w (change_reachability next (is_private (w_state w)) w).2.
Proof.
  intros Hv Hinv. unfold change_reachability. rewrite run_bind, run_modify. cbn [fst snd].
  unfold verdict_of in Hv. destruct (decide (configured (w_state w) = Unknown)) as [Hc|Hc].
  2:{ by rewrite bool_decide_eq_false_2 in Hv by done. }
  destruct Hinv as [A1 A2 A3 A4 A5 A6]. destruct (decide (next = Private)) as [->|Hn].
  - rewrite bool_decide_eq_true_2 by done. apply keeps_become_private. split; try done; cbn.
    intros Hne. by destruct (A4 Hne).
  - rewrite bool_decide_eq_false_2 by done. destruct (is_private (w_state w)) eqn:Ep; cbn [when].
    + match goal with |- relay_inv (w_state (become_public ?w1).2) =>
        destruct (become_public_view w1) as [V _]; set (w2 := (become_public w1).2) in * end.
      injection V as V1 V2 V3 V4 V5 V6. split; rewrite ?V1, ?V2, ?V3, ?V4, ?V5, ?V6; cbn; try done.
    + split; try done; cbn. intros Hne. destruct (A4 Hne) as [Hp _].
      unfold is_private in Ep. by rewrite bool_decide_eq_true_2 in Ep.
Qed.

Lemma untouched_report next : respects keeps_relay (report_reachability next).
Proof.
  intros w Hinv. unfold report_reachability. rewrite run_bind. unfold get_swarm, read. cbn [fst snd].
  rewrite run_bind, run_swarm. cbn [fst snd]. rewrite run_bind, run_modify. cbn [fst snd].
  by apply (relay_inv_view (w_state w)).
Qed.

Lemma keeps_nat_status status : respects keeps_relay (nat_status status).
Proof.
  intros w. rewrite nat_status_run. destruct (verdict_of (w_state w) status) as [next|] eqn:Hv; [|exact (fun x => x)].
  apply respects_after; [exact _| |intros; apply untouched_report].
  apply keeps_change. rewrite <- Hv. unfold verdict_of in *. destruct (bool_decide _); [|done].
  destruct status; [| |done]; destruct (bool_decide _); try done; by injection Hv as <-.
Qed.

Lemma reservations_tick : respects keeps_relay tick.
Proof.
  unfold tick. apply respects_bind; [exact _|apply keeps_untouched; untouched|]. intros t.
  apply respects_bind; [exact _|apply keeps_untouched, untouched_expire|]. intros _.
  apply respects_bind; [exact _|apply keeps_reserve|]. intros _.
  apply keeps_untouched. repeat (untouched_step || apply untouched_announce || apply untouched_topic_lookup || apply untouched_provide).
Qed.

Lemma keeps_step input : respects keeps_relay (step input).
Proof.
  destruct input as [c| |e|]; cbn [step].
  - apply keeps_untouched, untouched_command.
  - apply respects_ret, _.
  - apply respects_bind; [exact _| |intros; apply respects_ret, _].
    destruct (apart e) eqn:Ha; [by apply keeps_untouched, untouched_swarm_event|].
    destruct e; try done; cbn [swarm_event];
      [apply keeps_relay_lost|apply keeps_relay_lost|apply keeps_identified|apply keeps_nat_status].
  - apply respects_bind; [exact _|apply reservations_tick|intros; apply respects_ret, _].
Qed.

Lemma reachable_relay used w : reachable config used w → relay_inv (w_state w).
Proof.
  induction 1 as [w ((local & t & Hs) & _)|used w w' Hr Hb He|used w Hr Hb|used w input Hr Hb Hin].
  - rewrite Hs. split; cbn; done.
  - by rewrite (env_state _ _ He).
  - unfold get_ready. rewrite run_bind.
    match goal with |- relay_inv (w_state (provide ?w1).2) => destruct (untouched_provide w1) as [V _] end.
    exact (relay_inv_view _ _ V Hb).
  - revert Hb. apply keeps_step.
Qed.
(** ** What the caller was told *)

(** The node's reachability is as it was, and nothing was told about it. *)
Definition same_reach (w w' : World) : Prop :=
  reachability (w_state w') = reachability (w_state w) ∧
  ∃ l, w_emitted w' = w_emitted w ++ l ∧ List.filter tells l = [].

#[export] Instance same_reach_preorder : PreOrder same_reach.
Proof.
  split; [intros w; split; [done|]; exists []; by rewrite app_nil_r|].
  intros w1 w2 w3 (V1 & l1 & E1 & F1) (V2 & l2 & E2 & F2). split; [by rewrite V2|].
  exists (l1 ++ l2). by rewrite E2, E1, app_assoc, List.filter_app, F1, F2.
Qed.

Lemma same_untouched {A} (m : M A) : respects untouched m → respects same_reach m.
Proof. intros Hm w. destruct (Hm w) as [V E]. split; [by injection V|done]. Qed.

Lemma same_modify f : (∀ s, reachability (f s) = reachability s) → respects same_reach (modify f).
Proof. intros Hf w. split; [apply Hf|]. exists []. by rewrite app_nil_r. Qed.

Ltac same_step :=
  first
  [ respects_step | apply same_modify; reflexivity
  | apply same_untouched; solve [untouched] | intros ?; apply untouched_same; reflexivity ].

Lemma same_reserve_on t l : respects same_reach (reserve_on t l).
Proof. induction l as [|[p a] l IH]; cbn [reserve_on]; repeat (same_step || apply IH). Qed.

Lemma same_reserve : respects same_reach reserve.
Proof. unfold reserve. repeat (same_step || apply same_reserve_on). Qed.

Lemma same_relay_lost l : respects same_reach (relay_lost l).
Proof. unfold relay_lost. repeat same_step. Qed.

Lemma same_identified p info : respects same_reach (identified p info).
Proof. unfold identified. repeat (apply same_reserve || same_step). Qed.

Lemma same_become_private : respects same_reach become_private.
Proof. unfold become_private. repeat (apply same_reserve || same_step). Qed.

Lemma same_tick : respects same_reach tick.
Proof.
  unfold tick. apply respects_bind; [exact _|apply same_untouched; untouched|]. intros t.
  apply respects_bind; [exact _|apply same_untouched, untouched_expire|]. intros _.
  apply respects_bind; [exact _|apply same_reserve|]. intros _.
  apply same_untouched. repeat (untouched_step || apply untouched_announce || apply untouched_topic_lookup || apply untouched_provide).
Qed.

(** Every input but a verdict of AutoNAT. *)
Lemma same_step_input input :
  (∀ status, input ≠ InSwarm (AutonatBehaviour status)) → respects same_reach (step input).
Proof.
  intros Hin. destruct input as [c| |e|]; cbn [step].
  - apply same_untouched, untouched_command.
  - apply respects_ret, _.
  - apply respects_bind; [exact _| |intros; apply respects_ret, _].
    destruct (apart e) eqn:Ha; [by apply same_untouched, untouched_swarm_event|].
    destruct e; try done; cbn [swarm_event]; [apply same_relay_lost|apply same_relay_lost|apply same_identified|].
    by destruct (Hin new).
  - apply respects_bind; [exact _|apply same_tick|intros; apply respects_ret, _].
Qed.

(** The last REACHABILITY record the caller was handed. *)
Definition told (w : World) : option EventRecord := last (List.filter tells (w_emitted w)).

Definition reachability_record (r : Reachability) : EventRecord := reachability_event (reachability_reason r).

Lemma told_same w w' : same_reach w w' → told w' = told w ∧ reachability (w_state w') = reachability (w_state w).
Proof. intros (V & l & E & F). split; [|done]. unfold told. by rewrite E, List.filter_app, F, app_nil_r. Qed.

Lemma tells_reachability r : tells (reachability_record r) = true.
Proof. unfold tells, reachability_record, reachability_event, build. rewrite kind_of_data. done. Qed.

Lemma report_tells next w :
  reachability (w_state (report_reachability next w).2) = reachability (w_state w) ∧
  w_emitted (report_reachability next w).2 = w_emitted w ++ [reachability_record next].
Proof.
  unfold report_reachability. rewrite run_bind. unfold get_swarm, read. cbn [fst snd].
  rewrite run_bind, run_swarm. cbn [fst snd]. rewrite run_bind, run_modify. done.
Qed.

Lemma change_reaches next was_private w :
  reachability (w_state (change_reachability next was_private w).2) = next.
Proof.
  unfold change_reachability. rewrite run_bind, run_modify. cbn [fst snd].
  destruct (bool_decide (next = Private)).
  - match goal with |- reachability (w_state (become_private ?w1).2) = _ => destruct (same_become_private w1) as [V _] end.
    exact V.
  - destruct was_private; [|done]. cbn [when].
    match goal with |- reachability (w_state (become_public ?w1).2) = _ => destruct (become_public_view w1) as [V _] end.
    by injection V.
Qed.
(** ** Properties *)

(** C22: reservations on relays, in every reachable state. Only a node that is
    private and may use relays holds any, on peers that offered to relay; the
    relays it leaves alone after a failure are such peers, too, so that neither
    table outgrows the candidates; and a node whose reachability was configured
    keeps it. *)
Theorem relay_reservations used w :
  reachable config used w →
  let s := w_state w in
  (reservations s ≠ ∅ → reachability s = Private ∧ rc_client (cfg_relay config) = true) ∧
  dom (reservations s) ⊆ dom (relay_candidates s) ∧ dom (relay_failed s) ⊆ dom (relay_candidates s) ∧
  Z.of_nat (size (relay_failed s)) ≤ Z.of_nat (size (relay_candidates s)) ∧
  (cfg_reachability config ≠ Unknown → reachability s = cfg_reachability config).
Proof.
  intros Hr. destruct (reachable_relay _ _ Hr) as [A1 A2 A3 A4 A5 A6]. cbv zeta.
  rewrite <- A2, <- A1. split_and!; try done.
  rewrite <- !size_dom. apply inj_le, subseteq_size. done.
Qed.

(** C21: the caller knows the node's reachability. The thread tells it the
    configured one before its loop; when the last reachability the caller was
    handed is the node's, it still is after every input; and only a verdict of
    AutoNAT changes it, to what the verdict says, on a node that was configured
    as unknown. *)
Theorem reachability_told used input w :
  reachable config used w →
  let w' := (step input w).2 in
  told (get_ready config w).2 = Some (reachability_record (cfg_reachability config)) ∧
  (told w = Some (reachability_record (reachability (w_state w))) →
   told w' = Some (reachability_record (reachability (w_state w')))) ∧
  (reachability (w_state w') ≠ reachability (w_state w) →
   cfg_reachability config = Unknown ∧
   ∃ status, input = InSwarm (AutonatBehaviour status) ∧
     match status with
     | NatPublic => reachability (w_state w') = Public
     | NatPrivate => reachability (w_state w') = Private
     | NatUnknown => False
     end).
Proof.
  intros Hr. cbv zeta. split.
  { unfold get_ready. rewrite run_bind.
    match goal with |- told (provide ?w1).2 = _ => destruct (untouched_provide w1) as (_ & l & E & F) end.
    unfold told. rewrite E, List.filter_app, F, app_nil_r. unfold emit. cbn [fst snd w_emitted upd].
    rewrite List.filter_app. cbn [List.filter]. change (tells _) with (tells (reachability_record (cfg_reachability config))).
    rewrite tells_reachability. apply last_snoc. }
  assert ((∃ status, input = InSwarm (AutonatBehaviour status)) ∨ ∀ status, input ≠ InSwarm (AutonatBehaviour status))
    as [[status ->]|Hno] by (destruct input as [| |[]|]; eauto).
  2:{ destruct (told_same _ _ (same_step_input input Hno w)) as [-> ->]. by split. }
  cbn [step swarm_event]. rewrite run_bind. cbn [ret snd]. rewrite nat_status_run.
  destruct (verdict_of (w_state w) status) as [next|] eqn:Hv; [|done]. cbn [snd]. rewrite run_bind.
  destruct (report_tells next (change_reachability next (is_private (w_state w)) w).2) as [Hreach Hemit].
  rewrite Hreach, change_reaches. split.
  - intros _. unfold told. rewrite Hemit, List.filter_app. cbn [List.filter]. rewrite tells_reachability. apply last_snoc.
  - intros _. pose proof (ri_configured _ (reachable_relay _ _ Hr)) as Hc. unfold verdict_of in Hv.
    destruct (decide (configured (w_state w) = Unknown)) as [Hu|Hu]; [|by rewrite bool_decide_eq_false_2 in Hv].
    split; [congruence|]. exists status. split; [done|]. rewrite bool_decide_eq_true_2 in Hv by done.
    destruct status; [| |done]; destruct (bool_decide _); try done; by injection Hv.
Qed.

End invariant.

(** ** Witnesses

    A node configured as unknown meets a relay at 10.0.0.1, and AutoNAT finds it
    private: it reserves. Then AutoNAT finds it public. *)

Definition toy_unknown_config : Config := toy_config <| cfg_reachability := Unknown |>.

Definition toy_unknown : World :=
  (get_ready toy_unknown_config
     (toy_start <| w_state := new_state toy_unknown_config (toy_peer x11) 0 |>)).2.

Definition toy_relay_address : Multiaddr := collect [Ip4 (array_fill 4 x0a)].

Definition toy_offer : Input :=
  InSwarm (IdentifyBehaviour (toy_peer x44) (mk_info [] true [toy_relay_address])).
Definition toy_verdict (status : NatStatus) : Input := InSwarm (AutonatBehaviour status).

Definition toy_offered : World := (step toy_offer toy_unknown).2.
Definition toy_private : World := (step (toy_verdict NatPrivate) toy_offered).2.
Definition toy_public : World := (step (toy_verdict NatPublic) toy_private).2.

Lemma toy_quiet_reachable w input : call_ids input = ∅ → (∀ id g n p b t, input ≠ InCommand (Rpc id g n p b t)) →
  reachable toy_unknown_config ∅ w → reachable toy_unknown_config ∅ (step input w).2.
Proof.
  intros E Hno Hr. rewrite <- (left_id_L ∅ union ∅). rewrite <- E at 1. apply reach_step; [exact Hr|].
  by destruct input as [[]| | |].
Qed.

Lemma toy_private_reachable : reachable toy_unknown_config ∅ toy_private.
Proof.
  apply toy_quiet_reachable; [done|done|]. apply toy_quiet_reachable; [done|done|].
  apply reach_ready, reach_start. split; [|done]. by exists (toy_peer x11), 0.
Qed.

Lemma size_one {K A} `{Countable K} (m : gmap K A) : size m = 1%nat → m ≠ ∅.
Proof. intros Hs ->. by rewrite map_size_empty in Hs. Qed.

Lemma relay_reservations_witness :
  size (reservations (w_state toy_private)) = 1%nat ∧ reachability (w_state toy_private) = Private.
Proof.
  assert (size (reservations (w_state toy_private)) = 1%nat) as Hs by (vm_compute; reflexivity). split; [exact Hs|].
  destruct (relay_reservations toy_unknown_config ∅ toy_private toy_private_reachable) as (Hp & _).
  apply Hp. exact (size_one _ Hs).
Defined.

Lemma reachability_told_witness :
  told toy_private = Some (reachability_record Private) ∧ told toy_public = Some (reachability_record Public) ∧
  reservations (w_state toy_public) = ∅.
Proof.
  assert (told toy_private = Some (reachability_record Private)) as H1 by (vm_compute; reflexivity).
  split; [exact H1|].
  destruct (reachability_told toy_unknown_config ∅ (toy_verdict NatPublic) toy_private toy_private_reachable) as (_ & H2 & _).
  assert (reachability (w_state toy_private) = Private) as H3 by (vm_compute; reflexivity).
  rewrite H3 in H2. specialize (H2 H1).
  assert (reachability (w_state (step (toy_verdict NatPublic) toy_private).2) = Public) as H4 by (vm_compute; reflexivity).
  rewrite H4 in H2. split; [exact H2|]. apply map_size_empty_inv. vm_compute. reflexivity.
Defined.
