(* ===== verification/Trace.v ===== *)
(** * Trace: what the node does to the network, over its whole life

    Any platform can be instrumented: [traced L] is [L] with a log of the calls
    that hand something to another node or to gossipsub. The theorems here are
    about the log after any sequence of inputs: every channel of a request is
    answered at most once, by the answer of the caller it was handed to; every
    gossip message is judged exactly once; the topics gossipsub follows are those
    of the table and that of the announcements; and no request goes out that the caller did not ask for, nor to
    a node other than the one it named. *)

From Stdlib Require Import Permutation.
From S2P Require Import Prelude Abi Keys Multiaddr AddressBook Libp2p Events NodeState.
From S2P Require Import Toy Calls Inbound Relay Topics Node ToyNode CallsInv NodeInv Emissions Authentic Bounds.
From S2P Require Wire Delegation Limits EventQueue Build.

(** ** The instrumented platform *)

Section notes.
Context {I : Identity} {MA : Multiaddrs I} {H : Handles}.

Inductive Note :=
| Answered (channel : ResponseChannel) (frame : bytes)
| Requested (peer : PeerId) (frame : bytes)
| Validated (message : MessageId) (source : PeerId) (acceptance : MessageAcceptance)
| Following (topic : IdentTopic)
| Unfollowed (topic : IdentTopic)
| Published (topic : IdentTopic) (frame : bytes).

(** What a call of the node is noted as, with the swarm's answer. *)
Definition note {A} (a : Action A) : A → list Note :=
  match a in Action A return A → list Note with
  | SendResponse channel frame => fun _ => [Answered channel frame]
  | SendRequest peer frame => fun _ => [Requested peer frame]
  | ReportValidation message source acceptance => fun _ => [Validated message source acceptance]
  | Subscribe topic => fun subscribed => if subscribed : bool then [Following topic] else []
  | Unsubscribe topic => fun _ => [Unfollowed topic]
  | Publish topic frame => fun answer => if is_err answer then [] else [Published topic frame]
  | _ => fun _ => []
  end.

Definition traced (L : Libp2p I MA H) : Libp2p I MA H := {|
  Swarm := Swarm * list Note;
  act A a s := let '(x, s') := act a s.1 in (x, (s', s.2 ++ note a x));
  is_connected s := is_connected s.1;
  connected_peers s := connected_peers s.1;
  external_addresses s := external_addresses s.1;
  kbuckets s := kbuckets s.1;
  mesh_peers s := mesh_peers s.1;
  num_peers s := num_peers s.1;
  topic_hash := topic_hash;
  sha256 := sha256;
  instant_at := instant_at;
  system_time_at := system_time_at;
  hash_order := @hash_order _ _ _ L;
|}.

(** It keeps the platform's promises. *)
#[export] Instance traced_laws (L : Libp2p I MA H) (LL : Libp2pLaws L) : Libp2pLaws (traced L).
Proof.
  refine {| queries := fun s : @Swarm _ _ _ (traced L) => queries s.1;
            requests := fun s : @Swarm _ _ _ (traced L) => requests s.1 |}.
  - intros A a [s l]. cbn. pose proof (act_queries a s). by destruct (act a s).
  - intros A a [s l]. cbn. pose proof (act_requests a s). by destruct (act a s).
  - exact (@topic_hash_inj _ _ _ L LL).
  - exact (@instant_monotone _ _ _ L LL).
  - exact (@hash_order_perm _ _ _ L LL).
Defined.

(** ** Readings of the log *)

Definition answers (l : list Note) : list (ResponseChannel * bytes) :=
  omap (fun n => match n with Answered c f => Some (c, f) | _ => None end) l.
Definition requested (l : list Note) : list (PeerId * bytes) :=
  omap (fun n => match n with Requested p f => Some (p, f) | _ => None end) l.
Definition verdicts (l : list Note) : list (MessageId * PeerId) :=
  omap (fun n => match n with Validated m s _ => Some (m, s) | _ => None end) l.

(** The topics gossipsub was told to follow and not to leave since. *)
Definition follow (s : gset IdentTopic) (n : Note) : gset IdentTopic :=
  match n with Following t => {[t]} ∪ s | Unfollowed t => s ∖ {[t]} | _ => s end.
Definition followed (l : list Note) : gset IdentTopic := foldl follow ∅ l.

(** The log without what the node sends of its own accord. *)
Definition is_sent (n : Note) : bool := match n with Requested _ _ | Published _ _ => true | _ => false end.
Definition marks (l : list Note) : list Note := List.filter (fun n => negb (is_sent n)) l.

Lemma marks_app l l' : marks (l ++ l') = marks l ++ marks l'.
Proof. apply List.filter_app. Qed.

Lemma answers_marks l : answers (marks l) = answers l.
Proof. unfold answers, marks. induction l as [|[] l IH]; cbn in *; by rewrite ?IH. Qed.
Lemma verdicts_marks l : verdicts (marks l) = verdicts l.
Proof. unfold verdicts, marks. induction l as [|[] l IH]; cbn in *; by rewrite ?IH. Qed.
Lemma followed_marks l : followed (marks l) = followed l.
Proof.
  unfold followed, marks. generalize (∅ : gset IdentTopic). induction l as [|[] l IH]; intros s; cbn; by rewrite ?IH.
Qed.

End notes.

(** ** Handlers and the log *)

Create HintDb same.

Section trace.
Context {I : Identity} {MA : Multiaddrs I} {H : Handles} {L0 : Libp2p I MA H} {LL0 : Libp2pLaws L0}.

#[local] Instance instrumented : Libp2p I MA H := traced L0.
#[local] Instance instrumented_laws : Libp2pLaws instrumented := traced_laws L0 LL0.

Definition trace (w : World) : list Note := (w_swarm w).2.

Lemma trace_swarm {A} (a : Action A) w : trace (swarm a w).2 = trace w ++ note a (swarm a w).1.
Proof. unfold trace. rewrite run_swarm. cbn. by destruct (act a (w_swarm w).1). Qed.

(** A handler that leaves a part of the world as it is. *)
Definition same {T} (view : World → T) (w w' : World) : Prop := view w' = view w.

#[export] Instance same_preorder {T} (view : World → T) : PreOrder (same view).
Proof. split; [by intros w|]. intros w1 w2 w3 E1 E2. unfold same in *. congruence. Qed.

(** What only the requests of other nodes, the topics and gossip change. *)
Definition dealings (w : World) :=
  (inbound (w_state w), ts_topic <$> topics (w_state w), topics_subscribed (w_shared w), marks (trace w), next_id (w_shared w)).

(** What only the caller's calls change. *)
Definition asking (w : World) := (calls (w_state w), requested (trace w)).

Definition everything (w : World) := (dealings w, asking w).

Lemma same_dealings_swarm {A} (a : Action A) : (∀ x, marks (note a x) = []) → respects (same dealings) (swarm a).
Proof.
  intros Ha w. unfold same, dealings. rewrite trace_swarm, run_swarm. cbn [fst snd w_state w_shared upd].
  by rewrite marks_app, Ha, app_nil_r.
Qed.

Lemma same_asking_swarm {A} (a : Action A) : (∀ x, requested (note a x) = []) → respects (same asking) (swarm a).
Proof.
  intros Ha w. unfold same, asking. rewrite trace_swarm, run_swarm. cbn [fst snd w_state upd].
  unfold requested in *. by rewrite omap_app, Ha, app_nil_r.
Qed.

Lemma same_everything_swarm {A} (a : Action A) :
  (∀ x, marks (note a x) = [] ∧ requested (note a x) = []) → respects (same everything) (swarm a).
Proof.
  intros Ha w. unfold same, everything. f_equal; [apply same_dealings_swarm|apply same_asking_swarm]; intros x; apply Ha.
Qed.

Lemma dealings_everything {A} (m : M A) : respects (same everything) m → respects (same dealings) m.
Proof. intros Hm w. specialize (Hm w). unfold same, everything in *. congruence. Qed.

Lemma asking_everything {A} (m : M A) : respects (same everything) m → respects (same asking) m.
Proof. intros Hm w. specialize (Hm w). unfold same, everything in *. congruence. Qed.

Lemma same_check_limits {T} (view : World → T) rq n t :
  (∀ w l, view (w <| w_state ::= fun s => s <| limits := l |> |>) = view w) → respects (same view) (check_limits rq n t).
Proof. intros Hv w. unfold check_limits. destruct (Limits.check _ _ _ _). apply Hv. Qed.

Lemma same_may_report {T} (view : World → T) t :
  (∀ w l, view (w <| w_state ::= fun s => s <| limits := l |> |>) = view w) → respects (same view) (may_report t).
Proof. intros Hv w. unfold may_report. destruct (Limits.may_report _ _). apply Hv. Qed.

Lemma same_allow {T} (view : World → T) p t :
  (∀ w r, view (w <| w_state ::= fun s => s <| announce_rate := r |> |>) = view w) → respects (same view) (allow_announcement p t).
Proof. intros Hv w. unfold allow_announcement. destruct (Limits.allow _ _ _). apply Hv. Qed.

Ltac swarm_noted := first [reflexivity | intros []; first [reflexivity | split; reflexivity] | intros ?; first [reflexivity | split; reflexivity]].
Ltac same_step :=
  first
  [ respects_step
  | apply same_everything_swarm; swarm_noted
  | apply same_dealings_swarm; swarm_noted
  | apply same_asking_swarm; swarm_noted
  | apply same_check_limits; reflexivity | apply same_may_report; reflexivity | apply same_allow; reflexivity
  | solve [ eauto 1 with same nocore ]
  | apply dealings_everything; solve [ eauto 1 with same nocore ]
  | apply asking_everything; solve [ eauto 1 with same nocore ]
  | intros ?; reflexivity ].
Ltac same := repeat same_step.

(** *** Everybody else *)

Lemma same_remember_failure p : respects (same everything) (remember_failure p).
Proof. unfold remember_failure. same. Qed.
#[local] Hint Resolve same_remember_failure : same.

Lemma same_provide : respects (same everything) provide.
Proof. unfold provide. same. Qed.
#[local] Hint Resolve same_provide : same.

Lemma same_announce : respects (same everything) announce.
Proof. unfold announce. same. Qed.
#[local] Hint Resolve same_announce : same.

Lemma same_looked_up key t :
  respects (same everything) (modify (fun s => s <| topics ::= alter (fun ts => ts <| ts_last_lookup := Some t |>) key |>)).
Proof.
  intros w. set (f := fun ts => ts <| ts_last_lookup := Some t |>).
  assert (ts_topic <$> alter f key (topics (w_state w)) = ts_topic <$> topics (w_state w)) as E.
  { apply map_eq. intros k. rewrite !lookup_fmap. destruct (decide (k = key)) as [->|Hne].
    - rewrite lookup_alter_eq. by destruct (topics (w_state w) !! key).
    - by rewrite lookup_alter_ne. }
  unfold same, everything, dealings, asking. cbn [modify snd w_state w_shared upd inbound topics]. by rewrite E.
Qed.
#[local] Hint Resolve same_looked_up : same.

Lemma same_topic_lookup k : respects (same everything) (topic_lookup k).
Proof. unfold topic_lookup. same. Qed.
#[local] Hint Resolve same_topic_lookup : same.

Lemma same_dial_members n l : respects (same everything) (dial_members n l).
Proof. revert n. induction l as [|p l IH]; intros n; cbn [dial_members]; same; apply IH. Qed.
#[local] Hint Resolve same_dial_members : same.

Lemma same_enqueue_all local call l : respects (same everything) (enqueue_all local call l).
Proof. revert call. induction l as [|p l IH]; intros call; cbn [enqueue_all]; unfold enqueue; same; apply IH. Qed.
#[local] Hint Resolve same_enqueue_all : same.

Lemma noted_reserve_on t l : respects (same everything) (reserve_on t l).
Proof. induction l as [|p l IH]; cbn [reserve_on]; same; apply IH. Qed.
#[local] Hint Resolve noted_reserve_on : same.

Lemma noted_reserve : respects (same everything) reserve.
Proof. unfold reserve. same. Qed.
#[local] Hint Resolve noted_reserve : same.

(** The events that concern neither calls nor dealings with others. *)
Definition aside (e : SwarmEvent) : bool :=
  match e with
  | KadBehaviour (GetProvidersProgressed _ _ _ | GetClosestPeersProgressed _ _) | RpcBehaviour _ | GossipsubBehaviour _ => false
  | _ => true
  end.

Lemma same_kad_event e : aside (KadBehaviour e) = true → respects (same everything) (kad_event e).
Proof. destruct e; try done; intros _; cbn [kad_event]; unfold routing_updated, bootstrap_progressed; same. Qed.

Lemma same_swarm_event e : aside e = true → respects (same everything) (swarm_event e).
Proof.
  destruct e; try done; intros Ha; cbn [swarm_event]; try (by apply same_kad_event);
  unfold new_listen_addr, expired_listen_addr, relay_lost, connection_established, connection_closed, identified, hole_punch,
    nat_status, become_private, become_public;
  try match goal with outcome : result ConnectionId bytes |- _ => destruct outcome end; same.
Qed.

Definition aside_command (c : Command) : bool :=
  match c with
  | Rpc _ _ _ _ _ _ | Respond _ _ | RejectRequest _ | TopicSubscribe _ | TopicUnsubscribe _ => false
  | _ => true
  end.

Lemma same_command c : aside_command c = true → respects (same everything) (command c).
Proof.
  destruct c; try done; intros _; cbn [command]; unfold add_address, bootstrap, random_walk, find_providers, provide_key,
    announce_set_payload, topic_publish, topic_peers, routing_sample; same.
Qed.

(** *** The calls *)

Lemma same_try_candidates id call l : respects (same dealings) (try_candidates id call l).
Proof. induction l; cbn [try_candidates]; same. Qed.
#[local] Hint Resolve same_try_candidates : same.

Lemma same_advance id : respects (same dealings) (advance id).
Proof. unfold advance, remove_call. same. Qed.
#[local] Hint Resolve same_advance : same.

Lemma same_start_call id g n p b t : respects (same dealings) (start_call id g n p b t).
Proof. unfold start_call, first_candidates. same. Qed.

Lemma same_response p r f : respects (same dealings) (response p r f).
Proof. unfold response, response_accepted, update_call. same. Qed.

Lemma same_outbound_failure p r e : respects (same dealings) (outbound_failure p r e).
Proof. unfold outbound_failure, update_call. same. Qed.

Lemma same_expire t : respects (same dealings) (expire t).
Proof. unfold expire, remove_call. same. Qed.
#[local] Hint Resolve same_expire : same.

Lemma noted_tick : respects (same dealings) tick.
Proof. unfold tick. same. Qed.

Lemma same_kad_queries e : respects (same dealings) (kad_event e).
Proof.
  destruct e; try (by apply dealings_everything, same_kad_event); cbn [kad_event];
    unfold get_providers_progressed, topic_providers, dial_topic_members, found_providers, get_closest_peers_progressed,
      call_providers, queue_found, call_resolved, update_call, iterate_found; same.
Qed.

(** *** The dealings with others *)

Lemma same_inbound_request p c r f ch : respects (same asking) (inbound_request p c r f ch).
Proof. unfold inbound_request. same. Qed.

Lemma same_respond id b : respects (same asking) (respond id b).
Proof. unfold respond. same. Qed.

Lemma same_reject id : respects (same asking) (reject id).
Proof. unfold reject. same. Qed.

Lemma same_inbound_done r : respects (same asking) (inbound_done r).
Proof. unfold inbound_done. same. Qed.

Lemma same_topic_subscribe k : respects (same asking) (topic_subscribe k).
Proof. unfold topic_subscribe, store_topic_count. same. Qed.

Lemma same_topic_unsubscribe k : respects (same asking) (topic_unsubscribe k).
Proof. unfold topic_unsubscribe, store_topic_count. same. Qed.

Lemma same_gossipsub_event e : respects (same asking) (gossipsub_event e).
Proof. unfold gossipsub_event, topic_message, announcement_message. same. Qed.

(** *** The loop *)

(** The inputs by which others deal with the node. *)
Definition deals (input : Input) : bool :=
  match input with
  | InCommand (Respond _ _ | RejectRequest _ | TopicSubscribe _ | TopicUnsubscribe _) => true
  | InSwarm (RpcBehaviour (RequestReceived _ _ _ _ _ | InboundFailed _ | ResponseSent _)) => true
  | InSwarm (GossipsubBehaviour _) => true
  | _ => false
  end.

Lemma noted_step_input input : deals input = false → respects (same dealings) (step input).
Proof.
  destruct input as [c| |e|]; intros Hd; cbn [step].
  - destruct c; try done; try (by apply dealings_everything, same_command).
    cbn [command]. apply respects_bind; [exact _|apply same_start_call|]. intros x. apply respects_ret. exact _.
  - apply respects_ret. exact _.
  - apply respects_bind; [exact _| |intros x; apply respects_ret; exact _].
    destruct e as [| | | | | |e| |e| | | |]; try done; try (by apply dealings_everything, same_swarm_event).
    + apply same_kad_queries.
    + destruct e; try done; [apply same_response|apply same_outbound_failure].
  - apply respects_bind; [exact _|apply noted_tick|]. intros x. apply respects_ret. exact _.
Qed.

(** ** Executions *)

(** Whether a step handed the caller a request. *)
Definition hands_over (input : Input) (w : World) : bool :=
  existsb (fun r => kind_of r =? LP2P_EV_RPC_REQUEST) (drop (length (w_emitted w)) (w_emitted (step input w).2)).

(** The id and the channel of the request an input hands over. *)
Definition granted (input : Input) (w : World) : list (Z * ResponseChannel) :=
  match input with
  | InSwarm (RpcBehaviour (RequestReceived _ _ _ _ channel)) =>
      if hands_over input w then [(next_id (w_shared w), channel)] else []
  | _ => []
  end.

(** What a limit, or the block of a group, stopped. *)
Inductive Refusal :=
| RefusedCall (group node : lp2p_key) (protocol reason : Z)
| RefusedMessage (group node : lp2p_key) (reason : Z).

(** What an input makes the node refuse: a request whose frame, sender, delegation
    and protocol are good, or a message on a followed topic that is good for its
    publisher and no longer than allowed, that [Limits::check] answers with a
    reason. *)
Definition refusals (input : Input) (w : World) : list Refusal :=
  let s := w_state w in
  match input with
  | InSwarm (RpcBehaviour (RequestReceived peer connection _ frame _)) =>
      match check_request peer (clock_ms (w_tick w)) (rpc_protocols s) frame with
      | Some (node, group, protocol, _) =>
          match (Limits.check (request_of peer connection group protocol s) (blen frame) (instant_at (S (w_tick w))) (limits s)).1 with
          | Err reason => [RefusedCall group node (as_u16 protocol) reason]
          | Ok _ => []
          end
      | None => []
      end
  | InSwarm (GossipsubBehaviour (MessageReceived source _ m)) =>
      match topic_keys s !! m_topic m, check_message m (clock_ms (S (w_tick w))) with
      | Some _, Some (_, node, group, payload) =>
          if topic_max_message_bytes s <? blen payload then []
          else
            match (Limits.check (Limits.mk_request group source (peer_ips s !! source) LP2P_PROTOCOL_TOPICS)
                                (blen (m_data m)) (instant_at (w_tick w)) (limits s)).1 with
            | Err reason => [RefusedMessage group node reason]
            | Ok _ => []
            end
      | _, _ => []
      end
  | _ => []
  end.

(** The peers the swarm is connected to and those of its routing table. *)
Definition peers_seen (w : World) : Z * Z := (num_peers (w_swarm w), blen (concat (kbuckets (w_swarm w)))).

(** The counters that only the node's thread writes. *)
Definition counters (sh : Shared) : Z * Z * Z * (Z * Z * Z * Z * Z) * (Z * Z) :=
  (rpc_in sh, rpc_out sh, rpc_limited sh, (topic_in sh, topic_out sh, topic_bytes_in sh, topic_bytes_out sh, topic_limited sh),
   (sh_connections sh, routing_table_peers sh)).

Definition queue (sh : Shared) : EventQueue.Inner * Z := (events sh, events_max_bytes sh).

(** What else goes on meanwhile: the other calls into libp2p are the node's, and
    the caller's threads take ids, upwards. Their polls of the event queue are
    steps of their own. *)
Record meanwhile (w w' : World) : Prop := mk_meanwhile {
  mw_env : env_step w w';
  mw_trace : trace w' = trace w;
  mw_topics : topics_subscribed (w_shared w') = topics_subscribed (w_shared w);
  mw_ids : next_id (w_shared w) ≤ next_id (w_shared w');
  mw_counters : counters (w_shared w') = counters (w_shared w);
  mw_queue : queue (w_shared w') = queue (w_shared w);
}.

(** The swarm the thread starts from follows the topic of the announcements, when
    there is one: [make_gossipsub] subscribed to it. *)
Definition announced (config : Config) : list IdentTopic := an_topic <$> option_list (cfg_announce config).
Definition first_notes (config : Config) : list Note := Following <$> announced config.

(** A run of the node with its history: the ids of the calls, the inputs, the
    requests handed over, what was refused, the peers at the last tick, and what
    the caller's polls wrote. *)
Record History := mk_history {
  h_used : gset Z;
  h_inputs : list Input;
  h_grants : list (Z * ResponseChannel);
  h_refused : list Refusal;
  h_peers : Z * Z;
  h_polled : list bytes;
}.

Definition no_history : History := mk_history ∅ [] [] [] (0, 0) [].

Definition extend (input : Input) (w : World) (h : History) : History := {|
  h_used := call_ids input ∪ h_used h;
  h_inputs := h_inputs h ++ [input];
  h_grants := h_grants h ++ granted input w;
  h_refused := h_refused h ++ refusals input w;
  h_peers := match input with InTick => peers_seen (step input w).2 | _ => h_peers h end;
  h_polled := h_polled h;
|}.

Definition polled (out : bytes) (h : History) : History :=
  mk_history (h_used h) (h_inputs h) (h_grants h) (h_refused h) (h_peers h) (h_polled h ++ [out]).

Inductive execution (config : Config) : History → World → Prop :=
| exec_start w :
    starting config w → trace w = first_notes config → topics_subscribed (w_shared w) = 0 → 0 ≤ next_id (w_shared w) →
    counters (w_shared w) = (0, 0, 0, (0, 0, 0, 0, 0), (0, 0)) →
    events (w_shared w) = EventQueue.new_queue → 0 ≤ events_max_bytes (w_shared w) →
    execution config no_history w
| exec_env h w w' : execution config h w → meanwhile w w' → execution config h w'
| exec_poll h w now deadline cap answer out q :
    execution config h w → 0 ≤ cap →
    EventQueue.poll_pass now deadline cap (events (w_shared w)) = Some (answer, out, q) →
    execution config (polled out h) (w <| w_shared ::= fun sh => sh <| events := q |> |>)
| exec_ready h w : execution config h w → execution config h (get_ready config w).2
| exec_step h w input :
    execution config h w → input_ok (h_used h) w input → next_id (w_shared w) < 2 ^ 64 - 1 →
    execution config (extend input w h) (step input w).2.

(** It was told nothing else. *)
Lemma first_notes_answers config : answers (first_notes config) = [].
Proof. unfold first_notes, announced. by destruct (cfg_announce config). Qed.
Lemma first_notes_verdicts config : verdicts (first_notes config) = [].
Proof. unfold first_notes, announced. by destruct (cfg_announce config). Qed.
Lemma first_notes_requested config : requested (first_notes config) = [].
Proof. unfold first_notes, announced. by destruct (cfg_announce config). Qed.

Lemma first_notes_followed config : followed (first_notes config) = list_to_set (announced config).
Proof. unfold first_notes, announced. by destruct (cfg_announce config) as [a|]; cbn. Qed.

Lemma first_notes_subscribed {B : Build.Builders} config key gossipsub :
  Build.make_gossipsub config key = Ok gossipsub → announced config = Build.gs_subscribed gossipsub.
Proof.
  unfold Build.make_gossipsub, announced. destruct (Build.gossipsub_builds _); [|done].
  destruct (Build.gossipsub_starts _); [|done]. destruct (cfg_announce config) as [a|]; cbn; [|by intros [= <-]].
  destruct (Build.gossipsub_subscribes _ _); [|done]. by intros [= <-].
Qed.

Lemma execution_reachable config h w : execution config h w → reachable config (h_used h) w.
Proof.
  induction 1 as [w Hs|h w w' _ IH [He _ _ _ _ _]|h w now deadline cap answer out q _ IH _ _|h w _ IH|h w input _ IH Hin Hid]; cbn [h_used extend polled].
  - by apply reach_start.
  - by eapply reach_env.
  - eapply reach_env; [exact IH|]. by split.
  - by apply reach_ready.
  - by apply reach_step.
Qed.

Lemma same_get_ready config : respects (same everything) (get_ready config).
Proof. unfold get_ready. same. Qed.

Lemma same_topic_message source m : respects (same everything) (topic_message source m).
Proof. unfold topic_message. same. Qed.

Lemma same_announcement_message m : respects (same everything) (announcement_message m).
Proof. unfold announcement_message. same. Qed.

Lemma same_gossip_else e : (∀ s i m, e ≠ MessageReceived s i m) → respects (same everything) (gossipsub_event e).
Proof. destruct e; intros He; cbn [gossipsub_event]; [|by destruct (He propagation_source message_id message)|]; same. Qed.

(** *** What the dealings come to *)

Lemma swarm_state {A} (a : Action A) w : w_state (swarm a w).2 = w_state w.
Proof. by rewrite run_swarm. Qed.

Lemma swarm_shared {A} (a : Action A) w : w_shared (swarm a w).2 = w_shared w.
Proof. by rewrite run_swarm. Qed.

Lemma store_topic_count_dealings w :
  dealings (store_topic_count w).2 =
  (inbound (w_state w), ts_topic <$> topics (w_state w), as_u32 (Z.of_nat (size (topics (w_state w)))), marks (trace w), next_id (w_shared w)).
Proof. done. Qed.

Lemma respond_dealings id payload w :
  dealings (respond id payload w).2 =
  (delete id (inbound (w_state w)), ts_topic <$> topics (w_state w), topics_subscribed (w_shared w),
   marks (trace w) ++ match inbound (w_state w) !! id with
                      | Some channel => [Answered channel (Wire.encode_response (own_delegation (w_state w)) payload)]
                      | None => []
                      end, next_id (w_shared w)).
Proof.
  unfold respond. rewrite run_bind, run_gets. cbn [fst snd]. rewrite run_bind, run_modify. cbn [fst snd].
  destruct (inbound (w_state w) !! id) as [channel|]; [|unfold dealings; cbn; by rewrite app_nil_r].
  rewrite run_bind, run_gets. cbn [fst snd]. unfold dealings. rewrite trace_swarm, run_swarm. cbn [fst snd w_state w_shared upd].
  by rewrite marks_app.
Qed.

Lemma reject_dealings id w :
  dealings (reject id w).2 =
  (delete id (inbound (w_state w)), ts_topic <$> topics (w_state w), topics_subscribed (w_shared w), marks (trace w), next_id (w_shared w)).
Proof. done. Qed.

Lemma inbound_done_dealings request w :
  dealings (inbound_done request w).2 =
  (match inbound_ids (w_state w) !! request with
   | Some id => delete id (inbound (w_state w))
   | None => inbound (w_state w)
   end, ts_topic <$> topics (w_state w), topics_subscribed (w_shared w), marks (trace w), next_id (w_shared w)).
Proof.
  unfold inbound_done. rewrite run_bind, run_gets. cbn [fst snd]. rewrite run_bind, run_modify. cbn [fst snd].
  by destruct (inbound_ids (w_state w) !! request).
Qed.

(** A request is handed over under the next id with its channel kept, or nothing
    of it is kept. *)
Lemma inbound_request_dealings peer connection request_id frame channel w :
  let w' := (inbound_request peer connection request_id frame channel w).2 in
  (dealings w' = dealings w ∧
   ∀ r, r ∈ drop (length (w_emitted w)) (w_emitted w') → kind_of r ≠ LP2P_EV_RPC_REQUEST) ∨
  (∃ group node protocol payload,
    dealings w' = (<[next_id (w_shared w) := channel]> (inbound (w_state w)), ts_topic <$> topics (w_state w),
                   topics_subscribed (w_shared w), marks (trace w), incr64 (next_id (w_shared w))) ∧
    w_emitted w' = w_emitted w ++ [rpc_request (next_id (w_shared w)) group node protocol payload]).
Proof.
  cbv zeta. destruct (inbound_request_run peer connection request_id frame channel w)
    as [(n & _ & ->)|(node & group & protocol & payload & _ & ->)]; cbv zeta.
  { left. split_and!; [done..|]. intros r. rewrite drop_all. by intros ?%elem_of_nil. }
  destruct (Limits.check _ _ _ _) as [[[]|reason] l].
  - right. exists group, node, (as_u16 protocol), payload. done.
  - left. unfold request_refused. destruct (Limits.may_report _ _).1; (split_and!; [done..|]; intros r); cbn [emit snd w_emitted upd].
    + rewrite drop_app_length. intros ->%list_elem_of_singleton. by rewrite kind_of_limited.
    + rewrite drop_all. by intros ?%elem_of_nil.
Qed.

Lemma topic_unsubscribe_dealings key w :
  dealings (topic_unsubscribe key w).2 =
  match topics (w_state w) !! key with
  | None => dealings w
  | Some ts => (inbound (w_state w), delete key (ts_topic <$> topics (w_state w)),
                as_u32 (Z.of_nat (size (delete key (topics (w_state w))))), marks (trace w) ++ [Unfollowed (ts_topic ts)], next_id (w_shared w))
  end.
Proof.
  unfold topic_unsubscribe. rewrite run_bind, run_gets. cbn [fst snd]. rewrite run_bind, run_modify. cbn [fst snd].
  destruct (topics (w_state w) !! key) as [ts|] eqn:E.
  2:{ unfold dealings. cbn [skip snd w_state w_shared upd inbound topics]. by rewrite delete_id. }
  set (w1 := w <| w_state ::= _ |>). rewrite run_bind. set (w2 := (swarm (Unsubscribe _) w1).2).
  assert (w_state w2 = w_state w1 ∧ w_shared w2 = w_shared w ∧ trace w2 = trace w ++ [Unfollowed (ts_topic ts)]) as (Es & Eh & Et).
  { subst w2. by rewrite swarm_state, swarm_shared, trace_swarm. }
  clearbody w2. rewrite run_bind, run_modify. cbn [fst snd]. set (w3 := w2 <| w_state ::= _ |>).
  rewrite run_bind, store_topic_count_dealings, swarm_state, swarm_shared, trace_swarm, app_nil_r.
  change (trace w3) with (trace w2). rewrite Et, marks_app. subst w3. cbn [w_state w_shared upd inbound topics]. rewrite Es, Eh.
  cbn [w_state upd inbound topics]. do 4 f_equal. apply fmap_delete.
Qed.

(** A topic is followed from now on, or nothing changes. *)
Lemma topic_subscribe_dealings key w :
  dealings (topic_subscribe key w).2 = dealings w ∨
  topics (w_state w) !! key = None ∧ Z.of_nat (size (topics (w_state w))) < topic_max_subscriptions (w_state w) ∧
  dealings (topic_subscribe key w).2 =
  (inbound (w_state w), <[key := Wire.topic_name key]> (ts_topic <$> topics (w_state w)),
   as_u32 (Z.of_nat (S (size (topics (w_state w))))), marks (trace w) ++ [Following (Wire.topic_name key)], next_id (w_shared w)).
Proof.
  unfold topic_subscribe. rewrite run_bind, run_gets. cbn [fst snd].
  destruct (bool_decide_reflect (is_Some (topics (w_state w) !! key))) as [|Hnone%eq_None_not_Some]; [by left|].
  destruct (Z.leb_spec (topic_max_subscriptions (w_state w)) (Z.of_nat (size (topics (w_state w))))) as [|Hlt]; [by left|].
  cbn [orb]. cbv zeta. rewrite run_bind. pose proof (trace_swarm (Subscribe (Wire.topic_name key)) w) as Et.
  pose proof (swarm_state (Subscribe (Wire.topic_name key)) w) as Es. pose proof (swarm_shared (Subscribe (Wire.topic_name key)) w) as Eh.
  destruct (swarm (Subscribe (Wire.topic_name key)) w) as [[] w1]; cbn [fst snd negb note] in *.
  2:{ left. rewrite app_nil_r in Et. unfold dealings. cbn [skip snd]. by rewrite Es, Eh, Et. }
  right. split_and!; [done|done|]. rewrite run_bind, run_modify. cbn [fst snd]. rewrite run_bind, run_modify. cbn [fst snd].
  set (w2 := w1 <| w_state ::= _ |> <| w_state ::= _ |>). rewrite run_bind.
  assert (respects (same dealings) (swarm (StartProviding (record_key key));; topic_lookup key)) as Ht.
  { apply dealings_everything. same. }
  etransitivity; [exact (Ht (store_topic_count w2).2)|]. rewrite store_topic_count_dealings.
  change (trace w2) with (trace w1). rewrite Et, marks_app. subst w2. cbn [w_state w_shared upd inbound topics]. rewrite Es, Eh.
  rewrite map_size_insert_None by done. do 4 f_equal. apply (fmap_insert ts_topic).
Qed.

(** A message is judged by one report, and nothing else is noted of it. *)
Lemma gossip_noted source id m w :
  let w' := (gossipsub_event (MessageReceived source id m) w).2 in
  inbound (w_state w') = inbound (w_state w) ∧ ts_topic <$> topics (w_state w') = ts_topic <$> topics (w_state w) ∧
  topics_subscribed (w_shared w') = topics_subscribed (w_shared w) ∧ next_id (w_shared w') = next_id (w_shared w) ∧
  ∃ acceptance, marks (trace w') = marks (trace w) ++ [Validated id source acceptance].
Proof.
  cbv zeta. cbn [gossipsub_event]. rewrite run_bind, run_gets. cbn [fst snd]. rewrite run_bind.
  set (m1 := if bool_decide _ then topic_message source m else announcement_message m).
  assert (same everything w (m1 w).2) as E.
  { unfold m1. destruct (bool_decide _); [apply same_topic_message|apply same_announcement_message]. }
  injection E as E1 E2 E3 E4 E5 _ _. rewrite trace_swarm, run_swarm. cbn [fst snd w_state w_shared upd].
  rewrite marks_app, E1, E2, E3, E4, E5. split_and!; [done..|]. eexists. reflexivity.
Qed.

(** *** The dealings of one input *)

(** The messages gossipsub handed to the node, and the channels of the requests
    that came in. *)
Definition messages (inputs : list Input) : list (MessageId * PeerId) :=
  omap (fun i => match i with
                 | InSwarm (GossipsubBehaviour (MessageReceived source message _)) => Some (message, source)
                 | _ => None
                 end) inputs.

Definition arrivals (inputs : list Input) : list ResponseChannel :=
  omap (fun i => match i with
                 | InSwarm (RpcBehaviour (RequestReceived _ _ _ _ channel)) => Some channel
                 | _ => None
                 end) inputs.

Lemma messages_app l l' : messages (l ++ l') = messages l ++ messages l'.
Proof. apply omap_app. Qed.
Lemma arrivals_app l l' : arrivals (l ++ l') = arrivals l ++ arrivals l'.
Proof. apply omap_app. Qed.

Inductive dealing (w w' : World) : Input → Prop :=
| deal_nothing input :
    dealings w' = dealings w → messages [input] = [] → granted input w = [] → dealing w w' input
| deal_dropped input id :
    dealings w' = (delete id (inbound (w_state w)), ts_topic <$> topics (w_state w), topics_subscribed (w_shared w), marks (trace w), next_id (w_shared w)) →
    messages [input] = [] → granted input w = [] → dealing w w' input
| deal_answered id payload channel :
    inbound (w_state w) !! id = Some channel →
    dealings w' = (delete id (inbound (w_state w)), ts_topic <$> topics (w_state w), topics_subscribed (w_shared w),
      marks (trace w) ++ [Answered channel (Wire.encode_response (own_delegation (w_state w)) payload)], next_id (w_shared w)) →
    dealing w w' (InCommand (Respond id payload))
| deal_granted peer connection request_id frame channel group node protocol payload :
    let input := InSwarm (RpcBehaviour (RequestReceived peer connection request_id frame channel)) in
    dealings w' = (<[next_id (w_shared w) := channel]> (inbound (w_state w)), ts_topic <$> topics (w_state w),
                   topics_subscribed (w_shared w), marks (trace w), incr64 (next_id (w_shared w))) →
    granted input w = [(next_id (w_shared w), channel)] →
    w_emitted w' = w_emitted w ++ [rpc_request (next_id (w_shared w)) group node protocol payload] →
    dealing w w' input
| deal_followed key :
    topics (w_state w) !! key = None → Z.of_nat (size (topics (w_state w))) < topic_max_subscriptions (w_state w) →
    dealings w' = (inbound (w_state w), <[key := Wire.topic_name key]> (ts_topic <$> topics (w_state w)),
      as_u32 (Z.of_nat (S (size (topics (w_state w))))), marks (trace w) ++ [Following (Wire.topic_name key)], next_id (w_shared w)) →
    dealing w w' (InCommand (TopicSubscribe key))
| deal_left key ts :
    topics (w_state w) !! key = Some ts →
    dealings w' = (inbound (w_state w), delete key (ts_topic <$> topics (w_state w)),
      as_u32 (Z.of_nat (size (delete key (topics (w_state w))))), marks (trace w) ++ [Unfollowed (ts_topic ts)], next_id (w_shared w)) →
    dealing w w' (InCommand (TopicUnsubscribe key))
| deal_judged source id m acceptance :
    dealings w' = (inbound (w_state w), ts_topic <$> topics (w_state w), topics_subscribed (w_shared w),
      marks (trace w) ++ [Validated id source acceptance], next_id (w_shared w)) →
    dealing w w' (InSwarm (GossipsubBehaviour (MessageReceived source id m))).

Lemma hands_over_no input w :
  (∀ r, r ∈ drop (length (w_emitted w)) (w_emitted (step input w).2) → kind_of r ≠ LP2P_EV_RPC_REQUEST) → hands_over input w = false.
Proof.
  intros Hr. unfold hands_over. apply not_true_iff_false. rewrite existsb_exists. intros (r & Hin & Hk%Z.eqb_eq).
  apply (Hr r); [|done]. by apply list_elem_of_In.
Qed.

Lemma hands_over_yes input w r :
  w_emitted (step input w).2 = w_emitted w ++ [r] → kind_of r = LP2P_EV_RPC_REQUEST → hands_over input w = true.
Proof. intros E Hk. unfold hands_over. rewrite E, drop_app_length. cbn. by rewrite Hk. Qed.

Lemma step_dealing input w : deals input = true → dealing w (step input w).2 input.
Proof.
  destruct input as [[]| |[| | | | | | | |[peer connection request_id frame channel| | |request_id|request_id]|[|source id m|]| | |]|]; try done; intros _.
  - change (step _ w).2 with (bind (respond id payload) (fun _ => ret Continue) w).2. rewrite run_bind. cbn [ret snd].
    pose proof (respond_dealings id payload w) as E. destruct (inbound (w_state w) !! id) as [channel|] eqn:Ec.
    + by eapply deal_answered.
    + rewrite app_nil_r in E. by eapply deal_dropped.
  - by eapply deal_dropped.
  - change (step _ w).2 with (bind (topic_subscribe key) (fun _ => ret Continue) w).2. rewrite run_bind. cbn [ret snd].
    destruct (topic_subscribe_dealings key w) as [E|(Hk & Hs & E)]; [by apply deal_nothing|by apply deal_followed].
  - change (step _ w).2 with (bind (topic_unsubscribe key) (fun _ => ret Continue) w).2. rewrite run_bind. cbn [ret snd].
    pose proof (topic_unsubscribe_dealings key w) as E. destruct (topics (w_state w) !! key) as [ts|] eqn:Ek.
    + by eapply deal_left.
    + by apply deal_nothing.
  - pose proof (inbound_request_dealings peer connection request_id frame channel w) as Hin. cbv zeta in Hin.
    rewrite <- (step_swarm (RpcBehaviour (RequestReceived peer connection request_id frame channel)) w : _ = (inbound_request _ _ _ _ _ w).2) in Hin.
    destruct Hin as [(E & Hno)|(group & node & protocol & payload & E & Hem)].
    + apply deal_nothing; [done|done|]. cbn [granted]. by rewrite hands_over_no.
    + eapply deal_granted; [done| |done]. cbn [granted]. by rewrite (hands_over_yes _ _ _ Hem (kind_of_data _ _)).
  - rewrite step_swarm. cbn [swarm_event rpc_event]. pose proof (inbound_done_dealings request_id w) as E.
    destruct (inbound_ids (w_state w) !! request_id); [by eapply deal_dropped|by apply deal_nothing].
  - rewrite step_swarm. cbn [swarm_event rpc_event]. pose proof (inbound_done_dealings request_id w) as E.
    destruct (inbound_ids (w_state w) !! request_id); [by eapply deal_dropped|by apply deal_nothing].
  - rewrite step_swarm. apply deal_nothing; [|done|done]. apply (dealings_everything _ (same_gossip_else Subscribed ltac:(done))).
  - rewrite step_swarm. destruct (gossip_noted source id m w) as (E1 & E2 & E3 & E5 & a & E4). eapply deal_judged.
    unfold dealings. cbn [swarm_event]. by rewrite E1, E2, E3, E4, E5.
  - rewrite step_swarm. by apply deal_nothing.
Qed.

(** *** Invariants of the dealings *)

(** What the quiet part of an execution leaves of what the invariants look at. *)
Record quietly (w w' : World) : Prop := mk_quietly {
  qu_inbound : inbound (w_state w') = inbound (w_state w);
  qu_topics : ts_topic <$> topics (w_state w') = ts_topic <$> topics (w_state w);
  qu_count : topics_subscribed (w_shared w') = topics_subscribed (w_shared w);
  qu_marks : marks (trace w') = marks (trace w);
  qu_ids : next_id (w_shared w) ≤ next_id (w_shared w');
  qu_emitted : w_emitted w `prefix_of` w_emitted w';
}.

Lemma emits_prefix ks w w' : emits ks w w' → w_emitted w `prefix_of` w_emitted w'.
Proof. intros (l & -> & _). by exists l. Qed.

Lemma step_emitted input w : w_emitted w `prefix_of` w_emitted (step input w).2.
Proof.
  destruct input as [c| |e|]; [|by exists []; rewrite app_nil_r|rewrite step_swarm|rewrite step_tick].
  - exact (emits_prefix _ _ _ (emits_command c w)).
  - exact (emits_prefix _ _ _ (swarm_event_emits e w)).
  - exact (emits_prefix _ _ _ (emits_tick w)).
Qed.

Lemma quietly_same w w' : dealings w' = dealings w → w_emitted w `prefix_of` w_emitted w' → quietly w w'.
Proof. intros [= E1 E2 E3 E4 E5] Hp. split; try done. lia. Qed.

Lemma execution_invariant config (P : History → World → Prop) :
  (∀ h w w', quietly w w' → P h w → P h w') →
  (∀ w, starting config w → trace w = first_notes config → topics_subscribed (w_shared w) = 0 → 0 ≤ next_id (w_shared w) →
     P no_history w) →
  (∀ h w out, P h w → P (polled out h) w) →
  (∀ h w input, deals input = false → P h w → P (extend input w h) w) →
  (∀ h w w' input, execution config h w → 0 ≤ next_id (w_shared w) < 2 ^ 64 - 1 → dealing w w' input →
     w_emitted w `prefix_of` w_emitted w' → P h w → P (extend input w h) w') →
  ∀ h w, execution config h w → P h w.
Proof.
  intros Hquiet Hstart Hpoll Hwait Hstep h w He.
  cut (P h w ∧ 0 ≤ next_id (w_shared w)); [by intros []|].
  induction He as [w Hs Ht Hn Hi _ _ _|h w w' _ [IH Hi] [[Es Ee _ _] Et En Hid _ _]|h w now deadline cap answer out q _ [IH Hi] _ _|h w _ [IH Hi]|h w input He [IH Hi] Hin Hid].
  - split; [by apply Hstart|done].
  - split; [|lia]. eapply Hquiet; [|exact IH]. split; rewrite ?Es, ?Et, ?En, ?Ee; done.
  - split; [|done]. apply Hpoll. eapply Hquiet; [|exact IH]. by split.
  - pose proof (same_get_ready config w) as [= E1 E2 E3 E4 E5 _ _]. split; [|lia]. eapply Hquiet; [|exact IH].
    split; try done; [lia|]. exact (emits_prefix _ _ _ (emits_get_ready config w)).
  - destruct (deals input) eqn:Ed.
    + pose proof (step_dealing input w Ed) as D. pose proof (step_emitted input w) as Hp. split.
      * by eapply Hstep.
      * pose proof (wrap_range 64 (next_id (w_shared w) + 1)) as Hw. fold (incr64 (next_id (w_shared w))) in Hw.
        set (w' := (step input w).2) in *. clearbody w'.
        destruct D as [? [= _ _ _ _ E]|? ? [= _ _ _ _ E]|? ? ? _ [= _ _ _ _ E]|? ? ? ? ? ? ? ? ? ? [= _ _ _ _ E]|? _ _ [= _ _ _ _ E]|? ? _ [= _ _ _ _ E]|? ? ? ? [= _ _ _ _ E]]; lia.
    + pose proof (noted_step_input input Ed w) as E. split.
      * eapply Hquiet; [apply quietly_same; [exact E|apply step_emitted]|]. by apply Hwait.
      * injection E as _ _ _ _ E. lia.
Qed.

(** ** Gossip *)

(** C19: gossipsub hears exactly one verdict on every message. Over the whole
    life of the node, the messages it reported on are those it was handed, in
    their order and with the peer each came from, however commands, ticks and
    other events fell between them. *)
Theorem messages_judged_once config h w :
  execution config h w → verdicts (trace w) = messages (h_inputs h).
Proof.
  revert h w. apply execution_invariant.
  - intros h w w' [_ _ _ E _ _] IH. by rewrite <- verdicts_marks, E, verdicts_marks.
  - intros w _ Ht _ _. by rewrite Ht, first_notes_verdicts.
  - done.
  - intros h w input Hd IH. cbn [extend h_inputs]. rewrite messages_app, IH.
    destruct input as [c| |[]|]; rewrite ?app_nil_r; done.
  - intros h w w' input _ _ D _ IH. cbn [extend h_inputs].
    rewrite messages_app, <- IH, <- (verdicts_marks (trace w)), <- verdicts_marks.
    destruct D as [? [= _ _ _ E _] Hm _|? ? [= _ _ _ E _] Hm _|? ? ? _ [= _ _ _ E _]|? ? ? ? ? ? ? ? ? ? [= _ _ _ E _]|? _ _ [= _ _ _ E _]|? ? _ [= _ _ _ E _]|? ? ? ? [= _ _ _ E _]];
      rewrite E, ?Hm, ?app_nil_r; unfold verdicts; rewrite ?omap_app, ?app_nil_r; done.
Qed.

(** ** Topics *)

Definition topic_names (keys : gset lp2p_key) : gset IdentTopic := set_map Wire.topic_name keys.

Lemma elem_of_topic_names t keys : t ∈ topic_names keys ↔ ∃ k, t = Wire.topic_name k ∧ k ∈ keys.
Proof. apply elem_of_map. Qed.

Lemma followed_app l n : followed (l ++ [n]) = follow (followed l) n.
Proof. unfold followed. by rewrite foldl_app. Qed.

Lemma topic_names_insert key keys : topic_names ({[key]} ∪ keys) = {[Wire.topic_name key]} ∪ topic_names keys.
Proof. unfold topic_names. by rewrite set_map_union_L, set_map_singleton_L. Qed.

Lemma topic_names_delete key keys : topic_names (keys ∖ {[key]}) = topic_names keys ∖ {[Wire.topic_name key]}.
Proof.
  apply set_eq. intros t. rewrite elem_of_difference, !elem_of_topic_names, elem_of_singleton. split.
  - intros (k & -> & [Hk Hne]%elem_of_difference). split; [by exists k|]. intros E%Wire.topic_name_inj.
    apply Hne. by apply elem_of_singleton.
  - intros ((k & -> & Hk) & Hne). exists k. split; [done|]. apply elem_of_difference. split; [done|].
    rewrite elem_of_singleton. by intros ->.
Qed.

(** The count the caller's threads see. *)
Lemma topics_counted config h w :
  execution config h w → topics_subscribed (w_shared w) = as_u32 (Z.of_nat (size (topics (w_state w)))).
Proof.
  intros He. cut (topics_subscribed (w_shared w) = as_u32 (Z.of_nat (size (ts_topic <$> topics (w_state w))))); [by rewrite map_size_fmap|].
  revert h w He. apply (execution_invariant config (fun _ w =>
    topics_subscribed (w_shared w) = as_u32 (Z.of_nat (size (ts_topic <$> topics (w_state w)))))).
  - intros h w w' [_ Et En _ _ _] IH. by rewrite Et, En.
  - intros w [(local & t & ->) _] _ Hn _. rewrite Hn. cbn. by rewrite fmap_empty, map_size_empty.
  - done.
  - done.
  - intros h w w' input _ _ D _ IH.
    destruct D as [? [= _ Et En _ _] _ _|? ? [= _ Et En _ _] _ _|? ? ? _ [= _ Et En _ _]|? ? ? ? ? ? ? ? ? ? [= _ Et En _ _]|key Hk _ [= _ Et En _ _]|key ts Hk [= _ Et En _ _]|? ? ? ? [= _ Et En _ _]];
      rewrite Et, En; try done.
    + rewrite map_size_insert_None, map_size_fmap; [done|]. by rewrite lookup_fmap, Hk.
    + by rewrite <- (fmap_delete (M := gmap lp2p_key)), map_size_fmap.
Qed.

(** Topics other than that of the announcements: no command can reach that one
    when its text is the name of no key. *)
Lemma followed_apart config h w :
  execution config h w →
  followed (trace w) ∖ list_to_set (announced config) =
    topic_names (dom (ts_topic <$> topics (w_state w))) ∖ list_to_set (announced config).
Proof.
  revert h w. apply (execution_invariant config (fun _ w =>
    followed (trace w) ∖ list_to_set (announced config) =
      topic_names (dom (ts_topic <$> topics (w_state w))) ∖ list_to_set (announced config))).
  - intros h w w' [_ Et _ Em _ _] IH. by rewrite Et, <- followed_marks, Em, followed_marks.
  - intros w [(local & t & ->) _] Ht _ _. rewrite Ht, first_notes_followed. cbn [new_state topics].
    rewrite fmap_empty, dom_empty_L. unfold topic_names. rewrite set_map_empty. set_solver.
  - done.
  - done.
  - intros h w w' input He _ D _ IH. rewrite <- followed_marks in IH. rewrite <- followed_marks.
    pose proof (reachable_bounds _ _ _ (execution_reachable _ _ _ He)) as (_ & _ & ((Hagree & _) & _) & _).
    destruct D as [? [= _ Et _ E _] _ _|? ? [= _ Et _ E _] _ _|? ? ? _ [= _ Et _ E _]|? ? ? ? ? ? ? ? ? ? [= _ Et _ E _]|key Hk _ [= _ Et _ E _]|key ts Hk [= _ Et _ E _]|? ? ? ? [= _ Et _ E _]];
      rewrite Et, E, ?followed_app; try done; cbn [follow].
    + rewrite dom_insert_L, topic_names_insert. set_solver.
    + destruct (Hagree key ts Hk) as [-> _]. rewrite dom_delete_L, topic_names_delete. set_solver.
Qed.

(** The topic of the announcements is no key's. *)
Definition apart (config : Config) : Prop := ∀ key a, cfg_announce config = Some a → an_topic a ≠ Wire.topic_name key.

Lemma followed_announced config h w :
  apart config → execution config h w → list_to_set (announced config) ⊆ followed (trace w).
Proof.
  intros Ha. revert h w. apply (execution_invariant config (fun _ w => list_to_set (announced config) ⊆ followed (trace w))).
  - intros h w w' [_ _ _ Em _ _] IH. by rewrite <- followed_marks, Em, followed_marks.
  - intros w _ Ht _ _. by rewrite Ht, first_notes_followed.
  - done.
  - done.
  - intros h w w' input He _ D _ IH. rewrite <- followed_marks in IH. rewrite <- followed_marks.
    pose proof (reachable_bounds _ _ _ (execution_reachable _ _ _ He)) as (_ & _ & ((Hagree & _) & _) & _).
    destruct D as [? [= _ _ _ E _] _ _|? ? [= _ _ _ E _] _ _|? ? ? _ [= _ _ _ E _]|? ? ? ? ? ? ? ? ? ? [= _ _ _ E _]|key Hk _ [= _ _ _ E _]|key ts Hk [= _ _ _ E _]|? ? ? ? [= _ _ _ E _]];
      rewrite E, ?followed_app; try done; cbn [follow]; [set_solver|].
    destruct (Hagree key ts Hk) as [-> _]. intros t Ht. apply elem_of_difference. split; [by apply IH|].
    intros ->%elem_of_singleton. revert Ht. unfold announced. destruct (cfg_announce config) as [a|] eqn:E'; cbn; [|set_solver].
    rewrite union_empty_r_L, elem_of_singleton. intros Et. by apply (Ha key a).
Qed.

(** C18: gossipsub follows the topics of the node's table, the topic of the
    announcements when there is one, and no other. The node starts with
    gossipsub following that topic alone, as [make_gossipsub] leaves it. Whatever
    topics the caller subscribed to and left after that, and however gossipsub
    answered, the topics it was told to follow and not to leave, the announcements'
    aside, are the names of the table's keys; and it never leaves the
    announcements' as long as its text is not itself the name of a key. There are
    no more topics in the table than configured, and their number is what the
    caller's threads see. *)
Theorem topics_followed config h w :
  execution config h w →
  let keys := dom (topics (w_state w)) in
  followed (trace w) ∖ list_to_set (announced config) = topic_names keys ∖ list_to_set (announced config) ∧
  (apart config → followed (trace w) = list_to_set (announced config) ∪ topic_names keys) ∧
  Z.of_nat (size keys) ≤ Z.max 0 (cfg_topic_max_subscriptions config) ∧
  topics_subscribed (w_shared w) = as_u32 (Z.of_nat (size keys)).
Proof.
  intros He keys. unfold keys. rewrite size_dom, <- (dom_fmap_L ts_topic).
  pose proof (followed_apart _ _ _ He) as Hf. split_and!; [done|  |  |exact (topics_counted _ _ _ He)].
  - intros Ha. pose proof (followed_announced _ _ _ Ha He) as Hs.
    rewrite (union_difference_L _ _ Hs), Hf. apply set_eq. intros t. rewrite !elem_of_union, elem_of_difference.
    destruct (decide (t ∈ (list_to_set (announced config) : gset IdentTopic))); naive_solver.
  - pose proof (reachable_bounds _ _ _ (execution_reachable _ _ _ He)) as (_ & _ & (_ & Hb) & <- & _). exact Hb.
Qed.

(** ** Channels *)

Definition holding (m : gmap Z ResponseChannel) : list ResponseChannel := (map_to_list m).*2.

Lemma holding_delete m id : holding m ≡ₚ holding (delete id m) ++ option_list (m !! id).
Proof.
  unfold holding. destruct (m !! id) as [c|] eqn:E; cbn [option_list]; [|by rewrite delete_id, app_nil_r].
  rewrite <- (map_to_list_delete m id c E), fmap_cons. apply Permutation_cons_append.
Qed.

Lemma holding_insert m id c : c :: holding m ≡ₚ holding (<[id := c]> m) ++ option_list (m !! id).
Proof.
  rewrite (holding_delete m id), <- (insert_delete_eq m id c). unfold holding at 2.
  rewrite (map_to_list_insert (delete id m) id c) by apply lookup_delete_eq. reflexivity.
Qed.

(** The record of a request that was handed over under [id]. *)
Definition told (id : Z) (records : list EventRecord) : Prop :=
  ∃ group node protocol payload, rpc_request id group node protocol payload ∈ records.

(** What holds of the channels at any time: [grants] are the requests that were
    handed over, with their ids. *)
Record channels_ok (config : Config) (h : History) (w : World) : Prop := mk_channels_ok {
  (** every id is the id of one request, and the caller was told of it, *)
  ch_ids : NoDup (h_grants h).*1;
  ch_told : Forall (fun g => told g.1 (w_emitted w)) (h_grants h);
  (** every request came in, *)
  ch_arrived : (h_grants h).*2 `sublist_of` arrivals (h_inputs h);
  (** its channel was answered, is kept, or was dropped, and only one of them, *)
  ch_once : ∃ dropped, (h_grants h).*2 ≡ₚ (answers (trace w)).*1 ++ holding (inbound (w_state w)) ++ dropped;
  (** it is kept under the request's id, *)
  ch_kept : ∀ id channel, inbound (w_state w) !! id = Some channel → (id, channel) ∈ h_grants h;
  (** and every answer is what the caller answered that id with. *)
  ch_answer : ∀ channel frame, (channel, frame) ∈ answers (trace w) →
    ∃ id payload, (id, channel) ∈ h_grants h ∧ InCommand (Respond id payload) ∈ h_inputs h ∧
      frame = Wire.encode_response (Delegation.to_bytes (cfg_delegation config)) payload;
}.

(** The same with the ids below the counter. *)
Record channels_inv (config : Config) (h : History) (w : World) : Prop := mk_channels_inv {
  ci_ok : channels_ok config h w;
  ci_below : Forall (fun g => g.1 < next_id (w_shared w)) (h_grants h);
}.

Lemma told_mono id l l' : l `prefix_of` l' → told id l → told id l'.
Proof. intros (k & ->) (g & n & p & b & Hin). exists g, n, p, b. apply elem_of_app. by left. Qed.

(** Taking a channel out of the table, and answering on it or not. *)
Lemma channels_taken config h w w' input id (said : list Note) :
  marks (trace w') = marks (trace w) ++ said → inbound (w_state w') = delete id (inbound (w_state w)) →
  granted input w = [] → next_id (w_shared w) ≤ next_id (w_shared w') → w_emitted w `prefix_of` w_emitted w' →
  (answers said = [] ∨ ∃ channel payload, inbound (w_state w) !! id = Some channel ∧ input = InCommand (Respond id payload) ∧
     answers said = [(channel, Wire.encode_response (Delegation.to_bytes (cfg_delegation config)) payload)]) →
  channels_inv config h w → channels_inv config (extend input w h) w'.
Proof.
  intros Em Ei Eg Hid Hp Hsaid [[A1 A2 A3 (dropped & A4) A5 A6] A7].
  assert (answers (trace w') = answers (trace w) ++ answers said) as Ea.
  { rewrite <- answers_marks, Em. unfold answers. rewrite omap_app. f_equal. apply answers_marks. }
  split; [split|]; cbn [extend h_grants h_inputs]; rewrite ?Eg, ?app_nil_r, ?Ea, ?Ei.
  - done.
  - eapply Forall_impl; [exact A2|]. intros g. exact (told_mono _ _ _ Hp).
  - rewrite arrivals_app. by apply sublist_inserts_r.
  - rewrite (holding_delete (inbound (w_state w)) id) in A4. destruct Hsaid as [->|(channel & payload & Hc & _ & ->)].
    + exists (option_list (inbound (w_state w) !! id) ++ dropped). rewrite app_nil_r. by rewrite A4, <- app_assoc.
    + exists dropped. rewrite A4, Hc, fmap_app. cbn. rewrite <- !app_assoc. apply Permutation_app_head.
      symmetry. cbn [app]. apply Permutation_middle.
  - intros i c [_ Hc]%lookup_delete_Some. by apply A5.
  - intros c f [Hin|Hin]%elem_of_app.
    + destruct (A6 c f Hin) as (i & b & Hg & Hr & ->). exists i, b. split_and!; [done| |done]. apply elem_of_app. by left.
    + destruct Hsaid as [E|(channel & payload & Hc & -> & E)]; rewrite E in Hin; [by apply elem_of_nil in Hin|].
      apply list_elem_of_singleton in Hin as [= -> ->]. exists id, payload. split_and!; [by apply A5| |done].
      apply elem_of_app. right. by apply list_elem_of_singleton.
  - eapply Forall_impl; [exact A7|]. cbn. lia.
Qed.

(** Nothing happened to the channels. *)
Lemma channels_still config h w w' input (said : list Note) :
  marks (trace w') = marks (trace w) ++ said → inbound (w_state w') = inbound (w_state w) →
  granted input w = [] → next_id (w_shared w) ≤ next_id (w_shared w') → w_emitted w `prefix_of` w_emitted w' →
  answers said = [] → channels_inv config h w → channels_inv config (extend input w h) w'.
Proof.
  intros Em Ei Eg Hid Hp Hsaid [[A1 A2 A3 A4 A5 A6] A7].
  assert (answers (trace w') = answers (trace w)) as Ea.
  { rewrite <- answers_marks, Em. unfold answers in *. rewrite omap_app, Hsaid, app_nil_r. apply answers_marks. }
  split; [split|]; cbn [extend h_grants h_inputs]; rewrite ?Eg, ?app_nil_r, ?Ea, ?Ei; try done.
  - eapply Forall_impl; [exact A2|]. intros g. exact (told_mono _ _ _ Hp).
  - rewrite arrivals_app. by apply sublist_inserts_r.
  - intros c f Hin. destruct (A6 c f Hin) as (i & b & Hg & Hr & ->). exists i, b. split_and!; [done| |done].
    apply elem_of_app. by left.
  - eapply Forall_impl; [exact A7|]. cbn. lia.
Qed.

(** A request is handed over. *)
Lemma channels_granted config h w w' peer connection request_id frame channel group node protocol payload :
  let input := InSwarm (RpcBehaviour (RequestReceived peer connection request_id frame channel)) in
  let id := next_id (w_shared w) in
  0 ≤ id < 2 ^ 64 - 1 →
  marks (trace w') = marks (trace w) → inbound (w_state w') = <[id := channel]> (inbound (w_state w)) →
  granted input w = [(id, channel)] → next_id (w_shared w') = incr64 id →
  w_emitted w' = w_emitted w ++ [rpc_request id group node protocol payload] →
  channels_inv config h w → channels_inv config (extend input w h) w'.
Proof.
  intros input id Hid Em Ei Eg En Ee [[A1 A2 A3 (dropped & A4) A5 A6] A7].
  assert (answers (trace w') = answers (trace w)) as Ea by by rewrite <- answers_marks, Em, answers_marks.
  assert (incr64 id = id + 1) as Ei1 by (apply wrap_small; lia).
  split; [split|]; cbn [extend h_grants h_inputs]; rewrite Eg, ?Ea, ?Ei, ?En, ?Ei1.
  - rewrite fmap_app. apply NoDup_app. split_and!; [done| |apply NoDup_singleton].
    intros i ([i' c] & -> & Hin)%list_elem_of_fmap Heq%list_elem_of_singleton.
    apply (proj1 (Forall_forall _ _) A7) in Hin. cbn [fst] in *. fold id in Hin. lia.
  - apply Forall_app. split.
    + assert (w_emitted w `prefix_of` w_emitted w') as Hp by (rewrite Ee; by eexists).
      eapply Forall_impl; [exact A2|]. intros g. exact (told_mono _ _ _ Hp).
    + constructor; [|constructor]. exists group, node, protocol, payload. rewrite Ee. apply elem_of_app. right. by apply list_elem_of_singleton.
  - rewrite fmap_app, arrivals_app. by apply sublist_app.
  - exists (option_list (inbound (w_state w) !! id) ++ dropped). rewrite fmap_app, A4. cbn [fmap list_fmap snd].
    rewrite <- Permutation_cons_append, Permutation_middle, app_comm_cons, holding_insert. by rewrite <- app_assoc.
  - intros i c [[<- <-]|[Hne Hc]]%lookup_insert_Some; apply elem_of_app; [right; by apply list_elem_of_singleton|left; by apply A5].
  - intros c f Hin. destruct (A6 c f Hin) as (i & b & Hg & Hr & ->). exists i, b.
    split_and!; [apply elem_of_app; by left..|done].
  - apply Forall_app. split; [|repeat constructor; cbn; lia]. eapply Forall_impl; [exact A7|]. cbn. fold id. lia.
Qed.

(** C9: a request of another node is answered at most once, by the caller it
    was handed to. In every execution the requests handed over have different
    ids, which the caller was told; each came in once; the channel of each was
    answered once, is kept under its id, or was dropped, and no two of these; and
    every answer that went out is the caller's answer to the id of the request
    whose channel it went out on. *)
Theorem channels_accounted config h w : execution config h w → channels_ok config h w.
Proof.
  intros He. cut (channels_inv config h w); [by intros []|]. revert h w He. apply execution_invariant.
  - intros h w w' [Ei _ _ Em Hid Hp] [[A1 A2 A3 A4 A5 A6] A7].
    assert (answers (trace w') = answers (trace w)) as Ea by by rewrite <- answers_marks, Em, answers_marks.
    split; [split|]; rewrite ?Ea, ?Ei; try done.
    + eapply Forall_impl; [exact A2|]. intros g. exact (told_mono _ _ _ Hp).
    + eapply Forall_impl; [exact A7|]. cbn. lia.
  - intros w [(local & t & Hs) _] Ht _ _. split; [split|]; cbn; rewrite ?Ht, ?first_notes_answers, ?Hs; try constructor.
    + exists []. unfold holding. cbn. by rewrite map_to_list_empty.
    + intros id c. cbn [new_state inbound]. by rewrite lookup_empty.
    + intros c f Hin. by apply elem_of_nil in Hin.
  - intros h w out [[A1 A2 A3 A4 A5 A6] A7]. by repeat split.
  - intros h w input Hd Hinv. apply (channels_still _ _ _ _ _ []); rewrite ?app_nil_r; try done; try lia.
    destruct input as [| |[| | | | | | | |[]| | | |]|]; done.
  - intros h w w' input He Hid D Hp Hinv.
    assert (own_delegation (w_state w) = Delegation.to_bytes (cfg_delegation config)) as Ed.
    { by pose proof (reachable_bounds _ _ _ (execution_reachable _ _ _ He)) as (_ & _ & _ & _ & _ & _ & Ed). }
    assert (∀ input, (∀ p c r f ch, input ≠ InSwarm (RpcBehaviour (RequestReceived p c r f ch))) → granted input w = []) as Hno.
    { intros [| |[| | | | | | | |[]| | | |]|] Hne; try done. by destruct (Hne peer connection request_id frame channel). }
    destruct D as [? [= Ei _ _ Em En] _ Eg|? id [= Ei _ _ Em En] _ Eg|id payload channel Hc [= Ei _ _ Em En]|? ? ? ? ? ? ? ? ? input' [= Ei _ _ Em En] Eg Ee
                   |? _ _ [= Ei _ _ Em En]|? ? _ [= Ei _ _ Em En]|? ? ? ? [= Ei _ _ Em En]].
    + apply (channels_still _ _ _ _ _ []); rewrite ?app_nil_r; try done; lia.
    + apply (channels_taken _ _ _ _ _ id []); rewrite ?app_nil_r; try done; [lia|by left].
    + eapply (channels_taken _ _ _ _ _ id); [exact Em|exact Ei|by apply Hno|lia|done| |done]. right.
      exists channel, payload. rewrite Ed. done.
    + by eapply channels_granted.
    + eapply channels_still; [exact Em|done|by apply Hno|lia|done|done|done].
    + eapply channels_still; [exact Em|done|by apply Hno|lia|done|done|done].
    + eapply channels_still; [exact Em|done|by apply Hno|lia|done|done|done].
Qed.

(** ** Requests *)

Section asked.
Variable config : Config.

(** A command of [inputs] asks for [frame], of [node] when it names one. *)
Definition submitted (inputs : list Input) (node : option lp2p_key) (frame : bytes) : Prop :=
  ∃ id group protocol name payload timeout,
    InCommand (Rpc id group node protocol payload timeout) ∈ inputs ∧
    cfg_rpc_protocols config !! Z.to_nat protocol = Some name ∧
    frame = Wire.encode_request (Delegation.to_bytes (cfg_delegation config)) name payload.

(** A request to [peer] with [frame] was asked for. *)
Definition asked (inputs : list Input) (peer : PeerId) (frame : bytes) : Prop :=
  ∃ node, submitted inputs node frame ∧ ∀ key, node = Some key → peer_id key = Some peer.

(** The call is one that was asked for, and will only go where it should. *)
Definition call_asked (inputs : list Input) (call : Call) : Prop :=
  ∃ node, submitted inputs node (call_frame call) ∧
    ∀ key, node = Some key → lookup_running call = false ∧ ∀ p, p ∈ candidates call → peer_id key = Some p.

Record asked_inv (inputs : list Input) (w : World) : Prop := mk_asked_inv {
  ai_sent : ∀ p f, (p, f) ∈ requested (trace w) → asked inputs p f;
  ai_calls : ∀ id call, calls (w_state w) !! id = Some call → call_asked inputs call;
}.

Definition keeps_asked (inputs : list Input) (w w' : World) : Prop := asked_inv inputs w → asked_inv inputs w'.

#[export] Instance keeps_asked_preorder inputs : PreOrder (keeps_asked inputs).
Proof. split; [intros w Hw; exact Hw|]. intros w1 w2 w3 H1 H2 Hw. by apply H2, H1. Qed.

Lemma asked_same inputs w w' : asking w' = asking w → keeps_asked inputs w w'.
Proof. intros [= Ec Er] [A1 A2]. split; rewrite ?Ec, ?Er; done. Qed.

Lemma keeps_asked_same inputs {A} (m : M A) : respects (same asking) m → respects (keeps_asked inputs) m.
Proof. intros Hm w. by apply asked_same, Hm. Qed.

Lemma keeps_asked_everything inputs {A} (m : M A) : respects (same everything) m → respects (keeps_asked inputs) m.
Proof. intros Hm. by apply keeps_asked_same, asking_everything. Qed.

(** A call of the table is replaced by one that goes where it should. *)
Lemma asked_insert inputs id call w w' :
  calls (w_state w') = <[id := call]> (calls (w_state w)) → requested (trace w') = requested (trace w) →
  call_asked inputs call → asked_inv inputs w → asked_inv inputs w'.
Proof.
  intros Ec Er Hc [A1 A2]. split; rewrite ?Ec, ?Er; [done|].
  intros id' call' [[<- <-]|[_ Hin]]%lookup_insert_Some; [done|by eapply A2].
Qed.

(** Fewer candidates are as good. *)
Lemma call_asked_fewer inputs call call' :
  call_frame call' = call_frame call → lookup_running call' = lookup_running call →
  (∀ p, p ∈ candidates call' → p ∈ candidates call) → call_asked inputs call → call_asked inputs call'.
Proof.
  intros Ef El Hsub (node & Hs & Hk). exists node. rewrite Ef, El. split; [done|]. intros key Hkey.
  destruct (Hk key Hkey) as [H1 H2]. split; [done|]. intros p Hp. by apply H2, Hsub.
Qed.

(** ** The calls *)

Lemma asked_try_candidates inputs id call l :
  call_asked inputs (call <| candidates := l |>) → respects (keeps_asked inputs) (try_candidates id call l).
Proof.
  revert call. induction l as [|peer rest IH]; intros call Hc; cbn [try_candidates].
  - apply respects_bind; [exact _|intros w Hw; by eapply asked_insert|]. intros _. apply respects_ret, _.
  - assert (call_asked inputs (call <| candidates := rest |>)) as Hrest.
    { eapply call_asked_fewer; [..|exact Hc]; try done. intros p Hp. by apply list_elem_of_further. }
    apply respects_bind; [exact _|apply respects_read, _|]. intros dialable. destruct (negb dialable).
    + case_bool_decide; [by apply IH|]. apply respects_bind; [exact _|apply keeps_asked_everything; same|]. intros q.
      apply respects_bind; [exact _| |intros; apply respects_ret, _].
      intros w Hw. eapply asked_insert; [reflexivity|reflexivity| |exact Hw]. by eapply call_asked_fewer; [..|exact Hc].
    + intros w Hw. destruct Hc as (node & Hs & Hk).
      assert (asked_inv inputs (swarm (SendRequest peer (call_frame call)) w).2) as [A1 A2].
      { destruct Hw as [A1 A2]. split; [|by rewrite swarm_state]. intros p f. rewrite trace_swarm. unfold requested. rewrite omap_app.
        intros [Hin|Hin]%elem_of_app; [by apply A1|]. apply list_elem_of_singleton in Hin as [= -> ->].
        exists node. split; [done|]. intros key Hkey. apply (Hk key Hkey). by left. }
      rewrite run_bind. destruct (swarm (SendRequest peer (call_frame call)) w) as [r w1]. cbn [fst snd] in *.
      rewrite run_bind, run_modify. cbn [fst snd]. rewrite run_bind. cbn [modify_shared fst snd ret].
      eapply asked_insert; [reflexivity|reflexivity| |by split]. by eapply call_asked_fewer; [..|exact Hrest].
Qed.

Lemma asked_remove_call inputs id : respects (keeps_asked inputs) (remove_call id).
Proof.
  intros w [A1 A2]. split; [done|]. cbn. intros id' call [_ Hin]%lookup_delete_Some. by eapply A2.
Qed.

Lemma asked_advance inputs id : respects (keeps_asked inputs) (advance id).
Proof.
  intros w Hw. unfold advance. rewrite run_bind, run_gets. cbn [fst snd].
  destruct (calls (w_state w) !! id) as [call|] eqn:Ec; [|done]. destruct (_ || _); [done|].
  revert w Ec Hw. intros w Ec Hw.
  assert (respects (keeps_asked inputs) (try_candidates id call (candidates call))) as Ht.
  { apply asked_try_candidates. eapply call_asked_fewer; [..|exact (ai_calls _ _ Hw _ _ Ec)]; done. }
  refine (respects_after _ _ _ w (Ht w) _ Hw). intros b. destruct b; [apply respects_skip, _|].
  destruct (lookup_running call); [apply respects_skip, _|].
  apply respects_bind; [exact _|apply asked_remove_call|]. intros [c|]; apply keeps_asked_everything; same.
Qed.

(** A change of a call that is not about where it goes. *)
Lemma asked_update_call inputs id f :
  (∀ c, call_frame (f c) = call_frame c ∧ lookup_running (f c) = lookup_running c ∧ candidates (f c) = candidates c) →
  respects (keeps_asked inputs) (update_call id f).
Proof.
  intros Hf w [A1 A2]. split; [done|]. cbn. intros id' call.
  intros [(-> & c & Hc & ->)|[_ Hin]]%lookup_alter_Some; [|by eapply A2]. destruct (Hf c) as (E1 & E2 & E3).
  eapply call_asked_fewer; [done|done| |by eapply A2]. by rewrite E3.
Qed.

Ltac asked_step :=
  first
  [ respects_step
  | apply asked_advance | apply asked_remove_call | apply asked_update_call; done
  | apply keeps_asked_everything; solve [same] ].
Ltac asked := repeat asked_step.

Lemma asked_response inputs p r f : respects (keeps_asked inputs) (response p r f).
Proof.
  unfold response, response_accepted. asked.
  all: intros w [A1 A2]; (split; [done|]); cbn; intros id' call' Hin; try (apply lookup_delete_Some in Hin as [_ Hin]); by eapply A2.
Qed.

Lemma asked_outbound_failure inputs p r e : respects (keeps_asked inputs) (outbound_failure p r e).
Proof. unfold outbound_failure. asked. Qed.

Lemma asked_expire inputs t : respects (keeps_asked inputs) (expire t).
Proof. unfold expire. asked. Qed.

Lemma asked_call_resolved inputs id : respects (keeps_asked inputs) (call_resolved id).
Proof. unfold call_resolved. asked. Qed.

Lemma asked_tick inputs : respects (keeps_asked inputs) tick.
Proof. unfold tick. repeat first [apply asked_expire | asked_step]. Qed.

Lemma asked_get_closest_peers inputs q peers : respects (keeps_asked inputs) (get_closest_peers_progressed q peers).
Proof. unfold get_closest_peers_progressed. repeat first [apply asked_call_resolved | asked_step]. Qed.

Lemma enqueue_all_frame local l call w : call_frame (enqueue_all local call l w).1 = call_frame call.
Proof.
  revert call w. induction l as [|p l IH]; intros call w; [done|]. cbn [enqueue_all]. rewrite run_bind, IH.
  case_bool_decide; [done|]. unfold enqueue. case_bool_decide; [done|].
  rewrite run_bind. cbn [now fst snd]. rewrite run_bind, run_gets. cbn [ret fst snd].
  by destruct (enqueue_at_same (instant_at (w_tick w)) (last_success (w_state w)) (failed (w_state w)) p (call <| seen ::= union {[p]} |>))
    as [(_ & _ & _ & _ & _ & E & _) _].
Qed.

(** What a lookup finds goes to a call that asked its group. *)
Lemma asked_queue_found inputs id found last w :
  (∀ call, calls (w_state w) !! id = Some call → lookup_running call = true) →
  keeps_asked inputs w (queue_found id found last w).2.
Proof.
  intros Hrun Hw. unfold queue_found. rewrite run_bind, run_gets. cbn [fst snd]. rewrite run_bind, run_gets. cbn [fst snd].
  destruct (calls (w_state w) !! id) as [call|] eqn:Ec; [|done]. rewrite run_bind.
  assert (asked_inv inputs (enqueue_all (local_peer (w_state w)) call (default [] found) w).2) as Hw1.
  { by apply (keeps_asked_everything _ _ (same_enqueue_all _ _ _) w). }
  destruct (ai_calls _ _ Hw _ _ Ec) as (node & Hs & Hk).
  assert (node = None) as -> by (destruct node as [k|]; [|done]; destruct (Hk k eq_refl); rewrite (Hrun _ eq_refl) in *; done).
  eapply asked_insert; [reflexivity|reflexivity| |exact Hw1].
  exists None. split; [|done]. destruct last; cbn [call_frame upd]; by rewrite enqueue_all_frame.
Qed.

Lemma asked_start_call inputs id group node protocol payload timeout w :
  bounds config w → InCommand (Rpc id group node protocol payload timeout) ∈ inputs →
  asked_inv inputs w → asked_inv inputs (start_call id group node protocol payload timeout w).2.
Proof.
  intros (_ & _ & _ & _ & Hp & _ & Hd) Hin Hw. unfold start_call. rewrite run_bind, run_gets. cbn [fst snd].
  destruct (rpc_protocols (w_state w) !! Z.to_nat protocol) as [name|] eqn:En; [|done].
  rewrite run_bind, run_gets. cbn [fst snd]. rewrite run_bind. cbn [now fst snd]. cbv zeta. rewrite run_bind.
  set (call := mk_call _ _ _ _ _ _ _ _ _ _ _). set (w1 := w <| w_tick ::= S |>).
  assert (asked_inv inputs w1) as Hw1 by by apply (asked_same _ w).
  assert (submitted inputs node (call_frame call)) as Hsub.
  { exists id, group, protocol, name, payload, timeout. rewrite <- Hp, <- Hd. done. }
  assert (∃ call' w2, first_candidates id group node call w1 = (call', w2) ∧ asked_inv inputs w2 ∧ call_asked inputs call') as (call' & w2 & -> & Hw2 & Hc').
  { unfold first_candidates. destruct node as [key|].
    - eexists _, _. split; [reflexivity|]. split; [done|]. exists (Some key). destruct (peer_id key) as [peer|] eqn:Ek; (split; [done|]);
        intros k [= <-]; (split; [done|]); cbn; intros p Hin'; [|by apply elem_of_nil in Hin'].
      apply list_elem_of_singleton in Hin' as ->. done.
    - assert (respects (keeps_asked inputs) (swarm (GetProviders (record_key group)))) as Hsw by (apply keeps_asked_everything; same).
      pose proof (Hsw w1 Hw1) as Hw2. rewrite run_bind. destruct (swarm _ w1) as [q w2]. cbn [fst snd] in *.
      eexists _, _. split; [reflexivity|]. split; [by apply (asked_same _ w2)|]. by exists None. }
  cbn [fst snd]. rewrite run_bind, run_modify. cbn [fst snd]. rewrite run_bind. cbn [ret snd]. apply asked_advance.
  by eapply asked_insert.
Qed.

Lemma asked_get_providers used inputs q found last w :
  calls_wf used w → asked_inv inputs w → asked_inv inputs (get_providers_progressed q found last w).2.
Proof.
  intros Hwf Hw. unfold get_providers_progressed. rewrite run_bind, run_gets. cbn [fst snd].
  destruct (topic_lookups (w_state w) !! q).
  { apply (keeps_asked_everything inputs (topic_providers q found last)); [|done].
    unfold topic_providers, dial_topic_members, iterate_found. same. }
  destruct (provider_queries (w_state w) !! q).
  { apply (keeps_asked_everything inputs (found_providers q z found last)); [|done].
    unfold found_providers, iterate_found. same. }
  destruct (provider_lookups (w_state w) !! q) as [id|] eqn:Eq; [|done]. rewrite run_bind.
  set (m := if bool_decide _ then _ else _). assert (w_state (m w).2 = w_state w ∧ asked_inv inputs (m w).2) as [Es Hw1].
  { subst m. case_bool_decide; [|done]. destruct found; [|done]. split; [done|]. by apply (asked_same _ w). }
  set (w1 := (m w).2) in *. clearbody w1 m. unfold call_providers. rewrite run_bind.
  assert (asked_inv inputs (queue_found id (m w).1 last w1).2) as Hw2.
  { apply asked_queue_found; [|done]. rewrite Es. intros call Hc. destruct (cw_calls _ _ _ Hwf id call Hc) as [Hok _]; [done|].
    eapply tracks_owner; [exact Eq|exact (co_lookup _ _ _ Hok)]. }
  assert (respects (keeps_asked inputs) (when last (modify (fun s => s <| provider_lookups ::= delete q |>));; advance id)) as Ht by asked.
  exact (Ht _ Hw2).
Qed.

Lemma asked_step_input used inputs input w :
  calls_wf used w → bounds config w → input ∈ inputs → asked_inv inputs w → asked_inv inputs (step input w).2.
Proof.
  intros Hwf Hb Hin Hw. destruct input as [c| |e|].
  - cbn [step]. destruct (aside_command c) eqn:Ea; [by apply (keeps_asked_everything _ _ (same_command c Ea))|].
    destruct c; try done; cbn [command]; rewrite run_bind; cbn [ret snd].
    + destruct (start_call _ _ _ _ _ _ w) as [r w'] eqn:E.
      pose proof (asked_start_call inputs id group node protocol payload timeout w Hb Hin Hw) as Hs. by rewrite E in Hs.
    + by apply (keeps_asked_same _ _ (same_respond _ _)).
    + by apply (keeps_asked_same _ _ (same_reject _)).
    + by apply (keeps_asked_same _ _ (same_topic_subscribe _)).
    + by apply (keeps_asked_same _ _ (same_topic_unsubscribe _)).
  - done.
  - rewrite step_swarm. destruct (aside e) eqn:Ea; [by apply (keeps_asked_everything _ _ (same_swarm_event e Ea))|].
    destruct e as [| | | | | |e| |e| | | |]; try done; cbn [swarm_event].
    + destruct e; try done; cbn [kad_event]; [by eapply asked_get_providers|by apply asked_get_closest_peers].
    + destruct e; cbn [rpc_event]; [by apply (keeps_asked_same _ _ (same_inbound_request _ _ _ _ _))|by apply asked_response|by apply asked_outbound_failure|..];
        by apply (keeps_asked_same _ _ (same_inbound_done _)).
    + by apply (keeps_asked_same _ _ (same_gossipsub_event _)).
  - rewrite step_tick. by apply asked_tick.
Qed.

Lemma asked_more inputs inputs' w : (∀ i, i ∈ inputs → i ∈ inputs') → asked_inv inputs w → asked_inv inputs' w.
Proof.
  intros Hsub [A1 A2].
  assert (∀ n f, submitted inputs n f → submitted inputs' n f) as Hs.
  { intros n f (id & g & p & nm & b & t & Hin & Hrest). exists id, g, p, nm, b, t. split; [by apply Hsub|done]. }
  split.
  - intros p f Hin. destruct (A1 p f Hin) as (node & Hsub' & Hk). exists node. split; [by apply Hs|done].
  - intros id call Hc. destruct (A2 id call Hc) as (node & Hsub' & Hk). exists node. split; [by apply Hs|done].
Qed.

(** C10: the node sends no request the caller did not ask for. In every
    execution each request that went out carries the frame of a call the caller
    submitted -- the node's delegation, the protocol's name and the payload --
    and when the caller named the node to ask, it went to that node, whatever
    lookups and answers of other nodes came in. *)
Theorem requests_asked h w :
  execution config h w → ∀ peer frame, (peer, frame) ∈ requested (trace w) → asked (h_inputs h) peer frame.
Proof.
  intros He. cut (asked_inv (h_inputs h) w); [by intros []|].
  induction He as [w [(local & t & Hs) _] Ht _ _ _ _ _|h w w' _ IH [[Es _ _ _] Et _ _ _ _]|h w now deadline cap answer out q _ IH _ _|h w _ IH|h w input He IH Hin Hid].
  - split; [rewrite Ht, first_notes_requested; intros p f Hp; by apply elem_of_nil in Hp|]. rewrite Hs. cbn [new_state calls]. intros id call. by rewrite lookup_empty.
  - apply (asked_same _ w); [|done]. unfold asking. by rewrite Es, Et.
  - by apply (asked_same _ w).
  - by apply (keeps_asked_everything _ _ (same_get_ready config)).
  - pose proof (execution_reachable _ _ _ He) as Hr. destruct (reachable_wf _ _ _ Hr) as (_ & Hwf & _).
    cbn [extend h_inputs]. eapply asked_step_input; [exact Hwf|exact (reachable_bounds _ _ _ Hr)| |].
    + apply elem_of_app. right. by apply list_elem_of_singleton.
    + eapply asked_more; [|exact IH]. intros i Hi. apply elem_of_app. by left.
Qed.

End asked.




End trace.


(** ** Witnesses

    The toy node, watched: it asks node 0x33, is asked by it and answers, follows
    a topic and judges an announcement. *)

Definition toy_network : @Swarm _ _ _ (instrumented (L0 := ToyLibp2p)) := (mk_toy_swarm 0 0 0 [toy_peer x33], first_notes toy_config).

Definition toy_watched : World (L := instrumented (L0 := ToyLibp2p)) := {|
  w_state := new_state toy_config (toy_peer x11) 0;
  w_swarm := toy_network;
  w_book := default_book;
  w_shared := new_shared toy_config;
  w_tick := 1;
  w_emitted := [];
  w_replies := [];
|}.

Definition toy_inputs : list Input :=
  [toy_ask_us; InCommand (Respond 1 [x07]); InCommand (TopicSubscribe (key_byte x55)); toy_announced].

Fixpoint play (inputs : list Input) (h : History) (w : World (L := instrumented (L0 := ToyLibp2p))) :
    History * World (L := instrumented (L0 := ToyLibp2p)) :=
  match inputs with
  | [] => (h, w)
  | input :: inputs => play inputs (extend input w h) (step input w).2
  end.

(** The inputs can come after a first one that submits a call. *)
Fixpoint playable (inputs : list Input) (w : World (L := instrumented (L0 := ToyLibp2p))) : bool :=
  match inputs with
  | [] => true
  | input :: inputs =>
      match input with InCommand (Rpc _ _ _ _ _ _) => false | _ => next_id (w_shared w) <? 2 ^ 64 - 1 end &&
      playable inputs (step input w).2
  end.

Lemma play_execution inputs h w :
  execution toy_config h w → playable inputs w = true →
  execution toy_config (play inputs h w).1 (play inputs h w).2.
Proof.
  revert h w. induction inputs as [|input inputs IH]; intros h w He Hp; [done|].
  cbn [playable] in Hp. apply andb_true_iff in Hp as [Hi Hp]. cbn [play]. apply IH; [|done].
  apply exec_step; [done|by destruct input as [[]| | |]|]. destruct input as [[]| | |]; try done; by apply Z.ltb_lt.
Qed.

Definition toy_played : History * World (L := instrumented (L0 := ToyLibp2p)) :=
  play toy_inputs (extend toy_ask toy_watched no_history) (step toy_ask toy_watched).2.

Lemma toy_execution : execution toy_config toy_played.1 toy_played.2.
Proof.
  apply play_execution; [|vm_compute; reflexivity].
  apply exec_step; [apply exec_start; [|done..]|..].
  - split; [|done]. by exists (toy_peer x11), 0.
  - split_and!; [set_solver|done|by eexists].
  - done.
Qed.

Lemma messages_judged_once_witness : verdicts (trace toy_played.2) = [(toy_request, toy_peer x44)].
Proof. exact (messages_judged_once _ _ _ toy_execution). Defined.

Lemma toy_apart : apart toy_config.
Proof. intros key a [= <-] E. apply (f_equal (fun l => nth 1 l x00)) in E. discriminate E. Qed.

Lemma topics_followed_witness :
  followed (trace toy_played.2) = {[ [x2f; x61] ]} ∪ topic_names (dom (topics (w_state toy_played.2))) ∧
  bool_decide (is_Some (topics (w_state toy_played.2) !! key_byte x55)) = true.
Proof.
  split; [|vm_compute; reflexivity].
  assert (list_to_set (announced toy_config) = ({[ [x2f; x61] ]} : gset IdentTopic)) as <- by apply union_empty_r_L.
  exact (proj1 (proj2 (topics_followed _ _ _ toy_execution)) toy_apart).
Defined.

Lemma channels_accounted_witness :
  channels_ok toy_config toy_played.1 toy_played.2 ∧ h_grants toy_played.1 = [(1, toy_request)] ∧
  (answers (trace toy_played.2)).*1 = [toy_request].
Proof. split; [exact (channels_accounted _ _ _ toy_execution)|]. split; vm_compute; reflexivity. Defined.

Lemma requests_asked_witness :
  ∃ peer frame, head (requested (trace toy_played.2)) = Some (peer, frame) ∧ asked toy_config (h_inputs toy_played.1) peer frame.
Proof.
  assert (bool_decide (is_Some (head (requested (trace toy_played.2)))) = true) as Hs by (vm_compute; reflexivity).
  apply bool_decide_eq_true in Hs. destruct (requested (trace toy_played.2)) as [|[peer frame] l] eqn:E; [by destruct Hs|].
  exists peer, frame. split; [reflexivity|]. apply (requests_asked _ _ _ toy_execution). rewrite E. by left.
Defined.
