(* ===== verification/Thread.v ===== *)
(** * Thread: the runtime thread and the event queue

    What the thread does to the queue the caller polls: each input of the loop
    pushes the records it emits, in order, and nothing else; the thread closes
    the queue once, when it ends, and tells [Node::start] first how far it got.
    With these the theorems of [EventQueue] apply to the node. *)

From S2P Require Import Prelude Abi Keys Multiaddr AddressBook Libp2p Events NodeState.
From S2P Require Import Build Calls Inbound Relay Topics Node CallsInv Emissions ToyNode.
From S2P Require Wire Delegation Limits EventQueue.

Section thread.
Context {I : Identity} {MA : Multiaddrs I} {H : Handles} {L : Libp2p I MA H} {B : Builders}.

(** Every kind of record the thread emits. *)
Definition all_kinds : list Z :=
  [LP2P_EV_LISTENING; LP2P_EV_RPC_REQUEST; LP2P_EV_RPC_RESPONSE; LP2P_EV_RPC_FAILED; LP2P_EV_LIMITED;
   LP2P_EV_PEER_CONNECTED; LP2P_EV_PEER_DISCONNECTED; LP2P_EV_PEER_DISCOVERED; LP2P_EV_DHT_RESULT;
   LP2P_EV_REACHABILITY; LP2P_EV_HOLE_PUNCH; LP2P_EV_ANNOUNCEMENT; LP2P_EV_TOPIC_MESSAGE].

Lemma emits_swarm_event e : respects (emits all_kinds) (swarm_event e).
Proof.
  destruct e; cbn [swarm_event]; try (destruct event; cbn [rpc_event]); unfold gossipsub_event, expired_listen_addr;
    repeat emits_step.
Qed.

Lemma emits_step_input input : respects (emits all_kinds) (step input).
Proof. destruct input; cbn [step]; repeat (emits_step || apply emits_swarm_event). Qed.

Lemma emits_run inputs : respects (emits all_kinds) (run inputs).
Proof.
  induction inputs as [|input inputs IH]; cbn [run]; [emits|].
  apply respects_bind; [exact _|apply emits_step_input|]. intros []; [exact IH|emits..].
Qed.

Lemma emits_listen_all addrs l : respects (emits []) (listen_all addrs l).
Proof. revert l. induction addrs as [|a addrs IH]; intros l; cbn [listen_all]; emits. Qed.

Lemma emits_await_listeners pending es : respects (emits all_kinds) (await_listeners pending es).
Proof.
  revert pending. induction es as [|[e|] es IH]; intros [|p pending]; cbn [await_listeners];
    repeat (emits_step || apply emits_swarm_event).
Qed.

(** ** The node and the caller's poll

    The loop's inputs and the passes of the caller's [lp2p_poll] as the lock on
    the queue orders them; the loop's end closes the queue. The rest of the
    handlers never looks at the queue, so a pass that falls between two records
    of one input answers what a pass before or after the same pushes does. *)

Inductive actor := Thread (input : Input) | Caller (now deadline cap : Z).

Definition poll_shared (now deadline cap : Z) : M (option (Z * bytes)) := fun w =>
  match EventQueue.poll_pass now deadline cap (events (w_shared w)) with
  | None => (None, w)
  | Some (answer, out, q) => (Some (answer, out), w <| w_shared ::= fun sh => sh <| events := q |> |>)
  end.

(** What the caller's passes answered and wrote; [alive] while the loop runs. *)
Fixpoint converse (alive : bool) (actors : list actor) : M (list (Z * bytes)) :=
  match actors with
  | [] => ret []
  | Caller now deadline cap :: actors =>
      r <- poll_shared now deadline cap;
      rs <- converse alive actors;
      ret (match r with Some x => x :: rs | None => rs end)
  | Thread input :: actors =>
      if alive then
        f <- step input;
        match f with
        | Continue => converse true actors
        | Break | Unwind => thread_end f;; converse false actors
        end
      else converse false actors
  end.

Definition actor_wf (a : actor) : Prop := match a with Caller _ _ cap => 0 ≤ cap | Thread _ => True end.

(** *** A conversation is an execution of the queue *)

Lemma qrun_app max ops ops' q :
  EventQueue.qrun max (ops ++ ops') q =
  let '(q1, rs) := EventQueue.qrun max ops q in
  let '(q2, rs') := EventQueue.qrun max ops' q1 in (q2, rs ++ rs').
Proof.
  revert q. induction ops as [|op ops IH]; intros q; cbn; [by destruct (EventQueue.qrun max ops' q)|].
  destruct (EventQueue.qexec max op q) as [q1 r]. rewrite IH. destruct (EventQueue.qrun max ops q1) as [q2 rs].
  destruct (EventQueue.qrun max ops' q2) as [q3 rs']. by destruct r.
Qed.

Lemma qrun_pushes max l q : EventQueue.qrun max (EventQueue.Push <$> l) q = (push_all max l q, []).
Proof. revert q. induction l as [|r l IH]; intros q; [done|]. cbn. by rewrite IH. Qed.

Lemma pushed_app ops ops' : EventQueue.pushed (ops ++ ops') = EventQueue.pushed ops ++ EventQueue.pushed ops'.
Proof. apply omap_app. Qed.

Lemma pushed_pushes l : EventQueue.pushed (EventQueue.Push <$> l) = l.
Proof. unfold EventQueue.pushed. induction l as [|r l IH]; [done|]. cbn. by rewrite IH. Qed.

(** [ops] is what happened to the queue between [w] and [w'], with [rs] as the
    answers of the polls in it. *)
Record queued (ops : list EventQueue.qop) (rs : list (Z * bytes)) (w w' : World) : Prop := mk_queued {
  qd_wf : Forall EventQueue.op_wf ops;
  qd_run : EventQueue.qrun (events_max_bytes (w_shared w)) ops (events (w_shared w)) = (events (w_shared w'), rs);
  qd_max : events_max_bytes (w_shared w') = events_max_bytes (w_shared w);
  qd_emitted : w_emitted w' = w_emitted w ++ EventQueue.pushed ops;
}.

Lemma queued_trans ops ops' rs rs' w w1 w' :
  queued ops rs w w1 → queued ops' rs' w1 w' → queued (ops ++ ops') (rs ++ rs') w w'.
Proof.
  intros [A1 B1 C1 D1] [A2 B2 C2 D2]. split.
  - by apply Forall_app.
  - rewrite qrun_app, B1, <- C1, B2. done.
  - by rewrite C2.
  - by rewrite D2, D1, pushed_app, app_assoc.
Qed.

Lemma queued_emits ks w w' : emits ks w w' →
  ∃ l, queued (EventQueue.Push <$> l) [] w w' ∧ poisoned (w_shared w') = poisoned (w_shared w).
Proof.
  intros (l & E & F & [= Q1 Q2 Q3]). exists l. split; [|done]. split.
  - apply Forall_fmap. eapply Forall_impl; [exact F|]. by intros r [_ Hb].
  - by rewrite qrun_pushes, Q2.
  - done.
  - by rewrite pushed_pushes.
Qed.
Lemma queued_nothing w : queued [] [] w w.
Proof. split; [done..|]. by rewrite app_nil_r. Qed.

Lemma queued_poll now deadline cap w : 0 ≤ cap →
  queued [EventQueue.Poll now deadline cap] (option_list (poll_shared now deadline cap w).1)
         w (poll_shared now deadline cap w).2.
Proof.
  intros Hcap. unfold poll_shared.
  destruct (EventQueue.poll_pass now deadline cap (events (w_shared w))) as [[[answer out] q]|] eqn:E.
  - split; [by repeat constructor| |done|by rewrite app_nil_r]. cbn. by rewrite E.
  - split; [by repeat constructor| |done|by rewrite app_nil_r]. cbn. by rewrite E.
Qed.

Lemma queued_close f w : ∃ s, queued [EventQueue.Close s] [] w (thread_end f w).2.
Proof.
  destruct f; [exists LP2P_ERR_SHUT_DOWN..|exists LP2P_ERR_PANIC];
    (split; [by repeat constructor|done|done|by rewrite app_nil_r]).
Qed.

Lemma converse_queued alive actors w : Forall actor_wf actors →
  ∃ ops, queued ops (converse alive actors w).1 w (converse alive actors w).2 ∧
         blen ops ≤ blen (EventQueue.pushed ops) + blen actors + (if alive then 1 else 0).
Proof.
  intros Hwf. revert alive w. induction Hwf as [|[input|t d cap] actors Ha Hwf IH]; intros alive w; cbn [converse].
  - exists []. split; [apply queued_nothing|]. unfold blen. cbn. destruct alive; lia.
  - destruct alive.
    2:{ destruct (IH false w) as (ops & Hq & Hlen). exists ops. split; [done|]. unfold blen in *. cbn [length]. lia. }
    rewrite run_bind. destruct (queued_emits _ _ _ (emits_step_input input w)) as (l & Hs & _).
    destruct (step input w) as [f w1]. cbn [fst snd] in *.
    assert (∃ ops, queued ops (converse (match f with Continue => true | _ => false end) actors
                (match f with Continue => w1 | _ => (thread_end f w1).2 end)).1 w1
              (converse (match f with Continue => true | _ => false end) actors
                (match f with Continue => w1 | _ => (thread_end f w1).2 end)).2 ∧
            blen ops ≤ blen (EventQueue.pushed ops) + blen actors + 1) as (ops & Hq & Hlen).
    { destruct f; [apply (IH true w1)|..]; set (w2 := (thread_end _ w1).2);
        (destruct (IH false w2) as (ops & Hq & Hlen); destruct (queued_close _ w1 : ∃ s, queued _ _ w1 w2) as [s Hs'];
         exists (EventQueue.Close s :: ops); split; [exact (queued_trans [_] _ [] _ _ _ _ Hs' Hq)|];
         change (EventQueue.pushed (EventQueue.Close s :: ops)) with (EventQueue.pushed ops);
         unfold blen in *; cbn [length] in *; lia). }
    exists ((EventQueue.Push <$> l) ++ ops). split.
    +
      destruct f; [|rewrite run_bind..]; exact (queued_trans _ _ [] _ _ _ _ Hs Hq).
    + rewrite pushed_app, pushed_pushes, !blen_app. unfold blen in *. rewrite length_fmap. cbn [length]. lia.
  - rewrite run_bind. pose proof (queued_poll t d cap w Ha) as Hp.
    destruct (poll_shared t d cap w) as [r w1]. cbn [fst snd] in *. rewrite run_bind.
    destruct (IH alive w1) as (ops & Hq & Hlen). destruct (converse alive actors w1) as [rs w2]. cbn [fst snd] in *.
    exists (EventQueue.Poll t d cap :: ops). split.
    + pose proof (queued_trans _ _ _ _ _ _ _ Hp Hq) as H'. by destruct r.
    + change (EventQueue.pushed (EventQueue.Poll t d cap :: ops)) with (EventQueue.pushed ops).
      unfold blen in *. cbn [length]. lia.
Qed.

(** *** Properties *)

(** C7: what the caller's polls receive is what the node emitted, in order, and
    nothing is lost silently. However the polls fall between the inputs of the
    loop, the bytes they wrote, put together, are whole records and reports of
    losses; the records delivered, followed by those still queued, are a
    subsequence, in order, of what the node's handlers emitted; and the losses
    reported plus those still to report are exactly the emitted records missing
    from it. *)
Theorem events_reach_caller actors w :
  events (w_shared w) = EventQueue.new_queue → w_emitted w = [] → 0 ≤ events_max_bytes (w_shared w) →
  Forall actor_wf actors →
  let '(rets, w') := converse true actors w in
  blen (w_emitted w') + blen actors + 1 < 2 ^ 64 →
  ∃ log taken,
    concat (snd <$> rets) = EventQueue.log_bytes log ∧
    taken `sublist_of` w_emitted w' ∧
    EventQueue.delivered_records log ++ EventQueue.records (events (w_shared w')) = taken ∧
    EventQueue.losses log + EventQueue.dropped (events (w_shared w')) = blen (w_emitted w') - blen taken.
Proof.
  intros Hnew He Hmax Hwf. destruct (converse_queued true actors w Hwf) as (ops & [Ha Hb Hc Hd] & Hlen).
  destruct (converse true actors w) as [rets w']. cbn [fst snd] in *. intros Hbound.
  rewrite He in Hd. cbn in Hd. rewrite Hd in *. rewrite Hnew in Hb.
  pose proof (EventQueue.qrun_refines _ ops EventQueue.new_queue Ha (EventQueue.new_queue_inv _ Hmax)) as Hr.
  rewrite Hb in Hr. destruct Hr as (log & Hrun & Hout); [change (EventQueue.dropped EventQueue.new_queue) with 0; lia|].
  apply EventQueue.channel_run_accounts in Hrun as (taken & Hsub & Hrec & Hlost). by exists log, taken.
Qed.
(** ** The life of the thread *)

(** Why the thread does not get as far as its loop. *)
Definition startup_failure (runtime : bool) (config : Config) (keypair : Keypair) (w : World) : option Z :=
  if negb runtime then Some LP2P_ERR_NO_MEMORY
  else match build_swarm config keypair with
       | Err status => Some status
       | Ok _ => match (listen_all (cfg_listen config) [] w).1 with
                 | None => Some LP2P_ERR_NETWORK
                 | Some _ => None
                 end
       end.

Definition closing_status (f : flow) : Z :=
  match f with Unwind => LP2P_ERR_PANIC | Continue | Break => LP2P_ERR_SHUT_DOWN end.

Lemma build_swarm_error config keypair s : build_swarm config keypair = Err s → s = LP2P_ERR_NETWORK.
Proof.
  unfold build_swarm. destruct tcp_starts; cbn; [|congruence]. destruct relay_client_starts; cbn; [|congruence].
  destruct (make_behaviour config keypair); cbn; congruence.
Qed.

Lemma startup_failure_not_ok runtime config keypair w : startup_failure runtime config keypair w ≠ Some LP2P_OK.
Proof.
  unfold startup_failure. destruct runtime; [|done]. cbn [negb].
  destruct (build_swarm config keypair) eqn:E; [|by apply build_swarm_error in E as ->].
  by destruct (listen_all _ _ _).1.
Qed.

(** The body tells [ready] one status, and only emits. *)
Lemma thread_body_spec runtime config keypair es inputs w :
  let '((ready, outcome), w') := thread_body runtime config keypair es inputs w in
  ready = [default LP2P_OK (startup_failure runtime config keypair w)] ∧
  (is_Some (startup_failure runtime config keypair w) → outcome = Some Break ∧ w_emitted w' = w_emitted w) ∧
  emits all_kinds w w'.
Proof.
  unfold thread_body, startup_failure. destruct runtime; cbn [negb]; [|by split_and!].
  destruct (build_swarm config keypair) as [plan|s] eqn:Eb; [|by split_and!].
  rewrite run_bind. pose proof (emits_mono [] all_kinds _ eq_refl (emits_listen_all (cfg_listen config) []) w) as Hl.
  pose proof (emits_listen_all (cfg_listen config) [] w) as H0.
  destruct (listen_all (cfg_listen config) [] w) as [[ls|] w1]; cbn [fst snd] in *.
  2:{ split_and!; [done| |done]. intros _. split; [done|].
      destruct H0 as (l & E & F & _). destruct F as [|r l [Hr _] _]; [by rewrite app_nil_r in E|]. done. }
  match goal with |- let '(_, _) := ?m w1 in _ =>
    assert (respects (emits all_kinds) m) as Hm end.
  { repeat (emits_step || apply emits_await_listeners || apply emits_run ||
            (eapply emits_mono; [|apply emits_provide]; reflexivity)). }
  specialize (Hm w1).
  match type of Hm with emits _ _ (?m w1).2 => assert (∃ f, (m w1).1 = ([LP2P_OK], f)) as [f Hf] end.
  { do 6 rewrite run_bind. eexists. reflexivity. }
  match type of Hm with emits _ _ (?m w1).2 => destruct (m w1) as [[ready outcome] w2] end.
  cbn [fst snd] in *. injection Hf as -> ->. split; [done|]. split; [by intros [? ?]|]. by etransitivity.
Qed.

(** C23: the thread tells [Node::start] first whether it got as far as its loop,
    and [start] succeeds exactly then; when it did not, it has emitted nothing
    and is over. Whatever it does, it only pushes records to the event queue,
    those it emits in their order, until it is over: then it closes the queue,
    with SHUT_DOWN, or with PANIC and the node poisoned when a handler panicked.
    A thread whose loop still waits has not closed it. *)
Theorem thread_lifecycle runtime config keypair es inputs w :
  let '((ready, outcome), w') := run_thread runtime config keypair es inputs w in
  let failure := startup_failure runtime config keypair w in
  head ready = Some (default LP2P_OK failure) ∧
  (start_answer (head ready) = Ok () ↔ failure = None) ∧
  (is_Some failure → outcome = Some Break ∧ w_emitted w' = w_emitted w) ∧
  ∃ l, w_emitted w' = w_emitted w ++ l ∧ Forall EventQueue.built l ∧
    let pushed := push_all (events_max_bytes (w_shared w)) l (events (w_shared w)) in
    match outcome with
    | None => events (w_shared w') = pushed ∧ poisoned (w_shared w') = poisoned (w_shared w)
    | Some f =>
        events (w_shared w') = EventQueue.close (closing_status f) pushed ∧
        poisoned (w_shared w') = (match f with Unwind => true | _ => poisoned (w_shared w) end)
    end.
Proof.
  unfold run_thread. rewrite run_bind.
  pose proof (thread_body_spec runtime config keypair es inputs w) as Hb.
  destruct (thread_body runtime config keypair es inputs w) as [[ready outcome] w1].
  destruct Hb as (-> & Hfail & (l & E & F & [= Q1 Q2 Q3])).
  assert (Forall EventQueue.built l) as Fb by (eapply Forall_impl; [exact F|]; by intros r [_ Hr]).
  assert (∀ more : list Z, head ([default LP2P_OK (startup_failure runtime config keypair w)] ++ more) =
            Some (default LP2P_OK (startup_failure runtime config keypair w))) as Hh by done.
  assert (start_answer (Some (default LP2P_OK (startup_failure runtime config keypair w))) = Ok () ↔
          startup_failure runtime config keypair w = None) as Ha.
  { pose proof (startup_failure_not_ok runtime config keypair w) as Hn.
    destruct (startup_failure runtime config keypair w) as [s|]; [|done]. cbn [default from_option id start_answer].
    destruct (Z.eqb_spec s LP2P_OK) as [->|]; [done|]. split; discriminate. }
  cbn [fst snd]. destruct outcome as [f|].
  - rewrite run_bind. destruct f; cbn [thread_end fst snd]; rewrite ?run_bind; unfold modify_shared, ret; cbn [fst snd].
    all: rewrite Hh; split_and!; [done|exact Ha|exact Hfail|].
    all: exists l; split; [done|]; split; [done|]; cbn [events poisoned w_shared upd closing_status]; by rewrite ?Q2, ?Q3.
  - split_and!; [done|exact Ha|exact Hfail|]. by exists l.
Qed.

End thread.

(** ** Examples

    The caller asks, the answer arrives, two polls see its record and, after
    the shutdown, the end of the queue. *)

Definition toy_actors : list actor :=
  [Thread toy_ask; Caller 0 0 1000; Thread toy_answer; Thread (InCommand Shutdown); Caller 0 0 1000; Caller 0 0 1000].

Example toy_conversation :
  (fst <$> (converse true toy_actors toy_start).1) = [0; LP2P_EVENT_HEADER_BYTES + 8; LP2P_ERR_SHUT_DOWN].
Proof. vm_compute. reflexivity. Qed.

Lemma events_reach_caller_witness :
  let '(rets, w') := converse true toy_actors toy_start in
  ∃ log taken,
    concat (snd <$> rets) = EventQueue.log_bytes log ∧
    taken `sublist_of` w_emitted w' ∧
    EventQueue.delivered_records log ++ EventQueue.records (events (w_shared w')) = taken ∧
    EventQueue.losses log + EventQueue.dropped (events (w_shared w')) = blen (w_emitted w') - blen taken.
Proof.
  assert (Forall actor_wf toy_actors) as Hwf by (repeat constructor; vm_compute; discriminate).
  assert (blen (w_emitted (converse true toy_actors toy_start).2) + blen toy_actors + 1 < 2 ^ 64) as Hlen by (vm_compute; reflexivity).
  pose proof (events_reach_caller toy_actors toy_start eq_refl eq_refl ltac:(vm_compute; discriminate) Hwf) as Hx.
  destruct (converse true toy_actors toy_start) as [rets w']. by apply Hx.
Defined.
