(* ===== verification/FfiSpec.v ===== *)
(** * FfiSpec: what the C functions promise

    What a call does to the caller's memory and to the node behind the handle;
    no call hands the node's thread a command that makes it panic; and a handle
    is only ever made for a configuration whose delegation is good. *)

From S2P Require Import Prelude Abi Keys Toy Multiaddr AddressBook Libp2p Events NodeState.
From S2P Require Import Calls Inbound Relay Topics Node ToyNode CallsInv NodeInv Emissions Authentic CallsSpec Bounds Ffi.
From S2P Require Wire Delegation Limits EventQueue.

(** ** Memory *)

Lemma store_frame m p l m' a : store m p l = Some m' → a < p ∨ p + blen l ≤ a → m' !! a = m !! a.
Proof.
  revert m p. induction l as [|b l IH]; intros m p E Ha; [by injection E as <-|].
  cbn [store] in E. apply bind_Some in E as (x & _ & E). unfold blen in *. cbn [length] in Ha.
  rewrite (IH _ _ E) by lia. apply lookup_insert_ne. lia.
Qed.

Lemma load_frame m m' p n : (∀ a, p ≤ a < p + Z.of_nat n → m' !! a = m !! a) → load m' p n = load m p n.
Proof.
  revert p. induction n as [|n IH]; intros p Ha; [done|]. cbn [load]. rewrite Ha by lia.
  destruct (m !! p); [|done]. cbn [mbind option_bind]. rewrite IH; [done|]. intros a Hr. apply Ha. lia.
Qed.

Lemma load_store m p l m' : store m p l = Some m' → load m' p (length l) = Some l.
Proof.
  revert m p. induction l as [|b l IH]; intros m p E; [done|]. cbn [store] in E. apply bind_Some in E as (x & _ & E).
  cbn [load length]. rewrite (store_frame _ _ _ _ p E) by lia. rewrite lookup_insert_eq. cbn [mbind option_bind].
  by rewrite (IH _ _ E).
Qed.

Lemma store_dom m p l m' : store m p l = Some m' → dom m' = dom m.
Proof.
  revert m p. induction l as [|b l IH]; intros m p E; [by injection E as <-|]. cbn [store] in E.
  apply bind_Some in E as (x & Hx & E). rewrite (IH _ _ E). apply elem_of_dom_2 in Hx.
  rewrite dom_insert_L. set_solver.
Qed.

Lemma length_load m p n l : load m p n = Some l → length l = n.
Proof.
  revert p l. induction n as [|n IH]; intros p l E; cbn [load] in E; [by injection E as <-|].
  apply bind_Some in E as (b & _ & E). apply bind_Some in E as (r & Hr & [= <-]). cbn. by rewrite (IH _ _ Hr).
Qed.

(** What can be read can be written. *)
Lemma store_Some m p l l' : load m p (length l') = Some l → ∃ m', store m p l' = Some m'.
Proof.
  revert m p l. induction l' as [|b l' IH]; intros m p l E; [by exists m|]. cbn [load length store] in *.
  apply bind_Some in E as (x & Hx & E). apply bind_Some in E as (r & Hr & _). rewrite Hx. cbn [mbind option_bind].
  apply (IH _ _ r). rewrite <- Hr. apply load_frame. intros a Ha. apply lookup_insert_ne. lia.
Qed.

Section ffi.
Context {I : Identity} {MA : Multiaddrs I} {H : Handles} {L : Libp2p I MA H}.

(** ** Taking a computation apart *)

Lemma fbind_Some {A B} (m : F A) (k : A → F B) pr r pr' :
  fbind m k pr = Some (r, pr') →
  (∃ a pr1, m pr = Some (Ok a, pr1) ∧ k a pr1 = Some (r, pr')) ∨
  (∃ e, m pr = Some (Err e, pr') ∧ r = Err e).
Proof.
  unfold fbind. intros ([[a|e] pr1] & E & Hk)%bind_Some; [left; by exists a, pr1|].
  injection Hk as <- <-. right. by exists e.
Qed.

(** A computation that only reads: it leaves the process as it was, and fails
    with INVALID_ARGUMENT. *)
Definition reads {A} (m : F A) : Prop :=
  ∀ pr r pr', m pr = Some (r, pr') → pr' = pr ∧ ∀ e, r = Err e → e = LP2P_ERR_INVALID_ARGUMENT.

Lemma reads_pure {A} (r : result A Z) : (∀ e, r = Err e → e = LP2P_ERR_INVALID_ARGUMENT) → reads (pure r).
Proof. intros Hr pr r' pr' [= <- <-]. by split. Qed.

Lemma reads_bind {A B} (m : F A) (k : A → F B) : reads m → (∀ a, reads (k a)) → reads (fbind m k).
Proof.
  intros Hm Hk pr r pr' [(a & pr1 & E1 & E2)|(e & E1 & ->)]%fbind_Some.
  - apply Hm in E1 as [-> _]. by apply Hk in E2.
  - apply Hm in E1 as [-> He]. split; [done|]. intros e' [= <-]. by apply He.
Qed.

Lemma reads_load p n : reads (load_bytes p n).
Proof. intros pr r pr' (l & _ & E)%bind_Some. by injection E as <- <-. Qed.

Lemma reads_string p : reads (string p).
Proof.
  unfold string. destruct (p =? 0); [apply reads_pure; by intros e [= <-]|].
  intros pr r pr' (l & _ & E)%bind_Some. injection E as <- <-. split; [done|]. intros e. case_match; naive_solver.
Qed.

Lemma reads_string_list l : reads (string_list l).
Proof.
  induction l as [|p l IH]; [by apply reads_pure|]. cbn [string_list].
  apply reads_bind; [apply reads_string|]. intros s. apply reads_bind; [done|]. intros r. by apply reads_pure.
Qed.

Lemma reads_strings p n : reads (strings p n).
Proof.
  unfold strings. destruct (n =? 0); [by apply reads_pure|]. destruct (p =? 0); [apply reads_pure; by intros e [= <-]|].
  apply reads_bind; [|intros l; apply reads_string_list].
  apply reads_bind; [apply reads_load|]. intros l. by apply reads_pure.
Qed.

Lemma reads_byte_slice p n : reads (byte_slice p n).
Proof.
  unfold byte_slice. destruct (n =? 0); [by apply reads_pure|]. destruct (p =? 0); [apply reads_pure; by intros e [= <-]|].
  apply reads_load.
Qed.

Lemma reads_key p : reads (key p).
Proof.
  unfold key. destruct (p =? 0); [apply reads_pure; by intros e [= <-]|].
  apply reads_bind; [apply reads_load|]. intros l. by apply reads_pure.
Qed.

Lemma reads_handle node : reads (handle node).
Proof.
  unfold handle. destruct (node =? 0); [apply reads_pure; by intros e [= <-]|].
  intros pr r pr' (n & _ & E)%bind_Some. by injection E as <- <-.
Qed.

Lemma reads_require b : reads (require b LP2P_ERR_INVALID_ARGUMENT).
Proof. apply reads_pure. by destruct b; intros e [= <-]. Qed.

Lemma handle_Some node pr n pr' : handle node pr = Some (Ok n, pr') → pr' = pr ∧ handles pr !! node = Some n ∧ node ≠ 0.
Proof.
  unfold handle. destruct (Z.eqb_spec node 0); [done|]. intros (n' & Hn & E)%bind_Some. by injection E as <- <-.
Qed.

Lemma require_Some b e pr pr' u : require b e pr = Some (Ok u, pr') → pr' = pr ∧ b = true.
Proof. unfold require, pure. destruct b; [|done]. by intros [= <- <-]. Qed.

Lemma reads_same {A} (m : F A) pr r pr' : reads m → m pr = Some (r, pr') → pr' = pr.
Proof. intros Hm E. by apply Hm in E as [-> _]. Qed.

(** ** Sending commands *)

(** A command a C call may put on the channel of [n]. *)
Definition command_ok (n : Node) (c : Command) : Prop :=
  match c with
  | Rpc id _ target protocol payload _ =>
      id = next_id (node_shared n) ∧ 0 ≤ protocol < node_rpc_protocol_count n ∧
      blen payload ≤ node_rpc_max_request_bytes n ∧
      match target with Some k => is_Some (peer_id k) | None => True end
  | AddAddress k _ => is_Some (peer_id k)
  | SetLimit class scope protocol _ _ =>
      scope ≤ LP2P_SCOPE_GLOBAL ∧ class ≠ LP2P_CLASS_BLOCKED ∧
      (protocol = LP2P_PROTOCOL_ANY ∨ protocol = LP2P_PROTOCOL_TOPICS ∨ protocol < node_rpc_protocol_count n)
  | AnnounceSetPayload payload => ∃ max, node_announce_max_payload_bytes n = Some max ∧ blen payload ≤ max
  | TopicSubscribe _ => topics_subscribed (node_shared n) < node_topic_max_subscriptions n
  | TopicPublish _ payload => blen payload ≤ node_topic_max_message_bytes n
  | Bootstrap id | RandomWalk id | FindProviders id _ => id = next_id (node_shared n)
  | Shutdown => False
  | _ => True
  end.

(** The id that a command answers its caller with. *)
Definition command_id (c : Command) : option Z :=
  match c with
  | Rpc id _ _ _ _ _ | Bootstrap id | RandomWalk id | FindProviders id _ => Some id
  | _ => None
  end.

(** What a C call may do to the handles: nothing, or take an id, or put one good
    command on the channel of its own handle while the thread is there to take
    it, under an id it has taken when the command has one. *)
Definition issues (node : Z) (pr pr' : Process) : Prop :=
  handles pr' = handles pr ∨
  ∃ n sh l, handles pr !! node = Some n ∧
    handles pr' = <[node := n <| node_shared := sh |> <| node_sent ::= fun sent => sent ++ l |>]> (handles pr) ∧
    (sh = node_shared n ∨ sh = (node_shared n) <| next_id ::= incr64 |>) ∧
    (l = [] ∨ ∃ c, l = [c] ∧ command_ok n c ∧ poisoned (node_shared n) = false ∧ node_receiving n = true ∧
                  (command_id c = None ∨ sh = (node_shared n) <| next_id ::= incr64 |>)).

Lemma send_spec node n c pr r pr' :
  send node n c pr = Some (r, pr') →
  (r = Ok LP2P_OK ∧ poisoned (node_shared n) = false ∧ node_receiving n = true ∧
   pr' = pr <| handles ::= alter (fun n => n <| node_sent ::= fun l => l ++ [c] |>) node |>) ∨
  (pr' = pr ∧ (r = Ok LP2P_ERR_PANIC ∨ r = Ok LP2P_ERR_SHUT_DOWN)).
Proof.
  unfold send. destruct (poisoned (node_shared n)) eqn:Ep; [intros [= <- <-]; right; by eauto|].
  destruct (node_receiving n) eqn:Er; [|intros [= <- <-]; right; by eauto].
  intros [(u & pr1 & E1 & E)|(e & E1 & ->)]%fbind_Some; [|done]. injection E1 as <- <-. injection E as <- <-. by left.
Qed.

Lemma issues_nothing node pr pr' : pr' = pr → issues node pr pr'.
Proof. intros ->. by left. Qed.

Lemma alter_insert (m : gmap Z Node) node n f : m !! node = Some n → alter f node m = <[node := f n]> m.
Proof.
  intros Hn. apply map_eq. intros i. destruct (decide (i = node)) as [->|Hi].
  - by rewrite lookup_alter_eq, lookup_insert_eq, Hn.
  - by rewrite lookup_alter_ne, lookup_insert_ne.
Qed.

Lemma issues_send node n c pr r pr' :
  handles pr !! node = Some n → command_ok n c → command_id c = None →
  send node n c pr = Some (r, pr') → issues node pr pr'.
Proof.
  intros Hn Hc Hi [(-> & Hp & Hr & ->)|(-> & _)]%send_spec; [|by left]. right.
  exists n, (node_shared n), [c]. split; [done|]. split; [|split; [by left|]].
  - cbn [handles upd]. by rewrite (alter_insert _ _ _ _ Hn); destruct n.
  - right. exists c. by eauto 6.
Qed.

(** Taking an id, then sending. *)
Lemma issues_take node n id c pr pr1 r pr2 :
  handles pr !! node = Some n → next_id_of node n pr = Some (Ok id, pr1) →
  (id = next_id (node_shared n) → command_ok n c) →
  send node n c pr1 = Some (r, pr2) → issues node pr pr2 ∧ memory pr2 = memory pr.
Proof.
  intros Hn Ht Hc Hs. unfold next_id_of in Ht. apply fbind_Some in Ht as [(u & pr' & E1 & E)|(e & E1 & E)]; [|done].
  injection E1 as <- <-. injection E as <- <-. specialize (Hc eq_refl).
  apply send_spec in Hs as [(-> & Hp & Hr & ->)|(-> & _)]; (split; [right|done]).
  - exists n, ((node_shared n) <| next_id ::= incr64 |>), [c]. split; [done|]. split; [|split; [by right|right; exists c; by eauto 6]].
    cbn [handles upd]. rewrite (alter_insert (handles pr) _ _ _ Hn).
    rewrite (alter_insert _ node (n <| node_shared ::= fun sh => sh <| next_id ::= incr64 |> |>)) by apply lookup_insert_eq.
    by rewrite insert_insert_eq.
  - exists n, ((node_shared n) <| next_id ::= incr64 |>), []. split; [done|]. split; [|split; [by right|by left]].
    cbn [handles upd]. rewrite (alter_insert (handles pr) _ _ _ Hn). f_equal. destruct n. cbn. by rewrite app_nil_r.
Qed.

Lemma issues_memory node pr pr1 m : issues node pr pr1 → issues node pr (pr1 <| memory := m |>).
Proof. done. Qed.

Lemma byte_slice_length p len pr l pr' : 0 ≤ len → byte_slice p len pr = Some (Ok l, pr') → blen l = len.
Proof.
  unfold byte_slice. intros Hl. destruct (Z.eqb_spec len 0) as [->|]; [by intros [= <- <-]|].
  destruct (p =? 0); [done|]. intros (l' & Hl' & E)%bind_Some. injection E as <- <-.
  apply length_load in Hl'. unfold blen. lia.
Qed.

End ffi.

(** Takes the first computation of a hypothesis out: its result, or the end. *)
Ltac fcase E :=
  let a := fresh "a" in let pr1 := fresh "pr" in let E1 := fresh "Ha" in let e := fresh "e" in
  apply fbind_Some in E as [(a & pr1 & E1 & E)|(e & E1 & ->)].

(** The same where the whole computation succeeded. *)
Ltac fok E :=
  let a := fresh "a" in let pr1 := fresh "pr" in let E1 := fresh "Ha" in
  apply fbind_Some in E as [(a & pr1 & E1 & E)|(? & _ & ?)]; [|discriminate].

Create HintDb reads.
#[export] Hint Resolve reads_handle reads_key reads_byte_slice reads_string reads_strings reads_require
  reads_load : reads.

(** A step that only reads: its end leaves the process alone, and what follows it
    starts where it did. *)
Ltac reads_done := first [ solve [eauto 2 with reads] | apply reads_pure; intros ? [= <-]; done | by apply reads_pure ].
Ltac fread E :=
  let a := fresh "a" in let pr1 := fresh "pr" in let E1 := fresh "Ha" in let e := fresh "e" in let Hs := fresh in
  apply fbind_Some in E as [(a & pr1 & E1 & E)|(e & E1 & ->)];
  [ pose proof E1 as Hs; apply reads_same in Hs; [subst pr1 | reads_done]
  | apply issues_nothing; apply reads_same in E1; [done | reads_done] ].

Section calls.
Context {I : Identity} {MA : Multiaddrs I} {H : Handles} {L : Libp2p I MA H}.

(** Every C function that sends commands, on the handle [node], for arguments of
    the widths the header gives them. *)
Inductive c_call (node : Z) : F Z → Prop :=
| call_request group node_key protocol data len timeout_ms request_id :
    0 ≤ protocol < 2 ^ 16 → 0 ≤ len →
    c_call node (lp2p_rpc_request node group node_key protocol data len timeout_ms request_id)
| call_respond id data len : c_call node (lp2p_rpc_respond node id data len)
| call_reject id : c_call node (lp2p_rpc_reject node id)
| call_set_class group class : c_call node (lp2p_peer_set_class node group class)
| call_limit_set class scope protocol r : c_call node (lp2p_limit_set node class scope protocol r)
| call_limit_set_bytes class scope protocol r : c_call node (lp2p_limit_set_bytes node class scope protocol r)
| call_announce data len : c_call node (lp2p_announce_set_payload node data len)
| call_subscribe key : c_call node (lp2p_topic_subscribe node key)
| call_unsubscribe key : c_call node (lp2p_topic_unsubscribe node key)
| call_publish key data len : c_call node (lp2p_topic_publish node key data len)
| call_topic_peers key channel answer : c_call node (lp2p_topic_peers node key channel answer)
| call_provide key : c_call node (lp2p_dht_provide node key)
| call_stop_providing key : c_call node (lp2p_dht_stop_providing node key)
| call_find_providers key query_id : c_call node (lp2p_dht_find_providers node key query_id)
| call_bootstrap query_id : c_call node (lp2p_dht_bootstrap node query_id)
| call_random_walk query_id : c_call node (lp2p_dht_random_walk node query_id)
| call_add_address node_key multiaddr : c_call node (lp2p_add_address node node_key multiaddr)
| call_routing_sample buf cap max channel answer : c_call node (lp2p_routing_sample node buf cap max channel answer)
| call_stats out : c_call node (lp2p_stats_get node out).

(** The end of a call that answers with a fresh id. *)
Definition take_send_store (node : Z) (n : Node) (make : Z → Command) (p : Z) : F Z :=
  fbind (next_id_of node n) (fun id => fbind (send node n (make id)) (fun sent =>
  fbind (if sent =? LP2P_OK then store_bytes p (le_bytes 8 id) else pure (Ok ())) (fun _ => pure (Ok sent)))).

Definition id_taken (n : Node) : Node := n <| node_shared ::= fun sh => sh <| next_id ::= incr64 |> |>.
Definition with_command (c : Command) (n : Node) : Node := n <| node_sent ::= fun sent => sent ++ [c] |>.

(** What it does when it does not fail: the command is on the channel and its id
    in the caller's memory, or there was no thread to take it. *)
Lemma take_send_store_spec node n make p pr r pr' :
  handles pr !! node = Some n → take_send_store node n make p pr = Some (r, pr') →
  let id := next_id (node_shared n) in
  let n1 := id_taken n in
  (r = Ok LP2P_OK ∧ poisoned (node_shared n) = false ∧ node_receiving n = true ∧
   handles pr' = <[node := with_command (make id) n1]> (handles pr) ∧
   store (memory pr) p (le_bytes 8 id) = Some (memory pr')) ∨
  ((r = Ok LP2P_ERR_PANIC ∨ r = Ok LP2P_ERR_SHUT_DOWN) ∧ handles pr' = <[node := n1]> (handles pr) ∧ memory pr' = memory pr).
Proof.
  intros Hn E id n1.
  set (pr1 := pr <| handles ::= alter id_taken node |>).
  change (fbind (send node n (make id)) (fun sent =>
    fbind (if sent =? LP2P_OK then store_bytes p (le_bytes 8 id) else pure (Ok ())) (fun _ => pure (Ok sent))) pr1 =
    Some (r, pr')) in E.
  assert (handles pr1 = <[node := n1]> (handles pr)) as H1 by exact (alter_insert _ _ _ id_taken Hn).
  assert (memory pr1 = memory pr) as H2 by done. clearbody pr1.
  fcase E.
  2:{ apply send_spec in Ha as [(? & _)|(_ & [?|?])]; discriminate. }
  apply send_spec in Ha as [(Hs & Hp & Hr & ->)|(-> & Hs)].
  - left. injection Hs as ->. fcase E.
    2:{ apply bind_Some in Ha as (m & Hm & ?). done. }
    injection E as <- <-. apply bind_Some in Ha as (m & Hm & Hpr).
    match type of Hpr with Some (Ok (), ?x) = Some (Ok _, ?y) => assert (y = x) as -> by congruence end. clear Hpr.
    cbn [memory handles upd] in Hm |- *. rewrite H2 in Hm. rewrite H1, (alter_insert _ node n1 (with_command (make id))) by apply lookup_insert_eq.
    rewrite insert_insert_eq. split_and!; try done.
  - right. fcase E.
    + assert (a = LP2P_ERR_PANIC ∨ a = LP2P_ERR_SHUT_DOWN) as Ha' by (destruct Hs; [left|right]; congruence).
      injection E as <- <-. destruct (Z.eqb_spec a LP2P_OK) as [->|]; [by destruct Ha'|]. injection Ha as <- <-.
      split; [destruct Ha' as [-> | ->]; [by left|by right]|done].
    + destruct (a =? LP2P_OK) eqn:Ea; [|done]. apply Z.eqb_eq in Ea as ->. by destruct Hs.
Qed.

Lemma issues_take_send_store node n make p pr r pr' :
  handles pr !! node = Some n → command_ok n (make (next_id (node_shared n))) →
  take_send_store node n make p pr = Some (r, pr') → issues node pr pr'.
Proof.
  intros Hn Hc E. destruct (take_send_store_spec _ _ _ _ _ _ _ Hn E) as [(_ & Hp & Hr & Hh & _)|(_ & Hh & _)]; right;
    exists n, ((node_shared n) <| next_id ::= incr64 |>).
  - exists [make (next_id (node_shared n))]. split; [done|]. split; [rewrite Hh; by destruct n|]. split; [by right|].
    right. by eauto 8.
  - exists []. split; [done|]. split; [rewrite Hh; destruct n; cbn; by rewrite app_nil_r|]. split; [by right|by left].
Qed.

Lemma issues_query node query_id make pr r pr' :
  (∀ n, command_ok n (make (next_id (node_shared n)))) →
  query node query_id make pr = Some (r, pr') → issues node pr pr'.
Proof.
  intros Hmake. unfold query. intros E. fread E. fread E. apply handle_Some in Ha as (_ & Hn & _).
  by apply (issues_take_send_store node a make query_id _ r).
Qed.

(** Checks that only read, then one command. *)
Ltac fsend E :=
  match goal with
  | Ha : handle ?node ?pr = Some (Ok ?n, ?pr) |- issues ?node ?pr _ =>
      let Hn := fresh "Hn" in
      apply handle_Some in Ha as (_ & Hn & _);
      eapply (issues_send node n); [exact Hn|..|exact E]; [|reflexivity]
  end.

Lemma issues_request node group node_key protocol data len timeout_ms request_id pr r pr' :
  0 ≤ protocol < 2 ^ 16 → 0 ≤ len →
  lp2p_rpc_request node group node_key protocol data len timeout_ms request_id pr = Some (r, pr') → issues node pr pr'.
Proof.
  intros Hprot Hlen E. unfold lp2p_rpc_request in E. fread E. fread E.
  assert (reads (if node_key =? 0 then pure (Ok None) else fbind (key node_key) (fun k => pure (Ok (Some k))))) as Ht.
  { destruct (node_key =? 0); [by apply reads_pure|]. apply reads_bind; [apply reads_key|]. intros k. by apply reads_pure. }
  apply fbind_Some in E as [(target & pr1 & E1 & E)|(e & E1 & ->)]; [|apply issues_nothing; by apply reads_same in E1].
  apply reads_same in E1; [subst pr1|done]. fread E. fread E. fread E.
  apply handle_Some in Ha as (_ & Hn & _). apply require_Some in Ha2 as [_ Hok]. apply require_Some in Ha3 as [_ Hpeer].
  refine (issues_take_send_store node a (fun id => Rpc id a0 target protocol a1 _) request_id _ _ _ Hn _ E).
  apply negb_true_iff in Hok. apply orb_false_iff in Hok as [[_ Hp%Z.leb_gt]%orb_false_iff Hl%Z.ltb_ge].
  apply byte_slice_length in Ha1; [|done]. split; [done|]. split; [lia|]. split; [lia|].
  destruct target; [|done]. by apply bool_decide_eq_true in Hpeer.
Qed.

Lemma issues_set_limit node class scope protocol unit r pr x pr' :
  set_limit node class scope protocol unit r pr = Some (x, pr') → issues node pr pr'.
Proof.
  intros E. unfold set_limit in E. fread E. cbv zeta in E. fread E. fsend E.
  apply require_Some in Ha0 as [_ Hok%negb_true_iff].
  apply orb_false_iff in Hok as [[Hs%Z.ltb_ge Hc%Z.eqb_neq]%orb_false_iff Hp%negb_false_iff].
  split; [done|]. split; [done|]. apply orb_true_iff in Hp as [[Hp%Z.eqb_eq|Hp%Z.eqb_eq]%orb_true_iff|Hp%Z.ltb_lt]; eauto.
Qed.

Lemma issues_after_send {A} node pr x pr' (k : Z → F A) n c :
  handles pr !! node = Some n → command_ok n c → command_id c = None →
  (∀ s, issues node pr pr' ∨ reads (k s) ∨ ∀ p r p', k s p = Some (r, p') → handles p' = handles p) →
  fbind (send node n c) k pr = Some (x, pr') → issues node pr pr'.
Proof.
  intros Hn Hc Hid Hk [(s & pr1 & E1 & E)|(e & E1 & ->)]%fbind_Some; [|by eapply issues_send].
  pose proof (issues_send _ _ _ _ _ _ Hn Hc Hid E1) as Hi. destruct (Hk s) as [?|[Hr|Hh]]; [done| |].
  - apply reads_same in E; [by subst|done].
  - apply Hh in E. unfold issues in *. by rewrite E.
Qed.

Lemma store_handles p l pr r pr' : store_bytes p l pr = Some (r, pr') → handles pr' = handles pr.
Proof. intros (m & _ & E)%bind_Some. by injection E as <- <-. Qed.

(** A C function changes the handles only through [issues]. *)
Lemma issues_call node m pr r pr' : c_call node m → m pr = Some (r, pr') → issues node pr pr'.
Proof.
  destruct 1; intros E.
  - by eapply issues_request.
  - unfold lp2p_rpc_respond in E. fread E. fread E. by fsend E.
  - unfold lp2p_rpc_reject in E. fread E. by fsend E.
  - unfold lp2p_peer_set_class in E. fread E. fread E. by fsend E.
  - by eapply issues_set_limit.
  - by eapply issues_set_limit.
  - unfold lp2p_announce_set_payload in E. fread E. fread E.
    destruct (node_announce_max_payload_bytes a) as [max|] eqn:Emax; [|injection E as <- <-; by left].
    fread E. fsend E. apply require_Some in Ha1 as [_ Hl%Z.leb_le]. by exists max.
  - unfold lp2p_topic_subscribe in E. fread E. fread E.
    destruct (Z.leb_spec (node_topic_max_subscriptions a) (topics_subscribed (node_shared a))); [injection E as <- <-; by left|].
    by fsend E.
  - unfold lp2p_topic_unsubscribe in E. fread E. fread E. by fsend E.
  - unfold lp2p_topic_publish in E. fread E. fread E. fread E. fread E. fsend E.
    by apply require_Some in Ha2 as [_ Hl%Z.leb_le].
  - unfold lp2p_topic_peers in E. fread E. fread E. apply handle_Some in Ha as (_ & Hn & _).
    eapply (issues_after_send _ _ _ _ _ a); [done|..|exact E]; [done|reflexivity|intros s]. right. right. intros p q p' E'.
    destruct (negb (s =? LP2P_OK)); [by injection E' as <- <-|]. apply fbind_Some in E' as [(? & ? & [= _ <-] & [= <- <-])|(? & [= _ <-] & _)]; done.
  - unfold lp2p_dht_provide in E. fread E. fread E. by fsend E.
  - unfold lp2p_dht_stop_providing in E. fread E. fread E. by fsend E.
  - unfold lp2p_dht_find_providers in E. fread E. (eapply issues_query; [|exact E]; done).
  - (eapply issues_query; [|exact E]; done).
  - (eapply issues_query; [|exact E]; done).
  - unfold lp2p_add_address in E. fread E. fread E. fread E. fread E.
    apply fbind_Some in E as [(ma & pr1 & E1 & E)|(e & E1 & ->)].
    2:{ injection E1 as _ <-. by left. }
    injection E1 as _ <-. fsend E. by apply require_Some in Ha1 as [_ Hp%bool_decide_eq_true].
  - unfold lp2p_routing_sample in E. fread E. fread E. apply handle_Some in Ha as (_ & Hn & _).
    eapply (issues_after_send _ _ _ _ _ a); [done|..|exact E]; [done|reflexivity|intros s]. right. right. intros p q p' E'.
    destruct (negb (s =? LP2P_OK)); [by injection E' as <- <-|].
    apply fbind_Some in E' as [(? & ? & [= _ <-] & E')|(? & [= _ <-] & _)]; [|done].
    destruct (copy_records _ _ _ _) as [written out].
    apply fbind_Some in E' as [(? & ? & E1 & [= <- <-])|(? & E1 & _)]; by apply store_handles in E1.
  - unfold lp2p_stats_get in E. fread E. fread E. fread E. cbv zeta in E. fread E. left.
    apply fbind_Some in E as [(? & ? & E1 & [= <- <-])|(? & E1 & _)]; by apply store_handles in E1.
Qed.

End calls.
