(* ===== verification/PollSpec.v ===== *)
(** * PollSpec: what [lp2p_poll] does to the caller's memory

    The queue's contract, carried over to the buffer the caller passes: one pass
    writes whole records to the start of the buffer, never outside it, and its
    answer says how far; the queue behind the handle moves on by exactly them. *)

From S2P Require Import Prelude Abi Keys Toy Multiaddr AddressBook Libp2p Events NodeState.
From S2P Require Import Node ToyNode Ffi FfiSpec.
From S2P Require EventQueue.

Section poll.
Context {I : Identity} {MA : Multiaddrs I} {H : Handles} {L : Libp2p I MA H}.

(** The size of what the queue would hand out next: the report of losses before
    the records. *)
Definition next_size (inner : EventQueue.Inner) : option Z :=
  if 0 <? EventQueue.dropped inner then Some LP2P_EVENT_HEADER_BYTES else blen <$> head (EventQueue.records inner).

(** What a pass that hands nothing out answers: that the next item does not fit;
    and when there is none, the closing status, or 0 once the time is up. *)
Definition idle_answer (expired : Prop) (cap : Z) (inner : EventQueue.Inner) (answer : Z) : Prop :=
  match next_size inner with
  | Some size => cap < size ∧ answer = LP2P_ERR_BUFFER_TOO_SMALL
  | None => match EventQueue.closed inner with Some status => answer = status | None => answer = 0 ∧ expired end
  end.

Lemma next_size_none max inner :
  EventQueue.queue_inv max inner → next_size inner = None ↔ EventQueue.records inner = [] ∧ EventQueue.dropped inner = 0.
Proof.
  intros Hinv. pose proof (EventQueue.inv_dropped _ _ Hinv) as Hd. unfold next_size.
  destruct (Z.ltb_spec 0 (EventQueue.dropped inner)); [split; [done|lia]|].
  destruct (EventQueue.records inner); cbn; split; try done; [split; [done|lia]|by intros []].
Qed.

Lemma must_wait_spec max inner :
  EventQueue.queue_inv max inner →
  EventQueue.must_wait inner = true ↔ next_size inner = None ∧ EventQueue.closed inner = None.
Proof.
  intros Hinv. rewrite (next_size_none _ _ Hinv). unfold EventQueue.must_wait.
  rewrite !andb_true_iff, !bool_decide_eq_true, Z.eqb_eq. tauto.
Qed.

(** What a pass that does not wait answers, writes and leaves. *)
Lemma poll_pass_cases max now deadline cap inner answer out inner' :
  EventQueue.queue_inv max inner → 0 ≤ cap < 2 ^ 31 →
  EventQueue.poll_pass now deadline cap inner = Some (answer, out, inner') →
  blen out ≤ cap ∧
  ((∃ log, EventQueue.hands_out (EventQueue.channel_of inner) log (EventQueue.channel_of inner') ∧
      out = EventQueue.log_bytes log ∧ out ≠ [] ∧ answer = blen out ∧
      ∀ size, next_size inner' = Some size → cap < blen out + size) ∨
   (out = [] ∧ EventQueue.channel_of inner' = EventQueue.channel_of inner ∧ idle_answer (deadline ≤ now) cap inner answer)).
Proof.
  intros Hinv Hcap. unfold EventQueue.poll_pass, idle_answer. destruct (EventQueue.must_wait inner) eqn:Hw.
  { apply (must_wait_spec _ _ Hinv) in Hw as [-> ->]. destruct (Z.leb_spec deadline now); [|done]. intros [= <- <- <-].
    change (blen []) with 0. split; [lia|]. right. done. }
  intros [= Hp]. pose proof (EventQueue.poll_drain_spec max cap inner Hinv ltac:(lia)) as Hd. rewrite Hp in Hd.
  destruct Hd as [(-> & -> & -> & Hbig)|(log & Hh & Ho & Hl & Hc & _ & Hret & Hmax)].
  { change (blen []) with 0. split; [lia|]. right. do 2 (split; [done|]). unfold next_size.
    destruct Hbig as [[Hpos Hs]|(-> & r & rest & -> & Hs)]; [by rewrite (proj2 (Z.ltb_lt _ _) Hpos)|done]. }
  split; [done|]. pose proof Hh as (Hrec & Hlost & Hlost')%EventQueue.hands_out_spec. cbn in Hrec, Hlost, Hlost'.
  case_bool_decide as Hnil.
  - right. pose proof (EventQueue.inv_records _ _ Hinv) as Hne. rewrite Hrec in Hne.
    rewrite Ho in Hnil. apply EventQueue.log_bytes_nil in Hnil; [|by apply Forall_app in Hne as [? _]]. subst log.
    split; [done|]. cbn in Hrec, Hlost. split; [unfold EventQueue.channel_of; by rewrite Hrec, Hlost, Hlost'|].
    assert (EventQueue.records inner' = []) as Er by (destruct (EventQueue.records inner') as [|r rest] eqn:Er; [done|by destruct (Hmax r rest eq_refl) as [_ []]]).
    assert (next_size inner = None) as En by (apply (next_size_none _ _ Hinv); by rewrite Hrec, Er).
    rewrite En. destruct (EventQueue.closed inner) as [st|] eqn:Ec; [exact Hret|].
    by rewrite (proj2 (must_wait_spec _ _ Hinv)) in Hw.
  - left. exists log. do 3 (split; [done|]). split; [rewrite Hret; apply as_i32_small; pose proof (blen_nonneg out); lia|].
    intros size Hs. unfold next_size in Hs. rewrite Hlost' in Hs. destruct (EventQueue.records inner') as [|r rest] eqn:Er; [done|].
    injection Hs as <-. by apply (Hmax r rest).
Qed.

(** When a pass goes back to waiting. *)
Lemma poll_pass_waits max now deadline cap inner :
  EventQueue.queue_inv max inner → EventQueue.poll_pass now deadline cap inner = None →
  next_size inner = None ∧ EventQueue.closed inner = None ∧ now < deadline.
Proof.
  intros Hinv. unfold EventQueue.poll_pass. destruct (EventQueue.must_wait inner) eqn:Hw; [|done].
  apply (must_wait_spec _ _ Hinv) in Hw as [-> ->]. by destruct (Z.leb_spec deadline now).
Qed.

Lemma store_nil m p : store m p [] = Some m.
Proof. done. Qed.

(** C14: one pass of [lp2p_poll] over a well-formed queue, on every branch. It
    fails with INVALID_ARGUMENT, for a null pointer or a negative timeout, or goes
    back to waiting, while nothing is queued, the queue is open and time is left,
    without a trace. Otherwise it writes nothing outside the caller's [cap] bytes
    and touches no other handle. Either the first bytes of the buffer, as many as
    it answers, are whole records and loss reports that the queue handed out from
    its front, as many as fit; or the buffer and what is queued are as they were,
    and the answer is exactly BUFFER_TOO_SMALL when the next item does not fit,
    and when there is none the status of a closed queue, or 0 when nothing came
    in time. *)
Theorem poll_memory node buf cap timeout_ms began now n pr r pr' :
  handles pr !! node = Some n →
  EventQueue.queue_inv (events_max_bytes (node_shared n)) (events (node_shared n)) → 0 ≤ cap < 2 ^ 31 →
  lp2p_poll node buf cap timeout_ms began now pr = Some (r, pr') →
  let inner := events (node_shared n) in
  let deadline := began + millis timeout_ms in
  (∀ a, a < buf ∨ buf + cap ≤ a → memory pr' !! a = memory pr !! a) ∧
  (∀ other, other ≠ node → handles pr' !! other = handles pr !! other) ∧
  match r with
  | Err e => e = LP2P_ERR_INVALID_ARGUMENT ∧ pr' = pr ∧ (node = 0 ∨ buf = 0 ∧ 0 < cap ∨ timeout_ms < 0)
  | Ok None => pr' = pr ∧ next_size inner = None ∧ EventQueue.closed inner = None ∧ now < deadline
  | Ok (Some answer) =>
      ∃ queue, handles pr' !! node = Some (n <| node_shared ::= fun sh => sh <| events := queue |> |>) ∧
      let before := EventQueue.channel_of inner in
      let after := EventQueue.channel_of queue in
      ((∃ log, EventQueue.hands_out before log after ∧ 0 < answer ≤ cap ∧
          load (memory pr') buf (Z.to_nat answer) = Some (EventQueue.log_bytes log) ∧
          ∀ size, next_size queue = Some size → cap < answer + size) ∨
       (memory pr' = memory pr ∧ after = before ∧ idle_answer (deadline ≤ now) cap inner answer))
  end.
Proof.
  intros Hn Hinv Hcap E. cbv zeta. unfold lp2p_poll in E.
  apply fbind_Some in E as [(n' & pr1 & E1 & E)|(e & E1 & ->)].
  2:{ pose proof E1 as [-> He]%reads_handle. split_and!; try done; [by apply He|]. left. unfold handle in E1.
      destruct (Z.eqb_spec node 0); [done|]. rewrite Hn in E1. discriminate E1. }
  apply handle_Some in E1 as (-> & Hn' & _). rewrite Hn in Hn'. injection Hn' as <-.
  apply fbind_Some in E as [(u & pr1 & E1 & E)|(e & E1 & ->)].
  2:{ pose proof E1 as [-> He]%reads_require. split_and!; try done; [by apply He|]. right. unfold require, pure in E1.
      destruct (Z.eqb_spec buf 0), (Z.ltb_spec 0 cap), (Z.ltb_spec timeout_ms 0); cbn in E1; try discriminate E1; by auto. }
  apply require_Some in E1 as [-> _].
  destruct (EventQueue.poll_pass _ _ _ _) as [[[answer out] queue]|] eqn:Ep.
  2:{ unfold pure in E. injection E as <- <-. do 2 (split; [done|]). split; [done|]. exact (poll_pass_waits _ _ _ _ _ Hinv Ep). }
  destruct (poll_pass_cases _ _ _ _ _ _ _ _ Hinv Hcap Ep) as [Hlen Hcases].
  apply fbind_Some in E as [(u1 & pr1 & E1 & E)|(e & E1 & ->)]; [|discriminate].
  unfold update_node in E1. injection E1 as _ <-.
  apply fbind_Some in E as [(u2 & pr2 & E1 & E)|(e & E1 & ->)]; [|apply bind_Some in E1 as (? & _ & ?); done].
  apply bind_Some in E1 as (m & Hm & E1). injection E1 as _ <-. unfold pure in E. injection E as <- <-.
  cbn [memory handles upd] in Hm |- *. split; [|split].
  - intros a Ha. apply (store_frame _ _ _ _ _ Hm). lia.
  - intros other Ho. by rewrite lookup_alter_ne.
  - exists queue. split; [by rewrite lookup_alter_eq, Hn|].
    destruct Hcases as [(log & Hh & Ho & Hne & -> & Hmax)|(-> & Hch & Hans)].
    + left. exists log. split; [done|]. split; [destruct out; [done|]; unfold blen in *; cbn [length] in *; lia|]. split; [|exact Hmax].
      unfold blen. rewrite Nat2Z.id, <- Ho. exact (load_store _ _ _ _ Hm).
    + right. cbn in Hm. injection Hm as <-. done.
Qed.

End poll.

(** ** Witness

    One record waits in the queue of handle 8; the buffer is 200 bytes at 100. *)

Definition toy_record : EventRecord := build (with_id 5 (new_event LP2P_EV_DHT_RESULT)).

Definition toy_queue : EventQueue.Inner := EventQueue.push 10000 toy_record EventQueue.new_queue.

Definition toy_node : Ffi.Node :=
  (new_node toy_config) <| node_shared ::= fun sh => sh <| events := toy_queue |> |>.

Definition toy_poll_process : Process :=
  mk_process (list_to_map (zip (seqZ 99 202) (repeat x00 202))) {[ 8 := toy_node ]}.

Definition toy_poll : F (option Z) := lp2p_poll 8 100 200 0 0 0.

Lemma toy_queue_inv : EventQueue.queue_inv (events_max_bytes (node_shared toy_node)) (events (node_shared toy_node)).
Proof.
  apply EventQueue.push_inv; [by exists (with_id 5 (new_event LP2P_EV_DHT_RESULT)), []|].
  apply EventQueue.new_queue_inv. vm_compute. congruence.
Qed.

Lemma poll_memory_witness :
  ∃ pr' log, toy_poll toy_poll_process = Some (Ok (Some LP2P_EVENT_HEADER_BYTES), pr') ∧
    load (memory pr') 100 (Z.to_nat LP2P_EVENT_HEADER_BYTES) = Some (EventQueue.log_bytes log) ∧
    memory pr' !! 99 = memory toy_poll_process !! 99.
Proof.
  assert (fst <$> toy_poll toy_poll_process = Some (Ok (Some LP2P_EVENT_HEADER_BYTES))) as Hs by (vm_compute; reflexivity).
  apply fmap_Some in Hs as ([r pr'] & E & Hr). cbn [fst] in Hr. subst r.
  assert (handles toy_poll_process !! 8 = Some toy_node) as Hn by (unfold toy_poll_process; cbn [handles]; apply lookup_singleton_eq).
  destruct (poll_memory 8 100 200 0 0 0 toy_node _ _ _ Hn toy_queue_inv ltac:(lia) E) as (Hm & _ & queue & _ & Hcases).
  exists pr'. destruct Hcases as [(log & _ & _ & Hl & _)|(_ & _ & Hans)].
  - exists log. split; [exact E|]. split; [exact Hl|]. apply Hm. lia.
  - exfalso. destruct Hans as [Hsmall _]. vm_compute in Hsmall. discriminate Hsmall.
Defined.
