(* ===== verification/Startup.v ===== *)
(** * Startup: from the caller's options to a running node

    What [lp2p_start] accepts and what it makes of it: the options of an older
    header keep the defaults of the fields it does not know, a handle is made
    only for a configuration in which the rest of the program is safe, and the
    frames of calls the configuration allows fit the limits it gives libp2p. *)

From S2P Require Import Prelude Abi Keys Toy Multiaddr AddressBook Libp2p NodeState.
From S2P Require Import Build Node ToyNode Ffi FfiSpec.
From S2P Require Wire Delegation.

Section startup.
Context {I : Identity} {MA : Multiaddrs I} {H : Handles} {L : Libp2p I MA H} {B : Builders}.

(** ** Configurations *)

(** What the rest of the program relies on in a configuration made from the
    options [o]. *)
Record config_good (o : lp2p_options) (config : Config) : Prop := mk_config_good {
  good_group : Delegation.group (cfg_delegation config) = o_group o;
  good_seed : cfg_node_seed config = o_node_seed o;
  good_protocol_count : blen (cfg_rpc_protocols config) ≤ 65535;
  good_protocols : Forall (fun p => 1 ≤ blen p ≤ 255) (cfg_rpc_protocols config);
  good_request : cfg_rpc_max_request_bytes config = o_rpc_max_request_bytes o ∧ o_rpc_max_request_bytes o ≠ 0;
  good_response : cfg_rpc_max_response_bytes config = o_rpc_max_response_bytes o ∧ o_rpc_max_response_bytes o ≠ 0;
  good_timeout : cfg_rpc_timeout config = millis (o_rpc_timeout_ms o) ∧ o_rpc_timeout_ms o ≠ 0;
  good_queue : cfg_rpc_max_response_bytes config + 4096 ≤ cfg_event_queue_bytes config ∧
               o_event_queue_bytes o ≤ cfg_event_queue_bytes config;
  good_dht : head (cfg_dht_protocol config) = Some x2f;
  good_announce : match cfg_announce config with
                  | Some a => ao_enabled (o_announce o) ≠ 0 ∧ an_topic a ≠ [] ∧
                              an_max_payload_bytes a = ao_max_payload_bytes (o_announce o)
                  | None => ao_enabled (o_announce o) = 0
                  end;
}.

Lemma reads_announce_config a dht : reads (announce_config a dht).
Proof.
  unfold announce_config. destruct (ao_enabled a =? 0); [by apply reads_pure|].
  apply reads_bind; [destruct (ao_topic a =? 0); [by apply reads_pure|apply reads_string]|].
  intros topic. apply reads_bind; [apply reads_require|]. intros _. by apply reads_pure.
Qed.

Lemma parse_addresses_Err l e : parse_addresses l = Err e → e = LP2P_ERR_INVALID_ARGUMENT.
Proof.
  induction l as [|s l IH]; [done|]. cbn. destruct (parse_multiaddr s); cbn; [|congruence].
  destruct (parse_addresses l); cbn; [done|]. intros [= <-]. by apply IH.
Qed.

Lemma reads_config_from o : reads (config_from o).
Proof.
  unfold config_from.
  repeat first
    [ apply reads_bind; [|intros ?]
    | apply reads_byte_slice | apply reads_strings | apply reads_string | apply reads_require
    | apply reads_announce_config
    | apply reads_pure; intros ?; try done ].
  - destruct (Delegation.parse _); cbn; congruence.
  - apply parse_addresses_Err.
  - unfold stream_protocol. case_bool_decide; congruence.
  - unfold reachability_from. repeat case_match; congruence.
Qed.

Lemma protocols_ok_spec l : protocols_ok l = true → blen l ≤ 65535 ∧ Forall (fun p => 1 ≤ blen p ≤ 255) l.
Proof.
  unfold protocols_ok. rewrite andb_true_iff, Z.leb_le, forallb_forall. intros [Hl Hf]. split; [done|].
  apply Forall_forall. intros p Hp%list_elem_of_In%Hf. apply andb_true_iff in Hp as [Hp1 Hp2%Z.leb_le].
  apply negb_true_iff, bool_decide_eq_false in Hp1. destruct p; [done|]. unfold blen in *. cbn in *. lia.
Qed.

Lemma announce_config_Some a dht pr c pr' :
  announce_config a dht pr = Some (Ok c, pr') →
  match c with
  | Some c => ao_enabled a ≠ 0 ∧ an_topic c ≠ [] ∧ an_max_payload_bytes c = ao_max_payload_bytes a
  | None => ao_enabled a = 0
  end.
Proof.
  unfold announce_config. destruct (Z.eqb_spec (ao_enabled a) 0) as [E0|E0]; [by intros [= <- <-]|].
  intros E. fok E. fok E. apply require_Some in Ha0 as [-> Ht].
  unfold pure in E. injection E as E _. rewrite <- E. apply negb_true_iff, bool_decide_eq_false in Ht. done.
Qed.

Lemma config_from_good o pr config pr' :
  config_from o pr = Some (Ok config, pr') → pr' = pr ∧ config_good o config.
Proof.
  intros E. split; [by apply reads_config_from in E as [-> _]|]. unfold config_from in E.
  do 12 fok E. injection E as E _. subst config.
  repeat match goal with Hr : require _ _ _ = Some _ |- _ => apply require_Some in Hr as [_ Hr] end.
  repeat match goal with Hr : pure _ _ = Some _ |- _ => injection Hr as Hr _ end.
  apply bool_decide_eq_true in Ha1.
  repeat match goal with Hr : announce_config _ _ _ = Some _ |- _ => apply announce_config_Some in Hr end.
  repeat match goal with Hr : protocols_ok _ = true |- _ => apply protocols_ok_spec in Hr as [? ?] end.
  match goal with Hr : negb (_ || _ || _) = true |- _ =>
    apply negb_true_iff, orb_false_iff in Hr as [[Hr1%Z.eqb_neq Hr2%Z.eqb_neq]%orb_false_iff Hr3%Z.eqb_neq] end.
  split; cbn; try done; try lia.
  unfold stream_protocol in *. case_bool_decide; congruence.
Qed.
(** ** Starting *)

(** The error of a start is never LP2P_OK, and nothing happens before it. *)
Lemma node_start_error config now_ms spawned ready e :
  node_start config now_ms spawned ready = Err e → e ≠ LP2P_OK.
Proof.
  unfold node_start, Node.start_checks, Node.start_answer.
  destruct (keypair_from_seed _); cbn [ok_or res_bind]; [|by intros [= <-]].
  destruct (public_key _); cbn [ok_or res_bind]; [|by intros [= <-]].
  destruct (Delegation.verify_for _ _ _); cbn [map_err res_bind]; [|by intros [= <-]].
  destruct spawned; cbn [negb]; [|by intros [= <-]]. destruct ready as [s|]; cbn [res_bind]; [|by intros [= <-]].
  destruct (Z.eqb_spec s LP2P_OK); cbn [res_bind]; [done|]. by intros [= <-].
Qed.

Lemma node_start_Ok config now_ms spawned ready n :
  node_start config now_ms spawned ready = Ok n →
  n = new_node config ∧ spawned = true ∧ ready = Some LP2P_OK ∧
  ∃ keypair key, keypair_from_seed (cfg_node_seed config) = Some keypair ∧ public_key keypair = Some key ∧
                 Delegation.verify_for (cfg_delegation config) key now_ms = Ok ().
Proof.
  unfold node_start, Node.start_checks, Node.start_answer.
  destruct (keypair_from_seed _) as [keypair|] eqn:E1; cbn [ok_or res_bind]; [|congruence].
  destruct (public_key keypair) as [key|] eqn:E2; cbn [ok_or res_bind]; [|congruence].
  destruct (Delegation.verify_for _ _ _) as [[]|] eqn:E3; cbn [map_err res_bind]; [|congruence].
  destruct spawned; cbn [negb]; [|congruence]. destruct ready as [s|]; cbn [res_bind]; [|congruence].
  destruct (Z.eqb_spec s LP2P_OK) as [->|]; cbn [res_bind]; [|congruence]. intros [= <-].
  split_and!; [done..|]. by exists keypair, key.
Qed.

(** C13: [lp2p_start], on every branch. It succeeds exactly when it answers
    LP2P_OK; then the options the caller passed made a good configuration, the
    group's delegation is valid now for the key of the node's seed, the thread
    was spawned and got as far as its loop, the handle of a fresh node is in the
    place the caller named and nothing else of its memory changed. Otherwise it
    changed nothing: no handle, no byte. *)
Theorem start_spec opt out now_ms spawned ready address pr r pr' :
  lp2p_start opt out now_ms spawned ready address pr = Some (r, pr') →
  if status r =? LP2P_OK then
    ∃ size caller config keypair key,
      le_value <$> load (memory pr) opt 4 = Some size ∧ 4 ≤ size ∧
      load (memory pr) opt (Z.to_nat (Z.min size sizeof_lp2p_options)) = Some caller ∧
      config_good (start_options size caller) config ∧
      keypair_from_seed (cfg_node_seed config) = Some keypair ∧ public_key keypair = Some key ∧
      Delegation.verify_for (cfg_delegation config) key now_ms = Ok () ∧
      spawned = true ∧ ready = Some LP2P_OK ∧
      handles pr' = <[address := new_node config]> (handles pr) ∧
      load (memory pr') out 8 = Some (le_bytes 8 address) ∧
      ∀ a, a < out ∨ out + 8 ≤ a → memory pr' !! a = memory pr !! a
  else pr' = pr.
Proof.
  intros E. unfold lp2p_start in E.
  destruct ((opt =? 0) || (out =? 0)); [by injection E as <- <-|].
  apply fbind_Some in E as [(head & pr1 & E1 & E)|(e & E1 & ->)];
    [|apply bind_Some in E1 as (? & _ & ?); done].
  apply bind_Some in E1 as (l & Hl & E1). injection E1 as <- <-. cbv zeta in E.
  destruct (Z.ltb_spec (le_value l) 4) as [|Hsize]; [by injection E as <- <-|].
  apply fbind_Some in E as [(caller & pr1 & E1 & E)|(e & E1 & ->)];
    [|apply bind_Some in E1 as (? & _ & ?); done].
  apply bind_Some in E1 as (c & Hc & E1). injection E1 as <- <-.
  apply fbind_Some in E as [(config & pr1 & E1 & E)|(e & E1 & ->)].
  2:{ apply reads_config_from in E1 as [-> He]. by rewrite (He e eq_refl). }
  apply config_from_good in E1 as [-> Hgood].
  apply fbind_Some in E as [(n & pr1 & E1 & E)|(e & E1 & ->)].
  2:{ unfold pure in E1. injection E1 as E1 <-. apply node_start_error in E1. cbn [status].
      by destruct (Z.eqb_spec e LP2P_OK). }
  unfold pure in E1. injection E1 as E1 <-. apply node_start_Ok in E1 as (-> & -> & -> & kp & key & H1 & H2 & H3).
  apply fbind_Some in E as [([] & pr1 & E1 & E)|(e & E1 & ->)]; [|discriminate]. injection E1 as <-.
  apply fbind_Some in E as [([] & pr2 & E1 & E)|(e & E1 & ->)];
    [|apply bind_Some in E1 as (? & _ & ?); done].
  apply bind_Some in E1 as (m & Hm & E1). unfold pure in E. injection E as <- <-. injection E1 as <-.
  change (Z.to_nat 4) with 4%nat in Hl.
  cbn [status]. exists (le_value l), c, config, kp, key. rewrite Hl. cbn in Hm |- *.
  split_and!; try done.
  - exact (load_store _ _ _ _ Hm).
  - intros a Ha. apply (store_frame _ _ _ _ _ Hm). unfold blen. rewrite length_le_bytes. lia.
Qed.
(** ** Frames and libp2p's limits *)

(** C24: the limits the node gives libp2p fit the frames of what the
    configuration allows. A peer with this configuration reads every request
    with a protocol name of at most 255 bytes and a payload within
    [rpc_max_request_bytes], however its bytes arrive; a response is read exactly
    when its payload is at most 256 bytes longer than [rpc_max_response_bytes];
    and a topic message or announcement within its configured length leaves
    gossipsub its 1024 bytes of overhead. *)
Theorem frames_fit config key behaviour d :
  make_behaviour config key = Ok behaviour → blen d = LP2P_DELEGATION_BYTES →
  0 ≤ cfg_rpc_max_request_bytes config < 2 ^ 32 → 0 ≤ cfg_rpc_max_response_bytes config < 2 ^ 32 →
  (∀ name payload io, blen name ≤ 255 → blen payload ≤ cfg_rpc_max_request_bytes config →
     Wire.delivers io (Wire.encode_request d name payload) →
     Wire.read_request (bh_codec behaviour) io = Ok (Wire.encode_request d name payload)) ∧
  (∀ payload io, Wire.delivers io (Wire.encode_response d payload) →
     Wire.read_response (bh_codec behaviour) io = Ok (Wire.encode_response d payload) ↔
     blen payload ≤ cfg_rpc_max_response_bytes config + 256) ∧
  (∀ payload, blen payload ≤ cfg_topic_max_message_bytes config ∨
     (∃ a, cfg_announce config = Some a ∧ blen payload ≤ an_max_payload_bytes a) →
     blen (Wire.encode_announcement d payload) + GOSSIPSUB_OVERHEAD ≤
     gs_max_transmit_size (gs_config (bh_gossipsub behaviour))).
Proof.
  unfold make_behaviour. intros E Hd Hreq Hres.
  destruct (make_gossipsub config key) as [g|] eqn:Eg; cbn [res_bind] in E; [|discriminate]. injection E as <-.
  cbn [bh_codec bh_gossipsub]. unfold frame_overhead, LP2P_DELEGATION_BYTES in *. split_and!.
  - intros name payload io Hn Hp Hio. unfold Wire.read_request. cbn [Wire.max_request].
    rewrite (Wire.read_bounded_delivers _ _ _) by first [exact Hio | lia]. rewrite Wire.blen_encode_request.
    by destruct (Z.leb_spec (2 + blen d + blen name + blen payload) (cfg_rpc_max_request_bytes config + (2 + 136 + 255))); [|lia].
  - intros payload io Hio. unfold Wire.read_response. cbn [Wire.max_response].
    rewrite (Wire.read_bounded_delivers _ _ _) by first [exact Hio | lia]. rewrite Wire.blen_encode_response.
    destruct (Z.leb_spec (1 + blen d + blen payload) (cfg_rpc_max_response_bytes config + (2 + 136 + 255)));
      split; try done; lia.
  - intros payload Hp. unfold Wire.encode_announcement. rewrite Wire.blen_encode_response.
    assert (gs_max_transmit_size (gs_config g) =
      1 + 136 + Z.max (match cfg_announce config with Some a => an_max_payload_bytes a | None => 0 end)
                      (cfg_topic_max_message_bytes config) + GOSSIPSUB_OVERHEAD) as ->.
    { unfold make_gossipsub in Eg. cbv zeta in Eg. destruct (gossipsub_builds _); cbn [res_bind] in Eg; [|discriminate].
      destruct (gossipsub_starts _); cbn [res_bind] in Eg; [|discriminate].
      destruct (cfg_announce config); [destruct (gossipsub_subscribes _ _)|]; try discriminate; by injection Eg as <-. }
    destruct Hp as [Hp|(a & -> & Hp)]; lia.
Qed.

(** The circuit limiters of a relay are the caller's alone; the rest of the
    defaults is kept. *)
Lemma relay_limiters `{!BuildersLaws B} r :
  circuit_src_rate_limiters (relay_server_config r) =
    option_list ((fun b => peer_limiter (tb_burst b) (tb_interval b)) <$> rc_circuits_per_peer r) ++
    option_list ((fun b => ip_limiter (tb_burst b) (tb_interval b)) <$> rc_circuits_per_ip r) ∧
  reservation_rate_limiters (relay_server_config r) = reservation_rate_limiters relay_default.
Proof.
  unfold relay_server_config.
  destruct (rc_circuits_per_peer r); destruct (rc_circuits_per_ip r); rewrite ?per_peer_adds, ?per_ip_adds; done.
Qed.

End startup.

(** ** The layout of the options *)

(** A field of the struct: a number of some width, or a key. *)
Inductive field :=
| Num (get : lp2p_options → Z) (offset width : nat)
| Bytes32 (get : lp2p_options → array 32) (offset : nat).

Definition field_start (f : field) : nat := match f with Num _ o _ => o | Bytes32 _ o => o end.
Definition field_end (f : field) : nat := match f with Num _ o w => o + w | Bytes32 _ o => o + 32 end.
Definition field_same (f : field) (o o' : lp2p_options) : Prop :=
  match f with Num get _ _ => get o = get o' | Bytes32 get _ => get o = get o' end.

Definition fields : list field :=
  [Num o_struct_size 0 4; Bytes32 o_node_seed 4; Num o_delegation 40 8; Num o_delegation_len 48 8;
   Bytes32 o_group 56; Num o_listen_addrs 88 8; Num o_listen_addr_count 96 8; Num o_dht_protocol 104 8;
   Num o_rpc_protocols 112 8; Num o_rpc_protocol_count 120 8; Num o_rpc_max_request_bytes 128 4;
   Num o_rpc_max_response_bytes 132 4; Num o_rpc_timeout_ms 136 4; Num o_quic 140 1; Num o_dcutr 141 1;
   Num o_autonat 142 1; Num o_max_connections 144 4; Num o_max_connections_per_peer 148 4;
   Num o_max_pending_incoming 152 4;
   Num (fun o => ro_server (o_relay o)) 160 1; Num (fun o => ro_client (o_relay o)) 161 1;
   Num (fun o => ro_max_reservations (o_relay o)) 164 4;
   Num (fun o => ro_max_reservations_per_peer (o_relay o)) 168 4;
   Num (fun o => ro_reservation_duration_s (o_relay o)) 172 4;
   Num (fun o => ro_max_circuits (o_relay o)) 176 4;
   Num (fun o => ro_max_circuits_per_peer (o_relay o)) 180 4;
   Num (fun o => ro_max_circuit_duration_s (o_relay o)) 184 4;
   Num (fun o => ro_max_circuit_bytes (o_relay o)) 192 8;
   Num (fun o => amount (ro_circuits_per_peer (o_relay o))) 200 4;
   Num (fun o => interval_ms (ro_circuits_per_peer (o_relay o))) 204 4;
   Num (fun o => burst (ro_circuits_per_peer (o_relay o))) 208 4;
   Num (fun o => amount (ro_circuits_per_ip (o_relay o))) 212 4;
   Num (fun o => interval_ms (ro_circuits_per_ip (o_relay o))) 216 4;
   Num (fun o => burst (ro_circuits_per_ip (o_relay o))) 220 4;
   Num (fun o => ao_enabled (o_announce o)) 224 1; Num (fun o => ao_topic (o_announce o)) 232 8;
   Num (fun o => ao_max_payload_bytes (o_announce o)) 240 4;
   Num o_event_queue_bytes 248 8; Num o_reachability 256 1; Num o_topic_max_message_bytes 260 4;
   Num o_topic_max_subscriptions 264 4].

Lemma slice_known (l k : bytes) n from to :
  (to ≤ n)%nat → (n ≤ length l)%nat → slice (take n l ++ k) from to = slice l from to.
Proof.
  intros Ht Hn. unfold slice. destruct (Nat.le_gt_cases to from) as [Hle|Hlt].
  { replace (to - from)%nat with 0%nat by lia. by rewrite !take_0. }
  rewrite <- (take_drop n l) at 2. rewrite !drop_app_le by (rewrite length_take; lia).
  rewrite !take_app_le by (rewrite length_drop, length_take; lia). done.
Qed.

Lemma slice_unknown (l k : bytes) n from to :
  (n ≤ from)%nat → (n ≤ length l)%nat → slice (take n l ++ drop n k) from to = slice k from to.
Proof.
  intros Hf Hn. unfold slice. rewrite drop_app_ge by (rewrite length_take; lia).
  rewrite length_take, drop_drop. do 2 f_equal. lia.
Qed.

(** How each field is read. *)
Lemma fields_read l : Forall (fun f =>
  match f with
  | Num get o w => get (options_of_bytes l) = u_at l o w
  | Bytes32 get o => get (options_of_bytes l) = key_at l o
  end) fields.
Proof. repeat constructor. Qed.

Lemma same_slice_same_field l k : Forall (fun f =>
  slice l (field_start f) (field_end f) = slice k (field_start f) (field_end f) →
  field_same f (options_of_bytes l) (options_of_bytes k)) fields.
Proof.
  pose proof (fields_read l) as Hl. pose proof (fields_read k) as Hk. rewrite Forall_forall in *.
  intros f Hf E. specialize (Hl f Hf). specialize (Hk f Hf).
  destruct f; cbn [field_start field_end field_same] in *; rewrite Hl, Hk; unfold u_at, key_at; by rewrite E.
Qed.

(** *** Reading back a whole struct *)

Lemma slice_skip (a l : bytes) n from to :
  length a = n → (n ≤ from)%nat → slice (a ++ l) from to = slice l (from - n) (to - n).
Proof.
  intros <- Hf. unfold slice. rewrite drop_app_ge by done. f_equal. lia.
Qed.

Lemma slice_here (a l : bytes) n : length a = n → slice (a ++ l) 0 n = a.
Proof. intros <-. unfold slice. rewrite drop_0, Nat.sub_0_r. apply take_app_length. Qed.

Definition fits (w z : Z) : Prop := 0 ≤ z < 2 ^ w.

Definition rate_wf (r : lp2p_rate) : Prop := fits 32 (amount r) ∧ fits 32 (interval_ms r) ∧ fits 32 (burst r).

(** Every field within its width. *)
Definition field_wf (o : lp2p_options) (f : field) : Prop :=
  match f with Num get _ w => fits (8 * Z.of_nat w) (get o) | Bytes32 _ _ => True end.
Definition options_wf (o : lp2p_options) : Prop := Forall (field_wf o) fields.

(** The bytes of a field. *)
Definition field_bytes (o : lp2p_options) (f : field) : bytes :=
  match f with Num get _ w => le_bytes w (get o) | Bytes32 get _ => arr (get o) end.

Ltac chunk_length := rewrite ?length_le_bytes, ?array_length, ?repeat_length; reflexivity.
Ltac find_chunk :=
  cbn [field_start field_end field_bytes Nat.add Nat.sub];
  repeat (refine (eq_trans (slice_skip _ _ _ _ _ _ _) _); [chunk_length | lia | cbn [Nat.sub]]);
  apply slice_here; chunk_length.

Lemma options_bytes_fields o : Forall (fun f => slice (options_bytes o) (field_start f) (field_end f) = field_bytes o f) fields.
Proof.
  unfold options_bytes, rate_bytes. cbv zeta. rewrite <- !app_assoc.
  repeat (constructor; [find_chunk|]). constructor.
Qed.

Lemma options_eq o o' : Forall (fun f => field_same f o o') fields → o = o'.
Proof.
  unfold fields. rewrite !Forall_cons. cbn [field_same]. intros E.
  destruct o as [??????????????????? [????????? [???] [???]] [???] ????], o' as [??????????????????? [????????? [???] [???]] [???] ????].
  cbn in E. decompose [and] E. by subst.
Qed.

(** An options struct read back is the one that was written. *)
Lemma options_of_options_bytes o : options_wf o → options_of_bytes (options_bytes o) = o.
Proof.
  intros Hwf. apply options_eq.
  pose proof (fields_read (options_bytes o)) as Hr. pose proof (options_bytes_fields o) as Hb.
  unfold options_wf in Hwf. rewrite Forall_forall in *. intros f Hf.
  specialize (Hr f Hf). specialize (Hb f Hf). specialize (Hwf f Hf).
  destruct f; cbn [field_same field_start field_end field_bytes field_wf] in *; rewrite Hr; unfold u_at, key_at; rewrite Hb.
  - rewrite le_value_bytes. by apply wrap_small.
  - by rewrite to_array_arr.
Qed.

Lemma default_options_wf : options_wf default_options.
Proof. unfold options_wf, fields, fits. repeat constructor; vm_compute; congruence. Qed.

(** With the size of this header or a later one, the options are the caller's. *)
Lemma start_options_same size o :
  options_wf o → sizeof_lp2p_options ≤ size → start_options size (options_bytes o) = o.
Proof.
  intros Hwf Hsize. unfold start_options. rewrite Z.min_r by done.
  assert (length (options_bytes o) = Z.to_nat sizeof_lp2p_options) as Hlen.
  { unfold options_bytes, rate_bytes. cbv zeta. rewrite !length_app, !length_le_bytes, !array_length, !repeat_length. reflexivity. }
  rewrite take_ge by lia. rewrite drop_ge; [by rewrite app_nil_r, options_of_options_bytes|by vm_compute].
Qed.

(** C30: what [lp2p_start] works with, for a caller with a header of any age. A
    field that lies within the size the caller states is the caller's; one that
    lies beyond keeps its default; and with the size of this header or a later
    one, the options are exactly the caller's. *)
Theorem start_options_spec size caller :
  0 ≤ size → blen caller = Z.min size sizeof_lp2p_options →
  Forall (fun f =>
    (Z.of_nat (field_end f) ≤ size → field_same f (start_options size caller) (options_of_bytes caller)) ∧
    (size ≤ Z.of_nat (field_start f) → field_same f (start_options size caller) default_options)) fields ∧
  ∀ o, options_wf o → sizeof_lp2p_options ≤ size → caller = options_bytes o → start_options size caller = o.
Proof.
  intros Hs Hc. set (known := Z.to_nat (Z.min size sizeof_lp2p_options)).
  assert (length caller = known) as Hlen by (unfold known, blen in *; lia).
  split.
  - rewrite <- (options_of_options_bytes default_options default_options_wf).
    pose proof (same_slice_same_field (take known caller ++ drop known (options_bytes default_options)) caller) as H1.
    pose proof (same_slice_same_field (take known caller ++ drop known (options_bytes default_options))
                  (options_bytes default_options)) as H2.
    assert (Forall (fun f => Z.of_nat (field_end f) ≤ sizeof_lp2p_options) fields) as H3
      by (unfold fields; repeat constructor; vm_compute; congruence).
    rewrite Forall_forall in *. intros f Hf. specialize (H3 f Hf). unfold start_options. fold known. split; intros Hb.
    + apply (H1 f Hf). apply slice_known; unfold known in *; lia.
    + apply (H2 f Hf). apply slice_unknown; unfold known in *; lia.
  - intros o Hwf Hsize ->. by apply start_options_same.
Qed.

(** ** Witnesses

    A caller whose options are at 1000, its delegation at 2000, its strings at
    3000, and the place for its handle at 4000. *)

Definition toy_options : lp2p_options :=
  let d := default_options in
  mk_options (o_struct_size d) toy_node_seed 2000 136 toy_group 0 0 3000 3100 1
    (o_rpc_max_request_bytes d) (o_rpc_max_response_bytes d) (o_rpc_timeout_ms d)
    (o_quic d) (o_dcutr d) (o_autonat d) (o_max_connections d) (o_max_connections_per_peer d)
    (o_max_pending_incoming d) (o_relay d) (o_announce d) (o_event_queue_bytes d) (o_reachability d)
    (o_topic_max_message_bytes d) (o_topic_max_subscriptions d).

Definition block (at_ : Z) (l : bytes) : list (Z * byte) := zip (seqZ at_ (blen l)) l.

Definition toy_start_process : Process := mk_process
  (list_to_map (block 1000 (options_bytes toy_options) ++ block 2000 (Delegation.to_bytes toy_delegation) ++
                block 3000 [x2f; x64; x00] ++ block 3100 (le_bytes 8 3200) ++ block 3200 [x2f; x70; x00] ++
                block 4000 (repeat x00 8))) ∅.

Definition toy_lp2p_start : F Z := lp2p_start 1000 4000 5 true (Some LP2P_OK) 8.

Example toy_start_succeeds : fst <$> toy_lp2p_start toy_start_process = Some (Ok LP2P_OK).
Proof. vm_compute. reflexivity. Qed.

Lemma start_spec_witness :
  ∃ pr' config caller, toy_lp2p_start toy_start_process = Some (Ok LP2P_OK, pr') ∧
    config_good (start_options 272 caller) config ∧ handles pr' !! 8 = Some (new_node config).
Proof.
  pose proof toy_start_succeeds as Hs. apply fmap_Some in Hs as ([r pr'] & E & Hr). cbn [fst] in Hr. subst r.
  pose proof (start_spec _ _ _ _ _ _ _ _ _ E) as Hx. cbn [status] in Hx.
  destruct Hx as (size & caller & config & kp & key & Hsize & _ & _ & Hgood & _ & _ & _ & _ & _ & Hh & _).
  exists pr', config, caller. split; [exact E|].
  assert (le_value <$> load (memory toy_start_process) 1000 4 = Some 272) as Hv by (vm_compute; reflexivity).
  rewrite Hv in Hsize. injection Hsize as <-. split; [exact Hgood|]. rewrite Hh. apply lookup_insert_eq.
Defined.

Lemma toy_delivers (l : bytes) : l ≠ [] → Wire.delivers [Wire.Chunk l] l.
Proof. intros Hl. exists [l]. cbn. rewrite app_nil_r. split; [by repeat constructor|done]. Qed.

Lemma not_err {A E} (r : result A E) : is_err r = false → ∃ a, r = Ok a.
Proof. destruct r; [by eexists|done]. Qed.

Definition toy_request_frame : bytes :=
  Wire.encode_request (Delegation.to_bytes toy_delegation) [x2f; x70] [x01; x02].

Definition toy_keypair : @Keypair ToyIdentity := key_byte x11.

Lemma frames_fit_witness :
  ∃ behaviour, make_behaviour toy_config toy_keypair = Ok behaviour ∧
    Wire.read_request (bh_codec behaviour) [Wire.Chunk toy_request_frame] = Ok toy_request_frame.
Proof.
  destruct (not_err (make_behaviour toy_config toy_keypair)) as [behaviour E]; [vm_compute; reflexivity|].
  exists behaviour. split; [done|].
  assert (blen (Delegation.to_bytes toy_delegation) = LP2P_DELEGATION_BYTES) as Hd by (vm_compute; reflexivity).
  destruct (frames_fit toy_config toy_keypair behaviour (Delegation.to_bytes toy_delegation) E Hd) as (Hx & _ & _);
    [vm_compute; split; congruence..|].
  apply Hx; [vm_compute; congruence..|]. apply toy_delivers. vm_compute. discriminate.
Defined.

(** An older header: everything before the two topic fields. *)
Lemma start_options_spec_witness :
  o_group (start_options 260 (take 260 (options_bytes toy_options))) = o_group (options_of_bytes (take 260 (options_bytes toy_options))) ∧
  o_topic_max_subscriptions (start_options 260 (take 260 (options_bytes toy_options))) = o_topic_max_subscriptions default_options ∧
  start_options 272 (options_bytes toy_options) = toy_options.
Proof.
  assert (blen (take 260 (options_bytes toy_options)) = Z.min 260 sizeof_lp2p_options) as Hlen by (vm_compute; reflexivity).
  destruct (start_options_spec 260 (take 260 (options_bytes toy_options)) ltac:(lia) Hlen) as [Hf _].
  rewrite Forall_forall in Hf. split; [|split].
  - apply (proj1 (Hf (Bytes32 o_group 56) ltac:(unfold fields; repeat first [by left | right])) ltac:(vm_compute; congruence)).
  - apply (proj2 (Hf (Num o_topic_max_subscriptions 264 4) ltac:(unfold fields; repeat first [by left | right])) ltac:(vm_compute; congruence)).
  - assert (blen (options_bytes toy_options) = Z.min 272 sizeof_lp2p_options) as Hlen' by (vm_compute; reflexivity).
    apply (proj2 (start_options_spec 272 (options_bytes toy_options) ltac:(lia) Hlen')); [|vm_compute; congruence|done].
    unfold options_wf, fields, fits. repeat constructor; vm_compute; congruence.
Defined.
