(* ===== verification/Session.v ===== *)
(** * Session: a C caller and its node

    The C functions on one handle and the node's thread behind it: whatever the
    caller passes, in whatever order its threads call, every command that
    reaches the thread is one its handlers are made for. With this the
    assumption that [NodeInv.reachable] makes about submitted calls holds for
    every C caller. *)

From S2P Require Import Prelude Abi Keys Multiaddr AddressBook Libp2p Events NodeState.
From S2P Require Import Toy Calls Inbound Relay Topics Node ToyNode CallsInv NodeInv Bounds Ffi FfiSpec.
From S2P Require Wire Delegation Limits EventQueue.

Section session.
Context {I : Identity} {MA : Multiaddrs I} {H : Handles} {L : Libp2p I MA H} {LL : Libp2pLaws L}.

(** A command that the node of [config] is made for. *)
Definition command_valid (config : Config) (c : Command) : Prop :=
  match c with
  | Rpc id _ target protocol payload _ =>
      is_Some (cfg_rpc_protocols config !! Z.to_nat protocol) ∧ blen payload ≤ cfg_rpc_max_request_bytes config ∧
      match target with Some k => is_Some (peer_id k) | None => True end
  | AddAddress k _ => is_Some (peer_id k)
  | SetLimit class scope protocol _ _ =>
      scope ≤ LP2P_SCOPE_GLOBAL ∧ class ≠ LP2P_CLASS_BLOCKED ∧
      (protocol = LP2P_PROTOCOL_ANY ∨ protocol = LP2P_PROTOCOL_TOPICS ∨ protocol < blen (cfg_rpc_protocols config))
  | AnnounceSetPayload payload => ∃ a, cfg_announce config = Some a ∧ blen payload ≤ an_max_payload_bytes a
  | TopicPublish _ payload => blen payload ≤ cfg_topic_max_message_bytes config
  | Shutdown => False
  | _ => True
  end.

(** The fields of the handle that never change. *)
Record handle_of (config : Config) (n : Ffi.Node) : Prop := {
  of_protocols : node_rpc_protocol_count n = blen (cfg_rpc_protocols config);
  of_max_request : node_rpc_max_request_bytes n = cfg_rpc_max_request_bytes config;
  of_announce : node_announce_max_payload_bytes n = an_max_payload_bytes <$> cfg_announce config;
  of_topic : node_topic_max_message_bytes n = cfg_topic_max_message_bytes config;
}.

(** What happens to the handle between two of the caller's functions: the
    thread takes commands from the front of the channel, takes ids for the
    requests it hands over, and may end. *)
Record elsewhere (n n' : Ffi.Node) : Prop := {
  else_sent : ∃ k, node_sent n' = drop k (node_sent n);
  else_ids : next_id (node_shared n) ≤ next_id (node_shared n') < 2 ^ 64;
  else_fixed config : handle_of config n → handle_of config n';
}.

(** [session config node sent pr]: since [lp2p_start] put the handle at [node],
    the caller's functions sent the commands [sent], the latest last. The id
    counter does not come around. *)
Inductive session (config : Config) (node : Z) : list Command → Process → Prop :=
| session_start pr : handles pr !! node = Some (new_node config) → session config node [] pr
| session_call sent pr m r pr' n n' l :
    session config node sent pr → c_call node m → m pr = Some (r, pr') →
    handles pr !! node = Some n → next_id (node_shared n) < 2 ^ 64 - 1 →
    handles pr' !! node = Some n' → node_sent n' = node_sent n ++ l →
    session config node (sent ++ l) pr'
| session_elsewhere sent pr pr' n n' :
    session config node sent pr → handles pr !! node = Some n → handles pr' !! node = Some n' →
    elsewhere n n' → session config node sent pr'.

(** ** The invariant of a session *)

Lemma command_ok_valid config n c :
  handle_of config n → command_ok n c → command_valid config c.
Proof.
  intros [Hp Hm Ha Ht]. destruct c; cbn; try done.
  - rewrite Hp, Hm. intros (_ & Hr & Hl & Hk). split_and!; [|done|done].
    apply lookup_lt_is_Some. unfold blen in Hr. lia.
  - intros (m & Em & Hl). rewrite Ha in Em. apply fmap_Some in Em as (a & Ea & ->). by exists a.
  - rewrite Hp. done.
  - by rewrite Ht.
Qed.

Lemma command_ok_id n c : command_ok n c → ∀ id, command_id c = Some id → id = next_id (node_shared n).
Proof. destruct c; cbn; try done; intros Hc id' [= <-]; by apply Hc. Qed.

Record session_inv (config : Config) (node : Z) (sent : list Command) (pr : Process) : Prop := mk_session_inv {
  si_node : ∃ n, handles pr !! node = Some n ∧ handle_of config n ∧
    1 ≤ next_id (node_shared n) < 2 ^ 64 ∧
    Forall (fun id => 1 ≤ id < next_id (node_shared n)) (omap command_id sent);
  si_valid : Forall (command_valid config) sent;
  si_ids : NoDup (omap command_id sent);
}.

Lemma incr64_small id : 0 ≤ id < 2 ^ 64 - 1 → incr64 id = id + 1.
Proof. intros Hi. unfold incr64. apply wrap_small. lia. Qed.

Lemma session_inv_holds config node sent pr : session config node sent pr → session_inv config node sent pr.
Proof.
  induction 1 as [pr Hn|sent pr m r pr' n n' l Hs [(n0 & Hn0 & Hof & Hid & Hids) Hv Hnd] Hc E Hn Hlt Hn' Hl
                  |sent pr pr' n n' Hs [(n0 & Hn0 & Hof & Hid & Hids) Hv Hnd] Hn Hn' [_ Hids' Hfix]].
  - split; [|constructor|constructor]. exists (new_node config). split_and!; [done|done|done|done|constructor].
  - rewrite Hn in Hn0. injection Hn0 as <-.
    apply (issues_call node) in E; [|done]. destruct E as [Eh|(n1 & sh & l' & Hn1 & Eh & Hsh & Hl')].
    { rewrite Eh, Hn in Hn'. injection Hn' as <-. rewrite <- (app_nil_r (node_sent n)) in Hl at 1.
      apply app_inv_head in Hl as <-. rewrite app_nil_r. split; [|done|done]. exists n. rewrite Eh. done. }
    rewrite Hn in Hn1. injection Hn1 as <-. rewrite Eh, lookup_insert_eq in Hn'. injection Hn' as <-.
    apply app_inv_head in Hl as <-.
    assert (handle_of config (n <| node_shared := sh |> <| node_sent ::= fun sent => sent ++ l' |>)) as Hof'.
    { by destruct Hof; split. }
    assert (next_id (node_shared n) ≤ next_id sh < 2 ^ 64) as Hge.
    { destruct Hsh as [->| ->]; cbn; rewrite ?incr64_small; lia. }
    assert (Forall (fun id => 1 ≤ id < next_id sh) (omap command_id sent)) as Hids1.
    { eapply Forall_impl; [exact Hids|]. cbn. lia. }
    destruct Hl' as [->|(c & -> & Hok & _ & _ & Hci)].
    + rewrite app_nil_r. split; [|done|done]. eexists. split; [by rewrite Eh, lookup_insert_eq|].
      split_and!; [done|cbn; lia..|done].
    + pose proof (command_ok_id _ _ Hok) as Hcid.
      destruct (command_id c) as [id|] eqn:Ec.
      * rewrite (Hcid id eq_refl) in *. destruct Hci as [?| ->]; [done|]. cbn in Hge. rewrite incr64_small in Hge by lia. split.
        -- eexists. split; [by rewrite Eh, lookup_insert_eq|]. split; [done|]. cbn. rewrite incr64_small by lia.
           split; [lia|]. rewrite omap_app. cbn. rewrite Ec. apply Forall_app. split; [|repeat constructor; lia].
           eapply Forall_impl; [exact Hids|]. cbn. lia.
        -- apply Forall_app. split; [done|]. constructor; [by apply (command_ok_valid _ n)|done].
        -- rewrite omap_app. cbn. rewrite Ec. apply NoDup_app. split_and!; [done| |apply NoDup_singleton].
           intros x Hx%(proj1 (Forall_forall _ _) Hids). rewrite list_elem_of_singleton. lia.
      * split.
        -- eexists. split; [by rewrite Eh, lookup_insert_eq|]. rewrite omap_app. cbn. rewrite Ec, app_nil_r.
           split_and!; [done|cbn; lia..|done].
        -- apply Forall_app. split; [done|]. constructor; [by apply (command_ok_valid _ n)|done].
        -- rewrite omap_app. cbn. by rewrite Ec, app_nil_r.
  - rewrite Hn in Hn0. injection Hn0 as <-. split; [|done|done]. exists n'.
    split_and!; [done|by apply Hfix|lia..|]. eapply Forall_impl; [exact Hids|]. cbn. lia.
Qed.
(** The next call of a session whose channel the thread has not touched. *)
Lemma session_next config node pr m r n :
  session config node (node_sent n) pr → handles pr !! node = Some n → next_id (node_shared n) < 2 ^ 64 - 1 →
  c_call node m → fst <$> m pr = Some r →
  ∃ pr' n', m pr = Some (r, pr') ∧ handles pr' !! node = Some n' ∧ session config node (node_sent n') pr'.
Proof.
  intros Hs Hn Hid Hc ([r' pr'] & E & ->)%fmap_Some. cbn [fst]. exists pr'.
  pose proof (issues_call _ _ _ _ _ Hc E) as [Eh|(n1 & sh & l & Hn1 & Eh & _)].
  - exists n. rewrite Eh. split_and!; [done|done|]. rewrite <- (app_nil_r (node_sent n)).
    apply (session_call config node _ pr m r' pr' n n []); rewrite ?Eh, ?app_nil_r; done.
  - rewrite Hn in Hn1. injection Hn1 as <-. eexists. rewrite Eh, lookup_insert_eq. split_and!; [done|done|].
    eapply (session_call config node _ pr m r' pr' n _ l); [exact Hs|exact Hc|exact E|exact Hn|exact Hid| |].
    { by rewrite Eh, lookup_insert_eq. }
    done.
Qed.

(** A valid command does not end the loop, nor the thread. *)
Lemma valid_continues config c w :
  rpc_protocols (w_state w) = cfg_rpc_protocols config → command_valid config c → (command c w).1 = Continue.
Proof.
  intros Hp Hc. destruct c; cbn [command_valid command] in *; try done;
    try (clear; repeat (rewrite run_bind; cbn [fst]); done).
  destruct Hc as (Hprot & _). rewrite run_bind. unfold start_call. rewrite !run_bind, run_gets. cbn [fst snd].
  rewrite Hp. destruct Hprot as [name ->]. repeat (rewrite run_bind; cbn [fst snd]). done.
Qed.

(** C8: no C caller can bring the node down. Whatever the caller's functions
    were called with and in whatever order, each command they sent is valid for
    the node's configuration and goes through the loop, in every reachable
    state, without a panic and without ending it; the ids they answered are
    pairwise different; and a call is submitted to the handlers under an id no
    earlier command had. *)
Theorem caller_commands_safe config node sent pr :
  session config node sent pr →
  NoDup (omap command_id sent) ∧
  ∀ before c after used w, sent = before ++ c :: after → reachable config used w →
    (∀ id, id ∈ used → id ∈ omap command_id before) →
    command_valid config c ∧ input_ok used w (InCommand c) ∧ (step (InCommand c) w).1 = Continue.
Proof.
  intros [(n & _ & _ & Hn & Hids) Hv Hnd]%session_inv_holds. split; [done|].
  intros before c after used w -> Hr Hused.
  pose proof (proj1 (Forall_app _ _ _) Hv) as [_ Hc%Forall_inv].
  pose proof (reachable_bounds _ _ _ Hr) as (_ & _ & _ & _ & Hp & _). split; [done|].
  split; [|exact (valid_continues config c w Hp Hc)].
  rewrite omap_app in Hnd, Hids. destruct c; try done. cbn in Hc, Hnd, Hids |- *.
  apply NoDup_app in Hnd as (_ & Hnew & _). apply Forall_app in Hids as [_ Hid%Forall_inv]. split_and!.
  - intros Hin%Hused. apply (Hnew _ Hin). by left.
  - unfold id_ok. lia.
  - rewrite Hp. by apply Hc.
Qed.

End session.

(** ** Witness

    A caller that asks a group and bootstraps: its memory holds the group's key
    at 100 and room for an id at 200, its handle is 8. *)

Definition toy_memory : gmap Z byte :=
  list_to_map (zip (seqZ 100 32) (arr toy_group) ++ zip (seqZ 200 8) (repeat x00 8)).

Definition toy_process : Process := mk_process toy_memory {[ 8 := new_node toy_config ]}.

Definition toy_ask_group : F Z := lp2p_rpc_request 8 100 0 0 0 0 0 200.
Definition toy_bootstrap : F Z := lp2p_dht_bootstrap 8 200.

Definition after_call (m : F Z) (pr : Process) : Process :=
  match m pr with Some (_, pr') => pr' | None => pr end.

Definition toy_process1 : Process := after_call toy_ask_group toy_process.
Definition toy_process2 : Process := after_call toy_bootstrap toy_process1.
Definition toy_sent (pr : Process) : list Command :=
  match handles pr !! 8 with Some n => node_sent n | None => [] end.

Lemma toy_session_next pr m r :
  session toy_config 8 (toy_sent pr) pr →
  match handles pr !! 8 with Some n => next_id (node_shared n) <? 2 ^ 64 - 1 | None => false end = true →
  c_call 8 m → fst <$> m pr = Some r → session toy_config 8 (toy_sent (after_call m pr)) (after_call m pr).
Proof.
  unfold toy_sent at 1. destruct (handles pr !! 8) as [n|] eqn:Hn; [|done]. intros Hs Hid%Z.ltb_lt Hc E.
  destruct (session_next _ _ _ _ _ _ Hs Hn Hid Hc E) as (pr' & n' & Em & Hn' & Hs').
  unfold after_call, toy_sent. rewrite Em, Hn'. exact Hs'.
Qed.

Lemma toy_session : session toy_config 8 (toy_sent toy_process2) toy_process2.
Proof.
  apply (toy_session_next _ _ (Ok LP2P_OK)); [| |constructor|vm_compute; reflexivity].
  2:{ vm_compute. reflexivity. }
  apply (toy_session_next _ _ (Ok LP2P_OK)); [| |constructor; lia|vm_compute; reflexivity].
  2:{ vm_compute. reflexivity. }
  apply session_start. unfold toy_process. cbn [handles]. by rewrite lookup_singleton_eq.
Qed.

Lemma head_some {A} (l : list A) : (1 <= length l)%nat → ∃ x rest, l = x :: rest.
Proof. destruct l as [|x l]; cbn; [lia|]. by exists x, l. Qed.

Lemma caller_commands_safe_witness :
  omap command_id (toy_sent toy_process2) = [1; 2] ∧ NoDup (omap command_id (toy_sent toy_process2)) ∧
  ∃ c after, toy_sent toy_process2 = c :: after ∧ command_valid toy_config c ∧
    (step (InCommand c) toy_start).1 = Continue.
Proof.
  split; [vm_compute; reflexivity|].
  pose proof (caller_commands_safe _ _ _ _ toy_session) as [Hnd Hsafe]. split; [exact Hnd|].
  destruct (head_some (toy_sent toy_process2)) as (c & after & E); [apply Nat.leb_le; vm_compute; reflexivity|].
  exists c, after. split; [exact E|].
  assert (reachable toy_config ∅ toy_start) as Hr.
  { apply reach_start. split; [by exists (toy_peer x11), 0|done]. }
  assert (∀ id, id ∈ (∅ : gset Z) → id ∈ omap command_id []) as Hused by (intros id []%not_elem_of_empty).
  destruct (Hsafe [] c after ∅ toy_start E Hr Hused) as (Hv & _ & Hc).
  split; [exact Hv|exact Hc].
Defined.
