(* ===== verification/Client.v ===== *)
(** * Client: what the programs under [examples/] share

    Rust callers of the C functions: the text they print, [str] slicing and
    [String::from_utf8_lossy], the buffers they hand over by address, and the
    walk over a polled buffer. A slice out of bounds or off a character is a
    panic. *)

From Stdlib Require Import Strings.String.
From stdpp Require Import pretty.
From S2P Require Import Prelude Abi Keys Multiaddr AddressBook Libp2p Events NodeState Ffi FfiSpec.
From S2P Require Wire Delegation Limits EventQueue Node.

(** ** Text *)

Definition text : String.string → bytes := String.list_byte_of_string.

(** [Display] of an integer. *)
Definition dec (n : Z) : bytes := text (pretty n).

(** [bytes.iter().map(|b| format!("{b:02x}")).collect()] *)
Definition hex (l : bytes) : bytes := concat (Wire.hex_byte <$> l).

(** [is_char_boundary], of a slice by what follows it. *)
Definition at_boundary (l : bytes) : bool :=
  match l with b :: _ => negb (Wire.continuation b) | [] => true end.

Definition hex_value (b : byte) : option Z :=
  let z := byte_val b in
  if (48 <=? z) && (z <=? 57) then Some (z - 48)
  else if (97 <=? z) && (z <=? 102) then Some (z - 87)
  else if (65 <=? z) && (z <=? 70) then Some (z - 55)
  else None.

(** [u8::from_str_radix(.., 16)] of two bytes; a plus sign may come first. *)
Definition from_str_radix_16 (b1 b2 : byte) : option byte :=
  if bool_decide (b1 = x2b) then byte_of <$> hex_value b2
  else h ← hex_value b1; l ← hex_value b2; Some (byte_of (16 * h + l)).

(** The loop of [unhex] over the rest of the text, [n] bytes of the key to go. *)
Fixpoint unhex_loop (n : nat) (l : bytes) : option (option bytes) :=
  match n, l with
  | O, _ => Some (Some [])
  | S n, b1 :: b2 :: rest =>
      if negb (at_boundary l) || negb (at_boundary rest) then None
      else match from_str_radix_16 b1 b2 with
           | None => Some None
           | Some b => option_map (option_map (cons b)) (unhex_loop n rest)
           end
  | S _, _ => None
  end.

(** [unhex]: [None] is a panic. *)
Definition unhex (l : bytes) : option (option lp2p_key) :=
  if negb (blen l =? 64) then Some None
  else option_map (mbind (to_array 32)) (unhex_loop 32 l).

(** The first word and what comes after the space behind it:
    [splitn(2, ' ')]. *)
Fixpoint split_space (l : bytes) : bytes * option bytes :=
  match l with
  | [] => ([], None)
  | b :: l =>
      if bool_decide (b = x20) then ([], Some l)
      else let '(word, rest) := split_space l in (b :: word, rest)
  end.

(** U+FFFD. *)
Definition replacement : bytes := [xef; xbf; xbd].

(** [String::from_utf8_lossy]: each maximal part of a character that is cut off
    is replaced. *)
Fixpoint from_utf8_lossy (l : bytes) : bytes :=
  match l with
  | [] => []
  | b0 :: l1 =>
    if Wire.in_range 0x00 0x7F b0 then b0 :: from_utf8_lossy l1
    else if negb (Wire.in_range 0xC2 0xF4 b0) then replacement ++ from_utf8_lossy l1
    else match l1 with
    | [] => replacement
    | b1 :: l2 =>
      if Wire.in_range 0xC2 0xDF b0 then
        if Wire.continuation b1 then b0 :: b1 :: from_utf8_lossy l2
        else replacement ++ from_utf8_lossy l1
      else
        let second :=
          if Wire.in_range 0xE0 0xE0 b0 then Wire.in_range 0xA0 0xBF b1
          else if Wire.in_range 0xED 0xED b0 then Wire.in_range 0x80 0x9F b1
          else if Wire.in_range 0xF0 0xF0 b0 then Wire.in_range 0x90 0xBF b1
          else if Wire.in_range 0xF4 0xF4 b0 then Wire.in_range 0x80 0x8F b1
          else Wire.continuation b1 in
        if negb second then replacement ++ from_utf8_lossy l1
        else match l2 with
        | [] => replacement
        | b2 :: l3 =>
          if negb (Wire.continuation b2) then replacement ++ from_utf8_lossy l2
          else if Wire.in_range 0xE0 0xEF b0 then b0 :: b1 :: b2 :: from_utf8_lossy l3
          else match l3 with
          | [] => replacement
          | b3 :: l4 =>
            if Wire.continuation b3 then b0 :: b1 :: b2 :: b3 :: from_utf8_lossy l4
            else replacement ++ from_utf8_lossy l3
          end
        end
    end
  end.

(** ** Buffers

    Where the caller's allocator puts a buffer of so many bytes. *)
Class Allocator := { allocate : gmap Z byte → nat → Z }.

Definition unused (m : gmap Z byte) (p : Z) (n : nat) : Prop := ∀ a, p ≤ a < p + Z.of_nat n → m !! a = None.

Class AllocatorLaws (A : Allocator) : Prop := {
  allocate_positive m n : 0 < allocate m n;
  allocate_unused m n : unused m (allocate m n) n;
  (** A program that holds little memory gets addresses of 64 bits. *)
  allocate_fits m n : Z.of_nat (size m) < 2 ^ 31 → Z.of_nat n < 2 ^ 31 → allocate m n < 2 ^ 64;
}.

Fixpoint put (m : gmap Z byte) (p : Z) (l : bytes) : gmap Z byte :=
  match l with [] => m | b :: l => <[p := b]> (put m (p + 1) l) end.

Fixpoint release (m : gmap Z byte) (p : Z) (n : nat) : gmap Z byte :=
  match n with O => m | S n => delete p (release m (p + 1) n) end.

Section buffers.
Context {I : Identity} {MA : Multiaddrs I} {H : Handles} {L : Libp2p I MA H} {A : Allocator}.

(** The bytes [l] at some address for as long as [k] runs. *)
Definition place {B} (l : bytes) (k : Z → F B) : F B := fun pr =>
  let p := allocate (memory pr) (length l) in
  '(r, pr) ← k p (pr <| memory ::= fun m => put m p l |>);
  Some (r, pr <| memory ::= fun m => release m p (length l) |>).

(** The status a C function returns, as a value. *)
Definition calling (m : F Z) : F Z := fun pr => '(r, pr) ← m pr; Some (Ok (status r), pr).

Notation "x <-! m ; k" := (fbind m (fun x => k)) (at level 100, m at next level, right associativity).

(** ** Starting

    What [main] of both programs does before it has a node. An error of these
    computations is the end of the process with that code; a panic of the main
    thread is 101. *)

Definition PANIC_EXIT : Z := 101.

Definition assert_ok (s : Z) : F () := pure (if s =? LP2P_OK then Ok () else Err PANIC_EXIT).

Definition key_from (seed : array 32) : F lp2p_key :=
  place (arr seed) (fun ps => place (repeat x00 32) (fun pk =>
    s <-! calling (lp2p_key_from_seed ps pk);
    _ <-! assert_ok s;
    l <-! load_bytes pk 32;
    pure (Ok (default zero_key (to_array 32 l))))).

(** [CString::new(s).unwrap()] *)
Definition cstring (s : bytes) : F bytes :=
  pure (if bool_decide (x00 ∈ s) then Err PANIC_EXIT else Ok (s ++ [x00])).

(** The strings [l], and the list of the pointers to them. *)
Fixpoint place_strings {B} (l : list bytes) (pointers : list Z) (k : Z → F B) : F B :=
  match l with
  | [] => place (concat (le_bytes 8 <$> pointers)) k
  | s :: l => c <-! cstring s; place c (fun p => place_strings l (pointers ++ [p]) k)
  end.

Definition default_from_library : F lp2p_options :=
  place (repeat x00 (Z.to_nat sizeof_lp2p_options)) (fun p =>
    _ <-! lp2p_options_default p;
    l <-! load_bytes p sizeof_lp2p_options;
    pure (Ok (options_of_bytes l))).

Definition sign_delegation (group_seed : array 32) (key : lp2p_key) : F bytes :=
  place (arr group_seed) (fun ps => place (arr key) (fun pk => place (repeat x00 (Z.to_nat LP2P_DELEGATION_BYTES)) (fun po =>
    s <-! calling (lp2p_delegation_sign ps pk 0 po);
    _ <-! assert_ok s;
    load_bytes po LP2P_DELEGATION_BYTES))).

End buffers.

(** The toy allocator looks through places for such buffers, one more than there
    are bytes in memory; behind them it would take what is past everything. *)
Definition is_unused (m : gmap Z byte) (n : nat) (p : Z) : Prop := Forall (fun a => m !! a = None) (seqZ p (Z.of_nat n)).

#[export] Instance is_unused_dec m n p : Decision (is_unused m n p).
Proof. unfold is_unused. apply _. Defined.

Definition places (m : gmap Z byte) (n : nat) : list Z :=
  (fun k => k * Z.max 1 (Z.of_nat n)) <$> seqZ 1 (Z.of_nat (size m) + 1).

Definition top (m : gmap Z byte) : Z := 1 + foldr Z.max 0 (elements (dom m)).

#[export] Instance ToyAllocator : Allocator :=
  {| allocate m n := match list_find (is_unused m n) (places m n) with Some (_, p) => p | None => top m end |}.

Lemma top_above m a : is_Some (m !! a) → a < top m.
Proof.
  rewrite <- elem_of_dom, <- elem_of_elements. unfold top. induction (elements (dom m)) as [|x l IH]; [by intros ?%elem_of_nil|].
  cbn [foldr]. intros [->|Hin]%elem_of_cons; [lia|]. specialize (IH Hin). lia.
Qed.

Lemma is_unused_spec m n p : is_unused m n p ↔ unused m p n.
Proof.
  unfold is_unused, unused. rewrite Forall_forall. split; intros Hu a Ha; apply Hu.
  - apply elem_of_seqZ. lia.
  - apply elem_of_seqZ in Ha. lia.
Qed.

(** One of the places is unused: each that is not has a byte of its own. *)
Lemma a_place_is_unused m n : ∃ i p, list_find (is_unused m n) (places m n) = Some (i, p).
Proof.
  destruct (list_find (is_unused m n) (places m n)) as [[i p]|] eqn:E; [by exists i, p|]. exfalso.
  apply list_find_None in E. rewrite Forall_forall in E.
  assert (seqZ 1 (Z.of_nat (size m) + 1) ⊆+ (fun a => a / Z.max 1 (Z.of_nat n)) <$> elements (dom m)) as Hsub.
  { apply NoDup_submseteq; [apply NoDup_seqZ|]. intros k Hk.
    assert (¬ is_unused m n (k * Z.max 1 (Z.of_nat n))) as Hused by (apply E, list_elem_of_fmap; by exists k).
    unfold is_unused in Hused. apply not_Forall_Exists in Hused; [|apply _]. apply Exists_exists in Hused as (a & Ha & Hm).
    apply elem_of_seqZ in Ha. apply list_elem_of_fmap. exists a. split.
    - apply (Z.div_unique_pos _ _ _ (a - k * Z.max 1 (Z.of_nat n))); lia.
    - apply elem_of_elements, elem_of_dom. cbn in Hm. destruct (m !! a); [by eexists|done]. }
  apply submseteq_length in Hsub. rewrite length_seqZ, length_fmap in Hsub.
  change (length (elements (dom m))) with (size (dom m)) in Hsub. rewrite size_dom in Hsub. lia.
Qed.

#[export] Instance ToyAllocatorLaws : AllocatorLaws ToyAllocator.
Proof.
  split; intros m n; destruct (a_place_is_unused m n) as (i & p & E); cbn [allocate ToyAllocator]; rewrite E;
    apply list_find_Some in E as (Hp%list_elem_of_lookup_2%list_elem_of_fmap & Hu & _);
    destruct Hp as (k & -> & Hk%elem_of_seqZ).
  - nia.
  - by apply is_unused_spec.
  - intros Hm Hn. assert (k * Z.max 1 (Z.of_nat n) ≤ 2 ^ 31 * 2 ^ 31) by (apply Z.mul_le_mono_nonneg; lia). lia.
Qed.

(** ** Lemmas on text *)

Lemma byte_cases (P : byte → bool) : forallb P (byte_of <$> seqZ 0 256) = true → ∀ b, P b = true.
Proof.
  rewrite forallb_forall. intros HP b. apply HP. apply list_elem_of_In, list_elem_of_fmap. exists (byte_val b).
  rewrite byte_of_val. split; [done|]. apply elem_of_seqZ. pose proof (byte_val_range b). lia.
Qed.

(** What two digits of a byte read back as, that neither is a space, and that
    they are characters of their own. *)
Lemma hex_byte_reads b :
  ∃ h l, Wire.hex_byte b = [h; l] ∧ from_str_radix_16 h l = Some b ∧ h ≠ x20 ∧ l ≠ x20 ∧
    Wire.continuation h = false ∧ Wire.continuation l = false.
Proof.
  pose (P b := match Wire.hex_byte b with
    | [h; l] => bool_decide (from_str_radix_16 h l = Some b) && bool_decide (h ≠ x20) && bool_decide (l ≠ x20) &&
                negb (Wire.continuation h) && negb (Wire.continuation l)
    | _ => false end).
  assert (P b = true) as Hb by (apply byte_cases; vm_compute; reflexivity). unfold P in Hb.
  destruct (Wire.hex_byte b) as [|h [|l [|]]]; try done. exists h, l.
  rewrite !andb_true_iff, !bool_decide_eq_true, !negb_true_iff in Hb. intuition.
Qed.

Lemma unhex_loop_hex l : unhex_loop (length l) (hex l) = Some (Some l).
Proof.
  induction l as [|b l IH]; [done|]. unfold hex in *. rewrite fmap_cons. cbn [concat length].
  destruct (hex_byte_reads b) as (h & d & -> & E & _ & _ & Hh & Hd). cbn [app unhex_loop].
  assert (at_boundary (concat (Wire.hex_byte <$> l)) = true) as ->.
  { destruct l as [|b' l]; [done|]. rewrite fmap_cons. cbn [concat].
    destruct (hex_byte_reads b') as (h' & d' & -> & _ & _ & _ & Hh' & _). cbn. by rewrite Hh'. }
  cbn [at_boundary]. rewrite Hh. cbn [negb orb]. by rewrite E, IH.
Qed.

Lemma unhex_hex (k : lp2p_key) : unhex (hex (arr k)) = Some (Some k).
Proof.
  unfold unhex. assert (blen (hex (arr k)) = 64) as ->.
  { unfold blen, hex. rewrite Wire.length_concat_hex, array_length. done. }
  cbn [Z.eqb Pos.eqb negb]. pose proof (unhex_loop_hex (arr k)) as E. rewrite array_length in E. rewrite E.
  cbn [option_map mbind option_bind]. by rewrite to_array_arr.
Qed.

Lemma split_space_word word rest : x20 ∉ word → split_space (word ++ x20 :: rest) = (word, Some rest).
Proof.
  induction word as [|b word IH]; intros Hw; [done|]. apply not_elem_of_cons in Hw as [Hb Hw]. cbn [app split_space].
  rewrite bool_decide_false by congruence. by rewrite IH.
Qed.

Lemma split_space_end word : x20 ∉ word → split_space word = (word, None).
Proof.
  induction word as [|b word IH]; intros Hw; [done|]. apply not_elem_of_cons in Hw as [Hb Hw]. cbn [split_space].
  rewrite bool_decide_false by congruence. by rewrite IH.
Qed.

Lemma hex_no_space l : x20 ∉ hex l.
Proof.
  induction l as [|b l IH]; [apply not_elem_of_nil|]. unfold hex in *. rewrite fmap_cons. cbn [concat].
  destruct (hex_byte_reads b) as (h & d & -> & _ & Hh & Hd & _). cbn [app]. rewrite !not_elem_of_cons. done.
Qed.

Lemma in_range_split lo mid hi b : (lo <= mid)%Z → (mid <= hi)%Z →
  Wire.in_range lo hi b = Wire.in_range lo mid b || Wire.in_range (mid + 1) hi b.
Proof. unfold Wire.in_range. lia. Qed.

(** Text comes through as it is. *)
Lemma from_utf8_lossy_valid l : Wire.utf8_valid l = true → from_utf8_lossy l = l.
Proof.
  remember (length l) as n eqn:Hn. revert l Hn. induction (lt_wf n) as [n _ IH]. intros l ->.
  destruct l as [|b0 l1]; [done|]. cbn [Wire.utf8_valid from_utf8_lossy].
  destruct (Wire.in_range 0x00 0x7F b0) eqn:R0; [intros Hv; by rewrite (IH (length l1) ltac:(cbn; lia) l1 eq_refl Hv)|].
  destruct l1 as [|b1 l2]; [done|].
  destruct (Wire.in_range 0xC2 0xDF b0) eqn:R1.
  { assert (Wire.in_range 0xC2 0xF4 b0 = true) as -> by (unfold Wire.in_range in *; lia). cbn [negb].
    intros [-> Hv]%andb_true_iff. by rewrite (IH (length l2) ltac:(cbn; lia) l2 eq_refl Hv). }
  destruct l2 as [|b2 l3]; [done|].
  destruct (Wire.in_range 0xE0 0xEF b0) eqn:R2.
  { assert (Wire.in_range 0xC2 0xF4 b0 = true) as -> by (unfold Wire.in_range in *; lia). cbn [negb].
    assert (Wire.in_range 0xF0 0xF0 b0 = false) as -> by (unfold Wire.in_range in *; lia).
    assert (Wire.in_range 0xF4 0xF4 b0 = false) as -> by (unfold Wire.in_range in *; lia).
    intros [[-> ->]%andb_true_iff Hv]%andb_true_iff. cbn [negb]. by rewrite (IH (length l3) ltac:(cbn; lia) l3 eq_refl Hv). }
  destruct l3 as [|b3 l4]; [done|].
  intros [[[[R3 Hs]%andb_true_iff Hb2]%andb_true_iff Hb3]%andb_true_iff Hv]%andb_true_iff.
  assert (Wire.in_range 0xC2 0xF4 b0 = true) as -> by (unfold Wire.in_range in *; lia). cbn [negb].
  assert (Wire.in_range 0xE0 0xE0 b0 = false) as -> by (unfold Wire.in_range in *; lia).
  assert (Wire.in_range 0xED 0xED b0 = false) as -> by (unfold Wire.in_range in *; lia).
  rewrite Hs, Hb2, Hb3. cbn [negb]. by rewrite (IH (length l4) ltac:(cbn; lia) l4 eq_refl Hv).
Qed.

(** ** Lemmas on buffers *)

Lemma unused_put m p l q n :
  unused (put m q l) p n → unused m p n ∧ (∀ a, p ≤ a < p + Z.of_nat n → ¬ (q ≤ a < q + blen l)).
Proof.
  revert q. induction l as [|b l IH]; intros q Hu.
  - split; [done|]. unfold blen. cbn. lia.
  - cbn [put] in Hu. assert (unused (put m (q + 1) l) p n) as [H1 H2]%IH.
    { intros a Ha. specialize (Hu a Ha). by apply lookup_insert_None in Hu as [? _]. }
    split; [done|]. intros a Ha Hq. specialize (Hu a Ha). apply lookup_insert_None in Hu as [_ Hne].
    apply (H2 a Ha). unfold blen in *. cbn [length] in Hq. lia.
Qed.

Lemma put_lookup_ne m p l a : ¬ (p ≤ a < p + blen l) → put m p l !! a = m !! a.
Proof.
  revert p. induction l as [|b l IH]; intros p Ha; [done|]. unfold blen in *. cbn [put length] in *.
  rewrite lookup_insert_ne by lia. apply IH. lia.
Qed.

Lemma load_put m p l : load (put m p l) p (length l) = Some l.
Proof.
  revert p. induction l as [|b l IH]; intros p; [done|]. cbn [load length put]. rewrite lookup_insert_eq. cbn [mbind option_bind].
  rewrite (load_frame (put m (p + 1) l)), IH; [done|]. intros a Ha. rewrite lookup_insert_ne by lia. done.
Qed.

(** A buffer that is readable stays readable when another one is placed. *)
Lemma load_placed m p n l q k : load m p n = Some l → unused m q (length k) → load (put m q k) p n = Some l.
Proof.
  intros Hl Hu. rewrite (load_frame m); [done|]. intros a Ha. apply put_lookup_ne. intros Hq.
  assert (is_Some (m !! a)) as [b Hb].
  { clear -Hl Ha. revert p l Hl Ha. induction n as [|n IH]; intros p l Hl Ha; [lia|]. cbn [load] in Hl.
    apply bind_Some in Hl as (b & Hb & Hl). apply bind_Some in Hl as (r & Hr & _).
    destruct (decide (a = p)) as [->|Hne]; [by eexists|]. apply (IH (p + 1) r Hr). lia. }
  rewrite (Hu a) in Hb; [done|]. unfold blen in Hq. done.
Qed.

Lemma release_put m p l : unused m p (length l) → release (put m p l) p (length l) = m.
Proof.
  revert p. induction l as [|b l IH]; intros p Hu; [done|]. cbn [put release length].
  assert (release (<[p:=b]> (put m (p + 1) l)) (p + 1) (length l) = <[p:=b]> (release (put m (p + 1) l) (p + 1) (length l))) as ->.
  { generalize (put m (p + 1) l) as m'. assert (p < p + 1) as Hp by lia. revert Hp. generalize (p + 1) as q. clear.
    induction (length l) as [|n IH]; intros q Hq m'; [done|]. cbn [release]. rewrite IH by lia. apply delete_insert_ne. lia. }
  rewrite IH, delete_insert_eq; [|intros a Ha; apply Hu; cbn; lia].
  apply delete_id. apply Hu. cbn. lia.
Qed.

(** ** Lemmas on records *)

(** What the reader sees at a record. *)
Lemma record_at pre b d rest :
  event_wf b d →
  let e := event_header (expected b d) in
  let buf := pre ++ data b d ++ rest in
  read_header (drop (Z.to_nat (blen pre)) buf) = Some e ∧ ev_type e = ev_type (header b) ∧
  ev_data_len e = blen d ∧ blen pre + LP2P_EVENT_HEADER_BYTES + blen d ≤ blen (pre ++ data b d) ∧
  blen pre + ev_size e = blen (pre ++ data b d) ∧
  slice buf (Z.to_nat (blen pre + LP2P_EVENT_HEADER_BYTES)) (Z.to_nat (blen pre + LP2P_EVENT_HEADER_BYTES + blen d)) = d.
Proof.
  intros Hwf e buf. pose proof (complete_header_wf b d Hwf) as Hh. destruct Hwf as [_ Hs].
  pose proof (complete_header_sizes (header b) (blen d) (blen_nonneg d) Hs) as [Es El].
  pose proof (record_size_bounds (blen d) (blen_nonneg d)) as [Hb _].
  pose proof (length_data b d) as Hlen. destruct (data_split b d) as (pad & Ed & Hpad).
  pose proof (blen_nonneg pre). pose proof (blen_nonneg d).
  assert (drop (Z.to_nat (blen pre)) buf = data b d ++ rest) as Hdrop.
  { unfold buf. apply drop_app_exact. unfold blen. lia. }
  split; [by rewrite Hdrop, Ed, <- !app_assoc, read_header_bytes|]. split; [done|]. split; [done|].
  rewrite blen_app, Hlen. split; [lia|]. split; [unfold e, expected; cbn [event_header]; lia|].
  set (hd := header_bytes (complete_header (header b) (blen d))) in *.
  assert (length hd = 88%nat) as Lhd by apply length_header_bytes.
  assert (drop (Z.to_nat (blen pre + LP2P_EVENT_HEADER_BYTES)) buf = d ++ pad ++ rest) as E.
  { unfold buf. rewrite Ed, <- !app_assoc, (app_assoc pre). apply drop_app_exact.
    rewrite length_app. unfold blen, LP2P_EVENT_HEADER_BYTES in *. lia. }
  unfold slice. rewrite E. apply take_app_exact. unfold blen, LP2P_EVENT_HEADER_BYTES in *. lia.
Qed.

Section runs.
Context {I : Identity} {MA : Multiaddrs I} {H : Handles} {L : Libp2p I MA H}.

(** ** Running a computation *)

Lemma fbind_run {X Y} (m : F X) (k : X → F Y) pr a pr1 : m pr = Some (Ok a, pr1) → fbind m k pr = k a pr1.
Proof. intros E. unfold fbind. by rewrite E. Qed.

Lemma fbind_eq {X Y} (m : F X) (k : X → F Y) pr a pr1 r : m pr = Some (Ok a, pr1) → k a pr1 = r → fbind m k pr = r.
Proof. intros E Hk. by rewrite (fbind_run m k pr a pr1 E). Qed.

Lemma handle_run node pr n : handles pr !! node = Some n → node ≠ 0 → handle node pr = Some (Ok n, pr).
Proof. intros Hn H0. unfold handle. rewrite (proj2 (Z.eqb_neq _ _) H0). by rewrite Hn. Qed.

Lemma load_bytes_run p n l pr : load (memory pr) p (length l) = Some l → n = blen l → load_bytes p n pr = Some (Ok l, pr).
Proof. intros Hl ->. unfold load_bytes, blen. rewrite Nat2Z.id. by rewrite Hl. Qed.

Lemma key_run p (k : lp2p_key) pr : 0 < p → load (memory pr) p (length (arr k)) = Some (arr k) → key p pr = Some (Ok k, pr).
Proof.
  intros Hp Hl. unfold key. rewrite (proj2 (Z.eqb_neq p 0)) by lia.
  rewrite (fbind_run _ _ _ (arr k) pr).
  { by rewrite to_array_arr. }
  apply load_bytes_run; [done|]. unfold blen. by rewrite array_length.
Qed.

Lemma byte_slice_run p l pr : 0 < p → load (memory pr) p (length l) = Some l → byte_slice p (blen l) pr = Some (Ok l, pr).
Proof.
  intros Hp Hl. unfold byte_slice. destruct (Z.eqb_spec (blen l) 0) as [E|].
  { destruct l; [done|]. unfold blen in E. cbn in E. lia. }
  rewrite (proj2 (Z.eqb_neq p 0)) by lia. by apply load_bytes_run.
Qed.

Lemma require_run (b : bool) e pr : b = true → require b e pr = Some (Ok (), pr).
Proof. by intros ->. Qed.

(** A readable buffer is no longer than the memory. *)
Lemma load_size m p n l : load m p n = Some l → (n <= size m)%nat.
Proof.
  intros Hl. rewrite <- size_dom.
  assert (list_to_set (seqZ p (Z.of_nat n)) ⊆ dom m) as Hs.
  { intros a [Ha1 Ha2]%elem_of_list_to_set%elem_of_seqZ. revert p l Hl Ha1 Ha2.
    induction n as [|n IH]; intros p l Hl Ha1 Ha2; [lia|]. cbn [load] in Hl.
    apply bind_Some in Hl as (b & Hb & Hl). apply bind_Some in Hl as (r & Hr & _).
    destruct (decide (a = p)) as [->|Hne]; [by apply elem_of_dom|]. apply (IH (p + 1) r Hr); lia. }
  apply subseteq_size in Hs. rewrite size_list_to_set in Hs by apply NoDup_seqZ. rewrite length_seqZ in Hs. lia.
Qed.

Lemma load_cstr_run m fuel p l :
  load m p (length (l ++ [x00])) = Some (l ++ [x00]) → x00 ∉ l → (length l < fuel)%nat → load_cstr fuel m p = Some l.
Proof.
  revert fuel p. induction l as [|b l IH]; intros [|fuel] p Hl Hn Hf; cbn [length] in Hf; try lia; cbn [app length load load_cstr] in *;
    apply bind_Some in Hl as (b' & -> & Hl); apply bind_Some in Hl as (r & Hr & [= -> ->]); cbn [mbind option_bind].
  - by rewrite bool_decide_true.
  - apply not_elem_of_cons in Hn as [Hb Hn]. rewrite bool_decide_false by congruence. rewrite IH; [done..|lia].
Qed.

Lemma string_run p l pr :
  0 < p → load (memory pr) p (length (l ++ [x00])) = Some (l ++ [x00]) → x00 ∉ l → Wire.utf8_valid l = true →
  string p pr = Some (Ok l, pr).
Proof.
  intros Hp Hl Hn Hu. unfold string. rewrite (proj2 (Z.eqb_neq p 0)) by lia.
  rewrite (load_cstr_run _ _ _ l) by (try done; apply load_size in Hl; rewrite length_app in Hl; cbn in Hl; lia).
  cbn [mbind option_bind]. by rewrite Hu.
Qed.

(** [n] is the handle as it was read, [n'] as it is by then. *)
Lemma send_run node n n' c m hs :
  hs !! node = Some n' → poisoned (node_shared n) = false → node_receiving n = true →
  send node n c (mk_process m hs) = Some (Ok LP2P_OK, mk_process m (<[node := with_command c n']> hs)).
Proof.
  intros Hn Hp Hr. unfold send. rewrite Hp, Hr. unfold fbind, update_node. cbn [mbind option_bind upd handles memory].
  rewrite (alter_insert hs node n') by done. done.
Qed.

Lemma next_id_run node n m hs :
  hs !! node = Some n →
  next_id_of node n (mk_process m hs) = Some (Ok (next_id (node_shared n)), mk_process m (<[node := id_taken n]> hs)).
Proof.
  intros Hn. unfold next_id_of, fbind, update_node. cbn [mbind option_bind upd handles memory].
  by rewrite (alter_insert hs node n).
Qed.

Lemma insert_put (q : Z) (b : byte) k m p : q < p → <[q:=b]> (put m p k) = put (<[q:=b]> m) p k.
Proof.
  revert p. induction k as [|x k IH]; intros p Hq; [done|]. cbn [put].
  rewrite insert_insert_ne by lia. f_equal. apply IH. lia.
Qed.

(** Overwriting the buffer. *)
Lemma store_put m p l l' : length l' = length l → store (put m p l) p l' = Some (put m p l').
Proof.
  revert p m l. induction l' as [|b l' IH]; intros p m [|x l] Hlen; try done. cbn [store put].
  rewrite lookup_insert_eq. cbn [mbind option_bind]. rewrite insert_insert_eq, insert_put by lia. rewrite insert_put by lia.
  injection Hlen as Hlen. by rewrite IH.
Qed.

Lemma store_run m hs p l l' :
  length l' = length l → store_bytes p l' (mk_process (put m p l) hs) = Some (Ok (), mk_process (put m p l') hs).
Proof. intros Hl. unfold store_bytes. cbn [memory]. by rewrite (store_put _ _ _ _ Hl). Qed.

Lemma calling_run m pr r pr' : m pr = Some (r, pr') → calling m pr = Some (Ok (status r), pr').
Proof. intros E. unfold calling. by rewrite E. Qed.

(** ** Placing buffers *)

Context {A : Allocator} {AL : AllocatorLaws A}.

Lemma place_run {B} l (k : Z → F B) m hs r hs' :
  (∀ p, 0 < p → unused m p (length l) →
    ∃ l', length l' = length l ∧ k p (mk_process (put m p l) hs) = Some (r, mk_process (put m p l') hs')) →
  place l k (mk_process m hs) = Some (r, mk_process m hs').
Proof.
  intros Hk. unfold place. cbn [memory upd handles].
  pose proof (allocate_unused m (length l)) as Hu.
  destruct (Hk (allocate m (length l)) (allocate_positive _ _) Hu) as (l' & Hl & E).
  unfold upd. cbn [memory handles eta eta_Process]. rewrite E. cbn [mbind option_bind memory handles].
  rewrite <- Hl. rewrite release_put; [done|]. by rewrite Hl.
Qed.

Lemma place_read {B} l (k : Z → F B) m hs r hs' :
  (∀ p, 0 < p → unused m p (length l) → k p (mk_process (put m p l) hs) = Some (r, mk_process (put m p l) hs')) →
  place l k (mk_process m hs) = Some (r, mk_process m hs').
Proof. intros Hk. apply place_run. intros p Hp Hu. exists l. split; [done|by apply Hk]. Qed.

End runs.
