(* ===== verification/ClientSpec.v ===== *)
(** * ClientSpec: the C interface, used as its header says

    What a correct caller gets: its key from a seed, a delegation that its node
    accepts, its strings read back from the pointers it passed, and -- with
    options made from the library's defaults -- a node that starts. Both
    programs under [examples/] start this way. *)

From S2P Require Import Prelude Abi Keys Multiaddr AddressBook Libp2p Events NodeState Node Ffi FfiSpec Startup Client.
From S2P Require Wire Delegation.

Section client.
Context {I : Identity} {IL : IdentityLaws I} {MA : Multiaddrs I} {H : Handles} {L : Libp2p I MA H}.
Context {A : Allocator} {AL : AllocatorLaws A}.

(** ** Memory that grows *)

(** What was readable stays as it was. *)
Definition extends (m m' : gmap Z byte) : Prop := ∀ p n l, load m p n = Some l → load m' p n = Some l.

#[export] Instance extends_preorder : PreOrder extends.
Proof. split; [by intros m p n l|]. intros m1 m2 m3 H1 H2 p n l Hl. by apply H2, H1. Qed.

Lemma extends_put m p l : unused m p (length l) → extends m (put m p l).
Proof. intros Hu q n l' Hl. by apply load_placed. Qed.

Lemma size_put m p l : Z.of_nat (size (put m p l)) ≤ Z.of_nat (size m) + blen l.
Proof.
  revert p. induction l as [|b l IH]; intros p; [unfold blen; cbn; lia|]. cbn [put].
  specialize (IH (p + 1)). rewrite map_size_insert. unfold blen in *. cbn [length]. destruct (put m (p + 1) l !! p); unfold Datatypes.id; lia.
Qed.

Lemma place_low {B} l (k : Z → F B) m hs r hs' :
  Z.of_nat (size m) < 2 ^ 31 → blen l < 2 ^ 31 →
  (∀ p, 0 < p < 2 ^ 64 → unused m p (length l) → k p (mk_process (put m p l) hs) = Some (r, mk_process (put m p l) hs')) →
  place l k (mk_process m hs) = Some (r, mk_process m hs').
Proof.
  intros Hm Hl Hk. unfold place. cbn [memory upd handles].
  pose proof (allocate_unused m (length l)) as Hu. pose proof (allocate_positive m (length l)).
  pose proof (allocate_fits m (length l) Hm Hl). unfold upd. cbn [memory handles eta eta_Process].
  rewrite Hk by (done || lia). cbn [mbind option_bind memory handles]. by rewrite release_put.
Qed.

(** ** Keys and delegations *)

Lemma key_from_run seed kp k m hs :
  keypair_from_seed seed = Some kp → public_key kp = Some k → key_from seed (mk_process m hs) = Some (Ok k, mk_process m hs).
Proof.
  intros Hkp Hk. unfold key_from. apply place_read. intros ps Hps Hus. apply place_run. intros pk Hpk Huk.
  exists (arr k). split; [by rewrite array_length, repeat_length|].
  eapply fbind_eq.
  { apply (calling_run _ _ (Ok LP2P_OK)). unfold lp2p_key_from_seed.
    eapply fbind_eq; [apply key_run; [done|cbn [memory]; apply load_placed; [apply load_put|done]]|]. cbv beta.
    eapply fbind_eq; [apply require_run; by rewrite (proj2 (Z.eqb_neq pk 0)) by lia|]. cbv beta.
    eapply fbind_eq; [unfold pure; by rewrite Hkp|]. cbv beta. eapply fbind_eq; [unfold pure; by rewrite Hk|]. cbv beta.
    eapply fbind_eq; [apply store_run; by rewrite array_length, repeat_length|]. reflexivity. }
  cbv beta. eapply fbind_eq; [reflexivity|]. cbv beta.
  eapply fbind_eq; [apply (load_bytes_run _ _ (arr k)); [apply load_put|unfold blen; by rewrite array_length]|]. cbv beta.
  rewrite to_array_arr. reflexivity.
Qed.

(** The delegation the group's seed signs for a node, without an expiry. *)
Lemma signs group_seed gkp group key :
  keypair_from_seed group_seed = Some gkp → public_key gkp = Some group →
  ∃ d, Delegation.sign group_seed key 0 = Some d ∧ Delegation.group d = group.
Proof.
  unfold keypair_from_seed, public_key, Delegation.sign. intros -> Hg. cbn [mbind option_bind]. rewrite Hg. cbn [mbind option_bind].
  destruct (to_array_is_Some 64 (ed25519_sign gkp (Delegation.message key group 0)) (sign_length _ _)) as [s ->].
  cbn [mbind option_bind]. by eexists.
Qed.

Lemma sign_delegation_run group_seed key d m hs :
  Delegation.sign group_seed key 0 = Some d →
  sign_delegation group_seed key (mk_process m hs) = Some (Ok (Delegation.to_bytes d), mk_process m hs).
Proof.
  intros Hd. unfold sign_delegation. apply place_read. intros ps Hps Hus. apply place_read. intros pk Hpk Huk.
  assert (length (Delegation.to_bytes d) = Z.to_nat LP2P_DELEGATION_BYTES) as Hlen.
  { pose proof (Delegation.length_to_bytes d). unfold blen in *. lia. }
  apply place_run. intros po Hpo Huo. exists (Delegation.to_bytes d). split; [by rewrite repeat_length|].
  eapply fbind_eq.
  { apply (calling_run _ _ (Ok LP2P_OK)). unfold lp2p_delegation_sign.
    eapply fbind_eq; [apply key_run; [done|cbn [memory]; do 2 (apply load_placed; [|done]); apply load_put]|]. cbv beta.
    eapply fbind_eq; [apply key_run; [done|cbn [memory]; apply load_placed; [apply load_put|done]]|]. cbv beta.
    eapply fbind_eq; [apply require_run; by rewrite (proj2 (Z.eqb_neq po 0)) by lia|]. cbv beta.
    eapply fbind_eq; [unfold pure; by rewrite Hd|]. cbv beta.
    eapply fbind_eq; [apply store_run; by rewrite repeat_length|]. reflexivity. }
  cbv beta. eapply fbind_eq; [reflexivity|]. cbv beta. apply (load_bytes_run _ _ (Delegation.to_bytes d)); [apply load_put|].
  unfold blen. rewrite Hlen. done.
Qed.

Lemma default_from_library_run m hs : default_from_library (mk_process m hs) = Some (Ok default_options, mk_process m hs).
Proof.
  unfold default_from_library. apply place_run. intros p Hp Hu.
  assert (length (options_bytes default_options) = Z.to_nat sizeof_lp2p_options) as Hlen by (vm_compute; reflexivity).
  exists (options_bytes default_options). split; [by rewrite repeat_length|].
  eapply fbind_eq.
  { unfold lp2p_options_default. rewrite (proj2 (Z.eqb_neq p 0)) by lia. apply store_run. by rewrite repeat_length. }
  cbv beta. eapply fbind_eq; [apply (load_bytes_run _ _ (options_bytes default_options)); [apply load_put|unfold blen; rewrite Hlen; done]|].
  cbv beta. rewrite options_of_options_bytes by apply default_options_wf. reflexivity.
Qed.


(** ** Strings *)

Definition cstr_at (m : gmap Z byte) (q : Z) (s : bytes) : Prop :=
  0 < q < 2 ^ 64 ∧ load m q (length (s ++ [x00])) = Some (s ++ [x00]).

Definition strings_at (m : gmap Z byte) (p : Z) (l : list bytes) : Prop :=
  0 < p ∧ ∃ qs, Forall2 (cstr_at m) qs l ∧
    load m p (length (concat (le_bytes 8 <$> qs))) = Some (concat (le_bytes 8 <$> qs)).

Lemma cstr_extends m m' q s : extends m m' → cstr_at m q s → cstr_at m' q s.
Proof. intros He [Hq Hl]. split; [done|by apply He]. Qed.

Lemma strings_extends m m' p l : extends m m' → strings_at m p l → strings_at m' p l.
Proof.
  intros He (Hp & qs & Hqs & Hl). split; [done|]. exists qs. split; [|by apply He].
  eapply Forall2_impl; [exact Hqs|]. intros q s. by apply cstr_extends.
Qed.

(** Text without a NUL. *)
Definition is_text (s : bytes) : Prop := (x00 ∉ s) ∧ Wire.utf8_valid s = true.

Lemma cstr_read q s pr : cstr_at (memory pr) q s → is_text s → string q pr = Some (Ok s, pr).
Proof. intros [Hq Hl] [Hn Hu]. apply string_run; [lia|done|done|done]. Qed.

Lemma length_pointers qs : length (concat (le_bytes 8 <$> qs)) = (8 * length qs)%nat.
Proof. induction qs as [|q qs IH]; [done|]. rewrite fmap_cons. cbn [concat length]. rewrite length_app, length_le_bytes, IH. lia. Qed.

Lemma pointers_read qs :
  Forall (fun q => 0 ≤ q < 2 ^ 64) qs →
  ((fun i => u_at (concat (le_bytes 8 <$> qs)) (8 * i) 8) <$> seq 0 (length qs)) = qs.
Proof.
  induction 1 as [|q qs Hq Hqs IH]; [done|]. cbn [length seq]. rewrite !fmap_cons, <- fmap_S_seq, <- list_fmap_compose. f_equal.
  - unfold u_at. cbn [concat Nat.mul]. rewrite slice_here by apply length_le_bytes. rewrite le_value_bytes. by apply wrap_small.
  - rewrite <- IH at 2. apply list_fmap_ext. intros i x _. unfold u_at, compose. cbn [concat].
    rewrite (slice_skip (le_bytes 8 q) _ 8) by (rewrite ?length_le_bytes; lia). do 2 f_equal; lia.
Qed.

Lemma string_list_run qs l pr :
  Forall2 (cstr_at (memory pr)) qs l → Forall is_text l → string_list qs pr = Some (Ok l, pr).
Proof.
  intros Hqs. induction Hqs as [|q s qs l Hq Hqs IH]; intros Hl; [done|]. apply Forall_cons in Hl as [Hs Hl].
  cbn [string_list]. eapply fbind_eq; [by apply cstr_read|]. cbv beta. eapply fbind_eq; [by apply IH|]. done.
Qed.

Lemma strings_run p l pr : strings_at (memory pr) p l → Forall is_text l → strings p (blen l) pr = Some (Ok l, pr).
Proof.
  intros (Hp & qs & Hqs & Hl) Ht. unfold strings. destruct (Z.eqb_spec (blen l) 0) as [E|].
  { destruct l; [done|]. unfold blen in E. cbn in E. lia. }
  rewrite (proj2 (Z.eqb_neq p 0)) by lia. pose proof (Forall2_length _ _ _ Hqs) as Hlen. rewrite length_pointers in Hl.
  eapply fbind_eq; [|by apply (string_list_run qs)].
  unfold load_pointers. eapply fbind_eq.
  { apply (load_bytes_run _ _ (concat (le_bytes 8 <$> qs))); [by rewrite length_pointers|]. unfold blen. rewrite length_pointers. lia. }
  cbv beta. unfold blen. rewrite Nat2Z.id, <- Hlen, pointers_read; [done|].
  apply Forall_forall. intros q [i Hi]%list_elem_of_lookup. destruct (Forall2_lookup_l _ _ _ _ _ Hqs Hi) as (s & _ & [Hq _]). lia.
Qed.

(** The bytes that placing strings takes. *)
Definition strings_bytes (l : list bytes) : Z := foldr (fun s n => blen s + 1 + n) 0 l.

Lemma strings_bytes_nonneg l : 0 ≤ strings_bytes l.
Proof. unfold strings_bytes. induction l as [|s l IH]; cbn [foldr]; [lia|]. pose proof (blen_nonneg s). lia. Qed.

Lemma place_strings_run {B} l : ∀ l0 qs (k : Z → F B) m hs r hs',
  Forall (fun s => x00 ∉ s) l → Forall2 (cstr_at m) qs l0 →
  Z.of_nat (size m) + strings_bytes l + 8 * Z.of_nat (length qs + length l) < 2 ^ 31 →
  (∀ p m', 0 < p < 2 ^ 64 → extends m m' → strings_at m' p (l0 ++ l) →
     Z.of_nat (size m') ≤ Z.of_nat (size m) + strings_bytes l + 8 * Z.of_nat (length qs + length l) →
     k p (mk_process m' hs) = Some (r, mk_process m' hs')) →
  place_strings l qs k (mk_process m hs) = Some (r, mk_process m hs').
Proof.
  induction l as [|s l IH]; intros l0 qs k m hs r hs' Hl Hqs Hsize Hk; cbn [place_strings strings_bytes foldr length] in *.
  - pose proof (length_pointers qs). apply place_low; [lia|unfold blen; lia|]. intros p Hp Hu. apply Hk; [done|by apply extends_put| |].
    + split; [lia|]. exists qs. rewrite app_nil_r. split; [|apply load_put].
      eapply Forall2_impl; [exact Hqs|]. intros q s. apply cstr_extends. by apply extends_put.
    + pose proof (size_put m p (concat (le_bytes 8 <$> qs))). unfold blen in *. lia.
  - apply Forall_cons in Hl as [Hs Hl]. fold (strings_bytes l) in *. pose proof (blen_nonneg s). pose proof (strings_bytes_nonneg l).
    assert (blen (s ++ [x00]) = blen s + 1) as Hlen by (rewrite blen_app; done).
    eapply fbind_eq; [unfold cstring; rewrite bool_decide_false by done; reflexivity|]. cbv beta.
    apply place_low; [lia|lia|]. intros q Hq Hu. pose proof (size_put m q (s ++ [x00])) as Hput.
    apply (IH (l0 ++ [s]) (qs ++ [q])); [done| | |].
    + apply Forall2_app; [|repeat constructor; [lia|lia|apply load_put]].
      eapply Forall2_impl; [exact Hqs|]. intros q' s'. apply cstr_extends. by apply extends_put.
    + rewrite length_app. cbn [length]. lia.
    + intros p m' Hp He Hm' Hsz. rewrite length_app in Hsz. cbn [length] in Hsz. rewrite <- app_assoc in Hm'. apply Hk; [done| |done|lia].
      etrans; [by apply extends_put|done].
Qed.

(** ** Options that make a node *)

(** The options [o] name, in the memory [m], this delegation and these texts. *)
Record usable (m : gmap Z byte) (o : lp2p_options) (d : Delegation.Delegation) (listen : list bytes)
    (addresses : list Multiaddr) (dht : bytes) (protocols : list bytes) (reach : Reachability) : Prop := {
  use_wf : options_wf o;
  use_size : o_struct_size o = sizeof_lp2p_options;
  use_delegation : 0 < o_delegation o ∧ o_delegation_len o = LP2P_DELEGATION_BYTES ∧
    load m (o_delegation o) (length (Delegation.to_bytes d)) = Some (Delegation.to_bytes d) ∧
    Delegation.delegation_wf d ∧ Delegation.group d = o_group o;
  use_listen : strings_at m (o_listen_addrs o) listen ∧ o_listen_addr_count o = blen listen ∧ Forall is_text listen ∧
    parse_addresses listen = Ok addresses;
  use_dht : cstr_at m (o_dht_protocol o) dht ∧ is_text dht ∧ head dht = Some x2f;
  use_protocols : strings_at m (o_rpc_protocols o) protocols ∧ o_rpc_protocol_count o = blen protocols ∧
    Forall is_text protocols ∧ protocols_ok protocols = true;
  use_limits : o_rpc_max_request_bytes o ≠ 0 ∧ o_rpc_max_response_bytes o ≠ 0 ∧ o_rpc_timeout_ms o ≠ 0;
  use_announce : ao_topic (o_announce o) = 0;
  use_reach : reachability_from (o_reachability o) = Ok reach;
}.

(** The configuration that is made of them. *)
Definition config_made (o : lp2p_options) (d : Delegation.Delegation) (addresses : list Multiaddr) (dht : bytes)
    (protocols : list bytes) (reach : Reachability) : Config := {|
  cfg_node_seed := o_node_seed o;
  cfg_delegation := d;
  cfg_listen := addresses;
  cfg_dht_protocol := dht;
  cfg_rpc_protocols := protocols;
  cfg_rpc_max_request_bytes := o_rpc_max_request_bytes o;
  cfg_rpc_max_response_bytes := o_rpc_max_response_bytes o;
  cfg_rpc_timeout := millis (o_rpc_timeout_ms o);
  cfg_quic := negb (o_quic o =? 0);
  cfg_dcutr := negb (o_dcutr o =? 0);
  cfg_autonat := negb (o_autonat o =? 0);
  cfg_reachability := reach;
  cfg_relay := relay_config (o_relay o);
  cfg_max_connections := limit (o_max_connections o);
  cfg_max_connections_per_peer := limit (o_max_connections_per_peer o);
  cfg_max_pending_incoming := limit (o_max_pending_incoming o);
  cfg_announce := if ao_enabled (o_announce o) =? 0 then None
                  else Some (mk_announce_config (dht ++ announce_suffix) (ao_max_payload_bytes (o_announce o)));
  cfg_event_queue_bytes := Z.max (o_event_queue_bytes o) (o_rpc_max_response_bytes o + 4096);
  cfg_topic_max_message_bytes := o_topic_max_message_bytes o;
  cfg_topic_max_subscriptions := o_topic_max_subscriptions o |}.

Lemma usable_extends m m' o d listen addresses dht protocols reach :
  extends m m' → usable m o d listen addresses dht protocols reach → usable m' o d listen addresses dht protocols reach.
Proof.
  intros He [Hwf Hsz (Hd0 & Hdl & Hd & Hdwf & Hdg) (Hl & Hlc & Hlt & Hla) (Hh & Hht & Hhd) (Hp & Hpc & Hpt & Hpo) Hm Ha Hr].
  split; [done|done| | | | |done|done|done].
  - split_and!; try done. by apply He.
  - split; [by eapply strings_extends|done].
  - split; [by eapply cstr_extends|done].
  - split; [by eapply strings_extends|done].
Qed.

Lemma config_from_run m hs o d listen addresses dht protocols reach :
  usable m o d listen addresses dht protocols reach →
  config_from o (mk_process m hs) = Some (Ok (config_made o d addresses dht protocols reach), mk_process m hs).
Proof.
  intros [_ _ (Hd0 & Hdl & Hd & Hdwf & Hdg) (Hl & Hlc & Hlt & Hla) (Hh & Hht & Hhd) (Hp & Hpc & Hpt & Hpo) (Hm1 & Hm2 & Hm3) Ha Hr].
  unfold config_from. eapply fbind_eq.
  { rewrite Hdl, <- (Delegation.length_to_bytes d). by apply byte_slice_run. }
  cbv beta. eapply fbind_eq; [unfold pure; by rewrite Delegation.parse_to_bytes|]. cbv beta.
  eapply fbind_eq; [apply require_run; by apply bool_decide_true|]. cbv beta.
  eapply fbind_eq; [rewrite Hlc; by apply strings_run|]. cbv beta.
  eapply fbind_eq; [unfold pure; by rewrite Hla|]. cbv beta.
  eapply fbind_eq; [by apply cstr_read|]. cbv beta.
  eapply fbind_eq; [unfold pure, stream_protocol; by rewrite bool_decide_true|]. cbv beta.
  eapply fbind_eq; [rewrite Hpc; by apply strings_run|]. cbv beta.
  eapply fbind_eq.
  { instantiate (2 := if ao_enabled (o_announce o) =? 0 then None
      else Some (mk_announce_config (dht ++ announce_suffix) (ao_max_payload_bytes (o_announce o)))).
    unfold announce_config. destruct (ao_enabled (o_announce o) =? 0); [reflexivity|]. rewrite Ha. cbn [Z.eqb].
    eapply fbind_eq; [reflexivity|]. cbv beta. eapply fbind_eq; [apply require_run|reflexivity].
    rewrite bool_decide_false; [done|]. by destruct dht. }
  cbv beta. eapply fbind_eq; [by apply require_run|]. cbv beta.
  eapply fbind_eq; [apply require_run; by rewrite !(proj2 (Z.eqb_neq _ 0))|]. cbv beta.
  eapply fbind_eq; [unfold pure; by rewrite Hr|]. cbv beta. reflexivity.
Qed.


Lemma load_prefix m p n l k : load m p n = Some l → (k <= n)%nat → load m p k = Some (take k l).
Proof.
  revert p l n. induction k as [|k IH]; intros p l n Hl Hk; [done|]. destruct n as [|n]; [lia|]. cbn [load] in *.
  apply bind_Some in Hl as (b & -> & Hl). apply bind_Some in Hl as (r & Hr & [= <-]). cbn [mbind option_bind].
  rewrite (IH (p + 1) r n Hr) by lia. done.
Qed.

Lemma length_options_bytes o : length (options_bytes o) = Z.to_nat sizeof_lp2p_options.
Proof. unfold options_bytes, rate_bytes. cbv zeta. rewrite !length_app, !length_le_bytes, !array_length, !repeat_length. reflexivity. Qed.

(** *** [lp2p_start] on usable options *)

(** What the start of the thread comes to: it could not be spawned, it said what
    became of the swarm and of listening, or it is gone without a word. *)
Definition thread_answer (spawned : bool) (ready : option Z) : Z :=
  if spawned then default LP2P_ERR_PANIC ready else LP2P_ERR_NO_MEMORY.

Lemma lp2p_start_run m hs opt pout o d listen addresses dht protocols reach kp key now_ms spawned ready address :
  0 < opt → 0 < pout → unused m pout (length (le_bytes 8 0)) →
  load m opt (length (options_bytes o)) = Some (options_bytes o) →
  usable m o d listen addresses dht protocols reach →
  keypair_from_seed (o_node_seed o) = Some kp → public_key kp = Some key → Delegation.verify_for d key now_ms = Ok () →
  lp2p_start opt pout now_ms spawned ready address (mk_process (put m pout (le_bytes 8 0)) hs) =
    let started := thread_answer spawned ready =? LP2P_OK in
    Some (if started then Ok LP2P_OK else Err (thread_answer spawned ready),
          mk_process (put m pout (le_bytes 8 (if started then address else 0)))
            (if started then <[address := new_node (config_made o d addresses dht protocols reach)]> hs else hs)).
Proof.
  intros Hopt Hpout Hu Hl Huse Hkp Hkey Hverify. pose proof (extends_put m pout (le_bytes 8 0) Hu) as He.
  pose proof (He _ _ _ Hl) as Hl'. pose proof (usable_extends _ _ _ _ _ _ _ _ _ He Huse) as Huse'.
  rewrite length_options_bytes in Hl'.
  pose proof (use_wf _ _ _ _ _ _ _ _ Huse) as Hwf. pose proof (use_size _ _ _ _ _ _ _ _ Huse) as Hsz.
  unfold lp2p_start. rewrite (proj2 (Z.eqb_neq opt 0)), (proj2 (Z.eqb_neq pout 0)) by lia. cbn [orb].
  eapply fbind_eq.
  { apply (load_bytes_run _ _ (le_bytes 4 (o_struct_size o))); [|unfold blen; by rewrite length_le_bytes].
    rewrite length_le_bytes. cbn [memory]. rewrite (load_prefix _ _ _ _ 4 Hl') by (unfold sizeof_lp2p_options; lia). reflexivity. }
  cbv beta zeta. rewrite Hsz. change (le_value (le_bytes 4 sizeof_lp2p_options)) with sizeof_lp2p_options.
  change (sizeof_lp2p_options <? 4) with false. cbv iota. rewrite Z.min_id.
  eapply fbind_eq.
  { apply (load_bytes_run _ _ (options_bytes o)); [by rewrite length_options_bytes|]. unfold blen. by rewrite length_options_bytes. }
  cbv beta. rewrite start_options_same by done.
  eapply fbind_eq; [exact (config_from_run _ _ _ _ _ _ _ _ _ Huse')|]. cbv beta.
  assert (node_start (config_made o d addresses dht protocols reach) now_ms spawned ready =
    if thread_answer spawned ready =? LP2P_OK then Ok (new_node (config_made o d addresses dht protocols reach))
    else Err (thread_answer spawned ready)) as ->.
  { unfold node_start, Node.start_checks. cbn [cfg_node_seed cfg_delegation config_made]. rewrite Hkp. cbn [ok_or res_bind]. rewrite Hkey.
    cbn [ok_or res_bind]. rewrite Hverify. destruct spawned; [|done]. destruct ready as [s|]; [|done].
    cbn. by destruct (s =? LP2P_OK). }
  cbv zeta. destruct (thread_answer spawned ready =? LP2P_OK); [|done].
  eapply fbind_eq; [reflexivity|].
  cbv beta. eapply fbind_eq; [reflexivity|]. cbv beta.
  eapply fbind_eq; [apply store_run; by rewrite !length_le_bytes|]. reflexivity.
Qed.

End client.


