(* ===== verification/Statistics.v ===== *)
(** * Statistics: what lp2p_stats_get tells is true

    The node's thread counts as it goes, with atomics of 64 bits; here each count
    is compared with what the caller was handed and what the instrumented platform
    of [Trace] noted, over the whole life of the node, and then with the bytes the
    caller reads. A handler either leaves the difference between a counter and
    what it counts as it was ([same tally], hint database [tally]), or it is one
    of the two that refuse something, or the tick, which reads the swarm. *)

From S2P Require Import Prelude Abi Keys Multiaddr AddressBook Libp2p Events NodeState.
From S2P Require Import Toy Calls Inbound Relay Topics Node ToyNode CallsInv NodeInv Emissions Authentic Bounds Trace.
From S2P Require Import Thread Ffi FfiSpec Startup Client ClientSpec.
From S2P Require Wire Delegation Limits EventQueue.

Create HintDb tally.

(** ** Counting *)

Definition sum_of {A} (f : A → Z) (l : list A) : Z := foldr (fun x n => f x + n) 0 l.

Lemma sum_of_app {A} (f : A → Z) l l' : sum_of f (l ++ l') = sum_of f l + sum_of f l'.
Proof. induction l as [|x l IH]; cbn; [done|]. fold (sum_of f (l ++ l')) (sum_of f l). lia. Qed.

(** The records of a kind. *)
Definition of_kind (k : Z) (l : list EventRecord) : list EventRecord := List.filter (fun r => kind_of r =? k) l.

Lemma of_kind_app k l l' : of_kind k (l ++ l') = of_kind k l ++ of_kind k l'.
Proof. apply List.filter_app. Qed.

Lemma of_kind_other k r : kind_of r ≠ k → of_kind k [r] = [].
Proof. intros Hk. unfold of_kind. cbn. by rewrite (proj2 (Z.eqb_neq _ _)). Qed.

Lemma of_kind_this k r : kind_of r = k → of_kind k [r] = [r].
Proof. intros Hk. unfold of_kind. cbn. by rewrite (proj2 (Z.eqb_eq _ _)). Qed.

(** The length of the frame a topic message came in: the version, the delegation,
    and the payload, which is behind the topic's key. *)
Definition frame_bytes (r : EventRecord) : Z :=
  match read_header r with Some e => 1 + LP2P_DELEGATION_BYTES + (ev_data_len e - 32) | None => 0 end.

Section statistics.
Context {I : Identity} {MA : Multiaddrs I} {H : Handles} {L0 : Libp2p I MA H} {LL0 : Libp2pLaws L0}.

#[local] Hint Extern 0 (Libp2p I MA H) => exact (instrumented (L0 := L0)) : typeclass_instances.
#[local] Hint Extern 0 (Libp2pLaws _) => exact (instrumented_laws (L0 := L0) (LL0 := LL0)) : typeclass_instances.

(** What was published, other than announcements. *)
Definition published (announcements : option IdentTopic) (l : list Note) : list bytes :=
  omap (fun n => match n with
                 | Published t frame => if bool_decide (Some t = announcements) then None else Some frame
                 | _ => None
                 end) l.

(** ** The view *)

Lemma wrap_wrap z : wrap 64 (wrap 64 z) = wrap 64 z.
Proof. by apply Z.mod_mod. Qed.

(** By how much a counter is off, modulo 2^64, with what no handler changes. *)
Definition off (counter counted : Z) : Z := wrap 64 (counter - counted).

Definition tallies (w : World) :=
  let sh := w_shared w in
  let sent := published (announce_topic (w_state w)) (trace w) in
  let messages := of_kind LP2P_EV_TOPIC_MESSAGE (w_emitted w) in
  (off (rpc_in sh) (blen (of_kind LP2P_EV_RPC_REQUEST (w_emitted w))), off (rpc_out sh) (blen (requested (trace w))),
   (off (topic_in sh) (blen messages), off (topic_bytes_in sh) (sum_of frame_bytes messages)),
   (off (topic_out sh) (blen sent), off (topic_bytes_out sh) (sum_of blen sent))).

(** The values that are not counts but readings of the swarm. *)
Definition gauges (sh : Shared) : Z * Z := (sh_connections sh, routing_table_peers sh).

Definition tally (w : World) :=
  (announce_topic (w_state w), topic_max_message_bytes (w_state w),
   (rpc_limited (w_shared w), topic_limited (w_shared w), gauges (w_shared w)), tallies w).

Lemma off_incr a b : off (incr64 a) (b + 1) = off a b.
Proof. unfold off, incr64. unfold Z.sub. rewrite wrap_add_l. f_equal. lia. Qed.

Lemma off_add a b n : off (wrap 64 (a + n)) (b + n) = off a b.
Proof. unfold off, Z.sub. rewrite wrap_add_l. f_equal. lia. Qed.

Lemma tally_swarm {A} (a : Action A) :
  (∀ x, requested (note a x) = []) → (∀ o x, published o (note a x) = []) → respects (same tally) (swarm a).
Proof.
  intros Hr Hp w. unfold same, tally, tallies. rewrite trace_swarm, run_swarm. cbn [fst snd w_state w_shared w_emitted upd].
  unfold requested, published in *. by rewrite !omap_app, Hr, Hp, !app_nil_r.
Qed.

Lemma tally_emit b d :
  as_u16 (ev_type (header b)) ≠ LP2P_EV_RPC_REQUEST → as_u16 (ev_type (header b)) ≠ LP2P_EV_TOPIC_MESSAGE →
  respects (same tally) (emit (data b d)).
Proof.
  intros Hr Ht w. unfold same, tally, tallies. cbn [emit snd w_state w_shared w_emitted w_swarm trace upd].
  rewrite !of_kind_app, !of_kind_other, !app_nil_r by (by rewrite kind_of_data). reflexivity.
Qed.

Lemma swarm_emitted {A} (a : Action A) w : w_emitted (swarm a w).2 = w_emitted w.
Proof. by rewrite run_swarm. Qed.

(** A request that is sent and counted. *)
Lemma tally_ask peer frame (f : OutboundRequestId → State → State) :
  (∀ r s, announce_topic (f r s) = announce_topic s ∧ topic_max_message_bytes (f r s) = topic_max_message_bytes s) →
  respects (same tally)
    (request <- swarm (SendRequest peer frame);
     modify (f request);;
     modify_shared (fun sh => sh <| rpc_out ::= incr64 |>);;
     ret true).
Proof.
  intros Hf w. rewrite run_bind. pose proof (trace_swarm (SendRequest peer frame) w) as Et.
  pose proof (swarm_state (SendRequest peer frame) w) as Es. pose proof (swarm_shared (SendRequest peer frame) w) as Esh.
  pose proof (swarm_emitted (SendRequest peer frame) w) as Ee.
  destruct (swarm (SendRequest peer frame) w) as [r w']. cbn [fst snd note] in *.
  unfold same, tally, tallies, trace in *. cbn [bind modify modify_shared ret snd w_state w_shared w_emitted w_swarm upd rpc_out].
  destruct (Hf r (w_state w')) as [E1 E2]. rewrite <- Es, <- Esh, <- Ee, E1, E2, Et.
  unfold requested, published. rewrite !omap_app, blen_app, !app_nil_r.
  by rewrite (off_incr (rpc_out (w_shared w')) (blen (omap _ _))).
Qed.

(** An announcement that is published. *)
Lemma tally_announced topic frame {A} (k : result () PublishError → M A) w :
  announce_topic (w_state w) = Some topic → (∀ x, respects (same tally) (k x)) →
  same tally w (bind (swarm (Publish topic frame)) k w).2.
Proof.
  intros Ht Hk. rewrite run_bind. etrans; [|apply Hk]. unfold same, tally, tallies.
  rewrite trace_swarm, swarm_state, swarm_shared, swarm_emitted, Ht. cbn [note].
  unfold requested, published. rewrite !omap_app.
  destruct (is_err _); cbn [omap list_omap]; rewrite ?bool_decide_true, !app_nil_r by done; reflexivity.
Qed.

(** ** The handlers that count nothing, or what they do *)

Ltac tally_step :=
  lazymatch goal with
  | |- respects _ (bind (swarm (SendRequest _ _)) _) => apply tally_ask; intros ? ?; split; reflexivity
  | |- respects _ (swarm _) =>
      apply tally_swarm; first [intros; reflexivity | intros []; reflexivity | intros ? []; reflexivity]
  | |- respects _ (emit _) => apply tally_emit; intros E; discriminate E
  | |- respects _ (check_limits _ _ _) => apply same_check_limits; reflexivity
  | |- respects _ (may_report _) => apply same_may_report; reflexivity
  | |- respects _ (allow_announcement _ _) => apply same_allow; reflexivity
  | |- _ => first [respects_step | solve [ eauto 1 with tally nocore ] | intros ?; reflexivity]
  end.
Ltac tally := repeat tally_step.

Lemma tally_remember_failure p : respects (same tally) (remember_failure p).
Proof. unfold remember_failure. tally. Qed.
#[local] Hint Resolve tally_remember_failure : tally.

Lemma tally_provide : respects (same tally) provide.
Proof. unfold provide. tally. Qed.
#[local] Hint Resolve tally_provide : tally.

Lemma tally_announce : respects (same tally) announce.
Proof.
  intros w. unfold announce. rewrite run_bind, run_gets. cbn [fst snd].
  destruct (announce_topic (w_state w)) as [topic|] eqn:Et; [|done].
  destruct (announce_payload (w_state w)) as [payload|]; [|done]. case_bool_decide; [done|].
  apply tally_announced; [done|]. intros x. tally.
Qed.
#[local] Hint Resolve tally_announce : tally.

Lemma tally_try_candidates id call l : respects (same tally) (try_candidates id call l).
Proof. induction l as [|p l IH]; cbn [try_candidates]; tally; apply IH. Qed.
#[local] Hint Resolve tally_try_candidates : tally.

Lemma tally_advance id : respects (same tally) (advance id).
Proof. unfold advance, remove_call. tally. Qed.
#[local] Hint Resolve tally_advance : tally.

Lemma tally_start_call id g n p b t : respects (same tally) (start_call id g n p b t).
Proof. unfold start_call, first_candidates. tally. Qed.
#[local] Hint Resolve tally_start_call : tally.

Lemma tally_expire t : respects (same tally) (expire t).
Proof. unfold expire, remove_call. tally. Qed.
#[local] Hint Resolve tally_expire : tally.

Lemma tally_enqueue_all local call l : respects (same tally) (enqueue_all local call l).
Proof. revert call. induction l as [|p l IH]; intros call; cbn [enqueue_all]; unfold enqueue; tally; apply IH. Qed.
#[local] Hint Resolve tally_enqueue_all : tally.

Lemma tally_reserve_on t l : respects (same tally) (reserve_on t l).
Proof. induction l as [|p l IH]; cbn [reserve_on]; tally; apply IH. Qed.
#[local] Hint Resolve tally_reserve_on : tally.

Lemma tally_reserve : respects (same tally) reserve.
Proof. unfold reserve. tally. Qed.
#[local] Hint Resolve tally_reserve : tally.

Lemma tally_topic_lookup k : respects (same tally) (topic_lookup k).
Proof. unfold topic_lookup. tally. Qed.
#[local] Hint Resolve tally_topic_lookup : tally.

Lemma tally_dial_members n l : respects (same tally) (dial_members n l).
Proof. revert n. induction l as [|p l IH]; intros n; cbn [dial_members]; tally; apply IH. Qed.
#[local] Hint Resolve tally_dial_members : tally.

Lemma tally_kad_event e : respects (same tally) (kad_event e).
Proof.
  destruct e; cbn [kad_event]; unfold routing_updated, get_providers_progressed, topic_providers, call_providers,
    queue_found, dial_topic_members, found_providers, get_closest_peers_progressed, call_resolved, update_call,
    iterate_found, bootstrap_progressed; tally.
Qed.
#[local] Hint Resolve tally_kad_event : tally.

(** A tick ends with the readings of the swarm. *)
Definition ends_with (last m : M ()) : Prop := ∀ w, ∃ w1, same tally w w1 ∧ (m w).2 = (last w1).2.

Lemma ends_with_bind {A} (m : M A) k last : respects (same tally) m → (∀ x, ends_with last (k x)) → ends_with last (bind m k).
Proof.
  intros Hm Hk w. rewrite run_bind. destruct (Hk (m w).1 (m w).2) as (w1 & E1 & E2).
  exists w1. split; [|done]. etrans; [apply Hm|exact E1].
Qed.

Definition readings : M () :=
  routing <- get_swarm (fun sw => blen (concat (kbuckets sw)));
  modify_shared (fun sh => sh <| routing_table_peers := as_u32 routing |>);;
  peers <- get_swarm num_peers;
  modify_shared (fun sh => sh <| sh_connections := as_u32 peers |>).

Lemma tick_ends : ends_with readings tick.
Proof.
  unfold tick. do 12 (apply ends_with_bind; [tally|intros ?]). intros w. by exists w.
Qed.

Lemma tally_get_ready config : respects (same tally) (get_ready config).
Proof. unfold get_ready. tally. Qed.

Lemma tally_command c : (∀ key payload, c ≠ TopicPublish key payload) → respects (same tally) (command c).
Proof.
  intros Hc. destruct c; cbn [command]; try (by destruct (Hc key payload));
    unfold respond, reject, add_address, bootstrap, random_walk, find_providers, provide_key, announce_set_payload,
      topic_subscribe, topic_unsubscribe, store_topic_count, topic_peers, routing_sample; tally.
Qed.

Lemma tally_gossip_else e : (∀ s i m, e ≠ MessageReceived s i m) → respects (same tally) (gossipsub_event e).
Proof. destruct e; intros He; cbn [gossipsub_event]; [|by destruct (He propagation_source message_id message)|]; tally. Qed.

Lemma tally_announcement_message m : respects (same tally) (announcement_message m).
Proof. unfold announcement_message. tally. Qed.
#[local] Hint Resolve tally_announcement_message : tally.

Lemma tally_response p r f : respects (same tally) (response p r f).
Proof. unfold response, response_accepted, update_call. tally. Qed.
#[local] Hint Resolve tally_response : tally.

Lemma tally_outbound_failure p r e : respects (same tally) (outbound_failure p r e).
Proof. unfold outbound_failure, update_call. tally. Qed.
#[local] Hint Resolve tally_outbound_failure : tally.

Lemma tally_inbound_done r : respects (same tally) (inbound_done r).
Proof. unfold inbound_done. tally. Qed.
#[local] Hint Resolve tally_inbound_done : tally.

Lemma tally_relay_lost l : respects (same tally) (relay_lost l).
Proof. unfold relay_lost. tally. Qed.
#[local] Hint Resolve tally_relay_lost : tally.

Lemma tally_become_private : respects (same tally) become_private.
Proof. unfold become_private. tally. Qed.
#[local] Hint Resolve tally_become_private : tally.

Lemma tally_become_public : respects (same tally) become_public.
Proof. unfold become_public. tally. Qed.
#[local] Hint Resolve tally_become_public : tally.

Lemma tally_nat_status st : respects (same tally) (nat_status st).
Proof. unfold nat_status. tally. Qed.
#[local] Hint Resolve tally_nat_status : tally.

Lemma tally_identified p i : respects (same tally) (identified p i).
Proof. unfold identified. tally. Qed.
#[local] Hint Resolve tally_identified : tally.

Lemma tally_new_listen_addr a : respects (same tally) (new_listen_addr a).
Proof. unfold new_listen_addr. tally. Qed.
#[local] Hint Resolve tally_new_listen_addr : tally.

Lemma tally_expired_listen_addr a : respects (same tally) (expired_listen_addr a).
Proof. unfold expired_listen_addr. tally. Qed.
#[local] Hint Resolve tally_expired_listen_addr : tally.

Lemma tally_connection_established p c n e : respects (same tally) (connection_established p c n e).
Proof. unfold connection_established. tally. Qed.
#[local] Hint Resolve tally_connection_established : tally.

Lemma tally_connection_closed p c n : respects (same tally) (connection_closed p c n).
Proof. unfold connection_closed. tally. Qed.
#[local] Hint Resolve tally_connection_closed : tally.

Lemma tally_hole_punch p o : respects (same tally) (hole_punch p o).
Proof. unfold hole_punch. destruct o; tally. Qed.
#[local] Hint Resolve tally_hole_punch : tally.

(** The events that count something. *)
Definition counting (e : SwarmEvent) : bool :=
  match e with
  | RpcBehaviour (RequestReceived _ _ _ _ _) | GossipsubBehaviour (MessageReceived _ _ _) => true
  | _ => false
  end.

Lemma tally_swarm_event e : counting e = false → respects (same tally) (swarm_event e).
Proof.
  destruct e as [| | | | | | |e|e|[]| | |]; intros Hc; try discriminate Hc; cbn [swarm_event gossipsub_event]; try destruct e;
    try discriminate Hc; cbn [rpc_event]; tally.
Qed.

(** ** What counts *)

(** The reports of what was refused. *)
Definition reports (w : World) : list EventRecord := of_kind LP2P_EV_LIMITED (w_emitted w).

Definition refusal_record (r : Refusal) : EventRecord :=
  match r with
  | RefusedCall group node protocol reason => limited group node protocol reason
  | RefusedMessage group node reason => limited group node LP2P_PROTOCOL_TOPICS reason
  end.

Definition is_call (r : Refusal) : bool := match r with RefusedCall _ _ _ _ => true | RefusedMessage _ _ _ => false end.

(** How many requests, and how many messages. *)
Definition refused_calls (l : list Refusal) : Z := blen (List.filter is_call l).
Definition refused_messages (l : list Refusal) : Z := blen (List.filter (fun r => negb (is_call r)) l).

(** From one world to the next, in which [l] was refused: no counter of what went
    through is off by more than it was, the counters of what was refused went up
    by what was refused, the new reports are of that, and the readings are those
    of before. *)
Record accounts (l : list Refusal) (w w' : World) : Prop := mk_accounts {
  ac_announce : announce_topic (w_state w') = announce_topic (w_state w);
  ac_max : topic_max_message_bytes (w_state w') = topic_max_message_bytes (w_state w);
  ac_tallies : tallies w' = tallies w;
  ac_calls : wrap 64 (rpc_limited (w_shared w')) = wrap 64 (rpc_limited (w_shared w) + refused_calls l);
  ac_messages : wrap 64 (topic_limited (w_shared w')) = wrap 64 (topic_limited (w_shared w) + refused_messages l);
  ac_reports : ∃ new, reports w' = reports w ++ new ∧ new `sublist_of` (refusal_record <$> l);
  ac_gauges : gauges (w_shared w') = gauges (w_shared w);
}.

Lemma accounts_same w w' : tally w' = tally w → w_emitted w' = w_emitted w → accounts [] w w'.
Proof.
  unfold tally. intros Hs Ee. assert (tallies w' = tallies w) as Ht by congruence. split; [congruence..| | | |congruence].
  - change (refused_calls []) with 0. rewrite Z.add_0_r. congruence.
  - change (refused_messages []) with 0. rewrite Z.add_0_r. congruence.
  - exists []. unfold reports. by rewrite Ee, app_nil_r.
Qed.

Lemma of_kind_none ks k l :
  Forall (fun r => kind_in ks r = true ∧ EventQueue.built r) l → existsb (Z.eqb k) ks = false → of_kind k l = [].
Proof.
  intros Hl Hk. induction Hl as [|r l [Hr _] _ IH]; [done|].
  change (r :: l) with ([r] ++ l). rewrite of_kind_app, IH, app_nil_r. apply of_kind_other. intros <-. unfold kind_in in Hr. congruence.
Qed.

Lemma accounts_quiet ks w w' :
  same tally w w' → emits ks w w' → existsb (Z.eqb LP2P_EV_LIMITED) ks = false → accounts [] w w'.
Proof.
  intros Hs (l & El & Fl & _) Hks. unfold same, tally in Hs.
  assert (tallies w' = tallies w) as Ht by congruence. split; [congruence..| | | |congruence].
  - change (refused_calls []) with 0. rewrite Z.add_0_r. congruence.
  - change (refused_messages []) with 0. rewrite Z.add_0_r. congruence.
  - exists []. split; [|done]. unfold reports. by rewrite El, of_kind_app, (of_kind_none ks _ l Fl Hks).
Qed.

Lemma kind_of_rpc_request id group node protocol payload : kind_of (rpc_request id group node protocol payload) = LP2P_EV_RPC_REQUEST.
Proof. apply kind_of_data. Qed.

Lemma kind_of_topic_event key group node payload : kind_of (topic_event key group node payload) = LP2P_EV_TOPIC_MESSAGE.
Proof. apply kind_of_data. Qed.

(** A refusal that was counted, and perhaps a report of it. *)
Lemma accounts_report w w1 (report : bool) r :
  announce_topic (w_state w1) = announce_topic (w_state w) →
  topic_max_message_bytes (w_state w1) = topic_max_message_bytes (w_state w) →
  tallies w1 = tallies w → w_emitted w1 = w_emitted w → gauges (w_shared w1) = gauges (w_shared w) →
  wrap 64 (rpc_limited (w_shared w1)) = wrap 64 (rpc_limited (w_shared w) + refused_calls [r]) →
  wrap 64 (topic_limited (w_shared w1)) = wrap 64 (topic_limited (w_shared w) + refused_messages [r]) →
  accounts [r] w (if report then (emit (refusal_record r) w1).2 else w1).
Proof.
  intros Ea Em Et Ee Eg E1 E2. assert (kind_of (refusal_record r) = LP2P_EV_LIMITED) as Hk by (destruct r; apply kind_of_limited).
  destruct report; cycle 1.
  { split; try done. exists []. unfold reports. rewrite Ee, app_nil_r. split; [done|apply sublist_nil_l]. }
  split; [exact Ea|exact Em| |exact E1|exact E2| |exact Eg].
  - rewrite <- Et. unfold tallies. cbn [emit snd w_state w_shared w_emitted w_swarm upd rpc_in rpc_out topic_in topic_out topic_bytes_in topic_bytes_out].
    change (trace _) with (trace w1). rewrite !of_kind_app.
    by rewrite (of_kind_other LP2P_EV_RPC_REQUEST), (of_kind_other LP2P_EV_TOPIC_MESSAGE), !app_nil_r by (rewrite Hk; done).
  - exists [refusal_record r]. split; [|done]. unfold reports. cbn [emit snd w_emitted upd].
    by rewrite Ee, of_kind_app, (of_kind_this LP2P_EV_LIMITED) by exact Hk.
Qed.

(** What is admitted, and what is not. *)
Lemma accounts_inbound peer connection request_id frame channel w :
  accounts (refusals (InSwarm (RpcBehaviour (RequestReceived peer connection request_id frame channel))) w)
    w (inbound_request peer connection request_id frame channel w).2.
Proof.
  destruct (inbound_request_run peer connection request_id frame channel w) as [(n & Ec & ->)|(node & group & protocol & payload & Ec & ->)];
    unfold refusals; rewrite Ec; [by apply accounts_same|].
  cbv zeta. destruct (Limits.check _ _ _ _) as [[[]|reason] l]; cbn [fst].
  - unfold request_admitted. split; try reflexivity.
    + unfold tallies. cbn [emit snd w_state w_shared w_emitted w_swarm upd rpc_in rpc_out topic_in topic_out topic_bytes_in topic_bytes_out announce_topic].
      change (trace _) with (trace w). rewrite !of_kind_app.
      rewrite (of_kind_this LP2P_EV_RPC_REQUEST), (of_kind_other LP2P_EV_TOPIC_MESSAGE) by (rewrite kind_of_rpc_request; done).
      by rewrite app_nil_r, blen_app, (off_incr (rpc_in _) (blen _)).
    + change (refused_calls []) with 0. by rewrite Z.add_0_r.
    + change (refused_messages []) with 0. by rewrite Z.add_0_r.
    + exists []. split; [|done]. unfold reports. cbn [emit snd w_emitted upd].
      by rewrite of_kind_app, (of_kind_other LP2P_EV_LIMITED) by (rewrite kind_of_rpc_request; done).
  - apply (accounts_report w _ _ (RefusedCall group node (as_u16 protocol) reason)); try done; [exact (wrap_wrap _)|].
    change (refused_messages _) with 0. by rewrite Z.add_0_r.
Qed.

(** A message is counted with the length of the frame it came in. *)
Lemma frame_bytes_topic key group node payload d m :
  m_data m = Wire.encode_announcement (Delegation.to_bytes d) payload → blen payload < 2 ^ 32 - 2 ^ 7 →
  frame_bytes (topic_event key group node payload) = blen (m_data m).
Proof.
  intros Em Hp. unfold frame_bytes, topic_event. set (b := with_node node _). set (l := arr key ++ payload).
  pose proof (blen_nonneg payload).
  assert (blen l = 32 + blen payload) as Hl by (unfold l; rewrite blen_app; unfold blen; rewrite array_length; lia).
  pose proof (record_size_bounds (blen l) ltac:(lia)) as [Hs _]. unfold LP2P_EVENT_HEADER_BYTES in Hs.
  assert (event_wf b l) as Hwf by (split; [by repeat constructor; vm_compute|lia]).
  destruct (data_split b l) as (pad & -> & _). rewrite read_header_bytes by by apply complete_header_wf.
  destruct (complete_header_sizes (header b) (blen l)) as [_ ->]; [lia..|].
  rewrite Em. unfold Wire.encode_announcement, Wire.encode_response. rewrite !blen_app, Delegation.length_to_bytes, Hl.
  change (blen [Wire.VERSION]) with 1. lia.
Qed.

(** A topic message, of no more than the configured length. *)
Lemma accounts_topic_message src id m w :
  topic_max_message_bytes (w_state w) < 2 ^ 32 - 2 ^ 7 →
  accounts (refusals (InSwarm (GossipsubBehaviour (MessageReceived src id m))) w) w (topic_message src m w).2.
Proof.
  intros Hmax. unfold refusals. destruct (topic_keys (w_state w) !! m_topic m) as [key|] eqn:Ek.
  2:{ unfold topic_message. rewrite run_bind, run_gets. cbn [fst snd]. rewrite Ek. by apply accounts_same. }
  destruct (topic_message_run src m w key Ek) as (n & ->).
  destruct (check_message m _) as [[[[publisher node] group] payload]|] eqn:Ec; [|by apply accounts_same].
  destruct (Z.ltb_spec (topic_max_message_bytes (w_state w)) (blen payload)); [by apply accounts_same|].
  apply check_message_Some in Ec as (_ & _ & d & _ & Em).
  cbv zeta. destruct (Limits.check _ _ _ _) as [[[]|reason] l]; cbn [fst snd].
  - unfold message_accepted. split; try reflexivity.
    + unfold tallies. cbn [clock_at emit snd w_state w_shared w_emitted w_swarm upd rpc_in rpc_out topic_in topic_out topic_bytes_in topic_bytes_out announce_topic].
      change (trace _) with (trace w). rewrite !of_kind_app.
      rewrite (of_kind_other LP2P_EV_RPC_REQUEST), (of_kind_this LP2P_EV_TOPIC_MESSAGE) by (rewrite kind_of_topic_event; done).
      rewrite app_nil_r, blen_app, (off_incr (topic_in _) (blen _)), sum_of_app. cbn [sum_of foldr].
      by rewrite (frame_bytes_topic _ _ _ _ d m), Z.add_0_r, off_add by (done || lia).
    + change (refused_calls []) with 0. by rewrite Z.add_0_r.
    + change (refused_messages []) with 0. by rewrite Z.add_0_r.
    + exists []. split; [|done]. unfold reports. cbn [emit snd w_emitted upd].
      by rewrite of_kind_app, (of_kind_other LP2P_EV_LIMITED) by (rewrite kind_of_topic_event; done).
  - apply (accounts_report w _ _ (RefusedMessage group node reason)); try done; [|exact (wrap_wrap _)].
    change (refused_calls _) with 0. by rewrite Z.add_0_r.
Qed.

(** What follows changes nothing. *)
Lemma accounts_on l w w1 w2 : accounts l w w1 → tally w2 = tally w1 → w_emitted w2 = w_emitted w1 → accounts l w w2.
Proof.
  intros [A1 A2 A3 A4 A5 A6 A7] Ht Ee. unfold tally in Ht. assert (tallies w2 = tallies w1) as Ht' by congruence.
  assert (rpc_limited (w_shared w2) = rpc_limited (w_shared w1) ∧ topic_limited (w_shared w2) = topic_limited (w_shared w1)) as [E1 E2] by (split; congruence).
  split; rewrite ?E1, ?E2, ?Ht'; try congruence. unfold reports in *. by rewrite Ee.
Qed.

(** A message on a topic of the node. *)
Lemma accounts_publish key payload w :
  (∀ ts, topics (w_state w) !! key = Some ts → announce_topic (w_state w) ≠ Some (ts_topic ts)) →
  accounts [] w (topic_publish key payload w).2.
Proof.
  intros Hts. unfold topic_publish. rewrite run_bind, run_gets. cbn [fst snd].
  destruct (topics (w_state w) !! key) as [ts|]; [|by apply accounts_same].
  specialize (Hts ts eq_refl). rewrite run_bind. set (frame := Wire.encode_announcement _ _).
  pose proof (trace_swarm (Publish (ts_topic ts) frame) w) as Et.
  pose proof (swarm_state (Publish (ts_topic ts) frame) w) as Es. pose proof (swarm_shared (Publish (ts_topic ts) frame) w) as Esh.
  pose proof (swarm_emitted (Publish (ts_topic ts) frame) w) as Ee.
  destruct (swarm (Publish (ts_topic ts) frame) w) as [answer w']. cbn [fst snd note] in *.
  apply accounts_same; [|by destruct answer; exact Ee].
  unfold tally, tallies, trace in *. rewrite <- Es, <- Esh, <- Ee in *. destruct answer as [[]|e]; cbn [is_err negb when] in *.
  - cbn [bind modify_shared snd w_state w_shared w_emitted w_swarm upd rpc_in rpc_out topic_in topic_out topic_bytes_in topic_bytes_out rpc_limited topic_limited].
    unfold published, requested. rewrite Et, !omap_app. cbn [omap list_omap]. rewrite app_nil_r, bool_decide_false by congruence.
    rewrite blen_app, sum_of_app, (off_incr (topic_out _) (blen _)). cbn [sum_of foldr]. by rewrite Z.add_0_r, off_add.
  - cbn [skip snd]. by rewrite Et, app_nil_r.
Qed.

(** A message on no topic of the table is refused by no limit. *)
Lemma accounts_announcement_message src id m w :
  topic_keys (w_state w) !! m_topic m = None →
  accounts (refusals (InSwarm (GossipsubBehaviour (MessageReceived src id m))) w) w (announcement_message m w).2.
Proof.
  intros Ek. unfold refusals. rewrite Ek.
  exact (accounts_quiet _ _ _ (tally_announcement_message m w) (emits_announcement_message m w) eq_refl).
Qed.

Lemma accounts_gossip src id m w :
  topic_max_message_bytes (w_state w) < 2 ^ 32 - 2 ^ 7 →
  accounts (refusals (InSwarm (GossipsubBehaviour (MessageReceived src id m))) w)
    w (gossipsub_event (MessageReceived src id m) w).2.
Proof.
  intros Hmax. unfold gossipsub_event. rewrite run_bind, run_gets. cbn [fst snd]. rewrite run_bind.
  eapply accounts_on; [|apply tally_swarm; intros; reflexivity|apply swarm_emitted].
  destruct (bool_decide_reflect (is_Some (topic_keys (w_state w) !! m_topic m))) as [|Hn%eq_None_not_Some];
    [by apply accounts_topic_message|by apply accounts_announcement_message].
Qed.

(** *** The loop *)

(** The announcements are made on no topic of the node, and the longest message's
    record has a size of 32 bits. *)
Definition countable (config : Config) : Prop :=
  apart config ∧ cfg_topic_max_message_bytes config < 2 ^ 32 - 2 ^ 7.

(** Every input but a tick. *)
Lemma accounts_step config used input w :
  countable config → reachable config used w → input ≠ InTick →
  announce_topic (w_state w) = an_topic <$> cfg_announce config →
  topic_max_message_bytes (w_state w) = cfg_topic_max_message_bytes config →
  accounts (refusals input w) w (step input w).2.
Proof.
  intros [Ha Hm] Hr Hne Ea Em. destruct input as [c| |e|]; [| | |done].
  - assert (accounts [] w (command c w).2) as Hc; [|exact Hc].
    assert ((∀ key payload, c ≠ TopicPublish key payload) ∨ ∃ key payload, c = TopicPublish key payload) as [Hc|(key & payload & ->)].
    { destruct c; try (left; intros; discriminate). right. by eexists _, _. }
    + exact (accounts_quiet _ _ _ (tally_command c Hc w) (emits_command c w) eq_refl).
    + cbn [command]. rewrite run_bind. apply accounts_publish. intros ts Hts.
      pose proof (reachable_bounds _ _ _ Hr) as (_ & _ & ((Hagree & _) & _) & _). destruct (Hagree key ts Hts) as [-> _].
      rewrite Ea. destruct (cfg_announce config) as [a|] eqn:Ec; [|done]. intros [= E]. by apply (Ha key a).
  - by apply accounts_same.
  - rewrite step_swarm. destruct (counting e) eqn:Ec.
    + destruct e as [| | | | | | | |[]|[]| | |]; try discriminate Ec; cbn [swarm_event rpc_event].
      * apply accounts_inbound.
      * apply accounts_gossip. lia.
    + assert (refusals (InSwarm e) w = []) as -> by by destruct e as [| | | | | | | |[]|[]| | |].
      eapply accounts_quiet; [by apply tally_swarm_event|apply swarm_event_emits|]. by destruct e as [| | | | | | | |[]|[]| | |].
Qed.

(** A tick, up to its readings. *)
Lemma accounts_tick w : ∃ w1, accounts [] w w1 ∧ (tick w).2 = (readings w1).2.
Proof.
  destruct (tick_ends w) as (w1 & Hs & E). exists w1. split; [|exact E].
  assert (emits [LP2P_EV_RPC_FAILED] w w1) as He; [|exact (accounts_quiet _ _ _ Hs He eq_refl)].
  pose proof (emits_tick w) as He. by rewrite E in He.
Qed.

(** No counter is off. *)
Record counted (config : Config) (h : History) (w : World) : Prop := mk_counted {
  co_announce : announce_topic (w_state w) = an_topic <$> cfg_announce config;
  co_max : topic_max_message_bytes (w_state w) = cfg_topic_max_message_bytes config;
  co_tallies : tallies w = (0, 0, (0, 0), (0, 0));
  co_calls : wrap 64 (rpc_limited (w_shared w)) = wrap 64 (refused_calls (h_refused h));
  co_messages : wrap 64 (topic_limited (w_shared w)) = wrap 64 (refused_messages (h_refused h));
  co_reports : reports w `sublist_of` (refusal_record <$> h_refused h);
  co_gauges : gauges (w_shared w) = (as_u32 (h_peers h).1, as_u32 (h_peers h).2);
}.

Lemma counted_on config h h' l w w' :
  counted config h w → accounts l w w' → h_refused h' = h_refused h ++ l → h_peers h' = h_peers h → counted config h' w'.
Proof.
  intros [A1 A2 A3 A4 A5 A6 A7] [B1 B2 B3 B4 B5 (new & Enew & Hnew) B7] Er Ep.
  split; [congruence..| | | |rewrite Ep; congruence]; rewrite Er.
  - rewrite B4, <- wrap_add_l, A4, wrap_add_l. unfold refused_calls. by rewrite List.filter_app, blen_app.
  - rewrite B5, <- wrap_add_l, A5, wrap_add_l. unfold refused_messages. by rewrite List.filter_app, blen_app.
  - rewrite Enew, fmap_app. by apply sublist_app.
Qed.

Lemma counted_tick config h w : counted config h w → counted config (extend InTick w h) (step InTick w).2.
Proof.
  intros Hw. destruct (accounts_tick w) as (w1 & Ha & Et).
  destruct (counted_on config h h [] w w1 Hw Ha (eq_sym (app_nil_r _)) eq_refl) as [A1 A2 A3 A4 A5 A6 _].
  rewrite step_tick, Et. split; cbn [extend h_refused h_peers refusals]; rewrite ?app_nil_r; try done.
  rewrite step_tick, Et. reflexivity.
Qed.

Lemma execution_counted config h w : countable config → execution config h w → counted config h w.
Proof.
  intros Hc. induction 1 as [w [(local & t & Es) Ee] Ht _ _ Hn _ _|h w w' _ IH [[Es Ee _ _] Et _ _ Hn _]|h w now deadline cap answer out q _ IH _ _|h w _ IH|h w input He IH _ _].
  - unfold counters in Hn. injection Hn as N1 N2 N3 N4 N5 N6 N7 N8 N9 N10. split; [by rewrite Es..| | | | |].
    + unfold tallies. rewrite Ht, Ee, N1, N2, N4, N5, N6, N7, first_notes_requested.
      unfold first_notes, announced. by destruct (cfg_announce config).
    + by rewrite N3.
    + by rewrite N8.
    + unfold reports. by rewrite Ee.
    + unfold gauges. by rewrite N9, N10.
  - eapply (counted_on _ h h [] w); [done| |by rewrite app_nil_r|done]. apply accounts_same; [|done].
    unfold counters in Hn. injection Hn as N1 N2 N3 N4 N5 N6 N7 N8 N9 N10.
    unfold tally, tallies, gauges. by rewrite Es, Ee, Et, N1, N2, N3, N4, N5, N6, N7, N8, N9, N10.
  - destruct IH as [A1 A2 A3 A4 A5 A6 A7]. by split.
  - eapply (counted_on _ h h [] w); [done| |by rewrite app_nil_r|done].
    exact (accounts_quiet _ _ _ (tally_get_ready config w) (emits_get_ready config w) eq_refl).
  - assert (input = InTick ∨ input ≠ InTick) as [->|Hne] by (destruct input; [right..|left]; done); [by apply counted_tick|].
    eapply (counted_on _ h _ _ w); [done| |done|by destruct input].
    destruct IH as [Ea Em _ _ _ _ _]. exact (accounts_step _ _ input w Hc (execution_reachable _ _ _ He) Hne Ea Em).
Qed.

(** ** The losses

    The queue is the one the handlers push to and the caller's polls take from. *)

(** What happened to it, with the answers of the polls. *)
Definition queue_run (h : History) (w : World) : Prop :=
  ∃ ops rs,
    Forall EventQueue.op_wf ops ∧ 0 ≤ events_max_bytes (w_shared w) ∧
    EventQueue.qrun (events_max_bytes (w_shared w)) ops EventQueue.new_queue = (events (w_shared w), rs) ∧
    w_emitted w = EventQueue.pushed ops ∧ concat (snd <$> rs) = concat (h_polled h) ∧
    blen ops = blen (w_emitted w) + blen (h_polled h).

Lemma queue_run_emits ks h w w' : emits ks w w' → queue_run h w → queue_run h w'.
Proof.
  intros (l & El & Fl & [= Q1 Q2 _]) (ops & rs & F & Hm & R & E & O & N).
  exists (ops ++ (EventQueue.Push <$> l)), rs. rewrite Q1. split_and!; [|done| | |done|].
  - apply Forall_app. split; [done|]. apply Forall_fmap. eapply Forall_impl; [exact Fl|]. by intros r [_ Hb].
  - by rewrite qrun_app, R, qrun_pushes, app_nil_r, Q2.
  - by rewrite pushed_app, pushed_pushes, El, E.
  - rewrite !blen_app, N, El, blen_app. unfold blen. rewrite length_fmap. lia.
Qed.

Lemma queue_run_poll now deadline cap answer out q h w :
  0 ≤ cap → EventQueue.poll_pass now deadline cap (events (w_shared w)) = Some (answer, out, q) →
  queue_run h w → queue_run (polled out h) (w <| w_shared ::= fun sh => sh <| events := q |> |>).
Proof.
  intros Hcap Hp (ops & rs & F & Hm & R & E & O & N).
  exists (ops ++ [EventQueue.Poll now deadline cap]), (rs ++ [(answer, out)]).
  cbn [polled h_polled w_emitted w_shared upd events events_max_bytes]. split_and!; [|done| | | |].
  - apply Forall_app. split; [done|by repeat constructor].
  - rewrite qrun_app, R. cbn. by rewrite Hp.
  - by rewrite pushed_app, E, app_nil_r.
  - by rewrite fmap_app, !concat_app, O.
  - rewrite !blen_app, N. change (blen [EventQueue.Poll now deadline cap]) with 1. change (blen [out]) with 1. lia.
Qed.

Lemma execution_queue_run config h w : execution config h w → queue_run h w.
Proof.
  induction 1 as [w [_ Ee] _ _ _ _ Hq Hm|h w w' _ IH [[_ Ee _ _] _ _ _ _ Hq]|h w now deadline cap answer out q _ IH Hcap Hp|h w _ IH|h w input _ IH _ _].
  - exists [], []. rewrite Hq, Ee. done.
  - injection Hq as E1 E2. unfold queue_run. by rewrite Ee, E1, E2.
  - by eapply queue_run_poll.
  - eapply queue_run_emits; [apply emits_get_ready|exact IH].
  - eapply queue_run_emits; [apply emits_step_input|exact IH].
Qed.

(** What the caller's polls wrote, put together, are whole records and reports of
    losses; [lost] is how many of the records the node emitted are neither in them
    nor queued, and not in a report yet. *)
Definition losses_left (h : History) (w : World) (lost : Z) : Prop :=
  ∃ log taken,
    concat (h_polled h) = EventQueue.log_bytes log ∧ taken `sublist_of` w_emitted w ∧
    EventQueue.delivered_records log ++ EventQueue.records (events (w_shared w)) = taken ∧
    EventQueue.losses log + lost = blen (w_emitted w) - blen taken.

Lemma execution_losses config h w :
  execution config h w → blen (w_emitted w) + blen (h_polled h) < 2 ^ 64 →
  losses_left h w (EventQueue.dropped (events (w_shared w))).
Proof.
  intros He Hlen. destruct (execution_queue_run _ _ _ He) as (ops & rs & F & Hm & R & E & O & N).
  pose proof (EventQueue.qrun_refines _ ops EventQueue.new_queue F (EventQueue.new_queue_inv _ Hm)) as Hr.
  rewrite R in Hr. destruct Hr as (log & Hrun & Hout); [change (EventQueue.dropped EventQueue.new_queue) with 0; lia|].
  apply EventQueue.channel_run_accounts in Hrun as (taken & Hsub & Hrec & Hlost).
  exists log, taken. rewrite <- O, E. by split_and!.
Qed.

(** ** What the caller reads *)

(** The statistics of an execution: counts of what came in, of what the caller was
    handed and of what went out, without any wrapping, and the readings of the last
    tick. *)
Definition true_stats (struct_size : Z) (h : History) (w : World) (lost : Z) : lp2p_stats :=
  let received := of_kind LP2P_EV_TOPIC_MESSAGE (w_emitted w) in
  let sent := published (announce_topic (w_state w)) (trace w) in
  {| st_size := struct_size;
     st_connections := (h_peers h).1;
     st_routing_table_peers := (h_peers h).2;
     st_topics_subscribed := Z.of_nat (size (topics (w_state w)));
     st_rpc_in := blen (of_kind LP2P_EV_RPC_REQUEST (w_emitted w));
     st_rpc_out := blen (requested (trace w));
     st_rpc_limited := refused_calls (h_refused h);
     st_events_dropped := lost;
     st_topic_in := blen received;
     st_topic_out := blen sent;
     st_topic_bytes_in := sum_of frame_bytes received;
     st_topic_bytes_out := sum_of blen sent;
     st_topic_limited := refused_messages (h_refused h) |}.

Lemma off_zero a b : off a b = 0 → le_bytes 8 a = le_bytes 8 b.
Proof.
  intros E. rewrite <- (le_bytes_wrap 8 a), <- (le_bytes_wrap 8 b). f_equal.
  replace a with (a - b + b) by lia. change (8 * Z.of_nat 8) with 64. rewrite <- (wrap_add_l 64 (a - b)). fold (off a b). by rewrite E.
Qed.

Lemma le_bytes_eq8 a b : wrap 64 a = wrap 64 b → le_bytes 8 a = le_bytes 8 b.
Proof. intros E. rewrite <- (le_bytes_wrap 8 a), <- (le_bytes_wrap 8 b). by f_equal. Qed.

(** The bytes are those of the true counts. *)
Lemma stats_bytes_true config h w struct_size :
  execution config h w → countable config →
  stats_bytes (stats_of struct_size (w_shared w)) =
  stats_bytes (true_stats struct_size h w (EventQueue.dropped (events (w_shared w)))).
Proof.
  intros He Hc. destruct (execution_counted config h w Hc He) as [_ _ Ht H4 H5 _ Hg].
  unfold tallies in Ht. injection Ht as T1 T2 T3 T4 T5 T6. unfold gauges in Hg. injection Hg as G1 G2.
  apply off_zero in T1, T2, T3, T4, T5, T6. apply le_bytes_eq8 in H4, H5.
  unfold stats_bytes, stats_of, true_stats. cbn [st_size st_connections st_routing_table_peers st_topics_subscribed st_rpc_in
    st_rpc_out st_rpc_limited st_events_dropped st_topic_in st_topic_out st_topic_bytes_in st_topic_bytes_out st_topic_limited].
  rewrite T1, T2, T3, T4, T5, T6, H4, H5, G1, G2, (topics_counted config h w He). unfold as_u32.
  assert (∀ z, le_bytes 4 (wrap 32 z) = le_bytes 4 z) as E by exact (le_bytes_wrap 4). by rewrite !E.
Qed.

(** C11: what lp2p_stats_get tells is true, at any moment of the life of a node
    whose announcement topic is the name of no key and whose longest message is
    shorter than 2^32 - 2^7 bytes. For a caller whose struct has [size] bytes it
    succeeds and writes as many bytes of the statistics as the struct has and this
    header knows, nothing else of its memory, no handle. They are counts of what
    happened, modulo the width of each field: the requests and messages handed to
    the caller and the frames these came in; the requests and messages sent; the
    topics followed; exactly the requests and the messages that a limit or a block
    stopped, of which every report the caller was handed is one, in order; the
    swarm's peers and its routing table at the last tick; and as dropped the
    records that were emitted and are neither in what the polls wrote nor queued
    nor reported lost, as long as records and polls are fewer than 2^64. *)
Theorem statistics_true config h w node n out size struct pr :
  execution config h w → countable config → blen (w_emitted w) + blen (h_polled h) < 2 ^ 64 →
  handles pr !! node = Some n → node_shared n = w_shared w → node ≠ 0 → out ≠ 0 →
  4 ≤ size < 2 ^ 32 → load (memory pr) out (Z.to_nat size) = Some struct → take 4 struct = le_bytes 4 size →
  let known := Z.min size sizeof_lp2p_stats in
  ∃ pr' lost,
    lp2p_stats_get node out pr = Some (Ok LP2P_OK, pr') ∧ handles pr' = handles pr ∧
    load (memory pr') out (Z.to_nat known) = Some (take (Z.to_nat known) (stats_bytes (true_stats size h w lost))) ∧
    (∀ a, a < out ∨ out + known ≤ a → memory pr' !! a = memory pr !! a) ∧
    losses_left h w lost ∧
    of_kind LP2P_EV_LIMITED (w_emitted w) `sublist_of` (refusal_record <$> h_refused h).
Proof.
  intros He Hc Hlen Hn Hsh Hnode Hout Hsize Hload Hhead known.
  pose proof (stats_bytes_true config h w size He Hc) as Hbytes.
  set (l := take (Z.to_nat known) (stats_bytes (stats_of size (node_shared n)))).
  assert (length l = Z.to_nat known) as Hl.
  { unfold l. rewrite length_take. unfold stats_bytes. rewrite !length_app, !length_le_bytes. unfold known, sizeof_lp2p_stats. lia. }
  destruct (store_Some (memory pr) out (take (Z.to_nat known) struct) l) as (m & Hm).
  { rewrite Hl. apply (load_prefix _ _ _ _ _ Hload). unfold known, sizeof_lp2p_stats. lia. }
  exists (pr <| memory := m |>), (EventQueue.dropped (events (w_shared w))).
  split_and!; [| | | |by eapply execution_losses|exact (co_reports _ _ _ (execution_counted _ _ _ Hc He))].
  - unfold lp2p_stats_get. rewrite (fbind_run _ _ _ _ _ (handle_run node pr n Hn Hnode)).
    rewrite (fbind_run _ _ _ () pr) by (apply require_run; by rewrite (proj2 (Z.eqb_neq out 0))).
    rewrite (fbind_run _ _ _ (le_bytes 4 size) pr).
    2:{ apply load_bytes_run; [|by unfold blen; rewrite length_le_bytes]. rewrite length_le_bytes, <- Hhead.
        apply (load_prefix _ _ _ _ _ Hload). lia. }
    cbv zeta. rewrite le_value_bytes, wrap_small by (change (8 * Z.of_nat 4) with 32; lia).
    rewrite (fbind_run _ _ _ () pr) by (apply require_run; apply Z.leb_le; lia).
    unfold fbind, store_bytes. fold known l. rewrite Hm. reflexivity.
  - done.
  - cbn [memory upd]. pose proof (load_store _ _ _ _ Hm) as E. rewrite Hl in E. rewrite E. unfold l. by rewrite Hsh, Hbytes.
  - intros a Ha. cbn [memory upd]. apply (store_frame _ _ _ _ _ Hm). unfold blen. rewrite Hl. unfold known, sizeof_lp2p_stats in *. lia.
Qed.

End statistics.

(** ** Witness

    The watched toy node of [Trace] behind handle 8, which was asked by another
    node once, and a caller with a struct of this header at 100. *)

Definition toy_world : World (L := instrumented (L0 := ToyLibp2p)) := toy_played.2.

Definition toy_struct : bytes := le_bytes 4 88 ++ repeat x00 84.

Definition toy_watched_node : Ffi.Node :=
  (new_node toy_config) <| node_shared := w_shared toy_world |>.

Definition toy_asking : Process := mk_process (put ∅ 100 toy_struct) {[ 8 := toy_watched_node ]}.

Lemma toy_countable : countable toy_config.
Proof. split; [exact toy_apart|by vm_compute]. Qed.

Lemma statistics_true_witness :
  ∃ pr' lost,
    lp2p_stats_get 8 100 toy_asking = Some (Ok LP2P_OK, pr') ∧
    load (memory pr') 100 88 = Some (stats_bytes (true_stats 88 toy_played.1 toy_world lost)) ∧
    st_rpc_in (true_stats 88 toy_played.1 toy_world lost) = 1 ∧ losses_left toy_played.1 toy_world lost.
Proof.
  destruct (statistics_true (L0 := ToyLibp2p) toy_config toy_played.1 toy_world 8 toy_watched_node 100 88 toy_struct toy_asking)
    as (pr' & lost & E & _ & Hl & _ & Hlost & _).
  - exact toy_execution.
  - exact toy_countable.
  - vm_compute. reflexivity.
  - apply lookup_singleton_eq.
  - reflexivity.
  - lia.
  - lia.
  - lia.
  - exact (load_put ∅ 100 toy_struct).
  - reflexivity.
  - exists pr', lost. split; [exact E|]. split; [exact Hl|]. split; [vm_compute; reflexivity|exact Hlost].
Defined.
