(* ===== verification/Sampling.v ===== *)
(** * Sampling: the routing table through lp2p_routing_sample

    From the node's table to the caller's buffer: what a sample holds, how it
    moves on from call to call, and how much of it is copied. *)

From S2P Require Import Prelude Abi Keys Multiaddr AddressBook Libp2p Events NodeState.
From S2P Require Import Toy Calls Inbound Relay Topics Node ToyNode Ffi FfiSpec Client ClientSpec.
From S2P Require Wire Delegation Limits EventQueue.

(** ** Going round a list *)

Section round.
Context {A : Type}.

Definition entry_at (l : list A) (i : Z) : option A := l !! Z.to_nat (i mod blen l).

Lemma length_cycle_from offset n (l : list A) :
  0 ≤ offset < blen l → 0 ≤ n ≤ blen l → blen (cycle_from offset n l) = n.
Proof. unfold cycle_from, blen. intros Ho Hn. rewrite length_take, length_app, length_drop, length_take. lia. Qed.

(** The [i]-th of the entries from [offset] on, round and round. *)
Lemma cycle_from_lookup offset n (l : list A) i :
  0 ≤ offset < blen l → 0 ≤ i < n → n ≤ blen l →
  cycle_from offset n l !! Z.to_nat i = entry_at l (offset + i).
Proof.
  intros Ho Hi Hn. unfold cycle_from, entry_at. rewrite lookup_take_lt by lia. unfold blen in *.
  destruct (decide (offset + i < Z.of_nat (length l))).
  - rewrite lookup_app_l by (rewrite length_drop; lia). rewrite lookup_drop, Z.mod_small by lia. f_equal. lia.
  - rewrite lookup_app_r by (rewrite length_drop; lia). rewrite length_drop.
    replace ((offset + i) mod Z.of_nat (length l)) with (offset + i - Z.of_nat (length l)).
    + rewrite lookup_take_lt by lia. f_equal; lia.
    + rewrite <- (Z.mod_small (offset + i - Z.of_nat (length l)) (Z.of_nat (length l))) by lia.
      rewrite <- (Z_mod_plus_full (offset + i) (-1)). f_equal; lia.
Qed.

End round.

Section sampling.
Context {I : Identity} {MA : Multiaddrs I} {H : Handles} {L : Libp2p I MA H}.

(** ** The node *)

Definition table (w : World) : list (PeerId * list Multiaddr) := concat (kbuckets (w_swarm w)).

Definition row (e : PeerId * list Multiaddr) : EventRecord := discovered 0 e.1 e.2.

(** Where the next sample starts. *)
Definition next_start (w : World) : Z := (sample_offset (w_state w) + 1) mod blen (table w).

(** What a sample of at most [max] peers is. *)
Record sample_of (w : World) (max : Z) (records : list EventRecord) : Prop := mk_sample_of {
  sample_length : blen records = Z.min max (blen (table w));
  sample_entries i : 0 ≤ i < blen records → records !! Z.to_nat i = row <$> entry_at (table w) (next_start w + i);
}.

Lemma routing_sample_run max w :
  0 ≤ max → 0 ≤ sample_offset (w_state w) < 2 ^ 64 - 1 →
  ∃ records, sample_of w max records ∧
    routing_sample max w =
      (records, if bool_decide (table w = []) then w else w <| w_state ::= fun s => s <| sample_offset := next_start w |> |>).
Proof.
  intros Hmax Ho. unfold routing_sample. rewrite run_bind. cbn [get_swarm read fst snd]. fold (table w).
  case_bool_decide as Hempty.
  - exists []. split; [|done]. split; [rewrite Hempty; unfold blen; cbn; lia|]. intros i Hi. unfold blen in Hi. cbn in Hi. lia.
  - assert (0 < blen (table w)) as Hlen by (destruct (table w); [done|unfold blen; cbn; lia]).
    assert (wrap 64 (sample_offset (w_state w) + 1) mod blen (table w) = next_start w) as E by (rewrite wrap_small by lia; done).
    pose proof (Z.mod_pos_bound (sample_offset (w_state w) + 1) (blen (table w)) Hlen) as Hs. fold (next_start w) in Hs.
    rewrite run_bind, run_modify. cbn [fst snd]. rewrite run_bind, run_gets. cbn [fst snd ret w_state upd sample_offset].
    rewrite E. eexists. split; [|reflexivity]. split.
    + unfold blen at 1. rewrite length_fmap. fold (blen (cycle_from (next_start w) (Z.min max (blen (table w))) (table w))).
      apply length_cycle_from; lia.
    + intros i Hi. unfold blen at 1 in Hi. rewrite length_fmap in Hi.
      fold (blen (cycle_from (next_start w) (Z.min max (blen (table w))) (table w))) in Hi. rewrite length_cycle_from in Hi by lia.
      rewrite list_lookup_fmap, cycle_from_lookup by lia. reflexivity.
Qed.

(** A number of samples in a row. *)
Fixpoint samples (k : nat) (max : Z) : M (list (list EventRecord)) :=
  match k with
  | O => ret []
  | S k => sample <- routing_sample max; rest <- samples k max; ret (sample :: rest)
  end.

Lemma blen_pos {A} (l : list A) : l ≠ [] → 0 < blen l.
Proof. destruct l; [done|]. unfold blen. cbn. lia. Qed.

(** Each starts with the entry after the one the last one started with. *)
Lemma samples_heads max k : ∀ w i,
  0 < max → table w ≠ [] → blen (table w) < 2 ^ 64 - 1 → 0 ≤ sample_offset (w_state w) < 2 ^ 64 - 1 → (i < k)%nat →
  ∃ sample, (samples k max w).1 !! i = Some sample ∧
    head sample = row <$> entry_at (table w) (sample_offset (w_state w) + 1 + Z.of_nat i).
Proof.
  induction k as [|k IH]; intros w i Hmax Ht Hlen Ho Hi; [lia|]. cbn [samples]. rewrite run_bind.
  destruct (routing_sample_run max w ltac:(lia) Ho) as (records & [Hl He] & ->). rewrite bool_decide_false by done. cbn [fst snd].
  pose proof (blen_pos _ Ht) as Hpos. rewrite run_bind. cbn [ret fst]. destruct i as [|i].
  - exists records. split; [done|]. assert (0 < blen records) as Hr by lia. specialize (He 0 ltac:(lia)).
    rewrite Z.add_0_r in *. destruct records as [|r records]; [by destruct (Z.lt_irrefl 0)|].
    transitivity ((r :: records) !! Z.to_nat 0); [done|]. rewrite He. unfold entry_at, next_start. by rewrite Z.mod_mod by lia.
  - set (w1 := w <| w_state ::= _ |>).
    pose proof (Z.mod_pos_bound (sample_offset (w_state w) + 1) (blen (table w)) Hpos) as Hs. fold (next_start w) in Hs.
    destruct (IH w1 i Hmax Ht Hlen) as (sample & E & Eh); [cbn; lia|lia|]. exists sample. split; [exact E|]. rewrite Eh.
    change (table w1) with (table w). change (sample_offset (w_state w1)) with (next_start w).
    unfold entry_at, next_start. do 3 f_equal.
    replace ((sample_offset (w_state w) + 1) mod blen (table w) + 1 + Z.of_nat i) with
      ((sample_offset (w_state w) + 1) mod blen (table w) + (1 + Z.of_nat i)) by lia.
    rewrite Zplus_mod_idemp_l. f_equal. lia.
Qed.

(** So every entry gets its turn. *)
Lemma samples_cover max w e :
  0 < max → blen (table w) < 2 ^ 64 - 1 → 0 ≤ sample_offset (w_state w) < 2 ^ 64 - 1 → e ∈ table w →
  ∃ sample, sample ∈ (samples (length (table w)) max w).1 ∧ head sample = Some (row e).
Proof.
  intros Hmax Hlen Ho (j & Hj)%list_elem_of_lookup. assert (table w ≠ []) as Ht by (intros E; by rewrite E in Hj).
  pose proof (blen_pos _ Ht) as Hpos. pose proof (lookup_lt_Some _ _ _ Hj) as Hjl.
  pose proof (Z.mod_pos_bound (Z.of_nat j - (sample_offset (w_state w) + 1)) (blen (table w)) Hpos) as Hi.
  set (i := (Z.of_nat j - (sample_offset (w_state w) + 1)) mod blen (table w)) in *.
  destruct (samples_heads max (length (table w)) w (Z.to_nat i) Hmax Ht Hlen Ho) as (sample & E & Eh); [unfold blen in *; lia|].
  exists sample. split; [by eapply list_elem_of_lookup_2|]. rewrite Eh. unfold entry_at. rewrite Z2Nat.id by lia. unfold i.
  rewrite Zplus_mod_idemp_r.
  replace (sample_offset (w_state w) + 1 + (Z.of_nat j - (sample_offset (w_state w) + 1))) with (Z.of_nat j) by lia.
  rewrite Z.mod_small by (unfold blen; lia). by rewrite Nat2Z.id, Hj.
Qed.

(** ** The call *)

(** The whole records that fit, and no more. *)
Lemma copy_records_run cap : ∀ records written out,
  written ≤ cap → ∃ fit rest,
    records = fit ++ rest ∧ copy_records cap written out records = (written + blen (concat fit), out ++ concat fit) ∧
    written + blen (concat fit) ≤ cap ∧
    (∀ r, head rest = Some r → cap < written + blen (concat fit) + blen r).
Proof.
  induction records as [|r records IH]; intros written out Hw; cbn [copy_records].
  { exists [], []. cbn. rewrite app_nil_r. unfold blen. cbn. split_and!; [done|f_equal; lia|lia|done]. }
  destruct (Z.ltb_spec cap (written + blen r)) as [Hlt|Hle].
  { exists [], (r :: records). cbn. rewrite app_nil_r. unfold blen in *. cbn. split_and!; [done|f_equal; lia|lia|].
    intros ? [= <-]. lia. }
  destruct (IH (written + blen r) (out ++ r) Hle) as (fit & rest & -> & E & Hfit & Hrest).
  exists (r :: fit), rest. cbn [concat app]. rewrite blen_app, E, Z.add_assoc, app_assoc. done.
Qed.

(** C17: lp2p_routing_sample, from the node's table to the caller's buffer. The
    sample is as long as asked, or as the table; it holds the table's entries one
    after the other, round and round, from the one after the last sample's first
    on, so that as many calls as the table has entries start with each of them
    once. The caller's buffer gets the whole records that fit, up to the first
    that does not, and the answer is their length; nothing outside of [cap] bytes
    is written, and the command is all that happens to the handle. *)
Theorem routing_sampled w max node n call buf cap buffer pr :
  0 < max → blen (table w) < 2 ^ 64 - 1 → 0 ≤ sample_offset (w_state w) < 2 ^ 64 - 1 →
  handles pr !! node = Some n → poisoned (node_shared n) = false → node_receiving n = true → node ≠ 0 → buf ≠ 0 →
  0 ≤ cap < 2 ^ 31 → load (memory pr) buf (Z.to_nat cap) = Some buffer →
  ∃ records fit rest pr',
    w_replies (command (RoutingSample max call) w).2 = w_replies w ++ [(call, SampleReply records)] ∧
    sample_of w max records ∧
    (∀ e, e ∈ table w → ∃ sample, sample ∈ (samples (length (table w)) max w).1 ∧ head sample = Some (row e)) ∧
    lp2p_routing_sample node buf cap max call (Some records) pr = Some (Ok (blen (concat fit)), pr') ∧
    records = fit ++ rest ∧ blen (concat fit) ≤ cap ∧ (∀ r, head rest = Some r → cap < blen (concat fit) + blen r) ∧
    load (memory pr') buf (length (concat fit)) = Some (concat fit) ∧
    (∀ a, a < buf ∨ buf + cap ≤ a → memory pr' !! a = memory pr !! a) ∧
    handles pr' = <[node := with_command (RoutingSample max call) n]> (handles pr).
Proof.
  intros Hmax Hlen Ho Hn Hp Hr H0 Hbuf Hcap Hload. destruct pr as [m hs]. cbn [memory handles] in *.
  destruct (routing_sample_run max w ltac:(lia) Ho) as (records & Hs & Erun).
  destruct (copy_records_run cap records 0 [] ltac:(lia)) as (fit & rest & Erec & Ecopy & Hfit & Hrest).
  destruct (store_Some m buf (take (length (concat fit)) buffer) (concat fit)) as (m' & Hm').
  { apply (load_prefix _ _ _ _ _ Hload). unfold blen in Hfit. lia. }
  exists records, fit, rest, (mk_process m' (<[node := with_command (RoutingSample max call) n]> hs)).
  cbn [memory handles]. split; [|split; [exact Hs|split; [intros e He; by apply samples_cover|]]].
  { cbn [command]. rewrite run_bind, Erun. cbn [fst snd]. rewrite run_bind. cbn [reply snd ret]. by case_bool_decide. }
  split_and!; [|exact Erec|lia|exact Hrest|exact (load_store _ _ _ _ Hm')| |done].
  - unfold lp2p_routing_sample. rewrite (fbind_run _ _ _ n (mk_process m hs)) by by apply handle_run.
    rewrite (fbind_run _ _ _ () (mk_process m hs)) by (apply require_run; by rewrite (proj2 (Z.eqb_neq buf 0))).
    rewrite (fbind_run _ _ _ _ _ (send_run node n n _ m hs Hn Hp Hr)). cbv beta. change (LP2P_OK =? LP2P_OK) with true. cbn [negb].
    rewrite (fbind_run (pure _) _ _ records (mk_process m (<[node := with_command (RoutingSample max call) n]> hs))) by done. rewrite Ecopy. cbn [app].
    unfold fbind, store_bytes. cbn [memory]. rewrite Hm'. cbn [mbind option_bind]. unfold pure. rewrite as_i32_small by (unfold blen in *; lia).
    by rewrite Z.add_0_l.
  - intros a Ha. apply (store_frame _ _ _ _ _ Hm'). lia.
Qed.

End sampling.

(** ** Witness

    The toy node has three peers in its table; the caller's buffer of 200 bytes
    at 100 takes two of their records. *)

Definition toy_table : World := toy_world [toy_peer x33; toy_peer x44; toy_peer x55].

Definition toy_buffer : bytes := repeat x00 200.

Definition toy_sampling : Process := mk_process (put ∅ 100 toy_buffer) {[ 8 := new_node toy_config ]}.

Lemma routing_sampled_witness :
  ∃ records fit rest pr',
    lp2p_routing_sample 8 100 200 5 0 (Some records) toy_sampling = Some (Ok (blen (concat fit)), pr') ∧
    records = fit ++ rest ∧ blen records = 3 ∧ load (memory pr') 100 (length (concat fit)) = Some (concat fit).
Proof.
  destruct (routing_sampled toy_table 5 8 (new_node toy_config) 0 100 200 toy_buffer toy_sampling)
    as (records & fit & rest & pr' & _ & [Hl _] & _ & E & Er & _ & _ & Hm & _).
  - lia.
  - by vm_compute.
  - vm_compute. split; congruence.
  - apply lookup_singleton_eq.
  - reflexivity.
  - reflexivity.
  - lia.
  - lia.
  - lia.
  - exact (load_put ∅ 100 toy_buffer).
  - exists records, fit, rest, pr'. split; [exact E|]. split; [exact Er|]. split; [rewrite Hl; by vm_compute|exact Hm].
Defined.
