(* ===== verification/InteropPeer.v ===== *)
(** * InteropPeer: the rust-libp2p side of [interop/js], [examples/interop_peer.rs]

    A caller of the C functions that is driven line by line: its options, the
    thread that reads commands, and the loop that polls events and answers every
    request with "rust:" and its payload. A line of the output is a list of
    bytes; the end of the process and a panic of a thread are outcomes. *)

From Stdlib Require Import Strings.String.
From S2P Require Import Prelude Abi Keys Multiaddr AddressBook Libp2p Events NodeState Ffi FfiSpec Client.
From S2P Require Wire Delegation Limits EventQueue Node.

Section peer.
Context {I : Identity} {MA : Multiaddrs I} {H : Handles} {L : Libp2p I MA H} {A : Allocator}.

Notation "x <-! m ; k" := (fbind m (fun x => k)) (at level 100, m at next level, right associativity).

Definition PROTOCOLS : list bytes := [text "/interop/echo/1"; text "/interop/other/1"].

(** ** Starting *)

(** The environment: SEED, GROUP_SEED, LISTEN, DHT_PROTOCOL, RELAY_SERVER and
    REACHABILITY. *)
Inductive ReachabilityEnv := EnvPrivate | EnvUnknown | EnvOther.
Record PeerEnv := mk_peer_env {
  env_seed : byte; env_group_seed : byte; env_listen : bytes; env_dht : bytes;
  env_relay_server : bool; env_reachability : ReachabilityEnv;
}.

(** The fields that are set after [lp2p_options_default]. *)
Definition peer_options (o : lp2p_options) (seed : array 32) (group : lp2p_key) (e : PeerEnv)
    (delegation listen_list dht protocol_list : Z) : lp2p_options :=
  let r := o_relay o in
  mk_options (o_struct_size o) seed delegation LP2P_DELEGATION_BYTES group
    listen_list 1 dht protocol_list (blen PROTOCOLS)
    (o_rpc_max_request_bytes o) (o_rpc_max_response_bytes o) (o_rpc_timeout_ms o)
    (o_quic o) 0 0 (o_max_connections o) (o_max_connections_per_peer o) (o_max_pending_incoming o)
    (mk_relay_options (if env_relay_server e then 1 else 0) (ro_client r) (ro_max_reservations r)
      (ro_max_reservations_per_peer r) (ro_reservation_duration_s r) (ro_max_circuits r) (ro_max_circuits_per_peer r)
      (ro_max_circuit_duration_s r) (ro_max_circuit_bytes r) (ro_circuits_per_peer r) (ro_circuits_per_ip r))
    (o_announce o) (o_event_queue_bytes o)
    (match env_reachability e with
     | EnvPrivate => LP2P_REACH_PRIVATE | EnvUnknown => LP2P_REACH_UNKNOWN | EnvOther => LP2P_REACH_PUBLIC
     end)
    (o_topic_max_message_bytes o) (o_topic_max_subscriptions o).

(** [main] up to the handle of the node: the keys, the group's key and the
    handle. [now_ms], [spawned], [ready] and [address] are what [lp2p_start]
    meets. *)
Definition peer_start (e : PeerEnv) (now_ms : Z) (spawned : bool) (ready : option Z) (address : Z) :
    F (lp2p_key * lp2p_key * result Z Z) :=
  let seed := array_fill 32 (env_seed e) in
  let group_seed := array_fill 32 (env_group_seed e) in
  key <-! key_from seed;
  group <-! key_from group_seed;
  delegation <-! sign_delegation group_seed key;
  place delegation (fun pd =>
  place_strings [env_listen e] [] (fun pl =>
  dht <-! cstring (env_dht e);
  place dht (fun ph =>
  place_strings PROTOCOLS [] (fun pp =>
  o <-! default_from_library;
  place (options_bytes (peer_options o seed group e pd pl ph pp)) (fun po =>
  place (le_bytes 8 0) (fun pout =>
  s <-! calling (lp2p_start po pout now_ms spawned ready address);
  raw <-! load_bytes pout 8;
  pure (Ok (key, group, if s =? LP2P_OK then Ok (le_value raw) else Err s)))))))).

(** The lines [main] says after that, and how the process ends when it does;
    [peer] is the peer id as text. *)
Definition ready_line (peer : bytes) (key group : lp2p_key) : bytes :=
  text "READY " ++ peer ++ text " " ++ hex (arr key) ++ text " " ++ hex (arr group).

Definition start_said (peer : lp2p_key → bytes) (r : lp2p_key * lp2p_key * result Z Z) : list bytes * option Z :=
  match r with
  | (key, group, Ok _) => ([ready_line (peer key) key group], None)
  | (_, _, Err s) => ([text "ERROR " ++ dec s], Some 1)
  end.

(** ** The thread that reads commands *)

Inductive outcome := Said (line : bytes) | Quit | Panicked.

Definition says (o : outcome) : F outcome := pure (Ok o).
Definition ERROR_USAGE : bytes := text "ERROR usage".
Definition ok_or_error (s : Z) : outcome := Said (if s =? LP2P_OK then text "OK" else text "ERROR " ++ dec s).

Definition named (command : bytes) (name : String.string) : bool := bool_decide (command = text name).

(** [let Some(topic) = unhex(rest) else { usage }]. *)
Definition with_key (word : bytes) (k : lp2p_key → F outcome) : F outcome :=
  match unhex word with
  | None => says Panicked
  | Some None => says (Said ERROR_USAGE)
  | Some (Some key) => k key
  end.

(** [channel] and [count] are the reply channel of lp2p_topic_peers and what
    comes back on it. *)
Definition command_line (node : Z) (channel : nat) (count : option Z) (line : bytes) : F outcome :=
  let '(command, rest) := split_space line in
  let rest := default [] rest in
  if named command "announce" then
    place rest (fun p => s <-! calling (lp2p_announce_set_payload node p (blen rest)); says (ok_or_error s))
  else if named command "subscribe" || named command "unsubscribe" then
    with_key rest (fun topic => place (arr topic) (fun p =>
      s <-! calling (if named command "subscribe" then lp2p_topic_subscribe node p else lp2p_topic_unsubscribe node p);
      says (ok_or_error s)))
  else if named command "publish" then
    let '(word, payload) := split_space rest in
    with_key word (fun topic =>
      match payload with
      | None => says (Said ERROR_USAGE)
      | Some payload => place (arr topic) (fun pt => place payload (fun p =>
          s <-! calling (lp2p_topic_publish node pt p (blen payload)); says (ok_or_error s)))
      end)
  else if named command "peers" then
    with_key rest (fun topic => place (arr topic) (fun p =>
      n <-! calling (lp2p_topic_peers node p channel count);
      says (Said (if 0 <=? n then text "PEERS " ++ dec n else text "ERROR " ++ dec n))))
  else if named command "call" then
    let '(word, more) := split_space rest in
    with_key word (fun group =>
      match split_space <$> more with
      | Some (target, Some payload) =>
          match unhex target with
          | None => says Panicked
          | Some target =>
              place (arr group) (fun pg => place (default [] (arr <$> target)) (fun pt => place payload (fun p =>
              place (le_bytes 8 0) (fun pid =>
                s <-! calling (lp2p_rpc_request node pg (if bool_decide (is_Some target) then pt else 0) 0 p (blen payload) 0 pid);
                id <-! load_bytes pid 8;
                says (if s =? LP2P_OK then Said (text "CALLED " ++ dec (le_value id)) else ok_or_error s)))))
          end
      | _ => says (Said ERROR_USAGE)
      end)
  else if named command "add" then
    let '(word, address) := split_space rest in
    with_key word (fun target =>
      match address with
      | None => says (Said ERROR_USAGE)
      | Some address =>
          if bool_decide (x00 ∈ address) then says Panicked
          else place (arr target) (fun pt => place (address ++ [x00]) (fun p =>
            s <-! calling (lp2p_add_address node pt p); says (ok_or_error s)))
      end)
  else if named command "bootstrap" then
    place (le_bytes 8 0) (fun pid =>
      s <-! calling (lp2p_dht_bootstrap node pid);
      id <-! load_bytes pid 8;
      says (if s =? LP2P_OK then Said (text "BOOTSTRAP " ++ dec (le_value id)) else ok_or_error s))
  else if named command "quit" then
    _ <-! calling (lp2p_shutdown node); says Quit
  else says (Said (text "ERROR unknown command " ++ command)).

(** The thread over the lines of the standard input, each with what
    [command_line] meets: the lines it says, and the exit code. None is a panic,
    which ends this thread and not the process. *)
Fixpoint read_commands (node : Z) (lines : list (nat * option Z * bytes)) : F (list bytes * option Z) :=
  match lines with
  | [] => _ <-! calling (lp2p_shutdown node); pure (Ok ([], Some 0))
  | (channel, count, line) :: lines =>
      o <-! command_line node channel count line;
      match o with
      | Said said => rest <-! read_commands node lines; pure (Ok (said :: rest.1, rest.2))
      | Quit => pure (Ok ([], Some 0))
      | Panicked => pure (Ok ([], None))
      end
  end.

(** ** The loop over events *)

(** The lines of an event; [None] is a panic. *)
Definition on_event (node : Z) (e : lp2p_event) (d : bytes) : F (option (list bytes)) :=
  let t := from_utf8_lossy d in
  let key k := hex (arr k) in
  let sp := text " " in
  let line (l : list bytes) : F (option (list bytes)) := pure (Ok (Some [concat l])) in
  if ev_type e =? LP2P_EV_LISTENING then line [text "LISTENING "; t]
  else if ev_type e =? LP2P_EV_PEER_CONNECTED then line [text "CONNECTED "; key (ev_node e); sp; t]
  else if ev_type e =? LP2P_EV_RPC_REQUEST then
    let answer := text "rust:" ++ t in
    _ <-! place answer (fun p => calling (lp2p_rpc_respond node (ev_id e) p (blen answer)));
    line [text "REQUEST "; dec (ev_id e); sp; key (ev_group e); sp; key (ev_node e); sp; dec (ev_protocol e); sp; t]
  else if ev_type e =? LP2P_EV_RPC_RESPONSE then
    line [text "RESPONSE "; dec (ev_id e); sp; key (ev_group e); sp; key (ev_node e); sp; t]
  else if ev_type e =? LP2P_EV_RPC_FAILED then line [text "FAILED "; dec (ev_id e); sp; dec (ev_reason e)]
  else if ev_type e =? LP2P_EV_ANNOUNCEMENT then
    line [text "ANNOUNCEMENT "; key (ev_group e); sp; key (ev_node e); sp; t]
  else if ev_type e =? LP2P_EV_TOPIC_MESSAGE then
    if blen d <? 32 then pure (Ok None)
    else line [text "TOPIC "; hex (take 32 d); sp; key (ev_group e); sp; key (ev_node e); sp; from_utf8_lossy (drop 32 d)]
  else if ev_type e =? LP2P_EV_DHT_RESULT then line [text "DHT "; dec (ev_id e); sp; dec (ev_reason e)]
  else if ev_type e =? LP2P_EV_REACHABILITY then line [text "REACHABILITY "; dec (ev_reason e)]
  else if ev_type e =? LP2P_EV_HOLE_PUNCH then
    line [text "HOLE_PUNCH "; key (ev_node e); sp; dec (ev_reason e); sp; t]
  else pure (Ok (Some [])).

(** The walk over the [n] bytes that were polled into [buf]: the lines, and the
    exit code when the process ends. It has one step per byte, more than enough
    for records that are not of size 0. *)
Fixpoint walk_from (fuel : nat) (node : Z) (buf : bytes) (n offset : Z) : F (list bytes * option Z) :=
  if negb (offset + LP2P_EVENT_HEADER_BYTES <=? n) then pure (Ok ([], None))
  else
    match fuel with
    | O => undefined
    | S fuel =>
        let start := offset + LP2P_EVENT_HEADER_BYTES in
        match read_header (drop (Z.to_nat offset) buf) with
        | None => pure (Ok ([], Some PANIC_EXIT))
        | Some e =>
            if blen buf <? start + ev_data_len e then pure (Ok ([], Some PANIC_EXIT))
            else
              said <-! on_event node e (slice buf (Z.to_nat start) (Z.to_nat (start + ev_data_len e)));
              match said with
              | None => pure (Ok ([], Some PANIC_EXIT))
              | Some said =>
                  rest <-! walk_from fuel node buf n (offset + ev_size e);
                  pure (Ok (said ++ rest.1, rest.2))
              end
        end
    end.

Definition walk (node : Z) (buf : bytes) (n : Z) : F (list bytes * option Z) :=
  walk_from (S (Z.to_nat n)) node buf n 0.

(** One turn of the loop: lp2p_poll answered [n] and [buf] is what is in the
    buffer then. *)
Definition on_poll (node : Z) (n : Z) (buf : bytes) : F (list bytes * option Z) :=
  if n =? LP2P_ERR_SHUT_DOWN then pure (Ok ([], Some 0))
  else if n <? 0 then pure (Ok ([text "ERROR " ++ dec n], Some 1))
  else walk node buf n.

(** The size of the buffer: [1 << 20]. *)
Definition POLL_BUFFER : Z := Z.shiftl 1 20.

(** lp2p_poll with the timeout of the loop, as its caller sees it: [None] while
    it waits. *)
Definition polling (node p cap began now : Z) : F (option Z) := fun pr =>
  '(r, pr) ← lp2p_poll node p cap 1000 began now pr;
  Some (Ok (match r with Ok answer => answer | Err e => Some e end), pr).

(** A whole turn, with what the last one left in the buffer: what is in it now,
    the lines, and the exit code when the process ends. *)
Definition turn (node : Z) (buf : bytes) (began now : Z) : F (option (bytes * (list bytes * option Z))) :=
  place buf (fun p =>
    answer <-! polling node p (blen buf) began now;
    match answer with
    | None => pure (Ok None)
    | Some n =>
        buf <-! load_bytes p (blen buf);
        r <-! on_poll node n buf;
        pure (Ok (Some (buf, r)))
    end).

End peer.
