(* ===== verification/InteropSpec.v ===== *)
(** * InteropSpec: what the line-driven peer does with the library

    A command printed by its own grammar reaches the node as exactly that
    command; whatever else a line holds, the thread that reads it keeps the
    header's contract -- it passes readable memory and the live handle, and its
    buffers are gone again; and the loop over a polled buffer says one line per
    event, answers every request, and stays inside the buffer. *)

From Stdlib Require Import Strings.String.
From S2P Require Import Prelude Abi Keys Toy Multiaddr AddressBook Libp2p Events NodeState Node ToyNode Ffi FfiSpec Startup Client ClientSpec InteropPeer.
From S2P Require PollSpec.
From S2P Require Wire Delegation Limits EventQueue.

(** ** The grammar of the commands *)

Section commands.
Context {I : Identity} {MA : Multiaddrs I} {H : Handles} {L : Libp2p I MA H} {A : Allocator} {AL : AllocatorLaws A}.

(** What a line can ask for. *)
Inductive Ask :=
| AskAnnounce (payload : bytes)
| AskSubscribe (topic : lp2p_key)
| AskUnsubscribe (topic : lp2p_key)
| AskPublish (topic : lp2p_key) (payload : bytes)
| AskPeers (topic : lp2p_key)
| AskCall (group : lp2p_key) (target : option lp2p_key) (payload : bytes)
| AskAdd (target : lp2p_key) (address : bytes)
| AskBootstrap.

Definition words (command : String.string) (args : bytes) : bytes := text command ++ x20 :: args.

(** The line, as the header of [interop_peer.rs] writes it down. *)
Definition line_of (a : Ask) : bytes :=
  match a with
  | AskAnnounce payload => words "announce" payload
  | AskSubscribe topic => words "subscribe" (hex (arr topic))
  | AskUnsubscribe topic => words "unsubscribe" (hex (arr topic))
  | AskPublish topic payload => words "publish" (hex (arr topic) ++ x20 :: payload)
  | AskPeers topic => words "peers" (hex (arr topic))
  | AskCall group target payload =>
      words "call" (hex (arr group) ++ x20 :: (match target with Some k => hex (arr k) | None => text "-" end) ++ x20 :: payload)
  | AskAdd target address => words "add" (hex (arr target) ++ x20 :: address)
  | AskBootstrap => text "bootstrap"
  end.

(** The command it is for the node, under the next id when it takes one. An
    address is what libp2p makes of the text. *)
Definition ask_command (n : Ffi.Node) (channel : nat) (a : Ask) : option Command :=
  let id := next_id (node_shared n) in
  match a with
  | AskAnnounce payload => Some (AnnounceSetPayload payload)
  | AskSubscribe topic => Some (TopicSubscribe topic)
  | AskUnsubscribe topic => Some (TopicUnsubscribe topic)
  | AskPublish topic payload => Some (TopicPublish topic payload)
  | AskPeers topic => Some (TopicPeers topic channel)
  | AskCall group target payload => Some (Rpc id group target 0 payload (node_rpc_timeout n))
  | AskAdd target address =>
      if bool_decide (x00 ∈ address) || negb (Wire.utf8_valid address) then None
      else AddAddress target <$> parse_multiaddr address
  | AskBootstrap => Some (Bootstrap id)
  end.

(** The line that is said when the node takes it; [count] is what the node
    answers to a question for the members of a topic. *)
Definition taken_line (n : Ffi.Node) (count : option Z) (a : Ask) : bytes :=
  let id := next_id (node_shared n) in
  match a with
  | AskCall _ _ _ => text "CALLED " ++ dec id
  | AskBootstrap => text "BOOTSTRAP " ++ dec id
  | AskPeers _ =>
      match count with
      | Some c => text "PEERS " ++ dec (Z.min c (2 ^ 31 - 1))
      | None => text "ERROR " ++ dec LP2P_ERR_SHUT_DOWN
      end
  | _ => text "OK"
  end.

Lemma split_words command args : x20 ∉ text command → split_space (words command args) = (text command, Some args).
Proof. apply split_space_word. Qed.

Lemma with_key_hex (k : lp2p_key) f : with_key (hex (arr k)) f = f k.
Proof. unfold with_key. by rewrite unhex_hex. Qed.

Lemma dash_is_no_key : unhex (text "-") = Some None.
Proof. done. Qed.

Lemma le_value_id id : 0 ≤ id < 2 ^ 64 → le_value (le_bytes 8 id) = id.
Proof. intros Hi. rewrite le_value_bytes. apply wrap_small. exact Hi. Qed.


(** ** Every command reaches the node

    For a live handle whose thread takes commands. *)

Context (node : Z) (n : Ffi.Node) (channel : nat) (count : option Z).
Context (m : gmap Z byte) (hs : gmap Z Ffi.Node).
Context (Hn : hs !! node = Some n) (H0 : node ≠ 0).
Context (Hpoisoned : poisoned (node_shared n) = false) (Hreceiving : node_receiving n = true).

Ltac dispatch :=
  unfold command_line, line_of; rewrite ?split_words by (apply (bool_decide_unpack _); vm_compute; exact Logic.I);
  cbv beta iota zeta; cbn [from_option Datatypes.id];
  repeat match goal with |- context [named ?a ?b] =>
    let v := eval vm_compute in (named a b) in change (named a b) with v end;
  cbn [orb].

Context (Hcount : ∀ c, count = Some c → 0 ≤ c) (Hid : 0 ≤ next_id (node_shared n) < 2 ^ 64).

(** What is readable: the buffer that was just placed, or one below it. *)
Ltac readable := cbn [memory]; repeat (apply load_put || (apply load_placed; [|assumption])).

(** The next computation of a call. *)
Ltac run_next :=
  match goal with
  | |- fbind (handle _) _ _ = _ => eapply fbind_eq; [apply handle_run; [exact Hn|exact H0]|]
  | |- fbind (key _) _ _ = _ => eapply fbind_eq; [apply key_run; [assumption|readable]|]
  | |- fbind (byte_slice _ _) _ _ = _ => eapply fbind_eq; [apply byte_slice_run; [assumption|readable]|]
  | |- fbind (require _ _) _ _ = _ => eapply fbind_eq; [apply require_run|]
  | |- fbind (next_id_of _ _) _ _ = _ => eapply fbind_eq; [apply next_id_run; exact Hn|]
  | |- fbind (pure _) _ _ = _ => eapply fbind_eq; [reflexivity|]
  | |- send _ _ _ _ = _ => by apply send_run
  end; cbv beta.

(** A call that answers with its status, over buffers it only reads. *)
Ltac answered := eapply fbind_eq; [eapply (calling_run _ _ (Ok LP2P_OK))|reflexivity].

(** The end of a call that answers with its id, and reading the id back. *)
Lemma take_send_store_run make pid m' :
  let id := next_id (node_shared n) in
  take_send_store node n make pid (mk_process (put m' pid (le_bytes 8 0)) hs) =
    Some (Ok LP2P_OK, mk_process (put m' pid (le_bytes 8 id)) (<[node := with_command (make id) (id_taken n)]> hs)).
Proof.
  intros id. unfold take_send_store. run_next. fold id.
  eapply fbind_eq; [apply send_run; [apply lookup_insert_eq|exact Hpoisoned|exact Hreceiving]|]. cbv beta.
  change (LP2P_OK =? LP2P_OK) with true. cbv iota.
  eapply fbind_eq; [apply store_run; by rewrite !length_le_bytes|]. cbv beta. by rewrite insert_insert_eq.
Qed.

Lemma id_answered {X} (k : Z → F X) id pid m' hs' :
  0 ≤ id < 2 ^ 64 →
  fbind (load_bytes pid 8) (fun l => k (le_value l)) (mk_process (put m' pid (le_bytes 8 id)) hs') =
    k id (mk_process (put m' pid (le_bytes 8 id)) hs').
Proof.
  intros Hi. eapply fbind_eq; [apply (load_bytes_run _ _ (le_bytes 8 id)); [apply load_put|]|].
  - unfold blen. by rewrite length_le_bytes.
  - cbv beta. by rewrite le_value_id.
Qed.

Lemma taken_announce payload :
  command_ok n (AnnounceSetPayload payload) →
  command_line node channel count (line_of (AskAnnounce payload)) (mk_process m hs) =
    Some (Ok (Said (text "OK")), mk_process m (<[node := with_command (AnnounceSetPayload payload) n]> hs)).
Proof.
  intros (max & Emax & Hl). dispatch. apply place_read. intros p Hp Hu. answered.
  unfold lp2p_announce_set_payload. do 2 run_next. rewrite Emax. run_next; [lia|]. run_next.
Qed.

Lemma taken_topic (subscribe : bool) topic :
  let c : Command := if subscribe then TopicSubscribe topic else TopicUnsubscribe topic in
  command_ok n c →
  command_line node channel count (line_of (if subscribe then AskSubscribe topic else AskUnsubscribe topic)) (mk_process m hs) =
    Some (Ok (Said (text "OK")), mk_process m (<[node := with_command c n]> hs)).
Proof.
  intros c Hc. subst c. destruct subscribe; dispatch; rewrite with_key_hex; apply place_read; intros p Hp Hu; answered.
  - unfold lp2p_topic_subscribe. do 2 run_next. cbn in Hc.
    rewrite (proj2 (Z.leb_gt _ _)) by lia. run_next.
  - unfold lp2p_topic_unsubscribe. do 3 run_next.
Qed.

Lemma taken_publish topic payload :
  command_ok n (TopicPublish topic payload) →
  command_line node channel count (line_of (AskPublish topic payload)) (mk_process m hs) =
    Some (Ok (Said (text "OK")), mk_process m (<[node := with_command (TopicPublish topic payload) n]> hs)).
Proof.
  intros Hc. cbn in Hc. dispatch. rewrite split_space_word by apply hex_no_space. rewrite with_key_hex.
  apply place_read. intros p Hp Hu. apply place_read. intros q Hq Hv. answered.
  unfold lp2p_topic_publish. do 3 run_next. run_next; [lia|]. run_next.
Qed.

Lemma taken_peers topic :
  command_line node channel count (line_of (AskPeers topic)) (mk_process m hs) =
    Some (Ok (Said (taken_line n count (AskPeers topic))), mk_process m (<[node := with_command (TopicPeers topic channel) n]> hs)).
Proof.
  dispatch. rewrite with_key_hex. apply place_read. intros p Hp Hu. eapply fbind_eq.
  { eapply (calling_run _ _ (match count with Some c => Ok (Z.min c (2 ^ 31 - 1)) | None => Err LP2P_ERR_SHUT_DOWN end)).
    unfold lp2p_topic_peers. do 2 run_next. eapply fbind_eq; [run_next|]. cbv beta. change (negb (LP2P_OK =? LP2P_OK)) with false. cbv iota.
    destruct count; reflexivity. }
  cbn [taken_line]. destruct count as [c|]; [|reflexivity]. cbn [status].
  rewrite (proj2 (Z.leb_le _ _)) by (specialize (Hcount c eq_refl); lia). reflexivity.
Qed.

Lemma taken_call group target payload :
  command_ok n (Rpc (next_id (node_shared n)) group target 0 payload (node_rpc_timeout n)) →
  command_line node channel count (line_of (AskCall group target payload)) (mk_process m hs) =
    Some (Ok (Said (taken_line n count (AskCall group target payload))),
      mk_process m (<[node := with_command (Rpc (next_id (node_shared n)) group target 0 payload (node_rpc_timeout n)) (id_taken n)]> hs)).
Proof.
  intros (_ & Hprot & Hlen & Hpeer). dispatch. rewrite split_space_word by apply hex_no_space. rewrite with_key_hex.
  cbn [fmap option_fmap option_map]. rewrite split_space_word by (destruct target; [apply hex_no_space|apply (bool_decide_unpack _); vm_compute; exact Logic.I]).
  assert (unhex (match target with Some k => hex (arr k) | None => text "-" end) = Some target) as ->.
  { destruct target; [apply unhex_hex|apply dash_is_no_key]. }
  set (id := next_id (node_shared n)).
  apply place_read. intros pg Hpg Hug. apply place_read. intros pt Hpt Hut. apply place_read. intros p Hp Hu.
  apply place_run. intros pid Hpid Huid. exists (le_bytes 8 id). split; [by rewrite !length_le_bytes|].
  eapply fbind_eq.
  - eapply (calling_run _ _ (Ok LP2P_OK)). unfold lp2p_rpc_request. do 2 run_next.
    eapply (fbind_eq _ _ _ target).
    { destruct target as [k|]; [|reflexivity]. rewrite bool_decide_true by (by eexists).
      rewrite (proj2 (Z.eqb_neq pt 0)) by lia. eapply fbind_eq; [apply key_run; [assumption|readable]|reflexivity]. }
    cbv beta. run_next. run_next; [rewrite (proj2 (Z.eqb_neq pid 0)) by lia; lia|]. run_next; [destruct target; [by apply bool_decide_true|done]|].
    cbv zeta. exact (take_send_store_run (fun id => Rpc id group target 0 payload (node_rpc_timeout n)) pid _).
  - cbn [status]. change (LP2P_OK =? LP2P_OK) with true.
    exact (id_answered (fun id => says (Said (text "CALLED " ++ dec id))) _ _ _ _ Hid).
Qed.


Lemma taken_add target address c :
  ask_command n channel (AskAdd target address) = Some c → command_ok n c →
  command_line node channel count (line_of (AskAdd target address)) (mk_process m hs) =
    Some (Ok (Said (text "OK")), mk_process m (<[node := with_command c n]> hs)).
Proof.
  cbn [ask_command]. destruct (bool_decide_reflect (x00 ∈ address)) as [|Hnul]; [done|]. cbn [orb].
  destruct (Wire.utf8_valid address) eqn:Hutf; [|done]. cbn [negb]. intros (ma & Ema & ->)%fmap_Some Hc. cbn in Hc.
  dispatch. rewrite split_space_word by apply hex_no_space. rewrite with_key_hex. rewrite bool_decide_false by done.
  apply place_read. intros pt Hpt Hut. apply place_read. intros p Hp Hu. answered.
  unfold lp2p_add_address. do 2 run_next. run_next; [by apply bool_decide_true|].
  eapply fbind_eq; [apply string_run; [assumption|readable|done|done]|]. cbv beta.
  eapply fbind_eq; [unfold pure; by rewrite Ema|]. cbv beta. run_next.
Qed.

Lemma taken_bootstrap :
  let id := next_id (node_shared n) in
  command_line node channel count (line_of AskBootstrap) (mk_process m hs) =
    Some (Ok (Said (text "BOOTSTRAP " ++ dec id)), mk_process m (<[node := with_command (Bootstrap id) (id_taken n)]> hs)).
Proof.
  intros id. unfold line_of, command_line. rewrite split_space_end by (apply (bool_decide_unpack _); vm_compute; exact Logic.I).
  cbv zeta. cbn [default from_option]. dispatch.
  apply place_run. intros pid Hpid Huid. exists (le_bytes 8 id). split; [by rewrite !length_le_bytes|].
  eapply fbind_eq.
  - eapply (calling_run _ _ (Ok LP2P_OK)). unfold lp2p_dht_bootstrap, query. run_next.
    run_next; [rewrite (proj2 (Z.eqb_neq pid 0)) by lia; done|]. exact (take_send_store_run Bootstrap pid _).
  - cbn [status]. change (LP2P_OK =? LP2P_OK) with true. exact (id_answered (fun id => says (Said (text "BOOTSTRAP " ++ dec id))) _ _ _ _ Hid).
Qed.


End commands.

Section understood.
Context {I : Identity} {MA : Multiaddrs I} {H : Handles} {L : Libp2p I MA H} {A : Allocator} {AL : AllocatorLaws A}.

(** The handle once the node was sent a command. *)
Definition after_command (c : Command) (n : Ffi.Node) : Ffi.Node :=
  with_command c (match command_id c with Some _ => id_taken n | None => n end).

(** C34: the commands of the grammar reach the node. On a live handle whose
    thread takes commands, a line that is printed for a command the C functions
    accept makes the peer say what the header of the program promises -- OK,
    the id, or the number of members -- puts exactly that command on the
    channel, under the next id when it takes one, and leaves memory as it was. *)
Theorem line_understood node n channel count a c pr :
  handles pr !! node = Some n → node ≠ 0 → poisoned (node_shared n) = false → node_receiving n = true →
  0 ≤ next_id (node_shared n) < 2 ^ 64 → (∀ members, count = Some members → 0 ≤ members) →
  ask_command n channel a = Some c → command_ok n c →
  ∃ pr', command_line node channel count (line_of a) pr = Some (Ok (Said (taken_line n count a)), pr') ∧
    memory pr' = memory pr ∧ handles pr' = <[node := after_command c n]> (handles pr).
Proof.
  destruct pr as [m hs]. cbn [memory handles]. intros Hn H0 Hp Hr Hid Hcount Ha Hc.
  exists (mk_process m (<[node := after_command c n]> hs)). split; [|done].
  destruct a; cbn [ask_command taken_line] in *; try (injection Ha as <-).
  - by apply taken_announce.
  - by apply (taken_topic _ _ _ _ _ _ Hn H0 Hp Hr true).
  - by apply (taken_topic _ _ _ _ _ _ Hn H0 Hp Hr false).
  - by apply taken_publish.
  - by apply taken_peers.
  - by apply taken_call.
  - assert (after_command c n = with_command c n) as ->.
    { destruct (_ || _); [done|]. by apply fmap_Some in Ha as (ma & _ & ->). }
    by apply taken_add.
  - by apply taken_bootstrap.
Qed.


End understood.

(** ** Every line keeps the contract *)

Section contract.
Context {I : Identity} {MA : Multiaddrs I} {H : Handles} {L : Libp2p I MA H} {A : Allocator} {AL : AllocatorLaws A}.

(** ASCII without a NUL. *)
Definition plain (l : bytes) : Prop := Forall (fun b => byte_val b < 128 ∧ b ≠ x00) l.

Lemma split_space_plain l : plain l → plain (split_space l).1 ∧ plain (default [] (split_space l).2).
Proof.
  induction 1 as [|b l Hb Hl IH]; [by split; constructor|]. cbn [split_space].
  case_bool_decide; [by split; [constructor|]|]. destruct (split_space l) as [word rest]. destruct IH as [Hw Hr]. cbn in *.
  split; [by constructor|done].
Qed.

Lemma plain_boundary l : plain l → at_boundary l = true.
Proof. destruct 1 as [|b l [Hb _] _]; [done|]. cbn [at_boundary]. unfold Wire.continuation, Wire.in_range. lia. Qed.

Lemma unhex_plain l : plain l → unhex l ≠ None.
Proof.
  intros Hp. unfold unhex. destruct (Z.eqb_spec (blen l) 64) as [E|]; [|done]. cbn [negb].
  assert (unhex_loop 32 l ≠ None) as Hl; [|by destruct (unhex_loop 32 l)].
  assert (length l = 2 * 32)%nat as Hlen by (unfold blen in E; lia). clear E. revert l Hp Hlen.
  generalize 32%nat as k. induction k as [|k IH]; intros l Hp Hlen; [done|].
  destruct l as [|b1 [|b2 rest]]; cbn [length] in Hlen; [lia..|]. cbn [unhex_loop].
  pose proof Hp as [_ [_ Hrest]%Forall_cons]%Forall_cons. rewrite (plain_boundary _ Hp), (plain_boundary _ Hrest). cbn [negb orb].
  destruct (from_str_radix_16 b1 b2); [|done]. specialize (IH rest Hrest ltac:(lia)). by destruct (unhex_loop k rest).
Qed.

(** A computation is defined, and ends with such a memory. *)
Definition ends {X} (f : F X) (pr : Process) (P : gmap Z byte → Prop) : Prop :=
  ∃ r pr', f pr = Some (r, pr') ∧ P (memory pr').

Lemma ends_bind {X Y} (f : F X) (k : X → F Y) pr a pr1 P : f pr = Some (Ok a, pr1) → ends (k a) pr1 P → ends (fbind f k) pr P.
Proof. intros E (r & pr' & E' & HP). exists r, pr'. split; [|done]. by rewrite (fbind_run f k pr a pr1). Qed.

Lemma ends_pure {X} (r : result X Z) pr (P : gmap Z byte → Prop) : P (memory pr) → ends (pure r) pr P.
Proof. intros HP. by exists r, pr. Qed.

Lemma ends_require {Y} (b : bool) e (k : () → F Y) pr (P : gmap Z byte → Prop) :
  P (memory pr) → (b = true → ends (k ()) pr P) → ends (fbind (require b e) k) pr P.
Proof.
  intros HP Hk. destruct b.
  - eapply ends_bind; [by apply require_run|by apply Hk].
  - by exists (Err e), pr.
Qed.

Lemma ends_pure_bind {X Y} (r : result X Z) (k : X → F Y) pr (P : gmap Z byte → Prop) :
  P (memory pr) → (∀ x, r = Ok x → ends (k x) pr P) → ends (fbind (pure r) k) pr P.
Proof.
  intros HP Hk. destruct r as [x|e]; [by eapply ends_bind; [|apply Hk]|]. by exists (Err e), pr.
Qed.

Lemma send_memory node n c pr :
  ∃ s pr', send node n c pr = Some (Ok s, pr') ∧ memory pr' = memory pr.
Proof.
  unfold send. destruct (poisoned _); [by eexists _, _|]. destruct (node_receiving n); [|by eexists _, _].
  by eexists _, _.
Qed.

Lemma ends_send node n c pr (P : gmap Z byte → Prop) : P (memory pr) → ends (send node n c) pr P.
Proof. intros HP. destruct (send_memory node n c pr) as (s & pr' & E & Em). exists (Ok s), pr'. by rewrite Em. Qed.

Lemma ends_send_bind {Y} node n c (k : Z → F Y) pr P :
  (∀ s pr', memory pr' = memory pr → ends (k s) pr' P) → ends (fbind (send node n c) k) pr P.
Proof. intros Hk. destruct (send_memory node n c pr) as (s & pr' & E & Em). eapply ends_bind; [exact E|by apply Hk]. Qed.

Lemma ends_take_send_store node n make pid m hs :
  hs !! node = Some n →
  ends (take_send_store node n make pid) (mk_process (put m pid (le_bytes 8 0)) hs) (fun m' => ∃ id, m' = put m pid (le_bytes 8 id)).
Proof.
  intros Hn. unfold take_send_store. eapply ends_bind; [by apply next_id_run|]. apply ends_send_bind. intros s [m' hs'] Em. cbn [memory] in Em. subst m'.
  destruct (s =? LP2P_OK).
  - eapply ends_bind; [apply store_run; by rewrite !length_le_bytes|]. apply ends_pure. by eexists.
  - eapply ends_bind; [done|]. apply ends_pure. by eexists.
Qed.

(** The same of a line of commands: it is answered, memory is as it was, and the
    handles changed only as one C call changes them; [S] is when it panics. *)
Definition kept (S : Prop) (node : Z) (f : F outcome) (pr : Process) : Prop :=
  ∃ o pr', f pr = Some (Ok o, pr') ∧ o ≠ Quit ∧ (o = Panicked → S) ∧ memory pr' = memory pr ∧ issues node pr pr'.

Context (S : Prop).

Lemma kept_says node o pr : o ≠ Quit → (o = Panicked → S) → kept S node (says o) pr.
Proof. intros Ho Hp. exists o, pr. split_and!; [done..|by left]. Qed.

Lemma kept_place node l (k : Z → F outcome) m hs :
  (∀ p, 0 < p → unused m p (length l) → kept S node (k p) (mk_process (put m p l) hs)) →
  kept S node (place l k) (mk_process m hs).
Proof.
  intros Hk. unfold place. cbn [memory upd handles]. pose proof (allocate_unused m (length l)) as Hu.
  destruct (Hk _ (allocate_positive _ _) Hu) as (o & [m' hs'] & E & Ho & Hs & Em & Hi). cbn [memory] in Em. subst m'.
  exists o, (mk_process m hs'). unfold upd. cbn [memory handles eta eta_Process]. rewrite E. cbn [mbind option_bind memory handles].
  by rewrite release_put.
Qed.

Lemma kept_call node call (k : Z → F outcome) pr :
  c_call node call → ends call pr (fun m' => m' = memory pr) → (∀ s, ∃ line, k s = says (Said line)) →
  kept S node (fbind (calling call) k) pr.
Proof.
  intros Hc (r & pr' & E & Em) Hk. destruct (Hk (status r)) as (line & Eo). exists (Said line), pr'.
  split_and!; [|done|done|done|by apply (issues_call node call pr r)].
  rewrite (fbind_run _ _ _ _ _ (calling_run _ _ _ _ E)). by rewrite Eo.
Qed.

Lemma kept_id_call node (call : Z → F Z) (g : Z → Z → outcome) m hs :
  (∀ pid, 0 < pid → unused m pid (length (le_bytes 8 0)) → c_call node (call pid) ∧
    ends (call pid) (mk_process (put m pid (le_bytes 8 0)) hs) (fun m' => ∃ id, m' = put m pid (le_bytes 8 id))) →
  (∀ s id, ∃ line, g s id = Said line) →
  kept S node (place (le_bytes 8 0) (fun pid => fbind (calling (call pid)) (fun s =>
    fbind (load_bytes pid 8) (fun id => says (g s (le_value id)))))) (mk_process m hs).
Proof.
  intros Hcall Hg. unfold place. cbn [memory upd handles]. set (pid := allocate m (length (le_bytes 8 0))).
  assert (unused m pid (length (le_bytes 8 0))) as Hu by apply allocate_unused.
  destruct (Hcall pid ltac:(apply allocate_positive) Hu) as (Hc & r & [m' hs'] & E & id & Em). cbn [memory] in Em. subst m'.
  destruct (Hg (status r) (wrap (8 * Z.of_nat 8) id)) as (line & Eline).
  pose proof (issues_call _ _ _ _ _ Hc E) as Hi. exists (g (status r) (wrap (8 * Z.of_nat 8) id)), (mk_process m hs').
  unfold upd. cbn [memory handles eta eta_Process]. rewrite (fbind_run _ _ _ _ _ (calling_run _ _ _ _ E)).
  rewrite (fbind_run _ _ _ (le_bytes 8 id) (mk_process (put m pid (le_bytes 8 id)) hs')).
  2:{ apply load_bytes_run; [apply load_put|]. unfold blen. by rewrite length_le_bytes. }
  rewrite le_value_bytes. cbn [says pure mbind option_bind memory handles]. rewrite Eline. split_and!; [|done|done|done|done].
  assert (length (le_bytes 8 0) = length (le_bytes 8 id)) as -> by by rewrite !length_le_bytes.
  rewrite release_put; [done|]. rewrite !length_le_bytes in *. done.
Qed.

Lemma kept_with_key node word k pr : (unhex word = None → S) → (∀ key, kept S node (k key) pr) → kept S node (with_key word k) pr.
Proof. intros Hs Hk. unfold with_key. destruct (unhex word) as [[key|]|]; [done|by apply kept_says|apply kept_says; [done|intros _; by apply Hs]]. Qed.


End contract.

Section lines.
Context {I : Identity} {MA : Multiaddrs I} {H : Handles} {L : Libp2p I MA H} {A : Allocator} {AL : AllocatorLaws A}.
Context (node : Z) (n : Ffi.Node) (channel : nat) (count : option Z).
Context (m : gmap Z byte) (hs : gmap Z Ffi.Node) (Hn : hs !! node = Some n) (H0 : node ≠ 0).

Ltac readable := cbn [memory]; repeat (apply load_put || (apply load_placed; [|assumption])).

(** The next computation of a call, on either of its branches. *)
Ltac ends_next :=
  lazymatch goal with
  | |- ends (fbind (handle _) _) _ _ => eapply ends_bind; [apply handle_run; [exact Hn|exact H0]|]
  | |- ends (fbind (key _) _) _ _ => eapply ends_bind; [apply key_run; [assumption|readable]|]
  | |- ends (fbind (byte_slice _ _) _) _ _ => eapply ends_bind; [apply byte_slice_run; [assumption|readable]|]
  | |- ends (fbind (require _ _) _) _ _ => apply ends_require; [first [reflexivity | by eexists]|intros ?]
  | |- ends (fbind (pure _) _) _ _ => apply ends_pure_bind; [done|intros ? ?]
  | |- ends (fbind (send _ _ _) _) _ _ => apply ends_send_bind; intros ? ? ?
  | |- ends (send _ _ _) _ _ => apply ends_send; reflexivity
  | |- ends (pure _) _ _ => apply ends_pure; reflexivity
  end.

Ltac call_of :=
  lazymatch goal with
  | |- c_call _ (lp2p_announce_set_payload _ _ _) => apply call_announce
  | |- c_call _ (lp2p_topic_subscribe _ _) => apply call_subscribe
  | |- c_call _ (lp2p_topic_unsubscribe _ _) => apply call_unsubscribe
  | |- c_call _ (lp2p_topic_publish _ _ _ _) => apply call_publish
  | |- c_call _ (lp2p_topic_peers _ _ _ _) => apply call_topic_peers
  | |- c_call _ (lp2p_rpc_request _ _ _ _ _ _ _ _) => apply call_request; [lia|apply blen_nonneg]
  | |- c_call _ (lp2p_add_address _ _ _) => apply call_add_address
  | |- c_call _ (lp2p_dht_bootstrap _ _) => apply call_bootstrap
  end.

(** A call that only reads its buffers, and a line that says what it answers. *)
Ltac kept_status :=
  apply kept_call; [call_of| |intros s; by eexists].

Lemma ends_string {Y} p l (k : bytes → F Y) pr (P : gmap Z byte → Prop) :
  0 < p → load (memory pr) p (length (l ++ [x00])) = Some (l ++ [x00]) → x00 ∉ l → P (memory pr) →
  (Wire.utf8_valid l = true → ends (k l) pr P) → ends (fbind (string p) k) pr P.
Proof.
  intros Hp Hl Hnul HP Hk. destruct (Wire.utf8_valid l) eqn:Hu.
  { eapply ends_bind; [by apply string_run|by apply Hk]. }
  exists (Err LP2P_ERR_INVALID_ARGUMENT), pr. split; [|done]. unfold string, fbind. rewrite (proj2 (Z.eqb_neq p 0)) by lia.
  rewrite (load_cstr_run _ _ _ l) by (try done; apply load_size in Hl; rewrite length_app in Hl; cbn in Hl; lia).
  cbn [mbind option_bind]. by rewrite Hu.
Qed.

Lemma ends_set_payload p payload m' :
  0 < p → load m' p (length payload) = Some payload →
  ends (lp2p_announce_set_payload node p (blen payload)) (mk_process m' hs) (fun m1 => m1 = m').
Proof.
  intros Hp Hl. unfold lp2p_announce_set_payload. ends_next. eapply ends_bind; [by apply byte_slice_run|].
  destruct (node_announce_max_payload_bytes n); repeat ends_next.
Qed.

Lemma ends_request (group : lp2p_key) (target : option lp2p_key) pg pt p payload pid m' :
  0 < pg → 0 < pt → 0 < p → load m' pg (length (arr group)) = Some (arr group) →
  load m' pt (length (default [] (@arr 32 <$> target))) = Some (default [] (@arr 32 <$> target)) →
  load m' p (length payload) = Some payload → unused m' pid (length (le_bytes 8 0)) →
  ends (lp2p_rpc_request node pg (if bool_decide (is_Some target) then pt else 0) 0 p (blen payload) 0 pid)
    (mk_process (put m' pid (le_bytes 8 0)) hs) (fun m1 => ∃ id, m1 = put m' pid (le_bytes 8 id)).
Proof.
  intros Hpg Hpt Hp Hg Ht Hl Hu. unfold lp2p_rpc_request. do 2 ends_next; [done|].
  eapply (ends_bind _ _ _ target).
  { destruct target as [k|]; [|reflexivity]. rewrite bool_decide_true by (by eexists).
    rewrite (proj2 (Z.eqb_neq pt 0)) by lia. eapply fbind_eq; [apply key_run; [assumption|readable]|reflexivity]. exact Ht. }
  ends_next; [done|]. do 2 ends_next. cbv zeta. exact (ends_take_send_store node n (fun id => Rpc id group target 0 payload (node_rpc_timeout n)) pid m' hs Hn).
Qed.


Lemma kept_line line :
  (split_space line).1 ≠ text "quit" → kept (¬ plain line) node (command_line node channel count line) (mk_process m hs).
Proof.
  intros Hquit. unfold command_line. pose proof (split_space_plain line) as Hplain.
  destruct (split_space line) as [command rest]. cbn [fst snd] in *. cbv zeta. set (args := default [] rest) in *. clearbody args. clear rest.
  assert (∀ word more, split_space args = (word, more) → unhex word = None → ¬ plain line) as Hword.
  { intros word more E Hu Hl. apply Hplain in Hl as [_ Hl%split_space_plain]. rewrite E in Hl. by apply (unhex_plain word); [apply Hl|]. }
  assert (unhex args = None → ¬ plain line) as Hargs.
  { intros Hu Hl. apply (unhex_plain args); [by apply Hplain|done]. }
  destruct (named command "announce").
  { apply kept_place. intros p Hp Hu. kept_status. apply ends_set_payload; [done|apply load_put]. }
  destruct (named command "subscribe" || named command "unsubscribe").
  { apply kept_with_key; [exact Hargs|]. intros topic. apply kept_place. intros p Hp Hu. destruct (named command "subscribe"); kept_status.
    - unfold lp2p_topic_subscribe. do 2 ends_next. case_match; ends_next.
    - unfold lp2p_topic_unsubscribe. do 3 ends_next. }
  destruct (named command "publish").
  { destruct (split_space args) as [word [payload|]]; (apply kept_with_key; [by eapply Hword|intros topic]); [|by apply kept_says].
    apply kept_place. intros pt Hpt Hut. apply kept_place. intros p Hp Hu. kept_status.
    unfold lp2p_topic_publish. repeat ends_next. }
  destruct (named command "peers").
  { apply kept_with_key; [exact Hargs|]. intros topic. apply kept_place. intros p Hp Hu. kept_status.
    unfold lp2p_topic_peers. do 3 ends_next. case_match; [apply ends_pure; done|]. ends_next. apply ends_pure; done. }
  destruct (named command "call").
  { destruct (split_space args) as [word more] eqn:Eargs. apply kept_with_key; [by eapply Hword|]. intros group.
    destruct (split_space <$> more) as [[target [payload|]]|] eqn:Emore; [|by apply kept_says..].
    destruct (unhex target) as [target'|] eqn:Etarget.
    2:{ apply kept_says; [done|]. intros _ Hl. apply (unhex_plain target); [|done].
      apply fmap_Some in Emore as (text & -> & Esplit). apply Hplain in Hl as [_ [_ Hl]%split_space_plain]. rewrite Eargs in Hl.
      apply split_space_plain in Hl as [Hl _]. cbn [snd default from_option Datatypes.id] in Hl. by rewrite <- Esplit in Hl. }
    apply kept_place. intros pg Hpg Hug. apply kept_place. intros pt Hpt Hut. apply kept_place. intros p Hp Hu.
    refine (kept_id_call _ node (fun pid => lp2p_rpc_request _ _ _ _ _ _ _ pid)
      (fun s id => if s =? LP2P_OK then Said (text "CALLED " ++ dec id) else ok_or_error s) _ _ _ _).
    2:{ intros s id. destruct (s =? LP2P_OK) eqn:Es; [by eexists|]. unfold ok_or_error. by eexists. }
    intros pid Hpid Hu'. split; [call_of|].
    apply (ends_request group target'); try assumption; readable. }
  destruct (named command "add").
  { destruct (split_space args) as [word [address|]] eqn:Eargs; (apply kept_with_key; [by eapply Hword|intros target]); [|by apply kept_says].
    case_bool_decide as Hnul.
    { apply kept_says; [done|]. intros _ Hl. apply Hplain in Hl as [_ [_ Hl]%split_space_plain]. rewrite Eargs in Hl.
      cbn [snd default from_option Datatypes.id] in Hl. by destruct (proj1 (Forall_forall _ _) Hl _ Hnul). }
    apply kept_place. intros pt Hpt Hut. apply kept_place. intros p Hp Hu. kept_status.
    unfold lp2p_add_address. do 3 ends_next.
    apply (ends_string p address); [done|readable|done|done|intros _; repeat ends_next]. }
  destruct (named command "bootstrap").
  { refine (kept_id_call _ node (fun pid => lp2p_dht_bootstrap node pid)
      (fun s id => if s =? LP2P_OK then Said (text "BOOTSTRAP " ++ dec id) else ok_or_error s) _ _ _ _).
    2:{ intros s id. destruct (s =? LP2P_OK) eqn:Es; [by eexists|]. unfold ok_or_error. by eexists. }
    intros pid Hpid Hu. split; [call_of|]. unfold lp2p_dht_bootstrap, query. do 2 ends_next.
    by apply (ends_take_send_store node n _ pid m hs). }
  destruct (named command "quit") eqn:Eq; [|by apply kept_says].
  by apply bool_decide_eq_true in Eq.
Qed.


Lemma quit_line line :
  (split_space line).1 = text "quit" →
  command_line node channel count line (mk_process m hs) = Some (Ok Quit, mk_process m (delete node hs)).
Proof.
  intros Hquit. unfold command_line. destruct (split_space line) as [command rest]. cbn [fst] in Hquit. subst command. cbv zeta.
  repeat match goal with |- context [named ?a ?b] => let v := eval vm_compute in (named a b) in change (named a b) with v end. cbn [orb].
  rewrite (fbind_run _ _ _ LP2P_OK (mk_process m (delete node hs))); [done|].
  apply (calling_run _ _ (Ok LP2P_OK)). unfold lp2p_shutdown. rewrite (proj2 (Z.eqb_neq node 0)) by done.
  rewrite (fbind_run _ _ _ _ _ (handle_run node (mk_process m hs) n Hn H0)). reflexivity.
Qed.

End lines.

Section thread.
Context {I : Identity} {MA : Multiaddrs I} {H : Handles} {L : Libp2p I MA H} {A : Allocator} {AL : AllocatorLaws A}.

Lemma issues_live node n pr pr' : issues node pr pr' → handles pr !! node = Some n → ∃ n', handles pr' !! node = Some n'.
Proof.
  intros [->|(n' & sh & l & _ & -> & _)] Hn; [by exists n|]. eexists. apply lookup_insert_eq.
Qed.

(** C35: whatever is typed, the thread that reads commands keeps the contract of
    the C functions: every call is defined -- readable buffers, the live handle,
    room for what is written -- and memory is in the end as it was; up to the
    end of the input or the first "quit" the handles change by the calls'
    commands and ids only, and then the node is shut down and the process exits
    with 0. The thread can only panic, leaving the node running, over a line
    that is not plain ASCII. *)
Theorem commands_contract node n lines pr :
  handles pr !! node = Some n → node ≠ 0 →
  ∃ said exit mid pr', read_commands node lines pr = Some (Ok (said, exit), pr') ∧
    memory pr' = memory pr ∧ rtc (issues node) pr mid ∧ is_Some (handles mid !! node) ∧
    match exit with
    | Some code => code = 0 ∧ handles pr' = delete node (handles mid)
    | None => handles pr' = handles mid ∧ ∃ line, line ∈ lines.*2 ∧ ¬ plain line
    end.
Proof.
  intros Hn H0. revert n pr Hn. induction lines as [|[[channel count] line] lines IH]; intros n [m hs] Hn; cbn [handles memory] in Hn.
  - exists [], (Some 0), (mk_process m hs), (mk_process m (delete node hs)). cbn [read_commands].
    rewrite (fbind_run _ _ _ LP2P_OK (mk_process m (delete node hs))).
    2:{ apply (calling_run _ _ (Ok LP2P_OK)). unfold lp2p_shutdown. rewrite (proj2 (Z.eqb_neq node 0)) by done.
        rewrite (fbind_run _ _ _ _ _ (handle_run node (mk_process m hs) n Hn H0)). reflexivity. }
    split_and!; [done|done|apply rtc_refl|by exists n|done|done].
  - cbn [read_commands]. destruct (decide ((split_space line).1 = text "quit")) as [Hq|Hq].
    { exists [], (Some 0), (mk_process m hs), (mk_process m (delete node hs)).
      rewrite (fbind_run _ _ _ _ _ (quit_line node n channel count m hs Hn H0 line Hq)).
      split_and!; [done|done|apply rtc_refl|by exists n|done|done]. }
    destruct (kept_line node n channel count m hs Hn H0 line Hq) as (o & pr1 & E & Ho & Hpanic & Em & Hi).
    destruct (issues_live node n _ _ Hi Hn) as [n1 Hn1]. rewrite (fbind_run _ _ _ _ _ E). destruct o as [said| |]; [|done|].
    + destruct (IH n1 pr1 Hn1) as (more & exit & mid & pr' & E' & Em' & Hr & Hlive & Hexit).
      exists (said :: more), exit, mid, pr'. rewrite (fbind_run _ _ _ _ _ E'). split_and!; [done|by rewrite Em', Em| |done|].
      { by eapply rtc_l. }
      destruct exit; [done|]. destruct Hexit as (Eh & l & Hl & Hp). split; [done|]. exists l. split; [by right|done].
    + exists [], None, pr1, pr1. split_and!; [done|done|by apply rtc_once|by exists n1|done|].
      exists line. split; [by left|by apply Hpanic].
Qed.


End thread.

(** ** The loop over a polled buffer *)

(** A line of the output: a word and fields, each after a space. *)
Inductive field := FId | FGroup | FNode | FProtocol | FReason | FData | FTopic | FMessage.

(** The lines that the header of [interop_peer.rs] writes down. *)
Definition documented (kind : Z) : option (String.string * list field) :=
  if kind =? LP2P_EV_LISTENING then Some ("LISTENING"%string, [FData])
  else if kind =? LP2P_EV_PEER_CONNECTED then Some ("CONNECTED"%string, [FNode; FData])
  else if kind =? LP2P_EV_RPC_REQUEST then Some ("REQUEST"%string, [FId; FGroup; FNode; FProtocol; FData])
  else if kind =? LP2P_EV_RPC_RESPONSE then Some ("RESPONSE"%string, [FId; FGroup; FNode; FData])
  else if kind =? LP2P_EV_RPC_FAILED then Some ("FAILED"%string, [FId; FReason])
  else if kind =? LP2P_EV_ANNOUNCEMENT then Some ("ANNOUNCEMENT"%string, [FGroup; FNode; FData])
  else if kind =? LP2P_EV_TOPIC_MESSAGE then Some ("TOPIC"%string, [FTopic; FGroup; FNode; FMessage])
  else if kind =? LP2P_EV_DHT_RESULT then Some ("DHT"%string, [FId; FReason])
  else None.

(** Two more, which the header does not mention. *)
Definition undocumented (kind : Z) : option (String.string * list field) :=
  if kind =? LP2P_EV_REACHABILITY then Some ("REACHABILITY"%string, [FReason])
  else if kind =? LP2P_EV_HOLE_PUNCH then Some ("HOLE_PUNCH"%string, [FNode; FReason; FData])
  else None.

Definition output_line (kind : Z) : option (String.string * list field) :=
  match documented kind with Some line => Some line | None => undocumented kind end.

Definition field_text (e : lp2p_event) (d : bytes) (f : field) : bytes :=
  match f with
  | FId => dec (ev_id e)
  | FGroup => hex (arr (ev_group e))
  | FNode => hex (arr (ev_node e))
  | FProtocol => dec (ev_protocol e)
  | FReason => dec (ev_reason e)
  | FData => from_utf8_lossy d
  | FTopic => hex (take 32 d)
  | FMessage => from_utf8_lossy (drop 32 d)
  end.

Definition event_lines (e : lp2p_event) (d : bytes) : list bytes :=
  match output_line (ev_type e) with
  | Some (word, fields) => [text word ++ concat ((fun f => x20 :: field_text e d f) <$> fields)]
  | None => []
  end.


Section walking.
Context {I : Identity} {MA : Multiaddrs I} {H : Handles} {L : Libp2p I MA H} {A : Allocator} {AL : AllocatorLaws A}.

(** The command that answers an event. *)
Definition answer_of (e : lp2p_event) (d : bytes) : list Command :=
  if ev_type e =? LP2P_EV_RPC_REQUEST then [Respond (ev_id e) (text "rust:" ++ from_utf8_lossy d)] else [].

Definition with_commands (l : list Command) (n : Ffi.Node) : Ffi.Node := n <| node_sent ::= fun sent => sent ++ l |>.

Context (node : Z) (H0 : node ≠ 0).

(** An answer is sent while there is a thread to take it. *)
Definition takes (n : Ffi.Node) : bool := negb (poisoned (node_shared n)) && node_receiving n.
Definition with_answers (l : list Command) (n : Ffi.Node) : Ffi.Node := if takes n then with_commands l n else n.

Lemma with_answers_nil n : with_answers [] n = n.
Proof. unfold with_answers, with_commands. destruct (takes n); [|done]. destruct n. cbn. by rewrite app_nil_r. Qed.

Lemma respond_run p id (l : bytes) n m hs :
  hs !! node = Some n → 0 < p → load m p (length l) = Some l →
  ∃ s, calling (lp2p_rpc_respond node id p (blen l)) (mk_process m hs) =
    Some (Ok s, mk_process m (<[node := with_answers [Respond id l] n]> hs)).
Proof.
  intros Hn Hp Hl.
  assert (∃ s, lp2p_rpc_respond node id p (blen l) (mk_process m hs) =
    Some (Ok s, mk_process m (<[node := with_answers [Respond id l] n]> hs))) as [s E]; [|exists s; by apply (calling_run _ _ (Ok s))].
  unfold lp2p_rpc_respond. rewrite (fbind_run _ _ _ _ _ (handle_run node (mk_process m hs) n Hn H0)).
  rewrite (fbind_run _ _ _ _ _ (byte_slice_run p l (mk_process m hs) Hp Hl)). unfold with_answers, takes.
  destruct (poisoned (node_shared n)) eqn:Ep; [|destruct (node_receiving n) eqn:Er]; cbn [negb andb].
  - exists LP2P_ERR_PANIC. unfold send. rewrite Ep. by rewrite insert_id.
  - exists LP2P_OK. by apply send_run.
  - exists LP2P_ERR_SHUT_DOWN. unfold send. rewrite Ep, Er. by rewrite insert_id.
Qed.

Lemma on_event_run e d n m hs :
  hs !! node = Some n → (ev_type e = LP2P_EV_TOPIC_MESSAGE → 32 ≤ blen d) →
  on_event node e d (mk_process m hs) =
    Some (Ok (Some (event_lines e d)), mk_process m (<[node := with_answers (answer_of e d) n]> hs)).
Proof.
  intros Hn Ht. unfold on_event, event_lines, answer_of, output_line, documented, undocumented. cbv zeta.
  assert (<[node := with_answers [] n]> hs = hs) as Hsame by (rewrite with_answers_nil; by apply insert_id).
  destruct (Z.eqb_spec (ev_type e) LP2P_EV_RPC_REQUEST) as [E|Hrequest].
  { rewrite E. set (answer := text "rust:" ++ from_utf8_lossy d).
    assert (∃ s, place answer (fun p => calling (lp2p_rpc_respond node (ev_id e) p (blen answer))) (mk_process m hs) =
      Some (Ok s, mk_process m (<[node := with_answers [Respond (ev_id e) answer] n]> hs))) as [s Es].
    { unfold place. cbn [memory upd handles]. unfold upd. cbn [memory handles eta eta_Process].
      pose proof (allocate_unused m (length answer)) as Hu. pose proof (allocate_positive m (length answer)) as Hp.
      destruct (respond_run (allocate m (length answer)) (ev_id e) answer n (put m (allocate m (length answer)) answer) hs Hn Hp (load_put _ _ _)) as [s Es].
      exists s. rewrite Es. cbn [mbind option_bind memory handles]. by rewrite release_put. }
    eapply fbind_eq; [exact Es|]. cbv beta. cbn. by rewrite ?app_nil_r. }
  rewrite Hsame. clear Hsame Hrequest.
  repeat match goal with |- context [ev_type e =? ?k] =>
    destruct (Z.eqb_spec (ev_type e) k) as [E|_]; [try (cbn; by rewrite ?app_nil_r)|] end; [|done].
  rewrite (proj2 (Z.ltb_ge _ _)) by auto. cbn. by rewrite ?app_nil_r.
Qed.

(** Events whose records the reader is made for: a topic message carries its
    topic. *)
Definition tellable (b : EventBuilder * bytes) : Prop :=
  event_wf b.1 b.2 ∧ (ev_type (header b.1) = LP2P_EV_TOPIC_MESSAGE → 32 ≤ blen b.2).

Definition told_lines (l : list (EventBuilder * bytes)) : list bytes :=
  concat ((fun x => event_lines (event_header (expected x.1 x.2)) x.2) <$> l).

Definition told_answers (l : list (EventBuilder * bytes)) : list Command :=
  concat ((fun x => answer_of (event_header (expected x.1 x.2)) x.2) <$> l).

Lemma with_answers_app l k n : with_answers k (with_answers l n) = with_answers (l ++ k) n.
Proof.
  assert (takes (with_answers l n) = takes n) as Et by (unfold with_answers; destruct (takes n) eqn:E; exact E).
  unfold with_answers at 1. rewrite Et. unfold with_answers. destruct (takes n); [|done].
  unfold with_commands. destruct n. cbn. by rewrite app_assoc.
Qed.

Lemma walk_from_run l : ∀ fuel pre rest n m hs,
  hs !! node = Some n →
  Forall tellable l → (length l <= fuel)%nat →
  walk_from fuel node (pre ++ records_of l ++ rest) (blen (pre ++ records_of l)) (blen pre) (mk_process m hs) =
    Some (Ok (told_lines l, None), mk_process m (<[node := with_answers (told_answers l) n]> hs)).
Proof.
  induction l as [|[b d] l IH]; intros fuel pre rest n m hs Hn Hok Hfuel.
  - unfold records_of, told_answers, told_lines. cbn [fmap list_fmap concat]. rewrite app_nil_r.
    assert ((blen pre + LP2P_EVENT_HEADER_BYTES <=? blen pre) = false) as Hend by (unfold LP2P_EVENT_HEADER_BYTES; lia).
    assert (<[node := with_answers [] n]> hs = hs) as ->.
    { rewrite with_answers_nil. by apply insert_id. }
    destruct fuel; cbn [walk_from]; by rewrite Hend.
  - destruct fuel as [|fuel]; [cbn in Hfuel; lia|]. apply Forall_cons in Hok as [[Hwf Ht] Hok]. cbn [fst snd] in *.
    unfold records_of in *. rewrite fmap_cons. cbn [concat fst snd]. rewrite <- (app_assoc (data b d)).
    set (more := concat _) in *. destruct (record_at pre b d (more ++ rest) Hwf) as (Eh & Ety & El & Hsize & Enext & Eslice).
    set (e := event_header (expected b d)) in *. set (buf := pre ++ data b d ++ more ++ rest) in *.
    assert (blen (pre ++ data b d ++ more) = blen (pre ++ data b d) + blen more) as Elen by (rewrite app_assoc; apply blen_app).
    assert (blen buf = blen (pre ++ data b d ++ more) + blen rest) as Ebuf by (unfold buf; rewrite !blen_app; lia).
    pose proof (blen_nonneg more). pose proof (blen_nonneg rest). pose proof (blen_nonneg d). cbn [walk_from].
    assert ((blen pre + LP2P_EVENT_HEADER_BYTES <=? blen (pre ++ data b d ++ more)) = true) as -> by lia. cbn [negb].
    rewrite Eh, El, Eslice.
    assert ((blen buf <? blen pre + LP2P_EVENT_HEADER_BYTES + blen d) = false) as -> by lia.
    eapply fbind_eq; [apply on_event_run; [exact Hn|by rewrite Ety]|]. cbv beta iota. rewrite Enext.
    assert (buf = (pre ++ data b d) ++ more ++ rest) as -> by (unfold buf; by rewrite <- app_assoc).
    rewrite (app_assoc pre). eapply fbind_eq.
    { apply (IH fuel (pre ++ data b d) rest (with_answers (answer_of e d) n)); [apply lookup_insert_eq|done|cbn in Hfuel; lia]. }
    cbv beta. rewrite insert_insert_eq, with_answers_app. reflexivity.
Qed.


Lemma records_enough l : (length l <= S (Z.to_nat (blen (records_of l))))%nat.
Proof.
  induction l as [|[b d] l IH]; [cbn; lia|]. unfold records_of in *. rewrite fmap_cons. cbn [concat length fst snd].
  rewrite blen_app, length_data. pose proof (record_size_bounds (blen d) (blen_nonneg d)) as [Hb _].
  pose proof (blen_nonneg d). pose proof (blen_nonneg (concat ((fun e => data e.1 e.2) <$> l))).
  unfold LP2P_EVENT_HEADER_BYTES in Hb. lia.
Qed.

(** What lp2p_poll wrote, whole records, is told to the end, whatever else is in
    the buffer. *)
Lemma on_poll_run l rest n m hs :
  hs !! node = Some n → Forall tellable l →
  on_poll node (blen (records_of l)) (records_of l ++ rest) (mk_process m hs) =
    Some (Ok (told_lines l, None), mk_process m (<[node := with_answers (told_answers l) n]> hs)).
Proof.
  intros Hn Hl. pose proof (blen_nonneg (records_of l)). unfold on_poll, LP2P_ERR_SHUT_DOWN.
  rewrite (proj2 (Z.eqb_neq _ _)) by lia. rewrite (proj2 (Z.ltb_ge _ _)) by lia. unfold walk.
  exact (walk_from_run l _ [] rest n m hs Hn Hl (records_enough l)).
Qed.

(** *** From the queue to the lines *)

(** A header with its fields at their widths makes the same record. *)
Definition at_width (b : EventBuilder) : EventBuilder :=
  let h := header b in
  mk_builder (mk_event (as_u16 (ev_type h)) (as_u16 (ev_flags h)) 0 (wrap 64 (ev_id h)) (ev_group h) (ev_node h)
    (as_u16 (ev_protocol h)) (as_u16 (ev_reason h)) 0).

Lemma at_width_data b d : data (at_width b) d = data b d.
Proof.
  unfold data, at_width, complete_header, header_bytes. cbn [header ev_type ev_flags ev_size ev_id ev_group ev_node ev_protocol ev_reason ev_data_len upd].
  assert (∀ z, le_bytes 2 (wrap 16 z) = le_bytes 2 z) as E2 by exact (le_bytes_wrap 2).
  assert (∀ z, le_bytes 8 (wrap 64 z) = le_bytes 8 z) as E8 by exact (le_bytes_wrap 8).
  unfold as_u16. by rewrite !E2, E8.
Qed.

Lemma built_tellable r : EventQueue.built r → blen r < 2 ^ 32 → ∃ x, r = data x.1 x.2 ∧ tellable x.
Proof.
  intros (b & d & -> & Hc) Hr. rewrite length_data in Hr. exists (at_width b, d). cbn [fst snd]. split; [by rewrite at_width_data|].
  split; [split; [|done]|exact Hc]. unfold header_wf, at_width. cbn. unfold as_u16.
  split_and!; try lia; apply wrap_range; lia.
Qed.

Lemma overflow_built k : EventQueue.built (EventQueue.overflow_record k).
Proof. unfold EventQueue.overflow_record, build. eexists _, []. split; [reflexivity|]. intros E. discriminate E. Qed.

(** What a well-formed queue hands out are events the reader is made for. *)
Lemma log_tellable max inner log inner' :
  EventQueue.queue_inv max inner → max < 2 ^ 32 →
  EventQueue.hands_out (EventQueue.channel_of inner) log (EventQueue.channel_of inner') →
  ∃ l, EventQueue.log_bytes log = records_of l ∧ Forall tellable l.
Proof.
  intros [Hb Hbound _ Hbuilt _] Hmax (Hw & _ & _)%EventQueue.hands_out_spec. cbn in Hw.
  assert (Forall (fun r => ∃ x, r = data x.1 x.2 ∧ tellable x) (EventQueue.delivery_bytes <$> log)) as Hall.
  { apply Forall_fmap, Forall_forall. intros [r|k] Hin; cbn [compose EventQueue.delivery_bytes].
    - assert (r ∈ EventQueue.records inner) as Hr.
      { rewrite Hw. apply elem_of_app. left. unfold EventQueue.delivered_records. apply list_elem_of_omap. by exists (EventQueue.Delivered r). }
      apply built_tellable; [by apply (proj1 (Forall_forall _ _) Hbuilt)|].
      apply list_elem_of_split in Hr as (l1 & l2 & E). rewrite E, EventQueue.total_app, EventQueue.total_cons in Hb.
      pose proof (EventQueue.total_nonneg l1). pose proof (EventQueue.total_nonneg l2). lia.
    - apply built_tellable; [apply overflow_built|]. rewrite EventQueue.overflow_record_size. done. }
  unfold EventQueue.log_bytes. clear -Hall. induction Hall as [|r rs (x & -> & Hx) _ (l & E & Hl)]; [by exists []|].
  exists (x :: l). split; [|by constructor]. unfold records_of in *. rewrite fmap_cons. cbn [concat]. by rewrite E.
Qed.

(** Overwriting the start of the buffer. *)
Lemma store_put_prefix m p l l' :
  (length l' <= length l)%nat → store (put m p l) p l' = Some (put m p (l' ++ drop (length l') l)).
Proof.
  intros Hlen. rewrite <- (take_drop (length l') l) at 1.
  revert p m l Hlen. induction l' as [|b l' IH]; intros p m l Hlen; [done|].
  destruct l as [|x l]; cbn [length] in Hlen; [lia|]. cbn [take drop app length store put].
  rewrite lookup_insert_eq. cbn [mbind option_bind]. rewrite insert_insert_eq. rewrite insert_put by lia.
  rewrite IH by lia. by rewrite insert_put by lia.
Qed.

Definition with_events (queue : EventQueue.Inner) (n : Ffi.Node) : Ffi.Node :=
  n <| node_shared ::= fun sh => sh <| events := queue |> |>.

(** How the process ends for what lp2p_poll answers in place of events. *)
Definition ends_with (answer : Z) : list bytes * option Z :=
  if answer =? LP2P_ERR_SHUT_DOWN then ([], Some 0) else ([text "ERROR " ++ dec answer], Some 1).

Lemma on_poll_error answer buf pr : answer < 0 → on_poll node answer buf pr = Some (Ok (ends_with answer), pr).
Proof.
  intros Ha. unfold on_poll, ends_with. destruct (answer =? LP2P_ERR_SHUT_DOWN); [done|].
  by rewrite (proj2 (Z.ltb_lt _ _)).
Qed.

(** lp2p_poll on the loop's buffer. *)
Lemma polling_run n buf began now p m hs :
  hs !! node = Some n → 0 < p →
  EventQueue.queue_inv (events_max_bytes (node_shared n)) (events (node_shared n)) → 0 ≤ blen buf < 2 ^ 31 →
  polling node p (blen buf) began now (mk_process (put m p buf) hs) =
    match EventQueue.poll_pass now (began + millis 1000) (blen buf) (events (node_shared n)) with
    | None => Some (Ok None, mk_process (put m p buf) hs)
    | Some (answer, out, queue) =>
        Some (Ok (Some answer), mk_process (put m p (out ++ drop (length out) buf)) (<[node := with_events queue n]> hs))
    end.
Proof.
  intros Hn Hp Hinv Hcap. unfold polling, lp2p_poll.
  rewrite (fbind_run _ _ _ _ _ (handle_run node (mk_process (put m p buf) hs) n Hn H0)).
  rewrite (fbind_run _ _ _ () (mk_process (put m p buf) hs)) by (apply require_run; rewrite (proj2 (Z.eqb_neq p 0)) by lia; done).
  destruct (EventQueue.poll_pass _ _ _ _) as [[[answer out] queue]|] eqn:Ep; [|done].
  destruct (PollSpec.poll_pass_cases _ _ _ _ _ _ _ _ Hinv Hcap Ep) as [Hlen _].
  rewrite (fbind_run _ _ _ () (mk_process (put m p buf) (<[node := with_events queue n]> hs))).
  2:{ unfold update_node, upd. cbn [memory handles eta eta_Process]. by rewrite (alter_insert hs node n). }
  rewrite (fbind_run _ _ _ () (mk_process (put m p (out ++ drop (length out) buf)) (<[node := with_events queue n]> hs))); [done|].
  unfold store_bytes. cbn [memory]. rewrite store_put_prefix by (unfold blen in Hlen; lia). done.
Qed.

(** A computation on a buffer that leaves another one of its length. *)
Lemma place_other {X} l (k : Z → F X) m hs (Q : result X Z → gmap Z Ffi.Node → Prop) :
  (∀ p, 0 < p → unused m p (length l) →
    ∃ r l' hs', length l' = length l ∧ k p (mk_process (put m p l) hs) = Some (r, mk_process (put m p l') hs') ∧ Q r hs') →
  ∃ r hs', place l k (mk_process m hs) = Some (r, mk_process m hs') ∧ Q r hs'.
Proof.
  intros Hk. unfold place. cbn [memory upd handles]. unfold upd. cbn [memory handles eta eta_Process].
  pose proof (allocate_unused m (length l)) as Hu.
  destruct (Hk _ (allocate_positive _ _) Hu) as (r & l' & hs' & Hl & E & HQ). exists r, hs'. split; [|done].
  rewrite E. cbn [mbind option_bind memory handles]. rewrite <- Hl, release_put; [done|]. by rewrite Hl.
Qed.

(** What a turn with a buffer of [cap] bytes tells when lp2p_poll came back, and
    the events it is about. *)
Inductive tells (n : Ffi.Node) (cap began now : Z) (queue : EventQueue.Inner) :
    list (EventBuilder * bytes) → list bytes * option Z → Prop :=
| tells_events log l :
    EventQueue.hands_out (EventQueue.channel_of (events (node_shared n))) log (EventQueue.channel_of queue) →
    EventQueue.log_bytes log = records_of l → l ≠ [] → Forall tellable l →
    (∀ size, PollSpec.next_size queue = Some size → cap < blen (records_of l) + size) →
    tells n cap began now queue l (told_lines l, None)
| tells_nothing :
    EventQueue.channel_of queue = EventQueue.channel_of (events (node_shared n)) →
    PollSpec.next_size (events (node_shared n)) = None → EventQueue.closed (events (node_shared n)) = None →
    began + millis 1000 ≤ now →
    tells n cap began now queue [] ([], None)
| tells_too_long size :
    EventQueue.channel_of queue = EventQueue.channel_of (events (node_shared n)) →
    PollSpec.next_size (events (node_shared n)) = Some size → cap < size →
    tells n cap began now queue [] ([text "ERROR " ++ dec LP2P_ERR_BUFFER_TOO_SMALL], Some 1)
| tells_shut_down :
    EventQueue.channel_of queue = EventQueue.channel_of (events (node_shared n)) →
    PollSpec.next_size (events (node_shared n)) = None → EventQueue.closed (events (node_shared n)) = Some LP2P_ERR_SHUT_DOWN →
    tells n cap began now queue [] ([], Some 0)
| tells_closed status :
    EventQueue.channel_of queue = EventQueue.channel_of (events (node_shared n)) →
    PollSpec.next_size (events (node_shared n)) = None → EventQueue.closed (events (node_shared n)) = Some status →
    status ≠ LP2P_ERR_SHUT_DOWN →
    tells n cap began now queue [] ([text "ERROR " ++ dec status], Some 1).

(** The loop's part of a turn. *)
Lemma on_poll_tells n p buf began now answer out queue m hs :
  hs !! node = Some n →
  EventQueue.queue_inv (events_max_bytes (node_shared n)) (events (node_shared n)) →
  events_max_bytes (node_shared n) < 2 ^ 32 → 0 ≤ blen buf < 2 ^ 31 →
  (∀ s, EventQueue.closed (events (node_shared n)) = Some s → s < 0) →
  EventQueue.poll_pass now (began + millis 1000) (blen buf) (events (node_shared n)) = Some (answer, out, queue) →
  ∃ l r, tells n (blen buf) began now queue l r ∧
    on_poll node answer (out ++ drop (length out) buf)
      (mk_process (put m p (out ++ drop (length out) buf)) (<[node := with_events queue n]> hs)) =
    Some (Ok r, mk_process (put m p (out ++ drop (length out) buf)) (<[node := with_answers (told_answers l) (with_events queue n)]> hs)).
Proof.
  intros Hn Hinv Hmax Hcap Hclosed Ep. set (buf' := out ++ drop (length out) buf).
  assert (∀ l, blen (records_of l) = answer → out = records_of l → Forall tellable l →
    on_poll node answer buf' (mk_process (put m p buf') (<[node := with_events queue n]> hs)) =
    Some (Ok (told_lines l, None), mk_process (put m p buf') (<[node := with_answers (told_answers l) (with_events queue n)]> hs))) as Hrun.
  { intros l <- Ho Hl. unfold buf' at 1. rewrite Ho.
    rewrite (on_poll_run l _ (with_events queue n)); [by rewrite insert_insert_eq|apply lookup_insert_eq|done]. }
  assert (answer < 0 → on_poll node answer buf' (mk_process (put m p buf') (<[node := with_events queue n]> hs)) =
    Some (Ok (ends_with answer), mk_process (put m p buf') (<[node := with_answers [] (with_events queue n)]> hs))) as Herr.
  { intros Ha. rewrite with_answers_nil. by apply on_poll_error. }
  destruct (PollSpec.poll_pass_cases _ _ _ _ _ _ _ _ Hinv Hcap Ep) as [Hlen [(log & Hh & Ho & Hne & Ha & Hfull)|(Ho & Hch & Hcase)]].
  - destruct (log_tellable _ _ _ _ Hinv Hmax Hh) as (l & El & Hl). exists l, (told_lines l, None).
    split; [|by apply Hrun; [by rewrite Ha, Ho, El|by rewrite Ho|]].
    eapply tells_events; [exact Hh|exact El| |exact Hl|]; [intros ->; apply Hne; by rewrite Ho, El|].
    by rewrite <- El, <- Ho.
  - unfold PollSpec.idle_answer in Hcase. destruct (PollSpec.next_size _) as [size|] eqn:En.
    { destruct Hcase as [Hsize ->]. exists [], (ends_with LP2P_ERR_BUFFER_TOO_SMALL). split; [by eapply tells_too_long|by apply Herr]. }
    destruct (EventQueue.closed _) as [status|] eqn:Ec.
    + subst answer. exists [], (ends_with status). split; [|by apply Herr, Hclosed]. unfold ends_with.
      destruct (Z.eqb_spec status LP2P_ERR_SHUT_DOWN) as [->|Hs]; [by apply tells_shut_down|by apply tells_closed].
    + destruct Hcase as [-> Ht]. exists [], ([], None). split; [by apply tells_nothing|]. by apply (Hrun []).
Qed.

(** C36: what the queue hands out is told. A turn of the loop on a live handle
    whose queue is well formed is always defined and leaves memory as it was.
    While nothing is queued and the timeout has not passed it waits. When
    something fits the buffer, the queue hands out a log from its front, as much
    as fits, and the turn says exactly the lines of these events, in order -- for
    each kind of event its word and its fields, those of the program's header
    and two more -- answers every request among them, and nothing else, under its
    id with "rust:" and its text as long as the node's thread takes commands, and
    the process goes on: it never panics over what a node emits. When the next event does not fit it says ERROR with
    BUFFER_TOO_SMALL and exits with 1. With nothing queued it goes on after the
    timeout, exits with 0 once a shutdown closed the queue, and with ERROR and 1
    when it was closed with another status. *)
Theorem turn_told n buf began now pr :
  handles pr !! node = Some n → EventQueue.queue_inv (events_max_bytes (node_shared n)) (events (node_shared n)) →
  events_max_bytes (node_shared n) < 2 ^ 32 → 0 ≤ blen buf < 2 ^ 31 →
  (∀ s, EventQueue.closed (events (node_shared n)) = Some s → s < 0) →
  ∃ r pr', turn node buf began now pr = Some (Ok r, pr') ∧ memory pr' = memory pr ∧
    match r with
    | None => handles pr' = handles pr ∧ PollSpec.next_size (events (node_shared n)) = None ∧
        EventQueue.closed (events (node_shared n)) = None ∧ now < began + millis 1000
    | Some (buf', told) =>
        blen buf' = blen buf ∧ ∃ queue l, tells n (blen buf) began now queue l told ∧
          handles pr' = <[node := with_answers (told_answers l) (with_events queue n)]> (handles pr)
    end.
Proof.
  destruct pr as [m hs]. cbn [memory handles]. intros Hn Hinv Hmax Hcap Hclosed.
  pose (Q (r : result (option (bytes * (list bytes * option Z))) Z) (hs' : gmap Z Ffi.Node) := ∃ v, r = Ok v ∧ match v with
    | None => hs' = hs ∧ PollSpec.next_size (events (node_shared n)) = None ∧
        EventQueue.closed (events (node_shared n)) = None ∧ now < began + millis 1000
    | Some (buf', told) =>
        blen buf' = blen buf ∧ ∃ queue l, tells n (blen buf) began now queue l told ∧
          hs' = <[node := with_answers (told_answers l) (with_events queue n)]> hs
    end).
  cut (∃ r hs', turn node buf began now (mk_process m hs) = Some (r, mk_process m hs') ∧ Q r hs').
  { intros (r & hs' & E & v & -> & Hv). exists v, (mk_process m hs'). split; [exact E|]. split; [done|exact Hv]. }
  apply place_other. intros p Hp Hu. pose proof (polling_run n buf began now p m hs Hn Hp Hinv Hcap) as Hpoll.
  destruct (EventQueue.poll_pass now (began + millis 1000) (blen buf) (events (node_shared n))) as [[[answer out] queue]|] eqn:Ep.
  2:{ exists (Ok None), buf, hs. split; [done|]. split; [by rewrite (fbind_run _ _ _ _ _ Hpoll)|]. exists None. split; [done|].
      split; [done|]. exact (PollSpec.poll_pass_waits _ _ _ _ _ Hinv Ep). }
  destruct (on_poll_tells n p buf began now answer out queue m hs Hn Hinv Hmax Hcap Hclosed Ep) as (l & told & Ht & E).
  destruct (PollSpec.poll_pass_cases _ _ _ _ _ _ _ _ Hinv Hcap Ep) as [Hlen _].
  set (buf' := out ++ drop (length out) buf) in *.
  assert (length buf' = length buf) as Hbuf' by (unfold buf'; rewrite length_app, length_drop; unfold blen in Hlen; lia).
  exists (Ok (Some (buf', told))), buf', (<[node := with_answers (told_answers l) (with_events queue n)]> hs). split; [done|]. split.
  - rewrite (fbind_run _ _ _ _ _ Hpoll). eapply fbind_eq; [apply (load_bytes_run _ _ buf'); [apply load_put|unfold blen; by rewrite Hbuf']|].
    cbv beta. by rewrite (fbind_run _ _ _ _ _ E).
  - exists (Some (buf', told)). split; [done|]. split; [unfold blen; by rewrite Hbuf'|]. by exists queue, l.
Qed.

End walking.

(** ** Starting *)

Section starting.
Context {I : Identity} {IL : IdentityLaws I} {MA : Multiaddrs I} {H : Handles} {L : Libp2p I MA H}.
Context {A : Allocator} {AL : AllocatorLaws A}.

Definition env_reach (e : PeerEnv) : Reachability :=
  match env_reachability e with EnvPrivate => Private | EnvUnknown => Unknown | EnvOther => Public end.

(** The options without the pointers. *)
Definition peer_settings (e : PeerEnv) (group : lp2p_key) : lp2p_options :=
  peer_options default_options (array_fill 32 (env_seed e)) group e 0 0 0 0.

Lemma peer_options_wf e group pd pl ph pp :
  0 < pd < 2 ^ 64 → 0 < pl < 2 ^ 64 → 0 < ph < 2 ^ 64 → 0 < pp < 2 ^ 64 →
  options_wf (peer_options default_options (array_fill 32 (env_seed e)) group e pd pl ph pp).
Proof.
  intros Hd Hl Hh Hp. unfold options_wf, fields, fits.
  repeat (apply Forall_cons; split); cbn [field_wf]; try exact Logic.I; unfold fits; cbn -[Z.pow Z.mul];
    first [lia | by vm_compute | destruct (env_relay_server e); by vm_compute | destruct (env_reachability e); by vm_compute].
Qed.

(** C33: a correct caller gets a node. With seeds that are keys, an address
    libp2p can parse, a protocol name that starts with a slash and a little
    memory, [main] comes to the answer of the node's thread, whatever the clock
    says. When the thread was spawned and answers that its swarm is built and
    listens, [main] says READY with the node's and the group's key and goes on, and
    the handle is the one of a fresh node with exactly the configuration meant: the
    delegation it had signed, its strings and addresses read back as it wrote them,
    the library's defaults where the program sets nothing. When the thread could
    not be spawned, answers another status or ends without one, [main] says ERROR
    with that status -- NO_MEMORY, the status, PANIC -- and exits with 1, and there
    is no handle. Its memory is as it was. *)
Theorem peer_started e now_ms spawned ready address kp key gkp group listen peer pr :
  keypair_from_seed (array_fill 32 (env_seed e)) = Some kp → public_key kp = Some key →
  keypair_from_seed (array_fill 32 (env_group_seed e)) = Some gkp → public_key gkp = Some group →
  is_text (env_listen e) → parse_multiaddr (env_listen e) = Some listen →
  is_text (env_dht e) → head (env_dht e) = Some x2f →
  0 ≤ address < 2 ^ 64 → Z.of_nat (size (memory pr)) + blen (env_listen e) + blen (env_dht e) < 2 ^ 30 →
  ∃ d r pr', peer_start e now_ms spawned ready address pr = Some (Ok r, pr') ∧
    Delegation.sign (array_fill 32 (env_group_seed e)) key 0 = Some d ∧ memory pr' = memory pr ∧
    let s := thread_answer spawned ready in
    if s =? LP2P_OK then
      r = (key, group, Ok address) ∧ start_said peer r = ([ready_line (peer key) key group], None) ∧
      handles pr' = <[address := new_node (config_made (peer_settings e group) d [listen] (env_dht e) PROTOCOLS (env_reach e))]> (handles pr)
    else start_said peer r = ([text "ERROR " ++ dec s], Some 1) ∧ handles pr' = handles pr.
Proof.
  destruct pr as [m hs]. cbn [memory handles]. intros Hkp Hkey Hgkp Hgroup Hlt Hlisten Hdt Hslash Haddress Hsize.
  destruct (signs _ _ _ key Hgkp Hgroup) as (d & Hsign & Hdg).
  set (s := thread_answer spawned ready). pose (good := s =? LP2P_OK).
  exists d, (key, group, if good then Ok address else Err s).
  exists (mk_process m (if good then <[address := new_node (config_made (peer_settings e group) d [listen] (env_dht e) PROTOCOLS (env_reach e))]> hs else hs)).
  split; [|split; [done|split; [done|]]]; [|cbv zeta; fold s; subst good; by destruct (s =? LP2P_OK)].
  destruct (Delegation.sign_wf _ _ 0 _ ltac:(lia) Hsign) as (Hdwf & Hdn & _).
  assert (strings_bytes [env_listen e] = blen (env_listen e) + 1) as Hlb by (unfold strings_bytes; cbn [foldr]; lia).
  assert (strings_bytes PROTOCOLS + 8 * Z.of_nat (length (@nil Z) + length PROTOCOLS) = 49) as Hpb by (vm_compute; reflexivity).
  pose proof (blen_nonneg (env_listen e)). pose proof (blen_nonneg (env_dht e)).
  unfold peer_start. cbv zeta. eapply fbind_eq; [by apply (key_from_run _ kp)|]. cbv beta.
  eapply fbind_eq; [by apply (key_from_run _ gkp)|]. cbv beta. eapply fbind_eq; [by apply sign_delegation_run|]. cbv beta.
  pose proof (Delegation.length_to_bytes d) as Hdlen. unfold LP2P_DELEGATION_BYTES in Hdlen.
  apply place_low; [lia|lia|]. intros pd Hpd Hud. pose proof (size_put m pd (Delegation.to_bytes d)) as Hs1. pose proof (load_put m pd (Delegation.to_bytes d)) as Hld.
  set (m1 := put m pd (Delegation.to_bytes d)) in *.
  apply (place_strings_run [env_listen e] [] []); [by constructor; [apply Hlt|]|done|rewrite Hlb; cbn [length]; lia|].
  intros pl m2 Hpl He2 Hl2 Hs2. cbn [app] in Hl2. rewrite Hlb in Hs2. cbn [length] in Hs2.
  eapply fbind_eq; [unfold cstring; rewrite bool_decide_false by apply Hdt; reflexivity|]. cbv beta.
  assert (blen (env_dht e ++ [x00]) = blen (env_dht e) + 1) as Hdl by (rewrite blen_app; done).
  apply place_low; [lia|lia|]. intros ph Hph Huh. pose proof (size_put m2 ph (env_dht e ++ [x00])) as Hs3. pose proof (load_put m2 ph (env_dht e ++ [x00])) as Hlh.
  pose proof (extends_put m2 ph _ Huh) as He3. set (m3 := put m2 ph (env_dht e ++ [x00])) in *.
  apply (place_strings_run PROTOCOLS [] []); [repeat constructor; apply (bool_decide_unpack _); by vm_compute|done|lia|].
  intros pp m4 Hpp He4 Hl4 Hs4. cbn [app] in Hl4.
  eapply fbind_eq; [apply default_from_library_run|]. cbv beta.
  set (o := peer_options default_options (array_fill 32 (env_seed e)) group e pd pl ph pp).
  pose proof (length_options_bytes o) as Hob. unfold sizeof_lp2p_options in Hob.
  apply place_low; [lia|unfold blen; lia|]. intros po Hpo Huo.
  pose proof (load_put m4 po (options_bytes o)) as Hlo. set (m5 := put m4 po (options_bytes o)) in *.
  assert (extends m4 m5) as He5 by by apply extends_put.
  assert (usable m5 o d [env_listen e] [listen] (env_dht e) PROTOCOLS (env_reach e)) as Huse.
  { assert (extends m3 m5) as He35 by by etrans. assert (extends m2 m5) as He25 by by etrans. assert (extends m1 m5) as He15 by by etrans.
    split.
    - by apply peer_options_wf.
    - reflexivity.
    - split_and!; [exact (proj1 Hpd)|reflexivity|by apply He15|done|done].
    - split_and!; [exact (strings_extends _ _ _ _ He25 Hl2)|reflexivity|by repeat constructor; apply Hlt|]. cbn [parse_addresses]. by rewrite Hlisten.
    - split_and!; [|done..]. split; [exact Hph|by apply He35].
    - split_and!; [exact (strings_extends _ _ _ _ He5 Hl4)|reflexivity| |by vm_compute].
      repeat constructor; try (apply (bool_decide_unpack _); by vm_compute); by vm_compute.
    - split_and!; by vm_compute.
    - reflexivity.
    - unfold o, peer_options, env_reach. cbn [o_reachability]. by destruct (env_reachability e). }
  apply place_run. intros pout Hpout Huout. exists (le_bytes 8 (if good then address else 0)). split; [by rewrite !length_le_bytes|].
  eapply fbind_eq.
  { apply (calling_run _ _ (if good then Ok LP2P_OK else Err s)). eapply (lp2p_start_run m5 hs po pout o d); [lia|done|done|done|exact Huse|exact Hkp|exact Hkey|].
    apply (Delegation.sign_verify_for _ _ _ _ _ _ Hsign). split; [done|by left]. }
  cbv beta. eapply fbind_eq; [apply (load_bytes_run _ _ (le_bytes 8 (if good then address else 0))); [apply load_put|unfold blen; by rewrite length_le_bytes]|].
  cbv beta. fold s. subst good. destruct (s =? LP2P_OK) eqn:Es; cbn [status]; [|by rewrite Es].
  change (LP2P_OK =? LP2P_OK) with true. cbv iota. rewrite le_value_id by done. reflexivity.
Qed.

End starting.

(** ** Witnesses

    A handle 8 of the toy node, whose thread takes commands, and nothing in
    memory. *)

Definition toy_handle : Process := mk_process ∅ {[ 8 := new_node toy_config ]}.

Lemma toy_handle_live : handles toy_handle !! 8 = Some (new_node toy_config).
Proof. apply lookup_singleton_eq. Qed.

Definition toy_ask : Ask := AskCall toy_group None (text "hello there").

Lemma line_understood_witness :
  ∃ pr', command_line 8 0 None (line_of toy_ask) toy_handle = Some (Ok (Said (text "CALLED 1")), pr') ∧
    memory pr' = ∅.
Proof.
  destruct (line_understood 8 (new_node toy_config) 0 None toy_ask
    (Rpc 1 toy_group None 0 (text "hello there") (node_rpc_timeout (new_node toy_config))) toy_handle) as (pr' & E & Em & _).
  - exact toy_handle_live.
  - lia.
  - reflexivity.
  - reflexivity.
  - change (next_id (node_shared (new_node toy_config))) with 1. lia.
  - intros c [=].
  - reflexivity.
  - split; [reflexivity|]. split; [by vm_compute|]. split; [by vm_compute|exact Logic.I].
  - exists pr'. split; [exact E|exact Em].
Defined.

(** A node with a request in its queue. *)
Definition toy_request : EventRecord := data (with_id 7 (new_event LP2P_EV_RPC_REQUEST)) (text "ping").

Definition toy_asked : Ffi.Node := with_events (EventQueue.push 10000 toy_request EventQueue.new_queue) (new_node toy_config).

Definition toy_buffer : bytes := repeat x00 200.

Definition toy_turn : F (option (bytes * (list bytes * option Z))) := turn 8 toy_buffer 0 0.

Lemma toy_asked_inv : EventQueue.queue_inv (events_max_bytes (node_shared toy_asked)) (events (node_shared toy_asked)).
Proof.
  apply EventQueue.push_inv; [|apply EventQueue.new_queue_inv; vm_compute; congruence].
  exists (with_id 7 (new_event LP2P_EV_RPC_REQUEST)), (text "ping"). split; [done|]. intros E. discriminate E.
Qed.

Lemma turn_told_witness :
  ∃ pr' queue l told, toy_turn (mk_process ∅ {[ 8 := toy_asked ]}) = Some (Ok (Some (told.1, told.2)), pr') ∧
    tells toy_asked 200 0 0 queue l told.2 ∧ memory pr' = ∅.
Proof.
  destruct (turn_told 8 ltac:(lia) toy_asked toy_buffer 0 0 (mk_process ∅ {[ 8 := toy_asked ]}))
    as (r & pr' & E & Em & Hr).
  - apply lookup_singleton_eq.
  - exact toy_asked_inv.
  - by vm_compute.
  - vm_compute. split; congruence.
  - intros s Hs. vm_compute in Hs. discriminate Hs.
  - destruct r as [[buf' told]|].
    + destruct Hr as (_ & queue & l & Ht & _). exists pr', queue, l, (buf', told). split; [exact E|]. split; [exact Ht|exact Em].
    + exfalso. destruct Hr as (_ & Hw & _). vm_compute in Hw. discriminate Hw.
Defined.

(** Two commands, one that is none, and the end of the input. *)
Definition toy_lines : list (nat * option Z * bytes) :=
  (fun line => (0%nat, None, line)) <$> [line_of toy_ask; text "fly"; text "add 1 2"; text "bootstrap"].

Lemma commands_contract_witness :
  ∃ said exit pr', read_commands 8 toy_lines toy_handle = Some (Ok (said, exit), pr') ∧ memory pr' = ∅.
Proof.
  destruct (commands_contract 8 (new_node toy_config) toy_lines toy_handle toy_handle_live ltac:(lia))
    as (said & exit & mid & pr' & E & Em & _).
  exists said, exit, pr'. split; [exact E|exact Em].
Defined.

(** The toy library parses an address of five bytes. *)
Definition toy_env : PeerEnv :=
  mk_peer_env x07 x70 [x04; x7f; x7f; x7f; x7f] (text "/interop/kad/1") false EnvOther.

Lemma peer_started_witness :
  (∃ d pr', peer_start toy_env 5 true (Some LP2P_OK) 8 (mk_process ∅ ∅) = Some (Ok (key_byte x07, key_byte x70, Ok 8), pr') ∧
    Delegation.sign (key_byte x70) (key_byte x07) 0 = Some d ∧ memory pr' = ∅) ∧
  (∃ r pr', peer_start toy_env 5 true None 8 (mk_process ∅ ∅) = Some (Ok r, pr') ∧
    start_said (fun _ => text "peer") r = ([text "ERROR " ++ dec LP2P_ERR_PANIC], Some 1) ∧ handles pr' = ∅).
Proof.
  assert (∀ ready, ∃ d r pr', peer_start toy_env 5 true ready 8 (mk_process ∅ ∅) = Some (Ok r, pr') ∧
    Delegation.sign (key_byte x70) (key_byte x07) 0 = Some d ∧ memory pr' = ∅ ∧
    let s := thread_answer true ready in
    if s =? LP2P_OK then r = (key_byte x07, key_byte x70, Ok 8)
    else start_said (fun _ => text "peer") r = ([text "ERROR " ++ dec s], Some 1) ∧ handles pr' = ∅) as Hp.
  { intros ready.
    destruct (peer_started (I := ToyIdentity) toy_env 5 true ready 8 (key_byte x07 : @Keypair ToyIdentity) (key_byte x07) (key_byte x70 : @Keypair ToyIdentity) (key_byte x70) ([Ip4 (array_fill 4 x7f)] : @Multiaddr _ (ToyMultiaddrs ToyIdentity)) (fun _ => text "peer") (mk_process ∅ ∅))
      as (d & r & pr' & E & Hd & Em & Hr).
    - reflexivity.
    - reflexivity.
    - reflexivity.
    - reflexivity.
    - split; [apply (bool_decide_unpack _); by vm_compute|by vm_compute].
    - exact (f_equal (fmap (fun ip => [Ip4 ip])) (to_array_arr (array_fill 4 x7f))).
    - split; [apply (bool_decide_unpack _); by vm_compute|by vm_compute].
    - reflexivity.
    - lia.
    - by vm_compute.
    - exists d, r, pr'. split; [exact E|]. split; [exact Hd|]. split; [exact Em|]. cbv zeta in Hr |- *.
      destruct (thread_answer true ready =? LP2P_OK); [exact (proj1 Hr)|exact Hr]. }
  split.
  - destruct (Hp (Some LP2P_OK)) as (d & r & pr' & E & Hd & Em & Hr).
    change (thread_answer true (Some LP2P_OK) =? LP2P_OK) with true in Hr. cbv zeta iota in Hr. rewrite Hr in E.
    exists d, pr'. split; [exact E|]. split; [exact Hd|exact Em].
  - destruct (Hp None) as (d & r & pr' & E & _ & _ & Hr).
    change (thread_answer true None =? LP2P_OK) with false in Hr. cbv zeta iota in Hr.
    exists r, pr'. split; [exact E|]. split; [exact (proj1 Hr)|exact (proj2 Hr)].
Defined.
