(* ===== verification/Holepunch.v ===== *)
(** * Holepunch: one node of the hole-punching test, [examples/holepunch.rs]

    The second caller of the C functions: how it starts and polls its node, and
    the loops of its roles. A loop is a function of what it meets, turn by turn:
    the readings of the clock, the events of each poll and the ids of its calls;
    a run that met all of it is still going, has panicked, or has ended. *)

From Stdlib Require Import Strings.String.
From S2P Require Import Prelude Abi Keys Toy Multiaddr AddressBook Libp2p Events NodeState Ffi FfiSpec Startup Client ClientSpec.
From S2P Require Wire Delegation Limits EventQueue Node.

(** ** Runs

    The lines said so far, and how far the run got. *)

Inductive progress (A : Type) := Going | Crashed | Done (a : A).
#[global] Arguments Going {A}.
#[global] Arguments Crashed {A}.
#[global] Arguments Done {A} a.

Definition run (A : Type) : Type := list bytes * progress A.

Definition finish {A} (a : A) : run A := ([], Done a).

(** One computation after the other. *)
Definition after {A B} (r : run A) (k : A → run B) : run B :=
  match r with
  | (said, Done a) => let '(more, p) := k a in (said ++ more, p)
  | (said, Going) => (said, Going)
  | (said, Crashed) => (said, Crashed)
  end.

Notation "x <~ r ; k" := (after r (fun x => k)) (at level 100, r at next level, right associativity).

(** ** Starting and calling *)

Definition PORT : Z := 4001.
Definition PROTOCOLS : list bytes := [text "/holepunch/echo/1"].

Definition addresses (transport ip : bytes) : bytes :=
  if bool_decide (transport = text "quic") then text "/ip4/" ++ ip ++ text "/udp/" ++ dec PORT ++ text "/quic-v1"
  else text "/ip4/" ++ ip ++ text "/tcp/" ++ dec PORT.

(** The fields that are set after [lp2p_options_default]. *)
Definition start_fields (o : lp2p_options) (seed : array 32) (group : lp2p_key) (reachability : Z) (transport : bytes)
    (autonat : bool) (delegation listen_list dht protocol_list : Z) : lp2p_options :=
  mk_options (o_struct_size o) seed delegation LP2P_DELEGATION_BYTES group
    listen_list 1 dht protocol_list 1
    (o_rpc_max_request_bytes o) (o_rpc_max_response_bytes o) (o_rpc_timeout_ms o)
    (if bool_decide (transport = text "quic") then 1 else 0) 1 (if autonat then 1 else 0)
    (o_max_connections o) (o_max_connections_per_peer o) (o_max_pending_incoming o)
    (o_relay o)
    (mk_announce_options 0 (ao_topic (o_announce o)) (ao_max_payload_bytes (o_announce o)))
    (o_event_queue_bytes o) reachability (o_topic_max_message_bytes o) (o_topic_max_subscriptions o).

(** [read_unaligned] and the slice of one turn, at [offset]; [fuel] as in
    [Events.parse]. *)
Fixpoint events_from (fuel : nat) (buf : bytes) (n offset : Z) : option (list Event) :=
  if negb ((0 <? n) && (offset + LP2P_EVENT_HEADER_BYTES <=? n)) then Some []
  else
    match fuel with
    | O => None
    | S fuel =>
        h ← read_header (drop (Z.to_nat offset) buf);
        let start := offset + LP2P_EVENT_HEADER_BYTES in
        if blen buf <? start + ev_data_len h then None
        else
          rest ← events_from fuel buf n (offset + ev_size h);
          Some (mk_parsed h (slice buf (Z.to_nat start) (Z.to_nat (start + ev_data_len h))) :: rest)
    end.

(** [Node::poll] when lp2p_poll answered [n] and left [buf]; [None] is a panic. *)
Definition poll_events (buf : bytes) (n : Z) : option (list Event) := events_from (S (Z.to_nat n)) buf n 0.

Section holepunch.
Context {I : Identity} {MA : Multiaddrs I} {H : Handles} {L : Libp2p I MA H} {A : Allocator}.

Notation "x <-! m ; k" := (fbind m (fun x => k)) (at level 100, m at next level, right associativity).

(** [start]: the key and the handle of the node. *)
Definition start (seed group_seed : array 32) (reachability : Z) (transport : bytes) (autonat : bool)
    (now_ms : Z) (spawned : bool) (ready : option Z) (address : Z) : F (Z * lp2p_key) :=
  key <-! key_from seed;
  delegation <-! sign_delegation group_seed key;
  listen <-! cstring (addresses transport (text "0.0.0.0"));
  place delegation (fun pd =>
  place listen (fun pl =>
  place (le_bytes 8 pl) (fun pll =>
  dht <-! cstring (text "/holepunch/kad/1");
  place dht (fun ph =>
  place_strings PROTOCOLS [] (fun pp =>
  o <-! default_from_library;
  group <-! key_from group_seed;
  place (options_bytes (start_fields o seed group reachability transport autonat pd pll ph pp)) (fun po =>
  place (le_bytes 8 0) (fun pout =>
  s <-! calling (lp2p_start po pout now_ms spawned ready address);
  _ <-! assert_ok s;
  raw <-! load_bytes pout 8;
  pure (Ok (le_value raw, key))))))))).

(** [Node::add_address] and [Node::call]. *)
Definition add_address (node : Z) (key : lp2p_key) (address : bytes) : F () :=
  c <-! cstring address;
  place (arr key) (fun pk => place c (fun pa =>
    s <-! calling (lp2p_add_address node pk pa);
    assert_ok s)).

Definition call (node : Z) (group target : lp2p_key) : F Z :=
  place (text "ping") (fun p => place (arr group) (fun pg => place (arr target) (fun pt => place (le_bytes 8 0) (fun pid =>
    s <-! calling (lp2p_rpc_request node pg pt 0 p 4 10000 pid);
    _ <-! assert_ok s;
    raw <-! load_bytes pid 8;
    pure (Ok (le_value raw)))))).

(** ** The roles' nodes

    What each role of [main] does before its loop; the result is the handle. *)

Definition relay_seed : array 32 := array_fill 32 x01.
Definition listener_seed : array 32 := array_fill 32 x02.
Definition dialer_seed : array 32 := array_fill 32 x03.
Definition relay_group : array 32 := array_fill 32 x11.
Definition listener_group : array 32 := array_fill 32 x22.
Definition dialer_group : array 32 := array_fill 32 x33.

(** The call to lp2p_dht_bootstrap; its status is not looked at. *)
Definition bootstrap (node : Z) : F () :=
  place (le_bytes 8 0) (fun pid => _ <-! calling (lp2p_dht_bootstrap node pid); pure (Ok ())).

Section roles.
Context (transport relay_ip : bytes) (now_ms : Z) (spawned : bool) (ready : option Z) (address : Z).

Definition relay_start : F Z :=
  r <-! start relay_seed relay_group LP2P_REACH_PUBLIC transport true now_ms spawned ready address;
  pure (Ok r.1).

Definition listener_start (relay_key : lp2p_key) : F Z :=
  r <-! start listener_seed listener_group LP2P_REACH_PRIVATE transport false now_ms spawned ready address;
  _ <-! add_address r.1 relay_key (addresses transport relay_ip);
  _ <-! bootstrap r.1;
  pure (Ok r.1).

(** The seed of the group is 0x40 more, modulo 256. *)
Definition autonat_start (relay_key : lp2p_key) (seed : byte) : F Z :=
  r <-! start (array_fill 32 seed) (array_fill 32 (byte_of ((byte_val seed + 0x40) mod 256)))
          LP2P_REACH_UNKNOWN transport true now_ms spawned ready address;
  _ <-! add_address r.1 relay_key (addresses transport relay_ip);
  _ <-! bootstrap r.1;
  pure (Ok r.1).

(** [relay_peer] is the relay's peer id as text, [None] the panic of its
    [unwrap]; the result has the listener's keys, too. *)
Definition dialer_start (relay_key : lp2p_key) (relay_peer : option bytes) : F (Z * lp2p_key * lp2p_key) :=
  r <-! start dialer_seed dialer_group LP2P_REACH_PRIVATE transport false now_ms spawned ready address;
  _ <-! add_address r.1 relay_key (addresses transport relay_ip);
  listener_key <-! key_from listener_seed;
  peer <-! pure (ok_or relay_peer PANIC_EXIT);
  _ <-! add_address r.1 listener_key (addresses transport relay_ip ++ text "/p2p/" ++ peer ++ text "/p2p-circuit");
  group_key <-! key_from listener_group;
  pure (Ok (r.1, listener_key, group_key)).

End roles.

(** What the listener does for an event before it describes it. *)
Definition answer (node : Z) (e : Event) : F () :=
  if ev_type (event_header e) =? LP2P_EV_RPC_REQUEST then
    place (text "pong") (fun p => _ <-! calling (lp2p_rpc_respond node (ev_id (event_header e)) p 4); pure (Ok ()))
  else pure (Ok ()).

(** ** Events as lines *)

Context (display : PeerId → bytes).

(** [peer_id(&key)], as text; [None] is the panic of its [unwrap]. *)
Definition peer_text (key : lp2p_key) : option bytes := display <$> peer_id key.

Definition describe (e : Event) : option (option bytes) :=
  let h := event_header e in
  let d := from_utf8_lossy (event_data e) in
  if ev_type h =? LP2P_EV_LISTENING then Some (Some (text "listening " ++ d))
  else if ev_type h =? LP2P_EV_PEER_CONNECTED then
    p ← peer_text (ev_node h); Some (Some (text "connected " ++ p ++ text " over " ++ d))
  else if ev_type h =? LP2P_EV_HOLE_PUNCH then
    Some (Some ((if ev_reason h =? 0 then text "hole punched, direct " else text "hole punch failed: ") ++ d))
  else if ev_type h =? LP2P_EV_RPC_FAILED then Some (Some (text "call failed, reason " ++ dec (ev_reason h)))
  else if ev_type h =? LP2P_EV_REACHABILITY then Some (Some (text "reachability " ++ dec (ev_reason h)))
  else Some None.

(** [if let Some(line) = describe(&event) { say(&role, line) }] *)
Definition tell (role : bytes) (e : Event) : run () :=
  match describe e with
  | None => ([], Crashed)
  | Some None => finish ()
  | Some (Some line) => ([role ++ text ": " ++ line], Done ())
  end.

(** The loop of the relay over the events of a poll. *)
Fixpoint relay_events (role : bytes) (events : list Event) : run () :=
  match events with
  | [] => finish ()
  | e :: events => _ <~ tell role e; relay_events role events
  end.

(** The listener's: every request is answered, then described like the rest. *)
Fixpoint listener_events (role : bytes) (node : Z) (events : list Event) : F (run ()) :=
  match events with
  | [] => pure (Ok (finish ()))
  | e :: events =>
      _ <-! answer node e;
      match tell role e with
      | (said, Done _) => rest <-! listener_events role node events; pure (Ok (said ++ rest.1, rest.2))
      | r => pure (Ok r)
      end
  end.

(** ** The AutoNAT client *)

(** One turn of a loop: the clock where its condition is checked, and the events
    of the poll behind it. *)
Record turn := mk_turn { clock : Z; polled : list Event }.

Fixpoint autonat_events (role : bytes) (events : list Event) (verdict : option Z) : run (option Z) :=
  match events with
  | [] => finish verdict
  | e :: events =>
      _ <~ tell role e;
      let h := event_header e in
      autonat_events role events
        (if (ev_type h =? LP2P_EV_REACHABILITY) && negb (ev_reason h =? LP2P_REACH_UNKNOWN)
         then Some (ev_reason h) else verdict)
  end.

(** [while verdict.is_none() && Instant::now() < deadline] *)
Fixpoint autonat_loop (role : bytes) (deadline : Z) (turns : list turn) (verdict : option Z) : run (option Z) :=
  match verdict with
  | Some _ => finish verdict
  | None =>
      match turns with
      | [] => ([], Going)
      | t :: turns =>
          if clock t <? deadline then
            verdict <~ autonat_events role (polled t) verdict;
            autonat_loop role deadline turns verdict
          else finish None
      end
  end.

Definition autonat_result (verdict : option Z) : bytes * Z :=
  match verdict with
  | Some r => if r =? LP2P_REACH_PUBLIC then (text "public", 0) else (text "private", 1)
  | None => (text "unknown", 2)
  end.

(** The role from its deadline on, which is a minute after [started]. *)
Definition autonat_client (role transport : bytes) (started : Z) (turns : list turn) : run Z :=
  verdict <~ autonat_loop role (started + seconds 60) turns None;
  let '(t, code) := autonat_result verdict in
  ([role ++ text ": RESULT impl=rust transport=" ++ transport ++ text " reachability=" ++ t], Done code).

(** ** The dialer *)

Record dialer := mk_dialer { answered : bool; first_connection : bytes; punched : option (result bytes bytes) }.
#[export] Instance eta_dialer : Eta dialer := {| eta d := mk_dialer (answered d) (first_connection d) (punched d) |}.

Definition punch_of (e : Event) : result bytes bytes :=
  let d := from_utf8_lossy (event_data e) in
  if ev_reason (event_header e) =? 0 then Ok d else Err d.

(** The events of a poll while the call [id] is under way; the result is whether
    the loop over the polls is left ([break 'call]). *)
Fixpoint call_events (role : bytes) (listener : lp2p_key) (id : Z) (events : list Event) (d : dialer) : run (dialer * bool) :=
  match events with
  | [] => finish (d, false)
  | e :: events =>
      _ <~ tell role e;
      let h := event_header e in
      if (ev_type h =? LP2P_EV_PEER_CONNECTED) && bool_decide (ev_node h = listener) then
        call_events role listener id events (d <| first_connection := from_utf8_lossy (event_data e) |>)
      else if (ev_type h =? LP2P_EV_HOLE_PUNCH) && bool_decide (ev_node h = listener) then
        call_events role listener id events (d <| punched := Some (punch_of e) |>)
      else if (ev_type h =? LP2P_EV_RPC_RESPONSE) && (ev_id h =? id) then finish (d <| answered := true |>, true)
      else if (ev_type h =? LP2P_EV_RPC_FAILED) && (ev_id h =? id) then finish (d, true)
      else call_events role listener id events d
  end.

(** ['call: while Instant::now() < call_deadline] *)
Fixpoint call_loop (role : bytes) (listener : lp2p_key) (id call_deadline : Z) (turns : list turn) (d : dialer) : run dialer :=
  match turns with
  | [] => ([], Going)
  | t :: turns =>
      if clock t <? call_deadline then
        r <~ call_events role listener id (polled t) d;
        if r.2 : bool then finish r.1 else call_loop role listener id call_deadline turns r.1
      else finish d
  end.

(** One turn of the outer loop: its clock, the id of the call, the clock after
    it, and the turns of the loop inside. *)
Record attempt := mk_attempt { began : Z; call_id : Z; called : Z; call_turns : list turn }.

(** [while !answered && Instant::now() < deadline] *)
Fixpoint dial_loop (role : bytes) (listener : lp2p_key) (deadline : Z) (attempts : list attempt) (d : dialer) : run dialer :=
  if answered d then finish d
  else
    match attempts with
    | [] => ([], Going)
    | a :: attempts =>
        if began a <? deadline then
          d <~ call_loop role listener (call_id a) (called a + seconds 12) (call_turns a) d;
          dial_loop role listener deadline attempts d
        else finish d
    end.

(** The loop that waits for DCUtR. *)
Fixpoint punch_events (role : bytes) (listener : lp2p_key) (events : list Event) (punched : option (result bytes bytes)) :
    run (option (result bytes bytes)) :=
  match events with
  | [] => finish punched
  | e :: events =>
      _ <~ tell role e;
      let h := event_header e in
      punch_events role listener events
        (if (ev_type h =? LP2P_EV_HOLE_PUNCH) && bool_decide (ev_node h = listener) then Some (punch_of e) else punched)
  end.

Fixpoint punch_loop (role : bytes) (listener : lp2p_key) (deadline : Z) (turns : list turn) (punched : option (result bytes bytes)) :
    run (option (result bytes bytes)) :=
  match punched with
  | Some _ => finish punched
  | None =>
      match turns with
      | [] => ([], Going)
      | t :: turns =>
          if clock t <? deadline then
            punched <~ punch_events role listener (polled t) punched;
            punch_loop role listener deadline turns punched
          else finish None
      end
  end.

(** [haystack.contains(needle)] *)
Fixpoint contains (needle haystack : bytes) : bool :=
  bool_decide (needle `prefix_of` haystack) || match haystack with [] => false | _ :: haystack => contains needle haystack end.

Definition outcome_of (punched : option (result bytes bytes)) : bytes * Z :=
  match punched with
  | Some (Ok address) => (text "hole_punch=direct address=" ++ address, 0)
  | Some (Err error) => (text "hole_punch=failed error=" ++ error, 1)
  | None => (text "hole_punch=none", 1)
  end.

Definition bool_text (b : bool) : bytes := if b then text "true" else text "false".

(** The role from its first deadline on; [waits] is the clock where the second
    one is set, and [late] are the turns of the loop behind it. *)
Definition dial (role transport : bytes) (listener : lp2p_key) (started : Z) (attempts : list attempt)
    (waits : Z) (late : list turn) : run Z :=
  d <~ dial_loop role listener (started + seconds 60) attempts (mk_dialer false [] None);
  let result := role ++ text ": RESULT impl=rust transport=" ++ transport in
  if negb (answered d) then ([result ++ text " rpc=failed"], Done 2)
  else
    punched <~ punch_loop role listener (waits + seconds 30) late (punched d);
    let '(outcome, code) := outcome_of punched in
    ([result ++ text " rpc=ok first_connection_relayed=" ++ bool_text (contains (text "/p2p-circuit") (first_connection d)) ++
      text " " ++ outcome], Done code).

End holepunch.

(** ** Lemmas on runs *)

Lemma after_Done {A B} (r : run A) (k : A → run B) b :
  (after r k).2 = Done b → ∃ a, r.2 = Done a ∧ (k a).2 = Done b.
Proof. destruct r as [said [| |a]]; cbn; [done..|]. destruct (k a) as [more p] eqn:E. cbn. intros ->. exists a. by rewrite E. Qed.

Lemma after_done {A B} (r : run A) (k : A → run B) a : r.2 = Done a → (after r k).2 = (k a).2.
Proof. destruct r as [said p]. cbn. intros ->. cbn. by destruct (k a). Qed.

Lemma finish_Done {A} (a b : A) : (finish a).2 = Done b → a = b.
Proof. by intros [=]. Qed.


(** ** Polling *)

Lemma events_from_records l : ∀ fuel pre rest,
  Forall (fun e => event_wf e.1 e.2) l → (length l <= fuel)%nat →
  events_from fuel (pre ++ records_of l ++ rest) (blen (pre ++ records_of l)) (blen pre) =
    Some ((fun e => expected e.1 e.2) <$> l).
Proof.
  induction l as [|[b d] l IH]; intros fuel pre rest Hok Hfuel.
  - unfold records_of. cbn [fmap list_fmap concat]. rewrite app_nil_r.
    assert ((blen pre + LP2P_EVENT_HEADER_BYTES <=? blen pre) = false) as Hend by (unfold LP2P_EVENT_HEADER_BYTES; lia).
    destruct fuel; cbn [events_from]; by rewrite Hend, andb_false_r.
  - destruct fuel as [|fuel]; [cbn in Hfuel; lia|]. apply Forall_cons in Hok as [Hwf Hok]. cbn [fst snd] in *.
    unfold records_of in *. rewrite !fmap_cons. cbn [concat fst snd]. rewrite <- (app_assoc (data b d)).
    set (more := concat _) in *. destruct (record_at pre b d (more ++ rest) Hwf) as (Eh & _ & El & Hsize & Enext & Eslice).
    set (e := event_header (expected b d)) in *. set (buf := pre ++ data b d ++ more ++ rest) in *.
    assert (blen (pre ++ data b d ++ more) = blen (pre ++ data b d) + blen more) as Elen by (rewrite app_assoc; apply blen_app).
    assert (blen buf = blen (pre ++ data b d ++ more) + blen rest) as Ebuf by (unfold buf; rewrite !blen_app; lia).
    pose proof (blen_nonneg more). pose proof (blen_nonneg rest). pose proof (blen_nonneg d). pose proof (blen_nonneg pre). cbn [events_from].
    assert (((0 <? blen (pre ++ data b d ++ more)) && (blen pre + LP2P_EVENT_HEADER_BYTES <=? blen (pre ++ data b d ++ more))) = true) as ->.
    { unfold LP2P_EVENT_HEADER_BYTES in *. lia. }
    cbn [negb]. rewrite Eh. cbn [mbind option_bind]. rewrite El, Eslice.
    assert ((blen buf <? blen pre + LP2P_EVENT_HEADER_BYTES + blen d) = false) as -> by lia. rewrite Enext.
    assert (buf = (pre ++ data b d) ++ more ++ rest) as -> by (unfold buf; by rewrite <- app_assoc).
    rewrite (app_assoc pre). rewrite (IH fuel (pre ++ data b d) rest Hok) by (cbn in Hfuel; lia). done.
Qed.

Section uses.
Context {I : Identity} {IL : IdentityLaws I} {MA : Multiaddrs I} {H : Handles} {L : Libp2p I MA H}.
Context {A : Allocator} {AL : AllocatorLaws A}.

(** [Node::call] on a live handle: the id, and the command on the channel. *)
Lemma call_run node n group target m hs :
  hs !! node = Some n → node ≠ 0 → poisoned (node_shared n) = false → node_receiving n = true →
  let id := next_id (node_shared n) in
  let c := Rpc id group (Some target) 0 (text "ping") (millis 10000) in
  0 ≤ id < 2 ^ 64 → command_ok n c →
  call node group target (mk_process m hs) = Some (Ok id, mk_process m (<[node := with_command c (id_taken n)]> hs)).
Proof.
  intros Hn H0 Hpois Hrecv id c Hid (_ & Hprot & Hlen & Hpeer). unfold call.
  apply place_read. intros p Hp Hu. apply place_read. intros pg Hpg Hug. apply place_read. intros pt Hpt Hut.
  apply place_run. intros pid Hpid Huid. exists (le_bytes 8 id). split; [by rewrite !length_le_bytes|].
  eapply fbind_eq.
  { apply (calling_run _ _ (Ok LP2P_OK)). unfold lp2p_rpc_request.
    eapply fbind_eq; [by apply handle_run|]. cbv beta.
    eapply fbind_eq; [apply key_run; [done|cbn [memory]; do 2 (apply load_placed; [|done]); apply load_put]|]. cbv beta.
    rewrite (proj2 (Z.eqb_neq pt 0)) by lia.
    eapply fbind_eq.
    { eapply fbind_eq; [apply key_run; [done|cbn [memory]; apply load_placed; [apply load_put|done]]|]. reflexivity. }
    cbv beta. eapply fbind_eq; [apply (byte_slice_run p (text "ping")); [done|cbn [memory]; do 3 (apply load_placed; [|done]); apply load_put]|].
    cbv beta. eapply fbind_eq.
    { apply require_run. change (blen (text "ping")) with 4 in Hlen. rewrite (proj2 (Z.eqb_neq pid 0)) by lia. lia. }
    cbv beta. eapply fbind_eq; [apply require_run; by apply bool_decide_true|]. cbv beta.
    eapply fbind_eq; [by apply next_id_run|]. cbv beta zeta. change (10000 =? 0) with false. cbv iota.
    eapply fbind_eq; [apply send_run; [apply lookup_insert_eq|exact Hpois|exact Hrecv]|]. cbv beta. change (LP2P_OK =? LP2P_OK) with true. cbv iota.
    eapply fbind_eq; [apply store_run; by rewrite !length_le_bytes|]. reflexivity. }
  cbv beta. eapply fbind_eq; [reflexivity|]. cbv beta.
  eapply fbind_eq; [apply (load_bytes_run _ _ (le_bytes 8 id)); [apply load_put|unfold blen; by rewrite length_le_bytes]|].
  cbv beta. rewrite le_value_bytes, wrap_small by exact Hid. rewrite insert_insert_eq. reflexivity.
Qed.


(** [start] gives the handle of a fresh node, as the line-driven peer's does. *)
Definition settings (seed : array 32) (group : lp2p_key) (reachability : Z) (transport : bytes) (autonat : bool) : lp2p_options :=
  start_fields default_options seed group reachability transport autonat 0 0 0 0.

Lemma start_fields_wf seed group reachability transport autonat pd pl ph pp :
  0 < pd < 2 ^ 64 → 0 < pl < 2 ^ 64 → 0 < ph < 2 ^ 64 → 0 < pp < 2 ^ 64 → 0 ≤ reachability < 2 ^ 8 →
  options_wf (start_fields default_options seed group reachability transport autonat pd pl ph pp).
Proof.
  intros Hd Hl Hh Hp Hr. unfold options_wf, fields, fits.
  repeat (apply Forall_cons; split); cbn [field_wf]; try exact Logic.I; unfold fits; cbn -[Z.pow Z.mul text];
    first [lia | by vm_compute | case_bool_decide; by vm_compute | destruct autonat; by vm_compute].
Qed.

Lemma started seed group_seed reachability reach transport autonat now_ms address kp key gkp group listen m hs :
  keypair_from_seed seed = Some kp → public_key kp = Some key →
  keypair_from_seed group_seed = Some gkp → public_key gkp = Some group →
  is_text (addresses transport (text "0.0.0.0")) → parse_multiaddr (addresses transport (text "0.0.0.0")) = Some listen →
  reachability_from reachability = Ok reach → 0 ≤ reachability < 2 ^ 8 →
  0 ≤ address < 2 ^ 64 → Z.of_nat (size m) < 2 ^ 30 →
  ∃ d, Delegation.sign group_seed key 0 = Some d ∧
    start seed group_seed reachability transport autonat now_ms true (Some LP2P_OK) address (mk_process m hs) =
      Some (Ok (address, key), mk_process m (<[address :=
        new_node (config_made (settings seed group reachability transport autonat) d [listen] (text "/holepunch/kad/1") PROTOCOLS reach)]> hs)).
Proof.
  intros Hkp Hkey Hgkp Hgroup Hlt Hlisten Hreach Hreach8 Haddress Hsize.
  destruct (signs _ _ _ key Hgkp Hgroup) as (d & Hsign & Hdg). exists d. split; [done|].
  destruct (Delegation.sign_wf _ _ 0 _ ltac:(lia) Hsign) as (Hdwf & Hdn & _).
  pose proof (Delegation.length_to_bytes d) as Hdlen. unfold LP2P_DELEGATION_BYTES in Hdlen.
  set (name := addresses transport (text "0.0.0.0")) in *. set (dht := text "/holepunch/kad/1").
  assert (blen (name ++ [x00]) ≤ 64) as Hnl.
  { unfold name, addresses. rewrite blen_app. case_bool_decide; by vm_compute. }
  assert (is_text dht) as Hdt by (split; [apply (bool_decide_unpack _); by vm_compute|by vm_compute]).
  assert (strings_bytes PROTOCOLS + 8 * Z.of_nat (length (@nil Z) + length PROTOCOLS) = 26) as Hpb by (vm_compute; reflexivity).
  unfold start. eapply fbind_eq; [by apply (key_from_run _ kp)|]. cbv beta.
  eapply fbind_eq; [by apply sign_delegation_run|]. cbv beta.
  eapply fbind_eq; [unfold cstring; fold name; rewrite bool_decide_false by apply Hlt; reflexivity|]. cbv beta.
  apply place_low; [lia|lia|]. intros pd Hpd Hud. pose proof (size_put m pd (Delegation.to_bytes d)) as Hs1.
  pose proof (load_put m pd (Delegation.to_bytes d)) as Hld. set (m1 := put m pd (Delegation.to_bytes d)) in *.
  apply place_low; [lia|lia|]. intros pl Hpl Hul. pose proof (size_put m1 pl (name ++ [x00])) as Hs2.
  pose proof (load_put m1 pl (name ++ [x00])) as Hll. pose proof (extends_put m1 pl _ Hul) as He2. set (m2 := put m1 pl (name ++ [x00])) in *.
  apply place_low; [lia|unfold blen; rewrite length_le_bytes; lia|]. intros pll Hpll Hull. pose proof (size_put m2 pll (le_bytes 8 pl)) as Hs3.
  pose proof (load_put m2 pll (le_bytes 8 pl)) as Hlll. pose proof (extends_put m2 pll _ Hull) as He3. set (m3 := put m2 pll (le_bytes 8 pl)) in *.
  assert (blen (le_bytes 8 pl) = 8) as Hpb8 by (unfold blen; by rewrite length_le_bytes).
  eapply fbind_eq; [unfold cstring; rewrite bool_decide_false by apply Hdt; reflexivity|]. cbv beta. fold dht.
  assert (blen (dht ++ [x00]) = 17) as Hdl by (by vm_compute).
  apply place_low; [lia|lia|]. intros ph Hph Huh. pose proof (size_put m3 ph (dht ++ [x00])) as Hs4.
  pose proof (load_put m3 ph (dht ++ [x00])) as Hlh. pose proof (extends_put m3 ph _ Huh) as He4. set (m4 := put m3 ph (dht ++ [x00])) in *.
  apply (place_strings_run PROTOCOLS [] []); [repeat constructor; apply (bool_decide_unpack _); by vm_compute|done|lia|].
  intros pp m5 Hpp He5 Hl5 Hs5. cbn [app] in Hl5.
  eapply fbind_eq; [apply default_from_library_run|]. cbv beta.
  eapply fbind_eq; [by apply (key_from_run _ gkp)|]. cbv beta.
  set (o := start_fields default_options seed group reachability transport autonat pd pll ph pp).
  pose proof (length_options_bytes o) as Hob. unfold sizeof_lp2p_options in Hob.
  apply place_low; [lia|unfold blen; lia|]. intros po Hpo Huo.
  pose proof (load_put m5 po (options_bytes o)) as Hlo. set (m6 := put m5 po (options_bytes o)) in *.
  assert (extends m5 m6) as He6 by by apply extends_put.
  assert (extends m4 m6) as He46 by by etrans. assert (extends m3 m6) as He36 by by etrans.
  assert (extends m2 m6) as He26 by by etrans. assert (extends m1 m6) as He16 by by etrans.
  assert (usable m6 o d [name] [listen] dht PROTOCOLS reach) as Huse.
  { split.
    - by apply start_fields_wf.
    - reflexivity.
    - split_and!; [exact (proj1 Hpd)|reflexivity|by apply He16|done|done].
    - split_and!; [|reflexivity|by repeat constructor; apply Hlt|cbn [parse_addresses]; by rewrite Hlisten].
      split; [exact (proj1 Hpll)|]. exists [pl]. split; [repeat constructor; [exact (proj1 Hpl)|exact (proj2 Hpl)|by apply He26]|].
      rewrite fmap_cons. cbn [fmap list_fmap concat]. rewrite app_nil_r. by apply He36.
    - split_and!; [|exact Hdt|done]. split; [exact Hph|by apply He46].
    - split_and!; [exact (strings_extends _ _ _ _ He6 Hl5)|reflexivity| |by vm_compute].
      repeat constructor; try (apply (bool_decide_unpack _); by vm_compute); by vm_compute.
    - split_and!; by vm_compute.
    - reflexivity.
    - exact Hreach. }
  apply place_run. intros pout Hpout Huout. exists (le_bytes 8 address). split; [by rewrite !length_le_bytes|].
  eapply fbind_eq.
  { apply (calling_run _ _ (Ok LP2P_OK)). eapply (lp2p_start_run m6 hs po pout o d); [lia|done|done|done|exact Huse|exact Hkp|exact Hkey|].
    apply (Delegation.sign_verify_for _ _ _ _ _ _ Hsign). split; [done|by left]. }
  cbv beta. eapply fbind_eq; [reflexivity|]. cbv beta.
  eapply fbind_eq; [apply (load_bytes_run _ _ (le_bytes 8 address)); [apply load_put|unfold blen; by rewrite length_le_bytes]|].
  cbv beta. rewrite le_value_bytes, wrap_small by exact Haddress. reflexivity.
Qed.

End uses.


Section results.
Context {I : Identity} (display : PeerId → bytes).

(** Events that can be described: a connected peer has a peer id. *)
Definition describable (e : Event) : Prop :=
  ev_type (event_header e) = LP2P_EV_PEER_CONNECTED → is_Some (peer_id (ev_node (event_header e))).

Lemma tell_done role e : describable e → (tell display role e).2 = Done ().
Proof.
  intros Hd. unfold tell, describe, describable, peer_text in *.
  destruct (ev_type (event_header e) =? LP2P_EV_LISTENING); [done|].
  destruct (Z.eqb_spec (ev_type (event_header e)) LP2P_EV_PEER_CONNECTED) as [E|].
  { destruct (Hd E) as [p ->]. done. }
  repeat (case_match; try done); simplify_eq.
Qed.

Definition is_answer (id : Z) (e : Event) : Prop :=
  ev_type (event_header e) = LP2P_EV_RPC_RESPONSE ∧ ev_id (event_header e) = id.

(** The events that the turns [turns] polled. *)
Definition polled_in (turns : list turn) (e : Event) : Prop := ∃ t, t ∈ turns ∧ e ∈ polled t.

Lemma polled_here t turns e : e ∈ polled t → polled_in (t :: turns) e.
Proof. exists t. split; [by left|done]. Qed.

Lemma polled_later t turns e : polled_in turns e → polled_in (t :: turns) e.
Proof. intros (t' & Ht & He). exists t'. split; [by right|done]. Qed.

(** The turns before the deadline. *)
Fixpoint in_time (deadline : Z) (turns : list turn) : list turn :=
  match turns with
  | [] => []
  | t :: turns => if clock t <? deadline then t :: in_time deadline turns else []
  end.

(** *** What the dialer goes by

    Written without its loops: the stretch of events a call listens to, the
    calls that are made, and what is said in them. *)
















(** *** The loops, without their order *)











(** The answer ends the call at once: what the same poll brought behind it is
    not looked at, not even a hole punched to the listener. *)
Lemma behind_the_answer role listener id e events d :
  is_answer id e → call_events display role listener id (e :: events) d = call_events display role listener id [e] d.
Proof.
  intros [Ht Hid]. cbn [call_events]. rewrite Ht, Hid, !Z.eqb_refl.
  change (LP2P_EV_RPC_RESPONSE =? LP2P_EV_PEER_CONNECTED) with false.
  change (LP2P_EV_RPC_RESPONSE =? LP2P_EV_HOLE_PUNCH) with false. reflexivity.
Qed.

(** *** The AutoNAT client *)

Definition verdict_in (e : Event) : option Z :=
  let h := event_header e in
  if (ev_type h =? LP2P_EV_REACHABILITY) && negb (ev_reason h =? LP2P_REACH_UNKNOWN) then Some (ev_reason h) else None.

(** The last verdict of the first poll in time that had one. *)
Definition first_verdict (deadline : Z) (turns : list turn) : option Z :=
  head (omap (fun t => last (omap verdict_in (polled t))) (in_time deadline turns)).

Lemma autonat_events_verdict role events v :
  Forall describable events →
  (autonat_events display role events v).2 =
    Done (match last (omap verdict_in events) with Some x => Some x | None => v end).
Proof.
  intros He. revert v. induction He as [|e events Hd He IH]; intros v; [done|]. cbn [autonat_events].
  rewrite (after_done _ _ ()) by by apply tell_done. cbv zeta. rewrite IH.
  assert (omap verdict_in (e :: events) =
    match verdict_in e with Some x => x :: omap verdict_in events | None => omap verdict_in events end) as -> by done.
  set (later := omap verdict_in events). unfold verdict_in.
  destruct ((ev_type (event_header e) =? LP2P_EV_REACHABILITY) && _); [|done]. destruct later as [|x l]; [done|].
  change (last (ev_reason (event_header e) :: x :: l)) with (last (x :: l)).
  destruct (last (x :: l)) eqn:E; [done|by apply last_None in E].
Qed.

(** The AutoNAT client exits with the verdict it heard: 0 for public and 1
    for private by the last word of the first poll within a minute that had a
    verdict at all, and 2 when there was none. *)
Theorem autonat_client_verdict role transport started turns :
  (∀ e, polled_in turns e → describable e) → (∃ t, t ∈ turns ∧ started + seconds 60 ≤ clock t) →
  (autonat_client display role transport started turns).2 =
    Done (match first_verdict (started + seconds 60) turns with
          | Some r => if r =? LP2P_REACH_PUBLIC then 0 else 1
          | None => 2
          end).
Proof.
  intros Hd Ht. set (deadline := started + seconds 60) in *.
  assert ((autonat_loop display role deadline turns None).2 = Done (first_verdict deadline turns)) as E.
  2:{ unfold autonat_client. fold deadline. rewrite (after_done _ _ _ E). unfold autonat_result. by repeat case_match; simplify_eq. }
  unfold first_verdict. induction turns as [|t turns IH]; [by destruct Ht as (t & []%not_elem_of_nil & _)|].
  cbn [autonat_loop in_time]. destruct (Z.ltb_spec (clock t) deadline) as [Hlt|]; [|done].
  rewrite (after_done _ _ _ (autonat_events_verdict role (polled t) None ltac:(apply Forall_forall; intros e He; by apply Hd, polled_here))).
  cbn [omap list_omap]. destruct (last (omap verdict_in (polled t))) as [x|]; [by destruct turns|].
  apply IH.
  - intros e He. by apply Hd, polled_later.
  - destruct Ht as (t' & Ht & Hc). exists t'. split; [|done]. apply elem_of_cons in Ht as [->|]; [lia|done].
Qed.

End results.

(** ** Witnesses

    The listener is the key 02..02; its answer comes one second after the call,
    the hole punch three seconds later. *)

Definition toy_listener : lp2p_key := key_byte x02.

Definition toy_display (p : @PeerId ToyIdentity) : bytes := match p with Some k => hex (arr k) | None => text "?" end.

Definition toy_event (kind id reason : Z) (d : bytes) : Event :=
  mk_parsed (mk_event kind 0 0 id zero_key toy_listener 0 reason (blen d)) d.

Definition toy_answer : Event := toy_event LP2P_EV_RPC_RESPONSE 1 0 (text "pong").
Definition toy_punch : Event := toy_event LP2P_EV_HOLE_PUNCH 0 0 (text "/ip4/1.2.3.4/tcp/4001").

Definition toy_attempts (events : list Event) : list attempt :=
  [mk_attempt 0 1 0 [mk_turn (seconds 1) events; mk_turn (seconds 12) []]; mk_attempt (seconds 60) 2 0 [mk_turn (seconds 12) []]].

Definition toy_late (events : list Event) : list turn := [mk_turn (seconds 4) events; mk_turn (seconds 31) []].

Definition toy_dial (events late : list Event) : run Z :=
  dial toy_display (text "dialer") (text "tcp") toy_listener 0 (toy_attempts events) (seconds 1) (toy_late late).

(** Heard apart, the answer and the hole punch make the dialer exit with 0; in
    one poll they make it exit with 1, and say that there was none. *)
Example punch_behind_answer_lost :
  (toy_dial [toy_answer] [toy_punch]).2 = Done 0 ∧
  (toy_dial [toy_answer; toy_punch] []).2 = Done 1 ∧
  last (toy_dial [toy_answer; toy_punch] []).1 =
    Some (text "dialer: RESULT impl=rust transport=tcp rpc=ok first_connection_relayed=false hole_punch=none").
Proof. split_and!; vm_compute; reflexivity. Qed.

Lemma toy_describable e : describable (I := ToyIdentity) e.
Proof. intros _. by eexists. Qed.



Lemma autonat_client_verdict_witness :
  (autonat_client toy_display (text "client") (text "tcp") 0
    [mk_turn 5 [toy_event LP2P_EV_REACHABILITY 0 LP2P_REACH_UNKNOWN []];
     mk_turn 6 [toy_event LP2P_EV_REACHABILITY 0 LP2P_REACH_PRIVATE []; toy_event LP2P_EV_REACHABILITY 0 LP2P_REACH_PUBLIC []];
     mk_turn (seconds 60) []]).2 = Done 0.
Proof.
  apply (autonat_client_verdict toy_display).
  - intros e _. apply toy_describable.
  - exists (mk_turn (seconds 60) []). split; [right; right; by left|by vm_compute].
Defined.



