(* ===== verification/Tests.v ===== *)
(** * Tests: the repository's unit tests, run on the models

    The [mod tests] of src/, transcribed: each test is a boolean that the kernel
    evaluates, with the assertions of the source in their order. They are no
    theorems about the program, but a check that the models compute what the
    program is known to compute. A random peer is one of different peers of the
    toy identity layer, an instant any number; a test needs SHA-256 and is left
    out ([the_provider_key_is_the_multihash_js_libp2p_names_by_cid]). *)

From Stdlib Require Import Strings.String.
From S2P Require Import Prelude F64 Abi Keys Toy Events Client.
From S2P Require Limits Wire Delegation EventQueue NodeState Ffi.

(** ** Assertions

    A test over a state: [None] once an assertion has failed. *)
Definition Script (S : Type) : Type := S → option S.

Definition expect {S} (ok : S → bool) : Script S := fun s => if ok s then Some s else None.
Definition change {S} (f : S → S) : Script S := fun s => Some (f s).
Fixpoint play {S} (steps : list (Script S)) : Script S :=
  match steps with [] => Some | step :: steps => fun s => s ← step s; play steps s end.
Definition passes {S} (steps : list (Script S)) (s : S) : bool := bool_decide (is_Some (play steps s)).

(** ** src/limits.rs *)

Module limits.
Import Limits.

Definition GROUP : lp2p_key := key_byte x01.
Definition peer (n : Z) : @PeerId ToyIdentity := Some (key_byte (byte_of n)).

Definition request (p : @PeerId ToyIdentity) (ip : option IpAddr) (protocol : Z) : Limits.Request :=
  mk_request GROUP p ip protocol.

Definition v4 (a b c d : byte) : option IpAddr := V4 <$> to_array 4 [a; b; c; d].

Definition check (r : Limits.Request) (bytes : Z) (now : Instant) (answer : result () Z) : Script Limits := fun self =>
  let '(a, self) := Limits.check r bytes now self in
  if bool_decide (a = answer) then Some self else None.

Definition is_refused (r : Limits.Request) (bytes : Z) (now : Instant) : Script Limits := fun self =>
  match Limits.check r bytes now self with (Err _, self) => Some self | _ => None end.

Definition set_limit (class scope protocol : Z) (unit : Unit) (r : lp2p_rate) : Script Limits :=
  change (Limits.set_limit class scope protocol unit r).

Definition again {S} (n : nat) (step : Script S) : Script S := play (repeat step n).

Definition start : Instant := 5 * nanos_per_sec.
Definition ms (n : Z) : Z := n * 1000000.

Definition a_bucket_allows_its_burst_and_refills_at_its_rate : bool :=
  let later := start + ms 1100 in
  passes [
    set_limit LP2P_CLASS_UNKNOWN LP2P_SCOPE_PEER LP2P_PROTOCOL_ANY Messages (mk_rate 1 1000 2);
    check (request (peer 1) None 0) 1 start (Ok ());
    check (request (peer 1) None 1) 1 start (Ok ());
    check (request (peer 1) None 0) 1 start (Err LP2P_SCOPE_PEER);
    check (request (peer 2) None 0) 1 start (Ok ());
    check (request (peer 1) None 0) 1 later (Ok ());
    is_refused (request (peer 1) None 0) 1 later ] default_limits.

Definition a_prefix_is_shared_and_a_relayed_connection_has_none : bool :=
  passes [
    set_limit LP2P_CLASS_UNKNOWN LP2P_SCOPE_IP_PREFIX LP2P_PROTOCOL_ANY Messages (mk_rate 1 60000 1);
    check (request (peer 1) (v4 x0a x00 x00 x01) 0) 1 start (Ok ());
    check (request (peer 2) (v4 x0a x00 x00 xc8) 0) 1 start (Err LP2P_SCOPE_IP_PREFIX);
    check (request (peer 3) (v4 x0a x00 x01 x01) 0) 1 start (Ok ());
    check (request (peer 4) None 0) 1 start (Ok ()) ] default_limits.

Definition classes_protocols_and_removal : bool :=
  let p := peer 1 in
  passes [
    set_limit 7 LP2P_SCOPE_GLOBAL 3 Messages (mk_rate 1 60000 1);
    check (request p None 3) 1 start (Ok ());
    check (request p None 3) 1 start (Ok ());
    change (set_class GROUP 7);
    check (request p None 3) 1 start (Ok ());
    is_refused (request p None 3) 1 start;
    check (request p None 4) 1 start (Ok ());
    set_limit 7 LP2P_SCOPE_GLOBAL 3 Messages (mk_rate 0 0 0);
    check (request p None 3) 1 start (Ok ());
    change (set_class GROUP LP2P_CLASS_BLOCKED);
    check (request p None 4) 1 start (Err LP2P_LIMITED_BLOCKED);
    change (set_class GROUP LP2P_CLASS_UNKNOWN);
    expect (fun self => class_of self GROUP =? LP2P_CLASS_UNKNOWN) ] default_limits.

Definition a_refused_request_takes_no_token_from_the_other_limits : bool :=
  let r := request (peer 1) None 0 in
  passes [
    set_limit LP2P_CLASS_UNKNOWN LP2P_SCOPE_PEER LP2P_PROTOCOL_ANY Messages (mk_rate 1 60000 5);
    set_limit LP2P_CLASS_UNKNOWN LP2P_SCOPE_GLOBAL LP2P_PROTOCOL_ANY Messages (mk_rate 1 60000 1);
    check r 1 start (Ok ());
    again 10 (check r 1 start (Err LP2P_SCOPE_GLOBAL));
    set_limit LP2P_CLASS_UNKNOWN LP2P_SCOPE_GLOBAL LP2P_PROTOCOL_ANY Messages (mk_rate 0 0 0);
    again 4 (check r 1 start (Ok ()));
    is_refused r 1 start ] default_limits.

Definition a_limit_in_bytes_counts_the_size_and_holds_beside_one_in_messages : bool :=
  let r := request (peer 1) None LP2P_PROTOCOL_TOPICS in
  let later := start + 1 * nanos_per_sec in
  passes [
    set_limit LP2P_CLASS_UNKNOWN LP2P_SCOPE_PEER LP2P_PROTOCOL_TOPICS Bytes (mk_rate 1000 1000 4000);
    set_limit LP2P_CLASS_UNKNOWN LP2P_SCOPE_PEER LP2P_PROTOCOL_TOPICS Messages (mk_rate 1 1000 3);
    again 3 (check r 1000 start (Ok ()));
    check r 1 start (Err LP2P_SCOPE_PEER);
    check r 2500 later (Err LP2P_SCOPE_PEER);
    check r 900 later (Ok ()) ] default_limits.

Definition allows (p : @PeerId ToyIdentity) (now : Instant) (answer : bool) : Script SourceRate := fun self =>
  let '(a, self) := allow p now self in if eqb a answer then Some self else None.

Definition announcements_are_limited_per_source : bool :=
  passes [
    again 3 (allows (peer 1) start true);
    allows (peer 1) start false;
    allows (peer 2) start true;
    allows (peer 1) (start + 10 * nanos_per_sec) true ] (new_source_rate (10 * nanos_per_sec) 3).

(** How many of [n] reports at [now] are made. *)
Fixpoint reported (n : nat) (now : Instant) (self : Limits) : Z * Limits :=
  match n with
  | O => (0, self)
  | S n =>
      let '(yes, self) := may_report now self in
      let '(count, self) := reported n now self in
      ((if yes : bool then 1 else 0) + count, self)
  end.

Definition full_buckets_are_forgotten_and_events_are_bounded : bool :=
  passes [
    set_limit LP2P_CLASS_UNKNOWN LP2P_SCOPE_PEER LP2P_PROTOCOL_ANY Messages (mk_rate 1 1000 1);
    check (request (peer 1) None 0) 1 start (Ok ());
    expect (fun self => bool_decide (size (buckets self) = 1%nat));
    change (sweep (start + 2 * nanos_per_sec));
    expect (fun self => bool_decide (size (buckets self) = 0%nat));
    (fun self => let '(n, self) := reported 50 start self in if n =? EVENTS_PER_SECOND then Some self else None);
    expect (fun self => (may_report (start + 1 * nanos_per_sec) self).1) ] default_limits.

Example limits_tests_pass :
  a_bucket_allows_its_burst_and_refills_at_its_rate &&
  a_prefix_is_shared_and_a_relayed_connection_has_none &&
  classes_protocols_and_removal &&
  a_refused_request_takes_no_token_from_the_other_limits &&
  a_limit_in_bytes_counts_the_size_and_holds_beside_one_in_messages &&
  announcements_are_limited_per_source &&
  full_buckets_are_forgotten_and_events_are_bounded = true.
Proof. vm_compute. reflexivity. Qed.

End limits.

(** ** src/wire.rs *)

Module wire.
Import Wire.

Definition delegation : bytes := repeat x09 (Z.to_nat LP2P_DELEGATION_BYTES).

Definition frames_round_trip : bool :=
  match decode_request (encode_request delegation (text "/gradido/federation/1") (text "hello")),
        decode_response (encode_response delegation []) with
  | Some req, Some res =>
      bool_decide (req_delegation req = delegation) && bool_decide (req_protocol req = text "/gradido/federation/1") &&
      bool_decide (req_payload req = text "hello") && bool_decide (res_payload res = [])
  | _, _ => false
  end.

Definition a_topic_key_names_one_string : bool :=
  bool_decide (topic_name (key_byte xab) = text "/lp2p/topic/1/abababababababababababababababababababababababababababababababab").

Definition truncated_frames_are_refused : bool :=
  let frame := encode_request delegation (text "/p") (text "x") in
  negb (bool_decide (is_Some (decode_request (take 10 frame)))) &&
  negb (bool_decide (is_Some (decode_request [x02]))) &&
  negb (bool_decide (is_Some (decode_response (take 100 frame)))).

Example wire_tests_pass : frames_round_trip && a_topic_key_names_one_string && truncated_frames_are_refused = true.
Proof. vm_compute. reflexivity. Qed.

End wire.

(** ** src/delegation.rs and src/keys.rs

    With the toy signatures; [now] is some time. *)

Module delegation.
Import Delegation.

Definition now : Z := 1700000000000.

#[local] Instance Invalid_eq_dec : EqDecision Invalid.
Proof. solve_decision. Defined.

Definition a_signed_delegation_verifies_and_survives_the_round_trip : bool :=
  match sign (I := ToyIdentity) (key_byte x01) (key_byte x02) 0 with
  | Some d =>
      match parse (to_bytes d) with
      | Ok parsed => bool_decide (to_bytes parsed = to_bytes d) && bool_decide (verify_for parsed (key_byte x02) now = Ok ())
      | Err _ => false
      end
  | None => false
  end.

Definition anything_changed_is_refused : bool :=
  match sign (I := ToyIdentity) (key_byte x01) (key_byte x02) 0, sign (I := ToyIdentity) (key_byte x01) (key_byte x02) 1000 with
  | Some d, Some expired =>
      let other_node := mk_delegation (key_byte x03) (group d) (expires_ms d) (signature d) in
      bool_decide (verify other_node now = Err Signature) &&
      bool_decide (verify_for d (key_byte x03) now = Err WrongNode) &&
      bool_decide (verify expired now = Err Expired) &&
      match parse (repeat x00 10) with Err Length => true | _ => false end
  | _, _ => false
  end.

Definition peer_id_round_trips_through_the_key : bool :=
  match keypair_from_seed (key_byte x07) with
  | Some keypair =>
      match public_key keypair with
      | Some key =>
          match peer_id key with
          | Some peer => bool_decide (peer = to_peer_id (keypair_public keypair)) && bool_decide (key_of peer = Some key)
          | None => false
          end
      | None => false
      end
  | None => false
  end.

Example delegation_tests_pass :
  a_signed_delegation_verifies_and_survives_the_round_trip && anything_changed_is_refused && peer_id_round_trips_through_the_key = true.
Proof. vm_compute. reflexivity. Qed.

End delegation.

(** ** src/events.rs

    A poll that would wait for longer than its timeout is one that comes back
    when it is over. *)

Module events.
Import EventQueue.

Record Queue := mk_queue { max_bytes : Z; inner : Inner }.

Definition new (max_bytes : Z) : Queue := mk_queue max_bytes new_queue.

Definition push (r : EventRecord) : Script Queue := change (fun q => mk_queue (max_bytes q) (EventQueue.push (max_bytes q) r (inner q))).
Definition close (status : Z) : Script Queue := change (fun q => mk_queue (max_bytes q) (EventQueue.close status (inner q))).

(** [q.poll(&mut buf, timeout)], its answer and what it wrote. *)
Definition poll (cap : Z) (ok : Z → bytes → bool) : Script Queue := fun q =>
  '(answer, out, inner) ← poll_pass 0 0 cap (inner q);
  if ok answer out then Some (mk_queue (max_bytes q) inner) else None.

Definition answers (n : Z) : Z → bytes → bool := fun answer _ => answer =? n.

Definition header (buf : bytes) : option lp2p_event := read_header buf.

Definition listening (d : String.string) : EventRecord := data (new_event LP2P_EV_LISTENING) (text d).

Definition records_are_padded_and_whole : bool :=
  passes [
    push (listening "abc");
    push (listening "defgh");
    poll 100 (fun n buf => (n =? 96) && match header buf with
      | Some h => (ev_type h =? LP2P_EV_LISTENING) && (ev_size h =? 96) && (ev_data_len h =? 3)
      | None => false end);
    poll 50 (answers LP2P_ERR_BUFFER_TOO_SMALL);
    poll 100 (answers 96);
    poll 100 (answers 0) ] (new (2 ^ 16)).

Definition overflow_is_reported_before_the_next_events : bool :=
  passes [
    push (listening "a");
    push (listening "b");
    push (listening "c");
    poll 1024 (fun n buf => (n =? 88 + 96) && match header buf with
      | Some h => (ev_type h =? LP2P_EV_OVERFLOW) && (ev_id h =? 2)
      | None => false end) ] (new 96).

Definition a_closed_queue_answers_its_status_once_drained : bool :=
  passes [
    push (build (new_event LP2P_EV_LISTENING));
    close LP2P_ERR_SHUT_DOWN;
    poll 1024 (answers 88);
    poll 1024 (answers LP2P_ERR_SHUT_DOWN) ] (new 1024).

Example event_tests_pass :
  records_are_padded_and_whole && overflow_is_reported_before_the_next_events &&
  a_closed_queue_answers_its_status_once_drained = true.
Proof. vm_compute. reflexivity. Qed.

End events.

(** ** src/ffi.rs *)

Module ffi.
Import NodeState Ffi.

Definition bucket_is (r : lp2p_rate) (ok : TokenBucket → bool) : bool :=
  match token_bucket r with Some b => ok b | None => false end.

Definition a_rate_becomes_libp2ps_token_bucket : bool :=
  bucket_is (mk_rate 1 120000 30) (fun b => (tb_burst b =? 30) && (tb_interval b =? seconds 120)) &&
  bucket_is (mk_rate 10 1000 5) (fun b => tb_interval b =? millis 100) &&
  negb (bool_decide (is_Some (token_bucket (mk_rate 0 1000 5)))) &&
  negb (bool_decide (is_Some (token_bucket (mk_rate 1 1000 0)))) &&
  bool_decide (limit 0 = None) && bool_decide (limit 7 = Some 7).

Example ffi_tests_pass : a_rate_becomes_libp2ps_token_bucket = true.
Proof. vm_compute. reflexivity. Qed.

End ffi.
